(* ===== verification/_CoqProject ===== *)
-Q . S2P
Prelude.v
Prog.v
TokenName.v
Ledger.v
LedgerFacts.v
LedgerEffects.v
LedgerInv.v
LedgerCount.v
LedgerMint.v
LedgerRetire.v
LedgerSpec.v
LedgerCensus.v
Tier.v
TierFacts.v
TierSpec.v
TierMint.v
Watch.v
WatchSpec.v
WindowFlow.v
WindowFlowFacts.v
WindowFlowSpec.v
WindowCredit.v
WindowCreditSpec.v
Drain.v
DrainFacts.v
DrainSpec.v
Scan.v
ScanSpec.v
CpuTopology.v
CpuTopologySpec.v
PoolProbe.v
PoolProbeSpec.v
PosixLock.v
PosixLockSpec.v
Endings.v
EndingsSpec.v
Lifecycle.v
LifecycleLogic.v
LifecycleHandlers.v
LifecycleSpec.v
IdleBaseline.v
IdleBaselineSpec.v
SpendOnce.v
AdaptiveCpu.v
AdaptiveCpuFacts.v
AdaptiveCpuLedger.v
AdaptiveCpuSpec.v
AdaptiveCpuRuns.v
CpuSampler.v
CpuSamplerSpec.v
CpuLearning.v
CpuLearningSpec.v
GpuGuard.v
GpuGuardSpec.v
AdaptiveGpu.v
AdaptiveGpuSpec.v
AdaptiveGpuRuns.v
Gang.v
GangLogic.v
GangSound.v
GangHandlers.v
GangRuns.v
GangSpec.v
Partition.v
PartitionFacts.v
PartitionSpec.v
Decompose.v
DecomposeSpec.v
FileStore.v
FileStoreLogic.v
FileStoreHandlers.v
FileStoreSpec.v
