(* ===== verification/Prelude.v ===== *)
(** * PrismaBuild: a verification development

    PrismaBuild is a queue of sealed actions shared by the boxes of a fleet
    through a file system.  Workers claim rows, pay for them with token files
    of a per-box ledger, watch the action they launched, and give the tokens
    back; storage tiers stage the data the actions read, in token ledgers of
    their own.  This library models the parts of [src/src/prismabuild] that
    decide who may take what and for how long, as executable definitions over
    explicit state, and proves what makes them correct.

    ** Files and the code they model

    - [Prelude]: results ([Ok]/[Raise]), strings, sorted dictionaries, sums;
      the tactics and hint databases of the library.
    - [TokenName], [Ledger]: [ResourceLedger] of [pool.py] and
      [holder_census.py].  The state is the directory tree: [free/], one
      directory per holder, [minted/], [dead/] and the sidecars.  Each call
      takes an [IO] record that says which rename, mkdir, unlink, create or
      listing the file system refuses, so the theorems cover every failure.
      [LedgerFacts], [LedgerEffects], [LedgerInv], [LedgerCount], [LedgerMint],
      [LedgerRetire] hold its lemmas (what a move loop does, the invariants
      under a step relation of all mutators, the counts), [LedgerSpec] and
      [LedgerCensus] its theorems: no double booking, conservation,
      all-or-nothing acquisition, refinement of an abstract counter, exact
      mint and retirement, the census, the sweep of abandoned acquisitions.
    - [Tier]: [TierLedger] of [tier_holdings.py] with the kinds of
      [storage_tiers.py]: a tier ledger and, for a RAM tier, the host ledger
      that mirrors it.  [TierFacts], [TierSpec], [TierMint]: takes are exact
      or change nothing, releases and handovers keep the mirror, a converged
      reconciliation is true, a mint reaches its target.
    - [Watch]: [ProgressWatch], [ActivityWatch], the budgets and the stall
      check of [pool.py].  [WatchSpec]: a run without progress is bounded,
      credits do not overlap, what a report can grant, what a check decides.
    - [WindowFlow], [WindowCredit]: [window_credit.py].  [WindowFlowFacts]
      and [WindowFlowSpec] prove the joint need a maximum flow and a minimum
      cut; [WindowCreditSpec] the admission gate, the claim order and the
      victim rule.
    - [Drain]: [drain_policy.py] and the observation loop, the pass record and
      the holder bound of [pool.py], in a state monad with the code's early
      returns and exceptions.  [DrainFacts] is a weakest-precondition logic
      for it, [DrainSpec] its theorems: every withhold is justified, a
      refilled box cannot hold others back past the ceiling, a measurement's
      deadlines end its wait.
    - [Scan]: [candidate_policy.py] and the room check and opening of the
      claim pass of [pool.py]; uses [Drain]'s verdicts.  [ScanSpec]: a
      withheld row stays behind, kept rooms survive admissions, the verdict
      governs the scan.
    - [CpuTopology], [CpuTopologySpec]: [cpu_topology.py]; the tiers it
      builds are what [Ledger.configure_cpu_tiers] accepts.
    - [PoolProbe], [PoolProbeSpec]: [PoolContentionProbe] of [pool.py] with
      the interval arithmetic of [storage_tiers.py], and the heartbeat that
      credits a [Watch] with what it judged.
    - [PosixLock], [PosixLockSpec]: [posix_lock.py].  [held] and [retire] are
      programs over system calls, run by any number of threads and processes
      that may be killed; at most one thread is ever inside a held block.
    - [Endings], [EndingsSpec]: [endings.py] and the capture loop
      [outcome_poll] of [action_wait.py]: which record answers for a key, which
      for a watched run, and which transition an attempt permits.  A poll is a
      program of reads, each of which may raise; it is run over a trace that
      gives the files as they are at each read, so that they may move between
      any two.

    - [Prog]: programs over calls and [safe], a rely-guarantee assertion about
      one actor's program.
    - [Lifecycle]: the life of one key: [lifecycle.py] with the claim, publish,
      withdraw and reap of [pool.py] and [claim_identity.py].  The state is
      the key's files -- [ready/], [claimed/], tombstones, captures, terminal
      rows, immutable attempts, decisions and supersessions -- and each
      handler a program over the file operations it makes; actors run them
      interleaved and die anywhere.  [LifecycleLogic] has the invariant, when
      each operation is safe and what it teaches; [LifecycleHandlers] proves
      every handler safe; [LifecycleSpec] draws the conclusions -- no
      generation disappears, attempts are in order, rows agree with them --
      and plays three runs in which the code loses a generation.
    - [IdleBaseline], [IdleBaselineSpec]: the idle history of a host in
      [adaptive_cpu.py] ([idle_judgement_with_reference], [Controller.idle]):
      what a sample is compared with, excursions, provisional seeds.
    - [AdaptiveCpu]: [Controller.decision] of [adaptive_cpu.py] with the holder
      census, prices, allowance, pressure and isolation gates, lending,
      placement, and the borrow record ([admitted], [withdrew]).
      [AdaptiveCpuFacts] inverts an admission, [AdaptiveCpuLedger] follows it
      into the ledger, [AdaptiveCpuSpec] has what one decision guarantees and
      [AdaptiveCpuRuns] what sequences of them keep.
    - [CpuSampler], [CpuSamplerSpec]: [Controller.sample] and
      [control_cpu.attributed_ticks]: the sample a decision reads, and that it
      always is evidence.
    - [CpuLearning], [CpuLearningSpec]: export rates and slots, and what a
      completion teaches of its shape.
    - [SpendOnce]: credit that is spent once, the abstract promise the borrows
      of the CPU controller and the probes of the GPU controller refine.
    - [AdaptiveGpu]: [Controller.decision] of [adaptive_gpu.py] with the sample
      facts of [gpu_sample_facts.py], the power reference, the response to a
      probe, the power-cap exception and the probe's credit.
      [AdaptiveGpuSpec] has the evidence behind an admission and
      [AdaptiveGpuRuns] what sequences keep: who is on the device, one probe a
      sample, a bounded reference.
    - [GpuGuard], [GpuGuardSpec]: [Guard.observe] of [gpu_memory.py]: whom the
      memory guard stops, as streaks of evidence.
    - [Gang]: gang reservation: [_gang.py] with the gang parts of the claim
      pass, the start barrier and the teardown of [pool.py] and the election
      refresh of [_measurement_reservation.py].  The state is the gang files
      and the queue rows of members; registrars, claimants, starters and
      tearers are programs over file operations, run interleaved and killed
      anywhere, while the rest of the queue moves rows.  [GangLogic] has the
      invariant and what a key lock and a host's admission let their holder
      know, [GangSound] that every operation keeps it, [GangHandlers] that
      every handler is safe, [GangRuns] an interpreter for scripted runs.
      [GangSpec]: members on hosts of their own, whole starts, the registered
      record, and the two ways in which two members are elected to one host:
      an unreadable election, and the census that [runtime_reservation_census]
      reduces while the GPU runtime gate is latched.  The separation of the
      claims rests on the sibling check, not on the elections.
    - [Partition]: the validation and the batcher of [decomposition.py]
      ([validate_roster], [validate_batch_policy], [_runs], [_partition_run],
      [partition_roster]) over rationals with a rounding as an argument.
      [PartitionFacts] has its bisections and its three passes,
      [PartitionSpec] that its cuts are the best there are and that its
      batches cover the roster.
    - [Decompose], [DecomposeSpec]: the rest of [decomposition.py]: commands
      with a batch slot, plans, memberships, the cover check
      ([verify_exact_cover]), and [freeze_plan], [publish_children] and
      [complete_group] as programs over the records of one parent, beside any
      others.  One plan per parent; a cover is exact or refused; a group
      closes on its frozen children only.
    - [FileStore]: [immutable_files.py].  The state is inodes and directory
      entries; [publish_immutable], [publish_exact], the replacement writers
      and the stable readers are programs over system calls, run by any number
      of callers that may stop anywhere, beside a world that makes and, when
      [moved], moves directories, and that removes current and sealed names
      (as [register_shared_range] of [residency_plan.py] does).  [FileStoreLogic] has the invariant and what
      a caller owns, [FileStoreHandlers] that every program is safe,
      [FileStoreSpec] that sealed files are written once and whole, that
      answers about a name agree while it is not removed, that reads of current records are whole and
      not stale, and that what is published is read.  The first-writer records
      of [Decompose] are such files.

    ** Fuel and bounds

    The flow of [WindowFlow] is bounded: a breadth-first search runs for as many
    rounds as there are nodes, the augmenting loop for as many as the sum of
    the needs plus one.  [joint_need_is_maximum] shows that they suffice: the
    function always returns a value.
    The retry loop of [held] takes a number of turns and waits forever after
    them; its safety is proved for every number.  [outcome_poll] gives its
    loop four turns, and [watched_run_answer] shows that every poll ends in an
    answer or an error of one of its at most seven reads, whatever they find.

    ** Idealisations

    Clock readings and durations are integers (microseconds) and rates exact
    rationals, where the code has floats.  A dictionary is a finite map read
    in sorted order where the code sorts it, a directory a set of names.
    Random parts of a name (a nonce, a clock, a pid) are arguments.  In the
    drain policy a prior record's [passes] and [first_unix] are finite.
    Unlinking a mint marker never raises, and a tier's [free/] directory
    exists.
    The lock model has one lock path without hard links.  A [published_unix]
    is an integer, an infinity, not a number, or an integer no float holds;
    the decisions, the archives and the handoffs (which the code reads under
    the transition lock) are one read each; streams are their bytes, so that
    the permissive decoding of a cut code point is not seen.

    In the life of a key a read answers what is there or raises; immutable
    attempts are never missing or tampered with, except that the sweep may
    find so; publication stamps are distinct; the rename of a claim and the
    read of what it moved are one step; a lease is the claim it names.  The
    transition lock is one step, which [transition_lock_excludes] justifies.
    In CPU admission a load is an exact rational and a clock an integer number
    of microseconds, so that comparisons and [round(x, 6)] are those of the
    exact numbers; values a file holds have the type the code writes, so that
    the tests for other types have no case; a holder listing and a telemetry
    read answer what is there.
    GPU admission and the memory guard are modelled alike; the margin of a
    power response is compared as a square, and a response is always taken
    against a non-empty baseline ([probe_baseline]).
    In the ledger a scan that passes over what it cannot list ([Path.glob])
    misses exactly the holders the file system refuses to list, and a commit
    raises where its holder directory or a sidecar fails it.
    In gang reservation a census is the refresh that every candidate makes
    under host admission; gates between the gang's own checks -- capacity,
    backfill, loans, placement -- answer anything.  Gang files are never
    removed: [sweep_gangs], which prunes a gang whose members all ended, is
    left out.  A stamp is an integer, and the loop of the start barrier takes
    a number of turns, for every number.
    In decomposition a duration is a rational and every operation of the
    batcher is followed by a rounding [rnd]; what is proved for all roundings
    asks that they are monotone, idempotent and keep zero, as the rounding of
    floats does short of overflow to infinity.  Digests of documents are
    arguments.  A request and a frozen half are records of the fields that
    the plan reads; a stored record that is there but malformed is one whose
    reading raises, or a plan that fails its own check.
    In the file store a stat tells inode, kind, mode and size truly and says
    anything of times and link counts; a sealed name may be
    removed but is never replaced in one step, and where a rename retires it
    the retired name is not followed; each temporary name is new; a path written by rename
    goes through real directories; and a chunk loop takes a number of turns,
    for every number.

    ** Not modelled

    The measurement reservation that [record_pass] carries, class-scoped
    evidence and the dead-input failing inside [_opening_claim_row];
    [reclaim_idle_rates] and the loops over all tiers of [tier_holdings.py];
    the texts of terminal records.  In the life of a key broker scopes
    and late-finish marks, gangs, membership handoffs and the quarantine of
    unreadable rows; of gangs backfill, bounded loans, resident holds, terminal
    marks and the sweep; of decomposition the common spec, task data
    projections and the reading of sealed children.  Sealing and the CAS, submission, the tier cycle and the movers, reader
    leases, produced outputs, containment, the Slurm lane, reporting and
    retention: mostly file, process and container I/O; the manifest lists
    them. *)

From stdpp Require Export base tactics list gmap sets sorting strings pretty numbers relations.
From Stdlib Require Import Ascii.
From stdpp Require Import options.

#[global] Open Scope string_scope.
#[global] Open Scope list_scope.
#[global] Open Scope nat_scope.

(** ** Python results *)

(** The exceptions the modelled code raises or lets propagate. *)
Inductive exn :=
  | PoolContractError (what : string)
  | OSError (what : string)
  | ValueError (what : string).

#[export] Instance exn_eq_dec : EqDecision exn.
Proof. solve_decision. Defined.

(** A call either returns a value or raises. *)
Inductive res (A : Type) :=
  | Ok (a : A)
  | Raise (e : exn).
Arguments Ok {A} a.
Arguments Raise {A} e.

#[export] Instance res_eq_dec {A} `{EqDecision A} : EqDecision (res A).
Proof. solve_decision. Defined.

Definition is_ok {A} (r : res A) : bool :=
  match r with Ok _ => true | Raise _ => false end.

#[export] Instance res_bind : MBind res := λ A B f r,
  match r with Ok a => f a | Raise e => Raise e end.
#[export] Instance res_ret : MRet res := λ A a, Ok a.

Lemma res_bind_ok {A B} (f : A → res B) (r : res A) b :
  r ≫= f = Ok b ↔ ∃ a, r = Ok a ∧ f a = Ok b.
Proof. destruct r; simpl; naive_solver. Qed.

(** ** Characters and strings *)

Definition dash : ascii := "-"%char.
Definition dot : ascii := "."%char.

(** Python's [c in s] for a one-character [c]. *)
Fixpoint has_char (c : ascii) (s : string) : bool :=
  match s with
  | "" => false
  | String a s' => bool_decide (a = c) || has_char c s'
  end.

(** Python's [s.startswith(p)]. *)
Definition starts_with (p s : string) : bool := String.prefix p s.

(** Python's [s.split(c)]: never empty. *)
Fixpoint split_on (c : ascii) (s : string) : list string :=
  match s with
  | "" => [""]
  | String a s' =>
      if bool_decide (a = c) then "" :: split_on c s'
      else match split_on c s' with
           | [] => [String a ""]
           | w :: ws => String a w :: ws
           end
  end.

(** Python's [s.split(c, n)]: at most [n] splits. *)
Fixpoint split_on_max (n : nat) (c : ascii) (s : string) : list string :=
  match s with
  | "" => [""]
  | String a s' =>
      if bool_decide (a = c) then
        match n with
        | 0 => [String a s']
        | S n' => "" :: split_on_max n' c s'
        end
      else match split_on_max n c s' with
           | [] => [String a ""]
           | w :: ws => String a w :: ws
           end
  end.

(** Python's [c.join(parts)]. *)
Fixpoint join_with (c : ascii) (parts : list string) : string :=
  match parts with
  | [] => ""
  | [w] => w
  | w :: ws => w +:+ String c (join_with c ws)
  end.

(** Python's [s.rsplit(c, 1)] when it splits: what precedes and what follows
    the last [c]. *)
Fixpoint rsplit_once (c : ascii) (s : string) : option (string * string) :=
  match s with
  | "" => None
  | String a s' =>
      match rsplit_once c s' with
      | Some (l, r) => Some (String a l, r)
      | None => if bool_decide (a = c) then Some ("", s') else None
      end
  end.

Definition digit_value (a : ascii) : option N :=
  let n := N_of_ascii a in
  if bool_decide (48 ≤ n ∧ n ≤ 57)%N then Some (n - 48)%N else None.

(** The value of a run of ASCII digits read after [acc]. *)
Fixpoint digits_from (acc : N) (s : string) : option N :=
  match s with
  | "" => Some acc
  | String a s' =>
      match digit_value a with
      | Some d => digits_from (acc * 10 + d)%N s'
      | None => None
      end
  end.

(** Python's [int(s)] on the ASCII-digit strings this code writes; anything
    else is the [ValueError] the callers handle. *)
Definition parse_nat (s : string) : option N :=
  match s with "" => None | _ => digits_from 0 s end.

Fixpoint zeros (n : nat) : string :=
  match n with 0 => "" | S n' => String "0" (zeros n') end.

(** Python's [f"{i:04d}"]. *)
Definition pad4 (i : N) : string :=
  let s := pretty i in zeros (4 - String.length s) +:+ s.

(** All characters of [s] satisfy [p]. *)
Fixpoint all_chars (p : ascii → bool) (s : string) : bool :=
  match s with "" => true | String a s' => p a && all_chars p s' end.

Definition is_digit (a : ascii) : bool := bool_decide (is_Some (digit_value a)).
Definition is_lower_hex (a : ascii) : bool :=
  is_digit a || bool_decide (97 ≤ N_of_ascii a ∧ N_of_ascii a ≤ 102)%N.

(** *** Lemmas on strings *)

Lemma app_nil_s s : "" +:+ s = s.
Proof. done. Qed.

Lemma app_cons_s a s t : String a s +:+ t = String a (s +:+ t).
Proof. done. Qed.

Lemma app_assoc_s (s t u : string) : s +:+ (t +:+ u) = (s +:+ t) +:+ u.
Proof. induction s as [|a s IH]; [done|]. rewrite !app_cons_s. by rewrite IH. Qed.

Lemma app_nil_r_s (s : string) : s +:+ "" = s.
Proof. induction s as [|a s IH]; [done|]. rewrite app_cons_s. by rewrite IH. Qed.

Lemma has_char_app c s t : has_char c (s +:+ t) = has_char c s || has_char c t.
Proof.
  induction s as [|a s IH]; [done|]. rewrite app_cons_s; simpl.
  by rewrite IH, orb_assoc.
Qed.

Lemma split_on_ne c s : split_on c s ≠ [].
Proof. destruct s; simpl; repeat case_match; done. Qed.

Lemma split_on_clean c s : has_char c s = false → split_on c s = [s].
Proof.
  induction s as [|a s IH]; [done|]; simpl.
  intros [H1 H2]%orb_false_iff. by rewrite H1, IH.
Qed.

Lemma split_on_app_sep c s t :
  has_char c s = false → split_on c (s +:+ String c t) = s :: split_on c t.
Proof.
  induction s as [|a s IH]; simpl.
  - intros _. by rewrite bool_decide_eq_true_2.
  - intros [H1 H2]%orb_false_iff.
    by rewrite H1, IH.
Qed.

Lemma split_join c ws :
  ws ≠ [] → Forall (λ w, has_char c w = false) ws →
  split_on c (join_with c ws) = ws.
Proof.
  induction ws as [|w ws IH]; [done|]; intros _ [Hw Hws]%Forall_cons.
  destruct ws as [|w' ws]; simpl.
  - by apply split_on_clean.
  - rewrite split_on_app_sep by done. f_equal. by apply IH.
Qed.

Lemma join_split c s : join_with c (split_on c s) = s.
Proof.
  induction s as [|a s IH]; [done|]; simpl.
  pose proof (split_on_ne c s) as Hne.
  case_bool_decide; subst.
  - destruct (split_on c s) eqn:E; [done|]. simpl in *. by rewrite <- IH.
  - destruct (split_on c s) as [|w [|w' ws]] eqn:E; [done|..];
      simpl in *; by rewrite <- IH.
Qed.

Lemma split_on_words_clean c s : Forall (λ w, has_char c w = false) (split_on c s).
Proof.
  induction s as [|a s IH]; simpl; [by constructor|].
  case_bool_decide as Ha; [by constructor|].
  destruct (split_on c s) as [|w ws]; [by repeat constructor; simpl; rewrite bool_decide_eq_false_2|].
  apply Forall_cons in IH as [Hw Hws]. constructor; [|done].
  simpl. by rewrite bool_decide_eq_false_2, Hw.
Qed.

Lemma rsplit_once_clean c s : has_char c s = false → rsplit_once c s = None.
Proof.
  induction s as [|a s IH]; [done|]; simpl.
  intros [H1 H2]%orb_false_iff. by rewrite IH, H1.
Qed.

Lemma rsplit_once_app c s t :
  has_char c t = false → rsplit_once c (s +:+ String c t) = Some (s, t).
Proof.
  intros Ht. induction s as [|a s IH].
  - rewrite app_nil_s; simpl. by rewrite rsplit_once_clean, bool_decide_eq_true_2.
  - rewrite app_cons_s; simpl. by rewrite IH.
Qed.

Lemma rsplit_once_Some c s l r :
  rsplit_once c s = Some (l, r) → s = l +:+ String c r ∧ has_char c r = false.
Proof.
  revert l. induction s as [|a s IH]; [done|]; simpl; intros l.
  destruct (rsplit_once c s) as [[l' r']|] eqn:E.
  - intros [= <- <-]. destruct (IH l' eq_refl) as [-> ?]. done.
  - case_bool_decide; [|done]. intros [= <- <-]. subst. split; [done|].
    destruct (has_char c s) eqn:Hc; [|done]. exfalso. clear IH.
    induction s as [|b s IHs]; [done|]. simpl in *.
    destruct (rsplit_once c s) as [[]|]; [done|].
    case_bool_decide; simpl in *; naive_solver.
Qed.

Lemma starts_with_app p s : starts_with p (p +:+ s) = true.
Proof.
  unfold starts_with. induction p as [|a p IH]; [by destruct s|].
  rewrite app_cons_s; simpl. by destruct (ascii_dec a a).
Qed.

Lemma starts_with_inv p s : starts_with p s = true → ∃ t, s = p +:+ t.
Proof.
  unfold starts_with. revert s. induction p as [|a p IH]; intros s.
  - intros _. by exists s.
  - destruct s as [|b s]; simpl; [done|].
    destruct (ascii_dec a b) as [->|]; [|done].
    intros [t ->]%IH. by exists t.
Qed.

Lemma digit_value_pretty x : (x < 10)%N → digit_value (pretty_N_char x) = Some x.
Proof.
  intros Hx.
  assert (x = 0 ∨ x = 1 ∨ x = 2 ∨ x = 3 ∨ x = 4 ∨ x = 5 ∨ x = 6 ∨ x = 7 ∨ x = 8 ∨ x = 9)%N
    as Hc by lia.
  by repeat destruct Hc as [->|Hc]; subst.
Qed.

Lemma digits_from_go x s : digits_from 0 (pretty_N_go x s) = digits_from x s.
Proof.
  revert s. induction (N.lt_wf_0 x) as [x _ IH]; intros s.
  destruct (decide (x = 0)%N) as [->|Hx]; [by rewrite pretty_N_go_0|].
  rewrite pretty_N_go_step, IH by (try apply N.div_lt; lia).
  simpl. rewrite digit_value_pretty by (apply N.mod_lt; lia).
  f_equal. rewrite (N.div_mod' x 10) at 3. lia.
Qed.

Lemma digits_from_pretty x : digits_from 0 (pretty x) = Some x.
Proof.
  unfold pretty, pretty_N. case_decide; subst; [done|].
  by rewrite digits_from_go.
Qed.

Lemma digits_from_zeros n s : digits_from 0 (zeros n +:+ s) = digits_from 0 s.
Proof. induction n; [done|]. simpl zeros. by rewrite app_cons_s. Qed.

Lemma pretty_N_nonempty (x : N) : pretty x ≠ "".
Proof. intros H. pose proof (digits_from_pretty x) as Hd. rewrite H in Hd.
  simpl in Hd. injection Hd as <-. by vm_compute in H. Qed.

Lemma pad4_nonempty i : pad4 i ≠ "".
Proof.
  unfold pad4. pose proof (pretty_N_nonempty i).
  destruct (4 - _); [done|]. simpl zeros. by rewrite app_cons_s.
Qed.

Lemma parse_nat_pretty x : parse_nat (pretty x) = Some x.
Proof.
  unfold parse_nat. pose proof (pretty_N_nonempty x). pose proof (digits_from_pretty x).
  by destruct (pretty x).
Qed.

Lemma parse_nat_pad4 i : parse_nat (pad4 i) = Some i.
Proof.
  unfold parse_nat. pose proof (pad4_nonempty i).
  destruct (pad4 i) eqn:E; [done|]. rewrite <- E. unfold pad4.
  by rewrite digits_from_zeros, digits_from_pretty.
Qed.

Lemma digits_from_clean acc s n c :
  digits_from acc s = Some n → digit_value c = None → has_char c s = false.
Proof.
  revert acc. induction s as [|a s IH]; [done|]; simpl; intros acc.
  destruct (digit_value a) eqn:Ha; [|done]. intros Hs Hc.
  rewrite (IH _ Hs Hc), orb_false_r.
  apply bool_decide_eq_false_2. intros ->. congruence.
Qed.

Lemma pretty_N_clean (x : N) c : digit_value c = None → has_char c (pretty x) = false.
Proof. eapply digits_from_clean. apply digits_from_pretty. Qed.

Lemma pad4_clean i c : digit_value c = None → has_char c (pad4 i) = false.
Proof.
  eapply digits_from_clean. unfold pad4.
  rewrite digits_from_zeros. apply digits_from_pretty.
Qed.

Lemma digits_from_all acc s n : digits_from acc s = Some n → all_chars is_digit s = true.
Proof.
  revert acc. induction s as [|a s IH]; [done|]; simpl; intros acc.
  destruct (digit_value a) eqn:Ha; [|done]. intros ->%IH.
  unfold is_digit. rewrite bool_decide_eq_true_2; [done|]. by rewrite Ha.
Qed.

(** ** Sorted listings *)

(** [sorted(names)] of a directory listing: each name once, in string order. *)
Definition listing (X : gset string) : list string :=
  merge_sort (≤)%string (elements X).

Lemma elem_of_listing n X : n ∈ listing X ↔ n ∈ X.
Proof. unfold listing. rewrite (merge_sort_Permutation _ _). apply elem_of_elements. Qed.

Lemma NoDup_listing X : NoDup (listing X).
Proof. unfold listing. rewrite (merge_sort_Permutation _ _). apply NoDup_elements. Qed.

Lemma length_listing X : length (listing X) = size X.
Proof. unfold listing. by rewrite (merge_sort_Permutation _ _). Qed.

Lemma listing_sorted X : StronglySorted (≤)%string (listing X).
Proof. apply (StronglySorted_merge_sort _). Qed.

(** [sorted(mapping.items())]. *)
Definition sorted_items {A} (m : gmap string A) : list (string * A) :=
  omap (λ k, (λ v, (k, v)) <$> m !! k) (listing (dom m)).

Lemma elem_of_sorted_items {A} (m : gmap string A) k v :
  (k, v) ∈ sorted_items m ↔ m !! k = Some v.
Proof.
  unfold sorted_items. rewrite list_elem_of_omap. split.
  - intros (k' & _ & H). destruct (m !! k') eqn:E; naive_solver.
  - intros H. exists k. rewrite H. split; [|done].
    apply elem_of_listing, elem_of_dom. by rewrite H.
Qed.

Lemma NoDup_sorted_items {A} (m : gmap string A) : NoDup (sorted_items m).*1.
Proof.
  unfold sorted_items. pose proof (NoDup_listing (dom m)) as Hnd.
  induction Hnd as [|k ks Hk _ IH]; [constructor|]. simpl. destruct (m !! k) as [v|]; simpl; [|done].
  constructor; [|done]. rewrite list_elem_of_fmap. intros ([k' v'] & -> & Hin).
  apply list_elem_of_omap in Hin as (k2 & Hin & Heq). destruct (m !! k2); naive_solver.
Qed.

Lemma sorted_items_to_map {A} (m : gmap string A) : list_to_map (sorted_items m) = m.
Proof.
  apply map_eq. intros k. apply option_eq. intros v.
  rewrite <- elem_of_list_to_map by apply NoDup_sorted_items. apply elem_of_sorted_items.
Qed.

(** ** Sums *)

Local Open Scope Z_scope.

Definition sumZ {A} (f : A → Z) (l : list A) : Z := foldr (λ x acc, f x + acc) 0 l.
#[global] Arguments sumZ {A} f l : simpl never.

Section sums.
Context {A : Type}.
  Implicit Types (f g : A → Z) (l : list A).

Lemma sumZ_app f l1 l2 : sumZ f (l1 ++ l2) = sumZ f l1 + sumZ f l2.
Proof. unfold sumZ. induction l1 as [|x l1 IH]; [done|]. cbn [foldr app]. lia. Qed.

Lemma sumZ_cons f x l : sumZ f (x :: l) = f x + sumZ f l.
Proof. done. Qed.

Lemma sumZ_ext f g l : (∀ x, x ∈ l → f x = g x) → sumZ f l = sumZ g l.
Proof.
  induction l as [|x l IH]; intros H; [done|]. rewrite !sumZ_cons, IH, H; [done|by left|].
  intros y Hy. apply H. by right.
Qed.

Lemma sumZ_le f g l : (∀ x, x ∈ l → f x ≤ g x) → sumZ f l ≤ sumZ g l.
Proof.
  induction l as [|x l IH]; intros H; [done|]. rewrite !sumZ_cons.
  specialize (IH ltac:(intros; apply H; by right)). specialize (H x ltac:(by left)). lia.
Qed.

Lemma sumZ_0 f l : (∀ x, x ∈ l → f x = 0) → sumZ f l = 0.
Proof.
  intros H. rewrite (sumZ_ext f (λ _, 0) l H). clear. by induction l.
Qed.

Lemma sumZ_nonneg f l : (∀ x, x ∈ l → 0 ≤ f x) → 0 ≤ sumZ f l.
Proof. intros H. rewrite <- (sumZ_0 (λ _, 0) l) by done. by apply sumZ_le. Qed.

Lemma sumZ_add f g l : sumZ (λ x, f x + g x) l = sumZ f l + sumZ g l.
Proof. induction l as [|x l IH]; [done|]. rewrite !sumZ_cons, IH. lia. Qed.

Lemma sumZ_opp f l : sumZ (λ x, - f x) l = - sumZ f l.
Proof. induction l as [|x l IH]; [done|]. rewrite !sumZ_cons, IH. lia. Qed.

Lemma sumZ_perm f l l' : l ≡ₚ l' → sumZ f l = sumZ f l'.
Proof. induction 1; rewrite ?sumZ_cons in *; try lia; done. Qed.

(** A sum with one distinguished element. *)
Lemma sumZ_at `{EqDecision A} x c l :
  NoDup l → x ∈ l → sumZ (λ y, if decide (y = x) then c else 0) l = c.
Proof.
  induction l as [|z l IH]; intros Hnd Hx; [by apply elem_of_nil in Hx|].
  apply NoDup_cons in Hnd as [Hz Hnd]. rewrite sumZ_cons. apply elem_of_cons in Hx as [->|Hx].
  - rewrite decide_True by done. rewrite sumZ_0; [lia|]. intros y Hy. rewrite decide_False; [done|].
    by intros ->.
  - rewrite decide_False by (by intros ->). by rewrite IH.
Qed.

Lemma sumZ_elem_le f l x : (∀ y, y ∈ l → 0 ≤ f y) → x ∈ l → f x ≤ sumZ f l.
Proof.
  intros Hp Hx. induction l as [|z l IH]; [by apply elem_of_nil in Hx|]. rewrite sumZ_cons.
  pose proof (Hp z ltac:(by left)). apply elem_of_cons in Hx as [->|Hx].
  - pose proof (sumZ_nonneg f l ltac:(intros; apply Hp; by right)). lia.
  - specialize (IH ltac:(intros; apply Hp; by right) Hx). lia.
Qed.
End sums.

Lemma sumZ_swap {A B} (f : A → B → Z) l1 l2 :
  sumZ (λ x, sumZ (f x) l2) l1 = sumZ (λ y, sumZ (λ x, f x y) l1) l2.
Proof.
  induction l1 as [|x l1 IH].
  - symmetry. by apply sumZ_0.
  - rewrite sumZ_cons, IH, <- sumZ_add. done.
Qed.

Lemma sumZ_fmap {A B} (g : A → B) (f : B → Z) l : sumZ f (g <$> l) = sumZ (λ x, f (g x)) l.
Proof. induction l as [|x l IH]; [done|]. rewrite fmap_cons, !sumZ_cons. by rewrite IH. Qed.

Lemma sumZ_concat {A} (f : A → Z) (ls : list (list A)) : sumZ f (concat ls) = sumZ (sumZ f) ls.
Proof. induction ls as [|l ls IH]; [done|]. simpl. by rewrite sumZ_app, IH. Qed.

(** An antisymmetric function sums to nothing over a square. *)
Lemma sumZ_antisym (g : nat → nat → Z) l :
  (∀ u v, g u v = - g v u) → sumZ (λ u, sumZ (g u) l) l = 0.
Proof.
  intros Hg. assert (sumZ (λ u, sumZ (g u) l) l = - sumZ (λ u, sumZ (g u) l) l) as H; [|lia].
  rewrite sumZ_swap at 1. rewrite <- sumZ_opp. apply sumZ_ext. intros u _.
  rewrite <- sumZ_opp. apply sumZ_ext. intros v _. apply Hg.
Qed.

Local Close Scope Z_scope.

(** ** Automation *)

Create HintDb prisma discriminated.

(** Case analysis on every [match] and [if] of the goal and hypotheses. *)
Ltac crush_match := repeat (case_match || case_decide || case_bool_decide); simplify_eq/=.

(** Case analysis on the outermost boolean test of the goal. *)
Ltac case_if :=
  match goal with |- context [if ?b then _ else _] => let E := fresh "Hif" in destruct b eqn:E end.
