(* ===== verification/Prog.v ===== *)
(** * Programs over calls

    Trees of calls with answers, run by a pool of actors one call at a time.
    [safe] is a rely-guarantee assertion about one actor's program: facts that
    only ever become true are carried along a preorder of states, facts that
    other actors could undo live in the actor's mode. *)
From S2P Require Import Prelude.

Inductive prog (op : Type → Type) (A : Type) : Type :=
  | Ret (a : A)
  | Do {X : Type} (o : op X) (k : X → prog op A).
Arguments Ret {op A} a.
Arguments Do {op A X} o k.

Fixpoint prog_bind {op A B} (p : prog op A) (f : A → prog op B) : prog op B :=
  match p with
  | Ret a => f a
  | Do o k => Do o (λ x, prog_bind (k x) f)
  end.

#[export] Instance prog_mbind op : MBind (prog op) := λ A B f p, prog_bind p f.
#[export] Instance prog_mret op : MRet (prog op) := λ A a, Ret a.

Definition call {op X} (o : op X) : prog op X := Do o Ret.

(** Runs of the machine, one after the other. *)
Lemma steps_app {A : Type} (R : relation A) x y z : rtc R x y → rtc R y z → rtc R x z.
Proof. induction 1 as [|x y' y H1 _ IH]; [done|]. intros H. eapply rtc_l; [exact H1|]. by apply IH. Qed.

Section safe.
Context {op : Type → Type} {st mode : Type}.
(** States grow: [le s s'] says that what is permanent in [s] is in [s']. *)
Context (le : st → st → Prop) `{!PreOrder le}.
(** When a call is safe, and what its answer says. *)
Context (pre : ∀ X, mode → st → op X → Prop).
Context (post : ∀ X, mode → st → op X → X → mode → st → Prop).

Fixpoint safe {A} (p : prog op A) (m : mode) (s : st) (Q : A → mode → st → Prop) : Prop :=
  match p with
  | Ret a => ∀ s', le s s' → Q a m s'
  | Do o k => ∀ s1, le s s1 →
      pre _ m s1 o ∧ ∀ x m' s2, le s1 s2 → post _ m s1 o x m' s2 → safe (k x) m' s2 Q
  end.

Lemma prog_safe_mono {A} (p : prog op A) m s s' Q : le s s' → safe p m s Q → safe p m s' Q.
Proof using Type*.
  destruct p as [a|X o k]; simpl; intros Hle H.
  - intros s2 H2. apply H. by etrans.
  - intros s1 H1. apply H. by etrans.
Qed.

Lemma prog_safe_weaken {A} (p : prog op A) m s (Q R : A → mode → st → Prop) :
  (∀ a m' s', le s s' → Q a m' s' → R a m' s') → safe p m s Q → safe p m s R.
Proof using Type*.
  revert m s. induction p as [a|X o k IH]; simpl; intros m s HQ H.
  - intros s' Hs. apply HQ; auto.
  - intros s1 H1. destruct (H s1 H1) as [Hp Hk]. split; [done|].
    intros x m' s2 H2 Hx. apply IH; [|by apply Hk]. intros a m1 s' Hs. apply HQ. by repeat (etrans; [eassumption|]).
Qed.

Lemma prog_safe_bind {A B} (p : prog op A) (f : A → prog op B) m s Q R :
  safe p m s Q → (∀ a m' s', le s s' → Q a m' s' → safe (f a) m' s' R) → safe (p ≫= f) m s R.
Proof using Type*.
  revert m s. induction p as [a|X o k IH]; intros m s H Hf.
  - simpl in H. apply (Hf a); [done|]. by apply H.
  - change (Do o k ≫= f) with (Do o (λ x, k x ≫= f)). simpl in *. intros s1 H1.
    destruct (H s1 H1) as [Hp Hk]. split; [done|].
    intros x m' s2 H2 Hx. apply IH; [by apply Hk|]. intros a m1 s' Hs. apply Hf. by repeat (etrans; [eassumption|]).
Qed.

Lemma prog_safe_ret {A} (a : A) m s (Q : A → mode → st → Prop) :
  (∀ s', le s s' → Q a m s') → safe (mret a) m s Q.
Proof using Type*. done. Qed.

(** One call, then the rest. *)
Lemma prog_safe_call {X B} (o : op X) (f : X → prog op B) m s R :
  (∀ s1, le s s1 → pre _ m s1 o ∧
     ∀ x m' s2, le s1 s2 → post _ m s1 o x m' s2 → safe (f x) m' s2 R) →
  safe (call o ≫= f) m s R.
Proof using Type*. done. Qed.
End safe.
