(* ===== verification/TokenName.v ===== *)
(** * Token and acquisition names

    The strings the capacity ledger files its state under: the capacity token
    [<kind>-<ordinal>] and the claimant-private acquisition directory
    [claiming.<usec>.<key>.<host>.<pid>.<nonce>] ([src/prismabuild/pool.py],
    [src/prismabuild/holder_census.py]).  Both are written by formatting and
    read back by parsing; the lemmas here are the two round trips. *)

From S2P Require Import Prelude.
From Stdlib Require Import Ascii.
From stdpp Require Import options.

(** ** Capacity tokens *)

(** [f"{kind}-{index:04d}"], the name [ensure_capacity] mints. *)
Definition token_name (kind : string) (index : N) : string :=
  kind +:+ String dash (pad4 index).

(** [name.rsplit("-", 1)[0]]: the kind every census files a token under. *)
Definition kind_of (name : string) : string :=
  match rsplit_once dash name with Some (k, _) => k | None => name end.

(** [int(name.split("-")[-1])]: the ordinal of a token, [None] for the
    [ValueError]. *)
Definition token_index (name : string) : option N :=
  match rsplit_once dash name with
  | Some (_, r) => parse_nat r
  | None => parse_nat name
  end.

(** The glob ["*-*"]. *)
Definition is_token (name : string) : bool := has_char dash name.

(** The glob [f"{kind}-*"], for a [kind] without glob metacharacters. *)
Definition of_kind (kind name : string) : bool := starts_with (kind +:+ "-") name.

Lemma kind_of_token kind i : kind_of (token_name kind i) = kind.
Proof. unfold kind_of, token_name. by rewrite rsplit_once_app by (by apply pad4_clean). Qed.

Lemma token_index_token kind i : token_index (token_name kind i) = Some i.
Proof.
  unfold token_index, token_name.
  rewrite rsplit_once_app by (by apply pad4_clean). apply parse_nat_pad4.
Qed.

Lemma is_token_token kind i : is_token (token_name kind i) = true.
Proof.
  unfold is_token, token_name. rewrite has_char_app. simpl. apply orb_true_r.
Qed.

Lemma token_name_inj k1 i1 k2 i2 :
  token_name k1 i1 = token_name k2 i2 → k1 = k2 ∧ i1 = i2.
Proof.
  intros H. split.
  - by rewrite <- (kind_of_token k1 i1), H, kind_of_token.
  - apply (inj Some). by rewrite <- (token_index_token k1 i1), H, token_index_token.
Qed.

Lemma of_kind_token kind i : of_kind kind (token_name kind i) = true.
Proof.
  unfold of_kind, token_name.
  replace (kind +:+ String dash (pad4 i)) with ((kind +:+ "-") +:+ pad4 i);
    [apply starts_with_app|].
  by rewrite <- app_assoc_s.
Qed.

Lemma of_kind_is_token kind n : of_kind kind n = true → is_token n = true.
Proof.
  intros [t ->]%starts_with_inv. unfold is_token.
  rewrite !has_char_app. simpl. by rewrite orb_true_r.
Qed.

(** A token of a dash-free kind is matched by that kind's glob and by no
    other's: [f"{kind}-*"] and [rsplit] agree. *)
Lemma of_kind_iff kind n :
  is_token n = true → has_char dash (kind_of n) = false →
  of_kind kind n = true ↔ kind_of n = kind.
Proof.
  unfold kind_of, is_token. intros Htok Hk.
  destruct (rsplit_once dash n) as [[l r]|] eqn:E; [|congruence].
  apply rsplit_once_Some in E as [-> Hr]. split.
  - intros [t Ht]%starts_with_inv. rewrite <- app_assoc_s in Ht.
    change ("-" +:+ t) with (String dash t) in Ht.
    revert kind Ht. clear Htok. induction l as [|a l IH]; intros kind Ht.
    + destruct kind as [|b kind]; [done|].
      rewrite app_nil_s, app_cons_s in Ht. injection Ht as <- Ht. subst r.
      rewrite has_char_app, orb_false_iff in Hr. by destruct Hr.
    + simpl in Hk. apply orb_false_iff in Hk as [Ha Hl].
      apply bool_decide_eq_false in Ha.
      destruct kind as [|b kind].
      * rewrite app_nil_s, app_cons_s in Ht. injection Ht as Ht1 _. done.
      * rewrite !app_cons_s in Ht. injection Ht as -> Ht. f_equal. by apply IH.
  - intros <-. unfold of_kind.
    replace (l +:+ String dash r) with ((l +:+ "-") +:+ r); [apply starts_with_app|].
    by rewrite <- app_assoc_s.
Qed.

(** ** Claimant-private acquisitions *)

(** [holder_census.ACQUIRING_PREFIX]. *)
Definition ACQUIRING_PREFIX : string := "claiming.".

Definition is_private_holder (name : string) : bool := starts_with ACQUIRING_PREFIX name.

(** [begin_acquire]'s handle:
    [f"{ACQUIRING_PREFIX}{usec}.{action_key}.{host}.{pid}.{nonce}"]. *)
Definition acquisition_handle (usec : N) (action_key host : string) (pid : N) (nonce : string)
  : string :=
  ACQUIRING_PREFIX +:+ join_with dot [pretty usec; action_key; host; pretty pid; nonce].

(** The stamped start in microseconds; [mtime] is what [holder.stat()] answers
    ([None] when the directory has gone). *)
Definition _acquisition_clock (name : string) (mtime : option Z) : option Z :=
  let parts := split_on_max 3 dot name in
  match (if bool_decide (3 ≤ length parts) then parts !! 1 ≫= parse_nat else None) with
  | Some usec => Some (Z.of_N usec)
  | None => mtime
  end.

(** The host and pid a claimant stamped: fields 3 and 4. *)
Definition _acquisition_claimant (name : string) : option (string * N) :=
  let parts := split_on dot name in
  if bool_decide (length parts < 6) then None
  else
    host ← parts !! 3;
    pid ← parts !! 4 ≫= parse_nat;
    Some (host, pid).

(** The exact parse: the host is the middle re-joined. *)
Definition _acquisition_handle_of (name holder : string) : option (N * string * N) :=
  let parts := split_on dot name in
  if bool_decide (length parts < 6) || negb (is_private_holder name)
     || negb (bool_decide (parts !! 2 = Some holder)) then None
  else
    usec ← parts !! 1;
    pid ← parts !! (length parts - 2);
    nonce ← parts !! (length parts - 1);
    if bool_decide (usec = "") || negb (all_chars is_digit usec)
       || bool_decide (pid = "") || negb (all_chars is_digit pid)
       || negb (bool_decide (String.length nonce = 8))
       || negb (all_chars is_lower_hex nonce) then None
    else
      let host := join_with dot (take (length parts - 2 - 3) (drop 3 parts)) in
      if bool_decide (host = "") then None
      else
        u ← parse_nat usec;
        p ← parse_nat pid;
        Some (u, host, p).

Lemma split_on_app c s t :
  split_on c (s +:+ String c t) = split_on c s ++ split_on c t.
Proof.
  induction s as [|a s IH].
  - rewrite app_nil_s. simpl. by rewrite bool_decide_eq_true_2.
  - rewrite app_cons_s. simpl. case_bool_decide; [by rewrite IH|].
    rewrite IH. pose proof (split_on_ne c s). by destruct (split_on c s).
Qed.

Lemma handle_parts usec key host pid nonce :
  has_char dot key = false → has_char dot nonce = false →
  split_on dot (acquisition_handle usec key host pid nonce)
  = ["claiming"; pretty usec; key] ++ split_on dot host ++ [pretty pid; nonce].
Proof.
  intros Hk Hn. unfold acquisition_handle, ACQUIRING_PREFIX.
  change "claiming." with ("claiming" +:+ String dot "").
  rewrite <- app_assoc_s.
  change (String dot "" +:+ ?x) with (String dot x).
  rewrite split_on_app. simpl join_with.
  rewrite !split_on_app. rewrite (split_on_clean dot nonce), (split_on_clean dot key) by done.
  rewrite !(split_on_clean dot (pretty _)) by (by apply pretty_N_clean).
  done.
Qed.

Lemma all_digits_pretty (x : N) : all_chars is_digit (pretty x) = true.
Proof. eapply digits_from_all, digits_from_pretty. Qed.

Lemma private_handle usec key host pid nonce :
  is_private_holder (acquisition_handle usec key host pid nonce) = true.
Proof. apply starts_with_app. Qed.

Lemma hex_clean nonce : all_chars is_lower_hex nonce = true → has_char dot nonce = false.
Proof.
  induction nonce as [|a s IH]; [done|]; simpl. intros [Ha Hs]%andb_true_iff.
  rewrite (IH Hs), orb_false_r. apply bool_decide_eq_false_2. intros ->. done.
Qed.

(** The exact parse inverts the format for a dot-free key and any non-empty
    host, dots included. *)
Lemma handle_of_handle usec key host pid nonce :
  has_char dot key = false → host ≠ "" →
  String.length nonce = 8 → all_chars is_lower_hex nonce = true →
  _acquisition_handle_of (acquisition_handle usec key host pid nonce) key
  = Some (usec, host, pid).
Proof.
  intros Hk Hh Hl Hx. pose proof (hex_clean _ Hx) as Hn.
  unfold _acquisition_handle_of.
  rewrite (handle_parts _ _ _ _ _ Hk Hn), private_handle.
  pose proof (split_on_ne dot host) as Hne.
  set (hs := split_on dot host) in *.
  assert (1 ≤ length hs) by (destruct hs; simpl; [done|lia]).
  rewrite !length_app; simpl length.
  rewrite bool_decide_eq_false_2 by lia. simpl.
  rewrite bool_decide_eq_true_2 by done. simpl.
  replace (length hs + 2) with (S (S (length hs))) by lia. simpl.
  rewrite Nat.sub_0_r. simpl.
  rewrite !lookup_app_r by lia.
  replace (length hs - length hs) with 0 by lia.
  replace (S (length hs) - length hs) with 1 by lia. simpl.
  rewrite !bool_decide_eq_false_2 by apply pretty_N_nonempty.
  rewrite !all_digits_pretty, Hl, Hx. simpl.
  rewrite drop_0, take_app_length' by done. unfold hs. rewrite join_split.
  rewrite bool_decide_eq_false_2 by done.
  by rewrite !parse_nat_pretty.
Qed.
