(* ===== verification/Ledger.v ===== *)
(** * The per-host capacity ledger

    [class ResourceLedger] of [src/prismabuild/pool.py]: capacity held as
    token files that are acquired by [rename].  The state is the directory
    tree below one ledger ([free/], [held/<holder>/], [minted/] and
    [minted/dead/]) together with the instance's last shortage and census
    report; every method is a function on that state.  What the file system
    may refuse is an argument, [IO], so that the theorems hold for every
    pattern of failed renames, unreadable holders and failed creates. *)

From S2P Require Import Prelude.
From S2P Require Import TokenName.
From stdpp Require Import options.

(** ** State *)

(** [{"preferred": [...], "fallback": [...]}]: CPU ids by tier. *)
Record CpuTiers := mkTiers { preferred : list Z; fallback : list Z }.

#[export] Instance CpuTiers_eq_dec : EqDecision CpuTiers.
Proof. solve_decision. Defined.

(** A producer's export allowance as the admission decision asks for it. *)
Record Allowance := mkAllowance {
  al_cpu : Z; al_slots : Z; al_mem_gb : Z; al_basis : option string }.

(** The admission decision's CPU part ([adaptive]); [ad_funded] is the CPU
    list of a non-empty [funded] mapping. *)
Record Adaptive := mkAdaptive {
  ad_preferred_borrow : Z;
  ad_borrowing : bool;
  ad_eligible_cpus : option (list Z);
  ad_borrowable_cpus : list Z;
  ad_funded : option (list Z);
  ad_dependent_allowance : option Allowance }.

(** The admission decision's GPU part ([adaptive_gpu], a non-empty mapping). *)
Record AdaptiveGpu := mkAdaptiveGpu { ag_probe : bool }.

(** The granted allowance the holder's metadata names. *)
Record Granted := mkGranted {
  gr_slots : Z; gr_cpus : list Z; gr_mem_gb : Z; gr_basis : option string }.

(** [.adaptive.json] of a holder. *)
Record CpuMeta := mkCpuMeta {
  cm_adaptive : Adaptive;
  cm_allocation : option CpuTiers;
  cm_borrowed_cpu : nat;
  cm_allowance : option Granted }.

(** [.gpu.json] of a holder. *)
Record GpuMeta := mkGpuMeta { gm_adaptive : AdaptiveGpu; gm_borrowed_gpu : nat }.

(** One directory of [held/]: its token files and its two sidecars. *)
Record Holder := mkHolder {
  h_tokens : gset string;
  h_cpu : option CpuMeta;
  h_gpu : option GpuMeta }.

Definition CPU_METADATA : string := ".adaptive.json".
Definition GPU_METADATA : string := ".gpu.json".

(** [last_token_shortage]. *)
Record Shortage := mkShortage {
  sh_resource : string; sh_requested : Z; sh_available : option Z; sh_reason : option string }.

(** The unreadable-holder report filed beside the ledger. *)
Record CensusReport := mkReport {
  rp_unreadable : list string;
  rp_kinds_asked : list string;
  rp_retired : gmap string nat;
  rp_cycles : nat;
  rp_first_unix : Z;
  rp_last_unix : Z }.

Record Ledger := mkLedger {
  l_free : gset string;
  l_held : gmap string Holder;
  l_minted : gset string;
  l_dead : gset string;
  l_shortage : option Shortage;
  l_report : option CensusReport }.

Definition empty_holder : Holder := mkHolder ∅ None None.
Definition empty_ledger : Ledger := mkLedger ∅ ∅ ∅ ∅ None None.

(** Where a token file can be. *)
Inductive place := Free | Held (holder : string) | Dead.

#[export] Instance place_eq_dec : EqDecision place.
Proof. solve_decision. Defined.

(** The token names filed at a place. *)
Definition toks (L : Ledger) (p : place) : gset string :=
  match p with
  | Free => l_free L
  | Held h => match l_held L !! h with Some H => h_tokens H | None => ∅ end
  | Dead => l_dead L
  end.

Definition set_free (X : gset string) (L : Ledger) : Ledger :=
  mkLedger X (l_held L) (l_minted L) (l_dead L) (l_shortage L) (l_report L).
Definition set_held (m : gmap string Holder) (L : Ledger) : Ledger :=
  mkLedger (l_free L) m (l_minted L) (l_dead L) (l_shortage L) (l_report L).
Definition set_minted (X : gset string) (L : Ledger) : Ledger :=
  mkLedger (l_free L) (l_held L) X (l_dead L) (l_shortage L) (l_report L).
Definition set_dead (X : gset string) (L : Ledger) : Ledger :=
  mkLedger (l_free L) (l_held L) (l_minted L) X (l_shortage L) (l_report L).
Definition set_shortage (s : option Shortage) (L : Ledger) : Ledger :=
  mkLedger (l_free L) (l_held L) (l_minted L) (l_dead L) s (l_report L).
Definition set_report (r : option CensusReport) (L : Ledger) : Ledger :=
  mkLedger (l_free L) (l_held L) (l_minted L) (l_dead L) (l_shortage L) r.

Definition set_tokens (X : gset string) (H : Holder) : Holder :=
  mkHolder X (h_cpu H) (h_gpu H).
Definition set_cpu (m : option CpuMeta) (H : Holder) : Holder :=
  mkHolder (h_tokens H) m (h_gpu H).
Definition set_gpu (m : option GpuMeta) (H : Holder) : Holder :=
  mkHolder (h_tokens H) (h_cpu H) m.

Definition put (p : place) (X : gset string) (L : Ledger) : Ledger :=
  match p with
  | Free => set_free X L
  | Held h => set_held (<[h := set_tokens X (default empty_holder (l_held L !! h))]> (l_held L)) L
  | Dead => set_dead X L
  end.

(** ** What the file system may refuse *)

(** A failing call: the name is gone (ENOENT, ENOTDIR), or any other
    [OSError]. *)
Inductive io_error := Gone | Fault.

(** The calls on a holder directory that can fail independently: adoption's
    and [_token_is_held]'s reads, the census, and, of a commit, making the
    destination, listing the private directory and reading a moved sidecar. *)
Inductive read := RAdopt | RIsHeld (name : string) | RCensus | RMake | RList | RMeta.

Record IO := mkIO {
  io_rename : place → place → string → option io_error;
  io_unreadable : read → string → bool;
  io_markers : bool;                    (* [minted/] cannot be listed *)
  io_create_marker : string → bool;     (* creating [minted/<name>] fails *)
  io_create_free : string → bool;       (* creating [free/<name>] fails *)
  io_unlink_free : string → bool;       (* unlinking [free/<name>] fails *)
  io_mkdir_dead : bool;                 (* [minted/dead/] cannot be made *)
  io_unlink_meta : string → bool;       (* unlinking a holder's sidecar fails *)
  io_write_meta : string → bool;        (* writing a holder's sidecar fails *)
  io_rmdir : string → bool }.           (* removing an empty holder fails *)

(** The file system that refuses nothing. *)
Definition io_ok : IO :=
  mkIO (λ _ _ _, None) (λ _ _, false) false (λ _, false) (λ _, false) (λ _, false)
       false (λ _, false) (λ _, false) (λ _, false).

(** [os.rename] of one token file; renaming over a file replaces it. *)
Definition rename (E : IO) (src dst : place) (n : string) (L : Ledger)
  : option io_error * Ledger :=
  match io_rename E src dst n with
  | Some e => (Some e, L)
  | None =>
      if bool_decide (n ∈ toks L src) then
        let L' := put src (toks L src ∖ {[n]}) L in
        (None, put dst ({[n]} ∪ toks L' dst) L')
      else (Some Gone, L)
  end.

(** [holder.mkdir(parents=True, exist_ok=True)]. *)
Definition mkdir (h : string) (L : Ledger) : Ledger :=
  match l_held L !! h with
  | Some _ => L
  | None => set_held (<[h := empty_holder]> (l_held L)) L
  end.

Definition is_dir (h : string) (L : Ledger) : bool := bool_decide (is_Some (l_held L !! h)).

(** [holder.rmdir()] with its [OSError] suppressed: only an empty directory
    goes. *)
Definition rmdir (E : IO) (h : string) (L : Ledger) : Ledger :=
  match l_held L !! h with
  | Some (mkHolder X None None) =>
      if bool_decide (X = ∅) && negb (io_rmdir E h) then set_held (delete h (l_held L)) L else L
  | _ => L
  end.

(** The per-token loop every mover shares: names in order, [skip] for the
    names the caller leaves alone, at most [limit] moves when there is a
    limit; a failed rename is left for a later call.  Returns the names moved
    and whether any rename failed. *)
Fixpoint move_loop (E : IO) (src dst : place) (skip : Ledger → string → bool)
    (limit : option nat) (ns : list string) (L : Ledger) : list string * bool * Ledger :=
  match ns with
  | [] => ([], false, L)
  | n :: ns' =>
      if bool_decide (limit = Some 0) then ([], false, L)
      else if skip L n then move_loop E src dst skip limit ns' L
      else
        match rename E src dst n L with
        | (None, L1) =>
            let '(m, f, L2) := move_loop E src dst skip (pred <$> limit) ns' L1 in
            (n :: m, f, L2)
        | (Some _, L1) =>
            let '(m, _, L2) := move_loop E src dst skip limit ns' L1 in (m, true, L2)
        end
  end.

Definition no_skip (_ : Ledger) (_ : string) : bool := false.
(** [if landing.exists(): continue]. *)
Definition landed (dst : place) (L : Ledger) (n : string) : bool :=
  bool_decide (n ∈ toks L dst).

(** ** Censuses *)

Definition bump (k : string) (m : gmap string nat) : gmap string nat :=
  <[k := S (default 0 (m !! k))]> m.

(** [counts[kind] = counts.get(kind, 0) + 1] over a listing. *)
Definition tally (ns : list string) (m : gmap string nat) : gmap string nat :=
  foldl (λ m n, bump (kind_of n) m) m ns.

Definition glob_tokens (X : gset string) : gset string :=
  filter (λ n, is_token n = true) X.
Definition glob_kind (kind : string) (X : gset string) : gset string :=
  filter (λ n, of_kind kind n = true) X.

(** Every holder name under [held/], in order. *)
Definition holder_names (L : Ledger) : list string := listing (dom (l_held L)).

(** Every held token path, and every holder that could not be read. *)
Definition _held_census (E : IO) (L : Ledger) : list string * list string :=
  foldr (λ h acc,
    if io_unreadable E RCensus h then (fst acc, h :: snd acc)
    else (listing (glob_tokens (toks L (Held h))) ++ fst acc, snd acc))
    ([], []) (holder_names L).

Definition capacity_census (E : IO) (L : Ledger) : gmap string nat * list string :=
  let '(held, unreadable) := _held_census E L in
  (tally held (tally (listing (glob_tokens (l_free L))) ∅), unreadable).

Definition capacity (E : IO) (L : Ledger) : gmap string nat := fst (capacity_census E L).

Definition available (L : Ledger) : gmap string nat :=
  tally (listing (glob_tokens (l_free L))) ∅.

(** [HolderCensus.token_counts]. *)
Definition holder_tokens (h : string) (L : Ledger) : gmap string nat :=
  tally (listing (glob_tokens (toks L (Held h)))) ∅.

(** [HolderCensus.token_totals]: private acquisitions included. *)
Definition held (L : Ledger) : gmap string nat :=
  foldl (λ m h, map_fold (λ k c m', <[k := default 0 (m' !! k) + c]> m') m (holder_tokens h L))
    ∅ (holder_names L).

(** Non-private holder names, sorted. *)
Definition held_keys (L : Ledger) : list string :=
  filter (λ h, is_private_holder h = false) (holder_names L).

Definition holds_gpu (h : string) (L : Ledger) : bool :=
  bool_decide (glob_kind "gpu" (toks L (Held h)) ≠ ∅)
  || match l_held L !! h with Some H => bool_decide (is_Some (h_gpu H)) | None => false end.

(** ** Minting and adoption *)

(** A ledger's kind: [tier] is the explicit tier census purpose, which aborts
    a mint on any census error instead of propagating it; a tier ledger also
    carries the tier's mint lock as its mutation guard. *)
Record Conf := mkConf { c_strict : bool; c_guarded : bool }.
Definition host_conf : Conf := mkConf false false.
Definition tier_conf : Conf := mkConf true true.

(** Every token name present in [free/] or under a holder.  A holder that
    cannot be read makes a strict census unknown ([None]); the tolerant glob of
    a host ledger leaves its names out. *)
Definition present_tokens (cf : Conf) (E : IO) (L : Ledger) : option (gset string) :=
  if c_strict cf && bool_decide (Exists (λ h, io_unreadable E RAdopt h = true) (holder_names L)) then None
  else Some (glob_tokens (l_free L)
             ∪ ⋃ ((λ h, if io_unreadable E RAdopt h then ∅ else glob_tokens (toks L (Held h))) <$> holder_names L)).

(** [O_CREAT | O_EXCL] at [minted/<name>]. *)
Inductive created := Created | Exists_already | Create_failed.

Definition create_marker (E : IO) (n : string) (L : Ledger) : created * Ledger :=
  if bool_decide (n ∈ l_minted L) then (Exists_already, L)
  else if io_create_marker E n then (Create_failed, L)
  else (Created, set_minted ({[n]} ∪ l_minted L) L).

Fixpoint adopt_loop (E : IO) (minted : gset string) (ns : list string) (L : Ledger)
  : gset string * Ledger :=
  match ns with
  | [] => (∅, L)
  | n :: ns' =>
      if bool_decide (n ∈ minted) then adopt_loop E minted ns' L
      else
        match create_marker E n L with
        | (Create_failed, L1) => adopt_loop E minted ns' L1
        | (_, L1) => let '(a, L2) := adopt_loop E minted ns' L1 in ({[n]} ∪ a, L2)
        end
  end.

(** Record the mint right for every token this ledger already has: markers
    only, never a token. *)
Definition _adopt_present_tokens (cf : Conf) (E : IO) (minted : gset string) (L : Ledger)
  : Ledger * res (gset string) :=
  match present_tokens cf E L with
  | None => (L, Raise (OSError "unreadable holder"))
  | Some present =>
      let '(a, L1) := adopt_loop E minted (listing present) L in (L1, Ok a)
  end.

(** Whether any holder contains [name]; [None] when a holder cannot be read. *)
Definition _token_is_held (E : IO) (name : string) (L : Ledger) : option bool :=
  if bool_decide (Exists (λ h, io_unreadable E (RIsHeld name) h = true) (holder_names L))
  then None
  else Some (bool_decide (Exists (λ h, name ∈ toks L (Held h)) (holder_names L))).

(** One name of the mint loop: what to do next, the names known minted. *)
Inductive mint_next := Continue | Return_now | Fail_with (e : exn).

Definition mint_name (cf : Conf) (E : IO) (n : string) (minted : gset string) (L : Ledger)
  : mint_next * gset string * Ledger :=
  if bool_decide (n ∈ minted) then (Continue, minted, L)
  else
    match create_marker E n L with
    | (Exists_already, L1) => (Continue, minted, L1)
    | (Create_failed, L1) => (Fail_with (OSError "marker"), minted, L1)
    | (Created, L1) =>
        let minted' := {[n]} ∪ minted in
        match _token_is_held E n L1 with
        | None =>
            let L2 := set_minted (l_minted L1 ∖ {[n]}) L1 in
            (if c_strict cf then Return_now else Fail_with (OSError "unreadable holder"), minted', L2)
        | Some true => (Continue, minted', L1)
        | Some false =>
            if bool_decide (n ∈ l_free L1) then (Continue, minted', L1)
            else if io_create_free E n then (Fail_with (OSError "token"), minted', L1)
            else (Continue, minted', set_free ({[n]} ∪ l_free L1) L1)
        end
    end.

Fixpoint mint_names (cf : Conf) (E : IO) (ns : list string) (minted : gset string) (L : Ledger)
  : mint_next * gset string * Ledger :=
  match ns with
  | [] => (Continue, minted, L)
  | n :: ns' =>
      match mint_name cf E n minted L with
      | (Continue, minted1, L1) => mint_names cf E ns' minted1 L1
      | stop => stop
      end
  end.

(** [for index in range(total)]: the names of one kind. *)
Definition kind_names (kind : string) (total : Z) : list string :=
  (λ i : nat, token_name kind (N.of_nat i)) <$> seq 0 (Z.to_nat total).

Fixpoint mint_kinds (cf : Conf) (E : IO) (cap : list (string * Z)) (minted : gset string)
    (L : Ledger) : Ledger * res unit :=
  match cap with
  | [] => (L, Ok tt)
  | (kind, total) :: cap' =>
      if bool_decide (total < 0)%Z then (L, Raise (PoolContractError "negative capacity"))
      else
        match mint_names cf E (kind_names kind total) minted L with
        | (Continue, minted1, L1) => mint_kinds cf E cap' minted1 L1
        | (Return_now, _, L1) => (L1, Ok tt)
        | (Fail_with e, _, L1) => (L1, Raise e)
        end
  end.

(** Create any missing token of each declared kind: the marker mints, not the
    scan. *)
Definition ensure_capacity (cf : Conf) (E : IO) (cap : gmap string Z) (L : Ledger)
  : Ledger * res unit :=
  if io_markers E then (L, if c_strict cf then Ok tt else Raise (OSError "minted"))
  else
    let minted := l_minted L in
    match _adopt_present_tokens cf E minted L with
    | (L1, Raise e) => (L1, if c_strict cf then Ok tt else Raise e)
    | (L1, Ok adopted) => mint_kinds cf E (sorted_items cap) (minted ∪ adopted) L1
    end.

(** ** Retiring capacity *)

(** The mint markers and the destroyed names; [None] when [minted/] cannot be
    listed. *)
Definition _minted_and_dead_names (E : IO) (L : Ledger) : option (gset string * gset string) :=
  if io_markers E then None else Some (l_minted L, l_dead L).

(** How many free tokens of [kind] exceed [target], from what could be read. *)
Definition retire_excess (minted : option (gset string * gset string))
    (held_paths unreadable : list string) (kind : string) (target : nat) (L : Ledger) : nat :=
  let free := glob_kind kind (l_free L) in
  let held_kind := filter (λ n, of_kind kind n = true) held_paths in
  if bool_decide (unreadable = []) then (size free + length held_kind) - target
  else
    match minted with
    | None => size free
    | Some (markers, dead) =>
        let held_names := (glob_kind kind markers ∖ free ∖ dead) ∪ list_to_set held_kind in
        (size free + size held_names) - target
    end.

(** Marker first, then token, highest name first. *)
Fixpoint retire_loop (E : IO) (ns : list string) (L : Ledger) : nat * Ledger :=
  match ns with
  | [] => (0, L)
  | n :: ns' =>
      let L1 := set_minted (l_minted L ∖ {[n]}) L in
      if io_unlink_free E n then retire_loop E ns' L1
      else let '(c, L2) := retire_loop E ns' (set_free (l_free L1 ∖ {[n]}) L1) in (S c, L2)
  end.

Fixpoint retire_kinds (E : IO) (minted : option (gset string * gset string))
    (held_paths unreadable : list string) (cap : list (string * Z)) (retired : gmap string nat)
    (L : Ledger) : Ledger * res (gmap string nat) :=
  match cap with
  | [] => (L, Ok retired)
  | (kind, count) :: cap' =>
      if bool_decide (count < 0)%Z then (L, Raise (PoolContractError "negative capacity"))
      else
        let excess := retire_excess minted held_paths unreadable kind (Z.to_nat count) L in
        let '(c, L1) :=
          retire_loop E (take excess (rev (listing (glob_kind kind (l_free L))))) L in
        let retired' :=
          if bool_decide (c = 0) then retired else <[kind := default 0 (retired !! kind) + c]> retired in
        retire_kinds E minted held_paths unreadable cap' retired' L1
  end.

(** Record, or clear, why the census was not exact. *)
Definition report_census (now : Z) (unreadable asked : list string) (retired : gmap string nat)
    (L : Ledger) : option CensusReport * Ledger :=
  match unreadable with
  | [] => (None, set_report None L)
  | _ =>
      let report := mkReport unreadable asked retired
        (match l_report L with
         | Some p => if bool_decide (0 < rp_cycles p) then S (rp_cycles p) else 1
         | None => 1 end)
        (match l_report L with Some p => rp_first_unix p | None => now end) now in
      (Some report, set_report (Some report) L)
  end.

(** Lower a kind's total by deleting FREE tokens only. *)
Definition retire_free_capacity (E : IO) (now : Z) (cap : gmap string Z) (L : Ledger)
  : Ledger * res (gmap string nat) :=
  let '(held_paths, unreadable) := _held_census E L in
  let minted := if bool_decide (unreadable = []) then None else _minted_and_dead_names E L in
  match retire_kinds E minted held_paths unreadable (sorted_items cap) ∅ L with
  | (L1, Raise e) => (L1, Raise e)
  | (L1, Ok retired) =>
      (snd (report_census now unreadable (listing (dom cap)) retired L1), Ok retired)
  end.

(** Remove a holder directory left with no token files. *)
Definition _drop_empty_holder (E : IO) (h : string) (L : Ledger) : Ledger :=
  match l_held L !! h with
  | None => L
  | Some H =>
      if bool_decide (h_tokens H = ∅) then
        if io_unlink_meta E h then L
        else rmdir E h (set_held (<[h := empty_holder]> (l_held L)) L)
      else L
  end.

(** The destroy loop: into [minted/dead/], highest name first, at most
    [want]; a name already dead counts without moving. *)
Fixpoint destroy_loop (E : IO) (h : string) (want : nat) (ns : list string) (L : Ledger)
  : nat * Ledger :=
  match want, ns with
  | 0, _ | _, [] => (0, L)
  | S want', n :: ns' =>
      if io_mkdir_dead E then destroy_loop E h want ns' L
      else
        match rename E (Held h) Dead n L with
        | (None, L1) => let '(c, L2) := destroy_loop E h want' ns' L1 in (S c, L2)
        | (Some Gone, L1) =>
            if bool_decide (n ∈ l_dead L1)
            then let '(c, L2) := destroy_loop E h want' ns' L1 in (S c, L2)
            else destroy_loop E h want ns' L1
        | (Some Fault, L1) => destroy_loop E h want ns' L1
        end
  end.

Fixpoint per_kind (f : string → nat → Ledger → nat * Ledger) (counts : list (string * Z))
    (done : gmap string nat) (L : Ledger) : gmap string nat * Ledger :=
  match counts with
  | [] => (done, L)
  | (kind, count) :: counts' =>
      if bool_decide (count ≤ 0)%Z then per_kind f counts' done L
      else
        let '(c, L1) := f kind (Z.to_nat count) L in
        per_kind f counts' (if bool_decide (c = 0) then done else <[kind := c]> done) L1
  end.

(** Destroy up to [counts] HELD tokens of one holder. *)
Definition retire_held (E : IO) (key : string) (counts : gmap string Z) (L : Ledger)
  : gmap string nat * Ledger :=
  if negb (is_dir key L) then (∅, L)
  else
    let '(destroyed, L1) :=
      per_kind (λ kind want L, destroy_loop E key want
                  (rev (listing (glob_kind kind (toks L (Held key))))) L)
        (sorted_items counts) ∅ L in
    (destroyed, _drop_empty_holder E key L1).

(** ** Releasing *)

(** Return up to [counts] held tokens per kind to free. *)
Definition release_count (E : IO) (key : string) (counts : gmap string Z) (L : Ledger)
  : gmap string nat * Ledger :=
  if negb (is_dir key L) then (∅, L)
  else
    let '(released, L1) :=
      per_kind (λ kind want L,
        let '(m, _, L') := move_loop E (Held key) Free no_skip (Some want)
                             (listing (glob_kind kind (toks L (Held key)))) L in
        (length m, L'))
        (sorted_items counts) ∅ L in
    (released, _drop_empty_holder E key L1).

(** Return physical tokens before removing their adaptive metadata. *)
Definition _empty_into_free (E : IO) (h : string) (L : Ledger) : Ledger * res nat :=
  if negb (is_dir h L) then (L, Ok 0)
  else
    let '(m, incomplete, L1) :=
      move_loop E (Held h) Free no_skip None (listing (toks L (Held h))) L in
    if incomplete then (L1, Ok (length m))
    else
      match l_held L1 !! h with
      | Some H =>
          if (bool_decide (is_Some (h_cpu H)) || bool_decide (is_Some (h_gpu H)))
             && io_unlink_meta E h
          then (L1, Raise (OSError "metadata"))
          else
            (rmdir E h (set_held (<[h := mkHolder (h_tokens H) None None]> (l_held L1)) L1),
             Ok (length m))
      | None => (L1, Ok (length m))
      end.

Definition release (E : IO) (key : string) (L : Ledger) : Ledger * res nat :=
  _empty_into_free E key L.

Definition abandon_acquire (E : IO) (handle : string) (L : Ledger) : Ledger * res nat :=
  _empty_into_free E handle L.

(** Return only the named kinds. *)
Definition release_kinds (E : IO) (key : string) (kinds : gset string) (L : Ledger)
  : nat * Ledger :=
  if negb (is_dir key L) then (0, L)
  else
    let '(m, _, L1) := move_loop E (Held key) Free
      (λ _ n, bool_decide (kind_of n ∉ kinds)) None (listing (toks L (Held key))) L in
    (length m, L1).

(** Return every token except the named ones. *)
Definition release_except (E : IO) (key : string) (keep : gset string) (L : Ledger)
  : nat * Ledger :=
  if negb (is_dir key L) then (0, L)
  else
    let '(m, _, L1) := move_loop E (Held key) Free
      (λ _ n, bool_decide (n ∈ keep)) None (listing (toks L (Held key))) L in
    (length m, L1).

(** ** CPU tokens *)

(** Bind token ordinals to CPUs once.  [existing] is [cpu-map.json]; returns
    the file afterwards and the call's answer. *)
Definition configure_cpu_tiers (existing : option CpuTiers) (tiers : CpuTiers) (initialize : bool)
    (L : Ledger) : option CpuTiers * res (option CpuTiers) :=
  let cpus := preferred tiers ++ fallback tiers in
  if bool_decide (cpus = []) || bool_decide (Exists (λ c, c < 0)%Z cpus)
     || negb (bool_decide (NoDup cpus))
  then (existing, Raise (PoolContractError "distinct nonnegative CPU IDs"))
  else
    match existing with
    | None =>
        if negb initialize then (None, Ok None)
        else if bool_decide (0 < default 0 (held L !! "cpu"))
        then (None, Raise (PoolContractError "drain legacy CPU reservations"))
        else (Some tiers, Ok (Some tiers))
    | Some old =>
        if bool_decide (old = tiers) then (existing, Ok (Some tiers))
        else (existing, Raise (PoolContractError "CPU tier map differs"))
    end.

(** The CPUs a sequence of [cpu-<ordinal>] tokens represents. *)
Fixpoint cpu_ids (ns : list string) (tiers : CpuTiers) : res (list Z) :=
  match ns with
  | [] => Ok []
  | n :: ns' =>
      match token_index n with
      | None => Raise (ValueError "token ordinal")
      | Some i =>
          match (preferred tiers ++ fallback tiers) !! N.to_nat i with
          | None => Raise (PoolContractError "CPU token exceeds configured topology")
          | Some c => match cpu_ids ns' tiers with Raise e => Raise e | Ok cs => Ok (c :: cs) end
          end
      end
  end.

(** The holder's [.adaptive.json], if it has one. *)
Definition cpu_meta (h : string) (L : Ledger) : option CpuMeta :=
  match l_held L !! h with Some H => h_cpu H | None => None end.

(** The actual CPUs represented by a claimant's held tokens. *)
Definition cpu_allocation (h : string) (tiers : CpuTiers) (L : Ledger) : res CpuTiers :=
  match cpu_meta h L with
  | Some (mkCpuMeta _ (Some a) _ _) => Ok a
  | _ =>
      match cpu_ids (listing (glob_kind "cpu" (toks L (Held h)))) tiers with
      | Raise e => Raise e
      | Ok cpus => Ok (mkTiers (filter (λ c, c ∈ cpus) (preferred tiers))
                               (filter (λ c, c ∈ cpus) (fallback tiers)))
      end
  end.

(** One selection rule for prediction and acquisition. *)
Definition free_cpu_tokens (tiers : option CpuTiers) (eligible : option (list Z)) (L : Ledger)
  : res (list string) :=
  let tokens := listing (glob_kind "cpu" (l_free L)) in
  match eligible with
  | None => Ok tokens
  | Some allowed =>
      match tiers with
      | None => Raise (PoolContractError "eligible CPU selection needs a topology")
      | Some t =>
          match cpu_ids tokens t with
          | Raise e => Raise e
          | Ok cpus => Ok (fst <$> filter (λ nc : string * Z, nc.2 ∈ allowed) (zip tokens cpus))
          end
      end
  end.

(** CPUs a claim would take by the acquisition rule; only the contract error
    reads as unknown. *)
Definition free_cpu_allocation (need : nat) (tiers : CpuTiers) (eligible : option (list Z))
    (L : Ledger) : res (option (list Z)) :=
  match free_cpu_tokens (Some tiers) eligible L with
  | Raise (PoolContractError _) => Ok None
  | Raise e => Raise e
  | Ok tokens =>
      let ns := take need tokens in
      if bool_decide (length ns = need) then
        match cpu_ids ns tiers with
        | Raise (PoolContractError _) => Ok None
        | Raise e => Raise e
        | Ok cs => Ok (Some cs)
        end
      else Ok None
  end.

Definition free_preferred (tiers : CpuTiers) (L : Ledger) : res nat :=
  match mapM token_index (listing (glob_kind "cpu" (l_free L))) with
  | None => Raise (ValueError "token ordinal")
  | Some ords => Ok (length (filter (λ i, N.to_nat i < length (preferred tiers)) ords))
  end.

(** ** Acquisition *)

(** What one claim attempt stamps on its handle. *)
Record Claimant := mkClaimant { cl_usec : N; cl_host : string; cl_pid : N; cl_nonce : string }.

Definition handle_for (c : Claimant) (key : string) : string :=
  acquisition_handle (cl_usec c) key (cl_host c) (cl_pid c) (cl_nonce c).

(** Taking [need] of the listed tokens out of [free/]: a vanished token is
    skipped, any other error raises. *)
Fixpoint take_loop (E : IO) (h : string) (need : Z) (ns : list string) (L : Ledger)
  : Z * res unit * Ledger :=
  match ns with
  | [] => (0%Z, Ok tt, L)
  | n :: ns' =>
      if bool_decide (need ≤ 0)%Z then (0%Z, Ok tt, L)
      else
        match rename E Free (Held h) n L with
        | (None, L1) =>
            let '(t, r, L2) := take_loop E h (need - 1) ns' L1 in ((t + 1)%Z, r, L2)
        | (Some Gone, L1) => take_loop E h need ns' L1
        | (Some Fault, L1) => (0%Z, Raise (OSError "rename"), L1)
        end
  end.

(** How an attempt inside [_begin_acquire_locked]'s [try] ends. *)
Inductive attempt := Done | Insufficient | Raised (e : exn).

(** [need] after a planned preferred borrow. *)
Definition cpu_need (adaptive : option Adaptive) (kind : string) (need : Z) : Z :=
  match adaptive with
  | Some a => if bool_decide (kind = "cpu") then (need - ad_preferred_borrow a)%Z else need
  | None => need
  end.

Definition may_fall_short (adaptive : option Adaptive) (gpu : option AdaptiveGpu) (kind : string)
  : bool :=
  (bool_decide (kind = "cpu") && match adaptive with Some a => ad_borrowing a | None => false end)
  || (bool_decide (kind = "gpu") && match gpu with Some g => ag_probe g | None => false end).

Fixpoint take_kinds (E : IO) (h : string) (adaptive : option Adaptive) (tiers : option CpuTiers)
    (gpu : option AdaptiveGpu) (wanted : list (string * Z)) (L : Ledger) : attempt * Ledger :=
  match wanted with
  | [] => (Done, L)
  | (kind, v) :: wanted' =>
      let need := cpu_need adaptive kind v in
      let tokens :=
        if bool_decide (kind = "cpu")
        then free_cpu_tokens tiers (match adaptive with Some a => ad_eligible_cpus a | None => None end) L
        else Ok (listing (glob_kind kind (l_free L))) in
      match tokens with
      | Raise e => (Raised e, L)
      | Ok ns =>
          match take_loop E h need ns L with
          | (_, Raise e, L1) => (Raised e, L1)
          | (taken, Ok _, L1) =>
              if bool_decide (taken < need)%Z && negb (may_fall_short adaptive gpu kind)
              then (Insufficient, set_shortage (Some (mkShortage kind need (Some taken) None)) L1)
              else take_kinds E h adaptive tiers gpu wanted' L1
          end
      end
  end.

(** Borrowing proven idle CPUs of one tier, in [borrowable_cpus] order. *)
Fixpoint borrow_tier (tier borrowable : list Z) (want : nat) (assigned : gset Z) : gset Z :=
  match borrowable with
  | [] => assigned
  | c :: cs =>
      if bool_decide (c ∈ tier) then
        if bool_decide (want ≤ size assigned) then assigned
        else borrow_tier tier cs want ({[c]} ∪ assigned)
      else borrow_tier tier cs want assigned
  end.

(** The CPUs a claim runs on: its own tokens', a funding producer's, or
    borrowed idle ones; [None] when they are not as many as it asked for. *)
Definition assigned_cpus (a : Adaptive) (tiers : CpuTiers) (own : gset Z) (wanted_cpu : nat)
  : option (gset Z) :=
  match ad_funded a with
  | Some cpus =>
      let assigned := own ∪ list_to_set cpus in
      if bool_decide (size assigned = wanted_cpu + length cpus) then Some assigned else None
  | None =>
      let a1 := borrow_tier (preferred tiers) (ad_borrowable_cpus a) wanted_cpu own in
      let assigned := borrow_tier (fallback tiers) (ad_borrowable_cpus a) wanted_cpu a1 in
      if bool_decide (size assigned = wanted_cpu) then Some assigned else None
  end.

(** A producer's allowance: the last CPUs it took, kept out of its own
    affinity and named for its dependents. *)
Definition grant_allowance (al : Allowance) (allocation : CpuTiers) (own : list Z)
  : option (CpuTiers * Granted) :=
  let ordered := filter (λ c, c ∈ own) (preferred allocation ++ fallback allocation) in
  if bool_decide (al_cpu al ≤ 0)%Z || bool_decide (Z.of_nat (length ordered) ≤ al_cpu al)%Z
  then None
  else
    let kept := drop (length ordered - Z.to_nat (al_cpu al)) ordered in
    Some (mkTiers (filter (λ c, c ∉ kept) (preferred allocation))
                  (filter (λ c, c ∉ kept) (fallback allocation)),
          mkGranted (al_slots al) (merge_sort (≤)%Z (remove_dups kept)) (al_mem_gb al) (al_basis al)).

Definition wanted_of (demand : gmap string Z) : gmap string Z := filter (λ kv, 0 < kv.2)%Z demand.

(** Writing one sidecar of the attempt's private holder. *)
Definition set_meta (E : IO) (h : string) (f : Holder → Holder) (L : Ledger) : attempt * Ledger :=
  if io_write_meta E h then (Raised (OSError "metadata"), L)
  else (Done, set_held (alter f h (l_held L)) L).

(** The GPU sidecar: what was not taken as a token is borrowed. *)
Definition write_gpu_meta (E : IO) (h : string) (gpu : option AdaptiveGpu) (wanted : gmap string Z)
    (L : Ledger) : attempt * Ledger :=
  match gpu with
  | None => (Done, L)
  | Some g =>
      let tokens := size (glob_kind "gpu" (toks L (Held h))) in
      set_meta E h (set_gpu (Some (mkGpuMeta g (Z.to_nat (default 0%Z (wanted !! "gpu")) - tokens)))) L
  end.

(** The CPU sidecar: allocation, borrowed count and granted allowance. *)
Definition write_cpu_meta (E : IO) (h : string) (adaptive : option Adaptive)
    (tiers : option CpuTiers) (wanted : gmap string Z) (L : Ledger) : attempt * Ledger :=
  match adaptive, tiers with
  | Some a, Some t =>
      match cpu_allocation h t L with
      | Raise e => (Raised e, L)
      | Ok alloc0 =>
          let wanted_cpu := Z.to_nat (default 0%Z (wanted !! "cpu")) in
          match assigned_cpus a t (list_to_set (preferred alloc0 ++ fallback alloc0)) wanted_cpu with
          | None => (Insufficient, L)
          | Some assigned =>
              let alloc := mkTiers (filter (λ c, c ∈ assigned) (preferred t))
                                   (filter (λ c, c ∈ assigned) (fallback t)) in
              let tokens := listing (glob_kind "cpu" (toks L (Held h))) in
              let borrowed :=
                match ad_funded a with Some _ => 0 | None => size assigned - length tokens end in
              match ad_dependent_allowance a with
              | None => set_meta E h (set_cpu (Some (mkCpuMeta a (Some alloc) borrowed None))) L
              | Some al =>
                  match cpu_ids tokens t with
                  | Raise e => (Raised e, L)
                  | Ok own =>
                      match grant_allowance al alloc own with
                      | None => (Insufficient, L)
                      | Some (alloc', g) =>
                          set_meta E h (set_cpu (Some (mkCpuMeta a (Some alloc') borrowed (Some g)))) L
                      end
                  end
              end
          end
      end
  | _, _ => (Done, L)
  end.

(** The whole [try] body of [_begin_acquire_locked]. *)
Definition acquire_attempt (E : IO) (h : string) (wanted : gmap string Z)
    (adaptive : option Adaptive) (tiers : option CpuTiers) (gpu : option AdaptiveGpu) (L : Ledger)
  : attempt * Ledger :=
  match take_kinds E h adaptive tiers gpu (sorted_items wanted) L with
  | (Done, L1) =>
      match write_gpu_meta E h gpu wanted L1 with
      | (Done, L2) => write_cpu_meta E h adaptive tiers wanted L2
      | stop => stop
      end
  | stop => stop
  end.

(** Take the whole demand into a directory only this claimant owns; every
    other ending empties it back into [free/]. *)
Definition _begin_acquire_locked (E : IO) (lock_free : bool) (c : Claimant) (key : string)
    (demand : gmap string Z) (adaptive : option Adaptive) (tiers : option CpuTiers)
    (gpu : option AdaptiveGpu) (L : Ledger) : Ledger * res (option string) :=
  if negb lock_free
  then (set_shortage (Some (mkShortage "ledger_lock" 0 (Some 0%Z) (Some "mutation_lock_busy"))) L, Ok None)
  else
    let L0 := set_shortage None L in
    let wanted := wanted_of demand in
    let h := handle_for c key in
    let funded := match adaptive with Some a => bool_decide (is_Some (ad_funded a)) | None => false end in
    if bool_decide (wanted = ∅) && negb funded then (L0, Ok (Some h))
    else
      match acquire_attempt E h wanted adaptive tiers gpu (mkdir h L0) with
      | (Done, L1) => (L1, Ok (Some h))
      | (Insufficient, L1) =>
          match _empty_into_free E h L1 with
          | (L2, Ok _) => (L2, Ok None)
          | (L2, Raise e) => (L2, Raise e)
          end
      | (Raised e, L1) =>
          match _empty_into_free E h L1 with
          | (L2, Ok _) => (L2, Raise e)
          | (L2, Raise e') => (L2, Raise e')
          end
      end.

(** What the used-filesystem floor answers for one demand
    ([filesystem_floor.ledger_gate]): no gate, an unreadable gate in enforce
    mode, or a gate with its admission and reservation answers. *)
Inductive floor_gate :=
  | No_gate
  | Gate_unreadable
  | Gate (admitted reserved : bool) (shortage : Shortage).

Definition begin_acquire (E : IO) (lock_free : bool) (floor : floor_gate) (c : Claimant)
    (key : string) (demand : gmap string Z) (adaptive : option Adaptive)
    (tiers : option CpuTiers) (gpu : option AdaptiveGpu) (L : Ledger)
  : Ledger * res (option string) :=
  match floor with
  | No_gate => _begin_acquire_locked E lock_free c key demand adaptive tiers gpu L
  | Gate_unreadable =>
      (set_shortage (Some (mkShortage "filesystem_floor" 0 (Some 0%Z) (Some "gate_unreadable"))) L, Ok None)
  | Gate admitted reserved s =>
      if negb lock_free
      then (set_shortage (Some (mkShortage "ledger_lock" 0 (Some 0%Z) (Some "mutation_lock_busy"))) L, Ok None)
      else if negb (admitted && reserved) then (set_shortage (Some s) L, Ok None)
      else _begin_acquire_locked E true c key demand adaptive tiers gpu L
  end.

(** ** Changing owner without ever being free *)

(** Moving one sidecar between holders, for the calls that carry metadata;
    returns what [borrowed] reads from the metadata that moved. *)
Definition move_cpu_meta (E : IO) (src dst : string) (L : Ledger) : nat * Ledger :=
  match cpu_meta src L with
  | None => (0, L)
  | Some m =>
      if bool_decide (is_Some (cpu_meta dst L)) then (0, L)
      else
        match io_rename E (Held src) (Held dst) CPU_METADATA with
        | Some _ => (0, L)
        | None =>
            (cm_borrowed_cpu m,
             set_held (alter (set_cpu (Some m)) dst (alter (set_cpu None) src (l_held L))) L)
        end
  end.

Definition gpu_meta (h : string) (L : Ledger) : option GpuMeta :=
  match l_held L !! h with Some H => h_gpu H | None => None end.

Definition move_gpu_meta (E : IO) (src dst : string) (L : Ledger) : nat * Ledger :=
  match gpu_meta src L with
  | None => (0, L)
  | Some m =>
      if bool_decide (is_Some (gpu_meta dst L)) then (0, L)
      else
        match io_rename E (Held src) (Held dst) GPU_METADATA with
        | Some _ => (0, L)
        | None =>
            (gm_borrowed_gpu m,
             set_held (alter (set_gpu (Some m)) dst (alter (set_gpu None) src (l_held L))) L)
        end
  end.

(** A sidecar that a commit moved is read where it landed. *)
Definition unread_sidecar (E : IO) (key : string) (before after : bool) : bool :=
  before && negb after && io_unreadable E RMeta key.

(** Move a claimant's private tokens under its action: the ledger, the names
    moved, and the count moved (borrowed CPUs and GPUs included) or what was
    raised.  The sidecars' names sort before the tokens'. *)
Definition commit_acquire (E : IO) (key handle : string) (L : Ledger)
  : Ledger * list string * res nat :=
  if negb (is_dir handle L) then (L, [], Ok 0)
  else if io_unreadable E RMake key then (L, [], Raise (OSError "destination"))
  else
    let L0 := mkdir key L in
    if io_unreadable E RList handle then (L0, [], Raise (OSError "listing"))
    else
      let '(bc, L1) := move_cpu_meta E handle key L0 in
      if unread_sidecar E key (bool_decide (is_Some (cpu_meta handle L0))) (bool_decide (is_Some (cpu_meta handle L1)))
      then (L1, [], Raise (OSError "sidecar"))
      else
        let '(bg, L2) := move_gpu_meta E handle key L1 in
        if unread_sidecar E key (bool_decide (is_Some (gpu_meta handle L1))) (bool_decide (is_Some (gpu_meta handle L2)))
        then (L2, [], Raise (OSError "sidecar"))
        else
          let '(m, _, L3) := move_loop E (Held handle) (Held key) (landed (Held key)) None
                               (listing (toks L2 (Held handle))) L2 in
          (rmdir E handle L3, m, Ok (bc + bg + length m)).

Definition transfer_refusal : exn :=
  PoolContractError "a reservation transfer names two action keys".

(** Move one holder's whole reservation to another key. *)
Definition transfer (E : IO) (from to : string) (L : Ledger) : Ledger * res nat :=
  if bool_decide (from = "") || bool_decide (to = "") || bool_decide (from = to) then (L, Ok 0)
  else if is_private_holder from || is_private_holder to then (L, Raise transfer_refusal)
  else if negb (is_dir from L) then (L, Ok 0)
  else
    let L0 := mkdir to L in
    let '(_, L1) := move_cpu_meta E from to L0 in
    let '(_, L2) := move_gpu_meta E from to L1 in
    let '(m, _, L3) := move_loop E (Held from) (Held to) (landed (Held to)) None
                         (listing (toks L2 (Held from))) L2 in
    (rmdir E from L3, Ok (length m)).

(** Move up to [count] of one holder's tokens, in name order; metadata stays. *)
Definition transfer_count (E : IO) (from to : string) (count : Z) (L : Ledger) : Ledger * res nat :=
  if bool_decide (from = "") || bool_decide (to = "") || bool_decide (from = to) then (L, Ok 0)
  else if is_private_holder from || is_private_holder to then (L, Raise transfer_refusal)
  else if bool_decide (count ≤ 0)%Z then (L, Ok 0)
  else if negb (is_dir from L) then (L, Ok 0)
  else
    let '(m, _, L1) := move_loop E (Held from) (Held to) (landed (Held to)) (Some (Z.to_nat count))
                         (listing (toks L (Held from))) (mkdir to L) in
    (rmdir E from L1, Ok (length m)).

Definition slash : Ascii.ascii := Ascii.ascii_of_nat 47.

(** A name [transfer_tokens] accepts: a path component with a dash that is
    not a sidecar. *)
Definition token_name_ok (n : string) : bool :=
  negb (bool_decide (n = "")) && negb (has_char slash n)
  && negb (bool_decide (n = CPU_METADATA)) && negb (bool_decide (n = GPU_METADATA))
  && has_char dash n.

Fixpoint transfer_named (E : IO) (from to : string) (ns : list string) (L : Ledger)
  : nat * list string * Ledger :=
  match ns with
  | [] => (0, [], L)
  | n :: ns' =>
      if bool_decide (n ∈ toks L (Held to)) then
        let '(d, m, L1) := transfer_named E from to ns' L in
        (if bool_decide (n ∈ toks L (Held from)) then d else S d, m, L1)
      else if bool_decide (n ∈ toks L (Held from)) then
        match rename E (Held from) (Held to) n L with
        | (None, L1) => let '(d, m, L2) := transfer_named E from to ns' L1 in (S d, n :: m, L2)
        | (Some _, L1) => transfer_named E from to ns' L1
        end
      else transfer_named E from to ns' L
  end.

(** Move an exact token subset between holders, never via free. *)
Definition transfer_tokens (E : IO) (from to : string) (names : list string) (L : Ledger)
  : Ledger * res (nat * list string) :=
  if bool_decide (from = "") || bool_decide (to = "") || bool_decide (from = to)
  then (L, Raise (PoolContractError "two distinct holders"))
  else if is_private_holder from || is_private_holder to then (L, Raise transfer_refusal)
  else if bool_decide (names = []) || negb (bool_decide (NoDup names))
  then (L, Raise (PoolContractError "distinct token names"))
  else if negb (forallb token_name_ok names)
  then (L, Raise (PoolContractError "refused token name"))
  else
    let '(d, m, L1) := transfer_named E from to names (mkdir to L) in
    (rmdir E from L1, Ok (d, m)).

(** ** In-flight acquisitions *)

(** Private acquisition handles [holder] still owns, with their token counts. *)
Definition acquisitions_of (holder : string) (L : Ledger) : list (string * N * string * N * nat) :=
  omap (λ h, match _acquisition_handle_of h holder with
             | Some (usec, host, pid) => Some (h, usec, host, pid, size (toks L (Held h)))
             | None => None end)
    (holder_names L).

(** [claiming.*] names of this holder no exact parse owns. *)
Definition unparsed_acquisitions_of (holder : string) (L : Ledger) : list string :=
  filter (λ h, is_private_holder h = true ∧ _acquisition_handle_of h holder = None
               ∧ split_on dot h !! 2 = Some holder)
    (holder_names L).

(** [LEASE_TIMEOUT_S] and [HEARTBEAT_S], in microseconds. *)
Definition LEASE_TIMEOUT : Z := 300000000.
Definition HEARTBEAT : Z := 30000000.

(** What the sweep reads of the world: the clock, this host's name, which of
    its pids are alive, and a holder's mtime. *)
Record World := mkWorld {
  w_now : Z; w_host : string; w_alive : N → bool; w_mtime : string → option Z }.

(** Whether a private acquisition is past its bound. *)
Definition stale_acquisition (W : World) (grace : Z) (h : string) : bool :=
  is_private_holder h
  && match _acquisition_clock h (w_mtime W h) with
     | None => false
     | Some started =>
         let bound :=
           match _acquisition_claimant h with
           | Some (host, pid) =>
               if bool_decide (host = w_host W) && negb (w_alive W pid)
               then Z.min grace HEARTBEAT else grace
           | None => grace
           end in
         negb (bool_decide (w_now W - started ≤ bound)%Z)
     end.

Fixpoint sweep_loop (E : IO) (W : World) (grace : Z) (hs : list string) (L : Ledger)
  : Ledger * res (list string) :=
  match hs with
  | [] => (L, Ok [])
  | h :: hs' =>
      if stale_acquisition W grace h && is_dir h L then
        match _empty_into_free E h L with
        | (L1, Raise e) => (L1, Raise e)
        | (L1, Ok _) =>
            match sweep_loop E W grace hs' L1 with
            | (L2, Ok swept) => (L2, Ok (h :: swept))
            | (L2, Raise e) => (L2, Raise e)
            end
        end
      else sweep_loop E W grace hs' L
  end.

(** Free tokens a claimant took and never committed. *)
Definition sweep_stale_acquisitions (E : IO) (W : World) (grace : Z) (L : Ledger)
  : Ledger * res (list string) :=
  sweep_loop E W grace (holder_names L) L.

(** Take every token the demand asks for, or none of them: begin, then
    commit, under one retained exclusion. *)
Definition acquire (cf : Conf) (E : IO) (lock_free : bool) (floor : floor_gate) (c : Claimant)
    (key : string) (demand : gmap string Z) (L : Ledger) : Ledger * res bool :=
  if c_guarded cf && negb lock_free then (L, Ok false)
  else
    match begin_acquire E true floor c key demand None None None L with
    | (L1, Raise e) => (L1, Raise e)
    | (L1, Ok None) => (L1, Ok false)
    | (L1, Ok (Some h)) =>
        let wanted := sum_list_with (λ kv, Z.to_nat kv.2) (sorted_items (wanted_of demand)) in
        match commit_acquire E key h L1 with
        | (L2, _, Raise e) => (L2, Raise e)
        | (L2, _, Ok moved) =>
            if bool_decide (moved < wanted) then
              match abandon_acquire E h L2 with
              | (L3, Raise e) => (L3, Raise e)
              | (L3, Ok _) =>
                  match release E key L3 with
                  | (L4, Raise e) => (L4, Raise e)
                  | (L4, Ok _) => (L4, Ok false)
                  end
              end
            else (L2, Ok true)
        end
    end.

(** ** The closed census *)

(** A canonical token name: [kind], a dash, and the ordinal as [04d]. *)
Definition canonical_token (n : string) : bool :=
  match rsplit_once dash n with
  | None => false
  | Some (kind, ordinal) =>
      negb (bool_decide (kind = ""))
      && match parse_nat ordinal with
         | Some i => bool_decide (ordinal = pad4 i)
         | None => false
         end
  end.

(** The union of the holders' names, or [None] on duplicate custody. *)
Fixpoint held_union (holders : list (gset string)) (acc : gset string) : option (gset string) :=
  match holders with
  | [] => Some acc
  | X :: holders' =>
      if bool_decide (acc ∩ X = ∅) then held_union holders' (acc ∪ X) else None
  end.

Definition of_kinds (kinds X : gset string) : gset string := filter (λ n, kind_of n ∈ kinds) X.

Definition count_kind (kind : string) (X : gset string) : nat :=
  size (filter (λ n, kind_of n = kind) X).

(** Whole held-token counts of the selected kinds from a fresh, closed owner
    census. *)
Definition floor_snapshot (E : IO) (lock_free : bool) (kinds : gset string) (L : Ledger)
  : res (gmap string nat) :=
  if negb lock_free then Raise (PoolContractError "owner lock busy")
  else if io_markers E || bool_decide (Exists (λ h, io_unreadable E RCensus h = true) (holder_names L))
  then Raise (PoolContractError "unreadable")
  else
    let holders := (λ h, toks L (Held h)) <$> holder_names L in
    if negb (bool_decide (set_Forall (λ n, canonical_token n = true)
               (l_minted L ∪ l_dead L ∪ l_free L ∪ ⋃ holders)))
    then Raise (PoolContractError "malformed token")
    else
      match held_union (of_kinds kinds <$> holders) ∅ with
      | None => Raise (PoolContractError "duplicate custody")
      | Some held =>
          let free := of_kinds kinds (l_free L) in
          let dead := of_kinds kinds (l_dead L) in
          if negb (bool_decide (free ∩ held = ∅)) || negb (bool_decide (dead ∩ (free ∪ held) = ∅))
          then Raise (PoolContractError "conflicting token custody")
          else if negb (bool_decide (of_kinds kinds (l_minted L) = free ∪ held ∪ dead))
          then Raise (PoolContractError "incomplete token population")
          else Ok (list_to_map ((λ k, (k, count_kind k held)) <$> elements kinds))
      end.
