(* ===== verification/LedgerFacts.v ===== *)
(** * Facts about the ledger's primitive moves

    What [rename], the directory operations and the per-token loop do to the
    token sets, as one summary relation [moves], and its closure [mv] that
    the operations' effects are stated with. *)

From S2P Require Import Prelude.
From S2P Require Import TokenName.
From S2P Require Import Ledger.
From stdpp Require Import options.

(** ** Token views *)

(** Two states with the same token files and markers; directories, sidecars
    and reports may differ. *)
Definition same_toks (L L' : Ledger) : Prop :=
  (∀ p, toks L' p = toks L p) ∧ l_minted L' = l_minted L.

#[export] Instance same_toks_equiv : Equivalence same_toks.
Proof.
  split; unfold same_toks.
  - done.
  - intros L L' [H1 H2]. split; [intros p; by rewrite H1|done].
  - intros L1 L2 L3 [H1 H2] [H3 H4]. split; [intros p|]; by rewrite ?H3, ?H1, ?H4.
Qed.

(** [X] changes place from [src] to [dst] and nothing else moves. *)
Definition moves (src dst : place) (X : gset string) (L L' : Ledger) : Prop :=
  X ⊆ toks L src ∧ toks L' src = toks L src ∖ X ∧ toks L' dst = toks L dst ∪ X
  ∧ (∀ p, p ≠ src → p ≠ dst → toks L' p = toks L p) ∧ l_minted L' = l_minted L.

(** No token name is filed at two places. *)
Definition custody (L : Ledger) : Prop :=
  ∀ n p q, n ∈ toks L p → n ∈ toks L q → p = q.

(** The token files that exist anywhere. *)
Definition exists_tok (L : Ledger) (n : string) : Prop := ∃ p, n ∈ toks L p.

Lemma toks_put p X L q : toks (put p X L) q = if decide (p = q) then X else toks L q.
Proof.
  destruct p as [|h|], q as [|h'|]; simpl; try (by repeat case_decide).
  rewrite lookup_insert. repeat case_decide; simplify_eq; done.
Qed.

Lemma minted_put p X L : l_minted (put p X L) = l_minted L.
Proof. by destruct p. Qed.

Lemma mkdir_same h L : same_toks L (mkdir h L).
Proof.
  unfold mkdir. destruct (l_held L !! h) eqn:E; [done|].
  split; [|done]. intros [|h'|]; simpl; [done| |done].
  rewrite lookup_insert. case_decide; subst; [by rewrite E|done].
Qed.

Lemma rmdir_same E h L : same_toks L (rmdir E h L).
Proof.
  unfold rmdir. destruct (l_held L !! h) as [[X [] []]|] eqn:Eh; try done.
  case_bool_decide; simpl; [|done]. destruct (io_rmdir E h); simpl; [done|].
  split; [|done]. intros [|h'|]; simpl; [done| |done].
  rewrite lookup_delete. case_decide; subst; [by rewrite Eh|done].
Qed.

(** Replacing a holder by one with the same tokens. *)
Lemma set_holder_same h H H' L :
  l_held L !! h = Some H → h_tokens H' = h_tokens H →
  same_toks L (set_held (<[h := H']> (l_held L)) L).
Proof.
  intros Hh Ht. split; [|done]. intros [|h'|]; simpl; [done| |done].
  rewrite lookup_insert. case_decide; subst; [by rewrite Hh|done].
Qed.

Lemma alter_same f h L :
  (∀ H, h_tokens (f H) = h_tokens H) → same_toks L (set_held (alter f h (l_held L)) L).
Proof.
  intros Hf. split; [|done]. intros [|h'|]; simpl; [done| |done].
  rewrite lookup_alter. case_decide; subst; [|done].
  destruct (l_held L !! h'); simpl; [apply Hf|done].
Qed.

Lemma set_shortage_same s L : same_toks L (set_shortage s L).
Proof. split; [|done]. by intros []. Qed.

Lemma set_report_same r L : same_toks L (set_report r L).
Proof. split; [|done]. by intros []. Qed.

#[export] Hint Resolve mkdir_same rmdir_same set_shortage_same set_report_same : prisma.

(** ** One rename *)

Lemma rename_ok E src dst n L L' :
  src ≠ dst → rename E src dst n L = (None, L') →
  n ∈ toks L src ∧ moves src dst {[n]} L L'.
Proof.
  intros Hne. unfold rename. destruct (io_rename E src dst n); [done|].
  case_bool_decide as Hn; [|done]. intros [= <-]. split; [done|].
  repeat split.
  - set_solver.
  - rewrite !toks_put. rewrite decide_False by done. by rewrite decide_True.
  - rewrite !toks_put. rewrite decide_True by done. rewrite decide_False by done. set_solver.
  - intros p Hp Hq. rewrite !toks_put. by rewrite !decide_False by done.
  - by rewrite !minted_put.
Qed.

Lemma rename_err E src dst n L L' e : rename E src dst n L = (Some e, L') → L' = L.
Proof. unfold rename. repeat case_match; naive_solver. Qed.

Lemma rename_free E src dst n L :
  io_rename E src dst n = None → n ∈ toks L src →
  ∃ L', rename E src dst n L = (None, L').
Proof. intros HE Hn. unfold rename. rewrite HE, bool_decide_eq_true_2 by done. eauto. Qed.

(** ** Composing moves *)

Lemma moves_refl src dst L : moves src dst ∅ L L.
Proof. repeat split; try done; set_solver. Qed.

Lemma moves_trans src dst X Y L1 L2 L3 :
  src ≠ dst → moves src dst X L1 L2 → moves src dst Y L2 L3 → moves src dst (X ∪ Y) L1 L3.
Proof.
  intros Hne (H1 & H2 & H3 & H4 & H5) (K1 & K2 & K3 & K4 & K5).
  rewrite H2 in K1, K2. rewrite H3 in K3.
  repeat split.
  - set_solver.
  - rewrite K2. set_solver.
  - rewrite K3. set_solver.
  - intros p Hp Hq. by rewrite K4, H4.
  - by rewrite K5.
Qed.

Lemma moves_same_l src dst X L1 L2 L3 :
  same_toks L1 L2 → moves src dst X L2 L3 → moves src dst X L1 L3.
Proof.
  intros [S1 S2] (H1 & H2 & H3 & H4 & H5). unfold moves.
  rewrite <- !S1, <- S2. repeat split; try done.
  intros p Hp Hq. rewrite <- S1. auto.
Qed.

Lemma moves_same_r src dst X L1 L2 L3 :
  moves src dst X L1 L2 → same_toks L2 L3 → moves src dst X L1 L3.
Proof.
  intros (H1 & H2 & H3 & H4 & H5) [S1 S2]. unfold moves.
  rewrite !S1, S2. repeat split; try done.
  intros p Hp Hq. rewrite S1. auto.
Qed.

Lemma moves_in src dst X L L' n p :
  src ≠ dst → moves src dst X L L' →
  n ∈ toks L' p ↔ (p = dst ∧ n ∈ X) ∨ (n ∈ toks L p ∧ (p = src → n ∉ X)).
Proof.
  intros Hne (H1 & H2 & H3 & H4 & H5).
  destruct (decide (p = src)) as [->|Hp].
  { rewrite H2. set_solver. }
  destruct (decide (p = dst)) as [->|Hq].
  { rewrite H3. set_solver. }
  rewrite H4 by done. naive_solver.
Qed.

Lemma moves_custody src dst X L L' :
  src ≠ dst → moves src dst X L L' → custody L → custody L'.
Proof.
  intros Hne Hm Hc n p q Hp Hq.
  pose proof Hm as (HX & _).
  apply (moves_in _ _ _ _ _ _ _ Hne Hm) in Hp, Hq.
  destruct Hp as [[-> Hp]|[Hp Hp']], Hq as [[-> Hq]|[Hq Hq']]; try done.
  - destruct (Hq' (Hc _ _ _ Hq (HX _ Hp))). done.
  - destruct (Hp' (Hc _ _ _ Hp (HX _ Hq))). done.
  - by apply (Hc n).
Qed.

Lemma moves_exists src dst X L L' n :
  src ≠ dst → moves src dst X L L' → exists_tok L' n ↔ exists_tok L n.
Proof.
  intros Hne Hm. pose proof Hm as (HX & _).
  unfold exists_tok. setoid_rewrite (moves_in _ _ _ _ _ n _ Hne Hm). split.
  - intros (p & [[-> Hp]|[Hp _]]); [exists src; set_solver|by exists p].
  - intros (p & Hp). destruct (decide (p = src)) as [->|]; [|naive_solver].
    destruct (decide (n ∈ X)); [exists dst|exists src]; naive_solver.
Qed.

(** ** The closure of moves *)

(** [L'] is reached from [L] by moving tokens between places [P] allows. *)
Inductive mv (P : place → place → Prop) : Ledger → Ledger → Prop :=
  | mv_same L L' : same_toks L L' → mv P L L'
  | mv_step src dst X L1 L2 L3 :
      P src dst → src ≠ dst → moves src dst X L1 L2 → mv P L2 L3 → mv P L1 L3.

Lemma mv_refl P L : mv P L L.
Proof. by apply mv_same. Qed.

Lemma mv_same_l P L1 L2 L3 : same_toks L1 L2 → mv P L2 L3 → mv P L1 L3.
Proof.
  intros HS Hm. revert L1 HS. induction Hm as [|??????????? IH]; intros L0 HS.
  - apply mv_same. by etrans.
  - eapply mv_step; [done..| |done]. by eapply moves_same_l.
Qed.

Lemma mv_trans P L1 L2 L3 : mv P L1 L2 → mv P L2 L3 → mv P L1 L3.
Proof.
  induction 1 as [L1 L2 HS|]; [by apply mv_same_l|].
  intros. eapply mv_step; eauto.
Qed.

Lemma mv_one (P : place → place → Prop) src dst X L L' :
  P src dst → src ≠ dst → moves src dst X L L' → mv P L L'.
Proof. intros. eapply mv_step; eauto. apply mv_refl. Qed.

Lemma mv_mono (P Q : place → place → Prop) L L' :
  (∀ p q, P p q → Q p q) → mv P L L' → mv Q L L'.
Proof. intros HPQ. induction 1; [by apply mv_same|]. eapply mv_step; eauto. Qed.

Lemma mv_custody P L L' : mv P L L' → custody L → custody L'.
Proof.
  induction 1 as [L L' [HS _]|]; eauto using moves_custody.
  intros Hc n p q. rewrite !HS. apply Hc.
Qed.

Lemma mv_exists P L L' n : mv P L L' → exists_tok L' n ↔ exists_tok L n.
Proof.
  induction 1 as [L L' [HS _]|src dst X L1 L2 L3 HP Hne Hm Hmv IH].
  - unfold exists_tok. by setoid_rewrite HS.
  - rewrite IH. by eapply moves_exists.
Qed.

Lemma mv_minted P L L' : mv P L L' → l_minted L' = l_minted L.
Proof.
  induction 1 as [L L' [_ HS]|src dst X L1 L2 L3 HP Hne Hm Hmv IH]; [done|].
  rewrite IH. apply Hm.
Qed.

(** A place no allowed move touches keeps its tokens. *)
Lemma mv_untouched (P : place → place → Prop) L L' r :
  (∀ p q, P p q → p ≠ r ∧ q ≠ r) → mv P L L' → toks L' r = toks L r.
Proof.
  intros HP. induction 1 as [L L' [HS _]|src dst X L1 L2 L3 HP' Hne Hm Hmv IH]; [done|].
  rewrite IH. destruct (HP _ _ HP') as [H1 H2].
  destruct Hm as (_ & _ & _ & H & _). by apply H.
Qed.

(** A place no allowed move takes from only gains. *)
Lemma mv_gains (P : place → place → Prop) L L' r :
  (∀ p q, P p q → p ≠ r) → mv P L L' → toks L r ⊆ toks L' r.
Proof.
  intros HP. induction 1 as [L L' [HS _]|src dst X L1 L2 L3 HP' Hne Hm Hmv IH]; [by rewrite HS|].
  etrans; [|done]. intros n Hn. apply (moves_in _ _ _ _ _ _ _ Hne Hm).
  right. split; [done|]. intros ->. by destruct (HP _ _ HP').
Qed.

(** A place no allowed move files into only loses. *)
Lemma mv_loses (P : place → place → Prop) L L' r :
  (∀ p q, P p q → q ≠ r) → mv P L L' → toks L' r ⊆ toks L r.
Proof.
  intros HP. induction 1 as [L L' [HS _]|src dst X L1 L2 L3 HP' Hne Hm Hmv IH]; [by rewrite HS|].
  etrans; [done|]. intros n Hn. apply (moves_in _ _ _ _ _ _ _ Hne Hm) in Hn.
  destruct Hn as [[-> _]|[Hn _]]; [by destruct (HP _ _ HP')|done].
Qed.

(** ** The per-token loop *)

Lemma move_loop_moves E src dst skip limit ns L m f L' :
  src ≠ dst → move_loop E src dst skip limit ns L = (m, f, L') →
  NoDup ns → moves src dst (list_to_set m) L L' ∧ m `sublist_of` ns.
Proof.
  intros Hne. revert limit L m f L'.
  induction ns as [|n ns IH]; intros limit L m f L' Hl Hnd; simpl in Hl.
  { simplify_eq. split; [apply moves_refl|constructor]. }
  apply NoDup_cons in Hnd as [Hn Hnd].
  case_bool_decide; [simplify_eq; split; [apply moves_refl|apply sublist_nil_l]|].
  destruct (skip L n).
  { destruct (IH _ _ _ _ _ Hl Hnd). eauto using sublist_cons. }
  destruct (rename E src dst n L) as [[e|] L1] eqn:Hr.
  - apply rename_err in Hr as ->.
    destruct (move_loop E src dst skip limit ns L) as [[m' f'] L2] eqn:Hm.
    destruct (IH _ _ _ _ _ Hm Hnd). simplify_eq. eauto using sublist_cons.
  - apply rename_ok in Hr as [Hin Hr]; [|done].
    destruct (move_loop E src dst skip (pred <$> limit) ns L1) as [[m' f'] L2] eqn:Hm.
    destruct (IH _ _ _ _ _ Hm Hnd) as [Hm1 Hm2]. simplify_eq. split.
    + simpl. by eapply moves_trans.
    + by apply sublist_skip.
Qed.

Lemma move_loop_mv (P : place → place → Prop) E src dst skip limit ns L m f L' :
  src ≠ dst → P src dst → NoDup ns →
  move_loop E src dst skip limit ns L = (m, f, L') → mv P L L'.
Proof.
  intros Hne HP Hnd Hl. destruct (move_loop_moves _ _ _ _ _ _ _ _ _ _ Hne Hl Hnd).
  by eapply mv_one.
Qed.

(** With nothing skipped and no limit, a loop without a failure moves every
    listed token. *)
Lemma move_loop_all E src dst ns L m f L' :
  src ≠ dst → NoDup ns → (∀ n, n ∈ ns → n ∈ toks L src) →
  move_loop E src dst no_skip None ns L = (m, f, L') →
  f = false → m = ns.
Proof.
  intros Hne. revert L m L'.
  induction ns as [|n ns IH]; intros L m L' Hnd Hin Hl ->; simpl in Hl; [by simplify_eq|].
  apply NoDup_cons in Hnd as [Hn Hnd].
  destruct (rename E src dst n L) as [[e|] L1] eqn:Hr.
  - by destruct (move_loop E src dst no_skip None ns L1) as [[m' f'] L2].
  - apply rename_ok in Hr as [_ Hr]; [|done].
    destruct (move_loop E src dst no_skip None ns L1) as [[m' f'] L2] eqn:Hm.
    simplify_eq. f_equal. eapply IH; [done| |done|done].
    intros n' Hn'. apply (moves_in _ _ _ _ _ _ _ Hne Hr). right.
    split; [apply Hin; set_solver|]. intros _. rewrite elem_of_singleton. by intros ->.
Qed.

(** A file system that refuses none of these renames fails none. *)
Lemma move_loop_no_fail E src dst skip limit ns L m f L' :
  src ≠ dst → NoDup ns → (∀ n, n ∈ ns → n ∈ toks L src) →
  (∀ n, n ∈ ns → io_rename E src dst n = None) →
  move_loop E src dst skip limit ns L = (m, f, L') → f = false.
Proof.
  intros Hne. revert limit L m f L'.
  induction ns as [|n ns IH]; intros limit L m f L' Hnd Hin HE Hl; simpl in Hl; [by simplify_eq|].
  apply NoDup_cons in Hnd as [Hn Hnd].
  case_bool_decide; [by simplify_eq|].
  destruct (skip L n).
  { eapply IH; [done| | |done]; intros n' ?; [apply Hin|apply HE]; set_solver. }
  destruct (rename_free E src dst n L) as [L1 Hr]; [apply HE; set_solver|apply Hin; set_solver|].
  rewrite Hr in Hl. apply rename_ok in Hr as [_ Hr]; [|done].
  destruct (move_loop E src dst skip (pred <$> limit) ns L1) as [[m' f'] L2] eqn:Hm.
  simplify_eq. eapply IH; [done| | |done].
  - intros n' Hn'. apply (moves_in _ _ _ _ _ _ _ Hne Hr). right.
    split; [apply Hin; set_solver|]. intros _. rewrite elem_of_singleton. by intros ->.
  - intros n' ?. apply HE. set_solver.
Qed.
