(* ===== verification/LedgerEffects.v ===== *)
(** * What each ledger operation moves

    One lemma per mutator of [ResourceLedger]: which places its token moves
    connect, for every pattern of file-system refusals. *)

From S2P Require Import Prelude.
From S2P Require Import TokenName.
From S2P Require Import Ledger.
From S2P Require Import LedgerFacts.
From stdpp Require Import options.

(** The moves of a release: one holder into [free/]. *)
Definition releases (h : string) (p q : place) : Prop := p = Held h ∧ q = Free.
(** The moves of a take: [free/] into one holder. *)
Definition takes (h : string) (p q : place) : Prop := p = Free ∧ q = Held h.
(** The moves of an ownership change. *)
Definition hands (h h' : string) (p q : place) : Prop := p = Held h ∧ q = Held h'.
(** The moves of a destruction. *)
Definition destroys (h : string) (p q : place) : Prop := p = Held h ∧ q = Dead.
(** The moves of one acquisition attempt. *)
Definition attempts (h : string) (p q : place) : Prop := takes h p q ∨ releases h p q.

Ltac place_neq := unfold releases, takes, hands, destroys, attempts in *; naive_solver.

(** Moves in sequence, with the token-neutral steps absorbed. *)
Lemma mv_then_same P L1 L2 L3 : mv P L1 L2 → same_toks L2 L3 → mv P L1 L3.
Proof. intros H HS. eapply mv_trans; [done|by apply mv_same]. Qed.

#[export] Hint Resolve mv_refl mv_then_same NoDup_listing : prisma.

(** ** Releasing *)

Lemma drop_empty_holder_same E h L : same_toks L (_drop_empty_holder E h L).
Proof.
  unfold _drop_empty_holder. destruct (l_held L !! h) as [H|] eqn:Hh; [|done].
  case_bool_decide; [|done]. destruct (io_unlink_meta E h); [done|].
  etrans; [|apply rmdir_same]. by eapply set_holder_same.
Qed.

Lemma empty_into_free_mv E h L L' r :
  _empty_into_free E h L = (L', r) → mv (releases h) L L'.
Proof.
  unfold _empty_into_free. destruct (is_dir h L); [|by intros [= <- _]; apply mv_refl].
  simpl. destruct (move_loop _ _ _ _ _ _ _) as [[m f] L1] eqn:Hm.
  assert (mv (releases h) L L1) as H1.
  { eapply move_loop_mv; [| |apply NoDup_listing|done]; place_neq. }
  destruct f; [by intros [= <- _]|].
  destruct (l_held L1 !! h) as [H|] eqn:Hh; [|by intros [= <- _]].
  case_if; [by intros [= <- _]|]. intros [= <- _].
  eapply mv_then_same; [done|]. etrans; [|apply rmdir_same]. by eapply set_holder_same.
Qed.

Lemma release_mv E k L L' r : release E k L = (L', r) → mv (releases k) L L'.
Proof. apply empty_into_free_mv. Qed.

Lemma abandon_mv E k L L' r : abandon_acquire E k L = (L', r) → mv (releases k) L L'.
Proof. apply empty_into_free_mv. Qed.

Lemma release_kinds_mv E k kinds L c L' :
  release_kinds E k kinds L = (c, L') → mv (releases k) L L'.
Proof.
  unfold release_kinds. destruct (is_dir k L); simpl; [|by intros [= _ <-]; apply mv_refl].
  destruct (move_loop _ _ _ _ _ _ _) as [[m f] L1] eqn:Hm. intros [= _ <-].
  eapply move_loop_mv; [| |apply NoDup_listing|done]; place_neq.
Qed.

Lemma release_except_mv E k keep L c L' :
  release_except E k keep L = (c, L') → mv (releases k) L L'.
Proof.
  unfold release_except. destruct (is_dir k L); simpl; [|by intros [= _ <-]; apply mv_refl].
  destruct (move_loop _ _ _ _ _ _ _) as [[m f] L1] eqn:Hm. intros [= _ <-].
  eapply move_loop_mv; [| |apply NoDup_listing|done]; place_neq.
Qed.

Lemma per_kind_mv P f counts done L d L' :
  (∀ kind want L c L', f kind want L = (c, L') → mv P L L') →
  per_kind f counts done L = (d, L') → mv P L L'.
Proof.
  intros Hf. revert done L d. induction counts as [|[kind c] counts IH]; intros done L d; simpl.
  - intros [= _ <-]. apply mv_refl.
  - case_bool_decide; [apply IH|].
    destruct (f kind (Z.to_nat c) L) as [c' L1] eqn:HL. intros H'.
    eapply mv_trans; [by eapply Hf|by eapply IH].
Qed.

Lemma release_count_mv E k counts L d L' :
  release_count E k counts L = (d, L') → mv (releases k) L L'.
Proof.
  unfold release_count. destruct (is_dir k L); simpl; [|by intros [= _ <-]; apply mv_refl].
  destruct (per_kind _ _ _ _) as [d1 L1] eqn:Hk. intros [= _ <-].
  eapply mv_then_same; [|apply drop_empty_holder_same].
  eapply per_kind_mv; [|exact Hk]. clear. intros kind want L c L' H. cbn beta in H.
  destruct (move_loop _ _ _ _ _ _ _) as [[m f] L1] eqn:Hm. simplify_eq.
  eapply move_loop_mv; [| |apply NoDup_listing|done]; place_neq.
Qed.

(** ** Destroying *)

Lemma destroy_loop_mv E h want ns L c L' :
  destroy_loop E h want ns L = (c, L') → mv (destroys h) L L'.
Proof.
  revert want L c. induction ns as [|n ns IH]; intros want L c; simpl.
  { destruct want; intros [= _ <-]; apply mv_refl. }
  destruct want as [|want]; [intros [= _ <-]; apply mv_refl|].
  destruct (io_mkdir_dead E); [apply IH|].
  destruct (rename E (Held h) Dead n L) as [[e|] L1] eqn:Hr.
  - apply rename_err in Hr as ->. destruct e; [|apply IH].
    case_bool_decide; [|apply IH].
    destruct (destroy_loop E h want ns L) as [c' L2] eqn:Hd. intros [= _ <-]. by eapply IH.
  - apply rename_ok in Hr as [_ Hr]; [|done].
    destruct (destroy_loop E h want ns L1) as [c' L2] eqn:Hd. intros [= _ <-].
    eapply (mv_step _ (Held h) Dead); [place_neq|done|done|by eapply IH].
Qed.

Lemma retire_held_mv E k counts L d L' :
  retire_held E k counts L = (d, L') → mv (destroys k) L L'.
Proof.
  unfold retire_held. destruct (is_dir k L); simpl; [|by intros [= _ <-]; apply mv_refl].
  destruct (per_kind _ _ _ _) as [d1 L1] eqn:Hk. intros [= _ <-].
  eapply mv_then_same; [|apply drop_empty_holder_same].
  eapply per_kind_mv; [|exact Hk]. intros kind want L2 c L2' H. exact (destroy_loop_mv _ _ _ _ _ _ _ H).
Qed.

(** ** Changing owner *)

Lemma move_cpu_meta_same E s d L c L' : move_cpu_meta E s d L = (c, L') → same_toks L L'.
Proof.
  unfold move_cpu_meta. destruct (cpu_meta s L); [|by intros [= _ <-]].
  case_bool_decide; [by intros [= _ <-]|]. case_match; intros [= _ <-]; [done|].
  etrans; [by apply (alter_same (set_cpu None) s)|].
  exact (alter_same (set_cpu (Some _)) d (set_held (alter (set_cpu None) s (l_held L)) L) ltac:(done)).
Qed.

Lemma move_gpu_meta_same E s d L c L' : move_gpu_meta E s d L = (c, L') → same_toks L L'.
Proof.
  unfold move_gpu_meta. destruct (gpu_meta s L); [|by intros [= _ <-]].
  case_bool_decide; [by intros [= _ <-]|]. case_match; intros [= _ <-]; [done|].
  etrans; [by apply (alter_same (set_gpu None) s)|].
  exact (alter_same (set_gpu (Some _)) d (set_held (alter (set_gpu None) s (l_held L)) L) ltac:(done)).
Qed.

(** Every name is already at its landing: nothing moves. *)
Lemma move_loop_landed E p limit ns L :
  (∀ n, n ∈ ns → n ∈ toks L p) →
  move_loop E p p (landed p) limit ns L = ([], false, L).
Proof.
  induction ns as [|n ns IH]; intros Hin; simpl; [done|].
  case_bool_decide; [done|]. unfold landed at 1.
  rewrite bool_decide_eq_true_2 by (apply Hin; set_solver). apply IH. set_solver.
Qed.

Lemma commit_acquire_mv E k h L c m L' :
  commit_acquire E k h L = (L', m, c) → mv (hands h k) L L'.
Proof.
  unfold commit_acquire. destruct (is_dir h L); cbn [negb]; [|by intros [= <- _ _]; apply mv_refl].
  case_if; [by intros [= <- _ _]; apply mv_refl|]. cbv zeta.
  case_if; [intros [= <- _ _]; apply mv_same, mkdir_same|].
  destruct (move_cpu_meta E h k (mkdir k L)) as [bc L1] eqn:H1. apply move_cpu_meta_same in H1.
  assert (same_toks L L1) as HS1 by (etrans; [apply mkdir_same|done]).
  case_if; [intros [= <- _ _]; by apply mv_same|].
  destruct (move_gpu_meta E h k L1) as [bg L2] eqn:H2. apply move_gpu_meta_same in H2.
  assert (same_toks L L2) as HS by by etrans.
  case_if; [intros [= <- _ _]; by apply mv_same|].
  destruct (move_loop _ _ _ _ _ _ _) as [[m' f] L3] eqn:Hm. intros [= <- _ _].
  eapply mv_same_l; [done|]. eapply mv_then_same; [|apply rmdir_same].
  destruct (decide (h = k)) as [->|Hne].
  - rewrite move_loop_landed in Hm by (intros n; apply elem_of_listing). simplify_eq. apply mv_refl.
  - eapply move_loop_mv; [| |apply NoDup_listing|exact Hm]; [congruence|done].
Qed.

(** Handing over keeps what two holders have together. *)
Lemma hands_union a b L L' :
  mv (hands a b) L L' →
  toks L' (Held a) ∪ toks L' (Held b) = toks L (Held a) ∪ toks L (Held b).
Proof.
  induction 1 as [L L' [HS _]|src dst X L1 L2 L3 [-> ->] Hne Hm Hmv IH]; [by rewrite !HS|].
  rewrite IH. destruct Hm as (H1 & H2 & H3 & _). rewrite H2, H3.
  apply set_eq. intros n. destruct (decide (n ∈ X)); set_solver.
Qed.

Lemma transfer_mv E a b L L' r : transfer E a b L = (L', r) → mv (hands a b) L L'.
Proof.
  unfold transfer. destruct (bool_decide (a = "")); simpl; [by intros [= <- _]; apply mv_refl|].
  destruct (bool_decide (b = "")); simpl; [by intros [= <- _]; apply mv_refl|].
  case_bool_decide as Hab; simpl; [by intros [= <- _]; apply mv_refl|].
  destruct (is_private_holder a || is_private_holder b); [by intros [= <- _]; apply mv_refl|].
  destruct (is_dir a L); simpl; [|by intros [= <- _]; apply mv_refl].
  destruct (move_cpu_meta E a b (mkdir b L)) as [bc L1] eqn:H1.
  destruct (move_gpu_meta E a b L1) as [bg L2] eqn:H2.
  apply move_cpu_meta_same in H1. apply move_gpu_meta_same in H2.
  destruct (move_loop _ _ _ _ _ _ _) as [[m' f] L3] eqn:Hm. intros [= <- _].
  eapply mv_same_l; [etrans; [apply mkdir_same|by etrans]|].
  eapply mv_then_same; [|apply rmdir_same].
  eapply move_loop_mv; [| |apply NoDup_listing|exact Hm]; [congruence|done].
Qed.

Lemma transfer_count_mv E a b n L L' r :
  transfer_count E a b n L = (L', r) → mv (hands a b) L L'.
Proof.
  unfold transfer_count. destruct (bool_decide (a = "")); simpl; [by intros [= <- _]; apply mv_refl|].
  destruct (bool_decide (b = "")); simpl; [by intros [= <- _]; apply mv_refl|].
  case_bool_decide as Hab; simpl; [by intros [= <- _]; apply mv_refl|].
  destruct (is_private_holder a || is_private_holder b); [by intros [= <- _]; apply mv_refl|].
  case_bool_decide; [by intros [= <- _]; apply mv_refl|].
  destruct (is_dir a L); simpl; [|by intros [= <- _]; apply mv_refl].
  destruct (move_loop _ _ _ _ _ _ _) as [[m' f] L3] eqn:Hm. intros [= <- _].
  eapply mv_same_l; [apply mkdir_same|]. eapply mv_then_same; [|apply rmdir_same].
  eapply move_loop_mv; [| |apply NoDup_listing|exact Hm]; [congruence|done].
Qed.

Lemma transfer_named_mv E a b ns L d m L' :
  a ≠ b → transfer_named E a b ns L = (d, m, L') → mv (hands a b) L L'.
Proof.
  intros Hab. revert L d m. induction ns as [|n ns IH]; intros L d m; simpl.
  { intros [= _ _ <-]. apply mv_refl. }
  case_bool_decide.
  { destruct (transfer_named E a b ns L) as [[d' m'] L1] eqn:HL. intros [= _ _ <-]. by eapply IH. }
  case_bool_decide; [|apply IH].
  destruct (rename E (Held a) (Held b) n L) as [[e|] L1] eqn:Hr.
  - apply rename_err in Hr as ->. apply IH.
  - apply rename_ok in Hr as [_ Hr]; [|congruence].
    destruct (transfer_named E a b ns L1) as [[d' m'] L2] eqn:HL. intros [= _ _ <-].
    eapply (mv_step _ (Held a) (Held b)); [done|congruence|done|by eapply IH].
Qed.

Lemma transfer_tokens_mv E a b ns L L' r :
  transfer_tokens E a b ns L = (L', r) → mv (hands a b) L L'.
Proof.
  unfold transfer_tokens.
  destruct (bool_decide (a = "")); simpl; [by intros [= <- _]; apply mv_refl|].
  destruct (bool_decide (b = "")); simpl; [by intros [= <- _]; apply mv_refl|].
  case_bool_decide as Hab; simpl; [by intros [= <- _]; apply mv_refl|].
  destruct (is_private_holder a || is_private_holder b); [by intros [= <- _]; apply mv_refl|].
  case_if; [by intros [= <- _]; apply mv_refl|].
  case_if; [by intros [= <- _]; apply mv_refl|].
  destruct (transfer_named E a b ns (mkdir b L)) as [[d m] L1] eqn:Hm. intros [= <- _].
  eapply mv_same_l; [apply mkdir_same|]. eapply mv_then_same; [|apply rmdir_same].
  by eapply transfer_named_mv.
Qed.

(** ** Acquiring *)

Lemma take_loop_mv E h need ns L t r L' :
  take_loop E h need ns L = (t, r, L') → mv (takes h) L L'.
Proof.
  revert need L t. induction ns as [|n ns IH]; intros need L t; simpl.
  { intros [= _ _ <-]. apply mv_refl. }
  case_bool_decide; [intros [= _ _ <-]; apply mv_refl|].
  destruct (rename E Free (Held h) n L) as [[[]|] L1] eqn:Hr.
  - apply rename_err in Hr as ->. apply IH.
  - apply rename_err in Hr as ->. intros [= _ _ <-]. apply mv_refl.
  - apply rename_ok in Hr as [_ Hr]; [|done].
    destruct (take_loop E h (need - 1) ns L1) as [[t' r'] L2] eqn:Ht. intros [= _ <- <-].
    eapply (mv_step _ Free (Held h)); [done|done|done|by eapply IH].
Qed.

Lemma take_kinds_mv E h ad ti gp ws L a L' :
  take_kinds E h ad ti gp ws L = (a, L') → mv (takes h) L L'.
Proof.
  revert L. induction ws as [|[kind v] ws IH]; intros L; simpl.
  { intros [= _ <-]. apply mv_refl. }
  destruct (if bool_decide (kind = "cpu") then _ else _) as [ns|e];
    [|intros [= _ <-]; apply mv_refl].
  destruct (take_loop E h _ _ L) as [[t r] L1] eqn:Ht. apply take_loop_mv in Ht.
  destruct r; [|intros [= _ <-]; done].
  case_if; [intros [= _ <-]; eauto with prisma|].
  intros H'. eapply mv_trans; [done|by apply IH].
Qed.

Lemma set_meta_same E h f L a L' :
  (∀ H, h_tokens (f H) = h_tokens H) → set_meta E h f L = (a, L') → same_toks L L'.
Proof.
  intros Hf. unfold set_meta. case_if; intros [= _ <-]; [done|by apply alter_same].
Qed.

Lemma write_gpu_meta_same E h g w L a L' : write_gpu_meta E h g w L = (a, L') → same_toks L L'.
Proof. unfold write_gpu_meta. destruct g; [by apply set_meta_same|by intros [= _ <-]]. Qed.

Lemma write_cpu_meta_same E h ad ti w L a L' :
  write_cpu_meta E h ad ti w L = (a, L') → same_toks L L'.
Proof.
  unfold write_cpu_meta. intros H.
  repeat (case_match; simplify_eq; try done); by eapply set_meta_same; [|done].
Qed.

Lemma acquire_attempt_mv E h w ad ti g L a L' :
  acquire_attempt E h w ad ti g L = (a, L') → mv (takes h) L L'.
Proof.
  unfold acquire_attempt.
  destruct (take_kinds E h ad ti g (sorted_items w) L) as [a1 L1] eqn:H1.
  apply take_kinds_mv in H1. destruct a1; [|by intros [= _ <-]..].
  destruct (write_gpu_meta E h g w L1) as [a2 L2] eqn:H2. apply write_gpu_meta_same in H2.
  assert (mv (takes h) L L2) by eauto with prisma.
  destruct a2; [|by intros [= _ <-]..].
  intros H3%write_cpu_meta_same. eauto with prisma.
Qed.

Lemma attempts_takes h L L' : mv (takes h) L L' → mv (attempts h) L L'.
Proof. apply mv_mono. by left. Qed.

Lemma attempts_releases h L L' : mv (releases h) L L' → mv (attempts h) L L'.
Proof. apply mv_mono. by right. Qed.

Lemma begin_locked_mv E lf c k d ad ti g L L' r :
  _begin_acquire_locked E lf c k d ad ti g L = (L', r) → mv (attempts (handle_for c k)) L L'.
Proof.
  unfold _begin_acquire_locked. destruct lf; simpl; [|intros [= <- _]; apply mv_same, set_shortage_same].
  case_if; [intros [= <- _]; apply mv_same, set_shortage_same|].
  set (h := handle_for c k).
  destruct (acquire_attempt E h _ ad ti g _) as [a L1] eqn:Ha.
  apply acquire_attempt_mv, attempts_takes in Ha.
  assert (mv (attempts h) L L1) as H1.
  { eapply mv_same_l; [|done]. etrans; [apply set_shortage_same|apply mkdir_same]. }
  destruct (_empty_into_free E h L1) as [L2 r2] eqn:He.
  apply empty_into_free_mv, attempts_releases in He.
  destruct a; [by intros [= <- _]|..]; destruct r2; intros [= <- _]; eauto using mv_trans.
Qed.

Lemma begin_acquire_mv E lf fl c k d ad ti g L L' r :
  begin_acquire E lf fl c k d ad ti g L = (L', r) → mv (attempts (handle_for c k)) L L'.
Proof.
  unfold begin_acquire. destruct fl as [| |ad' re s].
  - apply begin_locked_mv.
  - intros [= <- _]. apply mv_same, set_shortage_same.
  - case_if; [intros [= <- _]; apply mv_same, set_shortage_same|].
    case_if; [intros [= <- _]; apply mv_same, set_shortage_same|]. apply begin_locked_mv.
Qed.

Lemma begin_acquire_handle E lf fl c k d ad ti g L L' h :
  begin_acquire E lf fl c k d ad ti g L = (L', Ok (Some h)) → h = handle_for c k.
Proof.
  assert (∀ b L, _begin_acquire_locked E b c k d ad ti g L = (L', Ok (Some h)) → h = handle_for c k)
    as Hl.
  { intros b L0. unfold _begin_acquire_locked.
    repeat (case_match; simplify_eq; try done); by intros [=]. }
  unfold begin_acquire. destruct fl; [apply Hl|done|].
  case_if; [done|]. case_if; [done|]. apply Hl.
Qed.

(** ** Sweeping and composed acquisition *)

(** The sweep only empties private acquisitions past their bound. *)
Definition sweeps (W : World) (grace : Z) (p q : place) : Prop :=
  ∃ h, stale_acquisition W grace h = true ∧ releases h p q.

Lemma sweep_loop_mv E W g hs L L' r :
  sweep_loop E W g hs L = (L', r) → mv (sweeps W g) L L'.
Proof.
  revert L L' r. induction hs as [|h hs IH]; intros L L' r; simpl.
  { intros [= <- _]. apply mv_refl. }
  destruct (stale_acquisition W g h) eqn:Hs; simpl; [|apply IH].
  destruct (is_dir h L); [|apply IH].
  destruct (_empty_into_free E h L) as [L1 r1] eqn:He.
  apply empty_into_free_mv in He.
  apply (mv_mono _ (sweeps W g)) in He; [|intros p q; by exists h].
  destruct r1; [|by intros [= <- _]].
  destruct (sweep_loop E W g hs L1) as [L2 r2] eqn:H2. apply IH in H2.
  destruct r2; intros [= <- _]; eauto using mv_trans.
Qed.

Lemma sweep_mv E W g L L' r :
  sweep_stale_acquisitions E W g L = (L', r) → mv (sweeps W g) L L'.
Proof. apply sweep_loop_mv. Qed.

(** The moves of the composed acquisition of [k] through [h]. *)
Definition acquires (h k : string) (p q : place) : Prop :=
  attempts h p q ∨ hands h k p q ∨ releases k p q.

Lemma acquire_mv cf E lf fl c k d L L' r :
  acquire cf E lf fl c k d L = (L', r) → mv (acquires (handle_for c k) k) L L'.
Proof.
  unfold acquire. case_if; [intros [= <- _]; apply mv_refl|].
  destruct (begin_acquire E true fl c k d None None None L) as [L1 r1] eqn:Hb.
  pose proof (begin_acquire_mv _ _ _ _ _ _ _ _ _ _ _ _ Hb) as H1.
  apply (mv_mono _ (acquires (handle_for c k) k)) in H1; [|by left].
  destruct r1 as [[h|]|]; [|by intros [= <- _]..].
  assert (h = handle_for c k) as -> by (by eapply begin_acquire_handle).
  destruct (commit_acquire E k (handle_for c k) L1) as [[L2 ns] [mo|]] eqn:Hc;
    apply commit_acquire_mv in Hc;
    (apply (mv_mono _ (acquires (handle_for c k) k)) in Hc; [|intros; by right; left]);
    [|intros [= <- _]; eauto using mv_trans].
  case_if; [|intros [= <- _]; eauto using mv_trans].
  destruct (abandon_acquire E (handle_for c k) L2) as [L3 r3] eqn:Ha. apply abandon_mv in Ha.
  apply (mv_mono _ (acquires (handle_for c k) k)) in Ha; [|intros; by left; right].
  destruct r3; [|intros [= <- _]; eauto using mv_trans].
  destruct (release E k L3) as [L4 r4] eqn:Hr. apply release_mv in Hr.
  apply (mv_mono _ (acquires (handle_for c k) k)) in Hr; [|intros; by right; right].
  destruct r4; intros [= <- _]; eauto 6 using mv_trans.
Qed.
