(* ===== verification/LedgerInv.v ===== *)
(** * Reachable ledgers

    The ledger as a transition system: one step per call of a mutator of
    [ResourceLedger], with every refusal of the file system left open, and
    the invariants of every reachable state. *)

From S2P Require Import Prelude.
From S2P Require Import TokenName.
From S2P Require Import Ledger.
From S2P Require Import LedgerFacts.
From S2P Require Import LedgerEffects.
From stdpp Require Import options.

(** ** Growing and shrinking *)

(** What a mint does: holders and destroyed names stay, free tokens and
    markers are only added, and a new free token had no marker and no
    holder. *)
Definition grows (L L' : Ledger) : Prop :=
  (∀ h, toks L' (Held h) = toks L (Held h)) ∧ l_dead L' = l_dead L
  ∧ l_free L ⊆ l_free L' ∧ l_minted L ⊆ l_minted L'
  ∧ (∀ n, n ∈ l_free L' → n ∉ l_free L →
       (n ∉ l_minted L) ∧ (∀ h, n ∉ toks L (Held h)) ∧ n ∈ l_minted L' ∧ is_token n = true).

(** What a retirement does: holders and destroyed names stay, free tokens go,
    and only free tokens lose their marker. *)
Definition shrinks (L L' : Ledger) : Prop :=
  (∀ h, toks L' (Held h) = toks L (Held h)) ∧ l_dead L' = l_dead L
  ∧ l_free L' ⊆ l_free L ∧ l_minted L' ⊆ l_minted L
  ∧ l_minted L ∖ l_minted L' ⊆ l_free L.

Lemma grows_refl L : grows L L.
Proof. repeat split; try done; set_solver. Qed.

Lemma grows_trans L1 L2 L3 : grows L1 L2 → grows L2 L3 → grows L1 L3.
Proof.
  intros (H1 & H2 & H3 & H4 & H5) (K1 & K2 & K3 & K4 & K5).
  split_and!; [intros h; by rewrite K1|by rewrite K2|set_solver|set_solver|].
  intros n Hn Hn'. destruct (decide (n ∈ l_free L2)) as [Hi|Hi].
  - destruct (H5 n Hi Hn') as (? & ? & ? & ?). split_and!; [done|done|set_solver|done].
  - destruct (K5 n Hn Hi) as (A & B & C & D). split_and!; [set_solver| |done|done].
    intros h. rewrite <- H1. apply B.
Qed.

Lemma grows_same L L' : same_toks L L' → grows L L'.
Proof.
  intros [H1 H2]. pose proof (H1 Free) as Hf. pose proof (H1 Dead) as Hd. simpl in Hf, Hd.
  split_and!; [intros h; apply H1|done|by rewrite Hf|by rewrite H2|]. by rewrite Hf.
Qed.

Lemma create_marker_grows E n L r L1 :
  create_marker E n L = (r, L1) →
  grows L L1 ∧ (∀ p, toks L1 p = toks L p)
  ∧ (r = Created → (n ∉ l_minted L) ∧ l_minted L1 = {[n]} ∪ l_minted L)
  ∧ (r ≠ Created → L1 = L).
Proof.
  unfold create_marker. case_bool_decide; [intros [= <- <-]; split; [apply grows_refl|done]|].
  case_if; intros [= <- <-]; [split; [apply grows_refl|done]|].
  split_and!; [|by intros []|done|done].
  split_and!; simpl; try done; set_solver.
Qed.

Lemma adopt_loop_grows E minted ns L a L1 :
  adopt_loop E minted ns L = (a, L1) → grows L L1 ∧ (∀ p, toks L1 p = toks L p).
Proof.
  revert L a. induction ns as [|n ns IH]; intros L a; simpl.
  { intros [= _ <-]. split; [apply grows_refl|done]. }
  case_bool_decide; [apply IH|].
  destruct (create_marker E n L) as [r L2] eqn:Hc.
  apply create_marker_grows in Hc as (Hg & Ht & _ & _). intros H'.
  assert (∃ a', adopt_loop E minted ns L2 = (a', L1)) as [a' Ha'].
  { destruct r; [destruct (adopt_loop E minted ns L2); naive_solver..|eauto]. }
  destruct (IH _ _ Ha') as [Hg' Ht']. split; [by eapply grows_trans|].
  intros p. by rewrite Ht', Ht.
Qed.

Lemma token_is_held_false E n L h : _token_is_held E n L = Some false → n ∉ toks L (Held h).
Proof.
  unfold _token_is_held. case_bool_decide; [done|]. case_bool_decide as Hx; [done|].
  intros _ Hn. apply Hx, Exists_exists. exists h. split; [|done].
  apply elem_of_listing, elem_of_dom. simpl in Hn. by destruct (l_held L !! h).
Qed.

Lemma mint_name_grows cf E n minted L nx minted' L' :
  is_token n = true → mint_name cf E n minted L = (nx, minted', L') → grows L L'.
Proof.
  intros Htok. unfold mint_name. case_bool_decide; [by intros [= _ _ <-]; apply grows_refl|].
  destruct (create_marker E n L) as [r L1] eqn:Hc.
  apply create_marker_grows in Hc as (Hg & Ht & Hcr & Hncr).
  destruct r; [|intros [= _ _ <-]; by apply grows_refl || done..].
  destruct Hcr as [Hn Hm]; [done|].
  destruct (_token_is_held E n L1) as [[]|] eqn:Hh.
  - by intros [= _ _ <-].
  - case_bool_decide; [by intros [= _ _ <-]|]. case_if; intros [= _ _ <-]; [done|].
    destruct Hg as (H1 & H2 & H3 & H4 & H5).
    pose proof (Ht Free) as Hf. simpl in Hf.
    split_and!; [exact H1|exact H2| |exact H4|]; simpl; [set_solver|].
    intros n' [->%elem_of_singleton|Hn']%elem_of_union Hnn'; [|set_solver].
    split_and!; [done| |set_solver|done]. intros h. change (n ∉ toks L (Held h)).
    rewrite <- H1. by eapply token_is_held_false.
  - intros [= _ _ <-]. destruct Hg as (H1 & H2 & H3 & H4 & H5).
    pose proof (Ht Free) as Hf. simpl in Hf.
    split_and!; [exact H1|exact H2|exact H3| |]; simpl; rewrite ?Hm, ?Hf; set_solver.
Qed.

Lemma mint_names_grows cf E ns minted L nx minted' L' :
  Forall (λ n, is_token n = true) ns →
  mint_names cf E ns minted L = (nx, minted', L') → grows L L'.
Proof.
  intros Hns. revert minted L. induction Hns as [|n ns Hn Hns IH]; intros minted L; simpl.
  { intros [= _ _ <-]. apply grows_refl. }
  destruct (mint_name cf E n minted L) as [[nx1 m1] L1] eqn:H1.
  apply mint_name_grows in H1; [|done].
  destruct nx1; [|by intros [= _ _ <-]..]. intros H2%IH. by eapply grows_trans.
Qed.

Lemma kind_names_tokens kind total : Forall (λ n, is_token n = true) (kind_names kind total).
Proof.
  apply Forall_forall. intros n. unfold kind_names. rewrite list_elem_of_fmap.
  intros (i & -> & _). apply is_token_token.
Qed.

Lemma mint_kinds_grows cf E cap minted L L' r :
  mint_kinds cf E cap minted L = (L', r) → grows L L'.
Proof.
  revert minted L. induction cap as [|[kind c] cap IH]; intros minted L; simpl.
  { intros [= <- _]. apply grows_refl. }
  case_bool_decide; [intros [= <- _]; apply grows_refl|].
  destruct (mint_names cf E (kind_names kind c) minted L) as [[nx1 m1] L1] eqn:H1.
  apply mint_names_grows in H1; [|apply kind_names_tokens].
  destruct nx1; [|by intros [= <- _]..]. intros H2%IH. by eapply grows_trans.
Qed.

Lemma ensure_capacity_grows cf E cap L L' r :
  ensure_capacity cf E cap L = (L', r) → grows L L'.
Proof.
  unfold ensure_capacity. case_if; [intros [= <- _]; apply grows_refl|].
  unfold _adopt_present_tokens. destruct (present_tokens cf E L); [|intros [= <- _]; apply grows_refl].
  destruct (adopt_loop E _ _ L) as [a L1] eqn:Ha. apply adopt_loop_grows in Ha as [Ha _].
  intros H%mint_kinds_grows. by eapply grows_trans.
Qed.

Lemma shrinks_refl L : shrinks L L.
Proof. repeat split; try done; set_solver. Qed.

Lemma shrinks_trans L1 L2 L3 : shrinks L1 L2 → shrinks L2 L3 → shrinks L1 L3.
Proof.
  intros (H1 & H2 & H3 & H4 & H5) (K1 & K2 & K3 & K4 & K5).
  split_and!; [intros h; by rewrite K1|by rewrite K2|set_solver|set_solver|].
  intros n [Hn Hn']%elem_of_difference.
  destruct (decide (n ∈ l_minted L2)); set_solver.
Qed.

Lemma retire_loop_shrinks E ns L c L' :
  (∀ n, n ∈ ns → n ∈ l_free L) → NoDup ns → retire_loop E ns L = (c, L') → shrinks L L'.
Proof.
  revert L c. induction ns as [|n ns IH]; intros L c Hns Hnd; simpl.
  { intros [= _ <-]. apply shrinks_refl. }
  apply NoDup_cons in Hnd as [Hn Hnd].
  assert (n ∈ l_free L) by (apply Hns; set_solver).
  case_if.
  - intros H'. apply IH in H'; [|set_solver|done].
    eapply shrinks_trans; [|done]. split_and!; simpl; try done; set_solver.
  - destruct (retire_loop E ns _) as [c' L2] eqn:Hr. intros [= _ <-].
    apply IH in Hr; [| |done].
    + eapply shrinks_trans; [|done]. split_and!; simpl; try done; set_solver.
    + intros n' Hn'. simpl. apply elem_of_difference. split; [apply Hns; set_solver|].
      rewrite elem_of_singleton. by intros ->.
Qed.

Lemma retire_listing E k x L c L' :
  retire_loop E (take x (rev (listing (glob_kind k (l_free L))))) L = (c, L') → shrinks L L'.
Proof.
  apply retire_loop_shrinks.
  - intros n Hn. assert (n ∈ rev (listing (glob_kind k (l_free L)))) as Hn2.
    { eapply elem_of_submseteq; [done|]. apply sublist_submseteq, sublist_take. }
    rewrite list_elem_of_In, <- in_rev, <- list_elem_of_In, elem_of_listing in Hn2. set_solver.
  - eapply sublist_NoDup; [|apply sublist_take]. apply NoDup_ListNoDup, NoDup_rev, NoDup_ListNoDup, NoDup_listing.
Qed.

Lemma retire_kinds_shrinks E mi hp un cap re L L' r :
  retire_kinds E mi hp un cap re L = (L', r) → shrinks L L'.
Proof.
  revert re L. induction cap as [|[kind c] cap IH]; intros re L; simpl.
  { intros [= <- _]. apply shrinks_refl. }
  case_bool_decide; [intros [= <- _]; apply shrinks_refl|].
  destruct (retire_loop E _ L) as [c' L1] eqn:Hr. apply retire_listing in Hr.
  intros H2%IH. by eapply shrinks_trans.
Qed.

Lemma retire_free_capacity_shrinks E now cap L L' r :
  retire_free_capacity E now cap L = (L', r) → shrinks L L'.
Proof.
  unfold retire_free_capacity. destruct (_held_census E L) as [hp un].
  destruct (retire_kinds E _ hp un (sorted_items cap) ∅ L) as [L1 r1] eqn:Hr.
  apply retire_kinds_shrinks in Hr. destruct r1; [|by intros [= <- _]].
  unfold report_census. destruct un; intros [= <- _]; exact Hr.
Qed.

(** ** The transition system *)

Section steps.
Context (cf : Conf).

(** One call of a mutator, with its arguments and the file system's answers
    [E] left open. *)
Inductive step (E : IO) : Ledger → Ledger → Prop :=
  | s_ensure cap L : step E L (fst (ensure_capacity cf E cap L))
  | s_retire_free now cap L : step E L (fst (retire_free_capacity E now cap L))
  | s_retire_held k counts L : step E L (snd (retire_held E k counts L))
  | s_release_count k counts L : step E L (snd (release_count E k counts L))
  | s_begin lf fl c k d ad ti g L : step E L (fst (begin_acquire E lf fl c k d ad ti g L))
  | s_commit k h L : step E L (commit_acquire E k h L).1.1
  | s_abandon h L : step E L (fst (abandon_acquire E h L))
  | s_acquire lf fl c k d L : step E L (fst (acquire cf E lf fl c k d L))
  | s_sweep W g L : step E L (fst (sweep_stale_acquisitions E W g L))
  | s_release k L : step E L (fst (release E k L))
  | s_release_kinds k ks L : step E L (snd (release_kinds E k ks L))
  | s_release_except k ks L : step E L (snd (release_except E k ks L))
  | s_transfer a b L : step E L (fst (transfer E a b L))
  | s_transfer_count a b n L : step E L (fst (transfer_count E a b n L))
  | s_transfer_tokens a b ns L : step E L (fst (transfer_tokens E a b ns L)).

(** States reached from [L0] by any calls whose file system satisfies [Q]. *)
Definition reachable (Q : IO → Prop) : Ledger → Ledger → Prop :=
  rtc (λ L L', ∃ E, Q E ∧ step E L L').

Ltac live_source := intros p q; unfold acquires, sweeps, attempts, takes, releases, hands, destroys;
  intros; destruct_or?; destruct_and?; naive_solver.

(** Every step grows, shrinks, or moves tokens out of live places. *)
Lemma step_effect E L L' :
  step E L L' →
  (∃ cap, L' = fst (ensure_capacity cf E cap L))
  ∨ (∃ now cap, L' = fst (retire_free_capacity E now cap L))
  ∨ mv (λ p _, p ≠ Dead) L L'.
Proof.
  intros HS. destruct HS; first [by left; eauto|by right; left; eauto|right; right].
  - destruct (retire_held E k counts L) eqn:HE. eapply mv_mono, retire_held_mv, HE. live_source.
  - destruct (release_count E k counts L) eqn:HE. eapply mv_mono, release_count_mv, HE. live_source.
  - destruct (begin_acquire E lf fl c k d ad ti g L) eqn:HE.
    eapply mv_mono, begin_acquire_mv, HE. live_source.
  - destruct (commit_acquire E k h L) as [[]] eqn:HE. eapply mv_mono, commit_acquire_mv, HE. live_source.
  - destruct (abandon_acquire E h L) eqn:HE. eapply mv_mono, abandon_mv, HE. live_source.
  - destruct (acquire cf E lf fl c k d L) eqn:HE. eapply mv_mono, acquire_mv, HE.
    live_source.
  - destruct (sweep_stale_acquisitions E W g L) eqn:HE. eapply mv_mono, sweep_mv, HE.
    live_source.
  - destruct (release E k L) eqn:HE. eapply mv_mono, release_mv, HE. live_source.
  - destruct (release_kinds E k ks L) eqn:HE. eapply mv_mono, release_kinds_mv, HE. live_source.
  - destruct (release_except E k ks L) eqn:HE. eapply mv_mono, release_except_mv, HE. live_source.
  - destruct (transfer E a b L) eqn:HE. eapply mv_mono, transfer_mv, HE. live_source.
  - destruct (transfer_count E a b n L) eqn:HE. eapply mv_mono, transfer_count_mv, HE. live_source.
  - destruct (transfer_tokens E a b ns L) eqn:HE. eapply mv_mono, transfer_tokens_mv, HE. live_source.
Qed.

End steps.

(** ** Invariants *)

(** No token name is in two live places: free twice, free and held, or under
    two holders. *)
Definition live_custody (L : Ledger) : Prop :=
  ∀ n p q, p ≠ Dead → q ≠ Dead → n ∈ toks L p → n ∈ toks L q → p = q.

(** Every token file has its mint marker. *)
Definition marked (L : Ledger) : Prop :=
  ∀ n, is_token n = true → exists_tok L n → n ∈ l_minted L.

Lemma mv_live_custody L L' :
  mv (λ p _, p ≠ Dead) L L' → live_custody L → live_custody L'.
Proof.
  induction 1 as [L L' [HS _]|src dst X L1 L2 L3 HP Hne Hm Hmv IH]; intros Hc.
  { intros n p q. rewrite !HS. apply Hc. }
  apply IH. intros n p q Hp Hq Hnp Hnq. pose proof Hm as (HX & _).
  apply (moves_in _ _ _ _ _ _ _ Hne Hm) in Hnp, Hnq.
  destruct Hnp as [[-> Hnp]|[Hnp Hnp']], Hnq as [[-> Hnq]|[Hnq Hnq']]; try done.
  - destruct (Hnq' (Hc n q src Hq HP Hnq (HX _ Hnp))). done.
  - destruct (Hnp' (Hc n p src Hp HP Hnp (HX _ Hnq))). done.
  - by apply (Hc n).
Qed.

Lemma grows_toks L L' n p :
  grows L L' → n ∈ toks L' p →
  n ∈ toks L p ∨ (p = Free ∧ (n ∉ l_minted L) ∧ (∀ h, n ∉ toks L (Held h)) ∧ n ∈ l_minted L'
                  ∧ is_token n = true).
Proof.
  intros (H1 & H2 & H3 & H4 & H5) Hn. destruct p as [|h|].
  - destruct (decide (n ∈ l_free L)); [by left|right]. split; [done|by apply H5].
  - left. by rewrite <- H1.
  - left. simpl in *. by rewrite <- H2.
Qed.

Lemma grows_live_custody L L' : grows L L' → live_custody L → live_custody L'.
Proof.
  intros Hg Hc n p q Hp Hq Hnp Hnq.
  destruct (grows_toks _ _ _ _ Hg Hnp) as [Hnp'|(-> & _ & Hh & _)],
    (grows_toks _ _ _ _ Hg Hnq) as [Hnq'|(-> & _ & Hh' & _)]; [by apply (Hc n)| | |done].
  - destruct p; [done|by destruct (Hh' holder)|done].
  - destruct q; [done|by destruct (Hh holder)|done].
Qed.

Lemma shrinks_toks L L' p : shrinks L L' → toks L' p ⊆ toks L p.
Proof.
  intros (H1 & H2 & H3 & H4 & H5). destruct p; simpl; [done| |by rewrite H2].
  specialize (H1 holder). simpl in H1. by rewrite H1.
Qed.

Lemma shrinks_live_custody L L' : shrinks L L' → live_custody L → live_custody L'.
Proof.
  intros Hs Hc n p q Hp Hq Hnp%(shrinks_toks _ _ p Hs) Hnq%(shrinks_toks _ _ q Hs).
  by apply (Hc n).
Qed.

Lemma step_live_custody cf E L L' : step cf E L L' → live_custody L → live_custody L'.
Proof.
  intros [(cap & ->)|[(now & cap & ->)|Hm]]%step_effect.
  - destruct (ensure_capacity cf E cap L) eqn:HE.
    by eapply grows_live_custody, ensure_capacity_grows.
  - destruct (retire_free_capacity E now cap L) eqn:HE.
    by eapply shrinks_live_custody, retire_free_capacity_shrinks.
  - by apply mv_live_custody.
Qed.

Lemma mv_marked P L L' : mv P L L' → marked L → marked L'.
Proof.
  intros Hm HM n Ht Hn. rewrite (mv_minted _ _ _ Hm). apply HM; [done|].
  by apply (mv_exists _ _ _ n Hm).
Qed.

Lemma grows_marked L L' : grows L L' → marked L → marked L'.
Proof.
  intros Hg HM n Ht [p Hp]. destruct (grows_toks _ _ _ _ Hg Hp) as [Hp'|(_ & _ & _ & ? & _)]; [|done].
  destruct Hg as (_ & _ & _ & Hmi & _). apply Hmi, HM; [done|by exists p].
Qed.

Lemma grows_custody L L' : grows L L' → marked L → custody L → custody L'.
Proof.
  intros Hg HM Hc n p q Hnp Hnq.
  destruct (grows_toks _ _ _ _ Hg Hnp) as [Hnp'|(-> & Hm & Hh & _ & Ht)],
    (grows_toks _ _ _ _ Hg Hnq) as [Hnq'|(-> & Hm' & Hh' & _ & Ht')]; [by apply (Hc n)| | |done].
  - destruct Hm'. apply HM; [done|by exists p].
  - destruct Hm. apply HM; [done|by exists q].
Qed.

(** A file system that never fails to unlink a free token. *)
Definition unlinks (E : IO) : Prop := ∀ n, io_unlink_free E n = false.

Lemma retire_loop_exact E ns L c L' :
  unlinks E → retire_loop E ns L = (c, L') →
  c = length ns ∧ l_free L' = l_free L ∖ list_to_set ns
  ∧ l_minted L' = l_minted L ∖ list_to_set ns ∧ l_held L' = l_held L ∧ l_dead L' = l_dead L.
Proof.
  intros HE. revert L c. induction ns as [|n ns IH]; intros L c; simpl.
  { intros [= <- <-]. split_and!; try done; set_solver. }
  rewrite HE. destruct (retire_loop E ns _) as [c' L2] eqn:Hr. intros [= <- <-].
  destruct (IH _ _ Hr) as (-> & H1 & H2 & H3 & H4). simpl in *.
  split_and!; try done; [rewrite H1|rewrite H2]; set_solver.
Qed.

(** Markers go only with their free token. *)
Definition unmarks_with (L L' : Ledger) : Prop :=
  shrinks L L' ∧ (∀ n, n ∈ l_minted L → n ∉ l_minted L' → n ∉ l_free L').

Lemma unmarks_with_trans L1 L2 L3 : unmarks_with L1 L2 → unmarks_with L2 L3 → unmarks_with L1 L3.
Proof.
  intros [H1 H2] [K1 K2]. split; [by eapply shrinks_trans|].
  intros n Hn Hn'. destruct (decide (n ∈ l_minted L2)); [auto|].
  destruct K1 as (_ & _ & K & _). intros Hf. by apply (H2 n), K.
Qed.

Lemma retire_unmarks E now cap L L' r :
  unlinks E → retire_free_capacity E now cap L = (L', r) → unmarks_with L L'.
Proof.
  intros HE. unfold retire_free_capacity. destruct (_held_census E L) as [hp un].
  assert (∀ mi cs re L L' r, retire_kinds E mi hp un cs re L = (L', r) → unmarks_with L L') as Hk.
  { clear L L' r. intros mi cs. induction cs as [|[kind c] cs IH]; intros re L L' r; simpl.
    { intros [= <- _]. split; [apply shrinks_refl|naive_solver]. }
    case_bool_decide; [intros [= <- _]; split; [apply shrinks_refl|naive_solver]|].
    destruct (retire_loop E _ L) as [c' L1] eqn:Hr. intros H2%IH.
    eapply unmarks_with_trans; [|done]. split; [by eapply retire_listing|].
    apply retire_loop_exact in Hr as (_ & Hf & Hm & _); [|done]. rewrite Hf, Hm. set_solver. }
  destruct (retire_kinds E _ hp un (sorted_items cap) ∅ L) as [L1 r1] eqn:Hr.
  apply Hk in Hr. destruct r1; [|by intros [= <- _]].
  unfold report_census. destruct un; intros [= <- _]; exact Hr.
Qed.

Lemma unmarks_marked L L' : unmarks_with L L' → custody L → marked L → marked L'.
Proof.
  intros [Hs Hu] Hc HM n Ht [p Hp].
  pose proof (shrinks_toks _ _ p Hs n Hp) as HpL.
  assert (n ∈ l_minted L) as Hn by (apply HM; [done|by exists p]).
  destruct (decide (n ∈ l_minted L')); [done|]. exfalso. apply (Hu n Hn); [done|].
  assert (n ∈ toks L Free).
  { destruct Hs as (_ & _ & _ & _ & H). apply H. set_solver. }
  assert (p = Free) as -> by (by eapply Hc). done.
Qed.

Lemma shrinks_custody L L' : shrinks L L' → custody L → custody L'.
Proof.
  intros Hs Hc n p q Hnp%(shrinks_toks _ _ p Hs) Hnq%(shrinks_toks _ _ q Hs). by apply (Hc n).
Qed.

Lemma step_marked cf E L L' :
  unlinks E → step cf E L L' → custody L ∧ marked L → custody L' ∧ marked L'.
Proof.
  intros HE [(cap & ->)|[(now & cap & ->)|Hm]]%step_effect [Hc HM].
  - destruct (ensure_capacity cf E cap L) eqn:Hg. apply ensure_capacity_grows in Hg.
    eauto using grows_custody, grows_marked.
  - destruct (retire_free_capacity E now cap L) eqn:Hr. simpl.
    apply retire_unmarks in Hr; [|done]. split; [|by eapply unmarks_marked].
    eapply shrinks_custody; [apply Hr|done].
  - eauto using mv_custody, mv_marked.
Qed.

Lemma reachable_live_custody cf Q L0 L :
  reachable cf Q L0 L → live_custody L0 → live_custody L.
Proof. induction 1 as [|L1 L2 L3 (E & _ & HS) Hr IH]; eauto using step_live_custody. Qed.

Lemma reachable_marked cf L0 L :
  reachable cf unlinks L0 L → custody L0 ∧ marked L0 → custody L ∧ marked L.
Proof. induction 1 as [|L1 L2 L3 (E & HQ & HS) Hr IH]; eauto using step_marked. Qed.

Lemma custody_empty : custody empty_ledger ∧ marked empty_ledger ∧ live_custody empty_ledger.
Proof.
  assert (∀ n p, n ∉ toks empty_ledger p) as H.
  { intros n [|h|]; unfold toks, empty_ledger; simpl; [set_solver| |set_solver].
    rewrite lookup_empty. set_solver. }
  split_and!; [intros n p q Hp; by destruct (H n p)| |intros n p q _ _ Hp; by destruct (H n p)].
  intros n _ [p Hp]. by destruct (H n p).
Qed.
