(* ===== verification/LedgerCount.v ===== *)
(** * Exact effects of acquiring and releasing

    How many tokens of which kind an acquisition takes, that a failed one
    returns them all, and that the composed [acquire] implements an abstract
    counter per kind and holder. *)

From S2P Require Import Prelude.
From S2P Require Import TokenName.
From S2P Require Import Ledger.
From S2P Require Import LedgerFacts.
From S2P Require Import LedgerEffects.
From S2P Require Import LedgerInv.
From stdpp Require Import options.

(** ** Single-direction closures *)

Lemma mv_moves (P : place → place → Prop) a b L L' :
  (∀ p q, P p q → p = a ∧ q = b) → a ≠ b → mv P L L' → ∃ X, moves a b X L L'.
Proof.
  intros HP Hne. induction 1 as [L L' HS|src dst X L1 L2 L3 HP' _ Hm Hmv [Y IH]].
  - exists ∅. eapply moves_same_r; [apply moves_refl|done].
  - destruct (HP _ _ HP') as [-> ->]. exists (X ∪ Y). by eapply moves_trans.
Qed.

Lemma empty_into_free_all E h L L' r :
  (∀ n, io_rename E (Held h) Free n = None) → _empty_into_free E h L = (L', r) →
  moves (Held h) Free (toks L (Held h)) L L'.
Proof.
  intros HE. unfold _empty_into_free. destruct (is_dir h L) eqn:Hd; cbn [negb].
  2: { intros [= <- _]. unfold is_dir in Hd. apply bool_decide_eq_false in Hd.
       replace (toks L (Held h)) with (∅ : gset string); [apply moves_refl|].
       unfold toks. apply eq_None_not_Some in Hd. by rewrite Hd. }
  destruct (move_loop _ _ _ _ _ _ _) as [[m f] L1] eqn:Hm.
  assert (f = false) as ->.
  { eapply (move_loop_no_fail E (Held h) Free); [done|apply NoDup_listing| | |exact Hm]; [|done].
    intros n; apply elem_of_listing. }
  pose proof (move_loop_moves E (Held h) Free _ _ _ _ _ _ _ ltac:(done) Hm (NoDup_listing _)) as [Hmv _].
  rewrite (move_loop_all E (Held h) Free _ _ _ _ _ ltac:(done) (NoDup_listing _)
             ltac:(intros n; apply elem_of_listing) Hm eq_refl) in Hmv.
  replace (list_to_set (listing (toks L (Held h)))) with (toks L (Held h)) in Hmv
    by (apply set_eq; intros; by rewrite elem_of_list_to_set, elem_of_listing).
  destruct (l_held L1 !! h) as [H|] eqn:Hh; [|by intros [= <- _]].
  case_if; [by intros [= <- _]|]. intros [= <- _].
  eapply moves_same_r; [done|]. etrans; [|apply rmdir_same]. by eapply set_holder_same.
Qed.

(** Only a failed sidecar unlink raises. *)
Lemma empty_into_free_ok E h L L' r :
  io_unlink_meta E h = false → _empty_into_free E h L = (L', r) → ∃ n, r = Ok n.
Proof.
  intros Hu. unfold _empty_into_free. destruct (is_dir h L); cbn [negb]; [|intros [= _ <-]; eauto].
  destruct (move_loop _ _ _ _ _ _ _) as [[m f] L1]. destruct f; [intros [= _ <-]; eauto|].
  destruct (l_held L1 !! h); [|intros [= _ <-]; eauto].
  rewrite Hu, andb_false_r. intros [= _ <-]. eauto.
Qed.

(** Taking tokens and giving them all back is no change. *)
Lemma moves_back a b X L L1 L2 :
  a ≠ b → toks L b = ∅ → moves a b X L L1 → moves b a (toks L1 b) L1 L2 → same_toks L L2.
Proof.
  intros Hne Hb Hm1 Hm2. pose proof Hm1 as (H1 & H2 & H3 & H4 & H5).
  pose proof Hm2 as (K1 & K2 & K3 & K4 & K5). rewrite Hb in H3.
  split; [|congruence]. intros p.
  destruct (decide (p = a)) as [->|].
  { rewrite K3, H2, H3. apply set_eq. intros n. destruct (decide (n ∈ X)); set_solver. }
  destruct (decide (p = b)) as [->|]; [rewrite K2, Hb; set_solver|].
  by rewrite K4, H4.
Qed.

Lemma toks_fresh h L : l_held L !! h = None → toks L (Held h) = ∅.
Proof. intros Hh. unfold toks. by rewrite Hh. Qed.

Lemma begin_locked_refused E lf c k d ad ti g L L' r :
  l_held L !! handle_for c k = None →
  (∀ n, io_rename E (Held (handle_for c k)) Free n = None) →
  _begin_acquire_locked E lf c k d ad ti g L = (L', r) →
  (∀ h, r ≠ Ok (Some h)) → same_toks L L'.
Proof.
  intros Hf HE. unfold _begin_acquire_locked.
  destruct lf; simpl; [|intros [= <- _] _; apply set_shortage_same].
  case_if; [intros [= <- <-] Hr; by destruct (Hr (handle_for c k))|].
  set (h := handle_for c k) in *.
  destruct (acquire_attempt E h _ ad ti g _) as [a L1] eqn:Ha.
  apply acquire_attempt_mv in Ha.
  apply (mv_moves _ Free (Held h)) in Ha as [X HX]; [|by intros ?? []|done].
  assert (same_toks L (mkdir h (set_shortage None L))) as HS
    by (etrans; [apply set_shortage_same|apply mkdir_same]).
  destruct (_empty_into_free E h L1) as [L2 r2] eqn:He.
  apply empty_into_free_all in He; [|done].
  assert (same_toks L L2) as Hres.
  { eapply moves_back; [|by apply toks_fresh| |exact He]; [done|]. by eapply moves_same_l. }
  destruct a; [intros [= <- <-] Hr; by destruct (Hr h)|..]; destruct r2; by intros [= <- _] _.
Qed.

(** ** How much a take takes *)

Lemma take_loop_spec E h need ns L t L' u :
  take_loop E h need ns L = (t, Ok u, L') → NoDup ns →
  ∃ m, m `sublist_of` ns ∧ Z.of_nat (length m) = t ∧ (t ≤ Z.max 0 need)%Z
       ∧ moves Free (Held h) (list_to_set m) L L'.
Proof.
  revert need L t. induction ns as [|n ns IH]; intros need L t Ht Hnd; simpl in Ht.
  { simplify_eq. exists []. split_and!; [done|done|simpl; lia|apply moves_refl]. }
  apply NoDup_cons in Hnd as [Hn Hnd].
  case_bool_decide.
  { simplify_eq. exists []. split_and!; [apply sublist_nil_l|done|simpl; lia|apply moves_refl]. }
  destruct (rename E Free (Held h) n L) as [[[]|] L1] eqn:Hr.
  - apply rename_err in Hr as ->. destruct (IH _ _ _ Ht Hnd) as (m & ? & ? & ? & ?).
    exists m. eauto using sublist_cons.
  - by simplify_eq.
  - apply rename_ok in Hr as [_ Hr]; [|done].
    destruct (take_loop E h (need - 1) ns L1) as [[t' r'] L2] eqn:Ht'. simplify_eq.
    destruct (IH _ _ _ Ht' Hnd) as (m & ? & ? & ? & ?).
    exists (n :: m). split_and!; [by apply sublist_skip|simpl; lia|lia|].
    simpl. by eapply moves_trans.
Qed.

Lemma take_loop_exact E h need ns L :
  (∀ n, io_rename E Free (Held h) n = None) → NoDup ns → (∀ n, n ∈ ns → n ∈ l_free L) →
  ∃ L', take_loop E h need ns L
        = (Z.of_nat (length (take (Z.to_nat need) ns)), Ok tt, L').
Proof.
  intros HE. revert need L. induction ns as [|n ns IH]; intros need L Hnd Hin; simpl.
  { exists L. by rewrite take_nil. }
  apply NoDup_cons in Hnd as [Hn Hnd].
  case_bool_decide.
  { exists L. replace (Z.to_nat need) with 0 by lia. done. }
  destruct (rename_free E Free (Held h) n L) as [L1 Hr]; [done|apply Hin; set_solver|].
  rewrite Hr. apply rename_ok in Hr as [_ Hr]; [|done].
  destruct (IH (need - 1)%Z L1) as [L' Ht]; [done| |].
  { intros n' Hn'. apply (moves_in Free (Held h) _ _ _ n' Free ltac:(done) Hr). right.
    split; [apply Hin; set_solver|]. intros _. rewrite elem_of_singleton. by intros ->. }
  rewrite Ht. exists L'. replace (Z.to_nat need) with (S (Z.to_nat (need - 1))) by lia.
  simpl. do 2 f_equal. lia.
Qed.

(** *** Counting by kind *)

(** Token names whose kind has no dash, so that [f"{kind}-*"] selects exactly
    that kind. *)
Definition plain (X : gset string) : Prop :=
  ∀ n, n ∈ X → is_token n = true → has_char dash (kind_of n) = false.

Definition count_of (kind : string) (X : gset string) : nat := size (glob_kind kind X).

Lemma count_union_disjoint k X Y : X ## Y → count_of k (X ∪ Y) = count_of k X + count_of k Y.
Proof.
  intros HXY. unfold count_of, glob_kind.
  rewrite <- size_union by set_solver. f_equal. set_solver.
Qed.

Lemma count_difference k X Y : Y ⊆ X → count_of k (X ∖ Y) = count_of k X - count_of k Y.
Proof.
  intros HYX. rewrite (union_difference_L Y X HYX) at 2.
  rewrite count_union_disjoint by set_solver. lia.
Qed.

Lemma count_le k X Y : X ⊆ Y → count_of k X ≤ count_of k Y.
Proof. intros HXY. apply subseteq_size. unfold glob_kind. set_solver. Qed.

Lemma plain_kind X k n : plain X → n ∈ X → of_kind k n = true → kind_of n = k.
Proof.
  intros HX Hn Hk. pose proof (of_kind_is_token _ _ Hk) as Ht.
  by apply of_kind_iff; [|apply HX|].
Qed.

(** A set of [kind] tokens counts in full for [kind] and not at all for
    another kind. *)
Lemma count_same k X : (∀ n, n ∈ X → of_kind k n = true) → count_of k X = size X.
Proof.
  intros HX. unfold count_of. f_equal. apply set_eq. intros n.
  unfold glob_kind. rewrite elem_of_filter. naive_solver.
Qed.

Lemma count_other k k' X :
  plain X → (∀ n, n ∈ X → of_kind k n = true) → k ≠ k' → count_of k' X = 0.
Proof.
  intros Hp HX Hne. unfold count_of. apply size_empty_iff. intros n.
  unfold glob_kind. rewrite elem_of_filter. split; [|set_solver].
  intros [Hk' Hn]. destruct Hne. rewrite <- (plain_kind _ _ _ Hp Hn (HX _ Hn)).
  by apply (plain_kind X).
Qed.

Lemma plain_subseteq X Y : X ⊆ Y → plain Y → plain X.
Proof. intros HXY HY n Hn. apply HY, HXY, Hn. Qed.

(** What a list of demands asks for of one kind. *)
Definition asked (ws : list (string * Z)) (k : string) : nat :=
  sum_list_with (λ kv, if bool_decide (kv.1 = k) then Z.to_nat kv.2 else 0) ws.

Definition asked_total (ws : list (string * Z)) : nat :=
  sum_list_with (λ kv, Z.to_nat kv.2) ws.

Definition all_pos (ws : list (string * Z)) : Prop := Forall (λ kv, 0 < kv.2)%Z ws.

Lemma asked_nil_other ws k : k ∉ ws.*1 → asked ws k = 0.
Proof.
  induction ws as [|[k' v] ws IH]; [done|]. rewrite fmap_cons, not_elem_of_cons. intros [H1 H2].
  simpl. rewrite bool_decide_eq_false_2 by (simpl in *; congruence). by apply IH.
Qed.

Lemma may_fall_short_none kind : negb (may_fall_short None None kind) = true.
Proof. unfold may_fall_short. by rewrite !andb_false_r. Qed.

(** A take that goes through holds exactly the demand, kind by kind. *)
Lemma take_kinds_done E h ws L L' :
  take_kinds E h None None None ws L = (Done, L') →
  NoDup ws.*1 → all_pos ws → plain (l_free L) →
  ∃ X, moves Free (Held h) X L L' ∧ (∀ k, count_of k X = asked ws k) ∧ size X = asked_total ws.
Proof.
  revert L. induction ws as [|[kind v] ws IH]; intros L Ht Hnd Hpos Hpl; cbn [take_kinds cpu_need] in Ht.
  { simplify_eq. exists ∅. split_and!; [apply moves_refl|done|done]. }
  apply NoDup_cons in Hnd as [Hk Hnd]. apply Forall_cons in Hpos as [Hv Hpos]. simpl in Hv.
  set (src := if bool_decide (kind = "cpu") then _ else _) in Ht.
  assert (src = Ok (listing (glob_kind kind (l_free L)))) as Hsrc.
  { unfold src. case_bool_decide; [subst; done|done]. }
  rewrite Hsrc in Ht.
  destruct (take_loop E h v _ L) as [[t r] L1] eqn:Htl. destruct r as [u|]; [|done].
  rewrite may_fall_short_none, andb_true_r in Ht.
  case_bool_decide as Hif; [done|]. apply take_loop_spec in Htl as (m & Hsub & Hlen & Hle & Hm); [|apply NoDup_listing].
  assert (Z.of_nat (length m) = v) as Hmv.
  { lia. }
  assert (∀ n, n ∈ (list_to_set m : gset string) → of_kind kind n = true) as Hof.
  { intros n. rewrite elem_of_list_to_set. intros Hn.
    assert (n ∈ listing (glob_kind kind (l_free L))) as Hn2
      by (eapply elem_of_submseteq; [done|by apply sublist_submseteq]).
    rewrite elem_of_listing in Hn2. unfold glob_kind in Hn2. set_solver. }
  pose proof Hm as (HXs & HXf & _).
  assert (plain (list_to_set m)) as Hplm by (by eapply plain_subseteq).
  destruct (IH _ Ht) as (Y & HY & Hcnt & Hsz); [done|done| |].
  { eapply plain_subseteq; [|exact Hpl]. simpl in HXf. rewrite HXf. set_solver. }
  pose proof HY as (HYs & _). simpl in HXf, HYs. rewrite HXf in HYs.
  exists (list_to_set m ∪ Y). split_and!.
  - by eapply moves_trans.
  - intros k. rewrite count_union_disjoint, Hcnt by set_solver. simpl. f_equal.
    case_bool_decide as Hkk; simpl in Hkk; subst.
    + rewrite count_same by done. rewrite size_list_to_set; [lia|].
      eapply sublist_NoDup; [apply NoDup_listing|done].
    + by eapply count_other.
  - rewrite size_union, Hsz by set_solver. simpl. f_equal.
    rewrite size_list_to_set; [lia|]. eapply sublist_NoDup; [apply NoDup_listing|done].
Qed.

(** With no refused rename, a take goes through exactly when every kind has
    its demand free. *)
Lemma take_kinds_complete E h ws L a L' :
  (∀ n, io_rename E Free (Held h) n = None) →
  take_kinds E h None None None ws L = (a, L') →
  NoDup ws.*1 → all_pos ws → plain (l_free L) →
  (a = Done ↔ Forall (λ kv, Z.to_nat kv.2 ≤ count_of kv.1 (l_free L)) ws)
  ∧ (a = Done ∨ a = Insufficient).
Proof.
  intros HE. revert L. induction ws as [|[kind v] ws IH]; intros L Ht Hnd Hpos Hpl; cbn [take_kinds cpu_need] in Ht.
  { simplify_eq. naive_solver. }
  apply NoDup_cons in Hnd as [Hk Hnd]. apply Forall_cons in Hpos as [Hv Hpos]. simpl in Hv.
  set (src := if bool_decide (kind = "cpu") then _ else _) in Ht.
  assert (src = Ok (listing (glob_kind kind (l_free L)))) as Hsrc.
  { unfold src. case_bool_decide; [subst; done|done]. }
  rewrite Hsrc in Ht. clear src Hsrc.
  destruct (take_loop_exact E h v (listing (glob_kind kind (l_free L))) L) as [L1 Htl];
    [done|apply NoDup_listing|intros n; rewrite elem_of_listing; unfold glob_kind; set_solver|].
  rewrite Htl in Ht. rewrite length_take, length_listing in Ht.
  change (size (glob_kind kind (l_free L))) with (count_of kind (l_free L)) in Ht.
  rewrite Forall_cons. rewrite may_fall_short_none, andb_true_r in Ht. cbn [fst snd].
  case_bool_decide as Hif.
  { simplify_eq. split; [|by right]. split; [done|]. intros [? _]. lia. }
  apply take_loop_spec in Htl as (m & Hsub & _ & _ & Hm); [|apply NoDup_listing].
  pose proof Hm as (HXs & HXf & _). simpl in HXf, HXs.
  destruct (IH _ Ht) as [IH1 IH2]; [done|done| |].
  { eapply plain_subseteq; [|exact Hpl]. rewrite HXf. set_solver. }
  split; [|done]. rewrite IH1.
  assert (∀ k', k' ≠ kind → count_of k' (l_free L1) = count_of k' (l_free L)) as Hsame.
  { intros k' Hne. rewrite HXf, count_difference by done.
    rewrite (count_other kind k' (list_to_set m)); [lia| | |done].
    - by eapply plain_subseteq.
    - intros n. rewrite elem_of_list_to_set. intros Hn.
      assert (n ∈ listing (glob_kind kind (l_free L))) as Hn2
        by (eapply elem_of_submseteq; [done|by apply sublist_submseteq]).
      rewrite elem_of_listing in Hn2. unfold glob_kind in Hn2. set_solver. }
  split.
  - intros HF. split; [lia|]. eapply Forall_impl; [exact HF|].
    intros [k' v'] Hle. simpl in *. (* kinds are distinct *)
    destruct (decide (k' = kind)) as [->|Hne]; [|by rewrite <- Hsame].
    etrans; [exact Hle|]. apply count_le. rewrite HXf. set_solver.
  - intros [_ HF]. apply Forall_forall. intros [k' v'] Hin. simpl.
    assert (k' ≠ kind) as Hne.
    { intros ->. apply Hk. apply list_elem_of_fmap. by exists (kind, v'). }
    rewrite Hsame by done. rewrite Forall_forall in HF. by apply (HF (k', v')).
Qed.

(** *** Demands as sorted items *)

Lemma sorted_items_keys {A} (m : gmap string A) : (sorted_items m).*1 = listing (dom m).
Proof.
  unfold sorted_items.
  assert (∀ k, k ∈ listing (dom m) → is_Some (m !! k)) as H
    by (intros k; rewrite elem_of_listing; apply elem_of_dom).
  induction (listing (dom m)) as [|k ks IH]; [done|]. simpl.
  destruct (H k) as [v ->]; [set_solver|]. simpl. f_equal. apply IH. set_solver.
Qed.

Lemma sorted_items_NoDup {A} (m : gmap string A) : NoDup (sorted_items m).*1.
Proof. rewrite sorted_items_keys. apply NoDup_listing. Qed.

Lemma asked_elem ws k v : NoDup ws.*1 → (k, v) ∈ ws → asked ws k = Z.to_nat v.
Proof.
  induction ws as [|[k' v'] ws IH]; [intros _ H; by apply elem_of_nil in H|].
  rewrite fmap_cons, NoDup_cons. intros [Hn Hnd]. simpl. rewrite elem_of_cons. intros [[= -> ->]|Hin].
  - rewrite bool_decide_eq_true_2 by done. rewrite asked_nil_other by done. lia.
  - rewrite bool_decide_eq_false_2; [by apply IH|]. intros ->. apply Hn.
    apply list_elem_of_fmap. by exists (k, v).
Qed.

Lemma wanted_lookup d k : wanted_of d !! k = (v ← d !! k; if bool_decide (0 < v)%Z then Some v else None).
Proof.
  unfold wanted_of. rewrite map_lookup_filter. destruct (d !! k); simpl; [|done].
  case_bool_decide; by rewrite ?option_guard_True, ?option_guard_False by done.
Qed.

Lemma asked_sorted (d : gmap string Z) k : asked (sorted_items (wanted_of d)) k = Z.to_nat (default 0%Z (d !! k)).
Proof.
  pose proof (wanted_lookup d k) as Hw. destruct (d !! k) as [v|]; simpl in *.
  - case_bool_decide.
    + apply asked_elem; [apply sorted_items_NoDup|]. by apply elem_of_sorted_items.
    + rewrite asked_nil_other; [lia|]. rewrite sorted_items_keys, elem_of_listing, elem_of_dom, Hw.
      by intros [].
  - rewrite asked_nil_other; [lia|]. rewrite sorted_items_keys, elem_of_listing, elem_of_dom, Hw.
    by intros [].
Qed.

Lemma all_pos_wanted d : all_pos (sorted_items (wanted_of d)).
Proof.
  apply Forall_forall. intros [k v]. rewrite elem_of_sorted_items, wanted_lookup.
  destruct (d !! k); simpl; [|done]. case_bool_decide; naive_solver.
Qed.

(** ** Committing *)

(** When no name has landed before, the loop that skips landed names skips
    none. *)
Lemma move_loop_landed_none E src dst limit ns L :
  src ≠ dst → NoDup ns → (∀ n, n ∈ ns → n ∉ toks L dst) →
  move_loop E src dst (landed dst) limit ns L = move_loop E src dst no_skip limit ns L.
Proof.
  intros Hne. revert limit L. induction ns as [|n ns IH]; intros limit L Hnd Hin; simpl; [done|].
  apply NoDup_cons in Hnd as [Hn Hnd]. case_bool_decide; [done|].
  unfold landed at 1. rewrite bool_decide_eq_false_2 by (apply Hin; set_solver).
  destruct (rename E src dst n L) as [[e|] L1] eqn:Hr.
  - apply rename_err in Hr as ->. rewrite IH; [done|done|]. set_solver.
  - apply rename_ok in Hr as [_ Hr]; [|done]. rewrite IH; [done|done|].
    intros n' Hn'. rewrite (moves_in _ _ _ _ _ _ _ Hne Hr). intros [[_ ?]|[? _]]; [set_solver|].
    by apply (Hin n'); [set_solver|].
Qed.

Lemma no_meta_moves E a b L :
  cpu_meta a L = None → gpu_meta a L = None →
  move_cpu_meta E a b L = (0, L) ∧ move_gpu_meta E a b L = (0, L).
Proof. intros Hc Hg. unfold move_cpu_meta, move_gpu_meta. by rewrite Hc, Hg. Qed.

Lemma mkdir_meta h k L : cpu_meta h (mkdir k L) = cpu_meta h L ∧ gpu_meta h (mkdir k L) = gpu_meta h L.
Proof.
  unfold mkdir, cpu_meta, gpu_meta. destruct (l_held L !! k) eqn:Hk; [done|]. simpl.
  rewrite lookup_insert. case_decide; subst; [by rewrite Hk|done].
Qed.

(** The destination can be made and the private directory listed. *)
Definition committable (E : IO) (k h : string) : Prop := io_unreadable E RMake k = false ∧ io_unreadable E RList h = false.

(** The winner of an undisturbed commit owns everything its claimant took. *)
Lemma commit_all E k h L c m L' :
  h ≠ k → live_custody L → cpu_meta h L = None → gpu_meta h L = None →
  (∀ n, io_rename E (Held h) (Held k) n = None) → committable E k h →
  commit_acquire E k h L = (L', m, c) →
  c = Ok (size (toks L (Held h))) ∧ moves (Held h) (Held k) (toks L (Held h)) L L'.
Proof.
  intros Hne Hc Hmc Hmg HE [HM HL]. unfold commit_acquire. destruct (is_dir h L) eqn:Hd; cbn [negb].
  2: { intros [= <- <- <-]. unfold is_dir in Hd. apply bool_decide_eq_false in Hd.
       rewrite toks_fresh by (by apply eq_None_not_Some). split; [done|apply moves_refl]. }
  rewrite HM, HL. cbv zeta. destruct (mkdir_meta h k L) as [M1 M2].
  destruct (no_meta_moves E h k (mkdir k L)) as [-> ->]; [congruence..|].
  rewrite M1, M2, Hmc, Hmg. cbn [unread_sidecar andb bool_decide].
  pose proof (mkdir_same k L) as HS.
  assert (toks (mkdir k L) (Held h) = toks L (Held h)) as Ht by apply HS.
  assert (Held h ≠ Held k) as Hne' by congruence.
  rewrite move_loop_landed_none; [|done|apply NoDup_listing|].
  2: { intros n. rewrite elem_of_listing, Ht. destruct HS as [-> _]. intros H1 H2.
       by apply Hne', (Hc n). }
  destruct (move_loop _ _ _ _ _ _ _) as [[m' f] L1] eqn:Hm. intros [= <- <- <-].
  assert (f = false) as ->.
  { eapply (move_loop_no_fail E (Held h) (Held k)); [done|apply NoDup_listing| | |exact Hm]; [|done].
    intros n; apply elem_of_listing. }
  pose proof (move_loop_moves E (Held h) (Held k) _ _ _ _ _ _ _ Hne' Hm (NoDup_listing _)) as [Hmv _].
  rewrite (move_loop_all E (Held h) (Held k) _ _ _ _ _ Hne' (NoDup_listing _)
             ltac:(intros n; apply elem_of_listing) Hm eq_refl) in Hmv |- *.
  rewrite length_listing, Ht. split; [done|].
  replace (list_to_set (listing (toks (mkdir k L) (Held h)))) with (toks L (Held h)) in Hmv
    by (apply set_eq; intros; by rewrite elem_of_list_to_set, elem_of_listing, Ht).
  eapply moves_same_l; [done|]. eapply moves_same_r; [done|apply rmdir_same].
Qed.

(** An undisturbed transfer moves everything. *)
Lemma transfer_all E a b L L' r :
  (∀ p q n, io_rename E p q n = None) → live_custody L → a ≠ "" → b ≠ "" → a ≠ b →
  is_private_holder a = false → is_private_holder b = false →
  transfer E a b L = (L', r) → moves (Held a) (Held b) (toks L (Held a)) L L'.
Proof.
  intros HE Hc Ha Hb Hne Hpa Hpb. unfold transfer.
  rewrite !bool_decide_eq_false_2, Hpa, Hpb by done. cbn [orb].
  destruct (is_dir a L) eqn:Hd; cbn [negb].
  2: { intros [= <- _]. unfold is_dir in Hd. apply bool_decide_eq_false in Hd.
       rewrite toks_fresh by (by apply eq_None_not_Some). apply moves_refl. }
  destruct (move_cpu_meta E a b (mkdir b L)) as [bc L1] eqn:H1.
  destruct (move_gpu_meta E a b L1) as [bg L2] eqn:H2.
  apply move_cpu_meta_same in H1. apply move_gpu_meta_same in H2.
  assert (same_toks L L2) as HS by (etrans; [apply mkdir_same|by etrans]).
  assert (toks L2 (Held a) = toks L (Held a)) as Ht by apply HS.
  assert (Held a ≠ Held b) as Hne' by congruence.
  rewrite move_loop_landed_none; [|done|apply NoDup_listing|].
  2: { intros n. rewrite elem_of_listing, Ht. destruct HS as [-> _]. intros K1 K2.
       by apply Hne', (Hc n). }
  destruct (move_loop _ _ _ _ _ _ _) as [[m' f] L3] eqn:Hm. intros [= <- _].
  assert (f = false) as ->.
  { eapply (move_loop_no_fail E (Held a) (Held b)); [done|apply NoDup_listing| | |exact Hm]; [|done].
    intros n; apply elem_of_listing. }
  pose proof (move_loop_moves E (Held a) (Held b) _ _ _ _ _ _ _ Hne' Hm (NoDup_listing _)) as [Hmv _].
  rewrite (move_loop_all E (Held a) (Held b) _ _ _ _ _ Hne' (NoDup_listing _)
             ltac:(intros n; apply elem_of_listing) Hm eq_refl) in Hmv.
  replace (list_to_set (listing (toks L2 (Held a)))) with (toks L (Held a)) in Hmv
    by (apply set_eq; intros; by rewrite elem_of_list_to_set, elem_of_listing, Ht).
  eapply moves_same_l; [done|]. eapply moves_same_r; [done|apply rmdir_same].
Qed.

(** ** Sidecars during a take *)

Definition same_meta (L L' : Ledger) : Prop :=
  ∀ h, cpu_meta h L' = cpu_meta h L ∧ gpu_meta h L' = gpu_meta h L.

#[export] Instance same_meta_preorder : PreOrder same_meta.
Proof.
  split; [by intros L h|]. intros L1 L2 L3 H1 H2 h.
  destruct (H1 h), (H2 h). split; congruence.
Qed.

Lemma put_same_meta p X L : same_meta L (put p X L).
Proof.
  intros h. destruct p as [|h'|]; [done| |done].
  unfold put, cpu_meta, gpu_meta; simpl. rewrite lookup_insert. case_decide; subst; [|done].
  by destruct (l_held L !! h).
Qed.

Lemma rename_same_meta E p q n L e L' : rename E p q n L = (e, L') → same_meta L L'.
Proof.
  unfold rename. case_match; [by intros [= _ <-]|]. case_bool_decide; intros [= _ <-]; [|done].
  etrans; apply put_same_meta.
Qed.

Lemma take_loop_same_meta E h need ns L t r L' :
  take_loop E h need ns L = (t, r, L') → same_meta L L'.
Proof.
  revert need L t. induction ns as [|n ns IH]; intros need L t; simpl; [by intros [= _ _ <-]|].
  case_bool_decide; [by intros [= _ _ <-]|].
  destruct (rename E Free (Held h) n L) as [[[]|] L1] eqn:Hr; apply rename_same_meta in Hr.
  - intros Ht. etrans; [done|by eapply IH].
  - by intros [= _ _ <-].
  - destruct (take_loop E h (need - 1) ns L1) as [[t' r'] L2] eqn:Ht. intros [= _ <- <-].
    etrans; [done|by eapply IH].
Qed.

Lemma take_kinds_same_meta E h ad ti g ws L a L' :
  take_kinds E h ad ti g ws L = (a, L') → same_meta L L'.
Proof.
  revert L. induction ws as [|[kind v] ws IH]; intros L; simpl; [by intros [= _ <-]|].
  destruct (if bool_decide (kind = "cpu") then _ else _) as [ns|e]; [|by intros [= _ <-]].
  destruct (take_loop E h _ _ L) as [[t r] L1] eqn:Ht. apply take_loop_same_meta in Ht.
  destruct r; [|by intros [= _ <-]].
  case_if; [by intros [= _ <-]|]. intros H'. etrans; [done|by apply IH].
Qed.

#[global] Arguments toks : simpl never.

(** ** The abstract counter *)

(** What a ledger promises its clients: how many units of each kind are
    free, and how many each holder has. *)
Record Counter := mkCounter {
  n_free : string → nat;
  n_held : string → string → nat }.

Definition counter_of (L : Ledger) : Counter :=
  mkCounter (λ k, count_of k (l_free L)) (λ h k, count_of k (toks L (Held h))).

(** Equal counts. *)
#[export] Instance counter_equiv : Equiv Counter := λ A B,
  (∀ k, n_free A k = n_free B k) ∧ (∀ h k, n_held A h k = n_held B h k).

#[export] Instance counter_equivalence : Equivalence (≡@{Counter}).
Proof.
  split.
  - by intros A.
  - intros A B [H1 H2]. split; intros; by rewrite ?H1, ?H2.
  - intros A B C [H1 H2] [K1 K2]. split; intros; by rewrite ?H1, ?H2, ?K1, ?K2.
Qed.

(** All or nothing: the whole demand moves from free to the key, or nothing
    does. *)
Inductive counter_acquire (key : string) (d : string → nat) (A : Counter) : bool → Counter → Prop :=
  | counter_takes B :
      (∀ k, d k ≤ n_free A k) →
      (∀ k, n_free B k = n_free A k - d k) →
      (∀ h k, n_held B h k = n_held A h k + (if bool_decide (h = key) then d k else 0)) →
      counter_acquire key d A true B
  | counter_refuses B :
      ¬ (∀ k, d k ≤ n_free A k) → B ≡ A → counter_acquire key d A false B.

(** Everything the key holds returns to free. *)
Definition counter_release (key : string) (A : Counter) : Counter :=
  mkCounter (λ k, n_free A k + n_held A key k)
            (λ h k, if bool_decide (h = key) then 0 else n_held A h k).

(** Everything [a] holds changes owner; nothing is ever free. *)
Definition counter_transfer (a b : string) (A : Counter) : Counter :=
  mkCounter (n_free A)
            (λ h k, if bool_decide (h = a) then 0
                    else if bool_decide (h = b) then n_held A b k + n_held A a k
                    else n_held A h k).

Lemma same_toks_counter L L' : same_toks L L' → counter_of L' ≡ counter_of L.
Proof.
  intros [H _]. split; simpl; intros.
  - by rewrite (H Free : l_free L' = l_free L).
  - unfold count_of. by rewrite (H (Held h) : toks L' (Held h) = toks L (Held h)).
Qed.

Lemma custody_disjoint L p q :
  live_custody L → p ≠ Dead → q ≠ Dead → p ≠ q → toks L p ## toks L q.
Proof. intros Hc Hp Hq Hne n H1 H2. by apply Hne, (Hc n). Qed.

Lemma counter_moves_release h L L' :
  live_custody L → moves (Held h) Free (toks L (Held h)) L L' →
  counter_of L' ≡ counter_release h (counter_of L).
Proof.
  intros Hc (H1 & H2 & H3 & H4 & _). split; intros; simpl.
  - change (count_of k (toks L' Free) = count_of k (toks L Free) + count_of k (toks L (Held h))).
    rewrite H3. apply count_union_disjoint. by apply custody_disjoint.
  - case_bool_decide; subst.
    + change (count_of k (toks L' (Held h)) = 0). rewrite H2, count_difference by done. lia.
    + f_equal. apply H4; congruence.
Qed.

Lemma counter_moves_transfer a b L L' :
  a ≠ b → live_custody L → moves (Held a) (Held b) (toks L (Held a)) L L' →
  counter_of L' ≡ counter_transfer a b (counter_of L).
Proof.
  intros Hab Hc (H1 & H2 & H3 & H4 & _). split; intros; simpl.
  - f_equal. apply (H4 Free); done.
  - case_bool_decide as Ha; [subst|case_bool_decide as Hb; [subst|]].
    + change (count_of k (toks L' (Held a)) = 0). rewrite H2, count_difference by done. lia.
    + change (count_of k (toks L' (Held b)) = count_of k (toks L (Held b)) + count_of k (toks L (Held a))).
      rewrite H3. apply count_union_disjoint. apply custody_disjoint; try done. congruence.
    + f_equal. apply H4; congruence.
Qed.

(** A file system that refuses no rename. *)
Definition renames (E : IO) : Prop := ∀ p q n, io_rename E p q n = None.

Definition demand_of (d : gmap string Z) (k : string) : nat := Z.to_nat (default 0%Z (d !! k)).

Lemma fits_iff d L :
  Forall (λ kv, Z.to_nat kv.2 ≤ count_of kv.1 (l_free L)) (sorted_items (wanted_of d))
  ↔ ∀ k, demand_of d k ≤ count_of k (l_free L).
Proof.
  rewrite Forall_forall. split.
  - intros H k. unfold demand_of. destruct (d !! k) as [v|] eqn:Hk; simpl; [|lia].
    destruct (decide (0 < v)%Z); [|lia]. apply (H (k, v)). apply elem_of_sorted_items.
    rewrite wanted_lookup, Hk. simpl. by rewrite bool_decide_eq_true_2.
  - intros H [k v] Hin. apply elem_of_sorted_items in Hin. rewrite wanted_lookup in Hin.
    specialize (H k). unfold demand_of in H. simpl. destruct (d !! k); simpl in *; [|done].
    case_bool_decide; naive_solver.
Qed.

Lemma handle_ne_key c k : is_private_holder k = false → handle_for c k ≠ k.
Proof. intros Hk Heq. pose proof (private_handle (cl_usec c) k (cl_host c) (cl_pid c) (cl_nonce c)) as Hp.
  unfold handle_for in Heq. congruence. Qed.

Section acquire_exact.
Context (E : IO) (c : Claimant) (k : string) (d : gmap string Z) (L : Ledger).
Context (HE : renames E) (Hfresh : l_held L !! handle_for c k = None)
          (Hkey : is_private_holder k = false)
          (Hc : live_custody L) (Hpl : plain (l_free L)).

Let h := handle_for c k.

(** The take of a plain demand ends as the counts say, and holds exactly the
    demand. *)
Lemma attempt_exact a L1 :
  acquire_attempt E h (wanted_of d) None None None (mkdir h (set_shortage None L)) = (a, L1) →
  (a = Done ∧ (∀ kind, demand_of d kind ≤ count_of kind (l_free L)) ∧ same_meta L L1
   ∧ ∃ X, moves Free (Held h) X L L1 ∧ (∀ kind, count_of kind X = demand_of d kind)
          ∧ size X = asked_total (sorted_items (wanted_of d)))
  ∨ (a = Insufficient ∧ ¬ (∀ kind, demand_of d kind ≤ count_of kind (l_free L))).
Proof using All.
  unfold acquire_attempt.
  destruct (take_kinds E h None None None _ _) as [a1 L2] eqn:Ht.
  pose proof (take_kinds_same_meta _ _ _ _ _ _ _ _ _ Ht) as Hmeta.
  assert (same_toks L (mkdir h (set_shortage None L))) as HS
    by (etrans; [apply set_shortage_same|apply mkdir_same]).
  pose proof (proj1 HS Free : l_free _ = l_free _) as Hfr.
  destruct (take_kinds_complete _ _ _ _ _ _ ltac:(intros; apply HE) Ht) as [Hiff Hor];
    [apply sorted_items_NoDup|apply all_pos_wanted|by rewrite Hfr|].
  rewrite Hfr, fits_iff in Hiff.
  intros Heq. destruct Hor as [-> | ->]; simplify_eq/=; [left|right; naive_solver].
  destruct (take_kinds_done _ _ _ _ _ Ht) as (X & HX & Hcnt & Hsz);
    [apply sorted_items_NoDup|apply all_pos_wanted|by rewrite Hfr|].
  split_and!; [done|naive_solver| |].
  - etrans; [|exact Hmeta]. intros h'. apply (mkdir_meta h' h (set_shortage None L)).
  - exists X. split_and!; [by eapply moves_same_l| |done].
    intros kind. by rewrite Hcnt, asked_sorted.
Qed.

(** Nothing asked: nothing is taken and the demand fits. *)
Lemma empty_demand : wanted_of d = ∅ → ∀ kind, demand_of d kind = 0.
Proof using All.
  intros Hw kind. unfold demand_of. rewrite <- asked_sorted, Hw. done.
Qed.

(** The two endings of [begin_acquire] on a plain demand. *)
Lemma begin_exact L1 r :
  begin_acquire E true No_gate c k d None None None L = (L1, r) →
  io_unlink_meta E h = false →
  (r = Ok (Some h) ∧ (∀ kind, demand_of d kind ≤ count_of kind (l_free L)) ∧ same_meta L L1
   ∧ ∃ X, moves Free (Held h) X L L1 ∧ (∀ kind, count_of kind X = demand_of d kind)
          ∧ size X = asked_total (sorted_items (wanted_of d)))
  ∨ (r = Ok None ∧ ¬ (∀ kind, demand_of d kind ≤ count_of kind (l_free L)) ∧ same_toks L L1).
Proof using All.
  intros Hb Hu. pose proof (begin_locked_refused _ _ _ _ _ _ _ _ _ _ _ Hfresh
    ltac:(intros; apply HE) Hb) as Hno.
  simpl in Hb. unfold _begin_acquire_locked in Hb. cbn [negb] in Hb.
  rewrite andb_true_r in Hb. fold h in Hb. case_bool_decide as Hw.
  { simplify_eq. left. pose proof (empty_demand Hw) as He.
    split_and!; [done|intros; rewrite He; lia|done|]. exists ∅. split_and!.
    - eapply moves_same_r; [apply moves_refl|apply set_shortage_same].
    - intros kind. by rewrite He.
    - by rewrite Hw. }
  destruct (acquire_attempt _ _ _ _ _ _ _) as [a L2] eqn:Ha.
  destruct (attempt_exact _ _ Ha) as [(-> & Hfit & Hme & HX)|[-> Hnf]]; [left; by simplify_eq|].
  right.
  destruct (_empty_into_free E h L2) as [L3 r3] eqn:He.
  assert (∃ n, r3 = Ok n) as [n ->].
  { by eapply empty_into_free_ok. }
  simplify_eq. split_and!; [done|done|]. by apply Hno.
Qed.

(** [acquire] implements the counter: it answers [True] exactly when every
    kind has its demand free, and then moves exactly that. *)
Lemma acquire_exact cf L' r :
  io_unlink_meta E h = false → committable E k h → acquire cf E true No_gate c k d L = (L', r) →
  ∃ b, r = Ok b ∧ counter_acquire k (demand_of d) (counter_of L) b (counter_of L').
Proof using All.
  intros Hu Hcb. unfold acquire. rewrite andb_false_r.
  destruct (begin_acquire E true No_gate c k d None None None L) as [L1 r1] eqn:Hb.
  destruct (begin_exact _ _ Hb Hu) as [(-> & Hfit & Hme & X & HX & Hcnt & Hsz)|(-> & Hnf & HS)].
  2: { intros [= <- <-]. exists false. split; [done|]. apply counter_refuses; [done|].
       by apply same_toks_counter. }
  pose proof (toks_fresh _ _ Hfresh) as Hh0. fold h in Hh0.
  pose proof HX as (HXs & HXf & HXh & HXo & _). rewrite Hh0, union_empty_l_L in HXh.
  assert (live_custody L1) as Hc1.
  { eapply mv_live_custody; [|exact Hc]. by apply (mv_one _ Free (Held h) X). }
  assert (h ≠ k) as Hne by (by apply handle_ne_key).
  destruct (commit_acquire E k h L1) as [[L2 ns] mo] eqn:Hcm.
  assert (cpu_meta h L1 = None ∧ gpu_meta h L1 = None) as [Mc Mg].
  { destruct (Hme h) as [-> ->]. unfold cpu_meta, gpu_meta. fold h in Hfresh. by rewrite Hfresh. }
  destruct (commit_all _ _ _ _ _ _ _ Hne Hc1 Mc Mg ltac:(intros; apply HE) Hcb Hcm) as [-> HY].
  rewrite HXh, Hsz. rewrite bool_decide_eq_false_2 by (unfold asked_total; lia).
  intros [= <- <-]. exists true. split; [done|].
  rewrite HXh in HY. destruct HY as (_ & HYh & HYk & HYo & _).
  apply counter_takes; simpl; [done|..].
  - intros kind. change (count_of kind (toks L2 Free) = count_of kind (toks L Free) - demand_of d kind).
    rewrite HYo, HXf, count_difference, Hcnt by done. done.
  - intros h' kind. case_bool_decide as Hk; [subst h'|].
    + rewrite HYk, (HXo (Held k)) by congruence.
      rewrite count_union_disjoint, Hcnt; [done|].
      assert (X ⊆ toks L Free) as HXs' by done.
      pose proof (custody_disjoint L (Held k) Free Hc ltac:(done) ltac:(done) ltac:(done)). set_solver.
    + destruct (decide (h' = h)) as [->|Hh].
      * rewrite HYh, HXh, Hh0. rewrite count_difference by done. change (count_of kind ∅) with 0. lia.
      * rewrite HYo, HXo by congruence. lia.
Qed.
End acquire_exact.
