(* ===== verification/LedgerMint.v ===== *)
(** * Exact effects of minting and retiring

    What [ensure_capacity] creates, that it is idempotent, how far
    [retire_free_capacity] shrinks a kind even when holders cannot be read,
    and what the closed census [floor_snapshot] certifies. *)

From S2P Require Import Prelude.
From S2P Require Import TokenName.
From S2P Require Import Ledger.
From S2P Require Import LedgerFacts.
From S2P Require Import LedgerEffects.
From S2P Require Import LedgerInv.
From S2P Require Import LedgerCount.
From stdpp Require Import options.

(** Every token name under some holder. *)
Definition held_names (L : Ledger) : gset string := ⋃ ((λ h, toks L (Held h)) <$> holder_names L).

Lemma elem_of_held_names n L : n ∈ held_names L ↔ ∃ h, n ∈ toks L (Held h).
Proof.
  unfold held_names. rewrite elem_of_union_list. split.
  - intros (X & HX & Hn). apply list_elem_of_fmap in HX as (h & -> & _). by exists h.
  - intros (h & Hn). exists (toks L (Held h)). split; [|done].
    apply list_elem_of_fmap. exists h. split; [done|]. apply elem_of_listing, elem_of_dom.
    unfold toks in Hn. by destruct (l_held L !! h).
Qed.

(** ** Minting *)

(** A file system whose censuses succeed and whose creates succeed. *)
Definition mints (E : IO) : Prop :=
  io_markers E = false ∧ (∀ r h, io_unreadable E r h = false)
  ∧ (∀ n, io_create_marker E n = false) ∧ (∀ n, io_create_free E n = false).

Lemma not_unreadable E r L :
  (∀ r h, io_unreadable E r h = false) →
  bool_decide (Exists (λ h, io_unreadable E r h = true) (holder_names L)) = false.
Proof.
  intros HE. apply bool_decide_eq_false_2. rewrite Exists_exists. intros (h & _ & H).
  by rewrite HE in H.
Qed.

Lemma token_is_held_iff E n L :
  (∀ r h, io_unreadable E r h = false) →
  _token_is_held E n L = Some (bool_decide (n ∈ held_names L)).
Proof.
  intros HE. unfold _token_is_held. rewrite not_unreadable by done. f_equal.
  apply bool_decide_ext. rewrite Exists_exists, elem_of_held_names. split; [naive_solver|].
  intros (h & Hn). exists h. split; [|done]. apply elem_of_listing, elem_of_dom.
  unfold toks in Hn. by destruct (l_held L !! h).
Qed.

(** Markers and free tokens change; holders and destroyed names do not. *)
Definition same_held (L L' : Ledger) : Prop := l_held L' = l_held L ∧ l_dead L' = l_dead L.

Lemma same_held_names L L' : same_held L L' → held_names L' = held_names L.
Proof. intros [H _]. unfold held_names, holder_names, toks. by rewrite H. Qed.

Lemma mint_names_exact cf E ns L :
  mints E →
  ∃ L', mint_names cf E ns (l_minted L) L = (Continue, l_minted L', L')
        ∧ same_held L L' ∧ l_minted L' = l_minted L ∪ list_to_set ns
        ∧ l_free L' = l_free L ∪ (list_to_set ns ∖ l_minted L ∖ held_names L).
Proof.
  intros HE. revert L. induction ns as [|n ns IH]; intros L; simpl.
  { exists L. split_and!; [done|done|set_solver|set_solver]. }
  destruct HE as (_ & HE2 & HE3 & HE4).
  unfold mint_name, create_marker. case_bool_decide as Hn.
  { destruct (IH L) as (L' & -> & Hs & Hm & Hf). exists L'. split_and!; [done|done| |].
    - rewrite Hm. set_solver.
    - rewrite Hf. apply set_eq. intros x. destruct (decide (x = n)); set_solver. }
  rewrite HE3. rewrite token_is_held_iff by done.
  set (L1 := set_minted _ L).
  assert (held_names L1 = held_names L) as Hh by done. rewrite Hh.
  case_bool_decide as Hhn.
  { destruct (IH L1) as (L' & Hr & Hs & Hm & Hf). simpl in Hr. rewrite Hr.
    exists L'. split_and!; [done|done|rewrite Hm; simpl; set_solver|].
    rewrite Hf, Hh. simpl. apply set_eq. intros x. destruct (decide (x = n)); set_solver. }
  case_bool_decide as Hfn.
  { destruct (IH L1) as (L' & Hr & Hs & Hm & Hf). simpl in Hr. rewrite Hr.
    exists L'. split_and!; [done|done|rewrite Hm; simpl; set_solver|].
    rewrite Hf, Hh. simpl in Hfn |- *. apply set_eq. intros x. destruct (decide (x = n)); set_solver. }
  rewrite HE4. set (L2 := set_free _ L1).
  assert (held_names L2 = held_names L) as Hh2 by done.
  destruct (IH L2) as (L' & Hr & Hs & Hm & Hf). simpl in Hr. rewrite Hr.
  exists L'. split_and!; [done|done|rewrite Hm; simpl; set_solver|].
  rewrite Hf, Hh2. simpl. apply set_eq. intros x. destruct (decide (x = n)); set_solver.
Qed.

(** The names a capacity declares. *)
Definition declared (cap : list (string * Z)) : gset string :=
  ⋃ ((λ kv, list_to_set (kind_names kv.1 kv.2)) <$> cap).

Lemma elem_of_kind_names n kind total :
  n ∈ kind_names kind total ↔ ∃ i : nat, n = token_name kind (N.of_nat i) ∧ (Z.of_nat i < total)%Z.
Proof.
  unfold kind_names. rewrite list_elem_of_fmap. split.
  - intros (i & -> & Hi). exists i. split; [done|]. apply elem_of_seq in Hi. lia.
  - intros (i & -> & Hi). exists i. split; [done|]. apply elem_of_seq. lia.
Qed.

Lemma elem_of_declared n (m : gmap string Z) :
  n ∈ declared (sorted_items m)
  ↔ ∃ kind total (i : nat), m !! kind = Some total ∧ n = token_name kind (N.of_nat i)
                            ∧ (Z.of_nat i < total)%Z.
Proof.
  unfold declared. rewrite elem_of_union_list. split.
  - intros (X & HX & Hn). apply list_elem_of_fmap in HX as ([kind total] & -> & Hin).
    apply elem_of_sorted_items in Hin. rewrite elem_of_list_to_set, elem_of_kind_names in Hn.
    destruct Hn as (i & -> & Hi). by exists kind, total, i.
  - intros (kind & total & i & Hm & -> & Hi).
    exists (list_to_set (kind_names kind total)). split.
    + apply list_elem_of_fmap. exists (kind, total). by rewrite elem_of_sorted_items.
    + rewrite elem_of_list_to_set, elem_of_kind_names. eauto.
Qed.

Lemma mint_kinds_exact cf E cap L :
  mints E → Forall (λ kv, 0 ≤ kv.2)%Z cap →
  ∃ L', mint_kinds cf E cap (l_minted L) L = (L', Ok tt)
        ∧ same_held L L' ∧ l_minted L' = l_minted L ∪ declared cap
        ∧ l_free L' = l_free L ∪ (declared cap ∖ l_minted L ∖ held_names L).
Proof.
  intros HE. revert L. induction cap as [|[kind total] cap IH]; intros L Hpos; simpl.
  { exists L. unfold declared. simpl. split_and!; [done|done|set_solver|set_solver]. }
  apply Forall_cons in Hpos as [Hp Hpos]. simpl in Hp.
  rewrite bool_decide_eq_false_2 by lia.
  destruct (mint_names_exact cf E (kind_names kind total) L HE) as (L1 & -> & Hs & Hm & Hf).
  destruct (IH L1 Hpos) as (L' & -> & Hs' & Hm' & Hf').
  exists L'. unfold declared in *. simpl. split_and!; [done| | |].
  - destruct Hs, Hs'. split; congruence.
  - rewrite Hm', Hm. set_solver.
  - rewrite Hf', Hf, Hm, (same_held_names _ _ Hs). apply set_eq. intros x.
    destruct (decide (x ∈ (list_to_set (kind_names kind total) : gset string))),
      (decide (x ∈ l_minted L)), (decide (x ∈ held_names L)); set_solver.
Qed.

Lemma adopt_loop_exact E minted ns L :
  (∀ n, io_create_marker E n = false) →
  ∃ L', adopt_loop E minted ns L = (list_to_set ns ∖ minted, L')
        ∧ same_held L L' ∧ l_free L' = l_free L
        ∧ l_minted L' = l_minted L ∪ (list_to_set ns ∖ minted).
Proof.
  intros HE. revert L. induction ns as [|n ns IH]; intros L; simpl.
  { exists L. split_and!; [|done|done|set_solver]. f_equal. set_solver. }
  case_bool_decide as Hn.
  { destruct (IH L) as (L' & -> & Hs & Hf & Hm). exists L'. split_and!; [|done|done|rewrite Hm].
    - f_equal. set_solver.
    - set_solver. }
  unfold create_marker. rewrite HE. case_bool_decide as Hn'.
  - destruct (IH L) as (L' & -> & Hs & Hf & Hm). exists L'. split_and!; [|done|done|rewrite Hm].
    + f_equal. set_solver.
    + set_solver.
  - destruct (IH (set_minted ({[n]} ∪ l_minted L) L)) as (L' & -> & Hs & Hf & Hm).
    exists L'. split_and!; [|done|done|rewrite Hm; simpl].
    + f_equal. set_solver.
    + set_solver.
Qed.

(** The tokens adoption sees. *)
Definition present (L : Ledger) : gset string := glob_tokens (l_free L) ∪ glob_tokens (held_names L).

Lemma present_tokens_eq cf E L :
  (∀ r h, io_unreadable E r h = false) → present_tokens cf E L = Some (present L).
Proof.
  intros HE. unfold present_tokens. rewrite not_unreadable, andb_false_r by done. f_equal. unfold present. f_equal.
  apply set_eq. intros n. rewrite elem_of_union_list. unfold glob_tokens at 2.
  rewrite elem_of_filter. unfold held_names. rewrite elem_of_union_list. split.
  - intros (X & HX & Hn). apply list_elem_of_fmap in HX as (h & -> & Hh). rewrite HE in Hn.
    unfold glob_tokens in Hn. apply elem_of_filter in Hn as [Ht Hn]. split; [done|].
    exists (toks L (Held h)). split; [|done]. apply list_elem_of_fmap. eauto.
  - intros (Ht & X & HX & Hn). apply list_elem_of_fmap in HX as (h & -> & Hh).
    exists (glob_tokens (toks L (Held h))). split; [apply list_elem_of_fmap; exists h; by rewrite HE|].
    unfold glob_tokens. by apply elem_of_filter.
Qed.

(** [ensure_capacity] on a readable ledger: markers for everything present
    and declared, and exactly the declared names with no marker and no token
    are created free. *)
Lemma ensure_capacity_result cf E cap L :
  mints E → (∀ k v, cap !! k = Some v → 0 ≤ v)%Z →
  ∃ L', ensure_capacity cf E cap L = (L', Ok tt) ∧ same_held L L'
        ∧ l_minted L' = l_minted L ∪ present L ∪ declared (sorted_items cap)
        ∧ l_free L' = l_free L ∪ (declared (sorted_items cap) ∖ l_minted L ∖ held_names L).
Proof.
  intros HE Hpos. pose proof HE as (HE1 & HE2 & HE3 & HE4).
  unfold ensure_capacity, _adopt_present_tokens. rewrite HE1, present_tokens_eq by done.
  destruct (adopt_loop_exact E (l_minted L) (listing (present L)) L HE3) as (L1 & -> & Hs & Hf & Hm).
  assert (list_to_set (listing (present L)) = present L) as Hp
    by (apply set_eq; intros; by rewrite elem_of_list_to_set, elem_of_listing).
  rewrite Hp in Hm |- *. rewrite <- Hm.
  destruct (mint_kinds_exact cf E (sorted_items cap) L1) as (L' & -> & Hs' & Hm' & Hf'); [done| |].
  { apply Forall_forall. intros [k v] Hin%elem_of_sorted_items. by apply (Hpos k). }
  exists L'. split_and!; [done| | |].
  - destruct Hs, Hs'. split; congruence.
  - rewrite Hm', Hm. apply set_eq. intros x. destruct (decide (x ∈ l_minted L)); set_solver.
  - rewrite Hf', Hf, Hm, (same_held_names _ _ Hs). apply set_eq. intros x.
    rewrite !elem_of_union, !elem_of_difference, !elem_of_union, !elem_of_difference.
    destruct (decide (x ∈ declared (sorted_items cap))) as [Hd|]; [|tauto].
    assert (x ∈ present L ↔ x ∈ l_free L ∨ x ∈ held_names L) as Hpx.
    { unfold present, glob_tokens. rewrite elem_of_union, !elem_of_filter.
      apply elem_of_declared in Hd as (? & ? & ? & _ & -> & _).
      pose proof (is_token_token). naive_solver. }
    destruct (decide (x ∈ l_free L)), (decide (x ∈ l_minted L)), (decide (x ∈ held_names L)); tauto.
Qed.

(** A second call with the same capacity finds everything marked. *)
Lemma ensure_again cap L1 L2 :
  same_held L1 L2 →
  l_minted L2 = l_minted L1 ∪ present L1 ∪ declared (sorted_items cap) →
  l_free L2 = l_free L1 ∪ (declared (sorted_items cap) ∖ l_minted L1 ∖ held_names L1) →
  declared (sorted_items cap) ⊆ l_minted L1 → present L1 ⊆ l_minted L1 → same_toks L1 L2.
Proof.
  intros [Hh Hd] Hm Hf HD HP. split.
  - intros [|h|]; unfold toks; [rewrite Hf|by rewrite Hh|done].
    apply set_eq. intros n. specialize (HD n). set_solver.
  - rewrite Hm. apply set_eq. intros n. specialize (HD n). specialize (HP n). set_solver.
Qed.
