(* ===== verification/LedgerRetire.v ===== *)
(** * How far a retirement shrinks a ledger

    [retire_free_capacity] against the truth, including a census that could
    not read every holder, and the closed census [floor_snapshot]. *)

From S2P Require Import Prelude.
From S2P Require Import TokenName.
From S2P Require Import Ledger.
From S2P Require Import LedgerFacts.
From S2P Require Import LedgerEffects.
From S2P Require Import LedgerInv.
From S2P Require Import LedgerCount.
From S2P Require Import LedgerMint.
From stdpp Require Import options.

(** ** The held census *)

Lemma held_census_fold E L hs :
  foldr (λ h acc, if io_unreadable E RCensus h then (fst acc, h :: snd acc)
                  else (listing (glob_tokens (toks L (Held h))) ++ fst acc, snd acc))
    ([], []) hs
  = (concat ((λ h, listing (glob_tokens (toks L (Held h))))
               <$> filter (λ h, io_unreadable E RCensus h = false) hs),
     filter (λ h, io_unreadable E RCensus h = true) hs).
Proof.
  induction hs as [|h hs IH]; [done|]. cbn [foldr]. rewrite IH. cbn [fst snd].
  rewrite !filter_cons. destruct (io_unreadable E RCensus h) eqn:Hu.
  - by rewrite decide_False, decide_True by congruence.
  - rewrite decide_True, decide_False by congruence. done.
Qed.

Lemma held_census_readable E L hp :
  _held_census E L = (hp, []) → ∀ n, n ∈ hp ↔ is_token n = true ∧ n ∈ held_names L.
Proof.
  unfold _held_census. rewrite held_census_fold. intros [= <- Hun] n.
  rewrite list_elem_of_In, in_concat. setoid_rewrite <- list_elem_of_In.
  rewrite elem_of_held_names. split.
  - intros (l & Hl & Hn). apply list_elem_of_fmap in Hl as (h & -> & _).
    rewrite elem_of_listing in Hn. unfold glob_tokens in Hn. apply elem_of_filter in Hn. naive_solver.
  - intros (Ht & h & Hn). exists (listing (glob_tokens (toks L (Held h)))). split.
    + apply list_elem_of_fmap. exists h. split; [done|]. apply list_elem_of_filter.
      assert (h ∈ holder_names L) as Hh.
      { apply elem_of_listing, elem_of_dom. unfold toks in Hn. by destruct (l_held L !! h). }
      split; [|done]. destruct (io_unreadable E RCensus h) eqn:Hu; [|done].
      assert (h ∈ filter (λ h, io_unreadable E RCensus h = true) (holder_names L)) as Hx
        by (by apply list_elem_of_filter).
      rewrite Hun in Hx. by apply elem_of_nil in Hx.
    + rewrite elem_of_listing. unfold glob_tokens. by apply elem_of_filter.
Qed.

(** Listings of holders with disjoint tokens do not repeat a name. *)
Lemma held_listings_NoDup (P : string → Prop) `{∀ h, Decision (P h)} L :
  custody L →
  NoDup (concat ((λ h, listing (glob_tokens (toks L (Held h)))) <$> filter P (holder_names L))).
Proof.
  intros Hc. assert (NoDup (filter P (holder_names L))) as Hnd by apply NoDup_filter, NoDup_listing.
  induction (filter P (holder_names L)) as [|h hs IH]; [by constructor|].
  apply NoDup_cons in Hnd as [Hh Hnd]. simpl. apply NoDup_app. split_and!; [apply NoDup_listing| |auto].
  intros n Hn1 Hn2. rewrite elem_of_listing in Hn1. unfold glob_tokens in Hn1.
  apply elem_of_filter in Hn1 as [_ Hn1].
  rewrite list_elem_of_In, in_concat in Hn2. destruct Hn2 as (l & Hl & Hn2).
  apply list_elem_of_In in Hl, Hn2. apply list_elem_of_fmap in Hl as (h' & -> & Hh').
  rewrite elem_of_listing in Hn2. unfold glob_tokens in Hn2. apply elem_of_filter in Hn2 as [_ Hn2].
  pose proof (Hc n (Held h) (Held h') Hn1 Hn2) as [= ->]. done.
Qed.

Lemma size_list_to_set_le (l : list string) : size (list_to_set l : gset string) ≤ length l.
Proof.
  induction l as [|x l IH]; [by rewrite list_to_set_nil, size_empty|].
  rewrite list_to_set_cons, size_union_alt, size_singleton.
  pose proof (subseteq_size (list_to_set l ∖ {[x]} : gset string) (list_to_set l)
                ltac:(set_solver)). simpl. lia.
Qed.

(** The excess is computed from at least the true number of held tokens. *)
Lemma retire_excess_sound E L hp un kind t mi :
  custody L → marked L → _held_census E L = (hp, un) →
  mi = (if bool_decide (un = []) then None else _minted_and_dead_names E L) →
  (count_of kind (l_free L) + count_of kind (held_names L)) - t
    ≤ retire_excess mi hp un kind t L
  ∨ retire_excess mi hp un kind t L = count_of kind (l_free L).
Proof.
  intros Hc HM Hcen ->. unfold retire_excess. case_bool_decide as Hun.
  - left. subst un. pose proof (held_census_readable _ _ _ Hcen) as Hr.
    enough (count_of kind (held_names L) ≤ length (filter (λ n, of_kind kind n = true) hp)).
    { unfold count_of in *. lia. }
    etrans; [|apply size_list_to_set_le]. apply subseteq_size. intros n. unfold glob_kind.
    rewrite elem_of_filter, elem_of_list_to_set, list_elem_of_filter, Hr. intros [Hk Hn].
    split_and!; [done|by eapply of_kind_is_token|done].
  - unfold _minted_and_dead_names. destruct (io_markers E); [by right|left].
    set (hn := glob_kind kind (l_minted L) ∖ glob_kind kind (l_free L) ∖ l_dead L ∪ _).
    enough (count_of kind (held_names L) ≤ size hn) by (unfold count_of in *; lia).
    apply subseteq_size. intros n. unfold glob_kind. rewrite elem_of_filter. intros [Hk Hn].
    pose proof (of_kind_is_token _ _ Hk) as Ht.
    apply elem_of_held_names in Hn as [h Hn]. apply elem_of_union. left.
    apply elem_of_difference. split; [apply elem_of_difference; split|].
    + unfold glob_kind. apply elem_of_filter. split; [done|]. apply HM; [done|by exists (Held h)].
    + unfold glob_kind. rewrite elem_of_filter. intros [_ Hf]. by pose proof (Hc n (Held h) Free Hn Hf).
    + intros Hd. by pose proof (Hc n (Held h) Dead Hn Hd).
Qed.

Lemma count_take_rev k X x :
  plain X →
  count_of k (list_to_set (take x (rev (listing (glob_kind k X)))) : gset string) = min x (count_of k X)
  ∧ (list_to_set (take x (rev (listing (glob_kind k X)))) : gset string) ⊆ glob_kind k X
  ∧ ∀ k', k' ≠ k → count_of k' (list_to_set (take x (rev (listing (glob_kind k X)))) : gset string) = 0.
Proof.
  intros Hpl. set (l := take x (rev (listing (glob_kind k X)))).
  assert (NoDup (rev (listing (glob_kind k X)))) as Hnd0
    by (apply NoDup_ListNoDup, NoDup_rev, NoDup_ListNoDup, NoDup_listing).
  assert (NoDup l) as Hnd by (eapply sublist_NoDup; [exact Hnd0|apply sublist_take]).
  assert ((list_to_set l : gset string) ⊆ glob_kind k X) as Hsub.
  { intros n. rewrite elem_of_list_to_set. intros Hn.
    assert (n ∈ rev (listing (glob_kind k X))) as Hn2
      by (eapply elem_of_submseteq; [exact Hn|apply sublist_submseteq, sublist_take]).
    by rewrite list_elem_of_In, <- in_rev, <- list_elem_of_In, elem_of_listing in Hn2. }
  assert (∀ n, n ∈ (list_to_set l : gset string) → of_kind k n = true) as Hof.
  { intros n Hn%Hsub. unfold glob_kind in Hn. by apply elem_of_filter in Hn as [? _]. }
  split_and!; [|done|].
  - rewrite count_same by done. rewrite size_list_to_set by done. unfold l.
    by rewrite length_take, length_rev, length_listing.
  - intros k' Hne. eapply count_other; [|exact Hof|done].
    eapply plain_subseteq; [|exact Hpl]. etrans; [exact Hsub|]. unfold glob_kind. set_solver.
Qed.

Lemma retire_excess_ext mi hp un k t L L1 :
  glob_kind k (l_free L1) = glob_kind k (l_free L) →
  retire_excess mi hp un k t L1 = retire_excess mi hp un k t L.
Proof. intros H. unfold retire_excess. by rewrite H. Qed.

(** Each kind asked about loses exactly its excess of free tokens; no other
    kind does. *)
Lemma retire_kinds_counts E mi hp un cap re L L' r :
  unlinks E → NoDup cap.*1 → plain (l_free L) →
  retire_kinds E mi hp un cap re L = (L', Ok r) →
  (∀ k t, (k, t) ∈ cap →
     count_of k (l_free L') = count_of k (l_free L) - retire_excess mi hp un k (Z.to_nat t) L)
  ∧ (∀ k, k ∉ cap.*1 → glob_kind k (l_free L') = glob_kind k (l_free L)).
Proof.
  intros HE. revert re L. induction cap as [|[K t0] cap IH]; intros re L Hnd Hpl; cbn [retire_kinds].
  { intros [= <- _]. split; [intros k t H; by apply elem_of_nil in H|done]. }
  rewrite fmap_cons, NoDup_cons in Hnd. destruct Hnd as [HK Hnd].
  case_bool_decide; [done|]. set (x := retire_excess mi hp un K (Z.to_nat t0) L).
  destruct (retire_loop E _ L) as [c L1] eqn:Hr.
  apply retire_loop_exact in Hr as (_ & Hf & _ & _ & _); [|done].
  destruct (count_take_rev K (l_free L) x Hpl) as (Hx1 & Hx2 & Hx3).
  set (S := list_to_set (take x (rev (listing (glob_kind K (l_free L)))))) in *.
  assert (S ⊆ l_free L) as HS by (unfold glob_kind in Hx2; set_solver).
  assert (plain (l_free L1)) as Hpl1.
  { eapply plain_subseteq; [|exact Hpl]. rewrite Hf. set_solver. }
  intros Hrest. destruct (IH _ L1 Hnd Hpl1 Hrest) as [IH1 IH2].
  assert (∀ k, k ≠ K → glob_kind k (l_free L1) = glob_kind k (l_free L)) as Hother.
  { intros k Hne. rewrite Hf. apply set_eq. intros n. unfold glob_kind.
    rewrite !elem_of_filter, elem_of_difference. split; [naive_solver|].
    intros [Hk Hn]. split_and!; [done|done|]. intros HnS.
    pose proof (Hx2 _ HnS) as HnK. unfold glob_kind in HnK. apply elem_of_filter in HnK as [HnK _].
    by rewrite <- (plain_kind _ _ _ Hpl Hn Hk), (plain_kind _ _ _ Hpl Hn HnK) in Hne. }
  split.
  - intros k t [[= -> ->]|Hin]%elem_of_cons.
    + unfold count_of at 1. rewrite IH2 by done. fold (count_of K (l_free L1)).
      rewrite Hf, count_difference, Hx1 by done. lia.
    + assert (k ≠ K) as Hne.
      { intros ->. apply HK, list_elem_of_fmap. by exists (K, t). }
      rewrite (IH1 k t Hin). rewrite (retire_excess_ext _ _ _ _ _ L L1) by (by apply Hother).
      unfold count_of. by rewrite Hother.
  - intros k. rewrite fmap_cons, not_elem_of_cons. intros [Hne Hin].
    rewrite IH2 by done. by apply Hother.
Qed.

(** The free tokens whose unlink fails. *)
Definition stuck (E : IO) (X : gset string) : gset string := filter (λ n, io_unlink_free E n = true) X.

Lemma retire_loop_free E ns L c L' :
  retire_loop E ns L = (c, L') → l_free L' = l_free L ∖ (list_to_set ns ∖ stuck E (list_to_set ns)).
Proof.
  revert L c. induction ns as [|n ns IH]; intros L c; cbn [retire_loop]; [intros [= _ <-]; set_solver|].
  assert (∀ l x, x ∈ stuck E (list_to_set l) ↔ io_unlink_free E x = true ∧ x ∈ l) as Hs.
  { intros l x. unfold stuck. by rewrite elem_of_filter, elem_of_list_to_set. }
  destruct (io_unlink_free E n) eqn:En; [intros Hr%IH|destruct (retire_loop E ns _) as [c2 L2] eqn:Hr; intros [= _ <-]; apply IH in Hr];
    rewrite Hr; cbn [l_free set_minted set_free]; apply set_eq; intros x;
    rewrite ?elem_of_difference, ?Hs, ?elem_of_list_to_set, ?elem_of_cons, ?elem_of_singleton;
    (destruct (decide (x = n)) as [->|]; [rewrite En|]); intuition congruence.
Qed.

(** Each kind asked about loses at least its excess of free tokens, but for
    those that cannot be unlinked. *)
Lemma retire_kinds_at_most E mi hp un cap re L L' r :
  NoDup cap.*1 → plain (l_free L) → retire_kinds E mi hp un cap re L = (L', Ok r) →
  (∀ k t, (k, t) ∈ cap →
     count_of k (l_free L') ≤ count_of k (l_free L) - retire_excess mi hp un k (Z.to_nat t) L + count_of k (stuck E (l_free L)))
  ∧ (∀ k, k ∉ cap.*1 → glob_kind k (l_free L') = glob_kind k (l_free L)).
Proof.
  revert re L. induction cap as [|[K t0] cap IH]; intros re L Hnd Hpl; cbn [retire_kinds].
  { intros [= <- _]. split; [intros k t H; by apply elem_of_nil in H|done]. }
  rewrite fmap_cons, NoDup_cons in Hnd. destruct Hnd as [HK Hnd].
  case_bool_decide; [done|]. set (x := retire_excess mi hp un K (Z.to_nat t0) L).
  destruct (retire_loop E _ L) as [c L1] eqn:Hr. apply retire_loop_free in Hr as Hf.
  destruct (count_take_rev K (l_free L) x Hpl) as (Hx1 & Hx2 & Hx3).
  set (S := list_to_set (take x (rev (listing (glob_kind K (l_free L)))))) in *.
  assert (S ⊆ l_free L) as HS by (unfold glob_kind in Hx2; set_solver).
  assert (stuck E S ⊆ S) as HsS by (unfold stuck; set_solver).
  assert (plain (l_free L1)) as Hpl1 by (eapply plain_subseteq; [|exact Hpl]; rewrite Hf; set_solver).
  intros Hrest. destruct (IH _ L1 Hnd Hpl1 Hrest) as [IH1 IH2].
  assert (∀ k, k ≠ K → glob_kind k (l_free L1) = glob_kind k (l_free L)) as Hother.
  { intros k Hne. rewrite Hf. apply set_eq. intros n. unfold glob_kind.
    rewrite !elem_of_filter, elem_of_difference. split; [naive_solver|].
    intros [Hk Hn]. split_and!; [done|done|]. intros [HnS _]%elem_of_difference.
    pose proof (Hx2 _ HnS) as HnK. unfold glob_kind in HnK. apply elem_of_filter in HnK as [HnK _].
    by rewrite <- (plain_kind _ _ _ Hpl Hn Hk), (plain_kind _ _ _ Hpl Hn HnK) in Hne. }
  assert (∀ k X Y, X ⊆ Y → count_of k X ≤ count_of k Y) as Hmono.
  { intros k X Y HXY. apply subseteq_size. intros n. unfold glob_kind. rewrite !elem_of_filter. naive_solver. }
  assert (∀ k, k ≠ K → count_of k (stuck E (l_free L1)) ≤ count_of k (stuck E (l_free L))) as Hst.
  { intros k _. apply Hmono. intros n. unfold stuck. rewrite !elem_of_filter, Hf, elem_of_difference. naive_solver. }
  split.
  - intros k t [[= -> ->]|Hin]%elem_of_cons.
    + unfold count_of at 1. rewrite IH2 by done. fold (count_of K (l_free L1)).
      rewrite Hf, count_difference by set_solver. rewrite count_difference by done. fold x.
      pose proof (Hmono K (stuck E S) (stuck E (l_free L)) ltac:(intros n; unfold stuck; rewrite !elem_of_filter; naive_solver)).
      pose proof (Hmono K (stuck E S) S HsS). lia.
    + assert (k ≠ K) as Hne by (intros ->; apply HK, list_elem_of_fmap; by exists (K, t)).
      specialize (IH1 k t Hin). rewrite (retire_excess_ext _ _ _ _ _ L L1) in IH1 by (by apply Hother).
      specialize (Hst k Hne). unfold count_of in IH1 at 2. rewrite Hother in IH1 by done. fold (count_of k (l_free L)) in IH1. lia.
  - intros k. rewrite fmap_cons, not_elem_of_cons. intros [Hne Hin]. rewrite IH2 by done. by apply Hother.
Qed.

(** The shrink never leaves a kind over its target while free tokens of it
    that can be unlinked remain, whatever could not be read. *)
Lemma retire_bound_stuck E now cap L L' r :
  custody L → marked L → plain (l_free L) → retire_free_capacity E now cap L = (L', Ok r) →
  ∀ k t, cap !! k = Some t →
    count_of k (l_free L') + count_of k (held_names L)
      ≤ max (Z.to_nat t) (count_of k (held_names L)) + count_of k (stuck E (l_free L)).
Proof.
  intros Hc HM Hpl. unfold retire_free_capacity. destruct (_held_census E L) as [hp un] eqn:Hcen.
  set (mi := if bool_decide (un = []) then None else _).
  destruct (retire_kinds E mi hp un (sorted_items cap) ∅ L) as [L1 [r1|e]] eqn:Hr; [|done].
  intros [= <- _] k t Hk. apply retire_kinds_at_most in Hr as [Hr _]; [|apply sorted_items_NoDup|done].
  specialize (Hr k t ltac:(by apply elem_of_sorted_items)).
  assert (l_free (report_census now un (listing (dom cap)) r1 L1).2 = l_free L1) as -> by (by destruct un).
  destruct (retire_excess_sound E L hp un k (Z.to_nat t) mi Hc HM Hcen eq_refl) as [Hx|Hx]; lia.
Qed.

Lemma stuck_none E X : unlinks E → stuck E X = ∅.
Proof. intros HE. apply set_eq. intros n. unfold stuck. rewrite elem_of_filter, HE. set_solver. Qed.

(** The shrink never leaves a kind over its target while free tokens of it
    remain, whatever could not be read. *)
Lemma retire_free_capacity_bound E now cap L L' r :
  unlinks E → custody L → marked L → plain (l_free L) →
  retire_free_capacity E now cap L = (L', Ok r) →
  ∀ k t, cap !! k = Some t →
    count_of k (l_free L') + count_of k (held_names L)
      ≤ max (Z.to_nat t) (count_of k (held_names L)).
Proof.
  intros HE Hc HM Hpl Hr k t Hk. pose proof (retire_bound_stuck _ _ _ _ _ _ Hc HM Hpl Hr k t Hk) as H.
  rewrite (stuck_none _ _ HE) in H. change (count_of k ∅) with 0 in H. lia.
Qed.

(** With every holder readable the shrink stops at the target. *)
Lemma retire_free_capacity_floor E now cap L L' r :
  unlinks E → custody L → plain (l_free L) → (∀ h, io_unreadable E RCensus h = false) →
  retire_free_capacity E now cap L = (L', Ok r) →
  ∀ k t, cap !! k = Some t →
    min (Z.to_nat t) (count_of k (l_free L) + count_of k (held_names L))
      ≤ count_of k (l_free L') + count_of k (held_names L).
Proof.
  intros HE Hc Hpl HU. unfold retire_free_capacity.
  destruct (_held_census E L) as [hp un] eqn:Hcen.
  assert (un = []) as ->.
  { unfold _held_census in Hcen. rewrite held_census_fold in Hcen. injection Hcen as _ <-.
    apply elem_of_nil_inv. intros h [Hh _]%list_elem_of_filter. by rewrite HU in Hh. }
  set (mi := if bool_decide _ then None else _).
  destruct (retire_kinds E mi hp [] (sorted_items cap) ∅ L) as [L1 [r1|e]] eqn:Hr; [|done].
  intros [= <- _] k t Hk.
  apply retire_kinds_counts in Hr as [Hr _]; [|done|apply sorted_items_NoDup|done].
  specialize (Hr k t ltac:(by apply elem_of_sorted_items)). simpl. rewrite Hr.
  enough (length (filter (λ n, of_kind k n = true) hp) ≤ count_of k (held_names L)).
  { unfold retire_excess. rewrite bool_decide_eq_true_2 by done. fold (count_of k (l_free L)). lia. }
  pose proof (held_census_readable _ _ _ Hcen) as Hread.
  assert (NoDup hp) as Hnd.
  { unfold _held_census in Hcen. rewrite held_census_fold in Hcen. injection Hcen as <- _.
    by apply held_listings_NoDup. }
  rewrite <- (size_list_to_set (C := gset string)) by (by apply NoDup_filter).
  apply subseteq_size. intros n. unfold glob_kind.
  rewrite elem_of_list_to_set, list_elem_of_filter, elem_of_filter, Hread. naive_solver.
Qed.
