(* ===== verification/LedgerSpec.v ===== *)
(** * What the capacity ledger guarantees

    The properties of [ResourceLedger] that admission relies on, over the
    model of [Ledger] and for every file-system refusal the hypotheses do not
    exclude. *)

From S2P Require Import Prelude.
From S2P Require Import TokenName.
From S2P Require Import Ledger.
From S2P Require Import LedgerFacts.
From S2P Require Import LedgerEffects.
From S2P Require Import LedgerInv.
From S2P Require Import LedgerCount.
From S2P Require Import LedgerMint.
From S2P Require Import LedgerRetire.
From stdpp Require Import options.

(** ** A small ledger for the witnesses *)

Definition demo_claimant : Claimant := mkClaimant 1000 "sparky.lan" 42 "deadbeef".
Definition demo_capacity : gmap string Z := {[ "gpu" := 1%Z; "mem_gb" := 3%Z ]}.
Definition demo_demand : gmap string Z := {[ "gpu" := 1%Z; "mem_gb" := 2%Z ]}.
(** A box declared with one GPU and three gigabytes. *)
Definition demo_ledger : Ledger := fst (ensure_capacity host_conf io_ok demo_capacity empty_ledger).
(** The same box after an action took its demand. *)
Definition demo_taken : Ledger :=
  fst (acquire host_conf io_ok true No_gate demo_claimant "k1" demo_demand demo_ledger).

Lemma demo_reachable : reachable host_conf unlinks empty_ledger demo_taken.
Proof.
  eapply rtc_l; [exists io_ok; split; [done|]; apply (s_ensure _ _ demo_capacity)|].
  eapply rtc_l; [exists io_ok; split; [done|];
                 apply (s_acquire _ _ true No_gate demo_claimant "k1" demo_demand)|].
  apply rtc_refl.
Defined.

Lemma demo_reachable_any : reachable host_conf (λ _, True) empty_ledger demo_taken.
Proof.
  eapply rtc_subrel; [|exact demo_reachable].
  intros L L' (E & _ & HS). by exists E.
Defined.

Lemma demo_custody : custody demo_ledger ∧ marked demo_ledger.
Proof.
  eapply (reachable_marked host_conf empty_ledger); [|split; apply custody_empty].
  apply rtc_once. exists io_ok. split; [done|]. apply (s_ensure _ _ demo_capacity).
Qed.

Lemma demo_live : live_custody demo_ledger.
Proof. intros n p q _ _. apply demo_custody. Qed.

Lemma demo_taken_marked : custody demo_taken ∧ marked demo_taken.
Proof. eapply reachable_marked; [exact demo_reachable|split; apply custody_empty]. Qed.

Lemma demo_taken_live : live_custody demo_taken.
Proof. intros n p q _ _. apply demo_taken_marked. Qed.

(** A decidable form of [plain], for evaluation. *)
Definition plainb (X : gset string) : bool :=
  bool_decide (set_Forall (λ n, is_token n = true → has_char dash (kind_of n) = false) X).

Lemma plainb_plain X : plainb X = true → plain X.
Proof. intros H%bool_decide_eq_true n Hn. by apply H. Qed.

Lemma demo_plain : plain (l_free demo_ledger).
Proof. apply plainb_plain. by vm_compute. Qed.

(** ** Safety of the transition system *)

(** C1: whatever calls are made on a ledger and whatever the file system
    refuses, no token is ever free and held, or held twice, at once: capacity
    is never double-booked. *)
Theorem never_double_booked cf L0 L :
  live_custody L0 → reachable cf (λ _, True) L0 L → live_custody L.
Proof. intros Hc Hr. by eapply reachable_live_custody. Qed.

Lemma never_double_booked_witness :
  live_custody demo_taken.
Proof.
  apply (never_double_booked host_conf empty_ledger demo_taken).
  - apply custody_empty.
  - exact demo_reachable_any.
Defined.

(** As long as retiring a free token never fails halfway, every token file
    keeps its mint marker and is filed at exactly one place, destroyed names
    included. *)
Theorem population_stays_marked cf L0 L :
  custody L0 → marked L0 → reachable cf unlinks L0 L → custody L ∧ marked L.
Proof. intros Hc HM Hr. by eapply reachable_marked. Qed.

Lemma population_stays_marked_witness : custody demo_taken ∧ marked demo_taken.
Proof.
  apply (population_stays_marked host_conf empty_ledger demo_taken).
  - apply custody_empty.
  - apply custody_empty.
  - exact demo_reachable.
Defined.

(** Tokens appear only in [ensure_capacity] and disappear only in
    [retire_free_capacity]; every other mutator keeps the set of token files
    and the markers, under any failure. *)
Theorem tokens_conserved cf E L L' :
  step cf E L L' →
  (∃ cap, L' = fst (ensure_capacity cf E cap L))
  ∨ (∃ now cap, L' = fst (retire_free_capacity E now cap L))
  ∨ (l_minted L' = l_minted L ∧ ∀ n, exists_tok L' n ↔ exists_tok L n).
Proof.
  intros [H|[H|Hm]]%step_effect; [by left|by right; left|right; right].
  split; [by eapply mv_minted|]. intros n. by eapply mv_exists.
Qed.

Lemma tokens_conserved_witness :
  step host_conf io_ok demo_taken (fst (release io_ok "k1" demo_taken)) ∧
  ((∃ cap, fst (release io_ok "k1" demo_taken) = fst (ensure_capacity host_conf io_ok cap demo_taken))
   ∨ (∃ now cap, fst (release io_ok "k1" demo_taken) = fst (retire_free_capacity io_ok now cap demo_taken))
   ∨ (l_minted (fst (release io_ok "k1" demo_taken)) = l_minted demo_taken
      ∧ ∀ n, exists_tok (fst (release io_ok "k1" demo_taken)) n ↔ exists_tok demo_taken n)).
Proof.
  split; [apply s_release|].
  apply (tokens_conserved host_conf io_ok). apply s_release.
Defined.

(** ** Acquisition *)

(** C2: an acquisition that does not return a handle -- short, refused by the
    floor, contended or ended by any exception -- leaves every token where it
    was, provided its own returns to [free/] are not refused. *)
Theorem begin_acquire_all_or_nothing E lf fl c k d ad ti g L L' r :
  l_held L !! handle_for c k = None →
  (∀ n, io_rename E (Held (handle_for c k)) Free n = None) →
  begin_acquire E lf fl c k d ad ti g L = (L', r) →
  (∀ h, r ≠ Ok (Some h)) → same_toks L L'.
Proof.
  intros Hf HE. unfold begin_acquire. destruct fl as [| |adm rsv s].
  - by apply begin_locked_refused.
  - intros [= <- _] _. apply set_shortage_same.
  - case_if; [intros [= <- _] _; apply set_shortage_same|].
    case_if; [intros [= <- _] _; apply set_shortage_same|]. by apply begin_locked_refused.
Qed.

Lemma begin_acquire_all_or_nothing_witness :
  same_toks demo_ledger
    (fst (begin_acquire io_ok true No_gate demo_claimant "k1" {[ "gpu" := 1%Z; "mem_gb" := 9%Z ]}
            None None None demo_ledger)).
Proof.
  eapply (begin_acquire_all_or_nothing io_ok true No_gate demo_claimant "k1"
            {[ "gpu" := 1%Z; "mem_gb" := 9%Z ]} None None None demo_ledger _ (Ok None));
    [by vm_compute|done|by vm_compute|done].
Defined.



(** With no refused rename, [release] returns exactly what the key holds
    and [transfer] hands it to another key without any unit being free. *)
Theorem release_transfer_refine_counter E a b L :
  renames E → live_custody L → a ≠ "" → b ≠ "" → a ≠ b →
  is_private_holder a = false → is_private_holder b = false →
  counter_of (fst (release E a L)) ≡ counter_release a (counter_of L)
  ∧ counter_of (fst (transfer E a b L)) ≡ counter_transfer a b (counter_of L).
Proof.
  intros HE Hc Ha Hb Hab Hpa Hpb. split.
  - destruct (release E a L) as [L' r] eqn:Hr. apply counter_moves_release; [done|].
    eapply empty_into_free_all; [|exact Hr]. intros; apply HE.
  - destruct (transfer E a b L) as [L' r] eqn:Hr. apply counter_moves_transfer; [done|done|].
    by eapply transfer_all.
Qed.

Lemma release_transfer_refine_counter_witness :
  counter_of (fst (release io_ok "k1" demo_taken)) ≡ counter_release "k1" (counter_of demo_taken)
  ∧ counter_of (fst (transfer io_ok "k1" "k2" demo_taken))
    ≡ counter_transfer "k1" "k2" (counter_of demo_taken).
Proof.
  apply (release_transfer_refine_counter io_ok "k1" "k2" demo_taken);
    [done|apply demo_taken_live|done..].
Defined.

(** The winner of the claim rename, when its commit is undisturbed, owns
    every token its private handle took, and the count it is told is exact --
    so a short count always means a short reservation. *)
Theorem commit_acquire_exact E k h L c m L' :
  h ≠ k → live_custody L → cpu_meta h L = None → gpu_meta h L = None →
  (∀ n, io_rename E (Held h) (Held k) n = None) → committable E k h →
  commit_acquire E k h L = (L', m, c) →
  c = Ok (size (toks L (Held h))) ∧ moves (Held h) (Held k) (toks L (Held h)) L L'.
Proof. intros. by eapply commit_all. Qed.

(** The demo box with a private acquisition in flight. *)
Definition demo_begun : Ledger :=
  fst (begin_acquire io_ok true No_gate demo_claimant "k1" demo_demand None None None demo_ledger).

Lemma demo_begun_live : live_custody demo_begun.
Proof.
  apply (step_live_custody host_conf io_ok demo_ledger); [|apply demo_live].
  apply (s_begin host_conf io_ok true No_gate demo_claimant "k1" demo_demand None None None).
Qed.

Lemma commit_acquire_exact_witness :
  (commit_acquire io_ok "k1" (handle_for demo_claimant "k1") demo_begun).2
    = Ok (size (toks demo_begun (Held (handle_for demo_claimant "k1"))))
  ∧ moves (Held (handle_for demo_claimant "k1")) (Held "k1")
      (toks demo_begun (Held (handle_for demo_claimant "k1"))) demo_begun
      (commit_acquire io_ok "k1" (handle_for demo_claimant "k1") demo_begun).1.1.
Proof.
  destruct (commit_acquire io_ok "k1" (handle_for demo_claimant "k1") demo_begun) as [[L' m] c] eqn:HE.
  change (c = Ok (size (toks demo_begun (Held (handle_for demo_claimant "k1"))))
    ∧ moves (Held (handle_for demo_claimant "k1")) (Held "k1") (toks demo_begun (Held (handle_for demo_claimant "k1"))) demo_begun L').
  apply (commit_acquire_exact io_ok "k1" (handle_for demo_claimant "k1") demo_begun c m L');
    [by vm_compute|apply demo_begun_live|by vm_compute|by vm_compute|intros n; reflexivity|split; reflexivity|exact HE].
Defined.

(** ** Ownership changes *)

(** The three transfers never touch [free/] nor any holder but the two
    they name, and keep the set of tokens those two hold together -- also when
    renames fail part-way. *)
Theorem transfers_never_free E a b n ns L L' :
  L' = fst (transfer E a b L) ∨ L' = fst (transfer_count E a b n L)
    ∨ L' = fst (transfer_tokens E a b ns L) →
  l_free L' = l_free L ∧ (∀ h, h ≠ a → h ≠ b → toks L' (Held h) = toks L (Held h))
  ∧ toks L' (Held a) ∪ toks L' (Held b) = toks L (Held a) ∪ toks L (Held b).
Proof.
  intros HL. assert (mv (hands a b) L L') as Hm.
  { destruct HL as [-> |[-> | ->]].
    - destruct (transfer E a b L) eqn:HE. by eapply transfer_mv.
    - destruct (transfer_count E a b n L) eqn:HE. by eapply transfer_count_mv.
    - destruct (transfer_tokens E a b ns L) eqn:HE. by eapply transfer_tokens_mv. }
  split_and!.
  - apply (mv_untouched _ _ _ Free) in Hm; [done|]. intros p q [-> ->]. done.
  - intros h Ha Hb. apply (mv_untouched _ _ _ (Held h)) in Hm; [done|].
    intros p q [-> ->]. split; congruence.
  - by apply hands_union.
Qed.

Lemma transfers_never_free_witness :
  l_free (fst (transfer_count io_ok "k1" "k2" 1 demo_taken)) = l_free demo_taken.
Proof.
  refine (proj1 (transfers_never_free io_ok "k1" "k2" 1 [] demo_taken
           (fst (transfer_count io_ok "k1" "k2" 1 demo_taken)) _)).
  right; left. reflexivity.
Defined.

(** ** Minting and retiring *)

(** On a readable ledger [ensure_capacity] succeeds, marks everything
    present and declared, and creates exactly the declared names that have
    neither a marker nor a holder. *)
Theorem ensure_capacity_exact cf E cap L :
  mints E → (∀ k v, cap !! k = Some v → 0 ≤ v)%Z →
  ∃ L', ensure_capacity cf E cap L = (L', Ok tt) ∧ l_held L' = l_held L ∧ l_dead L' = l_dead L
        ∧ l_minted L' = l_minted L ∪ present L ∪ declared (sorted_items cap)
        ∧ l_free L' = l_free L ∪ (declared (sorted_items cap) ∖ l_minted L ∖ held_names L).
Proof.
  intros HE Hpos. destruct (ensure_capacity_result cf E cap L HE Hpos) as (L' & ? & [? ?] & ? & ?).
  by exists L'.
Qed.

Lemma demo_capacity_pos k v : demo_capacity !! k = Some v → (0 ≤ v)%Z.
Proof.
  unfold demo_capacity. rewrite lookup_insert. case_decide; [intros [= <-]; lia|].
  rewrite lookup_singleton. case_decide; [intros [= <-]; lia|done].
Qed.

Lemma ensure_capacity_exact_witness :
  ∃ L', ensure_capacity host_conf io_ok demo_capacity demo_taken = (L', Ok tt)
        ∧ l_held L' = l_held demo_taken ∧ l_dead L' = l_dead demo_taken
        ∧ l_minted L' = l_minted demo_taken ∪ present demo_taken ∪ declared (sorted_items demo_capacity)
        ∧ l_free L' = l_free demo_taken
                      ∪ (declared (sorted_items demo_capacity) ∖ l_minted demo_taken ∖ held_names demo_taken).
Proof. apply (ensure_capacity_exact host_conf io_ok demo_capacity demo_taken); [done|apply demo_capacity_pos]. Defined.

(** Declaring the same capacity again changes neither tokens nor markers:
    two workers that declare one box converge. *)
Theorem ensure_capacity_idempotent cf E cap L L1 :
  mints E → (∀ k v, cap !! k = Some v → 0 ≤ v)%Z →
  ensure_capacity cf E cap L = (L1, Ok tt) →
  ∃ L2, ensure_capacity cf E cap L1 = (L2, Ok tt) ∧ same_toks L1 L2.
Proof.
  intros HE Hpos H1.
  destruct (ensure_capacity_result cf E cap L HE Hpos) as (L1' & H1' & [Hh1 Hd1] & Hm1 & Hf1).
  assert (L1' = L1) as -> by congruence.
  destruct (ensure_capacity_result cf E cap L1 HE Hpos) as (L2 & -> & [Hh2 Hd2] & Hm2 & Hf2).
  exists L2. split; [done|]. apply (ensure_again cap); [done|exact Hm2|exact Hf2| |].
  - rewrite Hm1. set_solver.
  - intros n Hn. rewrite Hm1. apply elem_of_union.
    destruct (decide (n ∈ declared (sorted_items cap))) as [|Hnd]; [by right|left].
    apply elem_of_union. right. revert Hn. unfold present, glob_tokens.
    rewrite (same_held_names L L1) by done. rewrite Hf1. set_solver.
Qed.

Lemma ensure_capacity_idempotent_witness :
  ∃ L2, ensure_capacity host_conf io_ok demo_capacity demo_ledger = (L2, Ok tt)
        ∧ same_toks demo_ledger L2.
Proof.
  apply (ensure_capacity_idempotent host_conf io_ok demo_capacity empty_ledger demo_ledger);
    [done|apply demo_capacity_pos|by vm_compute].
Defined.

(** C23: a retirement that returns leaves no kind above the larger of its
    target and what is held, however many holders could not be read -- an
    unreadable holder is counted as held, never as absent -- and above that only
    by free tokens whose own unlink failed.  The ledger is one in which every
    token is in one place and has its marker. *)
Theorem retire_never_over_admits E now cap L L' r :
  custody L → marked L → plain (l_free L) →
  retire_free_capacity E now cap L = (L', Ok r) →
  ∀ k t, cap !! k = Some t →
    count_of k (l_free L') + count_of k (held_names L)
      ≤ max (Z.to_nat t) (count_of k (held_names L)) + count_of k (stuck E (l_free L)).
Proof. intros. by eapply retire_bound_stuck. Qed.

(** A file system on which one holder cannot be read. *)
Definition io_blind (h : string) : IO :=
  mkIO (λ _ _ _, None) (λ _ h', bool_decide (h' = h)) false (λ _, false) (λ _, false)
       (λ _, false) false (λ _, false) (λ _, false) (λ _, false).

Lemma demo_taken_plain : plain (l_free demo_taken).
Proof. apply plainb_plain. by vm_compute. Qed.

(** One holder unreadable, and the unlink of one free token failing. *)
Definition io_blind_stuck : IO :=
  mkIO (λ _ _ _, None) (λ _ h', bool_decide (h' = "k1")) false (λ _, false) (λ _, false)
       (λ n, bool_decide (n = "mem_gb-0002")) false (λ _, false) (λ _, false) (λ _, false).

Lemma retire_never_over_admits_witness :
  count_of "mem_gb" (l_free (fst (retire_free_capacity (io_blind "k1") 7 {[ "mem_gb" := 2%Z ]} demo_taken)))
    + count_of "mem_gb" (held_names demo_taken) ≤ max 2 (count_of "mem_gb" (held_names demo_taken))
  ∧ count_of "mem_gb" (l_free (fst (retire_free_capacity io_blind_stuck 7 {[ "mem_gb" := 2%Z ]} demo_taken)))
    + count_of "mem_gb" (held_names demo_taken) ≤ max 2 (count_of "mem_gb" (held_names demo_taken)) + 1.
Proof.
  split.
  - destruct (retire_free_capacity (io_blind "k1") 7 {[ "mem_gb" := 2%Z ]} demo_taken) as [L' r] eqn:HE.
    assert (is_ok r = true) as Hok by (change r with (snd (L', r)); rewrite <- HE; by vm_compute).
    destruct r as [m|]; [|done].
    pose proof (retire_never_over_admits (io_blind "k1") 7 {[ "mem_gb" := 2%Z ]} demo_taken L' m
              (proj1 demo_taken_marked) (proj2 demo_taken_marked) demo_taken_plain HE "mem_gb" 2%Z eq_refl) as H.
    assert (count_of "mem_gb" (stuck (io_blind "k1") (l_free demo_taken)) = 0) as Hs by (by vm_compute).
    rewrite Hs, Nat.add_0_r in H. exact H.
  - destruct (retire_free_capacity io_blind_stuck 7 {[ "mem_gb" := 2%Z ]} demo_taken) as [L' r] eqn:HE.
    assert (is_ok r = true) as Hok by (change r with (snd (L', r)); rewrite <- HE; by vm_compute).
    destruct r as [m|]; [|done].
    pose proof (retire_never_over_admits io_blind_stuck 7 {[ "mem_gb" := 2%Z ]} demo_taken L' m
              (proj1 demo_taken_marked) (proj2 demo_taken_marked) demo_taken_plain HE "mem_gb" 2%Z eq_refl) as H.
    assert (count_of "mem_gb" (stuck io_blind_stuck (l_free demo_taken)) = 1) as Hs by (by vm_compute).
    rewrite Hs in H. exact H.
Defined.

(** With every holder readable, a retirement also never takes a kind below
    its target, and never touches a holder. *)
Theorem retire_stops_at_target E now cap L L' r :
  unlinks E → custody L → plain (l_free L) → (∀ h, io_unreadable E RCensus h = false) →
  retire_free_capacity E now cap L = (L', Ok r) →
  (∀ h, toks L' (Held h) = toks L (Held h))
  ∧ ∀ k t, cap !! k = Some t →
      min (Z.to_nat t) (count_of k (l_free L) + count_of k (held_names L))
        ≤ count_of k (l_free L') + count_of k (held_names L).
Proof.
  intros HE Hc Hpl HU Hr. split; [|by eapply retire_free_capacity_floor].
  apply retire_free_capacity_shrinks in Hr. apply Hr.
Qed.

Lemma retire_stops_at_target_witness :
  min 2 (count_of "mem_gb" (l_free demo_taken) + count_of "mem_gb" (held_names demo_taken))
  ≤ count_of "mem_gb" (l_free (fst (retire_free_capacity io_ok 7 {[ "mem_gb" := 2%Z ]} demo_taken)))
    + count_of "mem_gb" (held_names demo_taken).
Proof.
  destruct (retire_free_capacity io_ok 7 {[ "mem_gb" := 2%Z ]} demo_taken) as [L' r] eqn:HE.
  assert (is_ok r = true) as Hok by (change r with (snd (L', r)); rewrite <- HE; by vm_compute).
  destruct r as [m|]; [|done].
  refine (proj2 (retire_stops_at_target io_ok 7 {[ "mem_gb" := 2%Z ]} demo_taken L' m
            (λ _, eq_refl) (proj1 demo_taken_marked) demo_taken_plain (λ _, eq_refl) HE)
            "mem_gb" 2%Z eq_refl).
Defined.
