(* ===== verification/LedgerCensus.v ===== *)
(** * The closed census and the stale sweep

    What a [floor_snapshot] answer certifies, what the sweep of unfinished
    acquisitions may touch, and why a destroyed name stays destroyed. *)

From S2P Require Import Prelude.
From S2P Require Import TokenName.
From S2P Require Import Ledger.
From S2P Require Import LedgerFacts.
From S2P Require Import LedgerEffects.
From S2P Require Import LedgerInv.
From S2P Require Import LedgerCount.
From S2P Require Import LedgerMint.
From S2P Require Import LedgerSpec.
From stdpp Require Import options.

(** ** The closed census *)

Lemma held_union_iff (f : string → gset string) hs acc Y :
  NoDup hs →
  held_union (f <$> hs) acc = Some Y
  ↔ Y = acc ∪ ⋃ (f <$> hs) ∧ (∀ h, h ∈ hs → acc ## f h)
    ∧ (∀ h h', h ∈ hs → h' ∈ hs → h ≠ h' → f h ## f h').
Proof.
  revert acc. induction hs as [|h hs IH]; intros acc Hnd; simpl.
  { split; [intros [= <-]; split_and!; set_solver|].
    intros (-> & _). f_equal. set_solver. }
  apply NoDup_cons in Hnd as [Hh Hnd]. case_bool_decide as Hd.
  - rewrite IH by done. split.
    + intros (-> & H1 & H2). split_and!; [set_solver|set_solver|].
      intros h1 h2 [->|K1]%elem_of_cons [->|K2]%elem_of_cons Hne; [done|..].
      * specialize (H1 _ K2). set_solver.
      * specialize (H1 _ K1). set_solver.
      * by apply H2.
    + intros (-> & H1 & H2). split_and!; [set_solver| |].
      * intros h' Hh'. assert (h ≠ h') by (by intros ->).
        pose proof (H1 h' ltac:(set_solver)). pose proof (H2 h h' ltac:(set_solver) ltac:(set_solver) ltac:(done)).
        set_solver.
      * intros h1 h2 K1 K2. apply H2; set_solver.
  - split; [done|]. intros (_ & H1 & _). destruct Hd.
    specialize (H1 h ltac:(set_solver)). set_solver.
Qed.

(** The population of the selected kinds is closed: canonical names, one
    place each, and a marker exactly for what is free, held or destroyed. *)
Record closed_population (kinds : gset string) (L : Ledger) : Prop := {
  cp_canonical : ∀ n, (n ∈ l_minted L ∨ exists_tok L n) → canonical_token n = true;
  cp_holders : ∀ n h h', kind_of n ∈ kinds → n ∈ toks L (Held h) → n ∈ toks L (Held h') → h = h';
  cp_free_held : ∀ n h, kind_of n ∈ kinds → n ∈ l_free L → n ∈ toks L (Held h) → False;
  cp_dead : ∀ n p, kind_of n ∈ kinds → n ∈ l_dead L → n ∈ toks L p → p = Dead;
  cp_complete : ∀ n, kind_of n ∈ kinds → n ∈ l_minted L ↔ exists_tok L n }.

Lemma elem_of_of_kinds n kinds X : n ∈ of_kinds kinds X ↔ kind_of n ∈ kinds ∧ n ∈ X.
Proof. unfold of_kinds. by rewrite elem_of_filter. Qed.

Lemma of_kinds_holders kinds L :
  ⋃ (of_kinds kinds <$> ((λ h, toks L (Held h)) <$> holder_names L)) = of_kinds kinds (held_names L).
Proof.
  apply set_eq. intros n. rewrite elem_of_union_list, elem_of_of_kinds. unfold held_names.
  rewrite elem_of_union_list. split.
  - intros (X & (Y & -> & HY)%list_elem_of_fmap & Hn). apply elem_of_of_kinds in Hn as [? ?].
    split; [done|]. by exists Y.
  - intros (Hk & Y & HY & Hn). exists (of_kinds kinds Y).
    split; [by apply list_elem_of_fmap; exists Y|]. by apply elem_of_of_kinds.
Qed.

Lemma exists_tok_iff L n :
  exists_tok L n ↔ n ∈ l_free L ∨ n ∈ held_names L ∨ n ∈ l_dead L.
Proof.
  rewrite elem_of_held_names. split.
  - intros [[|h|] Hp]; [by left|right; left; by exists h|by right; right].
  - intros [H|[[h H]|H]]; [by exists Free|by exists (Held h)|by exists Dead].
Qed.

Lemma holder_in_names L h n : n ∈ toks L (Held h) → h ∈ holder_names L.
Proof.
  intros Hn. apply elem_of_listing, elem_of_dom. unfold toks in Hn. by destruct (l_held L !! h).
Qed.

(** The census counts, kind by kind. *)
Definition snapshot_of (kinds : gset string) (L : Ledger) : gmap string nat :=
  list_to_map ((λ k, (k, count_kind k (of_kinds kinds (held_names L)))) <$> elements kinds).

Lemma floor_snapshot_iff E kinds L m :
  io_markers E = false → (∀ h, io_unreadable E RCensus h = false) →
  floor_snapshot E true kinds L = Ok m ↔ closed_population kinds L ∧ m = snapshot_of kinds L.
Proof.
  intros HM HU. unfold floor_snapshot. cbn [negb]. rewrite HM. cbn [orb].
  rewrite bool_decide_eq_false_2 by (rewrite Exists_exists; intros (h & _ & Hx); by rewrite HU in Hx).
  set (holders := (λ h, toks L (Held h)) <$> holder_names L).
  set (all := _ ∪ ⋃ holders).
  assert (∀ n, n ∈ all ↔ n ∈ l_minted L ∨ exists_tok L n) as Hall.
  { intros n. unfold all. rewrite exists_tok_iff, !elem_of_union. fold (held_names L). tauto. }
  assert (of_kinds kinds <$> holders = (λ h, of_kinds kinds (toks L (Held h))) <$> holder_names L)
    as Heq by (unfold holders; by rewrite <- list_fmap_compose).
  pose proof (held_union_iff (λ h, of_kinds kinds (toks L (Held h))) (holder_names L) ∅) as Hhu.
  rewrite <- Heq in Hhu. unfold holders in Hhu. rewrite of_kinds_holders, union_empty_l_L in Hhu. fold holders in Hhu.
  case_bool_decide as Hcan; cbn [negb].
  2: { split; [done|]. intros [Hcl _]. destruct Hcan. intros n Hn. apply Hcl. by apply Hall. }
  destruct (held_union (of_kinds kinds <$> holders) ∅) as [held|] eqn:Hh.
  2: { split; [done|]. intros [Hcl _]. exfalso.
       assert (None = Some (of_kinds kinds (held_names L))) as Hn; [|done].
       apply Hhu; [apply NoDup_listing|]. split_and!; [done|set_solver|].
       intros h h' _ _ Hne n [Hk Hn]%elem_of_of_kinds [_ Hn']%elem_of_of_kinds.
       by apply Hne, (cp_holders _ _ Hcl n). }
  destruct (proj1 (Hhu held (NoDup_listing _)) eq_refl) as (-> & _ & Hpair).
  case_bool_decide as Hfh; cbn [negb orb].
  2: { split; [done|]. intros [Hcl _]. destruct Hfh. apply set_eq. intros n.
       rewrite elem_of_intersection, !elem_of_of_kinds, elem_of_held_names.
       split; [|set_solver]. intros [[Hk Hf] [_ [h Hn]]]. by destruct (cp_free_held _ _ Hcl n h). }
  case_bool_decide as Hde; cbn [negb orb].
  2: { split; [done|]. intros [Hcl _]. destruct Hde. apply set_eq. intros n.
       rewrite elem_of_intersection, elem_of_union, !elem_of_of_kinds, elem_of_held_names.
       split; [|set_solver]. intros [[Hk Hd] [[_ Hf]|[_ [h Hn]]]].
       - by pose proof (cp_dead _ _ Hcl n Free Hk Hd Hf).
       - by pose proof (cp_dead _ _ Hcl n (Held h) Hk Hd Hn). }
  case_bool_decide as Hpop; cbn [negb].
  2: { split; [done|]. intros [Hcl _]. destruct Hpop. apply set_eq. intros n.
       rewrite !elem_of_union, !elem_of_of_kinds.
       destruct (decide (kind_of n ∈ kinds)) as [Hk|]; [|naive_solver].
       rewrite (cp_complete _ _ Hcl n Hk), exists_tok_iff. naive_solver. }
  split; [|by intros [_ ->]]. intros [= <-]. split; [|done]. split.
  - intros n Hn. apply Hcan. by apply Hall.
  - intros n h h' Hk Hn Hn'. destruct (decide (h = h')) as [|Hne]; [done|]. exfalso.
    apply (Hpair h h' (holder_in_names _ _ _ Hn) (holder_in_names _ _ _ Hn') Hne n);
      by apply elem_of_of_kinds.
  - intros n h Hk Hf Hn. assert (n ∈ (∅ : gset string)) as Hx; [|set_solver].
    rewrite <- Hfh, elem_of_intersection, !elem_of_of_kinds, elem_of_held_names. eauto.
  - intros n p Hk Hd Hn. destruct p as [|h|]; [exfalso|exfalso|done].
    + assert (n ∈ (∅ : gset string)) as Hx; [|set_solver].
      rewrite <- Hde, elem_of_intersection, elem_of_union, !elem_of_of_kinds. naive_solver.
    + assert (n ∈ (∅ : gset string)) as Hx; [|set_solver].
      rewrite <- Hde, elem_of_intersection, elem_of_union, !elem_of_of_kinds, elem_of_held_names.
      naive_solver.
  - intros n Hk. rewrite exists_tok_iff.
    assert (n ∈ of_kinds kinds (l_minted L) ↔ n ∈ l_minted L) as <-
      by (rewrite elem_of_of_kinds; naive_solver).
    rewrite Hpop, !elem_of_union, !elem_of_of_kinds. naive_solver.
Qed.

Lemma snapshot_lookup kinds L k :
  k ∈ kinds → snapshot_of kinds L !! k = Some (count_kind k (held_names L)).
Proof.
  intros Hk. unfold snapshot_of. apply elem_of_list_to_map.
  { rewrite <- list_fmap_compose. rewrite (list_fmap_ext _ id) by done.
    rewrite list_fmap_id. apply NoDup_elements. }
  apply list_elem_of_fmap. exists k. split; [|by apply elem_of_elements].
  assert (filter (λ n, kind_of n = k) (of_kinds kinds (held_names L))
          = filter (λ n, kind_of n = k) (held_names L)) as Heq.
  { apply set_eq. intros n. rewrite !elem_of_filter, elem_of_of_kinds. naive_solver. }
  unfold count_kind. by rewrite Heq.
Qed.

(** ** The sweep *)

Lemma not_dir_toks h L : is_dir h L = false → toks L (Held h) = ∅.
Proof.
  intros Hd%bool_decide_eq_false. apply eq_None_not_Some in Hd. unfold toks. by rewrite Hd.
Qed.

(** One holder of the sweep: emptied when it is past its bound. *)
Lemma sweep_loop_exact E W g hs L :
  renames E → (∀ h, io_unlink_meta E h = false) → NoDup hs →
  ∃ L' s, sweep_loop E W g hs L = (L', Ok s)
    ∧ (∀ h, toks L' (Held h)
            = if decide (h ∈ hs ∧ stale_acquisition W g h = true) then ∅ else toks L (Held h))
    ∧ (∀ n, n ∈ toks L' Free
            ↔ n ∈ toks L Free ∨ ∃ h, h ∈ hs ∧ stale_acquisition W g h = true ∧ n ∈ toks L (Held h)).
Proof.
  intros HR HU. revert L. induction hs as [|h hs IH]; intros L Hnd; cbn [sweep_loop].
  { eexists _, _. split_and!; [done|intros h; case_decide; [set_solver|done]|set_solver]. }
  apply NoDup_cons in Hnd as [Hh Hnd].
  destruct (stale_acquisition W g h) eqn:Hs; cbn [andb].
  2: { destruct (IH L Hnd) as (L' & s & -> & H1 & H2). eexists _, _. split; [done|]. split.
       - intros h'. rewrite H1. destruct (decide (h' = h)) as [->|].
         + rewrite !decide_False; [done|by rewrite Hs; intros [_ ?]..].
         + apply decide_ext. rewrite elem_of_cons. tauto.
       - intros n. rewrite H2. setoid_rewrite elem_of_cons. split; [naive_solver|].
         intros [?|(h' & [->|?] & Hs' & ?)]; [by left|congruence|right; by exists h']. }
  destruct (is_dir h L) eqn:Hd.
  2: { apply not_dir_toks in Hd. destruct (IH L Hnd) as (L' & s & -> & H1 & H2).
       eexists _, _. split; [done|]. split.
       - intros h'. rewrite H1. destruct (decide (h' = h)) as [->|].
         + by rewrite Hd; repeat case_decide.
         + apply decide_ext. rewrite elem_of_cons. tauto.
       - intros n. rewrite H2. setoid_rewrite elem_of_cons. split; [naive_solver|].
         intros [?|(h' & [->|?] & Hs' & Hn)]; [by left|by rewrite Hd in Hn|right; by exists h']. }
  destruct (_empty_into_free E h L) as [L1 r1] eqn:He.
  destruct (empty_into_free_ok _ _ _ _ _ (HU h) He) as [c ->].
  apply empty_into_free_all in He; [|done].
  destruct He as (_ & M1 & M2 & M3 & _).
  destruct (IH L1 Hnd) as (L' & s & -> & H1 & H2). eexists _, _. split; [done|].
  assert (∀ h', h' ≠ h → toks L1 (Held h') = toks L (Held h')) as Hoth
    by (intros h' Hne; apply M3; congruence).
  split.
  - intros h'. rewrite H1. destruct (decide (h' = h)) as [->|Hne].
    + rewrite decide_False by naive_solver. rewrite M1, decide_True by (split; [by left|done]). by rewrite difference_diag_L.
    + rewrite Hoth by done. apply decide_ext. rewrite elem_of_cons. tauto.
  - intros n. rewrite H2, M2. split.
    + intros [[Hf|Hn]%elem_of_union|(h' & Hin & Hs' & Hn)]; [by left|right; exists h; by rewrite elem_of_cons; auto|].
      right. exists h'. rewrite Hoth in Hn by (intros ->; done). rewrite elem_of_cons. auto.
    + intros [Hf|(h' & [->|Hin]%elem_of_cons & Hs' & Hn)]; [by left; apply elem_of_union; left|by left; apply elem_of_union; right|].
      destruct (decide (h' = h)) as [->|Hne]; [done|]. right. exists h'. by rewrite Hoth.
Qed.

(** ** Destroyed names *)

Lemma step_dead cf E L L' : step cf E L L' → l_dead L ⊆ l_dead L'.
Proof.
  intros [(cap & ->)|[(now & cap & ->)|Hm]]%step_effect.
  - destruct (ensure_capacity cf E cap L) eqn:Hg.
    apply ensure_capacity_grows in Hg as (_ & Hd & _). simpl in *. by rewrite Hd.
  - destruct (retire_free_capacity E now cap L) eqn:Hr.
    apply retire_free_capacity_shrinks in Hr as (_ & Hd & _). simpl in *. by rewrite Hd.
  - apply (mv_gains _ _ _ Dead) in Hm; [done|]. by intros p q Hp.
Qed.

Lemma reachable_dead cf Q L L' : reachable cf Q L L' → l_dead L ⊆ l_dead L'.
Proof. induction 1 as [|L1 L2 L3 (E & _ & HS) Hr IH]; [done|]. etrans; [by eapply step_dead|done]. Qed.

(** * Properties *)



(** The census of the demo box answers two held gigabytes. *)
Example demo_snapshot :
  floor_snapshot io_ok true {["mem_gb"]} demo_taken = Ok {[ "mem_gb" := 2 ]}.
Proof. by vm_compute. Qed.

(** A sweep no rename of which is refused empties exactly the private
    acquisitions past their bound into [free/]; every other holder, an action's
    or a younger claimant's, keeps every token. *)
Theorem sweep_exact E W g L :
  renames E → (∀ h, io_unlink_meta E h = false) →
  ∃ L' s, sweep_stale_acquisitions E W g L = (L', Ok s)
    ∧ (∀ h, stale_acquisition W g h = true → toks L' (Held h) = ∅)
    ∧ (∀ h, stale_acquisition W g h = false → toks L' (Held h) = toks L (Held h))
    ∧ (∀ n, n ∈ l_free L' ↔ n ∈ l_free L
            ∨ ∃ h, stale_acquisition W g h = true ∧ n ∈ toks L (Held h)).
Proof.
  intros HR HU. destruct (sweep_loop_exact E W g (holder_names L) L HR HU (NoDup_listing _))
    as (L' & s & Hs & H1 & H2).
  exists L', s. split_and!; [exact Hs| | |].
  - intros h Hst. rewrite H1. case_decide as Hd; [done|].
    apply set_eq. intros n. split; [|set_solver]. intros Hn.
    destruct Hd. split; [by eapply holder_in_names|done].
  - intros h Hst. rewrite H1, decide_False; [done|]. rewrite Hst. by intros [_ ?].
  - intros n. change (l_free L') with (toks L' Free). rewrite H2. split.
    + intros [?|(h & _ & ? & ?)]; [by left|right; by exists h].
    + intros [?|(h & ? & Hn)]; [by left|right]. exists h.
      split; [by eapply holder_in_names|done].
Qed.

(** The clock one hour after the demo acquisition began. *)
Definition demo_world : World := mkWorld 3600001000 "elsewhere" (λ _, true) (λ _, None).

Lemma sweep_exact_witness :
  ∃ L' s, sweep_stale_acquisitions io_ok demo_world LEASE_TIMEOUT demo_begun = (L', Ok s)
    ∧ (∀ h, stale_acquisition demo_world LEASE_TIMEOUT h = true → toks L' (Held h) = ∅)
    ∧ (∀ h, stale_acquisition demo_world LEASE_TIMEOUT h = false →
            toks L' (Held h) = toks demo_begun (Held h))
    ∧ (∀ n, n ∈ l_free L' ↔ n ∈ l_free demo_begun
            ∨ ∃ h, stale_acquisition demo_world LEASE_TIMEOUT h = true ∧ n ∈ toks demo_begun (Held h)).
Proof. apply (sweep_exact io_ok demo_world LEASE_TIMEOUT demo_begun); done. Defined.

Example demo_sweep_frees :
  stale_acquisition demo_world LEASE_TIMEOUT (handle_for demo_claimant "k1") = true
  ∧ l_free (fst (sweep_stale_acquisitions io_ok demo_world LEASE_TIMEOUT demo_begun))
    = l_free demo_ledger.
Proof. split; by vm_compute. Qed.

(** While retirements complete, a destroyed name stays destroyed: no later
    sequence of calls makes it free or held again. *)
Theorem destroyed_never_reminted cf L L' n :
  custody L → marked L → reachable cf unlinks L L' → n ∈ l_dead L →
  n ∈ l_dead L' ∧ (n ∉ l_free L') ∧ ∀ h, n ∉ toks L' (Held h).
Proof.
  intros Hc HM Hr Hn. assert (n ∈ toks L' Dead) as Hd by (by eapply reachable_dead).
  destruct (reachable_marked cf L L' Hr (conj Hc HM)) as [Hc' _].
  split_and!; [done| |intros h]; intros Hx.
  - by pose proof (Hc' n Free Dead Hx Hd).
  - by pose proof (Hc' n (Held h) Dead Hx Hd).
Qed.

(** The demo box after its action's memory was destroyed. *)
Definition demo_destroyed : Ledger := snd (retire_held io_ok "k1" {[ "mem_gb" := 2%Z ]} demo_taken).

Lemma destroyed_never_reminted_witness :
  "mem_gb-0001" ∈ l_dead (fst (ensure_capacity host_conf io_ok demo_capacity demo_destroyed))
  ∧ ("mem_gb-0001" ∉ l_free (fst (ensure_capacity host_conf io_ok demo_capacity demo_destroyed)))
  ∧ ∀ h, "mem_gb-0001" ∉ toks (fst (ensure_capacity host_conf io_ok demo_capacity demo_destroyed)) (Held h).
Proof.
  assert (custody demo_destroyed ∧ marked demo_destroyed) as [Hc HM].
  { apply (step_marked host_conf io_ok demo_taken); [done|apply s_retire_held|apply demo_taken_marked]. }
  apply (destroyed_never_reminted host_conf demo_destroyed).
  - exact Hc.
  - exact HM.
  - apply rtc_once. exists io_ok. split; [done|]. apply s_ensure.
  - apply (bool_decide_eq_true_1 ("mem_gb-0001" ∈ l_dead demo_destroyed)). by vm_compute.
Defined.

(** A file system on which unlinking one free token fails. *)
Definition io_stuck (n : string) : IO :=
  mkIO (λ _ _ _, None) (λ _ _, false) false (λ _, false) (λ _, false)
       (λ n', bool_decide (n' = n)) false (λ _, false) (λ _, false) (λ _, false).

(** One box, one unit: a retirement that drops the marker and fails to unlink
    the token, then the unit is claimed, destroyed, and declared again. *)
Definition stuck_history : Ledger :=
  let cap1 : gmap string Z := {[ "gpu" := 1%Z ]} in
  let L1 := fst (ensure_capacity host_conf io_ok cap1 empty_ledger) in
  let L2 := fst (retire_free_capacity (io_stuck "gpu-0000") 0 {[ "gpu" := 0%Z ]} L1) in
  let L3 := fst (acquire host_conf io_ok true No_gate demo_claimant "k1" cap1 L2) in
  let L4 := snd (retire_held io_ok "k1" cap1 L3) in
  fst (ensure_capacity host_conf io_ok cap1 L4).

(** The guarantee needs the retirement to complete.  When unlinking a free
    token fails after its marker was dropped, the name can later be destroyed
    and minted again, so one name is at once dead and free. *)
Theorem destroyed_name_reminted :
  "gpu-0000" ∈ l_dead stuck_history ∧ "gpu-0000" ∈ l_free stuck_history.
Proof.
  split.
  - apply (bool_decide_eq_true_1 ("gpu-0000" ∈ l_dead stuck_history)). by vm_compute.
  - apply (bool_decide_eq_true_1 ("gpu-0000" ∈ l_free stuck_history)). by vm_compute.
Qed.

(** An acquisition directory's name is read back exactly -- start time,
    host and pid -- for every host name, dotted ones included. *)
Theorem acquisition_handle_roundtrip c key :
  has_char dot key = false → cl_host c ≠ "" →
  String.length (cl_nonce c) = 8 → all_chars is_lower_hex (cl_nonce c) = true →
  _acquisition_handle_of (handle_for c key) key = Some (cl_usec c, cl_host c, cl_pid c).
Proof. intros. by apply handle_of_handle. Qed.

Lemma acquisition_handle_roundtrip_witness :
  _acquisition_handle_of (handle_for demo_claimant "k1") "k1" = Some (1000%N, "sparky.lan", 42%N).
Proof. apply (acquisition_handle_roundtrip demo_claimant "k1"); by vm_compute. Defined.
