(* ===== verification/Tier.v ===== *)
(** * Tier occupancy and its RAM host mirror

    [class TierLedger] of [src/prismabuild/tier_holdings.py]: a storage tier
    keeps its own capacity ledger, and a RAM tier mirrors every gigabyte a
    holder occupies into the host's memory ledger under [ram-host:<holder>].
    The state is the pair of ledgers; every operation is the composition of
    ledger operations the source makes, with its rollbacks. *)

From S2P Require Import Prelude.
From S2P Require Import TokenName.
From S2P Require Import Ledger.
From stdpp Require Import options.

(** ** Names ([src/prismabuild/storage_tiers.py]) *)

Definition STAGE_POOL_PREFIX : string := "prismabuild-stage".
Definition RAM_TIER_PREFIX : string := "ram:".
Definition RAM_HOST_MEMORY_PREFIX : string := "ram-host:".
Definition RAM_CAPACITY_KIND : string := "ram_gib".
Definition FILL_KIND : string := "fill_mb_s_pool_side".
Definition RATE_KINDS : gset string := {[ FILL_KIND ]}.

Inductive TierKind := Stage | Ram | Arc.

#[export] Instance TierKind_eq_dec : EqDecision TierKind.
Proof. solve_decision. Defined.

(** The kind is read off the tier id. *)
Definition tier_kind_of (tier_id : string) : TierKind :=
  if starts_with STAGE_POOL_PREFIX tier_id then Stage
  else if starts_with RAM_TIER_PREFIX tier_id then Ram
  else Arc.

Definition mirror_of (holder : string) : string := RAM_HOST_MEMORY_PREFIX +:+ holder.

(** ** State and surroundings *)

(** The tier's ledger and the memory ledger of the box a RAM tier is on. *)
Record Tier := mkTier { t_tier : Ledger; t_host : Ledger }.

Definition set_tier (L : Ledger) (T : Tier) : Tier := mkTier L (t_host T).
Definition set_host (L : Ledger) (T : Tier) : Tier := mkTier (t_tier T) L.

(** What surrounds one call: the tier id, what each file system refuses,
    whether the tier's mint lock is free, the host floor's answer, the stamp
    of each acquisition, and which listings fail. *)
Record TEnv := mkTEnv {
  te_id : string;
  te_tier : IO;
  te_host : IO;
  te_lock_free : bool;
  te_floor : floor_gate;
  te_host_floor : floor_gate;
  te_claimant : string → Claimant;
  te_list_tier : bool;             (* [held/] of the tier cannot be listed *)
  te_list_host : bool;             (* [held/] of the host cannot be listed *)
  te_unlink_dead : string → bool;  (* unlinking [minted/dead/<name>] fails *)
  te_now : Z }.

Definition is_ram (V : TEnv) : bool := bool_decide (tier_kind_of (te_id V) = Ram).

(** The names of one holder that are tokens of [kind]. *)
Definition kind_in (kind : string) (X : gset string) : nat :=
  size (filter (λ n, kind_of n = kind) (glob_tokens X)).

(** [holder_state]: the strict listing of one holder; [None] when it cannot
    be read, empty when it is absent. *)
Definition holder_state (E : IO) (holder : string) (L : Ledger) : option (gset string) :=
  if io_unreadable E RCensus holder then None else Some (glob_tokens (toks L (Held holder))).

(** ** Taking, with an exact rollback *)

(** Return exactly the named tokens; a refused rename leaves its token. *)
Definition _return_taken (E : IO) (holder : string) (names : list string) (L : Ledger)
  : nat * Ledger :=
  let '(m, _, L1) := move_loop E (Held holder) Free no_skip None names L in
  (length m, _drop_empty_holder E holder L1).

(** One all-or-nothing take on either ledger: whether it was taken, and the
    names it moved. *)
Definition _take_from (cf : Conf) (E : IO) (lock_free : bool) (floor : floor_gate) (c : Claimant)
    (holder : string) (demand : gmap string Z) (L : Ledger) : Ledger * res (bool * list string) :=
  if c_guarded cf && negb lock_free then (L, Ok (false, []))
  else
    match begin_acquire E true floor c holder demand None None None L with
    | (L1, Raise e) => (L1, Raise e)
    | (L1, Ok None) => (L1, Ok (false, []))
    | (L1, Ok (Some handle)) =>
        let wanted := sum_list_with (λ kv, Z.to_nat kv.2) (sorted_items (wanted_of demand)) in
        match commit_acquire E holder handle L1 with
        | (L2, names, Raise e) =>
            let '(L3, _) := abandon_acquire E handle L2 in
            (snd (_return_taken E holder names L3), Raise e)
        | (L2, names, Ok moved) =>
            if bool_decide (moved < wanted) then
              match abandon_acquire E handle L2 with
              | (L3, Raise e) => (L3, Raise e)
              | (L3, Ok _) => (snd (_return_taken E holder names L3), Ok (false, []))
              end
            else (L2, Ok (true, names))
        end
    end.

Inductive HoldState := Taken | Short | Unknown.

#[export] Instance HoldState_eq_dec : EqDecision HoldState.
Proof. solve_decision. Defined.

(** Take the host half of an occupancy; a raised error reads as unknown. *)
Definition _hold_host (V : TEnv) (grant : string) (gib : Z) (T : Tier)
  : HoldState * list string * Tier :=
  match _take_from host_conf (te_host V) true (te_host_floor V) (te_claimant V (mirror_of grant))
          (mirror_of grant) {[ "mem_gb" := gib ]} (t_host T) with
  | (H1, Raise _) => (Unknown, [], set_host H1 T)
  | (H1, Ok (true, names)) => (Taken, names, set_host H1 T)
  | (H1, Ok (false, _)) => (Short, [], set_host H1 T)
  end.

Definition _rollback_host_take (V : TEnv) (grant : string) (names : list string) (T : Tier) : Tier :=
  set_host (snd (_return_taken (te_host V) (mirror_of grant) names (t_host T))) T.

Definition hold_reason (s : HoldState) : string :=
  match s with Taken => "ram_host_taken" | Short => "ram_host_short" | Unknown => "ram_host_unknown" end.

(** Host first, tier second; whatever stops the tier returns the host half. *)
Definition tier_take (V : TEnv) (holder : string) (demand : gmap string Z) (T : Tier)
  : Tier * res bool :=
  let gib := if is_ram V then default 0%Z (demand !! RAM_CAPACITY_KIND) else 0%Z in
  let host :=
    if bool_decide (0 < gib)%Z then _hold_host V holder gib T else (Taken, [], T) in
  let '(state, host_take, T1) := host in
  if negb (bool_decide (state = Taken)) then
    (set_tier (set_shortage (Some (mkShortage "mem_gb" gib
        (if bool_decide (state = Unknown) then None else Some 0%Z) (Some (hold_reason state))))
        (t_tier T1)) T1, Ok false)
  else
    match _take_from tier_conf (te_tier V) (te_lock_free V) (te_floor V) (te_claimant V holder)
            holder demand (t_tier T1) with
    | (L1, Raise e) =>
        let T2 := set_tier L1 T1 in
        (if bool_decide (0 < gib)%Z then _rollback_host_take V holder host_take T2 else T2, Raise e)
    | (L1, Ok (taken, _)) =>
        let T2 := set_tier L1 T1 in
        (if negb taken && bool_decide (0 < gib)%Z
         then _rollback_host_take V holder host_take T2 else T2, Ok taken)
    end.

Inductive Advance := Advance_taken | Advance_unknown | Host_short | Tier_short.

(** Host first, tier second; unknown always defers the advance. *)
Definition take_advance (V : TEnv) (grant : string) (gib : Z) (kind : string) (T : Tier)
  : Tier * res Advance :=
  if bool_decide (kind ∈ RATE_KINDS) then (T, Raise (PoolContractError "rate kind"))
  else
    let ram := is_ram V in
    let '(state, host_take, T1) :=
      if ram then _hold_host V grant gib T else (Taken, [], T) in
    match state with
    | Unknown => (T1, Ok Advance_unknown)
    | Short => (T1, Ok Host_short)
    | Taken =>
        match _take_from tier_conf (te_tier V) (te_lock_free V) (te_floor V) (te_claimant V grant)
                grant {[ kind := gib ]} (t_tier T1) with
        | (L1, Raise _) =>
            let T2 := set_tier L1 T1 in
            (if ram then _rollback_host_take V grant host_take T2 else T2, Ok Advance_unknown)
        | (L1, Ok (false, _)) =>
            let T2 := set_tier L1 T1 in
            (if ram then _rollback_host_take V grant host_take T2 else T2, Ok Tier_short)
        | (L1, Ok (true, _)) => (set_tier L1 T1, Ok Advance_taken)
        end
    end.

(** ** Releasing, and trimming the mirror to what is still occupied *)

(** An unreadable tier retains its host half. *)
Definition _trim_host_to_occupancy (V : TEnv) (holder : string) (T : Tier) : nat * Tier :=
  match holder_state (te_tier V) holder (t_tier T) with
  | None => (0, T)
  | Some names =>
      let target := kind_in RAM_CAPACITY_KIND names in
      let mirror := mirror_of holder in
      let current := default 0 (holder_tokens mirror (t_host T) !! "mem_gb") in
      if bool_decide (current ≤ target) then (0, T)
      else
        let '(returned, H1) :=
          release_count (te_host V) mirror {[ "mem_gb" := Z.of_nat (current - target) ]} (t_host T) in
        (default 0 (returned !! "mem_gb"), set_host H1 T)
  end.

Definition trim_if_ram (V : TEnv) (holder : string) (T : Tier) : Tier :=
  if is_ram V then snd (_trim_host_to_occupancy V holder T) else T.

(** The consumer's positive authority for returning unused capacity. *)
Inductive Unspent :=
  | NEVER_STARTED | UNUSED_GRANT | CLAIM_ROLLBACK | CONCLUDED_UNPINNED | OLD_RAM_EPOCH.

(** Which part [release_unspent] returns: all, all but [keep], or counts. *)
Inductive Part := Whole | Keep (keep : gset string) | Counts (counts : gmap string Z).

Inductive Released := Number (n : nat) | Per_kind (m : gmap string nat).

Definition release_unspent (V : TEnv) (holder : string) (authority : Unspent) (part : Part) (T : Tier)
  : Tier * res Released :=
  match part with
  | Counts counts =>
      let '(m, L1) := release_count (te_tier V) holder counts (t_tier T) in
      (trim_if_ram V holder (set_tier L1 T), Ok (Per_kind m))
  | Keep keep =>
      let '(n, L1) := release_except (te_tier V) holder keep (t_tier T) in
      (trim_if_ram V holder (set_tier L1 T), Ok (Number n))
  | Whole =>
      match release (te_tier V) holder (t_tier T) with
      | (L1, Raise e) => (set_tier L1 T, Raise e)
      | (L1, Ok n) => (trim_if_ram V holder (set_tier L1 T), Ok (Number n))
      end
  end.

(** Return a whole holder after the consumer proves physical egress. *)
Definition egress (V : TEnv) (holder : string) (T : Tier) : Tier * res nat :=
  match release (te_tier V) holder (t_tier T) with
  | (L1, Raise e) => (set_tier L1 T, Raise e)
  | (L1, Ok n) => (trim_if_ram V holder (set_tier L1 T), Ok n)
  end.

(** The same with every error read as nothing released. *)
Definition _release_best_effort (V : TEnv) (holder : string) (T : Tier) : nat * Tier :=
  match release (te_tier V) holder (t_tier T) with
  | (L1, Raise _) => (0, trim_if_ram V holder (set_tier L1 T))
  | (L1, Ok n) => (n, trim_if_ram V holder (set_tier L1 T))
  end.

(** Only [OSError] and [ValueError] read as nothing released. *)
Definition cancel_fence (V : TEnv) (holder : string) (T : Tier) : Tier * res nat :=
  match release (te_tier V) holder (t_tier T) with
  | (L1, Raise (PoolContractError w)) => (set_tier L1 T, Raise (PoolContractError w))
  | (L1, Raise _) => (trim_if_ram V holder (set_tier L1 T), Ok 0)
  | (L1, Ok n) => (trim_if_ram V holder (set_tier L1 T), Ok n)
  end.

Definition release_rates (V : TEnv) (holder : string) (T : Tier) : nat * Tier :=
  let '(n, L1) := release_kinds (te_tier V) holder RATE_KINDS (t_tier T) in (n, set_tier L1 T).

(** Settle proven egress, destroying duplicates before returns. *)
Definition settle_egress (V : TEnv) (key : string) (destroy free : gmap string Z) (T : Tier)
  : gmap string nat * gmap string nat * gmap string Z * Tier :=
  let '(destroyed, L1) := retire_held (te_tier V) key destroy (t_tier T) in
  let shortfall :=
    filter (λ kv, 0 < kv.2)%Z
      (map_imap (λ k c, Some (c - Z.of_nat (default 0%nat (destroyed !! k)))%Z) destroy) in
  let '(released, L2) := release_count (te_tier V) key free L1 in
  (destroyed, released, shortfall, trim_if_ram V key (set_tier L2 T)).

(** ** Handing over *)

(** What a caller is told when the host half could not follow. *)
Inductive Fault := Host_transfer_failed (from to : string).

(** Tier first, host second; a failed host half is a named fault. *)
Definition handover (V : TEnv) (from to : string) (T : Tier) : Tier * res nat * list Fault :=
  match transfer (te_tier V) from to (t_tier T) with
  | (L1, Raise e) => (set_tier L1 T, Raise e, [])
  | (L1, Ok moved) =>
      let T1 := set_tier L1 T in
      if is_ram V then
        match transfer (te_host V) (mirror_of from) (mirror_of to) (t_host T1) with
        | (H1, Ok _) => (set_host H1 T1, Ok moved, [])
        | (H1, Raise _) => (set_host H1 T1, Ok moved, [Host_transfer_failed from to])
        end
      else (T1, Ok moved, [])
  end.

Definition handover_count (V : TEnv) (from to : string) (count : Z) (T : Tier)
  : Tier * res nat * list Fault :=
  match transfer_count (te_tier V) from to count (t_tier T) with
  | (L1, Raise e) => (set_tier L1 T, Raise e, [])
  | (L1, Ok moved) =>
      let T1 := set_tier L1 T in
      if is_ram V then
        match transfer_count (te_host V) (mirror_of from) (mirror_of to) (Z.of_nat moved) (t_host T1) with
        | (H1, Ok _) => (set_host H1 T1, Ok moved, [])
        | (H1, Raise _) => (set_host H1 T1, Ok moved, [Host_transfer_failed from to])
        end
      else (T1, Ok moved, [])
  end.

Definition handover_named (V : TEnv) (from to : string) (names : list string) (T : Tier)
  : Tier * res nat * list Fault :=
  match transfer_tokens (te_tier V) from to names (t_tier T) with
  | (L1, Raise e) => (set_tier L1 T, Raise e, [])
  | (L1, Ok (moved, actual)) =>
      let T1 := set_tier L1 T in
      let occupancy := length (filter (λ n, kind_of n = RAM_CAPACITY_KIND) actual) in
      if is_ram V && negb (bool_decide (occupancy = 0)) then
        match transfer_count (te_host V) (mirror_of from) (mirror_of to) (Z.of_nat occupancy) (t_host T1) with
        | (H1, Ok _) => (set_host H1 T1, Ok moved, [])
        | (H1, Raise _) => (set_host H1 T1, Ok moved, [Host_transfer_failed from to])
        end
      else (T1, Ok moved, [])
  end.

(** ** Reconciling the mirror *)

Inductive Event :=
  | Hold_missing (mirror : string) (gib : nat)
  | Hold_trimmed (mirror : string) (released : nat)
  | Orphan_hold (mirror : string) (released : nat).

(** Bring one mirror to [target]: whether it is there, and what to report. *)
Definition _sync_host_mirror (V : TEnv) (holder : string) (target : nat) (H : Ledger)
  : bool * option Event * Ledger :=
  let mirror := mirror_of holder in
  match holder_state (te_host V) mirror H with
  | None => (false, None, H)
  | Some names =>
      let current := kind_in "mem_gb" names in
      if bool_decide (current = target) then (true, None, H)
      else if bool_decide (current < target) then
        match _take_from host_conf (te_host V) true (te_host_floor V) (te_claimant V mirror) mirror
                {[ "mem_gb" := Z.of_nat (target - current) ]} H with
        | (H1, Ok (true, _)) => (true, None, H1)
        | (H1, _) => (false, Some (Hold_missing mirror target), H1)
        end
      else
        let '(counts, H1) :=
          release_count (te_host V) mirror {[ "mem_gb" := Z.of_nat (current - target) ]} H in
        let released := default 0 (counts !! "mem_gb") in
        if bool_decide (released = 0) then (false, None, H1)
        else (bool_decide (released = current - target), Some (Hold_trimmed mirror released), H1)
  end.

(** The first pass: every live tier holder's mirror. *)
Fixpoint sync_all (V : TEnv) (L : Ledger) (holders : list string) (H : Ledger)
  : list Event * bool * Ledger :=
  match holders with
  | [] => ([], true, H)
  | h :: hs =>
      match holder_state (te_tier V) h L with
      | None => let '(ev, _, H1) := sync_all V L hs H in (ev, false, H1)
      | Some names =>
          let '(synced, e, H1) := _sync_host_mirror V h (kind_in RAM_CAPACITY_KIND names) H in
          let '(ev, c, H2) := sync_all V L hs H1 in
          (match e with Some x => x :: ev | None => ev end, synced && c, H2)
      end
  end.

(** [holder[len(prefix):]] of a mirror name. *)
Definition mirrored_holder (name : string) : option string :=
  if starts_with RAM_HOST_MEMORY_PREFIX name
  then Some (String.substring 9 (String.length name - 9) name) else None.

(** The second pass: mirrors no live or expected holder owns. *)
Fixpoint release_orphans_of (V : TEnv) (live expected : gset string) (mirrors : list string) (H : Ledger)
  : list Event * bool * Ledger :=
  match mirrors with
  | [] => ([], true, H)
  | m :: ms =>
      match mirrored_holder m with
      | None => release_orphans_of V live expected ms H
      | Some suffix =>
          if bool_decide (suffix ∈ live) || bool_decide (suffix ∈ expected)
          then release_orphans_of V live expected ms H
          else
            match holder_state (te_host V) m H with
            | None => let '(ev, _, H1) := release_orphans_of V live expected ms H in (ev, false, H1)
            | Some tokens =>
                match release (te_host V) m H with
                | (H1, Raise _) =>
                    let '(ev, _, H2) := release_orphans_of V live expected ms H1 in (ev, false, H2)
                | (H1, Ok released) =>
                    let '(ev, c, H2) := release_orphans_of V live expected ms H1 in
                    (if bool_decide (released = 0) then ev else Orphan_hold m released :: ev,
                     bool_decide (released = size tokens) && c, H2)
                end
            end
      end
  end.

Definition reconcile_mirror (V : TEnv) (expected : gset string) (release_orphans : bool) (T : Tier)
  : list Event * bool * Tier :=
  if negb (is_ram V) then ([], true, T)
  else if te_list_tier V || te_list_host V then ([], false, T)
  else
    let live := held_keys (t_tier T) in
    let mirrors := held_keys (t_host T) in
    let '(ev1, c1, H1) := sync_all V (t_tier T) live (t_host T) in
    if negb release_orphans then (ev1, c1, set_host H1 T)
    else
      let '(ev2, c2, H2) := release_orphans_of V (list_to_set live) expected mirrors H1 in
      (ev1 ++ ev2, c1 && c2, set_host H2 T).

(** ** Minting *)

(** [live_count[kind]] over a set of names. *)
Definition count_by_kind (X : gset string) : gmap string nat := tally (elements X) ∅.

(** [name.rpartition("-")[0]]: the kind a destroyed name is reclaimed under,
    empty for a name without a dash. *)
Definition dead_kind (n : string) : string :=
  match rsplit_once dash n with Some (k, _) => k | None => "" end.

(** One destroyed name at a time, in order: drop a stale record, or reissue
    the name while its kind is short. *)
Fixpoint reclaim_loop (E : IO) (unlink_dead : string → bool) (wanted : gmap string Z)
    (names : list string) (live : gset string) (counts reclaimed : gmap string nat) (L : Ledger)
  : gmap string nat * Ledger :=
  match names with
  | [] => (reclaimed, L)
  | n :: ns =>
      let kind := dead_kind n in
      match (if bool_decide (kind = "") then None else wanted !! kind) with
      | None => reclaim_loop E unlink_dead wanted ns live counts reclaimed L
      | Some w =>
          if bool_decide (n ∈ live) then
            reclaim_loop E unlink_dead wanted ns live counts reclaimed
              (if unlink_dead n then L else set_dead (l_dead L ∖ {[n]}) L)
          else if bool_decide (w ≤ Z.of_nat (default 0%nat (counts !! kind)))%Z then
            reclaim_loop E unlink_dead wanted ns live counts reclaimed L
          else
            match rename E Dead Free n L with
            | (Some _, L1) => reclaim_loop E unlink_dead wanted ns live counts reclaimed L1
            | (None, L1) =>
                reclaim_loop E unlink_dead wanted ns ({[n]} ∪ live) (bump kind counts)
                  (bump kind reclaimed) L1
            end
      end
  end.

(** Reissue destroyed names up to the wanted totals; any unreadable place
    means no reissue. *)
Definition _reclaim_mint (V : TEnv) (wanted : gmap string Z) (L : Ledger) : gmap string nat * Ledger :=
  if io_markers (te_tier V) then (∅, L)
  else
    let names := listing (l_dead L) in
    if bool_decide (names = []) then (∅, L)
    else
      match present_tokens tier_conf (te_tier V) L with
      | None => (∅, L)
      | Some live =>
          reclaim_loop (te_tier V) (te_unlink_dead V) wanted names live (count_by_kind live) ∅ L
      end.

Record MintResult := mkMintResult {
  mr_capacity : gmap string nat;
  mr_retired : gmap string nat;
  mr_reclaimed : gmap string nat;
  mr_census : option CensusReport }.

(** Which kinds to lower, and to what. *)
Definition lower_of (wanted : gmap string Z) (total : gmap string nat) (unreadable : list string)
  : gmap string Z :=
  let target k := default 0%Z (wanted !! k) in
  if bool_decide (unreadable = []) then
    map_imap (λ k t, if bool_decide (target k < Z.of_nat t)%Z then Some (target k) else None) total
  else set_to_map (λ k, (k, target k)) (dom total ∪ dom wanted : gset string).

(** Reclaim, grow, then lower. *)
Definition _apply_mint (V : TEnv) (wanted : gmap string Z) (L : Ledger) : Ledger * res MintResult :=
  let E := te_tier V in
  let '(reclaimed, L1) := _reclaim_mint V wanted L in
  match ensure_capacity tier_conf E (wanted_of wanted) L1 with
  | (L2, Raise e) => (L2, Raise e)
  | (L2, Ok _) =>
      let '(total, unreadable) := capacity_census E L2 in
      let lower := lower_of wanted total unreadable in
      if bool_decide (lower = ∅) then
        let '(census, L3) := report_census (te_now V) unreadable [] ∅ L2 in
        (L3, Ok (mkMintResult (capacity E L3) ∅ reclaimed census))
      else
        match retire_free_capacity E (te_now V) lower L2 with
        | (L3, Raise e) => (L3, Raise e)
        | (L3, Ok retired) => (L3, Ok (mkMintResult (capacity E L3) retired reclaimed (l_report L3)))
        end
  end.

(** The whole mint, under the tier's mint lock. *)
Definition mint (V : TEnv) (tokens : gmap string Z) (T : Tier) : Tier * res MintResult :=
  if bool_decide (map_Exists (λ _ c, c < 0)%Z tokens)
  then (T, Raise (PoolContractError "tier capacity must not be negative"))
  else let '(L1, r) := _apply_mint V tokens (t_tier T) in (set_tier L1 T, r).
