(* ===== verification/TierFacts.v ===== *)
(** * What the ledger's calls leave alone, and the exact take

    Each call on a holder touches that holder's directory only; the take of
    [TierLedger._take_from] either moves exactly its demand or puts every
    token back. *)

From S2P Require Import Prelude.
From S2P Require Import TokenName.
From S2P Require Import Ledger.
From S2P Require Import LedgerFacts.
From S2P Require Import LedgerEffects.
From S2P Require Import LedgerInv.
From S2P Require Import LedgerCount.
From S2P Require Import Tier.
From stdpp Require Import options.

(** ** Locality *)

(** Only the holder directories in [S] may differ. *)
Definition frame (S : list string) (L L' : Ledger) : Prop :=
  ∀ h, h ∉ S → l_held L' !! h = l_held L !! h.

#[export] Instance frame_preorder S : PreOrder (frame S).
Proof.
  split; [by intros L h|]. intros L1 L2 L3 H1 H2 h Hh. by rewrite H2, H1.
Qed.

Lemma frame_mono S S' L L' : S ⊆ S' → frame S L L' → frame S' L L'.
Proof. intros HS Hf h Hh. apply Hf. set_solver. Qed.

Lemma frame_toks S L L' h : frame S L L' → h ∉ S → toks L' (Held h) = toks L (Held h).
Proof. intros Hf Hh. unfold toks. by rewrite Hf. Qed.

(** The holder directory a place belongs to. *)
Definition dir_of (p : place) : list string := match p with Held h => [h] | _ => [] end.

Lemma put_frame p X L : frame (dir_of p) L (put p X L).
Proof.
  intros h Hh. destruct p as [|h'|]; simpl in *; [done| |done].
  rewrite lookup_insert_ne; [done|]. set_solver.
Qed.

Lemma rename_frame E p q n L e L' :
  rename E p q n L = (e, L') → frame (dir_of p ++ dir_of q) L L'.
Proof.
  unfold rename. destruct (io_rename E p q n); [by intros [= _ <-]|].
  case_bool_decide; intros [= _ <-]; [|done].
  etrans; (eapply frame_mono; [|apply put_frame]); set_solver.
Qed.

Lemma move_loop_frame E p q skip limit ns L m f L' :
  move_loop E p q skip limit ns L = (m, f, L') → frame (dir_of p ++ dir_of q) L L'.
Proof.
  revert limit L m f. induction ns as [|n ns IH]; intros limit L m f; simpl.
  { by intros [= _ _ <-]. }
  case_bool_decide; [by intros [= _ _ <-]|].
  destruct (skip L n); [apply IH|].
  destruct (rename E p q n L) as [[e|] L1] eqn:Hr; apply rename_frame in Hr.
  - destruct (move_loop E p q skip limit ns L1) as [[m1 f1] L2] eqn:Hl. intros [= _ _ <-].
    etrans; [done|by eapply IH].
  - destruct (move_loop E p q skip (pred <$> limit) ns L1) as [[m1 f1] L2] eqn:Hl.
    intros [= _ _ <-]. etrans; [done|by eapply IH].
Qed.

Lemma mkdir_frame h L : frame [h] L (mkdir h L).
Proof.
  intros h' Hh. unfold mkdir. destruct (l_held L !! h); [done|]. simpl.
  rewrite lookup_insert_ne; [done|]. set_solver.
Qed.

Lemma rmdir_frame E h L : frame [h] L (rmdir E h L).
Proof.
  intros h' Hh. unfold rmdir. destruct (l_held L !! h) as [[X [] []]|]; try done.
  destruct (bool_decide (X = ∅) && negb (io_rmdir E h)); [|done]. simpl.
  rewrite lookup_delete_ne; [done|]. set_solver.
Qed.

Lemma insert_frame h H L : frame [h] L (set_held (<[h := H]> (l_held L)) L).
Proof. intros h' Hh. simpl. rewrite lookup_insert_ne; [done|]. set_solver. Qed.

Lemma drop_empty_holder_frame E h L : frame [h] L (_drop_empty_holder E h L).
Proof.
  unfold _drop_empty_holder. destruct (l_held L !! h); [|done].
  case_bool_decide; [|done]. destruct (io_unlink_meta E h); [done|].
  etrans; [apply insert_frame|apply rmdir_frame].
Qed.

Lemma empty_into_free_frame E h L L' r :
  _empty_into_free E h L = (L', r) → frame [h] L L'.
Proof.
  unfold _empty_into_free. destruct (is_dir h L); cbn [negb]; [|by intros [= <- _]].
  destruct (move_loop _ _ _ _ _ _ _) as [[m f] L1] eqn:Hm. apply move_loop_frame in Hm. simpl in Hm.
  destruct f; [by intros [= <- _]|].
  destruct (l_held L1 !! h) as [H|]; [|by intros [= <- _]].
  case_if; intros [= <- _]; [done|].
  etrans; [done|]. etrans; [apply insert_frame|apply rmdir_frame].
Qed.

Lemma per_kind_frame S f counts done L d L' :
  (∀ kind want L c L', f kind want L = (c, L') → frame S L L') →
  per_kind f counts done L = (d, L') → frame S L L'.
Proof.
  intros Hf. revert done L d. induction counts as [|[kind c] counts IH]; intros done L d; simpl.
  - by intros [= _ <-].
  - case_bool_decide; [apply IH|].
    destruct (f kind (Z.to_nat c) L) as [c' L1] eqn:HL. intros H'.
    etrans; [by eapply Hf|by eapply IH].
Qed.

Lemma release_count_frame E k counts L d L' :
  release_count E k counts L = (d, L') → frame [k] L L'.
Proof.
  unfold release_count. destruct (is_dir k L); cbn [negb]; [|by intros [= _ <-]].
  destruct (per_kind _ _ _ _) as [d1 L1] eqn:Hk. intros [= _ <-].
  etrans; [|apply drop_empty_holder_frame].
  eapply per_kind_frame; [|exact Hk]. clear. intros kind want L c L' H. cbn beta in H.
  destruct (move_loop _ _ _ _ _ _ _) as [[m f] L1] eqn:Hm. simplify_eq. by apply move_loop_frame in Hm.
Qed.

Lemma take_loop_frame E h need ns L t r L' :
  take_loop E h need ns L = (t, r, L') → frame [h] L L'.
Proof.
  revert need L t. induction ns as [|n ns IH]; intros need L t; simpl; [by intros [= _ _ <-]|].
  case_bool_decide; [by intros [= _ _ <-]|].
  destruct (rename E Free (Held h) n L) as [[[]|] L1] eqn:Hr; apply rename_frame in Hr; simpl in Hr.
  - intros Ht. etrans; [done|by eapply IH].
  - by intros [= _ _ <-].
  - destruct (take_loop E h (need - 1) ns L1) as [[t' r'] L2] eqn:Ht. intros [= _ <- <-].
    etrans; [done|by eapply IH].
Qed.

Lemma take_kinds_frame E h ad ti g ws L a L' :
  take_kinds E h ad ti g ws L = (a, L') → frame [h] L L'.
Proof.
  revert L. induction ws as [|[kind v] ws IH]; intros L; simpl; [by intros [= _ <-]|].
  destruct (if bool_decide (kind = "cpu") then _ else _) as [ns|e]; [|by intros [= _ <-]].
  destruct (take_loop E h _ _ L) as [[t r] L1] eqn:Ht. apply take_loop_frame in Ht.
  destruct r; [|by intros [= _ <-]].
  case_if; [by intros [= _ <-]|]. intros H'. etrans; [done|by apply IH].
Qed.

(** A begin without adaptive decisions touches its private directory only. *)
Lemma begin_frame E lf fl c k d L L' r :
  begin_acquire E lf fl c k d None None None L = (L', r) → frame [handle_for c k] L L'.
Proof.
  assert (∀ lf, _begin_acquire_locked E lf c k d None None None L = (L', r) →
                frame [handle_for c k] L L') as Hlock.
  { intros lf'. unfold _begin_acquire_locked. destruct lf'; cbn [negb]; [|by intros [= <- _]].
    case_if; [by intros [= <- _]|].
    destruct (acquire_attempt _ _ _ _ _ _ _) as [a L2] eqn:Ha.
    assert (frame [handle_for c k] L L2) as H2.
    { unfold acquire_attempt in Ha. destruct (take_kinds _ _ _ _ _ _ _) as [a3 L3] eqn:Ht.
      apply take_kinds_frame in Ht. etrans; [apply (mkdir_frame (handle_for c k) (set_shortage None L))|].
      by destruct a3; simplify_eq/=. }
    destruct a; [by intros [= <- _]|..];
      destruct (_empty_into_free E (handle_for c k) L2) as [L3 r3] eqn:He;
      apply empty_into_free_frame in He; destruct r3; intros [= <- _]; by etrans. }
  unfold begin_acquire. destruct fl; [apply Hlock|by intros [= <- _]|].
  case_if; [by intros [= <- _]|]. case_if; [by intros [= <- _]|]. apply Hlock.
Qed.

(** ** Begin and commit, whatever the file system refuses *)

Lemma fresh_no_meta h L : l_held L !! h = None → cpu_meta h L = None ∧ gpu_meta h L = None.
Proof. unfold cpu_meta, gpu_meta. by intros ->. Qed.

Lemma begin_refused E lf fl c k d L L' r :
  l_held L !! handle_for c k = None →
  (∀ n, io_rename E (Held (handle_for c k)) Free n = None) →
  begin_acquire E lf fl c k d None None None L = (L', r) →
  (∀ h, r ≠ Ok (Some h)) → same_toks L L'.
Proof.
  intros Hf HE. unfold begin_acquire. destruct fl as [| |adm rsv s].
  - by apply begin_locked_refused.
  - intros [= <- _] _. apply set_shortage_same.
  - case_if; [intros [= <- _] _; apply set_shortage_same|].
    case_if; [intros [= <- _] _; apply set_shortage_same|]. by apply begin_locked_refused.
Qed.

(** A begin that returns a handle holds exactly the demand under it. *)
Lemma begin_locked_done E lf c k d L L1 hh :
  _begin_acquire_locked E lf c k d None None None L = (L1, Ok (Some hh)) → plain (l_free L) →
  hh = handle_for c k ∧ same_meta L L1
  ∧ ∃ X, moves Free (Held hh) X L L1 ∧ (∀ kind, count_of kind X = demand_of d kind)
         ∧ size X = asked_total (sorted_items (wanted_of d)).
Proof.
  unfold _begin_acquire_locked. destruct lf; cbn [negb]; [|done]. intros Hb Hpl.
  rewrite andb_true_r in Hb. case_bool_decide as Hw.
  { simplify_eq. split_and!; [done|done|]. exists ∅. split_and!.
    - eapply moves_same_r; [apply moves_refl|apply set_shortage_same].
    - intros kind. unfold demand_of. rewrite <- asked_sorted, Hw. done.
    - by rewrite Hw. }
  destruct (acquire_attempt _ _ _ _ _ _ _) as [a L2] eqn:Ha.
  destruct a; [|by destruct (_empty_into_free _ _ _) as [? []]..]. simplify_eq. split; [done|].
  unfold acquire_attempt in Ha. destruct (take_kinds _ _ _ _ _ _ _) as [a1 L2] eqn:Ht.
  destruct a1; [|done..]. simpl in Ha. simplify_eq.
  assert (same_toks L (mkdir (handle_for c k) (set_shortage None L))) as HS
    by (etrans; [apply set_shortage_same|apply mkdir_same]).
  pose proof (proj1 HS Free : l_free _ = l_free _) as Hfr.
  pose proof (take_kinds_same_meta _ _ _ _ _ _ _ _ _ Ht) as Hmeta.
  destruct (take_kinds_done _ _ _ _ _ Ht) as (X & HX & Hcnt & Hsz);
    [apply sorted_items_NoDup|apply all_pos_wanted|by rewrite Hfr|]. split.
  - etrans; [|exact Hmeta]. intros h'. apply (mkdir_meta h' _ (set_shortage None L)).
  - exists X. split_and!; [by eapply moves_same_l| |done]. intros kind. by rewrite Hcnt, asked_sorted.
Qed.

Lemma begin_done E lf fl c k d L L1 hh :
  begin_acquire E lf fl c k d None None None L = (L1, Ok (Some hh)) → plain (l_free L) →
  hh = handle_for c k ∧ same_meta L L1
  ∧ ∃ X, moves Free (Held hh) X L L1 ∧ (∀ kind, count_of kind X = demand_of d kind)
         ∧ size X = asked_total (sorted_items (wanted_of d)).
Proof.
  unfold begin_acquire. destruct fl; [apply begin_locked_done|done|].
  case_if; [done|]. case_if; [done|]. apply begin_locked_done.
Qed.

(** What a commit moved, and that it touched nothing else. *)
Lemma commit_some E k h L c m L' :
  h ≠ k → cpu_meta h L = None → gpu_meta h L = None →
  commit_acquire E k h L = (L', m, c) →
  (∀ n, c = Ok n → n = length m) ∧ NoDup m ∧ moves (Held h) (Held k) (list_to_set m) L L' ∧ frame [k; h] L L'.
Proof.
  intros Hne Hmc Hmg. unfold commit_acquire. destruct (is_dir h L) eqn:Hd; cbn [negb].
  2: { intros [= <- <- <-]. split_and!; [by intros n [= <-]|constructor|apply moves_refl|done]. }
  case_if; [intros [= <- <- <-]; split_and!; [done|constructor|apply moves_refl|done]|]. cbv zeta.
  case_if.
  { intros [= <- <- <-]. split_and!; [done|constructor| |apply (frame_mono [k]); [set_solver|apply mkdir_frame]].
    eapply moves_same_r; [apply moves_refl|apply mkdir_same]. }
  destruct (mkdir_meta h k L) as [M1 M2].
  destruct (no_meta_moves E h k (mkdir k L)) as [-> ->]; [by rewrite M1|by rewrite M2|].
  rewrite M1, M2, Hmc, Hmg. cbn [unread_sidecar andb bool_decide].
  destruct (move_loop _ _ _ _ _ _ _) as [[m' f] L3] eqn:Hm. intros [= <- <- <-].
  pose proof (move_loop_frame _ _ _ _ _ _ _ _ _ _ Hm) as Hfr.
  apply move_loop_moves in Hm as [Hm Hsub]; [|congruence|apply NoDup_listing].
  split_and!; [by intros n [= <-]| | |].
  - eapply sublist_NoDup; [apply NoDup_listing|exact Hsub].
  - eapply moves_same_r; [|apply rmdir_same]. eapply moves_same_l; [apply mkdir_same|done].
  - etrans; [apply (frame_mono [k]); [set_solver|apply mkdir_frame]|].
    etrans; [apply (frame_mono [h; k]); [set_solver|exact Hfr]|].
    apply (frame_mono [h]); [set_solver|apply rmdir_frame].
Qed.

(** Tokens moved through an empty middle place. *)
Lemma moves_via a b c X L L1 L2 :
  a ≠ b → b ≠ c → a ≠ c → toks L b = ∅ → moves a b X L L1 → moves b c X L1 L2 → moves a c X L L2.
Proof.
  intros Hab Hbc Hac Hb (H1 & H2 & H3 & H4 & H5) (K1 & K2 & K3 & K4 & K5).
  split_and!; [done| | | |congruence].
  - rewrite K4 by done. done.
  - rewrite K3, H4 by done. done.
  - intros p Hp Hq. destruct (decide (p = b)) as [->|]; [|by rewrite K4, H4].
    rewrite K2, H3, Hb. set_solver.
Qed.

(** A whole subset returned by name. *)
Lemma return_taken_all E k names L n L' :
  (∀ n, io_rename E (Held k) Free n = None) → NoDup names →
  (∀ n, n ∈ names → n ∈ toks L (Held k)) → _return_taken E k names L = (n, L') →
  moves (Held k) Free (list_to_set names) L L' ∧ frame [k] L L'.
Proof.
  intros HE Hnd Hin. unfold _return_taken. destruct (move_loop _ _ _ _ _ _ _) as [[m f] L1] eqn:Hm.
  intros [= _ <-].
  assert (f = false) as -> by (by eapply move_loop_no_fail; [| | | |exact Hm]).
  assert (m = names) as -> by (by eapply move_loop_all; [| | |exact Hm|]).
  pose proof (move_loop_frame _ _ _ _ _ _ _ _ _ _ Hm) as Hfr. simpl in Hfr.
  apply move_loop_moves in Hm as [Hm _]; [|done|done].
  split; [eapply moves_same_r; [exact Hm|apply drop_empty_holder_same]|].
  etrans; [exact Hfr|apply drop_empty_holder_frame].
Qed.

Lemma return_taken_frame E k names L n L' : _return_taken E k names L = (n, L') → frame [k] L L'.
Proof.
  unfold _return_taken. destruct (move_loop _ _ _ _ _ _ _) as [[m f] L1] eqn:Hm. intros [= _ <-].
  apply move_loop_frame in Hm. simpl in Hm. etrans; [done|apply drop_empty_holder_frame].
Qed.

(** ** The exact take *)

Section take_from.
Context (cf : Conf) (E : IO) (lf : bool) (fl : floor_gate) (c : Claimant) (k : string)
          (d : gmap string Z) (L : Ledger).
Context (Hfresh : l_held L !! handle_for c k = None) (Hkey : is_private_holder k = false)
          (Hc : live_custody L) (Hpl : plain (l_free L)).

(** What a taken answer means, under any refused rename. *)
Lemma take_from_taken L' names :
  _take_from cf E lf fl c k d L = (L', Ok (true, names)) →
  moves Free (Held k) (list_to_set names) L L' ∧ NoDup names
  ∧ ∀ kind, count_of kind (list_to_set names) = demand_of d kind.
Proof using All.
  unfold _take_from. case_if; [done|].
  destruct (begin_acquire _ _ _ _ _ _ _ _ _ _) as [L1 [[hh|]|]] eqn:Hb; [|done..].
  destruct (begin_done _ _ _ _ _ _ _ _ _ Hb Hpl) as (-> & Hme & X & HX & Hcnt & Hsz).
  destruct (commit_acquire E k (handle_for c k) L1) as [[L2 ns] mo] eqn:Hcm.
  pose proof (handle_ne_key c k Hkey) as Hne. destruct (fresh_no_meta _ _ Hfresh) as [M1 M2].
   destruct (Hme (handle_for c k)) as [Mc Mg]. rewrite M1 in Mc. rewrite M2 in Mg.
  destruct (commit_some _ _ _ _ _ _ _ Hne Mc Mg Hcm) as (Hmo & Hnd & HM & _).
  destruct mo as [mo|]; [specialize (Hmo mo eq_refl) as ->|by destruct (abandon_acquire E (handle_for c k) L2)].
  case_bool_decide as Hlt; [destruct (abandon_acquire E (handle_for c k) L2) as [? []]; done|]. intros [= <- <-].
  assert (toks L1 (Held (handle_for c k)) = X) as HXh.
  { destruct HX as (_ & _ & -> & _). rewrite (toks_fresh _ _ Hfresh). set_solver. }
  assert (list_to_set ns = X) as Heq.
  { destruct HM as (Hin & _). rewrite HXh in Hin. apply leibniz_equiv.
    apply (set_subseteq_size_equiv _ _ Hin).
    rewrite Hsz, size_list_to_set by done. unfold asked_total. lia. }
  rewrite Heq in *. split_and!; [|done|done].
  apply (moves_via Free (Held (handle_for c k)) (Held k) X L L1 L2); try done; [congruence|by apply toks_fresh].
Qed.

(** Any other answer leaves every token where it was. *)
Lemma take_from_refused L' r :
  (∀ h' n, io_rename E (Held h') Free n = None) → io_unlink_meta E (handle_for c k) = false →
  _take_from cf E lf fl c k d L = (L', r) → (∀ names, r ≠ Ok (true, names)) → same_toks L L'.
Proof using All.
  intros HE HU. unfold _take_from. case_if; [by intros [= <- _]|].
  destruct (begin_acquire _ _ _ _ _ _ _ _ _ _) as [L1 r1] eqn:Hb.
  destruct r1 as [[hh|]|]; [|intros [= <- _] _; by eapply (begin_refused E true fl c k d)..].
  destruct (begin_done _ _ _ _ _ _ _ _ _ Hb Hpl) as (-> & Hme & X & HX & Hcnt & Hsz).
  destruct (commit_acquire E k (handle_for c k) L1) as [[L2 ns] mo] eqn:Hcm.
  pose proof (handle_ne_key c k Hkey) as Hne. destruct (fresh_no_meta _ _ Hfresh) as [M1 M2].
   destruct (Hme (handle_for c k)) as [Mc Mg]. rewrite M1 in Mc. rewrite M2 in Mg.
  destruct (commit_some _ _ _ _ _ _ _ Hne Mc Mg Hcm) as (Hmo & Hnd & HM & _).
  destruct (abandon_acquire E (handle_for c k) L2) as [L3 r3] eqn:Ha.
  destruct (empty_into_free_ok _ _ _ _ _ HU Ha) as [cnt ->].
  apply empty_into_free_all in Ha; [|done].
  destruct (_return_taken E k ns L3) as [n4 L4] eqn:Hr4.
  enough (same_toks L L4) as HS4.
  { destruct mo as [mo|]; [|by intros [= <- _]]. case_bool_decide as Hlt; [by intros [= <- _]|].
    intros [= <- <-] Hr. by destruct (Hr ns). }
  clear Hmo.
  pose proof (toks_fresh _ _ Hfresh) as Hh0.
  pose proof (custody_disjoint L (Held k) Free Hc ltac:(done) ltac:(done) ltac:(done)) as Hdis.
  destruct HX as (X1 & X2 & X3 & X4 & X5), HM as (K1 & K2 & K3 & K4 & K5), Ha as (A1 & A2 & A3 & A4 & A5).
  rewrite Hh0, union_empty_l_L in X3. rewrite X3 in K1, K2.
  assert (toks L3 (Held k) = toks L (Held k) ∪ list_to_set ns) as Hk3.
  { rewrite A4, K3, X4 by congruence. done. }
  apply return_taken_all in Hr4 as [(R1 & R2 & R3 & R4 & R5) _]; [|done|done|].
  2: { intros n Hn. rewrite Hk3. apply elem_of_union. right. by apply elem_of_list_to_set. }
  split; [|congruence]. intros p. destruct (decide (p = Free)) as [->|Hf].
  { rewrite R3, A3, K4, K2, X2 by congruence. apply set_eq. intros n.
    rewrite !elem_of_union, !elem_of_difference. specialize (X1 n). specialize (K1 n).
    destruct (decide (n ∈ X)), (decide (n ∈ (list_to_set ns : gset string))); tauto. }
  destruct (decide (p = Held k)) as [->|Hk'].
  { rewrite R2, Hk3. apply set_eq. intros n. rewrite elem_of_difference, elem_of_union.
    specialize (X1 n). specialize (K1 n). specialize (Hdis n).
    destruct (decide (n ∈ (list_to_set ns : gset string))); tauto. }
  rewrite R4 by done. destruct (decide (p = Held (handle_for c k))) as [->|Hh'].
  { rewrite A2, Hh0, K2. set_solver. }
  by rewrite A4, K4, X4.
Qed.

Lemma take_from_frame L' r : _take_from cf E lf fl c k d L = (L', r) → frame [k; (handle_for c k)] L L'.
Proof using All.
  assert (∀ L L', frame [(handle_for c k)] L L' → frame [k; (handle_for c k)] L L') as Hh by (intros; eapply frame_mono; [|done]; set_solver).
  unfold _take_from. case_if; [by intros [= <- _]|].
  destruct (begin_acquire _ _ _ _ _ _ _ _ _ _) as [L1 r1] eqn:Hb.
  pose proof (Hh _ _ (begin_frame _ _ _ _ _ _ _ _ _ Hb)) as HF1.
  destruct r1 as [[hh|]|]; [|by intros [= <- _]..].
  destruct (begin_done _ _ _ _ _ _ _ _ _ Hb Hpl) as (-> & Hme & _).
  destruct (commit_acquire E k (handle_for c k) L1) as [[L2 ns] mo] eqn:Hcm.
  pose proof (handle_ne_key c k Hkey) as Hne. destruct (fresh_no_meta _ _ Hfresh) as [M1 M2].
   destruct (Hme (handle_for c k)) as [Mc Mg]. rewrite M1 in Mc. rewrite M2 in Mg.
  destruct (commit_some _ _ _ _ _ _ _ Hne Mc Mg Hcm) as (_ & _ & _ & HF2).
  assert (frame [k; (handle_for c k)] L L2) by (by etrans).
  destruct (abandon_acquire E (handle_for c k) L2) as [L3 r3] eqn:Ha.
  pose proof (Hh _ _ (empty_into_free_frame _ _ _ _ _ Ha)) as HF3.
  destruct (_return_taken E k ns L3) as [n4 L4] eqn:Hr4. cbn [snd].
  assert (frame [k; handle_for c k] L L4) as HF4.
  { apply return_taken_frame in Hr4. etrans; [done|]. etrans; [done|]. eapply frame_mono; [|done]. set_solver. }
  destruct mo; [|by intros [= <- _]]. case_bool_decide; [|by intros [= <- _]].
  destruct r3; intros [= <- _]; [done|by (etrans; [|exact HF3])].
Qed.
End take_from.

(** ** Counts and single-kind releases *)

Lemma tally_lookup ns m k :
  default 0 (tally ns m !! k) = default 0 (m !! k) + length (filter (λ n, kind_of n = k) ns).
Proof.
  unfold tally. revert m. induction ns as [|n ns IH]; intros m; [simpl; lia|]. simpl foldl. rewrite IH.
  rewrite filter_cons. unfold bump. rewrite lookup_insert.
  destruct (decide (kind_of n = k)) as [<-|]; simpl; lia.
Qed.

Lemma filter_listing_length (P : string → Prop) `{∀ n, Decision (P n)} X :
  length (filter P (listing X)) = size (filter P X).
Proof.
  rewrite <- (size_list_to_set (C := gset string) (filter P (listing X)))
    by apply NoDup_filter, NoDup_listing.
  f_equal. apply set_eq. intros n.
  rewrite elem_of_list_to_set, list_elem_of_filter, elem_of_filter, elem_of_listing. done.
Qed.

Lemma holder_tokens_kind h L k : default 0 (holder_tokens h L !! k) = kind_in k (toks L (Held h)).
Proof.
  unfold holder_tokens. rewrite tally_lookup, lookup_empty. simpl default.
  rewrite filter_listing_length. done.
Qed.

Lemma sorted_items_singleton {A} k (v : A) : sorted_items {[ k := v ]} = [(k, v)].
Proof.
  unfold sorted_items, listing. rewrite dom_singleton_L, elements_singleton. simpl.
  by rewrite lookup_singleton_eq.
Qed.

(** With no refusal, a capped loop moves the first [c] names. *)
Lemma move_loop_take E src dst c ns L m f L' :
  src ≠ dst → NoDup ns → (∀ n, n ∈ ns → n ∈ toks L src) →
  (∀ n, io_rename E src dst n = None) →
  move_loop E src dst no_skip (Some c) ns L = (m, f, L') → m = take c ns.
Proof.
  intros Hne. revert c L m f. induction ns as [|n ns IH]; intros c L m f Hnd Hin HE; simpl.
  { intros [= <- _ _]. by destruct c. }
  apply NoDup_cons in Hnd as [Hn Hnd]. destruct c as [|c].
  { rewrite bool_decide_eq_true_2 by done. by intros [= <- _ _]. }
  rewrite bool_decide_eq_false_2 by done. unfold no_skip at 1.
  destruct (rename_free E src dst n L (HE n) (Hin n ltac:(by left))) as [L1 Hr]. rewrite Hr.
  apply rename_ok in Hr as [_ Hr]; [|done]. cbn [Init.Nat.pred].
  destruct (move_loop E src dst no_skip (Some c) ns L1) as [[m1 f1] L2] eqn:Hl. intros [= <- _ ->].
  simpl. f_equal. eapply IH; [done| |done|exact Hl].
  intros x Hx. apply (moves_in _ _ _ _ _ _ _ Hne Hr). right. split; [apply Hin; by right|].
  intros _ Hxn. by apply elem_of_singleton in Hxn; subst.
Qed.

(** A release of one kind: what moved, what is reported, and how much it is
    when nothing is refused. *)
Lemma release_count_one E h kind c L rel L' :
  plain (toks L (Held h)) → release_count E h {[ kind := Z.of_nat c ]} L = (rel, L') →
  ∃ X, moves (Held h) Free X L L' ∧ default 0 (rel !! kind) = count_of kind X
       ∧ (∀ k, k ≠ kind → count_of k X = 0)
       ∧ ((∀ n, io_rename E (Held h) Free n = None) →
          count_of kind X = min c (count_of kind (toks L (Held h)))).
Proof.
  intros Hpl. unfold release_count. destruct (is_dir h L) eqn:Hd; cbn [negb].
  2: { intros [= <- <-]. exists ∅. split_and!; [apply moves_refl|done|done|].
       intros _. apply bool_decide_eq_false, eq_None_not_Some in Hd. rewrite (toks_fresh _ _ Hd).
       change (0 = min c 0). lia. }
  rewrite sorted_items_singleton. cbn [per_kind]. case_bool_decide as Hc0.
  { intros [= <- <-]. exists ∅. split_and!; [|done|done|].
    - eapply moves_same_r; [apply moves_refl|apply drop_empty_holder_same].
    - intros _. assert (c = 0) as -> by lia. done. }
  rewrite Nat2Z.id. destruct (move_loop _ _ _ _ _ _ _) as [[m f] L1] eqn:Hm. intros [= <- <-].
  pose proof Hm as [Hmv Hsub]%move_loop_moves; [|done|apply NoDup_listing].
  assert (NoDup m) as Hnd by (eapply sublist_NoDup; [apply NoDup_listing|exact Hsub]).
  assert (∀ n, n ∈ m → of_kind kind n = true) as Hk.
  { intros n Hn. eapply sublist_subseteq in Hsub. apply Hsub in Hn. rewrite elem_of_listing in Hn.
    unfold glob_kind in Hn. by apply elem_of_filter in Hn as [? _]. }
  assert (count_of kind (list_to_set m) = length m) as Hcm.
  { rewrite count_same; [by apply size_list_to_set|]. intros n Hn. apply Hk. by apply elem_of_list_to_set in Hn. }
  exists (list_to_set m). split_and!.
  - eapply moves_same_r; [exact Hmv|apply drop_empty_holder_same].
  - rewrite Hcm. case_bool_decide as H0; [rewrite lookup_empty; simpl; lia|]. by rewrite lookup_insert_eq.
  - intros k Hne. eapply (count_other kind); [|intros n Hn; apply Hk; by apply elem_of_list_to_set in Hn|congruence].
    eapply plain_subseteq; [|exact Hpl]. apply Hmv.
  - intros HE. rewrite Hcm.
    rewrite (move_loop_take E (Held h) Free c (listing (glob_kind kind (toks L (Held h)))) L m f L1);
      [|done|apply NoDup_listing| |exact HE|exact Hm].
    + by rewrite length_take, length_listing.
    + intros n Hn. rewrite elem_of_listing in Hn. unfold glob_kind in Hn. by apply elem_of_filter in Hn as [_ ?].
Qed.
