(* ===== verification/TierSpec.v ===== *)
(** * What a tier and its host mirror guarantee

    The two halves of a RAM occupancy are taken together or not at all, every
    release trims the mirror to what is still occupied, a handover moves both
    halves, and a reconciliation that reports convergence has converged. *)

From S2P Require Import Prelude.
From S2P Require Import TokenName.
From S2P Require Import Ledger.
From S2P Require Import LedgerFacts.
From S2P Require Import LedgerEffects.
From S2P Require Import LedgerInv.
From S2P Require Import LedgerCount.
From S2P Require Import LedgerMint.
From S2P Require Import LedgerSpec.
From S2P Require Import LedgerCensus.
From S2P Require Import Tier.
From S2P Require Import TierFacts.
From stdpp Require Import options.

(** ** Shared assumptions *)

(** Returns to [free/] and metadata removals are not refused. *)
Definition returns (E : IO) : Prop :=
  (∀ h n, io_rename E (Held h) Free n = None) ∧ (∀ h, io_unlink_meta E h = false).

(** Both ledgers are singly booked, with dash-free kinds. *)
Definition sound (T : Tier) : Prop :=
  live_custody (t_tier T) ∧ live_custody (t_host T)
  ∧ (∀ p, plain (toks (t_tier T) p)) ∧ (∀ p, plain (toks (t_host T) p)).

(** The stamped private directories of a take do not exist yet. *)
Definition fresh (V : TEnv) (holder : string) (T : Tier) : Prop :=
  l_held (t_tier T) !! handle_for (te_claimant V holder) holder = None
  ∧ l_held (t_host T) !! handle_for (te_claimant V (mirror_of holder)) (mirror_of holder) = None.

(** Gigabytes a holder occupies, and gigabytes its mirror holds. *)
Definition occupied (T : Tier) (h : string) : nat := kind_in RAM_CAPACITY_KIND (toks (t_tier T) (Held h)).
Definition mirror_gib (T : Tier) (h : string) : nat := kind_in "mem_gb" (toks (t_host T) (Held (mirror_of h))).

(** The host half accounts for exactly what the holder occupies. *)
Definition mirrored (T : Tier) (h : string) : Prop := mirror_gib T h = occupied T h.

Lemma mirror_not_private h : is_private_holder (mirror_of h) = false.
Proof. reflexivity. Qed.

Lemma mirror_inj h h' : mirror_of h = mirror_of h' → h = h'.
Proof. unfold mirror_of. intros H. by injection H. Qed.

Lemma kind_in_count k X : plain X → kind_in k X = count_of k X.
Proof.
  intros Hp. unfold kind_in, count_of, glob_tokens, glob_kind. f_equal. apply set_eq. intros n.
  rewrite !elem_of_filter. split.
  - intros (Hk & Ht & Hn). split; [|done]. by apply of_kind_iff; [|apply Hp|].
  - intros (Hk & Hn). pose proof (of_kind_is_token _ _ Hk) as Ht.
    split; [|done]. by apply of_kind_iff; [|apply Hp|].
Qed.

(** Tokens moved and moved back. *)
Lemma moves_undo a b X L L1 L2 :
  a ≠ b → toks L b ## X → moves a b X L L1 → moves b a X L1 L2 → same_toks L L2.
Proof.
  intros Hne Hd (H1 & H2 & H3 & H4 & H5) (K1 & K2 & K3 & K4 & K5).
  split; [|congruence]. intros p. destruct (decide (p = a)) as [->|].
  { rewrite K3, H2. apply set_eq. intros x. specialize (H1 x). rewrite elem_of_union, elem_of_difference.
    destruct (decide (x ∈ X)); tauto. }
  destruct (decide (p = b)) as [->|]; [|by rewrite K4, H4].
  rewrite K2, H3. apply set_eq. intros x. specialize (Hd x). rewrite elem_of_difference, elem_of_union.
  destruct (decide (x ∈ X)); tauto.
Qed.

(** Tokens moved between live places keep the ledger sound. *)
Lemma moves_sound a b X L L' :
  a ≠ b → a ≠ Dead → moves a b X L L' → live_custody L → (∀ p, plain (toks L p)) →
  live_custody L' ∧ (∀ p, plain (toks L' p)).
Proof.
  intros Hne Hd Hm Hc Hp. split.
  - eapply mv_live_custody; [|exact Hc]. by apply (mv_one _ a b X).
  - intros p n Hn. apply (moves_in _ _ _ _ _ _ _ Hne Hm) in Hn.
    destruct Hn as [[_ Hn]|[Hn _]]; [|by apply (Hp p)]. destruct Hm as (HX & _). by apply (Hp a), HX.
Qed.

Lemma same_toks_sound L L' :
  same_toks L L' → live_custody L → (∀ p, plain (toks L p)) →
  live_custody L' ∧ (∀ p, plain (toks L' p)).
Proof.
  intros [HS _] Hc Hp. split; [intros n p q; rewrite !HS; apply Hc|intros p; rewrite HS; apply Hp].
Qed.

(** ** Taking *)

(** The host half of a take, and its rollback. *)
Lemma hold_host_spec V h gib T s names T1 :
  returns (te_host V) → sound T → fresh V h T → _hold_host V h gib T = (s, names, T1) →
  t_tier T1 = t_tier T
  ∧ ((s = Taken ∧ NoDup names ∧ moves Free (Held (mirror_of h)) (list_to_set names) (t_host T) (t_host T1)
      ∧ ∀ k, count_of k (list_to_set names) = demand_of {[ "mem_gb" := gib ]} k)
     ∨ (s ≠ Taken ∧ same_toks (t_host T) (t_host T1))).
Proof.
  intros [HR HU] (_ & Hc & _ & Hp) [_ Hf]. unfold _hold_host.
  destruct (_take_from _ _ _ _ _ _ _ _) as [H1 r] eqn:Ht.
  pose proof (take_from_taken host_conf (te_host V) true (te_host_floor V) _ _
                {[ "mem_gb" := gib ]} _ Hf (mirror_not_private h) Hc (Hp Free)) as Hok.
  pose proof (take_from_refused host_conf (te_host V) true (te_host_floor V) _ _ _ _ Hf
                (mirror_not_private h) Hc (Hp Free) _ _ HR (HU _) Ht) as Hno.
  destruct r as [[[] ns]|e]; intros [= <- <- <-]; simpl; (split; [done|]).
  - left. destruct (Hok _ _ Ht) as (? & ? & ?). done.
  - right. split; [done|]. apply Hno. by intros names [=].
  - right. split; [done|]. apply Hno. by intros names [=].
Qed.

Lemma rollback_spec V h names T H0 :
  returns (te_host V) → live_custody H0 → NoDup names →
  moves Free (Held (mirror_of h)) (list_to_set names) H0 (t_host T) →
  t_tier (_rollback_host_take V h names T) = t_tier T
  ∧ same_toks H0 (t_host (_rollback_host_take V h names T)).
Proof.
  intros [HR HU] Hc Hnd Hm. split; [done|]. unfold _rollback_host_take.
  destruct (_return_taken _ _ _ _) as [n L'] eqn:Hr. simpl.
  apply return_taken_all in Hr as [Hback _]; [|done|done|].
  2: { intros x Hx. destruct Hm as (_ & _ & -> & _). apply elem_of_union. right. by apply elem_of_list_to_set. }
  eapply moves_undo; [| |exact Hm|exact Hback]; [done|].
  destruct Hm as (HX & _).
  pose proof (custody_disjoint H0 (Held (mirror_of h)) Free Hc ltac:(done) ltac:(done) ltac:(done)). set_solver.
Qed.

(** The gigabytes a demand asks of a RAM tier. *)
Definition gib_of (V : TEnv) (d : gmap string Z) : Z :=
  if is_ram V then default 0%Z (d !! RAM_CAPACITY_KIND) else 0%Z.

(** C3: a take on a tier moves exactly its demand to the holder and, on a RAM
    tier, exactly the demanded gigabytes to the holder's host mirror; or it
    leaves every token of both ledgers where it was, whether it was short on
    either side, contended, refused by a floor, or ended by an error of the
    acquisition or of its commit.  This needs the return path itself to work on
    both ledgers: no rename back to [free/] and no removal of a sidecar fails. *)
Theorem tier_take_exact_or_nothing V h d T T' r :
  returns (te_tier V) → returns (te_host V) → sound T → fresh V h T → is_private_holder h = false →
  tier_take V h d T = (T', r) →
  (r = Ok true
   ∧ (∃ X, moves Free (Held h) X (t_tier T) (t_tier T') ∧ ∀ k, count_of k X = demand_of d k)
   ∧ (∃ Y, moves Free (Held (mirror_of h)) Y (t_host T) (t_host T')
           ∧ ∀ k, count_of k Y = demand_of {[ "mem_gb" := gib_of V d ]} k))
  ∨ (r ≠ Ok true ∧ same_toks (t_tier T) (t_tier T') ∧ same_toks (t_host T) (t_host T')).
Proof.
  intros HR HH HS Hf Hpr. unfold tier_take. fold (gib_of V d). cbv zeta.
  destruct (if bool_decide (0 < gib_of V d)%Z then _ else _) as [[s names] T1] eqn:Hh.
  assert (t_tier T1 = t_tier T
    ∧ ((s = Taken ∧ NoDup names ∧ moves Free (Held (mirror_of h)) (list_to_set names) (t_host T) (t_host T1)
        ∧ (∀ k, count_of k (list_to_set names) = demand_of {[ "mem_gb" := gib_of V d ]} k)
        ∧ (bool_decide (0 < gib_of V d)%Z = false → T1 = T))
       ∨ (s ≠ Taken ∧ same_toks (t_host T) (t_host T1)))) as [HT1 Hcase].
  { case_bool_decide as Hg.
    - destruct (hold_host_spec _ _ _ _ _ _ _ HH HS Hf Hh) as [? [(-> & ? & ? & ?)|?]]; [|by auto].
      split; [done|left]. done.
    - simplify_eq. split; [done|left]. split_and!; [done|constructor|apply moves_refl| |done].
      intros k. unfold demand_of. rewrite lookup_singleton. case_decide; simpl; [|done].
      change (0 = Z.to_nat (gib_of V d)). lia. }
  destruct Hcase as [(-> & Hnd & Hm & Hcnt & Hsame)|[Hs HsH]].
  2: { rewrite bool_decide_eq_false_2 by done. intros [= <- <-]. right. simpl. split_and!; [done| |done].
       rewrite HT1. apply set_shortage_same. }
  rewrite bool_decide_eq_true_2 by done. cbn [negb].
  destruct HS as (Hct & Hch & Hpt & Hph), Hf as [Hft _].
  destruct (_take_from _ _ _ _ _ _ _ _) as [L1 r1] eqn:Ht. rewrite HT1 in Ht.
  pose proof (λ HRR, take_from_refused tier_conf (te_tier V) (te_lock_free V) (te_floor V) _ _ _ _
     Hft Hpr Hct (Hpt Free) _ _ (proj1 HR) (proj2 HR _) Ht HRR) as Hno.
  assert (same_toks (t_host T)
            (t_host (if bool_decide (0 < gib_of V d)%Z
                     then _rollback_host_take V h names (set_tier L1 T1) else set_tier L1 T1))
          ∧ t_tier (if bool_decide (0 < gib_of V d)%Z
                     then _rollback_host_take V h names (set_tier L1 T1) else set_tier L1 T1) = L1) as [Hback HL1].
  { destruct (bool_decide (0 < gib_of V d)%Z) eqn:Hb; [|by rewrite (Hsame eq_refl)].
    destruct (rollback_spec V h names (set_tier L1 T1) (t_host T) HH Hch Hnd Hm). done. }
  destruct r1 as [[[] ns]|e]; cbn [negb andb].
  - intros [= <- <-]. left. split; [done|]. simpl.
    destruct (take_from_taken _ _ _ _ _ _ _ _ Hft Hpr Hct (Hpt Free) _ _ Ht) as (Hmt & _ & Hct').
    split; [by eexists|]. exists (list_to_set names). done.
  - intros [= <- <-]. right. rewrite HL1. split_and!; [done|by apply Hno; intros ? [=]|done].
  - intros [= <- <-]. right. rewrite HL1. split_and!; [done|by apply Hno; intros ? [=]|done].
Qed.

(** A RAM tier of two gigabytes on a box with three. *)
Definition demo_ram_env : TEnv :=
  mkTEnv "ram:sparky" io_ok io_ok true No_gate No_gate (λ _, demo_claimant) false false (λ _, false) 7.
Definition demo_tier : Tier :=
  mkTier (fst (ensure_capacity tier_conf io_ok {[ "ram_gib" := 2%Z ]} empty_ledger))
         (fst (ensure_capacity host_conf io_ok {[ "mem_gb" := 3%Z ]} empty_ledger)).
Definition demo_tier_taken : Tier := fst (tier_take demo_ram_env "w1" {[ "ram_gib" := 2%Z ]} demo_tier).

(** A decidable form of soundness, for evaluation. *)
Definition plain_ledger (L : Ledger) : bool :=
  plainb (l_free L) && plainb (l_dead L)
  && forallb (λ h, plainb (toks L (Held h))) (holder_names L).

Lemma plain_ledger_plain L : plain_ledger L = true → ∀ p, plain (toks L p).
Proof.
  intros [[H1 H2]%andb_true_iff H3]%andb_true_iff [|h|]; [by apply plainb_plain| |by apply plainb_plain].
  intros n Hn. rewrite forallb_forall in H3.
  assert (h ∈ holder_names L) as Hh.
  { apply elem_of_listing, elem_of_dom. unfold toks in Hn. by destruct (l_held L !! h). }
  apply list_elem_of_In, H3, plainb_plain in Hh. by apply Hh.
Qed.

Lemma minted_live_custody cf cap : live_custody (fst (ensure_capacity cf io_ok cap empty_ledger)).
Proof. eapply (step_live_custody cf io_ok empty_ledger); [apply s_ensure|apply custody_empty]. Qed.

Lemma demo_tier_sound : sound demo_tier.
Proof.
  split_and!; [apply minted_live_custody|apply minted_live_custody|..];
    apply plain_ledger_plain; by vm_compute.
Qed.

Lemma io_ok_returns : returns io_ok.
Proof. done. Qed.

Lemma demo_tier_fresh : fresh demo_ram_env "w1" demo_tier.
Proof. split; by vm_compute. Qed.

(** A tier whose private directories cannot be listed: its commit raises. *)
Definition io_unlisted : IO :=
  mkIO (λ _ _ _, None) (λ r _, match r with RList => true | _ => false end) false (λ _, false) (λ _, false) (λ _, false)
       false (λ _, false) (λ _, false) (λ _, false).
Definition demo_unlisted_env : TEnv :=
  mkTEnv "ram:sparky" io_unlisted io_ok true No_gate No_gate (λ _, demo_claimant) false false (λ _, false) 7.

(** Taken; short on the tier once the host half was taken; raised by the commit. *)
Lemma tier_take_exact_or_nothing_witness :
  ((∃ X, moves Free (Held "w1") X (t_tier demo_tier) (t_tier demo_tier_taken)
         ∧ ∀ k, count_of k X = demand_of {[ "ram_gib" := 2%Z ]} k)
   ∧ (∃ Y, moves Free (Held (mirror_of "w1")) Y (t_host demo_tier) (t_host demo_tier_taken)
           ∧ ∀ k, count_of k Y = demand_of {[ "mem_gb" := 2%Z ]} k))
  ∧ ((tier_take demo_ram_env "w1" {[ "ram_gib" := 3%Z ]} demo_tier).2 = Ok false
     ∧ same_toks (t_host demo_tier) (t_host (tier_take demo_ram_env "w1" {[ "ram_gib" := 3%Z ]} demo_tier).1))
  ∧ ((tier_take demo_unlisted_env "w1" {[ "ram_gib" := 2%Z ]} demo_tier).2 = Raise (OSError "listing")
     ∧ same_toks (t_tier demo_tier) (t_tier (tier_take demo_unlisted_env "w1" {[ "ram_gib" := 2%Z ]} demo_tier).1)
     ∧ same_toks (t_host demo_tier) (t_host (tier_take demo_unlisted_env "w1" {[ "ram_gib" := 2%Z ]} demo_tier).1)).
Proof.
  split_and!.
  1-2: destruct (tier_take demo_ram_env "w1" {[ "ram_gib" := 2%Z ]} demo_tier) as [T' r] eqn:HE;
    assert (r = Ok true) as Hok by (change r with (snd (T', r)); rewrite <- HE; by vm_compute);
    unfold demo_tier_taken; rewrite HE;
    destruct (tier_take_exact_or_nothing demo_ram_env "w1" {[ "ram_gib" := 2%Z ]} demo_tier T' r
                io_ok_returns io_ok_returns demo_tier_sound demo_tier_fresh eq_refl HE)
      as [(_ & H1 & H2)|[H _]]; [exact H1 || exact H2|by destruct H].
  1, 3: by vm_compute.
  - destruct (tier_take demo_ram_env "w1" {[ "ram_gib" := 3%Z ]} demo_tier) as [T' r] eqn:HE.
    assert (r = Ok false) as Hok by (change r with (snd (T', r)); rewrite <- HE; by vm_compute).
    destruct (tier_take_exact_or_nothing demo_ram_env "w1" {[ "ram_gib" := 3%Z ]} demo_tier T' r
                io_ok_returns io_ok_returns demo_tier_sound demo_tier_fresh eq_refl HE)
      as [(H & _)|(_ & _ & H)]; [by rewrite Hok in H|exact H].
  - destruct (tier_take demo_unlisted_env "w1" {[ "ram_gib" := 2%Z ]} demo_tier) as [T' r] eqn:HE.
    assert (r = Raise (OSError "listing")) as Hok by (change r with (snd (T', r)); rewrite <- HE; by vm_compute).
    destruct (tier_take_exact_or_nothing demo_unlisted_env "w1" {[ "ram_gib" := 2%Z ]} demo_tier T' r
                io_ok_returns io_ok_returns demo_tier_sound demo_tier_fresh eq_refl HE)
      as [(H & _)|(_ & H & _)]; [by rewrite Hok in H|exact H].
  - destruct (tier_take demo_unlisted_env "w1" {[ "ram_gib" := 2%Z ]} demo_tier) as [T' r] eqn:HE.
    assert (r = Raise (OSError "listing")) as Hok by (change r with (snd (T', r)); rewrite <- HE; by vm_compute).
    destruct (tier_take_exact_or_nothing demo_unlisted_env "w1" {[ "ram_gib" := 2%Z ]} demo_tier T' r
                io_ok_returns io_ok_returns demo_tier_sound demo_tier_fresh eq_refl HE)
      as [(H & _)|(_ & _ & H)]; [by rewrite Hok in H|exact H].
Defined.

(** ** Releasing *)

Lemma kind_in_glob k X : kind_in k (glob_tokens X) = kind_in k X.
Proof.
  unfold kind_in, glob_tokens. f_equal. apply set_eq. intros n. rewrite !elem_of_filter. tauto.
Qed.

Lemma kind_in_le k X Y : X ⊆ Y → kind_in k X ≤ kind_in k Y.
Proof.
  intros HXY. apply subseteq_size. intros n. unfold glob_tokens. rewrite !elem_of_filter.
  specialize (HXY n). tauto.
Qed.

(** A trim brings the mirror down to what the holder occupies, and touches no
    other mirror. *)
Lemma trim_spec V h T n T' :
  returns (te_host V) → (∀ p, plain (toks (t_host T) p)) → io_unreadable (te_tier V) RCensus h = false →
  _trim_host_to_occupancy V h T = (n, T') →
  t_tier T' = t_tier T ∧ mirror_gib T' h = min (mirror_gib T h) (occupied T h)
  ∧ ∀ h', h' ≠ h → mirror_gib T' h' = mirror_gib T h'.
Proof.
  intros [HR HU] Hp Hrd. unfold _trim_host_to_occupancy, holder_state. rewrite Hrd.
  rewrite holder_tokens_kind, kind_in_glob.
  change (kind_in _ (toks (t_tier T) (Held h))) with (occupied T h).
  change (kind_in _ (toks (t_host T) (Held (mirror_of h)))) with (mirror_gib T h).
  cbv zeta. case_bool_decide as Hle; [intros [= _ <-]; split_and!; [done|lia|done]|].
  destruct (release_count _ _ _ _) as [ret H1] eqn:Hr. intros [= _ <-]. split; [done|].
  pose proof (release_count_frame _ _ _ _ _ _ Hr) as Hfr.
  apply release_count_one in Hr as (X & HX & _ & _ & Hcnt); [|done]. specialize (Hcnt (HR _)).
  split.
  - unfold mirror_gib at 1. simpl. pose proof HX as (HX1 & HX2 & _).
    unfold mirror_gib in Hle. rewrite kind_in_count in Hle by done.
    rewrite kind_in_count by (rewrite HX2; eapply plain_subseteq; [|apply Hp]; apply subseteq_difference_l; done).
    rewrite HX2, count_difference, Hcnt by done. unfold mirror_gib. rewrite kind_in_count by done. lia.
  - intros h' Hne. unfold mirror_gib. simpl. f_equal. apply (frame_toks _ _ _ _ Hfr).
    rewrite list_elem_of_singleton. intros He. by apply Hne, mirror_inj.
Qed.

(** A tier call that only takes from the holder, then the trim. *)
Lemma trim_after V h T L1 T' :
  is_ram V = true → returns (te_host V) → (∀ p, plain (toks (t_host T) p)) →
  io_unreadable (te_tier V) RCensus h = false → toks L1 (Held h) ⊆ toks (t_tier T) (Held h) →
  T' = trim_if_ram V h (set_tier L1 T) →
  t_tier T' = L1 ∧ mirror_gib T' h = min (mirror_gib T h) (occupied T' h)
  ∧ (∀ h', h' ≠ h → mirror_gib T' h' = mirror_gib T h') ∧ (mirrored T h → mirrored T' h).
Proof.
  intros Hram HH Hp Hrd Hsub ->. unfold trim_if_ram. rewrite Hram.
  destruct (_trim_host_to_occupancy V h (set_tier L1 T)) as [n T'] eqn:Ht. simpl.
  destruct (trim_spec V h (set_tier L1 T) n T' HH Hp Hrd Ht) as (HT & Hm & Ho).
  assert (occupied T' h = kind_in RAM_CAPACITY_KIND (toks L1 (Held h))) as Hocc
    by (unfold occupied; by rewrite HT).
  assert (mirror_gib T' h = min (mirror_gib T h) (occupied T' h)) as Heq by (rewrite Hocc; exact Hm).
  split_and!; [done|done|done|].
  unfold mirrored. intros HMi. rewrite Heq, HMi, Hocc.
  apply Nat.min_r. by apply kind_in_le.
Qed.

Lemma takes_only_loses h (P : place → place → Prop) L L' :
  (∀ p q, P p q → q ≠ Held h) → mv P L L' → toks L' (Held h) ⊆ toks L (Held h).
Proof. intros HP. by apply mv_loses. Qed.

(** Every way a holder's occupancy is returned -- unspent, egressed, or
    settled with destroyed duplicates -- leaves its host mirror at exactly what
    it still occupies (never below), and no other holder's mirror moves. *)
Theorem releases_keep_mirror V h T T' au part de fr :
  is_ram V = true → returns (te_tier V) → returns (te_host V) →
  (∀ p, plain (toks (t_host T) p)) → io_unreadable (te_tier V) RCensus h = false →
  T' = fst (release_unspent V h au part T) ∨ T' = fst (egress V h T)
    ∨ T' = snd (settle_egress V h de fr T) →
  mirror_gib T' h = min (mirror_gib T h) (occupied T' h)
  ∧ (∀ h', h' ≠ h → mirror_gib T' h' = mirror_gib T h') ∧ (mirrored T h → mirrored T' h).
Proof.
  intros Hram [_ HU] HH Hp Hrd HT'.
  assert (∃ L1, toks L1 (Held h) ⊆ toks (t_tier T) (Held h) ∧ T' = trim_if_ram V h (set_tier L1 T))
    as (L1 & Hsub & Heq); [|by apply (trim_after V h T L1 T')].
  assert (∀ L L' r, release (te_tier V) h L = (L', r) →
            toks L' (Held h) ⊆ toks L (Held h) ∧ ∃ n, r = Ok n) as Hrel.
  { intros L L' r Hr. split; [|by eapply empty_into_free_ok].
    eapply takes_only_loses; [|by eapply release_mv]. place_neq. }
  destruct HT' as [-> |[-> | ->]].
  - destruct part as [|keep|counts]; simpl.
    + destruct (release _ _ _) as [L1 r] eqn:Hr. destruct (Hrel _ _ _ Hr) as [? [n ->]].
      by exists L1.
    + destruct (release_except _ _ _ _) as [n L1] eqn:Hr. exists L1. split; [|done].
      eapply takes_only_loses; [|by eapply release_except_mv]. place_neq.
    + destruct (release_count _ _ _ _) as [n L1] eqn:Hr. exists L1. split; [|done].
      eapply takes_only_loses; [|by eapply release_count_mv]. place_neq.
  - unfold egress. destruct (release _ _ _) as [L1 r] eqn:Hr. destruct (Hrel _ _ _ Hr) as [? [n ->]].
    by exists L1.
  - unfold settle_egress. destruct (retire_held _ _ _ _) as [d1 L1] eqn:Hd.
    destruct (release_count _ _ _ _) as [n L2] eqn:Hr. exists L2. split; [|done].
    apply release_count_mv in Hr. apply retire_held_mv in Hd.
    etrans; [eapply takes_only_loses; [|exact Hr]|eapply takes_only_loses; [|exact Hd]]; place_neq.
Qed.

Lemma demo_tier_taken_plain : ∀ p, plain (toks (t_host demo_tier_taken) p).
Proof. apply plain_ledger_plain. by vm_compute. Qed.

Lemma releases_keep_mirror_witness :
  mirror_gib (fst (release_unspent demo_ram_env "w1" UNUSED_GRANT (Counts {[ "ram_gib" := 1%Z ]}) demo_tier_taken)) "w1" = 1
  ∧ mirrored (fst (release_unspent demo_ram_env "w1" UNUSED_GRANT (Counts {[ "ram_gib" := 1%Z ]}) demo_tier_taken)) "w1".
Proof.
  pose proof (releases_keep_mirror demo_ram_env "w1" demo_tier_taken _ UNUSED_GRANT
    (Counts {[ "ram_gib" := 1%Z ]}) ∅ ∅ eq_refl io_ok_returns io_ok_returns demo_tier_taken_plain eq_refl
    (or_introl eq_refl)) as (_ & _ & H). split; [by vm_compute|]. apply H. by vm_compute.
Defined.

(** ** Handing over *)

Lemma transfer_ok E a b L L' r :
  a ≠ "" → b ≠ "" → is_private_holder a = false → is_private_holder b = false →
  transfer E a b L = (L', r) → ∃ n, r = Ok n.
Proof.
  intros Ha Hb Hpa Hpb. unfold transfer. rewrite Hpa, Hpb. cbn [orb]. intros Ht.
  repeat case_match; simplify_eq; eauto.
Qed.

(** What a transfer of everything does to a count. *)
Lemma moves_all_count k a b L L' :
  a ≠ b → live_custody L → (∀ p, plain (toks L p)) →
  moves (Held a) (Held b) (toks L (Held a)) L L' →
  kind_in k (toks L' (Held a)) = 0
  ∧ kind_in k (toks L' (Held b)) = kind_in k (toks L (Held b)) + kind_in k (toks L (Held a)).
Proof.
  intros Hab Hc Hp Hm.
  destruct (moves_sound (Held a) (Held b) _ _ _ ltac:(congruence) ltac:(done) Hm Hc Hp) as [_ Hp'].
  rewrite !kind_in_count by done. destruct Hm as (_ & H2 & H3 & _). rewrite H2, H3. split.
  - rewrite count_difference by done. lia.
  - apply count_union_disjoint, custody_disjoint; try done. congruence.
Qed.

(** With no refused rename, a handover moves a holder's whole occupancy and
    its whole mirror together, frees nothing, reports no fault, and keeps both
    holders exactly mirrored. *)
Theorem handover_keeps_mirror V a b T T' r faults :
  is_ram V = true → renames (te_tier V) → renames (te_host V) → sound T →
  a ≠ "" → b ≠ "" → a ≠ b → is_private_holder a = false → is_private_holder b = false →
  mirrored T a → mirrored T b → handover V a b T = (T', r, faults) →
  faults = [] ∧ l_free (t_tier T') = l_free (t_tier T) ∧ l_free (t_host T') = l_free (t_host T)
  ∧ occupied T' a = 0 ∧ occupied T' b = occupied T b + occupied T a
  ∧ mirrored T' a ∧ mirrored T' b.
Proof.
  intros Hram HT HH (Hct & Hch & Hpt & Hph) Ha Hb Hab Hpa Hpb Hma Hmb. unfold handover. rewrite Hram.
  destruct (transfer (te_tier V) a b (t_tier T)) as [L1 r1] eqn:H1.
  destruct (transfer_ok _ _ _ _ _ _ Ha Hb Hpa Hpb H1) as [n1 ->].
  destruct (transfer (te_host V) (mirror_of a) (mirror_of b) _) as [H' r2] eqn:H2. simpl in H2.
  destruct (transfer_ok _ (mirror_of a) (mirror_of b) _ _ _ ltac:(done) ltac:(done) eq_refl eq_refl H2) as [n2 ->].
  intros [= <- _ <-].
  assert (mirror_of a ≠ mirror_of b) as Hmab by (intros He; by apply Hab, mirror_inj).
  pose proof (transfer_all _ _ _ _ _ _ HT Hct Ha Hb Hab Hpa Hpb H1) as M1.
  pose proof (transfer_all _ (mirror_of a) (mirror_of b) _ _ _ HH Hch ltac:(done) ltac:(done) Hmab eq_refl eq_refl H2) as M2.
  destruct (moves_all_count RAM_CAPACITY_KIND _ _ _ _ Hab Hct Hpt M1) as [C1 C2].
  destruct (moves_all_count "mem_gb" _ _ _ _ Hmab Hch Hph M2) as [D1 D2].
  destruct M1 as (_ & _ & _ & F1 & _), M2 as (_ & _ & _ & F2 & _).
  unfold mirrored, mirror_gib, occupied in *. simpl. split_and!; try done.
  - by apply (F1 Free).
  - by apply (F2 Free).
  - congruence.
  - rewrite D2, C2. congruence.
Qed.

(** A decidable form of single custody, for evaluation. *)
Definition single_custody (L : Ledger) : bool :=
  bool_decide (is_Some (held_union ((λ h, toks L (Held h)) <$> holder_names L) (l_free L))).

Lemma single_custody_live L : single_custody L = true → live_custody L.
Proof.
  intros [Y HY]%bool_decide_eq_true.
  apply (held_union_iff (λ h, toks L (Held h))) in HY as (_ & H1 & H2); [|apply NoDup_listing].
  intros n [|h|] [|h'|] Hp Hq Hn Hn'; try done.
  - by destruct (H1 h' (holder_in_names _ _ _ Hn') n Hn).
  - by destruct (H1 h (holder_in_names _ _ _ Hn) n Hn').
  - destruct (decide (h = h')) as [->|Hne]; [done|].
    by destruct (H2 h h' (holder_in_names _ _ _ Hn) (holder_in_names _ _ _ Hn') Hne n Hn).
Qed.

Lemma demo_tier_taken_sound : sound demo_tier_taken.
Proof.
  split_and!; [apply single_custody_live; by vm_compute..|apply plain_ledger_plain; by vm_compute|].
  apply demo_tier_taken_plain.
Qed.

Lemma handover_keeps_mirror_witness :
  occupied (handover demo_ram_env "w1" "w2" demo_tier_taken).1.1 "w2" = 2
  ∧ mirrored (handover demo_ram_env "w1" "w2" demo_tier_taken).1.1 "w2".
Proof.
  destruct (handover demo_ram_env "w1" "w2" demo_tier_taken) as [[T' r] fs] eqn:HE.
  destruct (handover_keeps_mirror demo_ram_env "w1" "w2" demo_tier_taken T' r fs eq_refl
    (λ _ _ _, eq_refl) (λ _ _ _, eq_refl) demo_tier_taken_sound) as (_ & _ & _ & _ & Ho & _ & Hm);
    [done|done|done|done|done|by vm_compute|by vm_compute|exact HE|].
  change (occupied T' "w2" = 2 ∧ mirrored T' "w2").
  split; [rewrite Ho; by vm_compute|exact Hm].
Defined.

(** ** Reconciling *)

Section reconcile.
Context (V : TEnv).

(** The stamped private directory of one mirror's take. *)
Definition mirror_handle (h : string) : string :=
  handle_for (te_claimant V (mirror_of h)) (mirror_of h).

Lemma mirror_handle_ne h h' : mirror_handle h ≠ mirror_of h'.
Proof using All.
  intros He. assert (is_private_holder (mirror_handle h) = true) as Hp by apply private_handle.
  by rewrite He in Hp.
Qed.

(** A mirror reported in sync holds exactly its target. *)
Lemma sync_synced h target H e H1 :
  live_custody H → (∀ p, plain (toks H p)) → l_held H !! mirror_handle h = None →
  _sync_host_mirror V h target H = (true, e, H1) →
  kind_in "mem_gb" (toks H1 (Held (mirror_of h))) = target
  ∧ frame [mirror_of h; mirror_handle h] H H1 ∧ live_custody H1 ∧ (∀ p, plain (toks H1 p))
  ∧ ∀ x, exists_tok H1 x ↔ exists_tok H x.
Proof using All.
  intros Hc Hp Hf. unfold _sync_host_mirror, holder_state.
  destruct (io_unreadable _ _ _); [done|]. rewrite kind_in_glob. cbv zeta.
  case_bool_decide as He; [intros [= <- <-]; by split_and!|].
  case_bool_decide as Hlt.
  - destruct (_take_from _ _ _ _ _ _ _ _) as [H2 [[[] ns]|]] eqn:Ht; [|done..]. intros [= <- <-].
    pose proof (take_from_frame _ _ _ _ _ _ _ _ Hf eq_refl Hc (Hp Free) _ _ Ht) as Hfr.
    destruct (take_from_taken _ _ _ _ _ _ _ _ Hf eq_refl Hc (Hp Free) _ _ Ht) as (Hm & _ & Hcnt).
    destruct (moves_sound Free (Held (mirror_of h)) _ _ _ ltac:(done) ltac:(done) Hm Hc Hp) as [Hc2 Hp2].
    split_and!; [|exact Hfr|done|done|intros x; by apply (moves_exists Free (Held (mirror_of h)) _ _ _ x) in Hm].
    rewrite (kind_in_count _ (toks H2 _)) by done. pose proof Hm as (HX & _ & -> & _).
    rewrite count_union_disjoint, Hcnt.
    + unfold demand_of. rewrite lookup_singleton_eq. simpl.
      rewrite (kind_in_count "mem_gb" (toks H (Held (mirror_of h)))) in Hlt |- * by done. lia.
    + pose proof (custody_disjoint H (Held (mirror_of h)) Free Hc ltac:(done) ltac:(done) ltac:(done)). set_solver.
  - destruct (release_count _ _ _ _) as [ret H2] eqn:Hr.
    pose proof (release_count_frame _ _ _ _ _ _ Hr) as Hfr.
    apply release_count_one in Hr as (X & HX & Hrep & _ & _); [|done]. rewrite Hrep.
    case_bool_decide; [done|]. intros [= Hrel%bool_decide_eq_true <- <-].
    destruct (moves_sound (Held (mirror_of h)) Free _ _ _ ltac:(done) ltac:(done) HX Hc Hp) as [Hc2 Hp2].
    rewrite kind_in_count in Hlt, He, Hrel |- * by done.
    split_and!; [|eapply frame_mono; [|exact Hfr]; set_solver|done|done
                 |intros x; by apply (moves_exists (Held (mirror_of h)) Free _ _ _ x) in HX].
    pose proof HX as (HX1 & -> & _). rewrite count_difference by done. lia.
Qed.

(** The first pass, when it reports convergence. *)
Lemma sync_all_synced L hs H ev H1 :
  NoDup hs → (∀ h h', h ∈ hs → h' ∈ hs → mirror_handle h = mirror_handle h' → h = h') →
  live_custody H → (∀ p, plain (toks H p)) → (∀ h, h ∈ hs → l_held H !! mirror_handle h = None) →
  sync_all V L hs H = (ev, true, H1) →
  (∀ h, h ∈ hs → kind_in "mem_gb" (toks H1 (Held (mirror_of h)))
                 = kind_in RAM_CAPACITY_KIND (toks L (Held h)))
  ∧ frame ((mirror_of <$> hs) ++ (mirror_handle <$> hs)) H H1
  ∧ live_custody H1 ∧ (∀ p, plain (toks H1 p)) ∧ ∀ x, exists_tok H1 x ↔ exists_tok H x.
Proof using All.
  revert H ev. induction hs as [|h hs IH]; intros H ev Hnd Hinj Hc Hp Hf; simpl.
  { intros [= <- <-]. split_and!; [set_solver|done|done|done|done]. }
  apply NoDup_cons in Hnd as [Hh Hnd]. unfold holder_state. destruct (io_unreadable _ _ _).
  { by destruct (sync_all V L hs H) as [[]]. }
  rewrite kind_in_glob.
  destruct (_sync_host_mirror V h _ H) as [[s e] H2] eqn:Hs.
  destruct (sync_all V L hs H2) as [[ev' c] H3] eqn:Ha.
  intros [= <- Hsc <-]. apply andb_true_iff in Hsc as [-> ->].
  destruct (sync_synced _ _ _ _ _ Hc Hp (Hf h ltac:(by left)) Hs) as (Ht & Hfr & Hc2 & Hp2 & Hx2).
  destruct (IH H2 ev' Hnd ltac:(intros; apply Hinj; by (right || done)) Hc2 Hp2) as (HA & HF & Hc3 & Hp3 & Hx3).
  { intros h' Hh'. rewrite (Hfr (mirror_handle h')); [apply Hf; by right|].
    rewrite !not_elem_of_cons. split_and!; [apply mirror_handle_ne| |apply not_elem_of_nil].
    intros He. assert (h' = h) as -> by (apply Hinj; [by right|by left|done]). done. }
  { exact Ha. }
  split_and!; [| |done|done|intros x; by rewrite Hx3].
  - intros h' [->|Hh']%elem_of_cons; [|by apply HA]. rewrite <- Ht. f_equal.
    apply (frame_toks _ _ _ _ HF). rewrite elem_of_app, !list_elem_of_fmap.
    intros [(x & Hx%mirror_inj & ?)|(x & Hx & ?)]; [by subst|]. by destruct (mirror_handle_ne x h).
  - etrans; (eapply frame_mono; [|done]); [set_solver|].
    intros x. simpl. rewrite !elem_of_cons, !elem_of_app, elem_of_cons. tauto.
Qed.

(** Emptying reported as complete leaves the holder empty. *)
Lemma release_whole E m H H1 n :
  (∀ x, x ∈ toks H (Held m) → is_token x = true) →
  release E m H = (H1, Ok n) → n = size (glob_tokens (toks H (Held m))) →
  toks H1 (Held m) = ∅ ∧ frame [m] H H1 ∧ (∀ p x, p ≠ Free → x ∈ toks H1 p → x ∈ toks H p).
Proof using All.
  intros Ht Hr Hn. pose proof (empty_into_free_frame _ _ _ _ _ Hr) as Hfr.
  assert (∀ p x, p ≠ Free → x ∈ toks H1 p → x ∈ toks H p) as Hl.
  { intros p x Hp Hx. apply (mv_loses (releases m) H H1 p); [|by eapply release_mv|done].
    intros a b [-> ->]. congruence. }
  split_and!; [|done|done].
  assert (size (glob_tokens (toks H (Held m))) = size (toks H (Held m))) as Hsz.
  { f_equal. apply set_eq. intros x. unfold glob_tokens. rewrite elem_of_filter. specialize (Ht x). tauto. }
  rewrite Hsz in Hn. unfold release, _empty_into_free in Hr.
  destruct (is_dir m H) eqn:Hd; cbn [negb] in Hr.
  2: { apply bool_decide_eq_false, eq_None_not_Some in Hd. simplify_eq. by apply toks_fresh. }
  destruct (move_loop _ _ _ _ _ _ _) as [[ns f] L1] eqn:Hm.
  pose proof Hm as [Hmv Hsub]%move_loop_moves; [|done|apply NoDup_listing].
  assert (n = length ns ∧ toks H1 (Held m) ⊆ toks L1 (Held m)) as [Hlen HH1].
  { destruct f; [by simplify_eq|]. destruct (l_held L1 !! m) as [Hd'|] eqn:Hd1; [|by simplify_eq].
    destruct ((bool_decide _ || bool_decide _) && io_unlink_meta E m); simplify_eq. split; [done|].
    rewrite (proj1 (rmdir_same E m _) (Held m)).
    rewrite (proj1 (set_holder_same m Hd' (mkHolder (h_tokens Hd') None None) L1 Hd1 eq_refl) (Held m)). done. }
  destruct Hmv as (HX & Hrest & _).
  assert (NoDup ns) as Hnd by (eapply sublist_NoDup; [apply NoDup_listing|exact Hsub]).
  assert (list_to_set ns = toks H (Held m)) as Hall.
  { apply leibniz_equiv, (set_subseteq_size_equiv _ _ HX). rewrite size_list_to_set by done. lia. }
  rewrite Hrest, Hall, difference_diag_L in HH1. set_solver.
Qed.

(** The second pass, when it reports convergence. *)
Lemma orphans_released live expected ms H ev H1 :
  NoDup ms → (∀ x, exists_tok H x → is_token x = true) →
  release_orphans_of V live expected ms H = (ev, true, H1) →
  (∀ m s, m ∈ ms → mirrored_holder m = Some s → s ∉ live → s ∉ expected → toks H1 (Held m) = ∅)
  ∧ ∀ m, (m ∉ ms ∨ ∃ s, mirrored_holder m = Some s ∧ s ∈ live) → toks H1 (Held m) = toks H (Held m).
Proof using All.
  revert H ev. induction ms as [|m ms IH]; intros H ev Hnd Ht; simpl.
  { intros [= <- <-]. split; [set_solver|done]. }
  apply NoDup_cons in Hnd as [Hm Hnd].
  destruct (mirrored_holder m) as [s|] eqn:Hs.
  2: { intros [H1' H2']%IH; [|done|done]. split.
       - intros m' s' [->|Hm']%elem_of_cons; [congruence|by apply H1'].
       - intros m' Hm'. apply H2'. destruct Hm' as [?|?]; [left; set_solver|by right]. }
  destruct (decide (s ∈ live ∨ s ∈ expected)) as [Hl|Hl].
  { replace (_ || _) with true by (symmetry; apply orb_true_iff; rewrite !bool_decide_eq_true; done).
    intros [H1' H2']%IH; [|done|done]. split.
    - intros m' s' [->|Hm']%elem_of_cons; [intros ? ? ?; naive_solver|by apply H1'].
    - intros m' Hm'. apply H2'. destruct Hm' as [?|?]; [left; set_solver|by right]. }
  rewrite !bool_decide_eq_false_2 by tauto. cbn [orb]. unfold holder_state.
  destruct (io_unreadable _ _ _); [by destruct (release_orphans_of V live expected ms H) as [[]]|].
  destruct (release _ _ _) as [H2 [n|e]] eqn:Hr;
    [|by destruct (release_orphans_of V live expected ms H2) as [[]]].
  destruct (release_orphans_of V live expected ms H2) as [[ev' c] H3] eqn:Ho.
  intros [= <- Hnc <-]. apply andb_true_iff in Hnc as [Hn%bool_decide_eq_true ->].
  destruct (release_whole _ _ _ _ _ ltac:(intros x Hx; apply Ht; by eexists) Hr Hn) as (He & Hfr & _).
  apply IH in Ho as [H1' H2']; [|done|].
  2: { intros x Hx. apply Ht. apply release_mv in Hr. by apply (mv_exists _ _ _ x Hr). }
  split.
  - intros m' s' [->|Hm']%elem_of_cons; [|by apply H1']. intros _ _ _. rewrite H2' by (by left). done.
  - intros m' Hm'. rewrite H2'.
    + apply (frame_toks _ _ _ _ Hfr). rewrite list_elem_of_singleton. intros ->.
      destruct Hm' as [Hm'|(s' & ? & ?)]; [set_solver|]. simplify_eq. tauto.
    + destruct Hm' as [?|?]; [left; set_solver|by right].
Qed.
End reconcile.

Lemma substring_full s : String.substring 0 (String.length s) s = s.
Proof. induction s as [|a s IH]; [done|]. simpl. by rewrite IH. Qed.

Lemma mirrored_holder_of h : mirrored_holder (mirror_of h) = Some h.
Proof.
  unfold mirrored_holder, mirror_of. rewrite starts_with_app. simpl. f_equal.
  rewrite Nat.sub_0_r. apply substring_full.
Qed.

Lemma elem_of_held_keys h L :
  h ∈ held_keys L ↔ is_Some (l_held L !! h) ∧ is_private_holder h = false.
Proof.
  unfold held_keys, holder_names. rewrite list_elem_of_filter, elem_of_listing, elem_of_dom. tauto.
Qed.

(** When a reconciliation reports convergence -- whatever reads and renames
    failed on the way -- every live holder's host mirror holds exactly what it
    occupies, and every mirror nobody live or expected owns is empty. *)
Theorem reconcile_converged_sound V expected T ev T' :
  is_ram V = true → sound T → (∀ x, exists_tok (t_host T) x → is_token x = true) →
  (∀ h, h ∈ held_keys (t_tier T) → l_held (t_host T) !! mirror_handle V h = None) →
  (∀ h h', h ∈ held_keys (t_tier T) → h' ∈ held_keys (t_tier T) →
     mirror_handle V h = mirror_handle V h' → h = h') →
  reconcile_mirror V expected true T = (ev, true, T') →
  t_tier T' = t_tier T ∧ (∀ h, h ∈ held_keys (t_tier T) → mirrored T' h)
  ∧ (∀ h, h ∉ held_keys (t_tier T) → h ∉ expected → mirror_gib T' h = 0).
Proof.
  intros Hram (_ & Hch & _ & Hph) Htok Hf Hinj. unfold reconcile_mirror. rewrite Hram. cbn [negb].
  destruct (te_list_tier V || te_list_host V); [done|]. cbv zeta.
  destruct (sync_all V _ _ _) as [[ev1 c1] H1] eqn:Hs.
  destruct (release_orphans_of V _ _ _ H1) as [[ev2 c2] H2] eqn:Ho.
  intros [= _ Hcc <-]. apply andb_true_iff in Hcc as [-> ->].
  assert (∀ L, NoDup (held_keys L)) as Hnd by (intros; apply NoDup_filter, NoDup_listing).
  destruct (sync_all_synced V _ _ _ _ _ (Hnd _) Hinj Hch Hph Hf Hs) as (HA & HF & _ & _ & Hx).
  destruct (orphans_released V _ _ _ _ _ _ (Hnd _) ltac:(intros x; rewrite Hx; apply Htok) Ho) as [HO HK].
  split_and!; [done| |].
  - intros h Hh. unfold mirrored, mirror_gib, occupied. simpl. rewrite HK; [by apply HA|].
    right. exists h. by rewrite mirrored_holder_of, elem_of_list_to_set.
  - intros h Hh He. unfold mirror_gib. simpl.
    assert (toks H2 (Held (mirror_of h)) = ∅) as ->; [|done].
    destruct (decide (mirror_of h ∈ held_keys (t_host T))) as [Hin|Hout].
    + eapply HO; [done|by apply mirrored_holder_of|by rewrite elem_of_list_to_set|done].
    + rewrite HK by (by left). rewrite (frame_toks _ _ _ _ HF).
      * apply toks_fresh, eq_None_not_Some. intros HS. apply Hout, elem_of_held_keys. done.
      * rewrite elem_of_app, !list_elem_of_fmap.
        intros [(x & Hx'%mirror_inj & ?)|(x & Hx' & ?)]; [by subst|]. by destruct (mirror_handle_ne V x h).
Qed.

(** The demo tier whose host lost the mirror of its holder, beside an orphan. *)
Definition demo_torn : Tier :=
  mkTier (t_tier demo_tier_taken)
         (fst (transfer io_ok "ram-host:w1" "ram-host:gone" (t_host demo_tier_taken))).
Definition demo_mended : Tier := (reconcile_mirror demo_ram_env {[ "kept" ]} true demo_torn).2.

(** One gigabyte is free, two are needed: the first pass cannot converge until
    the orphan is released, and the second reconciliation does. *)
Example demo_reconcile_twice :
  (reconcile_mirror demo_ram_env {[ "kept" ]} true demo_torn).1.2 = false
  ∧ (reconcile_mirror demo_ram_env {[ "kept" ]} true demo_mended).1.2 = true.
Proof. split; by vm_compute. Qed.

Lemma reconcile_converged_sound_witness :
  mirrored (reconcile_mirror demo_ram_env {[ "kept" ]} true demo_mended).2 "w1".
Proof.
  destruct (reconcile_mirror demo_ram_env {[ "kept" ]} true demo_mended) as [[ev c] T'] eqn:HE.
  assert (c = true) as -> by (change c with ((ev, c, T').1.2); rewrite <- HE; by vm_compute).
  assert (held_keys (t_tier demo_mended) = ["w1"]) as Hk by (by vm_compute).
  refine (proj1 (proj2 (reconcile_converged_sound demo_ram_env {[ "kept" ]} demo_mended ev T'
            eq_refl _ _ _ _ HE)) "w1" _).
  - split_and!; [apply single_custody_live; by vm_compute|apply single_custody_live; by vm_compute
                |apply plain_ledger_plain; by vm_compute|apply plain_ledger_plain; by vm_compute].
  - intros x [[|h|] Hx].
    + apply (bool_decide_eq_true_1 (set_Forall (λ x, is_token x = true) (l_free (t_host demo_mended))));
        [by vm_compute|exact Hx].
    + assert (h ∈ holder_names (t_host demo_mended)) as Hh by (by eapply holder_in_names).
      assert (Forall (λ h, set_Forall (λ x, is_token x = true) (toks (t_host demo_mended) (Held h)))
                (holder_names (t_host demo_mended))) as Hall
        by (apply (bool_decide_eq_true_1 _); by vm_compute).
      rewrite Forall_forall in Hall. by apply (Hall h Hh).
    + assert (l_dead (t_host demo_mended) = ∅) as Hd by (by vm_compute).
      change (x ∈ l_dead (t_host demo_mended)) in Hx. rewrite Hd in Hx.
      exact (False_ind _ (not_elem_of_empty (C := gset string) x Hx)).
  - intros h. rewrite Hk, list_elem_of_singleton. intros ->. by vm_compute.
  - intros h h'. rewrite Hk, !list_elem_of_singleton. by intros -> ->.
  - rewrite Hk. by left.
Defined.
