(* ===== verification/TierMint.v ===== *)
(** * A mint reaches its target

    [TierLedger.mint] reclaims destroyed names, grows and then lowers; on a
    closed, readable population every kind ends at the larger of its target
    and what is held. *)

From S2P Require Import Prelude.
From S2P Require Import TokenName.
From S2P Require Import Ledger.
From S2P Require Import LedgerFacts.
From S2P Require Import LedgerEffects.
From S2P Require Import LedgerInv.
From S2P Require Import LedgerCount.
From S2P Require Import LedgerMint.
From S2P Require Import LedgerRetire.
From S2P Require Import LedgerSpec.
From S2P Require Import LedgerCensus.
From S2P Require Import Tier.
From S2P Require Import TierFacts.
From S2P Require Import TierSpec.
From stdpp Require Import options.

(** The moves of a reclaim: destroyed names back to free. *)
Definition revives (p q : place) : Prop := p = Dead ∧ q = Free.

Lemma revives_held L L' h : mv revives L L' → toks L' (Held h) = toks L (Held h).
Proof. apply mv_untouched. intros p q [-> ->]. done. Qed.

Lemma revives_held_names L L' : mv revives L L' → held_names L' = held_names L.
Proof.
  intros Hm. apply set_eq. intros n. rewrite !elem_of_held_names.
  by setoid_rewrite (revives_held _ _ _ Hm).
Qed.

Lemma revives_present L L' : mv revives L L' → present L ⊆ present L'.
Proof.
  intros Hm. unfold present. rewrite (revives_held_names _ _ Hm).
  assert (toks L Free ⊆ toks L' Free) by (eapply mv_gains, Hm; by intros p q [-> ->]).
  unfold glob_tokens. set_solver.
Qed.

Lemma dead_kind_token n : dead_kind n ≠ "" → kind_of n = dead_kind n ∧ is_token n = true.
Proof.
  unfold dead_kind, kind_of, is_token. destruct (rsplit_once dash n) as [[l r]|] eqn:Hr; [|done].
  intros _. split; [done|]. apply rsplit_once_Some in Hr as [-> _].
  rewrite has_char_app. simpl. apply orb_true_r.
Qed.

Lemma kind_in_add k n X :
  n ∉ X → is_token n = true → kind_in k ({[n]} ∪ X) = kind_in k X + (if bool_decide (kind_of n = k) then 1 else 0).
Proof.
  intros Hn Ht. unfold kind_in. case_bool_decide as Hk.
  - rewrite Nat.add_comm, <- (size_singleton (C := gset string) n), <- size_union.
    + f_equal. apply set_eq. intros x. unfold glob_tokens.
      rewrite !elem_of_union, !elem_of_filter, !elem_of_union, !elem_of_singleton.
      destruct (decide (x = n)) as [->|]; tauto.
    + intros x. unfold glob_tokens. rewrite !elem_of_filter, elem_of_singleton. by intros -> (_ & _ & ?).
  - rewrite Nat.add_0_r. f_equal. apply set_eq. intros x. unfold glob_tokens.
    rewrite !elem_of_filter, elem_of_union, elem_of_singleton.
    destruct (decide (x = n)) as [->|]; tauto.
Qed.

(** After the loop each wanted kind is met or has no reclaimable name left. *)
Lemma reclaim_loop_spec E ud wanted ns counts rec L r L' :
  (∀ n, io_rename E Dead Free n = None) → NoDup ns → (∀ n, n ∈ ns → n ∈ l_dead L) → custody L →
  (∀ k, default 0 (counts !! k) = kind_in k (present L)) →
  reclaim_loop E ud wanted ns (present L) counts rec L = (r, L') →
  mv revives L L'
  ∧ ∀ k w, wanted !! k = Some w → k ≠ "" →
      (w ≤ Z.of_nat (kind_in k (present L')))%Z ∨ ∀ n, n ∈ ns → dead_kind n = k → n ∉ l_dead L'.
Proof.
  intros HE. revert counts rec L. induction ns as [|n ns IH]; intros counts rec L Hnd Hin Hc Hcnt;
    cbn [reclaim_loop].
  { intros [= _ <-]. split; [apply mv_refl|]. intros k w _ _. right. intros n Hn. by apply elem_of_nil in Hn. }
  apply NoDup_cons in Hnd as [Hn Hnd]. cbv zeta.
  assert (n ∈ toks L Dead) as Hd by (apply (Hin n); by left).
  assert (n ∉ present L) as Hnp.
  { unfold present, glob_tokens. rewrite elem_of_union, !elem_of_filter, elem_of_held_names.
    intros [[_ Hf]|[_ [h Hh]]]; [by pose proof (Hc n Free Dead Hf Hd)|by pose proof (Hc n (Held h) Dead Hh Hd)]. }
  rewrite (bool_decide_eq_false_2 (n ∈ present L)) by done.
  assert ((w ← (if bool_decide (dead_kind n = "") then None else wanted !! dead_kind n);
                   if bool_decide (w ≤ Z.of_nat (kind_in (dead_kind n) (present L)))%Z then None else Some w) = None →
          reclaim_loop E ud wanted ns (present L) counts rec L = (r, L') →
          mv revives L L' ∧ ∀ k w, wanted !! k = Some w → k ≠ "" →
            (w ≤ Z.of_nat (kind_in k (present L')))%Z ∨ ∀ x, x ∈ n :: ns → dead_kind x = k → x ∉ l_dead L') as Hskip.
  { intros Hno Hl. apply IH in Hl as [Hm Hk]; [|done|intros x Hx; apply Hin; by right|done|done].
    split; [done|]. intros k w Hw Hk0. destruct (Hk k w Hw Hk0) as [?|Hrest]; [by left|].
    destruct (decide (dead_kind n = k)) as [<-|Hne].
    - left. rewrite bool_decide_eq_false_2 in Hno by done. rewrite Hw in Hno. simpl in Hno.
      case_bool_decide; [|done]. pose proof (kind_in_le (dead_kind n) _ _ (revives_present _ _ Hm)). lia.
    - right. intros x [->|Hx]%elem_of_cons; [done|by apply Hrest]. }
  destruct (if bool_decide (dead_kind n = "") then None else wanted !! dead_kind n) as [w|] eqn:Hw;
    [|by apply Hskip].
  rewrite Hcnt. simpl in Hskip. case_bool_decide as Hle; [by apply Hskip|]. clear Hskip.
  assert (dead_kind n ≠ "") as Hne by (case_bool_decide; done).
  destruct (dead_kind_token n Hne) as [Hkd Htok].
  destruct (rename_free E Dead Free n L (HE n) Hd) as [L1 Hr]. rewrite Hr.
  apply rename_ok in Hr as [_ Hr]; [|done].
  assert (mv revives L L1) as Hm1 by (by apply (mv_one _ Dead Free {[n]})).
  assert (present L1 = {[n]} ∪ present L) as Hp1.
  { unfold present. rewrite (revives_held_names _ _ Hm1).
    destruct Hr as (_ & _ & Hf & _). change (l_free L1) with (toks L1 Free). rewrite Hf.
    apply set_eq. intros x. unfold glob_tokens. rewrite !elem_of_union, !elem_of_filter, elem_of_union, elem_of_singleton.
    change (x ∈ toks L Free) with (x ∈ l_free L). destruct (decide (x = n)) as [->|]; tauto. }
  rewrite <- Hp1. intros Hl. apply IH in Hl as [Hm Hk]; [|done| |by eapply mv_custody|].
  - split; [by eapply mv_trans|]. intros k v Hv Hk0. destruct (Hk k v Hv Hk0) as [?|Hrest]; [by left|].
    right. intros x [->|Hx]%elem_of_cons; [|by apply Hrest]. intros _ Hdx.
    apply (mv_custody _ _ _ Hm1) in Hc. apply (mv_custody _ _ _ Hm) in Hc.
    assert (n ∈ toks L' Free) as Hfx.
    { eapply mv_gains in Hm; [apply Hm|by intros p q [-> ->]]. apply (moves_in Dead Free _ _ _ n Free ltac:(done) Hr).
      left. split; [done|by apply elem_of_singleton]. }
    by pose proof (Hc n Dead Free Hdx Hfx).
  - intros x Hx. assert (x ∈ toks L1 Dead); [|done].
    apply (moves_in Dead Free _ _ _ x Dead ltac:(done) Hr). right. split; [apply Hin; by right|].
    intros _ ->%elem_of_singleton. done.
  - intros k. unfold bump. rewrite Hp1, kind_in_add, lookup_insert, Hkd by done.
    destruct (decide (dead_kind n = k)) as [Hkk|Hkk].
    + rewrite Hkk, bool_decide_eq_true_2, <- (Hcnt k) by done. simpl. lia.
    + rewrite bool_decide_eq_false_2, <- (Hcnt k) by done. lia.
Qed.

Lemma count_by_kind_eq X k :
  (∀ n, n ∈ X → is_token n = true) → default 0 (count_by_kind X !! k) = kind_in k X.
Proof.
  intros Ht. unfold count_by_kind. rewrite tally_lookup, lookup_empty. simpl.
  unfold kind_in. rewrite <- (size_list_to_set (C := gset string)) by apply NoDup_filter, NoDup_elements.
  f_equal. apply set_eq. intros n. unfold glob_tokens.
  rewrite elem_of_list_to_set, list_elem_of_filter, elem_of_elements, !elem_of_filter.
  specialize (Ht n). tauto.
Qed.

Section mint.
Context (V : TEnv) (wanted : gmap string Z) (L : Ledger).
Local Abbreviation E := (te_tier V).
Context (HM : mints E) (HU : unlinks E) (HR : ∀ n, io_rename E Dead Free n = None).
Context (Hpos : ∀ k w, wanted !! k = Some w → (0 ≤ w)%Z ∧ k ≠ "" ∧ has_char dash k = false).
Context (Hc : custody L) (Hpl : ∀ p, plain (toks L p)).
Context (Hclosed : ∀ n, is_token n = true → n ∈ l_minted L ↔ exists_tok L n).

Lemma reclaim_mint_spec r L1 :
  _reclaim_mint V wanted L = (r, L1) →
  mv revives L L1
  ∧ ∀ k w, wanted !! k = Some w →
      (w ≤ Z.of_nat (kind_in k (present L1)))%Z ∨ ∀ n, dead_kind n = k → n ∉ l_dead L1.
Proof using All.
  unfold _reclaim_mint. destruct HM as (-> & HMu & _). case_bool_decide as Hn.
  { intros [= _ <-]. split; [apply mv_refl|]. intros k w _. right. intros n _ Hd.
    apply elem_of_listing in Hd. rewrite Hn in Hd. by apply elem_of_nil in Hd. }
  rewrite present_tokens_eq by done. intros Hl.
  apply reclaim_loop_spec in Hl as [Hm Hk]; [|done|apply NoDup_listing|intros n; apply elem_of_listing|done|].
  2: { intros k. apply count_by_kind_eq. intros n. unfold present, glob_tokens.
       rewrite elem_of_union, !elem_of_filter. tauto. }
  split; [done|]. intros k w Hw. destruct (Hpos k w Hw) as (_ & Hk0 & _).
  destruct (Hk k w Hw Hk0) as [?|Hrest]; [by left|right].
  intros n Hnk Hd. apply (Hrest n); [|done|done]. apply elem_of_listing.
  assert (toks L1 Dead ⊆ toks L Dead) as Hsub by (eapply mv_loses, Hm; by intros p q [-> ->]).
  by apply Hsub.
Qed.

(** The live total of one kind. *)
Definition total_of (k : string) (L : Ledger) : nat :=
  count_of k (l_free L) + count_of k (held_names L).

Lemma plain_held_names L0 : (∀ p, plain (toks L0 p)) → plain (held_names L0).
Proof using. intros H n [h Hn]%elem_of_held_names. by apply (H (Held h)). Qed.

Lemma total_present k L0 :
  custody L0 → (∀ p, plain (toks L0 p)) → kind_in k (present L0) = total_of k L0.
Proof using.
  intros Hc0 Hp0. unfold total_of. rewrite <- count_union_disjoint.
  - rewrite <- kind_in_count.
    + unfold kind_in, present, glob_tokens. f_equal. apply set_eq. intros n.
      rewrite !elem_of_filter, !elem_of_union, !elem_of_filter. tauto.
    + intros n [Hn|Hn]%elem_of_union; [by apply (Hp0 Free)|by apply (plain_held_names L0)].
  - intros n Hf [h Hn]%elem_of_held_names. by pose proof (Hc0 n Free (Held h) Hf Hn).
Qed.

(** The names of a declared kind are present after the grow. *)
Lemma declared_count k (w : Z) X :
  (0 ≤ w)%Z → (∀ i : nat, (Z.of_nat i < w)%Z → token_name k (N.of_nat i) ∈ X) → Z.to_nat w ≤ count_of k X.
Proof using.
  intros Hw HX. unfold count_of.
  replace (Z.to_nat w) with (length ((λ i : nat, token_name k (N.of_nat i)) <$> seq 0 (Z.to_nat w)))
    by (by rewrite length_fmap, length_seq).
  rewrite <- (size_list_to_set (C := gset string)).
  - apply subseteq_size. intros n. rewrite elem_of_list_to_set, list_elem_of_fmap.
    intros (i & -> & Hi). apply elem_of_seq in Hi. unfold glob_kind. apply elem_of_filter.
    split; [apply of_kind_token|]. apply HX. lia.
  - apply NoDup_fmap; [|apply NoDup_seq]. intros i j [_ ?]%token_name_inj. lia.
Qed.

Lemma mv_plain P L0 L1 : mv P L0 L1 → (∀ p, plain (toks L0 p)) → ∀ p, plain (toks L1 p).
Proof using.
  intros Hm Hp p n Hn Ht. apply (mv_exists _ _ _ n) in Hm. destruct Hm as [Hm _].
  destruct Hm as [q Hq]; [by exists p|]. by apply (Hp q).
Qed.

(** After reclaiming and growing, no kind is below its target. *)
Lemma grown_total r L1 L2 k :
  _reclaim_mint V wanted L = (r, L1) →
  ensure_capacity tier_conf E (wanted_of wanted) L1 = (L2, Ok tt) →
  mv revives L L1 ∧ custody L2 ∧ marked L2 ∧ (∀ p, plain (toks L2 p))
  ∧ (∀ h, toks L2 (Held h) = toks L (Held h))
  ∧ Z.to_nat (default 0%Z (wanted !! k)) ≤ total_of k L2.
Proof using All.
  intros Hr Hen. destruct (reclaim_mint_spec _ _ Hr) as [Hm Hmet].
  assert (custody L1) as Hc1 by (by eapply mv_custody).
  assert (∀ p, plain (toks L1 p)) as Hpl1 by (by eapply mv_plain).
  assert (∀ n, is_token n = true → n ∈ l_minted L1 ↔ exists_tok L1 n) as Hcl1.
  { intros n Ht. by rewrite (mv_minted _ _ _ Hm), (mv_exists _ _ _ n Hm), Hclosed. }
  assert (marked L1) as HMk1 by (intros n Ht Hx; by apply Hcl1).
  assert (∀ k v, wanted_of wanted !! k = Some v → wanted !! k = Some v ∧ (0 ≤ v)%Z) as Hwo.
  { intros k' v. rewrite wanted_lookup. destruct (wanted !! k'); simpl; [|done].
    case_bool_decide; [|done]. intros [= <-]. split; [done|lia]. }
  destruct (ensure_capacity_result tier_conf E (wanted_of wanted) L1 HM) as (L2' & Hen' & Hsame & _ & Hfree).
  { intros k' v Hv. by destruct (Hwo _ _ Hv). }
  assert (L2' = L2) as -> by congruence. pose proof (same_held_names _ _ Hsame) as Hhn.
  pose proof (ensure_capacity_grows _ _ _ _ _ _ Hen) as Hg.
  assert (custody L2 ∧ marked L2) as [Hc2 HMk2] by eauto using grows_custody, grows_marked.
  assert (∀ p, plain (toks L2 p)) as Hpl2.
  { intros p n Hn Ht. destruct (grows_toks _ _ _ _ Hg Hn) as [Ho|(-> & Hnm & _)]; [by apply (Hpl1 p)|].
    change (n ∈ l_free L2) in Hn. rewrite Hfree in Hn.
    apply elem_of_union in Hn as [Hn|Hn]; [by apply (Hpl1 Free)|].
    apply elem_of_difference in Hn as [Hn _]. apply elem_of_difference in Hn as [Hn _].
    apply elem_of_declared in Hn as (k' & v & i & Hv & -> & _). rewrite kind_of_token.
    apply Hwo in Hv as [Hv _]. by apply (Hpos k' v Hv). }
  split_and!; [done|done|done|done| |].
  { intros h. rewrite (proj1 Hg), <- (revives_held _ _ h Hm). done. }
  destruct (wanted !! k) as [w|] eqn:Hw; simpl; [|lia].
  destruct (Hpos k w Hw) as (Hw0 & Hk0 & Hkd).
  destruct (Hmet k w Hw) as [Hge|Hnone].
  - rewrite total_present in Hge by done. unfold total_of in *. rewrite Hhn.
    pose proof (count_le k (l_free L1) (l_free L2) ltac:(rewrite Hfree; set_solver)). lia.
  - unfold total_of. rewrite <- count_union_disjoint.
    2: { intros n Hf [h Hn]%elem_of_held_names. by pose proof (Hc2 n Free (Held h) Hf Hn). }
    apply declared_count; [done|]. intros i Hi. rewrite Hfree, Hhn.
    set (n := token_name k (N.of_nat i)). rewrite !elem_of_union, !elem_of_difference.
    destruct (decide (n ∈ held_names L1)) as [|Hnh]; [by right|].
    destruct (decide (n ∈ l_minted L1)) as [Hmi|Hnm].
    + apply Hcl1 in Hmi; [|apply is_token_token]. apply exists_tok_iff in Hmi as [?|[?|Hd]]; [by left; left|done|].
      destruct (Hnone n); [|done]. unfold dead_kind, n, token_name.
      by rewrite rsplit_once_app by (by apply pad4_clean).
    + left. right. split; [split|done]; [|done]. apply elem_of_declared. exists k, w, i. split_and!; [|done|done].
      rewrite wanted_lookup, Hw. simpl. by rewrite bool_decide_eq_true_2 by lia.
Qed.

(** The census of a readable ledger counts the live totals. *)
Lemma census_total L0 k :
  custody L0 → (∀ p, plain (toks L0 p)) →
  default 0 (fst (capacity_census E L0) !! k) = total_of k L0 ∧ snd (capacity_census E L0) = [].
Proof using HM.
  intros Hc0 Hp0. destruct HM as (_ & HMu & _). unfold capacity_census.
  destruct (_held_census E L0) as [hp un] eqn:Hcen.
  assert (un = []) as ->.
  { unfold _held_census in Hcen. rewrite held_census_fold in Hcen. injection Hcen as _ <-.
    apply elem_of_nil_inv. intros h [Hh _]%list_elem_of_filter. by rewrite HMu in Hh. }
  split; [|done]. simpl fst. rewrite tally_lookup, tally_lookup, lookup_empty. simpl default.
  rewrite filter_listing_length. unfold total_of.
  change (size (filter (λ n, kind_of n = k) (glob_tokens (l_free L0)))) with (kind_in k (l_free L0)).
  rewrite (kind_in_count k (l_free L0)) by apply (Hp0 Free).
  rewrite <- (kind_in_count k (held_names L0)) by (by apply plain_held_names). f_equal.
  assert (NoDup hp) as Hnd.
  { unfold _held_census in Hcen. rewrite held_census_fold in Hcen. injection Hcen as <- _.
    by apply held_listings_NoDup. }
  rewrite <- (size_list_to_set (C := gset string)) by (by apply NoDup_filter).
  unfold kind_in. f_equal. apply set_eq. intros n.
  rewrite elem_of_list_to_set, list_elem_of_filter, (held_census_readable _ _ _ Hcen).
  unfold glob_tokens. rewrite !elem_of_filter. tauto.
Qed.

Lemma retire_kinds_ok mi hp un cap re L0 :
  Forall (λ kv, 0 ≤ kv.2)%Z cap → ∃ L1 r, retire_kinds E mi hp un cap re L0 = (L1, Ok r).
Proof using.
  intros Hp. revert re L0. induction Hp as [|[k c] cap Hk Hp IH]; intros re L0; simpl; [eauto|].
  rewrite bool_decide_eq_false_2 by (simpl in Hk; lia).
  destruct (retire_loop E _ L0) as [c' L1]. apply IH.
Qed.

(** A kind the retirement is not asked about keeps its free tokens. *)
Lemma retire_other cap L0 now :
  (∀ k t, cap !! k = Some t → 0 ≤ t)%Z → plain (l_free L0) →
  ∃ L1 r, retire_free_capacity E now cap L0 = (L1, Ok r)
          ∧ ∀ k, cap !! k = None → count_of k (l_free L1) = count_of k (l_free L0).
Proof using HU.
  intros Hcap Hp0. unfold retire_free_capacity. destruct (_held_census E L0) as [hp un].
  destruct (retire_kinds_ok (if bool_decide (un = []) then None else _minted_and_dead_names E L0)
              hp un (sorted_items cap) ∅ L0) as (L1 & r & Hr).
  { apply Forall_forall. intros [k t] Hin%elem_of_sorted_items. by apply (Hcap k). }
  rewrite Hr. eexists _, r. split; [done|]. intros k Hk.
  apply retire_kinds_counts in Hr as [_ Hr]; [|done|apply sorted_items_NoDup|done].
  assert (l_free (report_census now un (listing (dom cap)) r L1).2 = l_free L1) as -> by (by destruct un).
  unfold count_of. rewrite Hr; [done|]. rewrite sorted_items_keys, elem_of_listing.
  by apply not_elem_of_dom.
Qed.

Lemma lower_lookup total k :
  lower_of wanted total [] !! k
  = (t ← total !! k; if bool_decide (default 0%Z (wanted !! k) < Z.of_nat t)%Z
                     then Some (default 0%Z (wanted !! k)) else None).
Proof using. unfold lower_of. rewrite bool_decide_eq_true_2 by done. by rewrite map_lookup_imap. Qed.

Lemma apply_mint_spec :
  ∃ L' res, _apply_mint V wanted L = (L', Ok res)
    ∧ (∀ h, toks L' (Held h) = toks L (Held h))
    ∧ ∀ k, total_of k L' = max (Z.to_nat (default 0%Z (wanted !! k))) (count_of k (held_names L)).
Proof using All.
  unfold _apply_mint. destruct (_reclaim_mint V wanted L) as [rc L1] eqn:Hr.
  destruct (ensure_capacity_result tier_conf E (wanted_of wanted) L1 HM) as (L2 & Hen & _).
  { intros k v. rewrite wanted_lookup. destruct (wanted !! k); simpl; [|done].
    case_bool_decide; [|done]. intros [= <-]. lia. }
  rewrite Hen.
  assert (∀ k, Z.to_nat (default 0%Z (wanted !! k)) ≤ total_of k L2) as Hge
    by (intros k; by eapply (grown_total rc L1 L2 k)).
  destruct (grown_total rc L1 L2 "" Hr Hen) as (_ & Hc2 & HMk2 & Hpl2 & Hheld & _).
  assert (∀ L3, (∀ h, toks L3 (Held h) = toks L2 (Held h)) → held_names L3 = held_names L) as Hhn.
  { intros L3 H3. apply set_eq. intros n. rewrite !elem_of_held_names.
    setoid_rewrite H3. by setoid_rewrite Hheld. }
  pose proof (λ k, census_total L2 k Hc2 Hpl2) as Hcen.
  destruct (capacity_census E L2) as [total un]. simpl in Hcen.
  assert (un = []) as -> by apply (Hcen "").
  assert (∀ k, lower_of wanted total [] !! k = None → total_of k L2 ≤ Z.to_nat (default 0%Z (wanted !! k))) as Hnl.
  { intros k. rewrite lower_lookup. destruct (Hcen k) as [Hk _].
    destruct (total !! k); simpl in *; [case_bool_decide; [done|]|]; intros _; lia. }
  assert (∀ k t, lower_of wanted total [] !! k = Some t →
            t = default 0%Z (wanted !! k) ∧ (0 ≤ t)%Z) as Hlow.
  { intros k t. rewrite lower_lookup. destruct (total !! k); simpl; [|done]. case_bool_decide; [|done].
    intros [= <-]. split; [done|]. destruct (wanted !! k) as [w|] eqn:Hw; simpl; [by apply (Hpos k w Hw)|lia]. }
  case_bool_decide as Hemp.
  - simpl. eexists _, _. split; [done|]. split; [exact Hheld|]. intros k.
    assert (lower_of wanted total [] !! k = None) as Hk by (by rewrite Hemp, lookup_empty).
    specialize (Hnl k Hk). specialize (Hge k). change (total_of k (set_report None L2)) with (total_of k L2).
    assert (count_of k (held_names L) ≤ total_of k L2); [|lia]. unfold total_of. rewrite (Hhn L2) by done. lia.
  - destruct (retire_other (lower_of wanted total []) L2 (te_now V)) as (L3 & rr & Hret & Hoth);
      [by intros k t Hk; destruct (Hlow k t Hk)|apply (Hpl2 Free)|].
    rewrite Hret. eexists _, _. split; [done|].
    pose proof (retire_free_capacity_shrinks _ _ _ _ _ _ Hret) as (Hh3 & _).
    split; [intros h; by rewrite Hh3|]. intros k. unfold total_of. rewrite (Hhn L3) by done.
    pose proof (Hhn L2 ltac:(done)) as Hhn2. specialize (Hge k).
    destruct (lower_of wanted total [] !! k) as [t|] eqn:Hk.
    + pose proof (retire_free_capacity_bound _ _ _ _ _ _ HU Hc2 HMk2 (Hpl2 Free) Hret k t Hk) as Hb.
      pose proof (retire_free_capacity_floor _ _ _ _ _ _ HU Hc2 (Hpl2 Free)
                    ltac:(intros; apply HM) Hret k t Hk) as Hfl.
      destruct (Hlow k t Hk) as [-> _]. rewrite Hhn2 in *. unfold total_of in Hge. rewrite Hhn2 in Hge. lia.
    + rewrite (Hoth k Hk). specialize (Hnl k Hk). unfold total_of in *. rewrite Hhn2 in *. lia.
Qed.
End mint.

(** On a readable tier with a closed population, a mint succeeds, touches
    no holder, and brings every kind to exactly the larger of its target and
    what is held -- reclaiming destroyed names, minting new ones, or retiring
    free ones as needed. *)
Theorem mint_reaches_target V wanted T :
  mints (te_tier V) → unlinks (te_tier V) → (∀ n, io_rename (te_tier V) Dead Free n = None) →
  (∀ k w, wanted !! k = Some w → (0 ≤ w)%Z ∧ k ≠ "" ∧ has_char dash k = false) →
  custody (t_tier T) → (∀ p, plain (toks (t_tier T) p)) →
  (∀ n, is_token n = true → n ∈ l_minted (t_tier T) ↔ exists_tok (t_tier T) n) →
  ∃ T' res, mint V wanted T = (T', Ok res) ∧ t_host T' = t_host T
    ∧ (∀ h, toks (t_tier T') (Held h) = toks (t_tier T) (Held h))
    ∧ ∀ k, total_of k (t_tier T')
           = max (Z.to_nat (default 0%Z (wanted !! k))) (count_of k (held_names (t_tier T))).
Proof.
  intros HM HU HR Hpos Hc Hpl Hcl. unfold mint. rewrite bool_decide_eq_false_2.
  2: { intros (k & w & Hw & Hneg). destruct (Hpos k w Hw). lia. }
  destruct (apply_mint_spec V wanted (t_tier T) HM HU HR Hpos Hc Hpl Hcl) as (L' & res & -> & Hh & Ht).
  by exists (set_tier L' T), res.
Qed.

Lemma demo_destroyed_custody : custody demo_destroyed.
Proof.
  eapply (step_marked host_conf io_ok demo_taken); [done|apply s_retire_held|apply demo_taken_marked].
Qed.

Lemma demo_destroyed_closed n : n ∈ l_minted demo_destroyed ↔ exists_tok demo_destroyed n.
Proof.
  assert (l_minted demo_destroyed = l_free demo_destroyed ∪ (held_names demo_destroyed ∪ l_dead demo_destroyed))
    as Heq by (by vm_compute).
  rewrite Heq, exists_tok_iff, !elem_of_union. reflexivity.
Qed.

Lemma demo_capacity_ok k w :
  demo_capacity !! k = Some w → (0 ≤ w)%Z ∧ k ≠ "" ∧ has_char dash k = false.
Proof.
  unfold demo_capacity. rewrite lookup_insert. case_decide as Hk; [intros [= <-]; by subst|].
  rewrite lookup_singleton. case_decide as Hk'; [intros [= <-]; by subst|done].
Qed.

(** Two of the demo box's three gigabytes are destroyed; the mint reclaims
    them. *)
Lemma mint_reaches_target_witness :
  ∃ T' res, mint demo_ram_env demo_capacity (mkTier demo_destroyed empty_ledger) = (T', Ok res)
    ∧ total_of "mem_gb" (t_tier T') = 3.
Proof.
  destruct (mint_reaches_target demo_ram_env demo_capacity (mkTier demo_destroyed empty_ledger))
    as (T' & res & Hm & _ & _ & Ht).
  - done.
  - done.
  - done.
  - exact demo_capacity_ok.
  - exact demo_destroyed_custody.
  - apply plain_ledger_plain. by vm_compute.
  - intros n _. exact (demo_destroyed_closed n).
  - exists T', res. split; [exact Hm|]. rewrite Ht. by vm_compute.
Defined.
