(* ===== verification/Watch.v ===== *)
(** * Execution watches

    The budgets and stall watches of [src/prismabuild/pool.py]: the sealed
    execution budget, the phase-by-phase stall policy, [ProgressWatch] (what a
    launch's progress reports may grant) and [ActivityWatch] (the fallback on
    silence).  Times are integers of one unit (microseconds), where the source
    uses floating-point seconds; a clock reading and what a file read answers
    are arguments. *)

From S2P Require Import Prelude.
From stdpp Require Import options.

Open Scope Z_scope.

(** ** Budgets *)

Definition second : Z := 1000000.
Definition DEFAULT_STALL_ALLOWANCE : Z := 7200 * second.

(** [min(requested, ceiling)] when there is a ceiling. *)
Definition under_ceiling (requested : Z) (ceiling : option Z) : Z :=
  match ceiling with Some c => Z.min requested c | None => requested end.

Record ExecutionBudget := mkBudget {
  eb_effective : option Z; eb_requested : option Z; eb_ceiling : option Z }.

(** Did the worker's ceiling, and not the submitter, decide? *)
Definition budget_clamped (b : ExecutionBudget) : bool :=
  match eb_requested b, eb_ceiling b with
  | Some r, Some c => bool_decide (c < r)
  | _, _ => false
  end.

Definition execution_budget (requested ceiling : option Z) : ExecutionBudget :=
  match requested with
  | None => mkBudget None None ceiling
  | Some r => mkBudget (Some (under_ceiling r ceiling)) (Some r) ceiling
  end.

Record DefaultStall := mkStall { ds_requested : option Z; ds_ceiling : option Z; ds_effective : Z }.

Definition stall_clamped (d : DefaultStall) : bool :=
  match ds_ceiling d with
  | Some c => bool_decide (c < default DEFAULT_STALL_ALLOWANCE (ds_requested d))
  | None => false
  end.

Definition default_stall (requested ceiling : option Z) : DefaultStall :=
  mkStall requested ceiling (under_ceiling (default DEFAULT_STALL_ALLOWANCE requested) ceiling).

(** ** The stall policy *)

Record ProgressPhase := mkPhase { ph_name : string; ph_requested : Z; ph_ceiling : option Z }.

Definition effective_grace (p : ProgressPhase) : Z := under_ceiling (ph_requested p) (ph_ceiling p).

Definition phase_clamped (p : ProgressPhase) : bool :=
  match ph_ceiling p with Some c => bool_decide (c < ph_requested p) | None => false end.

(** [cycle]: a phase may be granted again once per committed count. *)
Record ProgressPolicy := mkPolicy { po_phases : list ProgressPhase; po_cycle : bool }.

Definition no_progress_bound (po : ProgressPolicy) : Z :=
  foldr Z.add 0 (effective_grace <$> po_phases po).

Definition policy_clamped (po : ProgressPolicy) : bool := existsb phase_clamped (po_phases po).

(** The first phase of that name. *)
Fixpoint index_in (name : string) (ps : list ProgressPhase) : option nat :=
  match ps with
  | [] => None
  | p :: ps' => if bool_decide (ph_name p = name) then Some 0%nat else S <$> index_in name ps'
  end.
Definition index_of (po : ProgressPolicy) (name : string) : option nat := index_in name (po_phases po).

Definition grace_at (po : ProgressPolicy) (i : nat) : Z :=
  match po_phases po !! i with Some p => effective_grace p | None => 0 end.

(** ** What a progress file read answers *)

(** A decoded report.  [rp_units] is [None] when the field is not a finite
    number. *)
Record Report := mkReport_ {
  rp_schema_ok : bool; rp_token : string; rp_phase : string; rp_units : option Z;
  rp_unit : option string; rp_reported : option Z }.

Inductive Reading :=
  | Absent
  | Replaced                         (* replacement churn: nothing was read *)
  | Unreadable (error : string)
  | Unparsable
  | Not_an_object
  | Decoded (r : Report).

(** A wait verdict as the worker reads it; times as the record states them. *)
Record Verdict := mkVerdict {
  v_exempt : bool; v_since_unix : option Z; v_since_monotonic : option Z }.

(** ** The progress watch *)

(** What has been accepted: counter, phase, and the phases granted at this
    count. *)
Record Position := mkPosition {
  units_high_water : Z; phase_index : nat; phases_granted : gset nat; phases_entered : nat }.

(** The three marks on the monotonic clock. *)
Record Marks := mkMarks {
  last_advance : Z; last_real_advance : Z; exempt_through : Z }.

(** Seconds credited, by the wait they were credited to. *)
Record Credits := mkCredits {
  staged_wait_exempt : Z; pool_contention_exempt : Z; start_gate_exempt : Z;
  reader_plan_exempt : Z; export_wait_exempt : Z; queued_child_wait_exempt : Z }.

(** The last verdict of each kind, kept for the record. *)
Record Evidence := mkEvidence {
  ev_staged_wait : option Verdict; ev_reader_plan : option Verdict;
  ev_export_wait : option Verdict; ev_queued_child_wait : option Verdict }.

Record Accepted := mkAccepted {
  ac_phase : string; ac_units : Z; ac_unit : option string; ac_reported : Z }.

(** What a terminal record says of the reporter. *)
Record Tallies := mkTallies {
  tl_accepted : nat; tl_rejected : nat; tl_last_rejection : option string;
  tl_sampled_unix : option Z; tl_last_advance_unix : option Z;
  tl_last_accepted : option Accepted; tl_first_advance : option Z }.

Record ProgressWatch := mkWatch {
  pw_token : string; pw_policy : ProgressPolicy;
  pw_pos : Position; pw_marks : Marks; pw_credits : Credits; pw_evidence : Evidence;
  pw_tallies : Tallies }.

(** [__init__]: launch grants the first phase's allowance. *)
Definition new_watch (token : string) (po : ProgressPolicy) (started : Z) : ProgressWatch :=
  mkWatch token po (mkPosition 0 0 {[ 0%nat ]} 1) (mkMarks started started started)
    (mkCredits 0 0 0 0 0 0) (mkEvidence None None None None)
    (mkTallies 0 0 None None None None None).

Definition set_pos (p : Position) (w : ProgressWatch) : ProgressWatch :=
  mkWatch (pw_token w) (pw_policy w) p (pw_marks w) (pw_credits w) (pw_evidence w) (pw_tallies w).
Definition set_marks (m : Marks) (w : ProgressWatch) : ProgressWatch :=
  mkWatch (pw_token w) (pw_policy w) (pw_pos w) m (pw_credits w) (pw_evidence w) (pw_tallies w).
Definition set_credits (c : Credits) (w : ProgressWatch) : ProgressWatch :=
  mkWatch (pw_token w) (pw_policy w) (pw_pos w) (pw_marks w) c (pw_evidence w) (pw_tallies w).
Definition set_evidence (e : Evidence) (w : ProgressWatch) : ProgressWatch :=
  mkWatch (pw_token w) (pw_policy w) (pw_pos w) (pw_marks w) (pw_credits w) e (pw_tallies w).
Definition set_tallies (t : Tallies) (w : ProgressWatch) : ProgressWatch :=
  mkWatch (pw_token w) (pw_policy w) (pw_pos w) (pw_marks w) (pw_credits w) (pw_evidence w) t.

(** The allowance of the last accepted phase. *)
Definition grace (w : ProgressWatch) : Z := grace_at (pw_policy w) (phase_index (pw_pos w)).

Definition stall_deadline (w : ProgressWatch) : Z := last_advance (pw_marks w) + grace w.

Definition _reject (reason : string) (w : ProgressWatch) : ProgressWatch :=
  let t := pw_tallies w in
  set_tallies (mkTallies (tl_accepted t) (S (tl_rejected t)) (Some reason) (tl_sampled_unix t)
                 (tl_last_advance_unix t) (tl_last_accepted t) (tl_first_advance t)) w.

(** Retain quiet spent on the loop's own I/O. *)
Definition shift (seconds : Z) (w : ProgressWatch) : ProgressWatch :=
  let m := pw_marks w in
  set_marks (mkMarks (last_advance m + seconds) (last_real_advance m) (exempt_through m)) w.

(** The position after an accepted report; [None] is the replayed or
    regressing report, with its reason. *)
Definition advance_position (cycle : bool) (index : nat) (units : Z) (p : Position)
  : Position + string :=
  let advanced_units := bool_decide (units_high_water p < units) in
  if cycle && bool_decide (units < units_high_water p) then inr "regressing"
  else
    let advanced_phase :=
      if cycle then bool_decide (index ∉ phases_granted p)
      else bool_decide (phase_index p < index)%nat in
    if negb advanced_units && negb advanced_phase then inr "replayed"
    else
      let high := if advanced_units then units else units_high_water p in
      inl (if cycle then
             mkPosition high index
               ({[ index ]} ∪ (if advanced_units then ∅ else phases_granted p))
               (if bool_decide (index = phase_index p) then phases_entered p else S (phases_entered p))
           else if advanced_phase then
             mkPosition high index (phases_granted p) (phases_entered p + (index - phase_index p))
           else
             mkPosition high (phase_index p) (phases_granted p) (phases_entered p)).

(** Read the reporter's file once; whether it advanced.  [unix] is the wall
    clock at the read and [unix_after] when the report names no time. *)
Definition sample (now unix unix_after : Z) (rd : Reading) (w0 : ProgressWatch)
  : bool * ProgressWatch :=
  let t0 := pw_tallies w0 in
  let w := set_tallies (mkTallies (tl_accepted t0) (tl_rejected t0) (tl_last_rejection t0) (Some unix)
                          (tl_last_advance_unix t0) (tl_last_accepted t0) (tl_first_advance t0)) w0 in
  match rd with
  | Absent | Replaced => (false, w)
  | Unreadable e => (false, _reject ("unreadable: " +:+ e) w)
  | Unparsable => (false, _reject "unparsable" w)
  | Not_an_object => (false, _reject "not an object" w)
  | Decoded r =>
      if negb (rp_schema_ok r) then (false, _reject "wrong schema" w)
      else if negb (bool_decide (rp_token r = pw_token w)) then (false, _reject "foreign token" w)
      else
        match index_of (pw_policy w) (rp_phase r) with
        | None => (false, _reject "undeclared phase" w)
        | Some index =>
            match rp_units r with
            | None => (false, _reject "units_completed is not a finite count" w)
            | Some units =>
                if bool_decide (units < 0) then (false, _reject "units_completed is not a finite count" w)
                else
                  match advance_position (po_cycle (pw_policy w)) index units (pw_pos w) with
                  | inr reason => (false, _reject reason w)
                  | inl p =>
                      let t := pw_tallies w in
                      let at_unix := default unix_after (rp_reported r) in
                      let name := default "" (ph_name <$> po_phases (pw_policy w) !! phase_index p) in
                      (true,
                       set_tallies
                         (mkTallies (S (tl_accepted t)) (tl_rejected t) (tl_last_rejection t)
                            (tl_sampled_unix t) (Some at_unix)
                            (Some (mkAccepted name (units_high_water p) (rp_unit r) at_unix))
                            (Some (default now (tl_first_advance t))))
                         (set_marks (mkMarks now now (exempt_through (pw_marks w))) (set_pos p w)))
                  end
            end
        end
  end.

(** ** Credits *)

(** Move the stall deadline by the uncredited quiet in [since, now]. *)
Definition _credit (now since : Z) (w : ProgressWatch) : Z * ProgressWatch :=
  let m := pw_marks w in
  let start := Z.max since (Z.max (exempt_through m) (last_real_advance m)) in
  let credit := Z.max 0 (now - start) in
  (credit, set_marks (mkMarks (last_advance m + credit) (last_real_advance m)
                        (Z.max (exempt_through m) now)) w).

(** Which wait an exemption is credited to. *)
Inductive Wait := Staged_wait | Reader_plan | Export_wait | Queued_child_wait.

Definition keep_evidence (k : Wait) (v : Verdict) (w : ProgressWatch) : ProgressWatch :=
  let e := pw_evidence w in
  set_evidence
    match k with
    | Staged_wait => mkEvidence (Some v) (ev_reader_plan e) (ev_export_wait e) (ev_queued_child_wait e)
    | Reader_plan => mkEvidence (ev_staged_wait e) (Some v) (ev_export_wait e) (ev_queued_child_wait e)
    | Export_wait => mkEvidence (ev_staged_wait e) (ev_reader_plan e) (Some v) (ev_queued_child_wait e)
    | Queued_child_wait => mkEvidence (ev_staged_wait e) (ev_reader_plan e) (ev_export_wait e) (Some v)
    end w.

Definition add_credit (k : Wait) (x : Z) (w : ProgressWatch) : ProgressWatch :=
  let c := pw_credits w in
  let '(mkCredits s p g r e q) := c in
  set_credits
    match k with
    | Staged_wait => mkCredits (s + x) p g r e q
    | Reader_plan => mkCredits s p g (r + x) e q
    | Export_wait => mkCredits s p g r (e + x) q
    | Queued_child_wait => mkCredits s p g r e (q + x)
    end w.

(** [exempt_staged_wait], [exempt_reader_plan], [exempt_export_wait] and
    [exempt_queued_child_wait]: the verdict is kept whatever it says, and
    credited when it is exempt. *)
Definition exempt (k : Wait) (v : Verdict) (now since : Z) (w : ProgressWatch) : Z * ProgressWatch :=
  let w1 := keep_evidence k v w in
  if v_exempt v then let '(x, w2) := _credit now since w1 in (x, add_credit k x w2) else (0, w1).

(** A pool-contention interval: over and blind are credited, under is not. *)
Inductive PoolVerdict := Over | Under | Blind.

Definition exempt_pool_contention (v : PoolVerdict) (now since : Z) (w : ProgressWatch)
  : Z * ProgressWatch :=
  match v with
  | Under => (0, w)
  | _ =>
      let '(x, w1) := _credit now since w in
      let '(mkCredits s p g r e q) := pw_credits w1 in
      (x, set_credits (mkCredits s (p + x) g r e q) w1)
  end.

Definition exempt_start_gate (now since : Z) (w : ProgressWatch) : Z * ProgressWatch :=
  let '(x, w1) := _credit now since w in
  let '(mkCredits s p g r e q) := pw_credits w1 in
  (x, set_credits (mkCredits s p (g + x) r e q) w1).

(** One heartbeat granted at each edge of a held stretch. *)
Definition grant_start_gate_edge (seconds : Z) (w : ProgressWatch) : ProgressWatch :=
  let '(mkCredits s p g r e q) := pw_credits w in
  set_credits (mkCredits s p (g + seconds) r e q) (shift seconds w).

(** ** The stall check *)

(** The readings one check takes: the monotonic clock at each look in order,
    the wall clock, and what the files and sources answer.  A source that
    raises answers [Raise]. *)
Record Looks := mkLooks {
  lk_entry : Z;                       (* the deadline test *)
  lk_sample : Z; lk_sampled : Z;      (* around the progress read *)
  lk_checked : Z;
  lk_staged : Z; lk_staged_done : Z; lk_after_staged : Z;
  lk_export : Z; lk_export_done : Z; lk_after_export : Z;
  lk_plan : Z; lk_plan_done : Z; lk_after_plan : Z;
  lk_queued : Z; lk_queued_done : Z; lk_end : Z;
  lk_unix : Z }.

Record Sources := mkSources {
  so_reading : Reading;
  so_staged_wait : res (option Verdict);
  so_export_wait : res (option Verdict);
  so_reader_plan : res (option Verdict);
  so_queued_children : option Verdict }.

Record StallCheck := mkCheck { sc_expired : bool; sc_checkpoint : Z; sc_checked : Z }.

(** Read one verdict between two looks, credit it, and refund the read. *)
Definition _wait_checkpoint (k : Wait) (started done unix : Z) (read : res (option Verdict))
    (w : ProgressWatch) : Z * ProgressWatch :=
  let verdict := match read with Ok v => v | Raise _ => Some (mkVerdict false None None) end in
  let w1 :=
    match verdict with
    | None => w
    | Some v =>
        let since := match v_since_unix v with
                     | Some s => if bool_decide (s = 0) then unix else s
                     | None => unix end in
        snd (exempt k v started (started - Z.max 0 (unix - since)) w)
    end in
  (done - started, shift (done - started) w1).

(** A queued-child verdict is credited from the prior sample it names. *)
Definition sample_queued_child_wait (verdict : option Verdict) (now : Z) (w : ProgressWatch)
  : ProgressWatch :=
  match verdict with
  | None => w
  | Some v =>
      match v_exempt v, v_since_monotonic v with
      | true, Some since => snd (exempt Queued_child_wait v now since w)
      | _, _ => keep_evidence Queued_child_wait v w
      end
  end.

(** One check at the deadline: sample first, then each wait in order, each
    able to end the check by moving the deadline past the clock. *)
Definition check_stall (lk : Looks) (so : Sources) (w : ProgressWatch)
  : option StallCheck * ProgressWatch :=
  if negb (bool_decide (stall_deadline w ≤ lk_entry lk)) then (None, w)
  else
    let '(advanced, w1) := sample (lk_sample lk) (lk_unix lk) (lk_unix lk) (so_reading so) w in
    let spent0 := lk_sampled lk - lk_sample lk in
    let w2 := shift spent0 w1 in
    if advanced then (Some (mkCheck false spent0 (lk_checked lk)), w2)
    else
      let '(s1, w3) := _wait_checkpoint Staged_wait (lk_staged lk) (lk_staged_done lk) (lk_unix lk)
                         (so_staged_wait so) w2 in
      if negb (bool_decide (stall_deadline w3 ≤ lk_after_staged lk))
      then (Some (mkCheck false (spent0 + s1) (lk_checked lk)), w3)
      else
        let '(s2, w4) := _wait_checkpoint Export_wait (lk_export lk) (lk_export_done lk) (lk_unix lk)
                           (so_export_wait so) w3 in
        if negb (bool_decide (stall_deadline w4 ≤ lk_after_export lk))
        then (Some (mkCheck false (spent0 + s1 + s2) (lk_checked lk)), w4)
        else
          let '(s3, w5) := _wait_checkpoint Reader_plan (lk_plan lk) (lk_plan_done lk) (lk_unix lk)
                             (so_reader_plan so) w4 in
          if negb (bool_decide (stall_deadline w5 ≤ lk_after_plan lk))
          then (Some (mkCheck false (spent0 + s1 + s2 + s3) (lk_checked lk)), w5)
          else
            let w6 := sample_queued_child_wait (so_queued_children so) (lk_queued lk) w5 in
            let s4 := lk_queued_done lk - lk_queued lk in
            let w7 := shift s4 w6 in
            (Some (mkCheck (bool_decide (stall_deadline w7 ≤ lk_end lk))
                     (spent0 + s1 + s2 + s3 + s4) (lk_checked lk)), w7).

(** ** The activity watch *)

Record ActivityWatch := mkActivity {
  aw_allowance : Z; aw_last_activity : Z; aw_last_advance : Z; aw_last_advance_unix : option Z;
  aw_stdout : Z; aw_stderr : Z; aw_cpu : option Z;
  aw_observations : nat; aw_advances : nat; aw_sampled_unix : option Z }.

Definition new_activity (allowance started : Z) : ActivityWatch :=
  mkActivity allowance started started None 0 0 None 0 0 None.

Definition activity_deadline (a : ActivityWatch) : Z := aw_last_activity a + aw_allowance a.

Definition activity_shift (seconds : Z) (a : ActivityWatch) : ActivityWatch :=
  mkActivity (aw_allowance a) (aw_last_activity a + seconds) (aw_last_advance a + seconds)
    (aw_last_advance_unix a) (aw_stdout a) (aw_stderr a) (aw_cpu a) (aw_observations a)
    (aw_advances a) (aw_sampled_unix a).

(** Fold one execution sample in; whether it showed activity. *)
Definition observe (now unix stdout stderr : Z) (cpu : option Z) (a : ActivityWatch)
  : bool * ActivityWatch :=
  let more_output := bool_decide (aw_stdout a < stdout) || bool_decide (aw_stderr a < stderr) in
  let more_cpu :=
    match cpu, aw_cpu a with Some c, Some c0 => bool_decide (c0 < c) | _, _ => false end in
  let advanced := more_output || more_cpu in
  let cpu' :=
    match aw_cpu a, cpu with
    | None, Some c => Some c
    | Some c0, Some c => Some (Z.max c0 c)
    | _, None => aw_cpu a
    end in
  (advanced,
   mkActivity (aw_allowance a)
     (if advanced then now else aw_last_activity a) (if advanced then now else aw_last_advance a)
     (if advanced then Some unix else aw_last_advance_unix a)
     (Z.max (aw_stdout a) stdout) (Z.max (aw_stderr a) stderr) cpu'
     (S (aw_observations a)) (if advanced then S (aw_advances a) else aw_advances a) (Some unix)).
