(* ===== verification/WatchSpec.v ===== *)
(** * What the stall watches guarantee

    How long an action that commits nothing may last, what a report may grant,
    that an exempt interval is credited once, and how a stall check ends. *)

From S2P Require Import Prelude.
From S2P Require Import Watch.
From stdpp Require Import options.

Open Scope Z_scope.

(** ** Sums over granted phases *)

Definition granted_from (G : gset nat) (k : nat) (ps : list ProgressPhase) : Z :=
  foldr Z.add 0 (imap (λ i p, if bool_decide ((k + i)%nat ∈ G) then effective_grace p else 0) ps).

Lemma granted_from_cons G k p ps :
  granted_from G k (p :: ps)
  = (if bool_decide (k ∈ G) then effective_grace p else 0) + granted_from G (S k) ps.
Proof.
  unfold granted_from. rewrite imap_cons. simpl. rewrite Nat.add_0_r. f_equal.
  f_equal. apply imap_ext. intros i x _. simpl. by replace (k + S i)%nat with (S (k + i)) by lia.
Qed.

Lemma granted_from_le G k ps :
  Forall (λ p, 0 ≤ effective_grace p) ps →
  granted_from G k ps ≤ foldr Z.add 0 (effective_grace <$> ps).
Proof.
  intros Hp. revert k. induction Hp as [|p ps Hp0 Hp IH]; intros k; [done|].
  rewrite granted_from_cons, fmap_cons. cbn [foldr]. specialize (IH (S k)). case_bool_decide; lia.
Qed.

Lemma granted_from_add G k i ps :
  (k ≤ i)%nat → i ∉ G →
  granted_from ({[i]} ∪ G) k ps
  = granted_from G k ps + match ps !! (i - k)%nat with Some p => effective_grace p | None => 0 end.
Proof.
  intros Hle Hi. revert k Hle. induction ps as [|p ps IH]; intros k Hle; [done|].
  rewrite !granted_from_cons. destruct (decide (k = i)) as [->|Hne].
  - rewrite bool_decide_eq_true_2 by set_solver. rewrite (bool_decide_eq_false_2 (i ∈ G)) by done.
    rewrite Nat.sub_diag. simpl.
    assert (granted_from ({[i]} ∪ G) (S i) ps = granted_from G (S i) ps) as ->; [|lia].
    unfold granted_from. f_equal. apply imap_ext. intros j x _. simpl.
    rewrite (bool_decide_ext _ (S (i + j) ∈ G)); [done|]. rewrite elem_of_union, elem_of_singleton.
    intuition lia.
  - rewrite IH by lia. replace (i - k)%nat with (S (i - S k)) by lia. simpl.
    rewrite (bool_decide_ext _ (k ∈ G)) by (rewrite elem_of_union, elem_of_singleton; intuition congruence).
    lia.
Qed.

Definition granted (po : ProgressPolicy) (G : gset nat) : Z := granted_from G 0 (po_phases po).

Lemma granted_add po G i : i ∉ G → granted po ({[i]} ∪ G) = granted po G + grace_at po i.
Proof.
  intros Hi. unfold granted, grace_at. rewrite granted_from_add by (done || lia). by rewrite Nat.sub_0_r.
Qed.

Lemma granted_empty po : granted po ∅ = 0.
Proof.
  unfold granted. generalize 0%nat. induction (po_phases po) as [|p ps IH]; intros k; [done|].
  rewrite granted_from_cons, IH. rewrite bool_decide_eq_false_2 by set_solver. done.
Qed.

Lemma index_of_lt po name i : index_of po name = Some i → (i < length (po_phases po))%nat.
Proof.
  unfold index_of. revert i. induction (po_phases po) as [|p ps IH]; intros i; simpl; [done|].
  case_bool_decide; [intros [= <-]; lia|]. destruct (index_in name ps) eqn:Hi; [|done]. simpl.
  intros [= <-]. specialize (IH _ eq_refl). lia.
Qed.

(** ** Runs of a watch *)

(** Seconds credited so far, over every kind of wait. *)
Definition credited (w : ProgressWatch) : Z :=
  let '(mkCredits s p g r e q) := pw_credits w in s + p + g + r + e + q.

Section run.
Context (token : string) (po : ProgressPolicy) (started late : Z).

(** What a worker does to a watch: samples taken at most [late] after the
    deadline then in force, refunds, exemptions and gate edges.  The indices
    are the latest clock reading used, the refunds and the edges so far. *)
Inductive run : ProgressWatch → Z → Z → Z → Prop :=
  | run_new : run (new_watch token po started) started 0 0
  | run_sample w T f g now u u' rd b w' :
      run w T f g → now ≤ stall_deadline w + late → sample now u u' rd w = (b, w') →
      run w' (Z.max T now) f g
  | run_shift w T f g s : run w T f g → 0 ≤ s → run (shift s w) T (f + s) g
  | run_exempt w T f g k v now since :
      run w T f g → run (snd (exempt k v now since w)) (Z.max T now) f g
  | run_pool w T f g v now since :
      run w T f g → run (snd (exempt_pool_contention v now since w)) (Z.max T now) f g
  | run_gate w T f g now since :
      run w T f g → run (snd (exempt_start_gate now since w)) (Z.max T now) f g
  | run_edge w T f g s :
      run w T f g → 0 ≤ s → run (grant_start_gate_edge s w) T f (g + s).
End run.

(** ** One sample *)

Lemma reject_same reason w :
  pw_pos (_reject reason w) = pw_pos w ∧ pw_marks (_reject reason w) = pw_marks w
  ∧ pw_credits (_reject reason w) = pw_credits w ∧ pw_policy (_reject reason w) = pw_policy w.
Proof. done. Qed.

(** The reports a position accepts. *)
Definition grants (cycle : bool) (index : nat) (units : Z) (p : Position) : Prop :=
  (cycle = true → units_high_water p ≤ units)
  ∧ (units_high_water p < units
     ∨ if cycle then index ∉ phases_granted p else (phase_index p < index)%nat).

Lemma advance_position_spec cycle index units p :
  match advance_position cycle index units p with
  | inl p' => grants cycle index units p ∧ units_high_water p' = Z.max (units_high_water p) units
              ∧ (phase_index p' = if cycle then index else max (phase_index p) index)
  | inr _ => ¬ grants cycle index units p
  end.
Proof.
  unfold advance_position, grants. destruct cycle; cbn [andb].
  - case_bool_decide as H1; [intros [H _]; specialize (H eq_refl); lia|].
    case_bool_decide as H2; [simpl; split_and!; [lia|by left|lia|done]|].
    case_bool_decide as H3; simpl; [split_and!; [lia|by right|lia|done]|].
    intros [_ [?|?]]; [lia|done].
  - case_bool_decide as H2; case_bool_decide as H3; simpl.
    + split_and!; [done|by left|lia|lia].
    + split_and!; [done|by left|lia|lia].
    + split_and!; [done|by right|lia|lia].
    + intros [_ [?|?]]; lia.
Qed.

(** A sample either leaves everything that decides a stall as it was, or
    accepts a report of this launch that grants. *)
Lemma sample_cases now u u' rd w b w' :
  sample now u u' rd w = (b, w') →
  pw_policy w' = pw_policy w ∧ pw_credits w' = pw_credits w
  ∧ exempt_through (pw_marks w') = exempt_through (pw_marks w)
  ∧ ((b = false ∧ pw_pos w' = pw_pos w ∧ pw_marks w' = pw_marks w)
     ∨ (b = true ∧ ∃ r i n p,
          rd = Decoded r ∧ rp_schema_ok r = true ∧ rp_token r = pw_token w
          ∧ index_of (pw_policy w) (rp_phase r) = Some i ∧ rp_units r = Some n ∧ 0 ≤ n
          ∧ advance_position (po_cycle (pw_policy w)) i n (pw_pos w) = inl p
          ∧ pw_pos w' = p ∧ last_advance (pw_marks w') = now ∧ last_real_advance (pw_marks w') = now)).
Proof.
  unfold sample. destruct rd as [| | | | |r]; try (intros [= <- <-]; split_and!; by try left).
  destruct (rp_schema_ok r) eqn:Hs; cbn [negb]; [|intros [= <- <-]; split_and!; by try left].
  case_bool_decide as Ht; cbn [negb]; [|intros [= <- <-]; split_and!; by try left].
  cbn [pw_policy set_tallies pw_pos].
  destruct (index_of _ _) as [i|] eqn:Hi; [|intros [= <- <-]; split_and!; by try left].
  destruct (rp_units r) as [n|] eqn:Hn; [|intros [= <- <-]; split_and!; by try left].
  case_bool_decide; [intros [= <- <-]; split_and!; by try left|].
  destruct (advance_position _ _ _ _) as [p|reason] eqn:Hp; [|intros [= <- <-]; split_and!; by try left].
  intros [= <- <-]. split_and!; [done..|right]. split; [done|]. exists r, i, n, p. split_and!; (done || lia).
Qed.

(** ** Credits *)

(** What one exemption does to the marks and the credited total. *)
Definition credits_by (x : Z) (now : Z) (w w' : ProgressWatch) : Prop :=
  0 ≤ x ∧ x ≤ Z.max 0 (now - exempt_through (pw_marks w))
  ∧ pw_policy w' = pw_policy w ∧ pw_pos w' = pw_pos w
  ∧ last_advance (pw_marks w') = last_advance (pw_marks w) + x
  ∧ exempt_through (pw_marks w) ≤ exempt_through (pw_marks w')
  ∧ (0 < x → exempt_through (pw_marks w') = now)
  ∧ exempt_through (pw_marks w') ≤ Z.max (exempt_through (pw_marks w)) now
  ∧ credited w' = credited w + x.

Lemma credits_nothing now w w' :
  pw_policy w' = pw_policy w → pw_pos w' = pw_pos w → pw_marks w' = pw_marks w →
  pw_credits w' = pw_credits w → credits_by 0 now w w'.
Proof.
  intros H1 H2 H3 H4. unfold credits_by, credited. rewrite H1, H2, H3, H4.
  destruct (pw_credits w). split_and!; lia || done.
Qed.

(** The uncredited quiet of one exemption. *)
Definition uncredited (now since : Z) (w : ProgressWatch) : Z :=
  let m := pw_marks w in
  Z.max 0 (now - Z.max since (Z.max (exempt_through m) (last_real_advance m))).

Ltac credit_arith w :=
  unfold credits_by, credited, uncredited; simpl; destruct (pw_credits w); simpl; split_and!;
  done || lia.

Lemma exempt_credits k v now since w :
  ∃ x, credits_by x now w (snd (exempt k v now since w)).
Proof.
  unfold exempt. destruct (v_exempt v); [|exists 0; by apply credits_nothing].
  exists (uncredited now since w). destruct k; unfold _credit, add_credit; credit_arith w.
Qed.

Lemma pool_credits v now since w :
  ∃ x, credits_by x now w (snd (exempt_pool_contention v now since w)).
Proof.
  unfold exempt_pool_contention, _credit.
  destruct v; [|exists 0; by apply credits_nothing|]; exists (uncredited now since w); credit_arith w.
Qed.

Lemma gate_credits now since w : ∃ x, credits_by x now w (snd (exempt_start_gate now since w)).
Proof. exists (uncredited now since w). unfold exempt_start_gate, _credit. credit_arith w. Qed.

Lemma credits_deadline x now w w' :
  credits_by x now w w' → stall_deadline w' = stall_deadline w + x.
Proof.
  intros (_ & _ & Hp & Hpos & Hl & _). unfold stall_deadline, grace. rewrite Hp, Hpos, Hl. lia.
Qed.

(** ** Invariants of a run *)

Section invariants.
Context (token : string) (po : ProgressPolicy) (started late : Z).
Context (Hgr : Forall (λ p, 0 ≤ effective_grace p) (po_phases po)) (Hlate : 0 ≤ late)
          (Hne : po_phases po ≠ []).

Lemma run_policy w T f g : run token po started late w T f g → pw_policy w = po.
Proof using.
  induction 1 as [|w T f g now u u' rd b w' Hr IH Hn Hs|w T f g s Hr IH Hs|w T f g k v now since Hr IH|w T f g v now since Hr IH|w T f g now since Hr IH|w T f g s Hr IH Hs]; try done.
  - apply sample_cases in Hs as (-> & _). done.
  - by destruct (exempt_credits k v now since w) as (x & _ & _ & -> & _).
  - by destruct (pool_credits v now since w) as (x & _ & _ & -> & _).
  - by destruct (gate_credits now since w) as (x & _ & _ & -> & _).
  - unfold grant_start_gate_edge. destruct (pw_credits w). done.
Qed.

(** Every instant is credited at most once: the credits fit between the start
    and the mark, and the mark is a clock reading. *)
Lemma run_credits w T f g :
  run token po started late w T f g →
  credited w ≤ exempt_through (pw_marks w) - started + g
  ∧ started ≤ exempt_through (pw_marks w) ≤ T ∧ 0 ≤ f ∧ 0 ≤ g.
Proof using.
  assert (∀ x now w w' T f g, credits_by x now w w' →
    credited w ≤ exempt_through (pw_marks w) - started + g
      ∧ started ≤ exempt_through (pw_marks w) ≤ T ∧ 0 ≤ f ∧ 0 ≤ g →
    credited w' ≤ exempt_through (pw_marks w') - started + g
      ∧ started ≤ exempt_through (pw_marks w') ≤ Z.max T now ∧ 0 ≤ f ∧ 0 ≤ g) as Hstep.
  { clear. intros x now w w' T f g (H0 & H1 & _ & _ & _ & H3 & H4 & H5 & ->) IH.
    destruct (decide (0 < x)) as [Hx|Hx]; [specialize (H4 Hx)|]; lia. }
  induction 1 as [|w T f g now u u' rd b w' Hr IH Hn Hs|w T f g s Hr IH Hs|w T f g k v now since Hr IH|w T f g v now since Hr IH|w T f g now since Hr IH|w T f g s Hr IH Hs].
  - unfold credited. simpl. lia.
  - apply sample_cases in Hs as (_ & Hc & Ht & _). unfold credited in *. rewrite Hc, Ht. lia.
  - unfold credited in *. simpl. lia.
  - destruct (exempt_credits k v now since w) as (x & Hx). by eapply Hstep.
  - destruct (pool_credits v now since w) as (x & Hx). by eapply Hstep.
  - destruct (gate_credits now since w) as (x & Hx). by eapply Hstep.
  - unfold grant_start_gate_edge, credited in *. destruct (pw_credits w); simpl in *. lia.
Qed.

(** The counter never goes down. *)
Lemma run_units w T f g : run token po started late w T f g → 0 ≤ units_high_water (pw_pos w).
Proof using.
  induction 1 as [|w T f g now u u' rd b w' Hr IH Hn Hs|w T f g s Hr IH Hs|w T f g k v now since Hr IH|w T f g v now since Hr IH|w T f g now since Hr IH|w T f g s Hr IH Hs]; try done.
  - apply sample_cases in Hs as (_ & _ & _ & [(_ & -> & _)|(_ & r & i & n & p & _ & _ & _ & _ & _ & ? & Ha & -> & _)]); [done|].
    pose proof (advance_position_spec (po_cycle (pw_policy w)) i n (pw_pos w)) as Hp. rewrite Ha in Hp. lia.
  - by destruct (exempt_credits k v now since w) as (x & _ & _ & _ & -> & _).
  - by destruct (pool_credits v now since w) as (x & _ & _ & _ & -> & _).
  - by destruct (gate_credits now since w) as (x & _ & _ & _ & -> & _).
  - unfold grant_start_gate_edge. destruct (pw_credits w). done.
Qed.

(** The phases granted before anything was committed. *)
Definition first_round (w : ProgressWatch) (f : Z) (G : gset nat) : Prop :=
  phase_index (pw_pos w) ∈ G
  ∧ (∀ i, i ∈ G → (i < length (po_phases po))%nat)
  ∧ (if po_cycle po then G = phases_granted (pw_pos w) else ∀ i, i ∈ G → (i ≤ phase_index (pw_pos w))%nat)
  ∧ stall_deadline w ≤ started + granted po G + credited w + f + late * (Z.of_nat (size G) - 1).

Lemma first_round_credit x now w w' f G :
  credits_by x now w w' → first_round w f G → first_round w' f G.
Proof using.
  intros Hx (H1 & H2 & H3 & H4). pose proof (credits_deadline _ _ _ _ Hx) as Hd.
  destruct Hx as (_ & _ & _ & Hp & _ & _ & _ & _ & Hc).
  unfold first_round. rewrite Hp, Hd, Hc. split_and!; [done|done|done|lia].
Qed.

Lemma run_first_round w T f g :
  run token po started late w T f g → units_high_water (pw_pos w) = 0 → ∃ G, first_round w f G.
Proof using All.
  induction 1 as [|w T f g now u u' rd b w' Hr IH Hn Hs|w T f g s Hr IH Hs|w T f g k v now since Hr IH|w T f g v now since Hr IH|w T f g now since Hr IH|w T f g s Hr IH Hs]; intros Hu.
  - exists {[ 0%nat ]}. unfold first_round, stall_deadline, grace.
    cbn [new_watch pw_pos pw_marks pw_policy last_advance phase_index phases_granted].
    split_and!; [set_solver| |destruct (po_cycle po); set_solver by lia|].
    + intros i ->%elem_of_singleton. destruct (po_phases po); [done|simpl; lia].
    + pose proof (granted_add po ∅ 0%nat ltac:(set_solver)) as Hg. rewrite union_empty_r_L in Hg. rewrite Hg.
      rewrite granted_empty.
      rewrite size_singleton. change (credited (new_watch token po started)) with 0. lia.
  - pose proof (run_policy _ _ _ _ Hr) as Hpo. pose proof (run_units _ _ _ _ Hr) as Hu0.
    pose proof Hs as Hcr. apply sample_cases in Hs as (Hp' & Hcr' & _ & Hcase).
    destruct Hcase as [(_ & Hpos & Hm)|(_ & r & i & n & p & _ & _ & _ & Hi & _ & Hn0 & Ha & Hpos & Hl & _)].
    { rewrite Hpos in Hu. destruct (IH Hu) as (G & H1 & H2 & H3 & H4). exists G.
      unfold first_round, stall_deadline, grace, credited in *. by rewrite Hpos, Hm, Hp', Hcr'. }
    pose proof (advance_position_spec (po_cycle (pw_policy w)) i n (pw_pos w)) as Hadv.
    rewrite Ha in Hadv. destruct Hadv as ((Hg1 & Hg2) & Hhigh & Hph).
    rewrite Hpos in Hu. assert (units_high_water (pw_pos w) = 0) as Hu1 by lia.
    destruct (IH Hu1) as (G & H1 & H2 & H3 & H4).
    rewrite Hpo in *. destruct Hg2 as [?|Hg2]; [lia|].
    assert ((i ∉ G) ∧ phase_index p = i) as [HiG Hpi].
    { destruct (po_cycle po); [by rewrite H3|]. split; [intros Hx%H3; lia|lia]. }
    exists ({[i]} ∪ G). split_and!.
    + rewrite Hpos, Hpi. set_solver.
    + intros j [->%elem_of_singleton|Hj]%elem_of_union; [by eapply index_of_lt|by apply H2].
    + rewrite Hpos. destruct (po_cycle po) eqn:Hcy.
      * unfold advance_position in Ha. cbn [andb] in Ha. case_bool_decide; [done|].
        rewrite (bool_decide_eq_false_2 (units_high_water (pw_pos w) < n)) in Ha by lia.
        case_bool_decide; [|done]. simpl in Ha. injection Ha as <-. simpl. by rewrite H3.
      * rewrite Hpi. intros j [->%elem_of_singleton|Hj%H3]%elem_of_union; lia.
    + rewrite granted_add by done. rewrite size_union, size_singleton by set_solver.
      assert (credited w' = credited w) as -> by (unfold credited; by rewrite Hcr').
      unfold stall_deadline, grace. rewrite Hp', Hpos, Hpi, Hl. lia.
  - destruct (IH Hu) as (G & H1 & H2 & H3 & H4). exists G.
    unfold first_round, stall_deadline, grace, credited in *. simpl. split_and!; [done|done|done|lia].
  - destruct (exempt_credits k v now since w) as (x & Hx). pose proof Hx as (_ & _ & _ & Hp & _).
    rewrite Hp in Hu. destruct (IH Hu) as (G & HG). exists G. by eapply first_round_credit.
  - destruct (pool_credits v now since w) as (x & Hx). pose proof Hx as (_ & _ & _ & Hp & _).
    rewrite Hp in Hu. destruct (IH Hu) as (G & HG). exists G. by eapply first_round_credit.
  - destruct (gate_credits now since w) as (x & Hx). pose proof Hx as (_ & _ & _ & Hp & _).
    rewrite Hp in Hu. destruct (IH Hu) as (G & HG). exists G. by eapply first_round_credit.
  - unfold grant_start_gate_edge in *. unfold first_round, stall_deadline, grace, credited in *.
    destruct (pw_credits w) eqn:Hc. simpl in *. destruct (IH Hu) as (G & H1 & H2 & H3 & H4). exists G.
    split_and!; [done|done|done|lia].
Qed.
End invariants.

(** * Properties *)

(** A policy of two phases, ten and five minutes, for the witnesses. *)
Definition demo_policy : ProgressPolicy :=
  mkPolicy [mkPhase "fetch" 600 (Some 400); mkPhase "build" 300 None] false.
Definition demo_report (phase : string) (units : Z) : Reading :=
  Decoded (mkReport_ true "tok" phase (Some units) None None).

(** C30: an action that never commits a unit ends: whatever it reports, the
    stall deadline never passes its start plus the sum of the declared
    allowances, plus what was credited or refunded, plus the lateness of the
    samples -- in cyclic mode too. *)
Theorem no_progress_is_bounded token po started late w T f g :
  Forall (λ p, 0 ≤ effective_grace p) (po_phases po) → 0 ≤ late → po_phases po ≠ [] →
  run token po started late w T f g → units_high_water (pw_pos w) = 0 →
  stall_deadline w ≤ started + no_progress_bound po + credited w + f
                     + late * (Z.of_nat (length (po_phases po)) - 1).
Proof.
  intros Hgr Hlate Hne Hr Hu.
  destruct (run_first_round token po started late Hgr Hlate Hne _ _ _ _ Hr Hu) as (G & H1 & H2 & _ & H4).
  pose proof (granted_from_le G 0 (po_phases po) Hgr) as Hle. fold (granted po G) in Hle.
  fold (no_progress_bound po) in Hle.
  assert (size G ≤ length (po_phases po))%nat as Hsz.
  { rewrite <- (size_set_seq (C := gset nat) 0 (length (po_phases po))). apply subseteq_size.
    intros i Hi%H2. apply elem_of_set_seq. lia. }
  nia.
Qed.

Lemma demo_run : run "tok" demo_policy 0 5
  (snd (sample 402 1 1 (demo_report "build" 0) (new_watch "tok" demo_policy 0))) (Z.max 0 402) 0 0.
Proof.
  eapply run_sample; [apply run_new|by vm_compute|].
  apply surjective_pairing.
Qed.

Definition demo_watch : ProgressWatch :=
  snd (sample 402 1 1 (demo_report "build" 0) (new_watch "tok" demo_policy 0)).

Lemma no_progress_is_bounded_witness :
  stall_deadline demo_watch
  ≤ 0 + no_progress_bound demo_policy + credited demo_watch + 0
    + 5 * (Z.of_nat (length (po_phases demo_policy)) - 1).
Proof.
  apply (no_progress_is_bounded "tok" demo_policy 0 5 demo_watch (Z.max 0 402) 0 0);
    [repeat constructor; by vm_compute|lia|done|exact demo_run|by vm_compute].
Defined.

Example demo_bound_values : stall_deadline demo_watch = 702 ∧ no_progress_bound demo_policy = 700.
Proof. by vm_compute. Qed.

(** Exemptions never credit an instant twice: all credits together, of any
    kinds, fit between the launch and the latest reading (gate edges apart). *)
Theorem credits_never_overlap token po started late w T f g :
  run token po started late w T f g → credited w ≤ (T - started) + g.
Proof.
  intros Hr. destruct (run_credits _ _ _ _ _ _ _ _ Hr) as (? & ? & _). lia.
Qed.

Lemma credits_never_overlap_witness :
  credited (snd (exempt Staged_wait (mkVerdict true None None) 500 100 demo_watch)) ≤ (500 - 0) + 0.
Proof.
  apply (credits_never_overlap "tok" demo_policy 0 5 _ 500 0 0).
  exact (run_exempt "tok" demo_policy 0 5 _ (Z.max 0 402) 0 0 _ _ 500 100 demo_run).
Defined.

(** Only a record of this launch -- right schema and token, a declared
    phase, a finite non-negative count -- that raises the counter or enters a
    phase not yet granted restarts the quiet; anything else (absent, torn,
    foreign, replayed, regressing) leaves position, marks and credits as they
    were. *)
Theorem sample_grants_only_progress now u u' rd w b w' :
  sample now u u' rd w = (b, w') →
  (b = false ∧ pw_pos w' = pw_pos w ∧ pw_marks w' = pw_marks w ∧ pw_credits w' = pw_credits w)
  ∨ (b = true ∧ last_advance (pw_marks w') = now ∧ last_real_advance (pw_marks w') = now
     ∧ ∃ r i n, rd = Decoded r ∧ rp_schema_ok r = true ∧ rp_token r = pw_token w
         ∧ index_of (pw_policy w) (rp_phase r) = Some i ∧ rp_units r = Some n ∧ 0 ≤ n
         ∧ grants (po_cycle (pw_policy w)) i n (pw_pos w)
         ∧ units_high_water (pw_pos w') = Z.max (units_high_water (pw_pos w)) n).
Proof.
  intros (_ & Hc & _ & [(-> & ? & ?)|(-> & r & i & n & p & ? & ? & ? & ? & ? & ? & Ha & -> & ? & ?)])%sample_cases;
    [by left|right].
  pose proof (advance_position_spec (po_cycle (pw_policy w)) i n (pw_pos w)) as Hp. rewrite Ha in Hp.
  destruct Hp as (? & ? & _). split_and!; [done..|]. exists r, i, n. done.
Qed.

Lemma sample_grants_only_progress_witness :
  units_high_water (pw_pos (snd (sample 450 2 2 (demo_report "fetch" 3) demo_watch))) = Z.max 0 3.
Proof.
  destruct (sample 450 2 2 (demo_report "fetch" 3) demo_watch) as [b w'] eqn:HE.
  destruct (sample_grants_only_progress 450 2 2 (demo_report "fetch" 3) demo_watch b w' HE)
    as [(Hb & _)|(_ & _ & _ & r & i & n & Hr & _ & _ & _ & Hn & _ & _ & Hh)].
  - assert (b = true) as Ht by (change b with (fst (b, w')); rewrite <- HE; by vm_compute). congruence.
  - simpl. rewrite Hh. injection Hr as <-. injection Hn as <-. by vm_compute.
Defined.

(** ** The stall check *)

(** The looks of one check in time order. *)
Definition in_order (lk : Looks) : Prop :=
  lk_entry lk ≤ lk_sample lk ≤ lk_sampled lk ∧ lk_sampled lk ≤ lk_staged lk
  ∧ lk_staged lk ≤ lk_staged_done lk ≤ lk_after_staged lk ∧ lk_after_staged lk ≤ lk_export lk
  ∧ lk_export lk ≤ lk_export_done lk ≤ lk_after_export lk ∧ lk_after_export lk ≤ lk_plan lk
  ∧ lk_plan lk ≤ lk_plan_done lk ≤ lk_after_plan lk ∧ lk_after_plan lk ≤ lk_queued lk
  ∧ lk_queued lk ≤ lk_queued_done lk ≤ lk_end lk.

Definition not_exempt (r : res (option Verdict)) : Prop :=
  match r with Ok (Some v) => v_exempt v = false | _ => True end.

Lemma shift_deadline s w : stall_deadline (shift s w) = stall_deadline w + s.
Proof. unfold stall_deadline, grace. simpl. lia. Qed.

Lemma keep_deadline k v w : stall_deadline (keep_evidence k v w) = stall_deadline w.
Proof. done. Qed.

Lemma checkpoint_quiet k a b u r w :
  not_exempt r → fst (_wait_checkpoint k a b u r w) = b - a
  ∧ stall_deadline (snd (_wait_checkpoint k a b u r w)) = stall_deadline w + (b - a).
Proof.
  intros Hr. unfold _wait_checkpoint. split; [done|]. cbn [snd]. rewrite shift_deadline. f_equal.
  unfold exempt. destruct r as [[v|]|e]; simpl in *; [rewrite Hr|..]; done.
Qed.

(** A check made at the deadline with no advancing report and no exempt
    wait always ends in a stall, and refunds exactly the time its own reads
    took; an advancing report never ends in one. *)
Theorem check_stall_decides lk so w :
  in_order lk → stall_deadline w ≤ lk_entry lk →
  (fst (sample (lk_sample lk) (lk_unix lk) (lk_unix lk) (so_reading so) w) = true →
   ∃ c w', check_stall lk so w = (Some c, w') ∧ sc_expired c = false
           ∧ last_real_advance (pw_marks w') = lk_sample lk)
  ∧ (fst (sample (lk_sample lk) (lk_unix lk) (lk_unix lk) (so_reading so) w) = false →
     not_exempt (so_staged_wait so) → not_exempt (so_export_wait so) → not_exempt (so_reader_plan so) →
     not_exempt (Ok (so_queued_children so)) →
     ∃ c w', check_stall lk so w = (Some c, w') ∧ sc_expired c = true
             ∧ stall_deadline w' = stall_deadline w + sc_checkpoint c).
Proof.
  intros Hord Hd. unfold check_stall. rewrite bool_decide_eq_true_2 by done. cbn [negb].
  destruct (sample _ _ _ _ w) as [b w1] eqn:Hs. cbn [fst].
  pose proof Hs as (Hpol & _ & _ & Hcase)%sample_cases. split; intros ->.
  { destruct Hcase as [(? & _)|(_ & r & i & n & p & _ & _ & _ & _ & _ & _ & _ & _ & _ & Hl)]; [done|].
    eexists _, _. split_and!; [done|done|exact Hl]. }
  destruct Hcase as [(_ & Hpos & Hm)|(? & _)]; [|done].
  intros H1 H2 H3 H4. unfold in_order in Hord.
  set (w2 := shift (lk_sampled lk - lk_sample lk) w1).
  assert (stall_deadline w2 = stall_deadline w + (lk_sampled lk - lk_sample lk)) as D2.
  { unfold w2. rewrite shift_deadline. unfold stall_deadline, grace. by rewrite Hpos, Hm, Hpol. }
  destruct (checkpoint_quiet Staged_wait (lk_staged lk) (lk_staged_done lk) (lk_unix lk) _ w2 H1) as [S3 D3].
  destruct (_wait_checkpoint Staged_wait _ _ _ _ w2) as [s1 w3]. cbn [fst snd] in S3, D3.
  rewrite (bool_decide_eq_true_2 (stall_deadline w3 ≤ _)) by lia. cbn [negb].
  destruct (checkpoint_quiet Export_wait (lk_export lk) (lk_export_done lk) (lk_unix lk) _ w3 H2) as [S4 D4].
  destruct (_wait_checkpoint Export_wait _ _ _ _ w3) as [s2 w4]. cbn [fst snd] in S4, D4.
  rewrite (bool_decide_eq_true_2 (stall_deadline w4 ≤ _)) by lia. cbn [negb].
  destruct (checkpoint_quiet Reader_plan (lk_plan lk) (lk_plan_done lk) (lk_unix lk) _ w4 H3) as [S5 D5].
  destruct (_wait_checkpoint Reader_plan _ _ _ _ w4) as [s3 w5]. cbn [fst snd] in S5, D5.
  rewrite (bool_decide_eq_true_2 (stall_deadline w5 ≤ _)) by lia. cbn [negb].
  assert (stall_deadline (sample_queued_child_wait (so_queued_children so) (lk_queued lk) w5)
          = stall_deadline w5) as D6.
  { unfold sample_queued_child_wait. simpl in H4. destruct (so_queued_children so) as [v|]; [|done].
    rewrite H4. done. }
  eexists _, _. split; [done|]. cbn [sc_expired sc_checkpoint]. rewrite shift_deadline, D6.
  split; [apply bool_decide_eq_true_2; lia|lia].
Qed.

Definition demo_looks : Looks :=
  mkLooks 702 702 704 704 704 705 705 705 706 706 706 707 707 707 708 708 99.
Definition demo_quiet : Sources := mkSources Absent (Ok None) (Raise (OSError "nfs")) (Ok None) None.

Lemma check_stall_decides_witness :
  ∃ c w', check_stall demo_looks demo_quiet demo_watch = (Some c, w') ∧ sc_expired c = true
          ∧ stall_deadline w' = stall_deadline demo_watch + sc_checkpoint c.
Proof.
  apply (check_stall_decides demo_looks demo_quiet demo_watch); by vm_compute.
Defined.

(** Refunds are outside the once-only rule.  A check whose progress read
    took five units refunds them and then credits a staged wait over the same
    five: the action ends up with more allowance than the clock has run. *)
Theorem refund_and_credit_overlap :
  let lk := mkLooks 400 400 405 405 405 405 405 405 405 405 405 405 405 405 405 405 1000 in
  let so := mkSources Absent (Ok (Some (mkVerdict true (Some 500) None))) (Ok None) (Ok None) None in
  let w := snd (check_stall lk so (new_watch "tok" demo_policy 0)) in
  last_advance (pw_marks w) = 410 ∧ lk_end lk = 405.
Proof. by vm_compute. Qed.
