(* ===== verification/WindowFlow.v ===== *)
(** * The joint need of windows over shared ranges

    [joint_need_gib] of [src/prismabuild/window_credit.py]: the most room some
    windows can want at once, as a maximum flow computed by breadth-first
    augmentation.  A node's dictionary of residual edges is kept as its list
    of heads in insertion order and one map of residual capacities. *)

From S2P Require Import Prelude.
From stdpp Require Import options.

Open Scope Z_scope.

(** ** The network *)

Record Net := mkNet { n_adj : gmap nat (list nat); n_res : gmap (nat * nat) Z }.

Definition empty_net : Net := mkNet ∅ ∅.

(** [residual[tail].items()]: the heads of a node, in insertion order. *)
Definition heads (N : Net) (tail : nat) : list nat := default [] (n_adj N !! tail).
(** [residual[tail][head]]. *)
Definition residual (N : Net) (tail head : nat) : Z := default 0 (n_res N !! (tail, head)).

(** Write one dictionary entry: a new key goes last. *)
Definition put_edge (tail head : nat) (c : Z) (N : Net) : Net :=
  mkNet (if bool_decide (is_Some (n_res N !! (tail, head))) then n_adj N
         else <[tail := heads N tail ++ [head]]> (n_adj N))
        (<[(tail, head) := c]> (n_res N)).

(** The inner [edge]. *)
Definition edge (N : Net) (e : nat * nat * Z) : Net :=
  let '(tail, head, c) := e in
  let N1 := put_edge tail head (residual N tail head + c) N in
  if bool_decide (is_Some (n_res N1 !! (head, tail))) then N1 else put_edge head tail 0 N1.

(** ** One breadth-first search *)

(** [for head, cap in residual[tail].items()]. *)
Fixpoint scan (N : Net) (tail : nat) (hs : list nat) (parent : gmap nat nat) (frontier : list nat)
  : gmap nat nat * list nat :=
  match hs with
  | [] => (parent, frontier)
  | h :: hs' =>
      if bool_decide (0 < residual N tail h) && bool_decide (parent !! h = None)
      then scan N tail hs' (<[h := tail]> parent) (frontier ++ [h])
      else scan N tail hs' parent frontier
  end.

(** [while frontier and 1 not in parent].  One unit of fuel per node taken
    off the frontier: no node enters it twice. *)
Fixpoint bfs (fuel : nat) (N : Net) (frontier : list nat) (parent : gmap nat nat) : gmap nat nat :=
  match fuel, frontier with
  | S fuel', tail :: rest =>
      if bool_decide (is_Some (parent !! 1%nat)) then parent
      else let '(parent', frontier') := scan N tail (heads N tail) parent rest in
           bfs fuel' N frontier' parent'
  | _, _ => parent
  end.

(** The edges from the sink back to the source. *)
Fixpoint path_back (fuel : nat) (parent : gmap nat nat) (head : nat) : list (nat * nat) :=
  match fuel with
  | 0%nat => []
  | S fuel' =>
      if bool_decide (head = 0%nat) then []
      else match parent !! head with
           | Some tail => (tail, head) :: path_back fuel' parent tail
           | None => []
           end
  end.

(** [residual[tail][head] -= push; residual[head][tail] += push]. *)
Definition push_edge (push : Z) (N : Net) (e : nat * nat) : Net :=
  let '(tail, head) := e in
  let N1 := put_edge tail head (residual N tail head - push) N in
  put_edge head tail (residual N1 head tail + push) N1.

(** The outer [while True].  Every round adds at least one unit of flow. *)
Fixpoint augment (fuel nodes : nat) (unbounded : Z) (N : Net) (flow : Z) : option (Z * Net) :=
  match fuel with
  | 0%nat => None
  | S fuel' =>
      let parent := bfs nodes N [0%nat] {[ 0%nat := 0%nat ]} in
      if bool_decide (parent !! 1%nat = None) then Some (flow, N)
      else
        let path := path_back nodes parent 1 in
        let push := foldl (λ p e, Z.min p (residual N e.1 e.2)) unbounded path in
        augment fuel' nodes unbounded (foldl (push_edge push) N path) (flow + push)
  end.

(** ** The flow problem of the windows *)

Section joint.
Context (needs : gmap string Z) (reach : gmap string (list string)) (caps : gmap string Z).

Definition need_of (k : string) : Z := default 0 (needs !! k).

Definition members : list string := filter (λ k, 0 < need_of k) (listing (dom needs)).

(** Which members can hold each range. *)
Definition readers : gmap string (gset string) :=
  foldl (λ m k, foldl (λ m' item, <[item := {[k]} ∪ default ∅ (m' !! item)]> m') m
                  (default [] (reach !! k)))
    ∅ members.

Definition cap_of (item : string) : Z := Z.max 0 (default 0 (caps !! item)).

(** Ranges with the same readers, merged. *)
Definition groups : gmap (list string) Z :=
  map_fold (λ item keys g,
    if bool_decide (cap_of item = 0) then g
    else <[listing keys := default 0 (g !! listing keys) + cap_of item]> g) ∅ readers.

(** [sorted] on signatures: tuples of strings in lexicographic order. *)
Fixpoint sig_le (a b : list string) : bool :=
  match a, b with
  | [], _ => true
  | _ :: _, [] => false
  | x :: a', y :: b' => if bool_decide (x = y) then sig_le a' b' else bool_decide (x ≤ y)%string
  end.

Definition group_le (x y : list string * Z) : Prop := sig_le x.1 y.1 = true.

#[export] Instance group_le_dec : RelDecision group_le.
Proof. intros x y. unfold group_le. apply _. Defined.

Definition sorted_groups : list (list string * Z) := merge_sort group_le (map_to_list groups).

(** [node[key]]: two past the member's position. *)
Definition node (k : string) : nat :=
  match list_find (λ x, x = k) members with Some (i, _) => (2 + i)%nat | None => 0%nat end.

Definition unbounded : Z := sumZ need_of members + 1.

Definition group_edges (offset : nat) (g : list string * Z) : list (nat * nat * Z) :=
  let group := (2 + length members + offset)%nat in
  (group, 1%nat, g.2) :: ((λ k, (node k, group, unbounded)) <$> g.1).

Definition edges : list (nat * nat * Z) :=
  ((λ k, (0%nat, node k, need_of k)) <$> members) ++ concat (imap group_edges sorted_groups).

Definition node_count : nat := (2 + length members + length sorted_groups)%nat.

(** The most tier GiB the windows can want at once; [None] only if the fuel
    ran out. *)
Definition joint_need_gib : option Z :=
  if bool_decide (groups = ∅) then Some 0
  else fst <$> augment (Z.to_nat unbounded) node_count unbounded (foldl edge empty_net edges) 0.
End joint.
