(* ===== verification/WindowFlowFacts.v ===== *)
(** * Augmentation computes a maximum flow

    The invariants of the residual network, the breadth-first search and one
    augmentation: what the loop returns is the capacity of a cut, and no cut
    is smaller. *)

From S2P Require Import Prelude.
From S2P Require Import WindowFlow.
From stdpp Require Import options.

Open Scope Z_scope.

(** ** Well-formed networks *)

(** The residual map and the head lists agree, and stay below [n]. *)
Definition wf (n : nat) (N : Net) : Prop :=
  (∀ u v, is_Some (n_res N !! (u, v)) ↔ v ∈ heads N u)
  ∧ (∀ u v, is_Some (n_res N !! (u, v)) → (u < n)%nat ∧ (v < n)%nat).

Lemma residual_put u v c N x y :
  residual (put_edge u v c N) x y = if decide ((x, y) = (u, v)) then c else residual N x y.
Proof.
  unfold residual, put_edge. simpl. rewrite lookup_insert.
  repeat case_decide; simplify_eq; done.
Qed.

Lemma put_edge_wf n u v c N : (u < n)%nat → (v < n)%nat → wf n N → wf n (put_edge u v c N).
Proof.
  intros Hu Hv [H1 H2]. split.
  - intros x y. unfold put_edge, heads. cbn [n_adj n_res]. rewrite lookup_insert.
    case_bool_decide as Hs.
    + case_decide as He; [|apply H1]. simplify_eq. split; [intros _; by apply H1|by eexists].
    + rewrite lookup_insert. destruct (decide (u = x)) as [->|Hux].
      * simpl. rewrite elem_of_app, list_elem_of_singleton, <- (H1 x y).
        case_decide as He; [simplify_eq; split; [by right|by eexists]|].
        split; [by left|]. intros [?| ->]; [done|congruence].
      * rewrite decide_False by congruence. apply H1.
  - intros x y. unfold put_edge. cbn [n_res]. rewrite lookup_insert.
    case_decide as He; [by simplify_eq|apply H2].
Qed.

Lemma residual_edge N t h c x y :
  residual (edge N (t, h, c)) x y = residual N x y + (if decide ((x, y) = (t, h)) then c else 0).
Proof.
  unfold edge. case_bool_decide as Hs.
  - rewrite residual_put. repeat case_decide; simplify_eq; lia.
  - rewrite !residual_put. destruct (decide ((x, y) = (h, t))) as [He|He].
    + simplify_eq. apply eq_None_not_Some in Hs.
      assert (residual (put_edge t h (residual N t h + c) N) h t = 0) as H0.
      { unfold residual at 1. by rewrite Hs. }
      rewrite residual_put in H0. case_decide; simplify_eq; lia.
    + case_decide; simplify_eq; lia.
Qed.

Lemma edge_wf n N t h c : (t < n)%nat → (h < n)%nat → wf n N → wf n (edge N (t, h, c)).
Proof.
  intros Ht Hh Hw. unfold edge. case_bool_decide; [by apply put_edge_wf|].
  apply put_edge_wf; [done|done|by apply put_edge_wf].
Qed.

Lemma residual_push q N t h x y :
  residual (push_edge q N (t, h)) x y
  = residual N x y - (if decide ((x, y) = (t, h)) then q else 0)
    + (if decide ((x, y) = (h, t)) then q else 0).
Proof.
  unfold push_edge. rewrite !residual_put.
  destruct (decide ((x, y) = (h, t))) as [He|He]; [|case_decide; simplify_eq; lia].
  simplify_eq. case_decide; simplify_eq; lia.
Qed.

Lemma push_wf n q N t h : (t < n)%nat → (h < n)%nat → wf n N → wf n (push_edge q N (t, h)).
Proof. intros. unfold push_edge. apply put_edge_wf; [done|done|by apply put_edge_wf]. Qed.

(** ** The search *)

(** [v] reaches the source through [k] parents. *)
Inductive chain (P : gmap nat nat) : nat → nat → Prop :=
  | chain_source : chain P 0 0
  | chain_step v p k : v ≠ 0%nat → P !! v = Some p → chain P p k → chain P v (S k).

Lemma chain_unique P v a b : chain P v a → chain P v b → a = b.
Proof.
  intros Ha. revert b. induction Ha as [|v p k Hv Hp Ha IH]; intros b Hb; inversion Hb; subst; try done.
  f_equal. apply IH. congruence.
Qed.

Lemma chain_mono P P' v k : P ⊆ P' → chain P v k → chain P' v k.
Proof. intros HP. induction 1; econstructor; eauto using lookup_weaken. Qed.

(** The search tree so far: rooted, below [n], along positive residuals, and
    every node off the frontier explored. *)
Record tree (n : nat) (N : Net) (P : gmap nat nat) (F : list nat) : Prop := {
  tr_root : is_Some (P !! 0%nat);
  tr_nodup : NoDup F;
  tr_frontier : ∀ x, x ∈ F → is_Some (P !! x);
  tr_below : ∀ x, is_Some (P !! x) → (x < n)%nat;
  tr_depth : ∀ x, is_Some (P !! x) → ∃ k, chain P x k ∧ (k < size P)%nat;
  tr_positive : ∀ x p, P !! x = Some p → x ≠ 0%nat → 0 < residual N p x;
  tr_explored : ∀ u v, is_Some (P !! u) → u ∉ F → 0 < residual N u v → is_Some (P !! v) }.

Lemma positive_head n N u v : wf n N → 0 < residual N u v → v ∈ heads N u ∧ (v < n)%nat.
Proof.
  intros [H1 H2] Hr. assert (is_Some (n_res N !! (u, v))) as Hs.
  { unfold residual in Hr. destruct (n_res N !! (u, v)); [by eexists|simpl in Hr; lia]. }
  split; [by apply H1|by apply (H2 u)].
Qed.

(** A node being scanned: explored up to the heads still to scan. *)
Lemma scan_tree n N tail hs P F P' F' :
  wf n N → is_Some (P !! tail) → tail ∉ F →
  (NoDup F ∧ (∀ x, x ∈ F → is_Some (P !! x)) ∧ (∀ x, is_Some (P !! x) → (x < n)%nat)
   ∧ is_Some (P !! 0%nat)
   ∧ (∀ x, is_Some (P !! x) → ∃ k, chain P x k ∧ (k < size P)%nat)
   ∧ (∀ x p, P !! x = Some p → x ≠ 0%nat → 0 < residual N p x)
   ∧ (∀ u v, is_Some (P !! u) → u ∉ F → u ≠ tail → 0 < residual N u v → is_Some (P !! v))
   ∧ (∀ v, v ∉ hs → 0 < residual N tail v → is_Some (P !! v))) →
  scan N tail hs P F = (P', F') →
  tree n N P' F' ∧ (size P' - length F' = size P - length F)%nat ∧ (length F ≤ length F')%nat
  ∧ (size P' = size P + (length F' - length F))%nat.
Proof.
  intros Hw. revert P F. induction hs as [|h hs IH]; intros P F Ht HtF HI Hs; cbn [scan] in Hs.
  { simplify_eq. destruct HI as (I1 & I2 & I3 & I4 & I5 & I6 & I7 & I8).
    split_and!; [|done|done|lia]. split; [done..|].
    intros u v Hu HuF Hr. destruct (decide (u = tail)) as [->|]; [|by eapply I7].
    apply I8; [apply not_elem_of_nil|done]. }
  destruct HI as (I1 & I2 & I3 & I4 & I5 & I6 & I7 & I8).
  destruct (bool_decide (0 < residual N tail h)) eqn:Hpos; cbn [andb] in Hs.
  2: { apply bool_decide_eq_false in Hpos. eapply IH; [done|done| |exact Hs].
       split_and!; try done. intros v Hv Hr. destruct (decide (v = h)) as [->|]; [done|].
       apply I8; [|done]. by rewrite not_elem_of_cons. }
  apply bool_decide_eq_true in Hpos. case_bool_decide as Hnew.
  2: { eapply IH; [done|done| |exact Hs]. split_and!; try done. intros v Hv Hr.
       destruct (decide (v = h)) as [->|]; [by apply not_eq_None_Some|].
       apply I8; [|done]. by rewrite not_elem_of_cons. }
  assert (P ⊆ <[h := tail]> P) as Hsub by (by apply insert_subseteq).
  assert (∀ x, is_Some (<[h := tail]> P !! x) ↔ x = h ∨ is_Some (P !! x)) as Hdom.
  { intros x. rewrite lookup_insert. case_decide; subst; [split; [by left|by eexists]|].
    split; [by right|]. intros [?|?]; [congruence|done]. }
  assert (h ∉ F) as HhF by (intros Hx%I2; rewrite Hnew in Hx; by destruct Hx).
  assert (h ≠ tail) as Hht by (intros ->; rewrite Hnew in Ht; by destruct Ht).
  assert (h ≠ 0%nat) as Hh0 by (intros ->; rewrite Hnew in I4; by destruct I4).
  destruct (positive_head _ _ _ _ Hw Hpos) as [_ Hhn].
  apply IH in Hs as (HT & H1 & H2 & H3).
  - rewrite map_size_insert_None in H1, H3 by done. rewrite length_app in H1, H2, H3. simpl in *.
    split_and!; [done|lia|lia|lia].
  - apply Hdom. by right.
  - rewrite elem_of_app, list_elem_of_singleton. intros [?|?]; congruence.
  - split_and!.
    + apply NoDup_app. split_and!; [done| |apply NoDup_singleton]. intros x Hx Hx'%list_elem_of_singleton. by subst.
    + intros x. rewrite elem_of_app, list_elem_of_singleton, Hdom. intros [?|?]; [right; by apply I2|by left].
    + intros x. rewrite Hdom. intros [->|?]; [done|by apply I3].
    + apply Hdom. by right.
    + intros x. rewrite Hdom, map_size_insert_None by done. intros [->|Hx].
      * destruct (I5 tail Ht) as (k & Hk & Hlt). exists (S k). split; [|lia].
        apply (chain_step _ h tail); [done|by rewrite lookup_insert_eq|by eapply chain_mono].
      * destruct (I5 x Hx) as (k & Hk & Hlt). exists k. split; [by eapply chain_mono|lia].
    + intros x p. rewrite lookup_insert. case_decide; [intros [= <-] _; by subst|apply I6].
    + intros u v. rewrite !Hdom, elem_of_app, list_elem_of_singleton. intros [->|Hu] HuF Hut Hr; [tauto|].
      right. apply (I7 u); tauto.
    + intros v Hv Hr. apply Hdom. destruct (decide (v = h)) as [->|]; [by left|right].
      apply I8; [|done]. by rewrite not_elem_of_cons.
Qed.

Lemma tree_size n N P F : tree n N P F → (size P ≤ n)%nat.
Proof.
  intros HT. rewrite <- size_dom. rewrite <- (size_set_seq (C := gset nat) 0 n). apply subseteq_size.
  intros x Hx%elem_of_dom. apply elem_of_set_seq. pose proof (tr_below _ _ _ _ HT x Hx). lia.
Qed.

Lemma tree_frontier_size n N P F : tree n N P F → (length F ≤ size P)%nat.
Proof.
  intros HT. rewrite <- size_dom, <- (size_list_to_set (C := gset nat) F) by apply HT.
  apply subseteq_size. intros x Hx%elem_of_list_to_set. apply elem_of_dom. by apply (tr_frontier _ _ _ _ HT).
Qed.

(** With enough fuel the search ends at the sink or has explored its tree. *)
Lemma bfs_tree n N fuel P F :
  wf n N → tree n N P F → (n - size P + length F ≤ fuel)%nat →
  ∃ F', tree n N (bfs fuel N F P) F' ∧ (is_Some (bfs fuel N F P !! 1%nat) ∨ F' = []).
Proof.
  intros Hw. revert P F. induction fuel as [|fuel IH]; intros P F HT Hf; cbn [bfs].
  { exists F. split; [by destruct F|]. right.
    pose proof (tree_size _ _ _ _ HT). pose proof (tree_frontier_size _ _ _ _ HT).
    destruct F; [done|]. simpl in *. exfalso. lia. }
  destruct F as [|tail F]; [exists []; by split; [|right]|].
  case_bool_decide as H1; [exists (tail :: F); by split; [|left]|].
  destruct (scan N tail (heads N tail) P F) as [P' F'] eqn:Hs.
  pose proof HT as [T1 T2 T3 T4 T5 T6 T7]. apply NoDup_cons in T2 as [HtF HF].
  apply (scan_tree n) in Hs as (HT' & Hd1 & Hd2 & Hd3);
    [|done|apply T3; by left|done|].
  - apply IH; [done|]. pose proof (tree_size _ _ _ _ HT). pose proof (tree_size _ _ _ _ HT').
    simpl in Hf. lia.
  - split_and!; try done.
    + intros x Hx. apply T3. by right.
    + intros u v Hu HuF Hut Hr. eapply T7; [done| |done]. rewrite not_elem_of_cons. done.
    + intros v Hv Hr. by destruct (positive_head _ _ _ _ Hw Hr) as [? _].
Qed.

Lemma tree_start n N : (0 < n)%nat → tree n N {[ 0%nat := 0%nat ]} [0%nat].
Proof.
  intros Hn. assert (∀ x, is_Some (({[ 0%nat := 0%nat ]} : gmap nat nat) !! x) ↔ x = 0%nat) as Hd.
  { intros x. rewrite lookup_singleton. case_decide; subst; [split; [done|by eexists]|].
    split; [by intros []|congruence]. }
  split.
  - by apply Hd.
  - apply NoDup_singleton.
  - intros x ->%list_elem_of_singleton. by apply Hd.
  - intros x ->%Hd. done.
  - intros x ->%Hd. exists 0%nat. split; [constructor|]. rewrite map_size_singleton. lia.
  - intros x p. rewrite lookup_singleton. case_decide; [by subst|done].
  - intros u v ->%Hd Hx. destruct Hx. by left.
Qed.

(** ** One augmentation *)

(** The path back from [v] follows its parents to the source, through
    distinct heads. *)
Lemma path_back_spec n N P F v k fuel :
  tree n N P F → chain P v k → (k ≤ fuel)%nat →
  NoDup (path_back fuel P v).*2
  ∧ (∀ t h, (t, h) ∈ path_back fuel P v → (t < n)%nat ∧ (h < n)%nat ∧ 0 < residual N t h)
  ∧ (∀ h, h ∈ (path_back fuel P v).*2 → ∃ j, chain P h j ∧ (0 < j ≤ k)%nat).
Proof.
  intros HT Hc. revert fuel. induction Hc as [|v p k Hv Hp Hc IH]; intros fuel Hf.
  { destruct fuel; cbn [path_back]; [|rewrite bool_decide_eq_true_2 by done];
      (split_and!; [constructor|intros t h Hx|intros h Hx]; by apply elem_of_nil in Hx). }
  destruct fuel as [|fuel]; [lia|]. cbn [path_back]. rewrite bool_decide_eq_false_2, Hp by done.
  destruct (IH fuel ltac:(lia)) as (I1 & I2 & I3). rewrite fmap_cons. cbn [snd]. split_and!.
  - apply NoDup_cons. split; [|done]. intros (j & Hj & Hle)%I3.
    pose proof (chain_unique _ _ _ _ Hj (chain_step _ _ _ _ Hv Hp Hc)). lia.
  - intros t h [[= -> ->]|Hx]%elem_of_cons; [|by apply I2].
    split_and!; [|by eapply (tr_below _ _ _ _ HT); eexists|by eapply (tr_positive _ _ _ _ HT)].
    inversion Hc as [|? q ? ? Hq]; subst; [apply (tr_below _ _ _ _ HT), (tr_root _ _ _ _ HT)|].
    eapply (tr_below _ _ _ _ HT). by eexists.
  - intros h [->|Hx]%elem_of_cons.
    + exists (S k). split; [by eapply chain_step|lia].
    + destruct (I3 h Hx) as (j & ? & ?). exists j. split; [done|lia].
Qed.

Definition row (n : nat) (N : Net) (x : nat) : Z := sumZ (residual N x) (seq 0 n).

Lemma sum_indicator n (x t h : nat) q :
  (h < n)%nat → sumZ (λ y, if decide ((x, y) = (t, h)) then q else 0) (seq 0 n) = if decide (x = t) then q else 0.
Proof.
  intros Hh. destruct (decide (x = t)) as [->|Hx].
  - rewrite <- (sumZ_at h q (seq 0 n)) at 1; [|apply NoDup_seq|apply elem_of_seq; lia].
    apply sumZ_ext. intros y _. repeat case_decide; simplify_eq; done.
  - apply sumZ_0. intros y _. rewrite decide_False; [done|]. congruence.
Qed.

Lemma row_push n q N t h x :
  (t < n)%nat → (h < n)%nat →
  row n (push_edge q N (t, h)) x
  = row n N x - (if decide (x = t) then q else 0) + (if decide (x = h) then q else 0).
Proof.
  intros Ht Hh. unfold row.
  rewrite (sumZ_ext _ (λ y, (residual N x y + - (if decide ((x, y) = (t, h)) then q else 0))
                            + (if decide ((x, y) = (h, t)) then q else 0))).
  - rewrite !sumZ_add, sumZ_opp, !sum_indicator by done. lia.
  - intros y _. rewrite residual_push. lia.
Qed.

(** Pushing along a path of distinct heads, each with room. *)
Lemma push_path n q es N :
  0 ≤ q → NoDup es.*2 → wf n N → (∀ x y, 0 ≤ residual N x y) →
  (∀ t h, (t, h) ∈ es → (t < n)%nat ∧ (h < n)%nat ∧ q ≤ residual N t h) →
  let N' := foldl (push_edge q) N es in
  wf n N' ∧ (∀ x y, 0 ≤ residual N' x y)
  ∧ (∀ x y, residual N' x y + residual N' y x = residual N x y + residual N y x)
  ∧ ∀ x, row n N' x = row n N x + sumZ (λ e, (if decide (x = e.2) then q else 0)
                                             - (if decide (x = e.1) then q else 0)) es.
Proof.
  intros Hq. revert N. induction es as [|[t h] es IH]; intros N Hnd Hw Hnn He; simpl.
  { split_and!; try done. intros x. unfold sumZ. simpl. lia. }
  rewrite fmap_cons in Hnd. cbn [snd] in Hnd. apply NoDup_cons in Hnd as [Hh Hnd].
  destruct (He t h ltac:(by left)) as (Ht & Hhn & Hqr).
  destruct (IH (push_edge q N (t, h)) Hnd ltac:(by apply push_wf)) as (J1 & J2 & J3 & J4).
  - intros x y. rewrite residual_push. pose proof (Hnn x y). repeat case_decide; simplify_eq; lia.
  - intros t' h' Hin. destruct (He t' h' ltac:(by right)) as (? & ? & ?). split_and!; [done|done|].
    rewrite residual_push. rewrite (decide_False (P := (t', h') = (t, h))); [case_decide; lia|].
    intros [= -> ->]. apply Hh. apply list_elem_of_fmap. by exists (t, h).
  - split_and!; [done|done| |].
    + intros x y. rewrite J3, !residual_push. repeat case_decide; simplify_eq; lia.
    + intros x. rewrite J4, row_push, sumZ_cons by done. cbn [fst snd]. lia.
Qed.

(** A path back from [v] to the source takes from the source and gives to
    [v]. *)
Lemma path_balance P v k fuel q x :
  chain P v k → (k ≤ fuel)%nat →
  sumZ (λ e, (if decide (x = e.2) then q else 0) - (if decide (x = e.1) then q else 0)) (path_back fuel P v)
  = (if decide (x = v) then q else 0) - (if decide (x = 0%nat) then q else 0).
Proof.
  intros Hc. revert fuel. induction Hc as [|v p k Hv Hp Hc IH]; intros fuel Hf.
  { destruct fuel; cbn [path_back]; [|rewrite bool_decide_eq_true_2 by done]; unfold sumZ; simpl; lia. }
  destruct fuel as [|fuel]; [lia|]. cbn [path_back]. rewrite bool_decide_eq_false_2, Hp by done.
  rewrite sumZ_cons, IH by lia. cbn [fst snd]. lia.
Qed.

Lemma push_le (N : Net) ub es :
  let q := foldl (λ p e, Z.min p (residual N e.1 e.2)) ub es in
  q ≤ ub ∧ ∀ t h, (t, h) ∈ es → q ≤ residual N t h.
Proof.
  revert ub. induction es as [|[t h] es IH]; intros ub; simpl.
  { split; [done|]. intros t h Hx. by apply elem_of_nil in Hx. }
  destruct (IH (Z.min ub (residual N t h))) as [I1 I2]. split; [lia|].
  intros t' h' [[= -> ->]|Hx]%elem_of_cons; [lia|by apply I2].
Qed.

Lemma push_positive (N : Net) ub es :
  0 < ub → (∀ t h, (t, h) ∈ es → 0 < residual N t h) →
  0 < foldl (λ p e, Z.min p (residual N e.1 e.2)) ub es.
Proof.
  revert ub. induction es as [|[t h] es IH]; intros ub Hub He; simpl; [done|]. apply IH.
  - specialize (He t h ltac:(by left)). lia.
  - intros t' h' Hx. apply He. by right.
Qed.

(** ** The loop *)

Section maxflow.
Context (n : nat) (c : nat → nat → Z) (ub : Z).
Context (Hn : (2 ≤ n)%nat) (Hub : 0 < ub).

Definition row_cap (x : nat) : Z := sumZ (c x) (seq 0 n).

(** [N] is what remains of the capacities [c] after a flow of value [flow]. *)
Record carries (N : Net) (flow : Z) : Prop := {
  ca_wf : wf n N;
  ca_nonneg : ∀ x y, 0 ≤ residual N x y;
  ca_pair : ∀ x y, residual N x y + residual N y x = c x y + c y x;
  ca_inner : ∀ x, x ≠ 0%nat → x ≠ 1%nat → row n N x = row_cap x;
  ca_source : row n N 0 = row_cap 0 - flow }.

(** The capacity leaving a set of nodes. *)
Definition cut_cap (inS : nat → bool) : Z :=
  sumZ (λ u, sumZ (λ v, if inS u && negb (inS v) then c u v else 0) (seq 0 n)) (seq 0 n).

(** The flow crosses every cut that separates the source from the sink. *)
Lemma flow_crosses N flow inS :
  carries N flow → inS 0%nat = true → inS 1%nat = false →
  flow = sumZ (λ u, sumZ (λ v, if inS u && negb (inS v) then c u v - residual N u v else 0) (seq 0 n)) (seq 0 n).
Proof using All.
  intros HC H0 H1. set (g := λ u v, c u v - residual N u v).
  assert (flow = sumZ (λ u, if inS u then sumZ (g u) (seq 0 n) else 0) (seq 0 n)) as Hflow.
  { rewrite <- (sumZ_at 0%nat flow (seq 0 n)) at 1; [|apply NoDup_seq|apply elem_of_seq; lia].
    apply sumZ_ext. intros u _. assert (sumZ (g u) (seq 0 n) = row_cap u - row n N u) as ->.
    { unfold row_cap, row, g. rewrite <- Z.add_opp_r, <- sumZ_opp, <- sumZ_add. apply sumZ_ext. intros; lia. }
    case_decide as Hu; [subst; rewrite H0, (ca_source _ _ HC); lia|].
    destruct (inS u) eqn:Hs; [|done]. rewrite (ca_inner _ _ HC); [lia|done|]. intros ->. congruence. }
  rewrite Hflow. set (inner u v := if inS u && inS v then g u v else 0).
  assert (sumZ (λ u, sumZ (inner u) (seq 0 n)) (seq 0 n) = 0) as Hin.
  { apply sumZ_antisym. intros u v. unfold inner, g. rewrite (andb_comm (inS v)).
    pose proof (ca_pair _ _ HC u v). destruct (inS u && inS v); lia. }
  rewrite <- (Z.add_0_r (sumZ _ (seq 0 n))) at 1. rewrite <- Z.sub_0_r at 1.
  transitivity (sumZ (λ u, if inS u then sumZ (g u) (seq 0 n) else 0) (seq 0 n)
                + - sumZ (λ u, sumZ (inner u) (seq 0 n)) (seq 0 n)); [lia|].
  rewrite <- sumZ_opp, <- sumZ_add. apply sumZ_ext. intros u _.
  rewrite <- sumZ_opp. unfold inner. destruct (inS u); cbn [andb negb].
  - rewrite <- sumZ_add. apply sumZ_ext. intros v _. unfold g. destruct (inS v); cbn [negb]; lia.
  - rewrite (sumZ_0 (λ x, - 0)) by done. symmetry. rewrite sumZ_0 by done. lia.
Qed.

Lemma flow_le_cut N flow inS :
  carries N flow → inS 0%nat = true → inS 1%nat = false → flow ≤ cut_cap inS.
Proof using All.
  intros HC H0 H1. rewrite (flow_crosses N flow inS HC H0 H1). apply sumZ_le. intros u _.
  apply sumZ_le. intros v _. pose proof (ca_nonneg _ _ HC u v). destruct (inS u && negb (inS v)); lia.
Qed.

Lemma flow_bounded N flow : carries N flow → flow ≤ row_cap 0.
Proof using All.
  intros HC. assert (0 ≤ row n N 0) as H by (apply sumZ_nonneg; intros; apply HC).
  rewrite (ca_source _ _ HC) in H. lia.
Qed.

(** With enough rounds the loop ends, at the capacity of some cut. *)
Lemma augment_spec fuel N flow :
  carries N flow → row_cap 0 - flow < Z.of_nat fuel →
  ∃ flow' N', augment fuel n ub N flow = Some (flow', N') ∧ carries N' flow'
    ∧ ∃ inS, inS 0%nat = true ∧ inS 1%nat = false ∧ flow' = cut_cap inS.
Proof using All.
  revert N flow. induction fuel as [|fuel IH]; intros N flow HC Hf.
  { pose proof (flow_bounded _ _ HC). lia. }
  cbn [augment]. set (P := bfs n N [0%nat] {[ 0%nat := 0%nat ]}).
  destruct (bfs_tree n N n {[ 0%nat := 0%nat ]} [0%nat] (ca_wf _ _ HC) (tree_start n N ltac:(lia)))
    as (F & HT & Hend).
  { rewrite map_size_singleton. simpl. lia. }
  fold P in HT, Hend. case_bool_decide as H1.
  - exists flow, N. split_and!; [done|done|].
    destruct Hend as [Hend|Hend]; [rewrite H1 in Hend; by destruct Hend|subst F].
    exists (λ u, bool_decide (is_Some (P !! u))). split_and!.
    + apply bool_decide_eq_true_2, (tr_root _ _ _ _ HT).
    + apply bool_decide_eq_false_2. rewrite H1. by intros [].
    + rewrite (flow_crosses N flow (λ u, bool_decide (is_Some (P !! u))) HC).
      * unfold cut_cap. apply sumZ_ext. intros u _. apply sumZ_ext. intros v _.
        destruct (bool_decide (is_Some (P !! u))) eqn:Hu; [|done]. apply bool_decide_eq_true in Hu.
        destruct (bool_decide (is_Some (P !! v))) eqn:Hv; [done|]. apply bool_decide_eq_false in Hv. simpl.
        pose proof (ca_nonneg _ _ HC u v).
        destruct (decide (0 < residual N u v)) as [Hr|]; [|lia].
        destruct Hv. eapply (tr_explored _ _ _ _ HT); [done|apply not_elem_of_nil|done].
      * apply bool_decide_eq_true_2, (tr_root _ _ _ _ HT).
      * apply bool_decide_eq_false_2. rewrite H1. by intros [].
  - assert (is_Some (P !! 1%nat)) as Hs by (by apply not_eq_None_Some).
    destruct (tr_depth _ _ _ _ HT 1%nat Hs) as (k & Hk & Hlt). pose proof (tree_size _ _ _ _ HT) as Hsz.
    destruct (path_back_spec n N P F 1 k n HT Hk ltac:(lia)) as (P1 & P2 & _).
    set (es := path_back n P 1) in *.
    set (q := foldl (λ p e, Z.min p (residual N e.1 e.2)) ub es).
    assert (0 < q) as Hq by (apply push_positive; [done|intros t h Hx; apply (P2 t h Hx)]).
    destruct (push_le N ub es) as [_ Hqle]. fold q in Hqle.
    destruct (push_path n q es N ltac:(lia) P1 (ca_wf _ _ HC) (ca_nonneg _ _ HC)) as (J1 & J2 & J3 & J4).
    { intros t h Hx. destruct (P2 t h Hx) as (? & ? & _). by split_and!; [| |apply Hqle]. }
    assert (∀ x, row n (foldl (push_edge q) N es) x
                 = row n N x + ((if decide (x = 1%nat) then q else 0) - (if decide (x = 0%nat) then q else 0))) as Hrow.
    { intros x. rewrite J4. f_equal. eapply path_balance; [exact Hk|lia]. }
    apply IH; [|lia]. split; [done|done| | |].
    + intros x y. rewrite J3. apply (ca_pair _ _ HC).
    + intros x Hx0 Hx1. rewrite Hrow, !decide_False by done. rewrite (ca_inner _ _ HC) by done. lia.
    + rewrite Hrow, (ca_source _ _ HC). rewrite decide_False, decide_True by done. lia.
Qed.
End maxflow.
