(* ===== verification/WindowFlowSpec.v ===== *)
(** * The joint need is the maximum over holdings

    [joint_need_gib] terminates, no way of holding shared ranges exceeds what
    it returns, and what it returns is the least cut between windows and
    ranges. *)

From S2P Require Import Prelude.
From S2P Require Import WindowFlow.
From S2P Require Import WindowFlowFacts.
From stdpp Require Import options.

Open Scope Z_scope.

(** ** Networks built from edge lists *)

Lemma residual_edges es N x y :
  residual (foldl edge N es) x y
  = residual N x y + sumZ (λ e, if decide ((x, y) = e.1) then e.2 else 0) es.
Proof.
  revert N. induction es as [|[[t h] c] es IH]; intros N; cbn [foldl].
  - unfold sumZ. simpl. lia.
  - rewrite IH, residual_edge, sumZ_cons. cbn [fst snd]. lia.
Qed.

Definition below (n : nat) (es : list (nat * nat * Z)) : Prop :=
  ∀ t h c, (t, h, c) ∈ es → (t < n)%nat ∧ (h < n)%nat ∧ 0 ≤ c.

Lemma edges_wf n es N : below n es → wf n N → wf n (foldl edge N es).
Proof.
  revert N. induction es as [|[[t h] c] es IH]; intros N Hb Hw; [done|]. cbn [foldl]. apply IH.
  - intros t' h' c' Hx. apply Hb. by right.
  - destruct (Hb t h c ltac:(by left)) as (? & ? & _). by apply edge_wf.
Qed.

Lemma empty_wf n : wf n empty_net.
Proof.
  split; intros u v; unfold empty_net, heads; simpl; rewrite lookup_empty; [|by intros []].
  rewrite lookup_empty. simpl. split; [by intros []|by intros ?%elem_of_nil].
Qed.

Lemma residual_empty x y : residual empty_net x y = 0.
Proof. unfold residual, empty_net. simpl. by rewrite lookup_empty. Qed.

Lemma residual_built es x y :
  residual (foldl edge empty_net es) x y = sumZ (λ e, if decide ((x, y) = e.1) then e.2 else 0) es.
Proof. rewrite residual_edges, residual_empty. lia. Qed.

Lemma built_carries n es :
  below n es → carries n (residual (foldl edge empty_net es)) (foldl edge empty_net es) 0.
Proof.
  intros Hb. split; try done.
  - by apply edges_wf, empty_wf.
  - intros x y. rewrite residual_built. apply sumZ_nonneg. intros [[t h] c] Hx.
    destruct (Hb t h c Hx) as (_ & _ & ?). case_decide; simpl; lia.
  - unfold row_cap, row. lia.
Qed.

(** A cut of a built network counts its crossing edges. *)
Lemma built_cut n es inS :
  below n es →
  cut_cap n (residual (foldl edge empty_net es)) inS
  = sumZ (λ e, if inS e.1.1 && negb (inS e.1.2) then e.2 else 0) es.
Proof.
  intros Hb. unfold cut_cap.
  transitivity (sumZ (λ u, sumZ (λ v, sumZ (λ e, if decide ((u, v) = e.1) then
                   (if inS e.1.1 && negb (inS e.1.2) then e.2 else 0) else 0) es) (seq 0 n)) (seq 0 n)).
  { apply sumZ_ext. intros u _. apply sumZ_ext. intros v _. rewrite residual_built.
    destruct (inS u && negb (inS v)) eqn:Hc.
    - apply sumZ_ext. intros [[t h] c] _. simpl. case_decide as He; [|done]. simplify_eq. by rewrite Hc.
    - symmetry. apply sumZ_0. intros [[t h] c] _. simpl. case_decide as He; [|done]. simplify_eq. by rewrite Hc. }
  rewrite (sumZ_ext _ (λ u, sumZ (λ e, sumZ (λ v, if decide ((u, v) = e.1) then
             (if inS e.1.1 && negb (inS e.1.2) then e.2 else 0) else 0) (seq 0 n)) es))
    by (intros; apply sumZ_swap).
  rewrite sumZ_swap. apply sumZ_ext. intros [[t h] c] Hx. simpl.
  destruct (Hb t h c Hx) as (Ht & Hh & _).
  rewrite (sumZ_ext _ (λ u, if decide (u = t) then (if inS t && negb (inS h) then c else 0) else 0))
    by (intros; by apply sum_indicator).
  apply sumZ_at; [apply NoDup_seq|apply elem_of_seq; lia].
Qed.

Lemma built_row n es x :
  below n es → row_cap n (residual (foldl edge empty_net es)) x
  = sumZ (λ e, if decide (x = e.1.1) then e.2 else 0) es.
Proof.
  intros Hb. unfold row_cap. rewrite (sumZ_ext _ _ _ (λ y _, residual_built es x y)), sumZ_swap.
  apply sumZ_ext. intros [[t h] c] Hx. simpl. destruct (Hb t h c Hx) as (_ & Hh & _).
  by apply sum_indicator.
Qed.

(** ** Sums over grouped ranges *)

Lemma map_sum_insert {K} `{Countable K} (φ : K → Z) (g : gmap K Z) s x :
  sumZ (λ kv, φ kv.1 * kv.2) (map_to_list (<[s := default 0 (g !! s) + x]> g))
  = sumZ (λ kv, φ kv.1 * kv.2) (map_to_list g) + φ s * x.
Proof.
  destruct (g !! s) as [y|] eqn:Hs; simpl.
  - rewrite <- (insert_delete_id g s y Hs) at 2. rewrite <- insert_delete_eq.
    rewrite (sumZ_perm _ _ _ (map_to_list_insert (delete s g) s (y + x) (lookup_delete_eq _ _))).
    rewrite (sumZ_perm _ _ _ (map_to_list_insert (delete s g) s y (lookup_delete_eq _ _))).
    rewrite !sumZ_cons. simpl. lia.
  - rewrite (sumZ_perm _ _ _ (map_to_list_insert g s _ Hs)), sumZ_cons. simpl. lia.
Qed.

Section joint.
Context (needs : gmap string Z) (reach : gmap string (list string)) (caps : gmap string Z).
Local Abbreviation members := (members needs).
Local Abbreviation need_of := (need_of needs).
Local Abbreviation readers := (readers needs reach).
Local Abbreviation cap_of := (cap_of caps).
Local Abbreviation groups := (groups needs reach caps).
Local Abbreviation sorted_groups := (sorted_groups needs reach caps).
Local Abbreviation edges := (edges needs reach caps).
Local Abbreviation node := (node needs).
Local Abbreviation node_count := (node_count needs reach caps).
Local Abbreviation unbounded := (unbounded needs).

Lemma members_NoDup : NoDup members.
Proof. apply NoDup_filter, NoDup_listing. Qed.

Lemma member_need k : k ∈ members → 0 < need_of k.
Proof. by intros [? _]%list_elem_of_filter. Qed.

(** Who reads a range: the members that reach it. *)
Lemma readers_spec item k :
  k ∈ (default ∅ (readers !! item) : gset string) ↔ k ∈ members ∧ item ∈ default [] (reach !! k).
Proof.
  unfold WindowFlow.readers.
  assert (∀ ms (m : gmap string (gset string)), k ∈ (default ∅ (foldl (λ m k, foldl (λ m' item, <[item := {[k]} ∪ default ∅ (m' !! item)]> m') m
                  (default [] (reach !! k))) m ms !! item) : gset string)
     ↔ k ∈ (default ∅ (m !! item) : gset string) ∨ (k ∈ ms ∧ item ∈ default [] (reach !! k))) as Hgen.
  { intros ms. induction ms as [|k' ms IH]; intros m; cbn [foldl]; [set_solver|].
    rewrite IH.
    assert (∀ its (m : gmap string (gset string)), k ∈ (default ∅ (foldl (λ m' item, <[item := {[k']} ∪ default ∅ (m' !! item)]> m') m its !! item) : gset string)
       ↔ k ∈ (default ∅ (m !! item) : gset string) ∨ (k = k' ∧ item ∈ its)) as Hin.
    { intros its. induction its as [|i its IHi]; intros m'; cbn [foldl]; [set_solver|].
      rewrite IHi, lookup_insert. destruct (decide (i = item)) as [->|Hne]; simpl; [set_solver|].
      rewrite elem_of_cons. intuition congruence. }
    rewrite Hin, elem_of_cons. intuition (subst; auto). }
  rewrite Hgen, lookup_empty. simpl. set_solver.
Qed.

(** A set of readers that meets [A]. *)
Definition meets (A : string → bool) (sig : list string) : bool := existsb A sig.

Lemma groups_sum (φ : list string → Z) :
  sumZ (λ g, φ g.1 * g.2) sorted_groups
  = sumZ (λ r, φ (listing r.2) * cap_of r.1) (map_to_list readers).
Proof.
  unfold WindowFlow.sorted_groups.
  rewrite (sumZ_perm _ _ _ (merge_sort_Permutation group_le (map_to_list groups))).
  unfold WindowFlow.groups. generalize readers.
  apply (map_fold_weak_ind (λ g m, sumZ (λ g, φ g.1 * g.2) (map_to_list g)
           = sumZ (λ r, φ (listing r.2) * cap_of r.1) (map_to_list m))); [by rewrite !map_to_list_empty|].
  intros item keys m g Hm IH. rewrite (sumZ_perm _ _ _ (map_to_list_insert m item keys Hm)), sumZ_cons.
  cbn [fst snd]. case_bool_decide as H0; [rewrite H0, IH; lia|]. rewrite map_sum_insert, IH. lia.
Qed.

Lemma group_facts sig c : (sig, c) ∈ sorted_groups → 0 ≤ c ∧ ∀ k, k ∈ sig → k ∈ members.
Proof.
  unfold WindowFlow.sorted_groups. rewrite merge_sort_Permutation, elem_of_map_to_list.
  unfold WindowFlow.groups.
  assert (∀ item keys, readers !! item = Some keys → ∀ k, k ∈ keys → k ∈ members) as Hk.
  { intros item keys Hi k Hx. apply (readers_spec item k). by rewrite Hi. }
  revert sig c Hk. generalize readers.
  apply (map_fold_weak_ind (λ g m, ∀ sig c,
     (∀ item keys, m !! item = Some keys → ∀ k, k ∈ keys → k ∈ members) →
     g !! sig = Some c → 0 ≤ c ∧ ∀ k, k ∈ sig → k ∈ members)); [by intros|].
  intros item keys m g Hm IH sig c Hk Hg.
  assert (∀ item' keys', m !! item' = Some keys' → ∀ k, k ∈ keys' → k ∈ members) as Hk'.
  { intros i' ks' Hi'. apply (Hk i'). rewrite lookup_insert_ne; [done|]. intros ->. congruence. }
  case_bool_decide as H0; [by apply IH|]. rewrite lookup_insert in Hg. case_decide as Hs; [|by apply IH].
  injection Hg as <-. subst sig. split.
  - assert (0 ≤ cap_of item) by (unfold WindowFlow.cap_of; lia).
    destruct (g !! listing keys) as [y|] eqn:Hy; simpl; [|lia].
    destruct (IH _ _ Hk' Hy). lia.
  - intros k Hx%elem_of_listing. apply (Hk item keys); [by rewrite lookup_insert_eq|done].
Qed.

(** ** The nodes *)

Lemma node_spec k : k ∈ members →
  ∃ i, node k = (2 + i)%nat ∧ members !! i = Some k ∧ (i < length members)%nat.
Proof.
  intros Hk. unfold WindowFlow.node.
  destruct (list_find_elem_of (λ x, x = k) members k Hk eq_refl) as [[i x] Hf]. rewrite Hf.
  apply list_find_Some in Hf as (Hi & -> & _). exists i. split_and!; [done|done|].
  by eapply lookup_lt_Some.
Qed.

Lemma elem_of_edges e :
  e ∈ edges ↔ (∃ k, k ∈ members ∧ e = (0%nat, node k, need_of k))
    ∨ ∃ i g, sorted_groups !! i = Some g ∧ e ∈ group_edges needs i g.
Proof.
  unfold WindowFlow.edges. rewrite elem_of_app, list_elem_of_fmap. apply or_iff_compat_l || idtac.
  split; (intros [H|H]; [left; naive_solver|right]).
  - rewrite list_elem_of_In, in_concat in H. destruct H as (l & Hl%list_elem_of_In & He%list_elem_of_In).
    apply elem_of_lookup_imap in Hl as (i & g & -> & Hg). by exists i, g.
  - destruct H as (i & g & Hg & He). rewrite list_elem_of_In, in_concat.
    exists (group_edges needs i g). rewrite <- !list_elem_of_In. split; [|done].
    apply elem_of_lookup_imap. by exists i, g.
Qed.

Lemma unbounded_pos : 0 < unbounded.
Proof.
  unfold WindowFlow.unbounded. assert (0 ≤ sumZ need_of members); [|lia].
  apply sumZ_nonneg. intros k Hk%member_need. lia.
Qed.

Lemma elem_of_group_edges i g t h c :
  (t, h, c) ∈ group_edges needs i g ↔
  (t = (2 + length members + i)%nat ∧ h = 1%nat ∧ c = g.2)
  ∨ (h = (2 + length members + i)%nat ∧ c = unbounded ∧ ∃ k, k ∈ g.1 ∧ t = node k).
Proof.
  unfold group_edges. rewrite elem_of_cons, list_elem_of_fmap. split.
  - intros [[= -> -> ->]|(k & [= -> -> ->] & Hk)]; [by left|right]. split_and!; [done|done|by exists k].
  - intros [(-> & -> & ->)|(-> & -> & k & Hk & ->)]; [by left|right; by exists k].
Qed.

Lemma edges_below : below node_count edges.
Proof.
  intros t h c [(k & Hk & [= -> -> ->])|(i & [sig x] & Hg & He)]%elem_of_edges; unfold WindowFlow.node_count.
  - destruct (node_spec k Hk) as (j & -> & _ & ?). pose proof (member_need k Hk). lia.
  - pose proof (lookup_lt_Some _ _ _ Hg). pose proof unbounded_pos.
    destruct (group_facts sig x) as [Hx Hsig]; [by eapply list_elem_of_lookup_2|].
    apply elem_of_group_edges in He as [(-> & -> & ->)|(-> & -> & k & Hk & ->)]; simpl in *; [lia|].
    destruct (node_spec k (Hsig k Hk)) as (j & -> & _ & ?). lia.
Qed.

(** The sum of a function over all edges. *)
Lemma edges_sum (f : nat * nat * Z → Z) :
  sumZ f edges = sumZ (λ k, f (0%nat, node k, need_of k)) members
    + sumZ (λ ig : nat * (list string * Z), sumZ f (group_edges needs ig.1 ig.2)) (imap pair sorted_groups).
Proof.
  unfold WindowFlow.edges. rewrite sumZ_app, sumZ_fmap, sumZ_concat. f_equal.
  rewrite <- (sumZ_fmap (λ ig : nat * (list string * Z), group_edges needs ig.1 ig.2) (sumZ f)). f_equal.
  by rewrite fmap_imap.
Qed.

Lemma elem_of_indexed i g : (i, g) ∈ imap pair sorted_groups ↔ sorted_groups !! i = Some g.
Proof.
  rewrite elem_of_lookup_imap. split; [by intros (? & ? & [= -> ->] & ?)|]. intros. by exists i, g.
Qed.

Lemma indexed_sum (f : list string * Z → Z) :
  sumZ (λ ig : nat * (list string * Z), f ig.2) (imap pair sorted_groups) = sumZ f sorted_groups.
Proof.
  rewrite <- (sumZ_fmap snd f). f_equal. apply list_eq. intros i.
  rewrite list_lookup_fmap, list_lookup_imap. by destruct (sorted_groups !! i).
Qed.

(** ** Cuts between windows and ranges *)

(** What the windows outside [A] need, and the ranges [A] can reach. *)
Definition cut (A : string → bool) : Z :=
  sumZ (λ k, if A k then 0 else need_of k) members
  + sumZ (λ r, if meets A (listing r.2) then cap_of r.1 else 0) (map_to_list readers).

Lemma cut_groups A :
  cut A = sumZ (λ k, if A k then 0 else need_of k) members
          + sumZ (λ g, if meets A g.1 then g.2 else 0) sorted_groups.
Proof.
  unfold cut. f_equal. symmetry.
  rewrite (sumZ_ext (λ g, if meets A g.1 then g.2 else 0) (λ g, (if meets A g.1 then 1 else 0) * g.2))
    by (intros; case_match; lia).
  rewrite (groups_sum (λ sig, if meets A sig then 1 else 0)). apply sumZ_ext. intros r _. case_match; lia.
Qed.

(** A cut of the network, edge by edge. *)
Lemma cut_edges inS :
  inS 0%nat = true → inS 1%nat = false →
  sumZ (λ e, if inS e.1.1 && negb (inS e.1.2) then e.2 else 0) edges
  = sumZ (λ k, if inS (node k) then 0 else need_of k) members
    + sumZ (λ ig : nat * (list string * Z),
        (if inS (2 + length members + ig.1)%nat then ig.2.2 else 0)
        + sumZ (λ k, if inS (node k) && negb (inS (2 + length members + ig.1)%nat) then unbounded else 0) ig.2.1)
        (imap pair sorted_groups).
Proof.
  intros H0 H1. rewrite edges_sum. f_equal.
  - apply sumZ_ext. intros k _. cbn [fst snd]. rewrite H0. by destruct (inS (node k)).
  - apply sumZ_ext. intros [i g] _. unfold group_edges. rewrite sumZ_cons, sumZ_fmap. cbn [fst snd].
    rewrite H1. cbn [negb]. by rewrite andb_true_r.
Qed.

(** The set of nodes a set of windows names. *)
Definition nodes_of (A : string → bool) (u : nat) : bool :=
  match u with
  | 0%nat => true
  | 1%nat => false
  | S (S j) =>
      match members !! j with
      | Some k => A k
      | None => match sorted_groups !! (j - length members)%nat with
                | Some g => meets A g.1 | None => false end
      end
  end.

Lemma nodes_of_member A k : k ∈ members → nodes_of A (node k) = A k.
Proof. intros (i & -> & Hi & _)%node_spec. simpl. by rewrite Hi. Qed.

Lemma nodes_of_group A i g :
  sorted_groups !! i = Some g → nodes_of A (2 + length members + i) = meets A g.1.
Proof.
  intros Hg. simpl. rewrite (lookup_ge_None_2 members) by lia.
  replace (length members + i - length members)%nat with i by lia. by rewrite Hg.
Qed.

Lemma cut_of_nodes A :
  sumZ (λ e, if nodes_of A e.1.1 && negb (nodes_of A e.1.2) then e.2 else 0) edges = cut A.
Proof.
  rewrite cut_edges, cut_groups by done. f_equal.
  - apply sumZ_ext. intros k Hk. by rewrite nodes_of_member.
  - rewrite <- (indexed_sum (λ g, if meets A g.1 then g.2 else 0)). apply sumZ_ext.
    intros [i g] Hig%elem_of_indexed. cbn [fst snd]. rewrite (nodes_of_group A i g Hig).
    rewrite sumZ_0; [lia|]. intros k Hk.
    assert (k ∈ members) as Hm.
    { destruct g as [sig x]. eapply (group_facts sig x); [by eapply list_elem_of_lookup_2|done]. }
    rewrite nodes_of_member by done. destruct (A k) eqn:HA; [|done].
    assert (meets A g.1 = true) as ->; [|done]. apply existsb_exists. exists k. by rewrite <- list_elem_of_In.
Qed.

(** A cut cheaper than an unbounded edge crosses none. *)
Lemma cheap_cut inS :
  inS 0%nat = true → inS 1%nat = false →
  sumZ (λ e, if inS e.1.1 && negb (inS e.1.2) then e.2 else 0) edges < unbounded →
  cut (λ k, inS (node k)) ≤ sumZ (λ e, if inS e.1.1 && negb (inS e.1.2) then e.2 else 0) edges.
Proof.
  intros H0 H1. rewrite cut_edges, cut_groups by done. set (R := sumZ _ (imap pair sorted_groups)).
  intros Hlt. apply Z.add_le_mono_l. unfold R in *. clear R.
  rewrite <- (indexed_sum (λ g, if meets _ g.1 then g.2 else 0)). apply sumZ_le.
  intros [i g] Hig. cbn [fst snd]. pose proof Hig as Hg%elem_of_indexed.
  assert (0 ≤ g.2) as Hpos.
  { destruct g as [sig x]. eapply (group_facts sig x). by eapply list_elem_of_lookup_2. }
  destruct (inS (2 + length members + i)%nat) eqn:Hin.
  { rewrite (sumZ_0 (λ k, if inS (node k) && negb true then unbounded else 0)); [case_match; lia|].
    intros k _. by rewrite andb_false_r. }
  destruct (meets (λ k, inS (node k)) g.1) eqn:Hm.
  2: { assert (0 ≤ sumZ (λ k, if inS (node k) && negb false then unbounded else 0) g.1); [|lia].
       apply sumZ_nonneg. intros. pose proof unbounded_pos. case_match; lia. }
  exfalso. apply existsb_exists in Hm as (k & Hk%list_elem_of_In & Hks).
  assert (unbounded ≤ sumZ (λ k, if inS (node k) && negb (inS (2 + length members + i)%nat) then unbounded else 0) g.1) as Hbig.
  { pose proof unbounded_pos. rewrite Hin. cbn [negb].
    transitivity ((λ k, if inS (node k) && true then unbounded else 0) k); [by rewrite Hks|].
    apply (sumZ_elem_le (λ k, if inS (node k) && true then unbounded else 0)); [|done].
    intros y _. case_match; lia. }
  assert (0 ≤ sumZ (λ k, if inS (node k) then 0 else need_of k) members) as Hn.
  { apply sumZ_nonneg. intros y Hy%member_need. case_match; lia. }
  pose proof (sumZ_elem_le (λ ig : nat * (list string * Z),
        (if inS (2 + length members + ig.1)%nat then ig.2.2 else 0)
        + sumZ (λ k, if inS (node k) && negb (inS (2 + length members + ig.1)%nat) then unbounded else 0) ig.2.1)
        (imap pair sorted_groups) (i, g)) as Hone.
  cbn [fst snd] in Hone. rewrite Hin in Hone. rewrite Hin in Hbig.
  specialize (Hone ltac:(
    intros [i' [sig' x']] Hig'%elem_of_indexed; cbn [fst snd];
    destruct (group_facts sig' x') as [? _]; [by eapply list_elem_of_lookup_2|];
    pose proof unbounded_pos;
    assert (0 ≤ sumZ (λ k, if inS (node k) && negb (inS (2 + length members + i')%nat) then unbounded else 0) sig')
      by (apply sumZ_nonneg; intros; case_match; lia);
    case_match; lia) Hig).
  lia.
Qed.

(** ** The result *)

Lemma row_source : row_cap node_count (residual (foldl edge empty_net edges)) 0 = unbounded - 1.
Proof.
  rewrite built_row by apply edges_below. rewrite edges_sum.
  rewrite (sumZ_ext _ need_of) by done.
  rewrite (sumZ_0 _ (imap pair sorted_groups)); [unfold WindowFlow.unbounded; lia|].
  intros [i [sig x]] Hig%elem_of_indexed. unfold group_edges. rewrite sumZ_cons, sumZ_fmap. cbn [fst snd].
  rewrite decide_False by lia. rewrite sumZ_0; [lia|]. intros k Hk. cbn [fst snd].
  destruct (group_facts sig x) as [_ Hm]; [by eapply list_elem_of_lookup_2|].
  destruct (node_spec k (Hm k Hk)) as (j & -> & _). by rewrite decide_False by lia.
Qed.

Lemma joint_need_cut :
  ∃ f, joint_need_gib needs reach caps = Some f ∧ (∀ A, f ≤ cut A) ∧ ∃ A, f = cut A.
Proof.
  unfold joint_need_gib. case_bool_decide as Hg.
  { exists 0. assert (sorted_groups = []) as Hs.
    { unfold WindowFlow.sorted_groups. by rewrite Hg, map_to_list_empty. }
    split_and!; [done| |].
    - intros A. rewrite cut_groups, Hs. assert (0 ≤ sumZ (λ k, if A k then 0 else need_of k) members).
      { apply sumZ_nonneg. intros k Hk%member_need. case_match; lia. } unfold sumZ at 2. simpl. lia.
    - exists (λ _, true). rewrite cut_groups, Hs, sumZ_0 by done. done. }
  set (N := foldl edge empty_net edges). set (c := residual N).
  assert (carries node_count c N 0) as HC by apply built_carries, edges_below.
  assert (2 ≤ node_count)%nat as Hn by (unfold WindowFlow.node_count; lia).
  destruct (augment_spec node_count c unbounded Hn unbounded_pos (Z.to_nat unbounded) N 0 HC) as
    (f & N' & -> & HC' & inS & H0 & H1 & Hcut).
  { unfold c, N. rewrite row_source. pose proof unbounded_pos. lia. }
  exists f. simpl.
  assert (∀ A, f ≤ cut A) as Hall.
  { intros A. rewrite <- cut_of_nodes, <- (built_cut node_count) by apply edges_below.
    by apply (flow_le_cut node_count c unbounded Hn unbounded_pos N' f (nodes_of A)). }
  split_and!; [done|done|]. exists (λ k, inS (node k)). apply Z.le_antisymm; [apply Hall|].
  pose proof (flow_bounded node_count c unbounded Hn unbounded_pos N' f HC') as Hb.
  unfold c, N in Hb, Hcut. rewrite row_source in Hb. rewrite built_cut in Hcut by apply edges_below.
  rewrite Hcut at 1. apply cheap_cut; [done|done|]. rewrite <- Hcut. lia.
Qed.
End joint.

(** ** Holdings *)

(** The ranges some window can still hold. *)
Definition ranges (needs : gmap string Z) (reach : gmap string (list string)) : list string :=
  (map_to_list (readers needs reach)).*1.

(** A way the windows hold shared ranges at one moment: parts of ranges each
    can reach, at most its need, and one copy of a range for all of them. *)
Record holding (needs : gmap string Z) (reach : gmap string (list string)) (caps : gmap string Z)
    (h : string → string → Z) : Prop := {
  ho_nonneg : ∀ k r, 0 ≤ h k r;
  ho_reach : ∀ k r, h k r ≠ 0 → r ∈ default [] (reach !! k);
  ho_need : ∀ k, k ∈ members needs → sumZ (h k) (ranges needs reach) ≤ need_of needs k;
  ho_copy : ∀ r, sumZ (λ k, h k r) (members needs) ≤ cap_of caps r }.

Lemma holding_le_cut needs reach caps h A :
  holding needs reach caps h →
  sumZ (λ k, sumZ (h k) (ranges needs reach)) (members needs) ≤ cut needs reach caps A.
Proof.
  intros [H1 H2 H3 H4].
  rewrite (sumZ_ext _ (λ k, (if A k then 0 else sumZ (h k) (ranges needs reach))
                            + (if A k then sumZ (h k) (ranges needs reach) else 0)))
    by (intros k _; case_match; lia).
  rewrite sumZ_add. unfold cut. apply Z.add_le_mono.
  { apply sumZ_le. intros k Hk. case_match; [lia|by apply H3]. }
  rewrite (sumZ_ext (λ k, if A k then _ else 0) (λ k, sumZ (λ r, if A k then h k r else 0) (ranges needs reach)))
    by (intros k _; case_match; [done|by rewrite sumZ_0]).
  rewrite sumZ_swap. unfold ranges. rewrite sumZ_fmap. apply sumZ_le. intros [r keys] Hr. cbn [fst snd].
  apply elem_of_map_to_list in Hr. destruct (meets A (listing keys)) eqn:Hm.
  - etrans; [|apply H4]. apply sumZ_le. intros k _. pose proof (H1 k r). case_match; lia.
  - rewrite sumZ_0; [done|]. intros k Hk. destruct (A k) eqn:HA; [|done].
    destruct (decide (h k r = 0)) as [|Hne]; [done|]. exfalso.
    assert (k ∈ (default ∅ (readers needs reach !! r) : gset string)) as Hkr
      by (apply readers_spec; split; [done|by apply H2]).
    rewrite Hr in Hkr. simpl in Hkr.
    assert (meets A (listing keys) = true); [|congruence].
    apply existsb_exists. exists k. rewrite <- list_elem_of_In, elem_of_listing. done.
Qed.

(** C22: the joint need always comes out, no way the windows can hold their
    ranges at once exceeds it, and it is the least cut between windows and
    ranges, so it is the maximum the shared ranges allow and never an
    over-count. *)
Theorem joint_need_is_maximum needs reach caps :
  ∃ f, joint_need_gib needs reach caps = Some f
    ∧ (∀ h, holding needs reach caps h →
            sumZ (λ k, sumZ (h k) (ranges needs reach)) (members needs) ≤ f)
    ∧ (∀ A, f ≤ cut needs reach caps A) ∧ ∃ A, f = cut needs reach caps A.
Proof.
  destruct (joint_need_cut needs reach caps) as (f & Hf & Hall & A & HA). exists f.
  split_and!; [done| |done|by exists A]. intros h Hh. rewrite HA. by apply holding_le_cut.
Qed.

(** Two windows over three ranges, one of them shared: the shared range counts
    once. *)
Example joint_need_shared :
  joint_need_gib {[ "a" := 5; "b" := 7 ]} {[ "a" := ["x"; "y"]; "b" := ["y"; "z"] ]}
    {[ "x" := 2; "y" := 4; "z" := 3 ]} = Some 9.
Proof. by vm_compute. Qed.
