(* ===== verification/WindowCredit.v ===== *)
(** * Advance credits: admission, claim order and stuck orders

    The decisions of [src/prismabuild/window_credit.py] besides the joint need:
    the newcomer and commitment gates, the fence rules, the rank in which a
    full tier serves its claimed consumers, and which consumer a stuck order
    ends.  Sizes are integer GiB; times are integers of one unit. *)

From S2P Require Import Prelude.
From S2P Require Import WindowFlow.
From stdpp Require Import options.

Open Scope Z_scope.

(** ** Gates *)

Definition prelaunch_obligation_gib (peak owned : Z) : res Z :=
  if bool_decide (peak < 0) || bool_decide (owned < 0)
  then Raise (ValueError "prelaunch GiB must not be negative")
  else Ok (Z.max 0 (peak - owned)).

Inductive Reason :=
  | Joint_fit_stall | Joint_fit_oversize | Deferred_unknown | Joint_commitment_stall | No_reason.

#[export] Instance Reason_eq_dec : EqDecision Reason.
Proof. solve_decision. Defined.

(** [permanent] is [None] on an admission, which carries no such field. *)
Record Gate := mkGate {
  ga_admit : bool; ga_reason : Reason; ga_permanent : option bool; ga_output_note : bool }.

(** [ga_output_note]: the decision carries the unenforced-output note. *)
Definition gate_newcomer (held ready output : Z) (capacity : option Z) (cur_min : Z)
    (next_min : option Z) (existing_min_next : Z) (output_enforced : bool) : Gate :=
  let note := negb output_enforced in
  let next := default 0 next_min in
  match capacity with
  | None => mkGate false Deferred_unknown (Some false) note
  | Some cap =>
      if bool_decide (cap < cur_min) then mkGate false Joint_fit_oversize (Some true) note
      else if bool_decide (held + ready + output + cur_min + next + existing_min_next ≤ cap)
      then mkGate true No_reason None note
      else if bool_decide (held + ready + output + existing_min_next = 0)
              && bool_decide (cap < cur_min + next)
      then mkGate false Joint_fit_oversize (Some true) note
      else mkGate false Joint_fit_stall (Some false) note
  end.

(** Admitted, and whether only because it is alone. *)
Definition gate_commitment (committed growth capacity : Z) (lone : bool) : bool * Reason * bool :=
  if bool_decide (committed + growth ≤ capacity) then (true, No_reason, false)
  else if lone then (true, No_reason, true)
  else (false, Joint_commitment_stall, false).

Definition fence_fits (held ready output : Z) (capacity : option Z) : bool :=
  match capacity with None => false | Some cap => bool_decide (held + ready + output ≤ cap) end.

Definition replenish_ok (grant_outstanding : bool) (need : option Z) (prior_retired : bool) : bool :=
  if grant_outstanding then false
  else match need with
       | None => false
       | Some n => if bool_decide (n ≤ 0) then false else prior_retired
       end.

Inductive Cancel := Consumer_terminal | Plan_superseded | Need_gone_final | Need_landed.

Definition cancel_due (consumer_live superseded : bool) (need : option Z) (mover_holds_need : bool)
  : option Cancel :=
  if negb consumer_live then Some Consumer_terminal
  else if superseded then Some Plan_superseded
  else match need with
       | None => Some Need_gone_final
       | Some _ => if mover_holds_need then Some Need_landed else None
       end.

(** ** The claim order *)

(** One claimed consumer of a full tier.  [cl_blocked_since] is [None] when
    the record has no finite number there. *)
Record Claim := mkClaim {
  cl_consumer : string; cl_claimed : Z; cl_need : Z; cl_blocked : bool;
  cl_blocked_since : option Z; cl_mover : option string }.

(** When a ranked claim started waiting: blocked since, else claimed. *)
Definition _waited_from (c : Claim) : Z :=
  if cl_blocked c then default (cl_claimed c) (cl_blocked_since c) else cl_claimed c.

(** The rank: blocked first, longest wait, older claim, then the key. *)
Definition claim_le (a b : Claim) : Prop :=
  let na := negb (cl_blocked a) in
  let nb := negb (cl_blocked b) in
  (na = false ∧ nb = true)
  ∨ (na = nb
     ∧ (_waited_from a < _waited_from b
        ∨ (_waited_from a = _waited_from b
           ∧ (cl_claimed a < cl_claimed b
              ∨ (cl_claimed a = cl_claimed b ∧ (cl_consumer a ≤ cl_consumer b)%string))))).

#[export] Instance claim_le_dec : RelDecision claim_le.
Proof. intros a b. unfold claim_le. apply _. Defined.

Inductive Standing :=
  | Satisfied
  | Granted (shared_with : option string)
  | Held_back (waiting_on : string)
  | Head (shortfall : Z).

#[export] Instance Standing_eq_dec : EqDecision Standing.
Proof. solve_decision. Defined.

Record Entry := mkEntry {
  en_consumer : string; en_rank : nat; en_claimed : Z; en_blocked : bool; en_need : Z;
  en_ahead : option string; en_blocked_since : option Z; en_standing : Standing }.

(** What the walk carries from one consumer to the next. *)
Record Walk := mkWalkState {
  wk_left : Z; wk_target : Z; wk_head : option string; wk_ahead : option string;
  wk_movers : gmap string string }.

(** [max(0, int(need or 0))]. *)
Definition need_gib (c : Claim) : Z := Z.max 0 (cl_need c).

Definition rank_one (rank : nat) (c : Claim) (s : Walk) : Entry * Walk :=
  let key := cl_consumer c in
  let need := need_gib c in
  let entry st := mkEntry key rank (cl_claimed c) (cl_blocked c) need (wk_ahead s)
                    (if cl_blocked c then Some (_waited_from c) else None) st in
  let next left target head movers := mkWalkState left target head (Some key) movers in
  if bool_decide (need ≤ 0)
  then (entry Satisfied, next (wk_left s) (wk_target s) (wk_head s) (wk_movers s))
  else
    match (m ← cl_mover c; wk_movers s !! m) with
    | Some first =>
        (entry (Granted (Some first)), next (wk_left s) (wk_target s) (wk_head s) (wk_movers s))
    | None =>
        match wk_head s with
        | Some head => (entry (Held_back head), next (wk_left s) (wk_target s) (wk_head s) (wk_movers s))
        | None =>
            if bool_decide (need ≤ wk_left s)
            then (entry (Granted None),
                  next (wk_left s - need) (wk_target s + need) None
                    (match cl_mover c with Some m => <[m := key]> (wk_movers s) | None => wk_movers s end))
            else (entry (Head (need - wk_left s)),
                  next (wk_left s) (wk_target s + need) (Some key) (wk_movers s))
        end
    end.

Fixpoint walk (rank : nat) (cs : list Claim) (s : Walk) : list Entry * Walk :=
  match cs with
  | [] => ([], s)
  | c :: cs' =>
      let '(e, s1) := rank_one rank c s in
      let '(es, s2) := walk (S rank) cs' s1 in (e :: es, s2)
  end.

Record Order := mkOrder { or_entries : list Entry; or_head : option string; or_target : Z }.

Definition claim_order (claims : list Claim) (free : Z) : Order :=
  let '(es, s) := walk 0 (merge_sort claim_le claims) (mkWalkState free 0 None None ∅) in
  mkOrder es (wk_head s) (wk_target s).

(** ** Stuck orders *)

(** An order's record as the no-progress rule reads it. *)
Inductive Relief := Futile | Short_relief | Other_relief.

#[export] Instance Relief_eq_dec : EqDecision Relief.
Proof. solve_decision. Defined.

Record OrderRecord := mkOrderRecord {
  rc_relief : Relief; rc_evicted : option Z; rc_since : option Z;
  rc_entries : list Entry; rc_head : option string }.

(** How long the relief has made no room by declines alone. *)
Definition relief_stalled (o : OrderRecord) (now : Z) : option Z :=
  if negb (bool_decide (rc_relief o = Short_relief)) then None
  else match rc_evicted o, rc_since o with
       | Some e, Some since => if bool_decide (e = 0) then Some (Z.max 0 (now - since)) else None
       | _, _ => None
       end.

(** The first entry of the greatest rank. *)
Fixpoint max_rank (e : Entry) (es : list Entry) : Entry :=
  match es with
  | [] => e
  | x :: es' => max_rank (if bool_decide (en_rank e < en_rank x)%nat then x else e) es'
  end.

Definition moving (e : Entry) : bool :=
  negb (en_blocked e)
  || match en_standing e with Granted _ | Satisfied => true | _ => false end.

(** The one consumer a stuck order ends this cycle. *)
Definition stuck_victim (o : OrderRecord) (now stall_bound : option Z) : option string :=
  let stuck :=
    if bool_decide (rc_relief o = Futile) then true
    else match now, stall_bound with
         | Some n, Some b =>
             match relief_stalled o n with Some s => negb (bool_decide (s < b)) | None => false end
         | _, _ => false
         end in
  if negb stuck then None
  else
    match rc_entries o with
    | [] => None
    | e :: es =>
        if existsb moving (e :: es) then None
        else
          let others := filter (λ x, Some (en_consumer x) ≠ rc_head o) (e :: es) in
          match others with
          | [] => Some (en_consumer (max_rank e es))
          | x :: xs => Some (en_consumer (max_rank x xs))
          end
    end.
