(* ===== verification/WindowCreditSpec.v ===== *)
(** * What the claim order and its gates guarantee *)

From S2P Require Import Prelude.
From S2P Require Import WindowFlow.
From S2P Require Import WindowFlowFacts.
From S2P Require Import WindowCredit.
From stdpp Require Import options.

Open Scope Z_scope.

(** ** The rank is a total preorder *)

#[export] Instance claim_le_total : Total claim_le.
Proof.
  intros a b. unfold claim_le.
  destruct (negb (cl_blocked a)), (negb (cl_blocked b)); [|tauto|tauto|];
    (destruct (Z.lt_trichotomy (_waited_from a) (_waited_from b)) as [?|[?|?]]; [tauto| |tauto]);
    (destruct (Z.lt_trichotomy (cl_claimed a) (cl_claimed b)) as [?|[?|?]];
       [naive_solver| |naive_solver]);
    destruct (total String.le (cl_consumer a) (cl_consumer b)); naive_solver.
Qed.

#[export] Instance claim_le_trans : Transitive claim_le.
Proof.
  intros a b c. unfold claim_le.
  destruct (negb (cl_blocked a)), (negb (cl_blocked b)), (negb (cl_blocked c));
    intros [[? ?]|[? Hab]] [[? ?]|[? Hbc]]; try done; try (left; done);
    right; (split; [done|]);
    (destruct Hab as [?|[? Hab]], Hbc as [?|[? Hbc]]; [left; lia|left; lia|left; lia|right; split; [lia|]]);
    (destruct Hab as [?|[? Hab]], Hbc as [?|[? Hbc]]; [left; lia|left; lia|left; lia|right; split; [lia|]]);
    by etrans.
Qed.

(** ** The walk *)

(** Room an entry spends: its need when it was granted first. *)
Definition spent (e : Entry) : Z :=
  match en_standing e with Granted None => en_need e | _ => 0 end.
(** What an entry adds to the target. *)
Definition asked_room (e : Entry) : Z :=
  match en_standing e with Granted None | Head _ => en_need e | _ => 0 end.

Definition waits (e : Entry) : bool :=
  match en_standing e with Head _ | Held_back _ => true | _ => false end.
Definition spends (e : Entry) : bool :=
  match en_standing e with Granted None => true | _ => false end.

(** The entries of one walk: in rank order, spending what they report, and
    once somebody waits nobody after spends. *)
Lemma walk_spec rank cs s es s' :
  walk rank cs s = (es, s') →
  (en_consumer <$> es) = (cl_consumer <$> cs) ∧ (en_rank <$> es) = seq rank (length cs)
  ∧ wk_left s' = wk_left s - sumZ spent es
  ∧ wk_target s' = wk_target s + sumZ asked_room es
  ∧ (0 ≤ wk_left s → 0 ≤ wk_left s')
  ∧ (is_Some (wk_head s) → wk_head s' = wk_head s ∧ sumZ asked_room es = 0 ∧ Forall (λ e, spends e = false) es)
  ∧ (wk_head s = None → wk_head s' = None →
       Forall (λ e, waits e = false) es ∧ sumZ asked_room es = sumZ spent es)
  ∧ (wk_head s = None → is_Some (wk_head s') → wk_left s < sumZ asked_room es)
  ∧ (∀ i j a b, (i < j)%nat → es !! i = Some a → es !! j = Some b → waits a = true → spends b = false).
Proof.
  revert rank s es. induction cs as [|c cs IH]; intros rank s es; cbn [walk].
  { intros [= <- <-]. unfold sumZ. simpl. split_and!; try done; try lia;
      intros Hn [x Hx]; congruence. }
  destruct (rank_one rank c s) as [e s1] eqn:H1. destruct (walk (S rank) cs s1) as [es1 s2] eqn:Hw.
  intros [= <- <-]. destruct (IH _ _ _ Hw) as (A1 & A2 & A3 & A4 & A5 & A6 & A7 & A8 & A9).
  rewrite !fmap_cons, !sumZ_cons. cbn [length seq].
  assert (en_consumer e = cl_consumer c ∧ en_rank e = rank ∧ wk_left s1 = wk_left s - spent e
    ∧ wk_target s1 = wk_target s + asked_room e ∧ (0 ≤ wk_left s → 0 ≤ wk_left s1)
    ∧ (is_Some (wk_head s) → wk_head s1 = wk_head s ∧ asked_room e = 0 ∧ spends e = false)
    ∧ (wk_head s = None → wk_head s1 = None → waits e = false ∧ asked_room e = spent e)
    ∧ (wk_head s = None → is_Some (wk_head s1) → wk_left s < asked_room e)
    ∧ (waits e = true → is_Some (wk_head s1))) as (B1 & B2 & B3 & B4 & B5 & B6 & B7 & B8 & B9).
  { revert H1. unfold rank_one. case_bool_decide as Hn.
    { intros [= <- <-]. unfold spent, asked_room, spends, waits. simpl.
      split_and!; try done; try lia. intros ->. by intros []. }
    destruct (m ← cl_mover c; wk_movers s !! m) as [first|].
    { intros [= <- <-]. unfold spent, asked_room, spends, waits. simpl.
      split_and!; try done; try lia. intros ->. by intros []. }
    destruct (wk_head s) as [head|] eqn:Hh.
    { intros [= <- <-]. unfold spent, asked_room, spends, waits. simpl.
      split_and!; try done; try lia. }
    case_bool_decide as Hle; intros [= <- <-]; unfold spent, asked_room, spends, waits; simpl;
      split_and!; try done; try lia; try (by intros []). }
  assert (is_Some (wk_head s1) → is_Some (wk_head s2)) as Hmono by (intros Hs; destruct (A6 Hs) as (-> & _); done).
  split_and!.
  - by rewrite A1, B1.
  - by rewrite A2, B2.
  - lia.
  - lia.
  - intros. apply A5. by apply B5.
  - intros Hs. destruct (B6 Hs) as (Hh & Ha & Hsp). rewrite Hh in A6. destruct (A6 Hs) as (-> & ? & ?).
    split_and!; [done|lia|by constructor].
  - intros Hs Hs2. destruct (wk_head s1) eqn:Hh1; [destruct (Hmono ltac:(by eexists)); congruence|].
    destruct (B7 Hs eq_refl), (A7 eq_refl Hs2). split; [by constructor|lia].
  - intros Hs Hs2. destruct (wk_head s1) as [hd|] eqn:Hh1.
    + specialize (B8 Hs ltac:(by eexists)). destruct (A6 ltac:(by eexists)) as (_ & ? & _). lia.
    + destruct (B7 Hs eq_refl) as [_ Heq]. specialize (A8 eq_refl Hs2). lia.
  - intros i j a b Hij Ha Hb Hwa. destruct j as [|j]; [lia|]. simpl in Hb.
    destruct i as [|i]; [|simpl in Ha; by eapply (A9 i j); [lia|..]].
    injection Ha as ->. destruct (A6 (B9 Hwa)) as (_ & _ & Hf). rewrite Forall_lookup in Hf. by eapply Hf.
Qed.

(** * Properties *)

(** A full tier's claim order ranks every claimed consumer once, blocked
    and longest-waiting first; it never grants more than is free; nobody takes
    room past a consumer that waits; and its target is exactly the room at
    which nobody waits. *)
Theorem claim_order_serves_in_rank claims free o :
  0 ≤ free → claim_order claims free = o →
  (∃ ranked, ranked ≡ₚ claims ∧ StronglySorted claim_le ranked
             ∧ (en_consumer <$> or_entries o) = (cl_consumer <$> ranked))
  ∧ (en_rank <$> or_entries o) = seq 0 (length claims)
  ∧ sumZ spent (or_entries o) ≤ free
  ∧ (∀ i j a b, (i < j)%nat → or_entries o !! i = Some a → or_entries o !! j = Some b →
       waits a = true → spends b = false)
  ∧ or_target o = sumZ asked_room (or_entries o)
  ∧ (or_target o ≤ free ↔ Forall (λ e, waits e = false) (or_entries o)).
Proof.
  intros Hfree <-. unfold claim_order.
  destruct (walk 0 (merge_sort claim_le claims) _) as [es s] eqn:Hw. cbn [or_entries or_target].
  destruct (walk_spec _ _ _ _ _ Hw) as (A1 & A2 & A3 & A4 & A5 & _ & A7 & A8 & A9). simpl in *.
  split_and!.
  - exists (merge_sort claim_le claims). split_and!; [apply merge_sort_Permutation| |done].
    apply (StronglySorted_merge_sort _).
  - by rewrite A2, (Permutation_length (merge_sort_Permutation claim_le claims)).
  - specialize (A5 Hfree). lia.
  - done.
  - lia.
  - destruct (wk_head s) as [hd|] eqn:Hh.
    + specialize (A8 eq_refl ltac:(by eexists)). split; [lia|]. intros Hf. exfalso.
      assert (sumZ asked_room es = sumZ spent es) as Heq.
      { apply sumZ_ext. intros e He. rewrite Forall_forall in Hf. specialize (Hf e He).
        unfold waits, asked_room, spent in *. by destruct (en_standing e) as [|[]| |]. }
      specialize (A5 Hfree). lia.
    + destruct (A7 eq_refl eq_refl) as [Hf Heq]. split; [done|]. intros _. specialize (A5 Hfree). lia.
Qed.

Definition demo_claims : list Claim :=
  [mkClaim "c1" 10 4 false None None; mkClaim "c2" 20 6 true (Some 30) (Some "m");
   mkClaim "c3" 5 3 true (Some 40) None; mkClaim "c4" 7 6 false None (Some "m")].

(** The blocked consumers come first; [c2] is granted, [c3] heads the wait,
    [c4] shares the range [c2] was granted, [c1] is held back. *)
Example demo_order :
  or_entries (claim_order demo_claims 7)
  = [mkEntry "c2" 0 20 true 6 None (Some 30) (Granted None);
     mkEntry "c3" 1 5 true 3 (Some "c2") (Some 40) (Head 2);
     mkEntry "c4" 2 7 false 6 (Some "c3") None (Granted (Some "c2"));
     mkEntry "c1" 3 10 false 4 (Some "c4") None (Held_back "c3")].
Proof. by vm_compute. Qed.

Lemma claim_order_serves_in_rank_witness :
  sumZ spent (or_entries (claim_order demo_claims 7)) ≤ 7
  ∧ or_target (claim_order demo_claims 7) = sumZ asked_room (or_entries (claim_order demo_claims 7)).
Proof.
  destruct (claim_order_serves_in_rank demo_claims 7 (claim_order demo_claims 7) ltac:(lia) eq_refl)
    as (_ & _ & H1 & _ & H2 & _). exact (conj H1 H2).
Defined.

(** ** Stuck orders *)

Lemma max_rank_spec e es :
  (max_rank e es = e ∨ max_rank e es ∈ es)
  ∧ (en_rank e ≤ en_rank (max_rank e es))%nat ∧ ∀ x, x ∈ es → (en_rank x ≤ en_rank (max_rank e es))%nat.
Proof.
  revert e. induction es as [|y es IH]; intros e; cbn [max_rank].
  { split_and!; [by left|done|intros x Hx; by apply elem_of_nil in Hx]. }
  case_bool_decide as Hlt.
  - destruct (IH y) as (H1 & H2 & H3). split_and!; [right; set_solver|lia|].
    intros x [->|Hx]%elem_of_cons; [done|by apply H3].
  - destruct (IH e) as (H1 & H2 & H3). split_and!; [set_solver|done|].
    intros x [->|Hx]%elem_of_cons; [lia|by apply H3].
Qed.

(** A consumer is ended only when nobody in the order can move -- every one
    is blocked and none is granted or satisfied -- and then it is the
    lowest-ranked consumer other than the head, or the head only when it is
    alone. *)
Theorem stuck_victim_sound o now bound v :
  stuck_victim o now bound = Some v →
  Forall (λ e, en_blocked e = true ∧ waits e = true) (rc_entries o)
  ∧ ∃ e, e ∈ rc_entries o ∧ en_consumer e = v
      ∧ ((rc_head o ≠ Some v
          ∧ ∀ x, x ∈ rc_entries o → rc_head o ≠ Some (en_consumer x) → (en_rank x ≤ en_rank e)%nat)
         ∨ (∀ x, x ∈ rc_entries o → rc_head o = Some (en_consumer x))).
Proof.
  unfold stuck_victim. set (stuck := if bool_decide (rc_relief o = Futile) then _ else _).
  destruct stuck; cbn [negb]; [|done]. destruct (rc_entries o) as [|e es] eqn:He; [done|].
  destruct (existsb moving (e :: es)) eqn:Hm; [done|].
  assert (Forall (λ e, en_blocked e = true ∧ waits e = true) (e :: es)) as Hall.
  { apply Forall_forall. intros x Hx. assert (moving x = false) as Hmx.
    { apply not_true_is_false. intros Ht. enough (existsb moving (e :: es) = true) by congruence.
      apply existsb_exists. exists x. by rewrite <- list_elem_of_In. }
    unfold moving, waits in *. apply orb_false_iff in Hmx as [Hb Hs].
    split; [by destruct (en_blocked x)|by destruct (en_standing x)]. }
  intros Hv. split; [exact Hall|].
  destruct (filter (λ x, Some (en_consumer x) ≠ rc_head o) (e :: es)) as [|y ys] eqn:Hf.
  - injection Hv as <-. exists (max_rank e es). destruct (max_rank_spec e es) as (H1 & _).
    split_and!; [set_solver|done|right]. intros x Hx.
    destruct (decide (Some (en_consumer x) = rc_head o)) as [|Hne]; [done|]. exfalso.
    assert (x ∈ filter (λ x, Some (en_consumer x) ≠ rc_head o) (e :: es)) as Hin
      by (by apply list_elem_of_filter). rewrite Hf in Hin. by apply elem_of_nil in Hin.
  - injection Hv as <-. exists (max_rank y ys). destruct (max_rank_spec y ys) as (H1 & H2 & H3).
    assert (max_rank y ys ∈ filter (λ x, Some (en_consumer x) ≠ rc_head o) (e :: es)) as Hin
      by (rewrite Hf; set_solver).
    apply list_elem_of_filter in Hin as [Hne Hin]. split_and!; [done|done|left]. split; [congruence|].
    intros x Hx Hxh. assert (x ∈ y :: ys) as Hxy
      by (rewrite <- Hf; apply list_elem_of_filter; split; [congruence|done]).
    apply elem_of_cons in Hxy as [->|Hxy]; [done|by apply H3].
Qed.

Definition demo_stuck : OrderRecord :=
  mkOrderRecord Short_relief (Some 0) (Some 100)
    [mkEntry "a" 0 1 true 4 None (Some 1) (Head 4); mkEntry "b" 1 2 true 4 (Some "a") (Some 2) (Held_back "a")]
    (Some "a").

Lemma stuck_victim_sound_witness :
  Forall (λ e, en_blocked e = true ∧ waits e = true) (rc_entries demo_stuck)
  ∧ ∃ e, e ∈ rc_entries demo_stuck ∧ en_consumer e = "b"
      ∧ ((rc_head demo_stuck ≠ Some "b"
          ∧ ∀ x, x ∈ rc_entries demo_stuck → rc_head demo_stuck ≠ Some (en_consumer x) → (en_rank x ≤ en_rank e)%nat)
         ∨ (∀ x, x ∈ rc_entries demo_stuck → rc_head demo_stuck = Some (en_consumer x))).
Proof. apply (stuck_victim_sound demo_stuck (Some 200) (Some 50) "b"). by vm_compute. Defined.

(** ** Gates *)

(** An admission fits: everything held, queued, owed and promised leaves
    room for the newcomer's lead and its protected next.  A permanent refusal
    is final: whatever the others retire, that window is never admitted on that
    capacity.  A refusal that is not permanent, at a known capacity, has
    something outstanding that can still retire. *)
Theorem gate_newcomer_sound held ready output cap cur next exist enf :
  0 ≤ held → 0 ≤ ready → 0 ≤ output → 0 ≤ exist →
  let g := gate_newcomer held ready output cap cur next exist enf in
  (ga_admit g = true →
     ∃ c, cap = Some c ∧ held + ready + output + cur + default 0 next + exist ≤ c)
  ∧ (ga_permanent g = Some true → 0 ≤ default 0 next →
     ∀ held' ready' output' exist', 0 ≤ held' → 0 ≤ ready' → 0 ≤ output' → 0 ≤ exist' →
       ga_admit (gate_newcomer held' ready' output' cap cur next exist' enf) = false)
  ∧ (ga_permanent g = Some false → is_Some cap → 0 < held + ready + output + exist).
Proof.
  intros Hh Hr Ho He g. unfold g, gate_newcomer. destruct cap as [c|]; [|by split_and!; [| |intros _ []]].
  destruct (bool_decide_reflect (c < cur)) as [H1|H1]; [done|].
  destruct (bool_decide_reflect (held + ready + output + cur + default 0 next + exist ≤ c)) as [H2|H2];
    [by split_and!; [by exists c|..]|].
  destruct (bool_decide_reflect (held + ready + output + exist = 0)) as [H3|H3];
    [|split_and!; [done|done|cbn; lia]].
  destruct (bool_decide_reflect (c < cur + default 0 next)) as [H4|H4]; [|lia].
  split_and!; [done| |done]. intros _ Hn h r o e Hh' Hr' Ho' He'.
  rewrite (bool_decide_eq_false_2 (h + r + o + cur + default 0 next + e ≤ c)) by lia.
  by destruct (_ && _).
Qed.

Lemma gate_newcomer_sound_witness :
  ga_admit (gate_newcomer 3 1 0 (Some 10) 6 (Some 8) 0 true) = false.
Proof.
  destruct (gate_newcomer_sound 0 0 0 (Some 10) 6 (Some 8) 0 true) as (_ & H & _); [lia..|].
  apply (H eq_refl); simpl; lia.
Defined.
