(* ===== verification/Drain.v ===== *)
(** * The staged drain verdict

    [src/prismabuild/drain_policy.py]: whether a denied row may hold back the
    rows behind it while this box's holders drain, for how long, and what the
    row's pass record carries from one pass to the next; and the composition
    around it in [src/prismabuild/pool.py] ([PoolQueue._observe_drain],
    [PoolQueue.holder_bound], [PoolQueue.record_pass]).

    Times are integer microseconds.  A verdict is the dictionary the code
    builds.  [begin_drain], [add_holder] and [finish_drain] mutate one pending
    value, return early and raise at several places: they are written in a
    small state monad with those two exits. *)

From S2P Require Import Prelude.
From S2P Require Import TokenName.
From S2P Require Import Ledger.
From stdpp Require Import options.

Open Scope Z_scope.

Definition seconds (n : Z) : Z := n * 1000000.
Definition STARVATION_FLOOR : Z := 3.
Definition WITHHOLD_CEILING : Z := seconds 900.
Definition MEASUREMENT_UNMEASURED_CEILING : Z := seconds 180.
(** [cpu_admission.MAX_INTERVAL_S + cpu_admission.MAX_SAMPLE_AGE_S]. *)
Definition HOLDER_TAIL_WINDOW : Z := seconds 65.
(** [gpu_admission.MAX_SAMPLE_AGE_S]. *)
Definition GPU_MAX_SAMPLE_AGE : Z := seconds 5.

Definition DRAIN_NOTE_FIELDS : list string :=
  ["blocked_unix"; "foreign_unix"; "epoch_unix"; "expired_unix"].
Definition MEASUREMENT_DRAIN_NOTE_FIELDS : list string :=
  DRAIN_NOTE_FIELDS ++ ["measurement_until_unix"; "unmeasured_until_unix"].

(** ** Records *)

(** A filed clock: a finite number, something that is none, or an integer no
    float can hold. *)
Inductive Field := Num (z : Z) | Junk | Huge.

Abbreviation Clocks := (gmap string Field).

Record Episode := mkEpisode { ep_generation : option string; ep_clocks : Clocks }.

(** The pass record ([passes_path]). *)
Record Prior := mkPrior {
  pr_passes : option Z; pr_first : option Z; pr_clocks : Clocks;
  pr_episodes : gmap string Episode }.

Definition no_prior : Prior := mkPrior None None ∅ ∅.

Inductive Mode := Exclusive | Tokens | Gpu | Held_cpus.

#[export] Instance Mode_eq_dec : EqDecision Mode.
Proof. solve_decision. Defined.

Record DrainQuestion := mkQuestion {
  q_key : string; q_need : gmap string Z; q_mode : Mode; q_adaptive : bool; q_foreign : bool;
  q_held_cpus : option (list Z); q_cpu_tiers : bool; q_measurement : bool;
  q_generation : option string; q_foreign_clear : bool; q_unmeasured : bool }.

(** What a holder declared: [holder_bound]'s answer. *)
Inductive Bound := Unbounded | Transient | Long | Overdue | Unknown_bound.

#[export] Instance Bound_eq_dec : EqDecision Bound.
Proof. solve_decision. Defined.

(** [b_facts] is absent on an answer that read no claim: age, claim time,
    what governs it, and the timeout it asked for. *)
Record HolderBound := mkBound {
  b_key : string; b_bound : Bound; b_facts : option (Z * Z * string * option Z) }.

Definition b_claimed (b : HolderBound) : option Z := (λ f, f.1.1.2) <$> b_facts b.
Definition b_requested (b : HolderBound) : option Z := b_facts b ≫= snd.

(** The values a verdict holds. *)
Inductive Val :=
  | VBool (b : bool) | VTime (z : Z) | VStr (s : string) | VNone
  | VMode (m : Mode) | VCounts (m : gmap string Z)
  | VHolders (l : list HolderBound) | VNames (l : list string) | VCpus (l : list Z).

Abbreviation Verdict := (gmap string Val).
Abbreviation Changes := (gmap string (option Z)).

Inductive Notes :=
  | OrdinaryNotes (changes : Changes)
  | MeasurementNotes (host : string) (generation : option string) (changes : Changes).

Inductive err_kind := OS_error | Prisma_error | Value_error | Type_error | Overflow_error | Key_error | Other_error.

(** What the policy reads as an unreadable verdict rather than re-raises. *)
Definition readable_error (k : err_kind) : bool :=
  match k with OS_error | Prisma_error | Value_error | Type_error => true | _ => false end.

Inductive Outcome :=
  | DrainAssessment (verdict : Verdict) (notes : option Notes)
  | DrainFailure (error : err_kind) (notes : option Notes).

Record PreparedDrain := mkPrepared {
  pd_question : DrainQuestion; pd_now : Z; pd_host : string; pd_wait : bool;
  pd_clocks : Clocks; pd_passes : Z; pd_age : Z }.

Record PendingDrain := mkPending {
  p_prepared : PreparedDrain; p_verdict : Verdict; p_notes : Changes;
  p_unmeasured_until : option Z; p_until : option Z; p_epoch : option Z;
  p_short : gmap string Z; p_in_way : list HolderBound; p_bounds : list HolderBound;
  p_draining : list HolderBound; p_covered : gmap string Z; p_wanted_cpus : gset Z }.

(** ** Preparing *)

Definition prepare_drain (q : DrainQuestion) (prior : Prior) (now : Z) (host : string) : PreparedDrain :=
  let wait := q_measurement q && (bool_decide (q_mode q = Exclusive) || bool_decide (q_mode q = Tokens)) in
  let clocks :=
    if wait then
      match pr_episodes prior !! host with
      | Some e => if bool_decide (ep_generation e = q_generation q) then ep_clocks e else ∅
      | None => ∅
      end
    else pr_clocks prior in
  mkPrepared q now host wait clocks (default 0 (pr_passes prior))
    (match pr_first prior with Some first => Z.max 0 (now - first) | None => 0 end).

(** [PreparedDrain.stamp]: [isfinite] raises on an integer too large. *)
Definition stamp (d : PreparedDrain) (name : string) : err_kind + option Z :=
  match pd_clocks d !! name with
  | Some (Num z) => inr (Some z)
  | Some Huge => inl Overflow_error
  | Some Junk | None => inr None
  end.

Definition _initial (d : PreparedDrain) : PendingDrain :=
  mkPending d
    (<["eligible" := VBool false]> (<["withhold" := VBool false]> (<["why" := VNone]>
      (<["mode" := VMode (q_mode (pd_question d))]> {[ "withhold_age_s" := VTime (pd_age d) ]}))))
    ∅ None None None ∅ [] [] [] ∅ ∅.

(** ** One pending value, with two exits *)

Inductive Exit := Returned | Raised (e : err_kind).
Definition M (A : Type) := PendingDrain → (Exit + A) * PendingDrain.

#[export] Instance M_ret : MRet M := λ A a p, (inr a, p).
#[export] Instance M_bind : MBind M := λ A B f m p,
  match m p with (inl x, p1) => (inl x, p1) | (inr a, p1) => f a p1 end.

Definition return_now {A} : M A := λ p, (inl Returned, p).
Definition raise {A} (e : err_kind) : M A := λ p, (inl (Raised e), p).
Definition lift {A} (r : err_kind + A) : M A := match r with inl e => raise e | inr a => mret a end.
Definition get {A} (f : PendingDrain → A) : M A := λ p, (inr (f p), p).
Definition when (b : bool) (m : M ()) : M () := if b then m else mret ().

Definition modify (f : PendingDrain → PendingDrain) : M () := λ p, (inr (), f p).

Definition with_verdict (v : Verdict) (p : PendingDrain) : PendingDrain :=
  mkPending (p_prepared p) v (p_notes p) (p_unmeasured_until p) (p_until p) (p_epoch p)
     (p_short p) (p_in_way p) (p_bounds p) (p_draining p) (p_covered p) (p_wanted_cpus p).
Definition with_notes (n : Changes) (p : PendingDrain) : PendingDrain :=
  mkPending (p_prepared p) (p_verdict p) n (p_unmeasured_until p) (p_until p) (p_epoch p)
     (p_short p) (p_in_way p) (p_bounds p) (p_draining p) (p_covered p) (p_wanted_cpus p).
Definition with_unmeasured (u : option Z) (p : PendingDrain) : PendingDrain :=
  mkPending (p_prepared p) (p_verdict p) (p_notes p) u (p_until p) (p_epoch p)
     (p_short p) (p_in_way p) (p_bounds p) (p_draining p) (p_covered p) (p_wanted_cpus p).
Definition with_episode (until epoch : option Z) (p : PendingDrain) : PendingDrain :=
  mkPending (p_prepared p) (p_verdict p) (p_notes p) (p_unmeasured_until p) until epoch (p_short p) (p_in_way p) (p_bounds p) (p_draining p) (p_covered p) (p_wanted_cpus p).
Definition with_short (s : gmap string Z) (p : PendingDrain) : PendingDrain :=
  mkPending (p_prepared p) (p_verdict p) (p_notes p) (p_unmeasured_until p) (p_until p) (p_epoch p)
     s (p_in_way p) (p_bounds p) (p_draining p) (p_covered p) (p_wanted_cpus p).
Definition with_holders (w b d : list HolderBound) (c : gmap string Z) (p : PendingDrain) : PendingDrain :=
  mkPending (p_prepared p) (p_verdict p) (p_notes p) (p_unmeasured_until p) (p_until p) (p_epoch p)
     (p_short p) w b d c (p_wanted_cpus p).
Definition with_wanted (w : gset Z) (p : PendingDrain) : PendingDrain :=
  mkPending (p_prepared p) (p_verdict p) (p_notes p) (p_unmeasured_until p) (p_until p) (p_epoch p)
     (p_short p) (p_in_way p) (p_bounds p) (p_draining p) (p_covered p) w.

(** [verdict[name] = v] and [notes[name] = v]. *)
Definition say (name : string) (v : Val) : M () :=
  modify (λ p, with_verdict (<[name := v]> (p_verdict p)) p).
Definition note (name : string) (v : option Z) : M () :=
  modify (λ p, with_notes (<[name := v]> (p_notes p)) p).

(** ** Completing *)

Definition says (v : Verdict) (name : string) (words : list string) : bool :=
  match v !! name with Some (VStr s) => bool_decide (s ∈ words) | _ => false end.

(** The unmeasured part of [_complete]. *)
Definition unmeasured_verdict (now : Z) (until : option Z) (v : Verdict) : Verdict :=
  let v1 := <["measurement_unmeasured" := VBool true]> v in
  let v2 :=
    match until with
    | None => v1
    | Some u =>
        let v' := <["unmeasured_until_unix" := VTime u]> v1 in
        match v' !! "drain_until_unix" with
        | Some (VTime original) =>
            <["drain_until_unix" := VTime (Z.min original u)]>
              (<["measurement_drain_until_unix" := VTime original]> v')
        | _ => v'
        end
    end in
  if match until with None => true | Some u => bool_decide (u ≤ now) end then
    let v3 := <["drain_resolves" := VBool false]> (<["withhold" := VBool false]> v2) in
    if says v3 "why" ["foreign_load"; "verdict_unreadable"] then v3
    else <["why" := VStr "measurement_baseline_unknown"]> v3
  else v2.

Definition completed_notes (p : PendingDrain) : option Notes :=
  let d := p_prepared p in
  if bool_decide (p_notes p = ∅) then None
  else if pd_wait d then Some (MeasurementNotes (pd_host d) (q_generation (pd_question d)) (p_notes p))
  else Some (OrdinaryNotes (p_notes p)).

Definition _complete (p : PendingDrain) (error : option err_kind) : Outcome :=
  let d := p_prepared p in
  let v :=
    if pd_wait d && q_unmeasured (pd_question d)
    then unmeasured_verdict (pd_now d) (p_unmeasured_until p) (p_verdict p) else p_verdict p in
  match error with
  | Some e => DrainFailure e (completed_notes p)
  | None => DrainAssessment v (completed_notes p)
  end.

(** [failed_drain] on a pending value. *)
Definition failed_drain (p : PendingDrain) (e : err_kind) : Outcome :=
  if readable_error e then
    let p' := with_verdict (<["error" := VStr "error"]> (<["why" := VStr "verdict_unreadable"]>
                (<["withhold" := VBool false]> (p_verdict p)))) p in
    _complete p' None
  else _complete p (Some e).

Inductive Progress := Go (p : PendingDrain) | Stop (o : Outcome).

Definition run {A} (m : M A) (p : PendingDrain) : Progress :=
  match m p with
  | (inr _, p1) => Go p1
  | (inl Returned, p1) => Stop (_complete p1 None)
  | (inl (Raised e), p1) => Stop (failed_drain p1 e)
  end.

(** ** Beginning *)

Inductive ForeignProcesses := F_unknown | F_clear | F_present.

#[export] Instance Foreign_eq_dec : EqDecision ForeignProcesses.
Proof. solve_decision. Defined.

(** The facts of a GPU sample: [gs_processes] is [None] when the field is no
    list, [gs_sampled] when the time is no exact number. *)
Record GpuSample := mkSample {
  gs_processes : option (list string); gs_sampled : option Z; gs_declared : bool }.

Definition foreign_of (s : GpuSample) : ForeignProcesses :=
  match gs_processes s with None => F_unknown | Some [] => F_clear | Some _ => F_present end.

(** [gpu_clear], where a GPU is needed and a sample was taken. *)
Definition gpu_clear_of (now : Z) (s : GpuSample) : bool :=
  bool_decide (foreign_of s = F_clear)
  && match gs_sampled s with
     | Some t => bool_decide (0 ≤ now - t ≤ GPU_MAX_SAMPLE_AGE)
     | None => false
     end.

(** A submission generation: 64 lower-case hex digits. *)
Definition generation_ok (g : option string) : bool :=
  match g with Some s => bool_decide (String.length s = 64%nat) && all_chars is_lower_hex s | None => false end.

(** What each kind lacks of the row's need. *)
Definition shortage_of (need : gmap string Z) (available : gmap string nat) : gmap string Z :=
  map_imap (λ kind amount,
    let have := Z.of_nat (default 0%nat (available !! kind)) in
    if bool_decide (have < amount) then Some (amount - have) else None) need.

Definition gpu_need (d : PreparedDrain) : Z := default 0 (q_need (pd_question d) !! "gpu").
(** The sample, read only where a GPU is needed. *)
Definition gpu_facts (d : PreparedDrain) (gpu_sample : option GpuSample) : option GpuSample :=
  if bool_decide (gpu_need d = 0) then None else gpu_sample.
Definition foreign_seen (d : PreparedDrain) (gpu_sample : option GpuSample) : bool :=
  q_foreign (pd_question d)
  || match gpu_facts d gpu_sample with Some s => bool_decide (foreign_of s = F_present) | None => false end.
Definition gpu_first (d : PreparedDrain) (available : gmap string nat) (gpu_sample : option GpuSample) : bool :=
  negb (bool_decide (q_mode (pd_question d) = Gpu)) && negb (bool_decide (gpu_need d = 0))
  && bool_decide (gpu_need d ≤ Z.of_nat (default 0%nat (available !! "gpu")))
  && negb (bool_decide (gpu_clear_of (pd_now d) <$> gpu_facts d gpu_sample = Some false)).
Definition eligible_of (d : PreparedDrain) (available : gmap string nat) (gpu_sample : option GpuSample) : bool :=
  pd_wait d || bool_decide (STARVATION_FLOOR ≤ pd_passes d + 1) || gpu_first d available gpu_sample.
(** A measurement whose refusal and GPU sample both prove no foreign load. *)
Definition clear_foreign (d : PreparedDrain) (gpu_sample : option GpuSample) : bool :=
  let gpu_foreign_clear :=
    bool_decide (gpu_need d = 0)
    || match gpu_facts d gpu_sample with Some s => gpu_clear_of (pd_now d) s && gs_declared s | None => false end in
  pd_wait d && q_foreign_clear (pd_question d) && gpu_foreign_clear && negb (foreign_seen d gpu_sample).

(** The token shortage, for a row refused on tokens. *)
Definition begin_short (d : PreparedDrain) (available : gmap string nat) : M () :=
  let q := pd_question d in
  modify (with_short ∅);;
  when (bool_decide (q_mode q = Tokens))
    (let short := shortage_of (q_need q) available in
     modify (with_short short);; say "short" (VCounts short);;
     when (q_adaptive q && bool_decide (short = ∅)) (say "why" (VStr "not_a_token_shortage");; return_now)).

(** A measurement's generation, and the deadline of one with no baseline. *)
Definition begin_wait (d : PreparedDrain) : M () :=
  let q := pd_question d in
  when (pd_wait d)
    (when (negb (generation_ok (q_generation q))) (raise Value_error);;
     say "drain_host" (VStr (pd_host d));;
     say "drain_generation" (VStr (default "" (q_generation q)));;
     when (q_unmeasured q)
       (match pd_clocks d !! "unmeasured_until_unix" with
        | None =>
            let u := pd_now d + MEASUREMENT_UNMEASURED_CEILING in
            modify (with_unmeasured (Some u));; note "unmeasured_until_unix" (Some u)
        | Some (Num u) => modify (with_unmeasured (Some u))
        | Some _ => note "unmeasured_until_unix" (Some 0);; raise Value_error
        end)).

(** Foreign load, seen now or within the ceiling, ends the verdict. *)
Definition begin_foreign (d : PreparedDrain) (gpu_sample : option GpuSample) : M () :=
  let now := pd_now d in
  when (clear_foreign d gpu_sample) (note "foreign_unix" None);;
  foreign_unix ← (if foreign_seen d gpu_sample then mret (Some now)
                  else if clear_foreign d gpu_sample then mret None
                  else lift (stamp d "foreign_unix"));
  match foreign_unix with
  | Some f =>
      when (bool_decide (now - f ≤ WITHHOLD_CEILING))
        (when (negb (pd_wait d)) (note "epoch_unix" None;; note "expired_unix" None);;
         say "why" (VStr "foreign_load");; say "foreign_age_s" (VTime (now - f));; return_now)
  | None => mret ()
  end.

(** The episode on file; a measurement past its deadline ends here. *)
Definition begin_episode (d : PreparedDrain) : M () :=
  let now := pd_now d in
  until ← lift (stamp d "measurement_until_unix");
  epoch ← lift (stamp d "epoch_unix");
  modify (with_episode until epoch);;
  match until with
  | Some u =>
      when (pd_wait d)
        (say "measurement_key" (VStr (q_key (pd_question d)));; say "drain_until_unix" (VTime u);;
         say "episode_age_s" (VTime (now - default now epoch));;
         when (bool_decide (u ≤ now)) (say "why" (VStr "measurement_drain_expired");; return_now))
  | None => mret ()
  end.

Definition begin_holders (d : PreparedDrain) : M () :=
  let q := pd_question d in
  short ← get p_short;
  modify (with_holders [] [] [] ((λ _, 0) <$> short));;
  when (bool_decide (q_mode q = Held_cpus))
    (let cpus := default [] (q_held_cpus q) in
     when (bool_decide (cpus = []) || negb (q_cpu_tiers q)) (raise Value_error);;
     modify (with_wanted (list_to_set cpus));;
     say "held_cpus" (VCpus (merge_sort (≤)%Z (remove_dups cpus)))).

Definition begin_body (available : gmap string nat) (gpu_sample : option GpuSample) : M () :=
  d ← get p_prepared;
  begin_short d available;;
  say "eligible" (VBool (eligible_of d available gpu_sample));;
  say "gpu_first" (VBool (gpu_first d available gpu_sample));;
  begin_wait d;;
  when (foreign_seen d gpu_sample) (note "foreign_unix" (Some (pd_now d)));;
  when (negb (eligible_of d available gpu_sample)) return_now;;
  begin_foreign d gpu_sample;;
  begin_episode d;;
  begin_holders d.

Definition begin_drain (d : PreparedDrain) (available : gmap string nat) (gpu_sample : option GpuSample)
  : Progress :=
  run (begin_body available gpu_sample) (_initial d).

(** ** Holders *)

(** A holder whose leaving the row may wait for. *)
Definition drains (age : Z) (b : HolderBound) : bool :=
  bool_decide (b_bound b = Transient)
  || (bool_decide (b_bound b = Unknown_bound) && bool_decide (age ≤ WITHHOLD_CEILING)).

(** [p.covered[kind] += count] for each counted kind: an unknown kind raises
    after the earlier ones were added. *)
Fixpoint cover (counts : list (string * Z)) (covered : gmap string Z)
  : option err_kind * gmap string Z :=
  match counts with
  | [] => (None, covered)
  | (kind, count) :: counts' =>
      match covered !! kind with
      | None => (Some Key_error, covered)
      | Some c => cover counts' (<[kind := c + count]> covered)
      end
  end.

(** An entry of [holders]: the key shortened, as the record files it. *)
Definition short_key (key : string) : string := String.substring 0 12 key.
Definition in_way_entry (b : HolderBound) : HolderBound := mkBound (short_key (b_key b)) (b_bound b) (b_facts b).

Definition add_body (bound : HolderBound) (counts : gmap string Z) : M () :=
  p ← get (λ p, p);
  let bounds := p_bounds p ++ [bound] in
  if drains (pd_age (p_prepared p)) bound then
    let '(failed, covered) := cover (sorted_items counts) (p_covered p) in
    modify (with_holders (p_in_way p) bounds (p_draining p ++ [bound]) covered);;
    match failed with Some e => raise e | None => mret () end
  else modify (with_holders (p_in_way p ++ [in_way_entry bound]) bounds (p_draining p) (p_covered p)).

Definition add_holder (p : PendingDrain) (bound : HolderBound) (counts : gmap string Z) : Progress :=
  run (add_body bound counts) p.

(** ** Finishing *)

(** The declared ends of the holders a measurement waits for. *)
Definition declared_ends (bs : list HolderBound) : list Z :=
  omap (λ b, match b_claimed b, b_requested b with Some c, Some r => Some (c + r) | _, _ => None end) bs.

(** The draining holders claimed inside the episode (and before it expired). *)
Definition refill (epoch : Z) (expired : option Z) (b : HolderBound) : bool :=
  match b_claimed b with
  | Some c => bool_decide (epoch < c) && match expired with Some x => bool_decide (c < x) | None => true end
  | None => false
  end.

Definition fits (p : PendingDrain) : bool :=
  match q_mode (pd_question (p_prepared p)) with
  | Tokens => bool_decide (map_Forall (λ kind amount, amount ≤ default 0 (p_covered p !! kind)) (p_short p))
  | _ => bool_decide (p_in_way p = [])
  end.

(** [holders_cannot_cover], or why the holders in the way do not drain. *)
Definition blocked_why (in_way : list HolderBound) : string :=
  if bool_decide (in_way = []) then "holders_cannot_cover"
  else if forallb (λ b, bool_decide (b_bound b = Unknown_bound)) in_way then "unknown_past_ceiling"
  else "holder_does_not_drain_soon".

(** A measurement's wait: its deadline is fixed once, then read back. *)
Definition finish_measurement (p : PendingDrain) : M () :=
  let d := p_prepared p in
  let now := pd_now d in
  let '(until, epoch) :=
    match p_until p with
    | Some u => (u, p_epoch p)
    | None => (foldr Z.max (now + WITHHOLD_CEILING) (declared_ends (p_bounds p)), Some now)
    end in
  modify (with_episode (Some until) epoch);;
  note "epoch_unix" epoch;; note "measurement_until_unix" (Some until);;
  say "withhold" (VBool (bool_decide (now < until)));;
  say "why" (VStr (if bool_decide (now < until) then "draining_for_measurement"
                   else "measurement_drain_expired"));;
  say "measurement_key" (VStr (q_key (pd_question d)));; say "drain_until_unix" (VTime until);;
  say "episode_age_s" (VTime (now - default now epoch));;
  say "holders" (VHolders (p_bounds p));; return_now.

(** No holder was found in the way. *)
Definition finish_empty (p : PendingDrain) : M () :=
  let d := p_prepared p in
  let now := pd_now d in
  match q_mode (pd_question d) with
  | Exclusive =>
      blocked ← lift (stamp d "blocked_unix");
      match blocked with
      | Some b =>
          when (bool_decide (now - b ≤ HOLDER_TAIL_WINDOW))
            (say "withhold" (VBool true);; say "why" (VStr "holder_tail");; return_now)
      | None => mret ()
      end;;
      note "foreign_unix" (Some now);;
      when (negb (pd_wait d)) (note "epoch_unix" None;; note "expired_unix" None);;
      say "why" (VStr "foreign_load");; return_now
  | _ =>
      let unknown_drains := bool_decide (pd_age d ≤ WITHHOLD_CEILING) in
      say "withhold" (VBool unknown_drains);;
      say "why" (VStr (if unknown_drains then "in_flight" else "unknown_past_ceiling"));; return_now
  end.

(** The episode after this pass: it starts, goes on, expires on a refill past
    the ceiling, or starts again once no refill is left. *)
Definition next_episode (now : Z) (epoch0 expired0 : option Z) (draining : list HolderBound)
  : Z * option Z * list HolderBound :=
  let epoch1 := default now epoch0 in
  let refills := filter (λ b, refill epoch1 expired0 b = true) draining in
  match expired0 with
  | Some _ => if bool_decide (refills = []) then (now, None, refills) else (epoch1, expired0, refills)
  | None =>
      if negb (bool_decide (refills = [])) && bool_decide (WITHHOLD_CEILING < now - epoch1)
      then (epoch1, Some now, refills) else (epoch1, None, refills)
  end.

Definition finish_episode (p : PendingDrain) : M () :=
  let d := p_prepared p in
  let now := pd_now d in
  epoch0 ← lift (stamp d "epoch_unix");
  expired0 ← lift (stamp d "expired_unix");
  let '(epoch, expired, refills) := next_episode now epoch0 expired0 (p_draining p) in
  modify (with_episode (p_until p) (Some epoch));;
  note "epoch_unix" (Some epoch);; note "expired_unix" expired;;
  say "episode_age_s" (VTime (now - epoch));;
  say "refills" (VNames ((λ b, short_key (b_key b)) <$> refills));;
  when (bool_decide (is_Some expired)) (say "why" (VStr "refilled_past_ceiling");; return_now);;
  say "withhold" (VBool true);; say "why" (VStr "drains_soon");; return_now.

Definition finish_body : M () :=
  p ← get (λ p, p);
  let d := p_prepared p in
  let empty := bool_decide (p_draining p = []) && bool_decide (p_in_way p = []) in
  say "holders" (VHolders (p_in_way p));;
  when (negb empty) (note "blocked_unix" (Some (pd_now d)));;
  when (pd_wait d && (negb (bool_decide (p_bounds p = [])) || bool_decide (q_mode (pd_question d) = Tokens)))
    (finish_measurement p);;
  when empty (finish_empty p);;
  when (negb (fits p))
    (note "epoch_unix" None;; note "expired_unix" None;;
     say "why" (VStr (blocked_why (p_in_way p)));; return_now);;
  finish_episode p.

(** Every path of [finish_drain] completes. *)
Definition finish_drain (p : PendingDrain) : Outcome :=
  match finish_body p with
  | (inl (Raised e), p1) => failed_drain p1 e
  | (_, p1) => _complete p1 None
  end.

(** ** What the pass record carries *)

Definition finite_field (f : option Field) : option Z := match f with Some (Num z) => Some z | _ => None end.

(** The value a note leaves behind: the change, else the prior value. *)
Definition noted (changes : Changes) (prior : Clocks) (name : string) : option Z :=
  match changes !! name with Some v => v | None => finite_field (prior !! name) end.

Definition note_fields (names : list string) (changes : Changes) (prior : Clocks) : Clocks :=
  foldl (λ m name, match noted changes prior name with Some z => <[name := Num z]> m | None => m end) ∅ names.

(** [ordinary_note_fields] raises on a prior integer no float can hold. *)
Definition ordinary_note_fields (prior : Clocks) (notes : option Changes) : option Clocks :=
  let changes := default ∅ notes in
  if existsb (λ name, bool_decide (changes !! name = None)
                      && match prior !! name with Some Huge => true | _ => false end) DRAIN_NOTE_FIELDS
  then None else Some (note_fields DRAIN_NOTE_FIELDS changes prior).

Definition measurement_note_fields (episodes : gmap string Episode)
    (notes : option (string * option string * Changes)) : option (gmap string Episode) :=
  match notes with
  | None => Some episodes
  | Some (host, generation, changes) =>
      let previous :=
        match episodes !! host with
        | Some e => if bool_decide (ep_generation e = generation) then ep_clocks e else ∅
        | None => ∅
        end in
      let fields := DRAIN_NOTE_FIELDS ++ ["measurement_until_unix"] in
      if existsb (λ name, bool_decide (changes !! name = None)
                          && match previous !! name with Some Huge => true | _ => false end) fields
      then None
      else
        let clocks := note_fields fields changes previous in
        let clocks' :=
          if bool_decide (is_Some (changes !! "unmeasured_until_unix"))
             || bool_decide (is_Some (previous !! "unmeasured_until_unix"))
          then <["unmeasured_until_unix" :=
                   Num (default 0 (noted changes previous "unmeasured_until_unix"))]> clocks
          else clocks in
        Some (<[host := mkEpisode generation clocks']> episodes)
  end.

(** [record_pass] with the notes one drain left; [None] when it raises and
    nothing is written. *)
Definition record_pass (now : Z) (notes : option Notes) (prior : Prior) : option Prior :=
  let ordinary := match notes with Some (OrdinaryNotes c) => Some c | _ => None end in
  let measurement := match notes with Some (MeasurementNotes h g c) => Some (h, g, c) | _ => None end in
  match ordinary_note_fields (pr_clocks prior) ordinary,
        measurement_note_fields (pr_episodes prior) measurement with
  | Some clocks, Some episodes =>
      Some (mkPrior (Some (default 0 (pr_passes prior) + 1)) (Some (default now (pr_first prior))) clocks episodes)
  | _, _ => None
  end.

(** ** Observing a box *)

(** What a holder's claim row answers: no readable claim naming it, or its
    claim time and what its sealed request declared. *)
Inductive ClaimRead := No_claim | Claimed (claimed : Z) (declared : option (string * option Z)).

Definition holder_bound (claim : string → ClaimRead) (now : Z) (key : string) : HolderBound :=
  match claim key with
  | No_claim | Claimed _ None => mkBound key Unknown_bound None
  | Claimed claimed (Some (governed, requested)) =>
      let age := Z.max 0 (now - claimed) in
      let facts := Some (age, claimed, governed, requested) in
      if bool_decide (requested = None)
         && (bool_decide (governed = "progress") || bool_decide (governed = "stall"))
      then mkBound key Unbounded facts
      else
        let left := (λ r, claimed + r - now) <$> requested in
        if match left with Some l => bool_decide (l < 0) | None => false end
        then mkBound key Overdue facts
        else
          let ends_soon := match left with Some l => bool_decide (l ≤ WITHHOLD_CEILING) | None => false end in
          mkBound key (if bool_decide (age ≤ WITHHOLD_CEILING) || ends_soon then Transient else Long) facts
  end.

(** What the ledger reads of one holder answer in the row's mode: skipped, or
    counted with these tokens. *)
Definition holder_counts (p : PendingDrain) (tiers : option CpuTiers) (L : Ledger) (holder : string)
  : err_kind + option (gmap string Z) :=
  match q_mode (pd_question (p_prepared p)) with
  | Exclusive => inr (Some ∅)
  | Gpu => inr (if holds_gpu holder L then Some ∅ else None)
  | Held_cpus =>
      match tiers with
      | None => inl Type_error
      | Some t =>
          match cpu_allocation holder t L with
          | Raise _ => inl Value_error
          | Ok a =>
              inr (if bool_decide (p_wanted_cpus p ∩ list_to_set (preferred a ++ fallback a) = ∅)
                   then None else Some ∅)
          end
      end
  | Tokens =>
      let counts : gmap string Z :=
        map_imap (λ kind _, match holder_tokens holder L !! kind with
                            | Some (S n) => Some (Z.of_nat (S n)) | _ => None end) (p_short p) in
      inr (if bool_decide (counts = ∅) then None else Some counts)
  end.

Fixpoint observe_holders (claim : string → ClaimRead) (tiers : option CpuTiers) (L : Ledger)
    (holders : list string) (p : PendingDrain) : Progress :=
  match holders with
  | [] => Go p
  | h :: hs =>
      match holder_counts p tiers L h with
      | inl e => Stop (failed_drain p e)
      | inr None => observe_holders claim tiers L hs p
      | inr (Some counts) =>
          match add_holder p (holder_bound claim (pd_now (p_prepared p)) h) counts with
          | Stop o => Stop o
          | Go p1 => observe_holders claim tiers L hs p1
          end
      end
  end.

Record Box := mkBox {
  bx_ledger : Ledger; bx_claim : string → ClaimRead; bx_tiers : option CpuTiers;
  bx_gpu : option GpuSample; bx_free_error : option err_kind; bx_census_error : option err_kind }.

(** [_observe_drain]: begin, every non-private holder in name order, finish.
    The last two fields of the box are what reading the free tokens and the
    holder census raise, if they do. *)
Definition _observe_drain (q : DrainQuestion) (B : Box) (prior : Prior) (now : Z) (host : string) : Outcome :=
  let d := prepare_drain q prior now host in
  match bx_free_error B with
  | Some e => failed_drain (_initial d) e
  | None =>
      match begin_drain d (available (bx_ledger B)) (bx_gpu B) with
      | Stop o => o
      | Go p =>
          match bx_census_error B with
          | Some e => failed_drain p e
          | None =>
          match observe_holders (bx_claim B) (bx_tiers B) (bx_ledger B) (held_keys (bx_ledger B)) p with
          | Stop o => o
          | Go p1 => finish_drain p1
          end
          end
      end
  end.

Definition outcome_notes (o : Outcome) : option Notes :=
  match o with DrainAssessment _ n | DrainFailure _ n => n end.

Definition withheld (o : Outcome) : bool :=
  match o with
  | DrainAssessment v _ => match v !! "withhold" with Some (VBool b) => b | _ => false end
  | DrainFailure _ _ => false
  end.

(** One denied pass over a row: the verdict, and the record it leaves. *)
Definition drain_pass (q : DrainQuestion) (host : string) (t : Z * Box) (prior : Prior)
  : Outcome * option Prior :=
  let o := _observe_drain q (snd t) prior (fst t) host in
  (o, record_pass (fst t) (outcome_notes o) prior).
