(* ===== verification/DrainFacts.v ===== *)
(** * A small program logic for the drain verdict

    [wp m Q X p]: run on [p], the computation [m] either continues with [Q] or
    leaves by an exit with [X].  The lemmas state what [begin_drain],
    [add_holder] and [finish_drain] establish, on every exit. *)

From S2P Require Import Prelude.
From S2P Require Import TokenName.
From S2P Require Import Ledger.
From S2P Require Import Drain.
From stdpp Require Import options.

Open Scope Z_scope.

(** ** Rules *)

Definition wp {A} (m : M A) (Q : A → PendingDrain → Prop) (X : Exit → PendingDrain → Prop)
    (p : PendingDrain) : Prop :=
  match m p with (inr a, p1) => Q a p1 | (inl x, p1) => X x p1 end.

Section rules.
Context {A B : Type}.
Implicit Types (X : Exit → PendingDrain → Prop) (p : PendingDrain).

Lemma wp_bind (m : M A) (f : A → M B) Q X p :
  wp m (λ a p1, wp (f a) Q X p1) X p → wp (m ≫= f) Q X p.
Proof. unfold wp, mbind, M_bind. by destruct (m p) as [[x|a] p1]. Qed.
Lemma wp_ret (a : A) Q X p : Q a p → wp (mret a) Q X p.
Proof. done. Qed.
Lemma wp_return (Q : A → PendingDrain → Prop) X p : X Returned p → wp return_now Q X p.
Proof. done. Qed.
Lemma wp_raise e (Q : A → PendingDrain → Prop) X p : X (Raised e) p → wp (raise e) Q X p.
Proof. done. Qed.
Lemma wp_get (f : PendingDrain → A) Q X p : Q (f p) p → wp (get f) Q X p.
Proof. done. Qed.
Lemma wp_lift (r : err_kind + A) Q X p :
  (∀ e, r = inl e → X (Raised e) p) → (∀ a, r = inr a → Q a p) → wp (lift r) Q X p.
Proof. intros HE HQ. destruct r; [by apply HE|by apply HQ]. Qed.
Lemma wp_modify f Q X p : Q () (f p) → wp (modify f) Q X p.
Proof. done. Qed.
Lemma wp_when b (m : M ()) Q X p :
  (b = true → wp m Q X p) → (b = false → Q () p) → wp (when b m) Q X p.
Proof. destruct b; naive_solver. Qed.
Lemma wp_mono (m : M A) (Q Q' : A → PendingDrain → Prop) X X' p :
  wp m Q X p → (∀ a p1, Q a p1 → Q' a p1) → (∀ x p1, X x p1 → X' x p1) → wp m Q' X' p.
Proof. unfold wp. destruct (m p) as [[x|a] p1]; naive_solver. Qed.
End rules.

Ltac wp_step :=
  match goal with
  | |- wp (mbind _ _) _ _ _ => apply wp_bind
  | |- wp (mret _) _ _ _ => apply wp_ret
  | |- wp return_now _ _ _ => apply wp_return
  | |- wp (raise _) _ _ _ => apply wp_raise
  | |- wp (get _) _ _ _ => apply wp_get
  | |- wp (lift _) _ _ _ => apply wp_lift; intros ? ?
  | |- wp (say _ _) _ _ _ => apply wp_modify
  | |- wp (note _ _) _ _ _ => apply wp_modify
  | |- wp (modify _) _ _ _ => apply wp_modify
  | |- wp (when _ _) _ _ _ => apply wp_when; intros ?
  end; cbv beta.

(** Looking a literal key up through the insertions of other literal keys. *)
Ltac dict :=
  cbn [p_prepared p_verdict p_notes p_unmeasured_until p_until p_epoch p_short p_in_way p_bounds
       p_draining p_covered p_wanted_cpus with_verdict with_notes with_unmeasured with_episode
       with_short with_holders with_wanted];
  repeat first [rewrite lookup_insert_eq | rewrite lookup_insert_ne by discriminate].

Lemma run_wp {A} (m : M A) p Q X :
  wp m Q X p →
  match run m p with
  | Go p1 => ∃ a, Q a p1
  | Stop o => (∃ p1, X Returned p1 ∧ o = _complete p1 None)
              ∨ (∃ e p1, X (Raised e) p1 ∧ o = failed_drain p1 e)
  end.
Proof. unfold wp, run. destruct (m p) as [[[|e]|a] p1]; naive_solver. Qed.

(** ** Clocks *)

Lemma stamp_ok d name v : stamp d name = inr v → v = finite_field (pd_clocks d !! name).
Proof. unfold stamp. destruct (pd_clocks d !! name) as [[]|]; naive_solver. Qed.

(** ** A verdict that does not withhold stays so *)

Definition quiet (v : Verdict) : Prop := v !! "withhold" = Some (VBool false).

Lemma unmeasured_verdict_withhold now u v :
  unmeasured_verdict now u v !! "withhold"
  = if match u with None => true | Some u => bool_decide (u ≤ now) end then Some (VBool false)
    else v !! "withhold".
Proof.
  unfold unmeasured_verdict. destruct u as [u|]; [|by destruct (says _ _ _); dict].
  set (v1 := <["unmeasured_until_unix":=VTime u]> (<["measurement_unmeasured":=VBool true]> v)).
  destruct (v1 !! "drain_until_unix") as [[]|]; case_bool_decide;
    try (destruct (says _ _ _)); unfold v1; by dict.
Qed.

Lemma complete_withheld p :
  withheld (_complete p None) = true → p_verdict p !! "withhold" = Some (VBool true)
  ∧ (pd_wait (p_prepared p) = true → q_unmeasured (pd_question (p_prepared p)) = true →
     ∃ u, p_unmeasured_until p = Some u ∧ pd_now (p_prepared p) < u).
Proof.
  unfold _complete, withheld. destruct (pd_wait _ && q_unmeasured _) eqn:Hw.
  - rewrite unmeasured_verdict_withhold.
    destruct (p_unmeasured_until p) as [u|]; [|done]. case_bool_decide as Hu; [done|].
    destruct (p_verdict p !! "withhold") as [[b| | | | | | | |]|]; try done. intros ->. split; [done|].
    intros _ _. exists u. split; [done|lia].
  - destruct (p_verdict p !! "withhold") as [[b| | | | | | | |]|]; try done. intros ->. split; [done|].
    intros Hw1 Hw2. by rewrite Hw1, Hw2 in Hw.
Qed.

Lemma complete_quiet p : quiet (p_verdict p) → withheld (_complete p None) = false.
Proof.
  intros Hq. destruct (withheld _) eqn:Hw; [|done]. apply complete_withheld in Hw as [Hw _].
  unfold quiet in Hq. congruence.
Qed.

Lemma failed_quiet p e : withheld (failed_drain p e) = false.
Proof.
  unfold failed_drain. destruct (readable_error e); [|done]. apply complete_quiet. unfold quiet. by dict.
Qed.

Lemma complete_notes p e : outcome_notes (_complete p e) = completed_notes p.
Proof. unfold _complete. by destruct e. Qed.

Lemma failed_notes p e : outcome_notes (failed_drain p e) = completed_notes p.
Proof. unfold failed_drain. destruct (readable_error e); by rewrite complete_notes. Qed.

Definition refills_of (o : Outcome) : option Val :=
  match o with DrainAssessment v _ => v !! "refills" | DrainFailure _ _ => None end.

Lemma unmeasured_verdict_other now u v k :
  k ∉ ["measurement_unmeasured"; "unmeasured_until_unix"; "measurement_drain_until_unix"; "drain_until_unix";
       "drain_resolves"; "withhold"; "why"] →
  unmeasured_verdict now u v !! k = v !! k.
Proof.
  rewrite !not_elem_of_cons. intros (H1 & H2 & H3 & H4 & H5 & H6 & H7 & _). unfold unmeasured_verdict.
  destruct u as [u|]; [|destruct (says _ _ _); by rewrite !lookup_insert_ne].
  set (v1 := <["unmeasured_until_unix":=VTime u]> (<["measurement_unmeasured":=VBool true]> v)).
  destruct (v1 !! "drain_until_unix") as [[]|]; case_bool_decide;
    try (destruct (says _ _ _)); unfold v1; by rewrite !lookup_insert_ne.
Qed.

Lemma complete_refills p : refills_of (_complete p None) = p_verdict p !! "refills".
Proof. unfold _complete. simpl. destruct (_ && _); [|done]. apply unmeasured_verdict_other. set_solver. Qed.

Lemma failed_refills p e v : refills_of (failed_drain p e) = Some v → p_verdict p !! "refills" = Some v.
Proof. unfold failed_drain. destruct (readable_error e); [|done]. rewrite complete_refills. by dict. Qed.

Lemma failed_no_refills p e : p_verdict p !! "refills" = None → refills_of (failed_drain p e) = None.
Proof. intros Hn. destruct (refills_of _) eqn:Hr; [|done]. apply failed_refills in Hr. congruence. Qed.

(** ** Beginning *)

Record Begun (d : PreparedDrain) (av : gmap string nat) (p : PendingDrain) : Prop := mkBegun {
  bg_prepared : p_prepared p = d;
  bg_quiet : quiet (p_verdict p);
  bg_eligible : p_verdict p !! "eligible" = Some (VBool true);
  bg_earned : pd_wait d = true ∨ STARVATION_FLOOR ≤ pd_passes d + 1
              ∨ (gpu_need d ≠ 0 ∧ gpu_need d ≤ Z.of_nat (default 0%nat (av !! "gpu")));
  bg_note_until : p_notes p !! "measurement_until_unix" = None;
  bg_note_unmeasured : ∀ v, pd_clocks d !! "unmeasured_until_unix" = Some (Num v) →
    p_notes p !! "unmeasured_until_unix" = None;
  bg_refills : p_verdict p !! "refills" = None;
  bg_mode : p_verdict p !! "mode" = Some (VMode (q_mode (pd_question d)));
  bg_until : p_until p = finite_field (pd_clocks d !! "measurement_until_unix");
  bg_epoch : p_epoch p = finite_field (pd_clocks d !! "epoch_unix");
  bg_open : pd_wait d = true → ∀ u, p_until p = Some u → pd_now d < u;
  bg_short : p_short p = if bool_decide (q_mode (pd_question d) = Tokens)
                         then shortage_of (q_need (pd_question d)) av else ∅;
  bg_covered : p_covered p = (λ _, 0) <$> p_short p;
  bg_lists : p_in_way p = [] ∧ p_bounds p = [] ∧ p_draining p = [];
  bg_foreign : q_foreign (pd_question d) = false
               ∧ (∀ f, finite_field (pd_clocks d !! "foreign_unix") = Some f →
                    pd_now d - f ≤ WITHHOLD_CEILING →
                    pd_wait d = true ∧ q_foreign_clear (pd_question d) = true);
  bg_unmeasured : pd_wait d = true → q_unmeasured (pd_question d) = true →
    ∃ u, p_unmeasured_until p = Some u
         ∧ (pd_clocks d !! "unmeasured_until_unix" = Some (Num u)
            ∨ pd_clocks d !! "unmeasured_until_unix" = None
              ∧ u = pd_now d + MEASUREMENT_UNMEASURED_CEILING
              ∧ p_notes p !! "unmeasured_until_unix" = Some (Some u));
  bg_wanted : q_mode (pd_question d) = Held_cpus →
    p_wanted_cpus p = list_to_set (default [] (q_held_cpus (pd_question d))) }.

(** What holds at every exit of [begin_drain]. *)
Definition Ended (d : PreparedDrain) (p : PendingDrain) : Prop :=
  p_prepared p = d ∧ quiet (p_verdict p) ∧ p_notes p !! "measurement_until_unix" = None
  ∧ (∀ v, pd_clocks d !! "unmeasured_until_unix" = Some (Num v) → p_notes p !! "unmeasured_until_unix" = None)
  ∧ p_verdict p !! "refills" = None.

(** The steps of [begin_drain], each from and to what the next one needs. *)
Definition Opened (d : PreparedDrain) (av : gmap string nat) (p : PendingDrain) : Prop :=
  p_prepared p = d ∧ quiet (p_verdict p) ∧ p_notes p !! "measurement_until_unix" = None
  ∧ (∀ v, pd_clocks d !! "unmeasured_until_unix" = Some (Num v) → p_notes p !! "unmeasured_until_unix" = None)
  ∧ p_verdict p !! "refills" = None
  ∧ p_verdict p !! "mode" = Some (VMode (q_mode (pd_question d)))
  ∧ p_short p = if bool_decide (q_mode (pd_question d) = Tokens)
                then shortage_of (q_need (pd_question d)) av else ∅.

Lemma begin_short_spec d av p Q :
  p_prepared p = d → quiet (p_verdict p) → p_notes p = ∅ → p_verdict p !! "refills" = None →
  p_verdict p !! "mode" = Some (VMode (q_mode (pd_question d))) →
  (∀ p1, Opened d av p1 → Q () p1) → wp (begin_short d av) Q (λ _, Ended d) p.
Proof.
  intros Hp Hq Hn Hr Hmd HQ. unfold begin_short, quiet in *. repeat wp_step.
  - by split_and!; unfold quiet; dict; rewrite ?Hn.
  - apply HQ. unfold Opened, quiet. rewrite bool_decide_eq_true in *.
    rewrite bool_decide_eq_true_2 by done. by split_and!; dict; rewrite ?Hn.
  - apply HQ. unfold Opened, quiet. rewrite bool_decide_eq_false in *.
    rewrite bool_decide_eq_false_2 by done. by split_and!; dict; rewrite ?Hn.
Qed.

Definition unmeasured_known (d : PreparedDrain) (p : PendingDrain) : Prop :=
  pd_wait d = true → q_unmeasured (pd_question d) = true →
  ∃ u, p_unmeasured_until p = Some u
       ∧ (pd_clocks d !! "unmeasured_until_unix" = Some (Num u)
          ∨ pd_clocks d !! "unmeasured_until_unix" = None
            ∧ u = pd_now d + MEASUREMENT_UNMEASURED_CEILING
            ∧ p_notes p !! "unmeasured_until_unix" = Some (Some u)).

Definition eligible_is (b : bool) (p : PendingDrain) : Prop := p_verdict p !! "eligible" = Some (VBool b).

Ltac settled := split_and!; unfold quiet; dict; solve [done | intros; congruence | eauto | intros ? _; eauto].

Lemma begin_wait_spec d av b p Q :
  Opened d av p → eligible_is b p →
  (∀ p1, Opened d av p1 → eligible_is b p1 → unmeasured_known d p1 → Q () p1) →
  wp (begin_wait d) Q (λ _, Ended d) p.
Proof.
  intros (Hp & Hq & Hn & Hv & Hr & Hmd & Hs) He HQ. unfold begin_wait, quiet, eligible_is in *. repeat wp_step.
  - by split_and!.
  - destruct (pd_clocks d !! "unmeasured_until_unix") as [[u| |]|] eqn:Hu; repeat wp_step.
    + apply HQ; [settled|by unfold eligible_is; dict|].
      intros _ _. exists u. split; [done|by left].
    + settled.
    + settled.
    + apply HQ; [settled|by unfold eligible_is; dict|].
      intros _ _. eexists. split; [done|right]. by split_and!; dict.
  - apply HQ; [settled|by unfold eligible_is; dict|intros _; congruence].
  - apply HQ; [done|done|intros ?; congruence].
Qed.

Lemma begin_foreign_spec d av gs p Q :
  Opened d av p → eligible_is true p → unmeasured_known d p →
  (∀ p1, Opened d av p1 → eligible_is true p1 → unmeasured_known d p1 →
     q_foreign (pd_question d) = false →
     (∀ f, finite_field (pd_clocks d !! "foreign_unix") = Some f → pd_now d - f ≤ WITHHOLD_CEILING →
           pd_wait d = true ∧ q_foreign_clear (pd_question d) = true) → Q () p1) →
  wp (begin_foreign d gs) Q (λ _, Ended d) p.
Proof.
  intros HO He Hu HQ. unfold begin_foreign. apply wp_bind.
  assert (wp (when (clear_foreign d gs) (note "foreign_unix" None))
    (λ _ p1, Opened d av p1 ∧ eligible_is true p1 ∧ unmeasured_known d p1) (λ _, Ended d) p) as Hw.
  { repeat wp_step; [|done]. destruct HO as (?&?&?&?&?&?&?). unfold Opened, quiet, eligible_is, unmeasured_known in *.
    by split_and!; dict. }
  eapply wp_mono; [exact Hw| |done]. intros _ p1 (HO1 & He1 & Hu1). apply wp_bind.
  destruct (foreign_seen d gs) eqn:Hf.
  { wp_step. wp_step; [|rewrite bool_decide_eq_false in *; unfold WITHHOLD_CEILING, seconds in *; lia].
    destruct HO1 as (?&?&?&?&?&?&?). unfold quiet in *. repeat wp_step; by split_and!; unfold quiet; dict. }
  assert (q_foreign (pd_question d) = false) as Hqf by (by apply orb_false_iff in Hf as [? _]).
  destruct (clear_foreign d gs) eqn:Hc.
  { wp_step. wp_step. apply HQ; try done. intros f _ _.
    unfold clear_foreign in Hc. rewrite !andb_true_iff in Hc. tauto. }
  wp_step; [destruct HO1 as (?&?&?&?&?&?&?); by split_and!|].
  match goal with H : stamp _ _ = inr _ |- _ => apply stamp_ok in H as -> end.
  destruct (finite_field _) as [f|] eqn:Hff; [|wp_step; apply HQ; try done; congruence].
  wp_step.
  - destruct HO1 as (?&?&?&?&?&?&?). unfold quiet in *. repeat wp_step; by split_and!; unfold quiet; dict.
  - apply HQ; try done. intros f' Hf' Hle. injection Hf' as <-. rewrite bool_decide_eq_false in *. lia.
Qed.

Definition episode_read (d : PreparedDrain) (p : PendingDrain) : Prop :=
  p_until p = finite_field (pd_clocks d !! "measurement_until_unix")
  ∧ p_epoch p = finite_field (pd_clocks d !! "epoch_unix")
  ∧ (pd_wait d = true → ∀ u, p_until p = Some u → pd_now d < u).

Lemma begin_episode_spec d av p Q :
  Opened d av p → eligible_is true p → unmeasured_known d p →
  (∀ p1, Opened d av p1 → eligible_is true p1 → unmeasured_known d p1 → episode_read d p1 → Q () p1) →
  wp (begin_episode d) Q (λ _, Ended d) p.
Proof.
  intros (Hp & Hq & Hn & Hv & Hr & Hmd & Hs) He Hu HQ. unfold begin_episode, quiet, eligible_is in *.
  apply wp_bind. wp_step; [by split_and!|]. apply wp_bind. wp_step; [by split_and!|].
  repeat match goal with H : stamp _ _ = inr _ |- _ => apply stamp_ok in H as -> end.
  apply wp_bind. apply wp_modify. unfold Opened, quiet, eligible_is, unmeasured_known, episode_read in *.
  destruct (finite_field (pd_clocks d !! "measurement_until_unix")) as [u|] eqn:Hm; repeat wp_step.
  - by split_and!; unfold quiet; dict.
  - apply HQ; [by split_and!; dict|by dict|done|]. split_and!; dict; [done|done|].
    intros _ u' [= <-]. rewrite bool_decide_eq_false in *. lia.
  - apply HQ; [by split_and!; dict|by dict|done|]. split_and!; dict; [done|done|]. congruence.
  - apply HQ; [by split_and!; dict|by dict|done|]. by split_and!; dict.
Qed.

Lemma begin_body_spec d av gs p :
  p_prepared p = d → quiet (p_verdict p) → p_notes p = ∅ → p_verdict p !! "refills" = None →
  p_verdict p !! "mode" = Some (VMode (q_mode (pd_question d))) →
  wp (begin_body av gs) (λ _, Begun d av) (λ _, Ended d) p.
Proof.
  intros Hp Hq Hn Hr Hmd. unfold begin_body. apply wp_bind. apply wp_get. rewrite Hp. apply wp_bind.
  apply (begin_short_spec d av); [done..|]. clear p Hp Hq Hn Hr Hmd. intros p (Hp & Hq & Hn & Hv & Hr & Hmd & Hs).
  do 2 (apply wp_bind; apply wp_modify). apply wp_bind.
  apply (begin_wait_spec d av (eligible_of d av gs));
    [unfold quiet in *; by split_and!; unfold quiet; dict|by unfold eligible_is; dict|].
  clear p Hp Hq Hn Hv Hr Hmd Hs. intros p HO He Hu. apply wp_bind.
  assert (wp (when (foreign_seen d gs) (note "foreign_unix" (Some (pd_now d))))
    (λ _ p1, Opened d av p1 ∧ eligible_is (eligible_of d av gs) p1 ∧ unmeasured_known d p1) (λ _, Ended d) p) as Hw.
  { repeat wp_step; [|done]. destruct HO as (?&?&?&?&?&?&?). unfold Opened, quiet, eligible_is, unmeasured_known in *.
    by split_and!; dict. }
  eapply wp_mono; [exact Hw| |done]. clear p HO He Hu Hw. intros _ p (HO & He & Hu).
  apply wp_bind. wp_step; [wp_step; by destruct HO as (?&?&?&?&?&?&?)|].
  destruct (eligible_of d av gs) eqn:Hel; [|done]. apply wp_bind.
  apply (begin_foreign_spec d av); [done..|]. clear p HO He Hu. intros p HO He Hu Hf1 Hf2.
  apply wp_bind. apply (begin_episode_spec d av); [done..|]. clear p HO He Hu.
  intros p (Hp & Hq & Hn & Hv & Hr & Hmd & Hs) He Hu (E1 & E2 & E3).
  unfold begin_holders, quiet, eligible_is, unmeasured_known in *. repeat wp_step; try by split_and!.
  all: constructor; unfold quiet; dict; try done.
  all: try (intros Hm; match goal with H : bool_decide _ = false |- _ => apply bool_decide_eq_false in H end; congruence).
  all: unfold eligible_of, gpu_first in Hel; rewrite !orb_true_iff, !andb_true_iff, !negb_true_iff in Hel.
  all: rewrite !bool_decide_eq_true, !bool_decide_eq_false in Hel; tauto.
Qed.

Lemma begin_drain_spec d av gs :
  match begin_drain d av gs with
  | Go p => Begun d av p
  | Stop o => withheld o = false ∧ refills_of o = None
              ∧ ∃ p, Ended d p ∧ outcome_notes o = completed_notes p
  end.
Proof.
  assert (wp (begin_body av gs) (λ _, Begun d av) (λ _, Ended d) (_initial d)) as Hw.
  { by apply begin_body_spec; [|unfold quiet, _initial; dict| |unfold _initial; dict|unfold _initial; dict]. }
  apply run_wp in Hw. unfold begin_drain. destruct (run _ _) as [p|o]; [naive_solver|].
  destruct Hw as [(p & Hp & ->)|(e & p & Hp & ->)].
  - split; [apply complete_quiet; apply Hp|]. split; [rewrite complete_refills; apply Hp|].
    exists p. by rewrite complete_notes.
  - split; [apply failed_quiet|]. split; [apply failed_no_refills; apply Hp|]. exists p. by rewrite failed_notes.
Qed.

(** ** What passed the beginning *)

Lemma wp_any {A} (m : M A) p : wp m (λ _ _, True) (λ _ _, True) p.
Proof. unfold wp. by destruct (m p) as [[x|a] p1]. Qed.

Lemma wp_skip {A B} (m : M A) (f : A → M B) Q p :
  (∀ a p1, wp (f a) Q (λ _ _, True) p1) → wp (m ≫= f) Q (λ _ _, True) p.
Proof. intros H. apply wp_bind. eapply wp_mono; [apply wp_any|intros a p1 _; apply H|done]. Qed.

(** A drain that began was eligible, saw no foreign load now, and none within
    the ceiling that was not cleared. *)
Lemma begin_drain_passed d av gs p :
  begin_drain d av gs = Go p →
  eligible_of d av gs = true ∧ foreign_seen d gs = false
  ∧ ∀ f, finite_field (pd_clocks d !! "foreign_unix") = Some f → pd_now d - f ≤ WITHHOLD_CEILING → clear_foreign d gs = true.
Proof.
  set (G := eligible_of d av gs = true ∧ _). intros Hgo.
  enough (wp (begin_body av gs) (λ _ _, G) (λ _ _, True) (_initial d)) as Hw.
  { apply run_wp in Hw. unfold begin_drain in Hgo. rewrite Hgo in Hw. by destruct Hw. }
  unfold begin_body. apply wp_bind, wp_get. change (p_prepared (_initial d)) with d.
  do 5 (apply wp_skip; intros _ ?). apply wp_bind, wp_when; [intros _; by apply wp_return|].
  rewrite negb_false_iff. intros Hel. apply wp_bind. eapply (wp_mono _ (λ _ _, G)); [|intros _ ? HG|done].
  2: { apply wp_skip. intros _ px. eapply wp_mono; [apply wp_any|done|done]. }
  unfold begin_foreign. apply wp_skip. intros _ px. apply wp_bind. destruct (foreign_seen d gs) eqn:Hf.
  { apply wp_ret, wp_when; [intros _; repeat (apply wp_skip; intros _ ?); by apply wp_return|].
    rewrite bool_decide_eq_false. unfold WITHHOLD_CEILING, seconds. lia. }
  destruct (clear_foreign d gs) eqn:Hc; [apply wp_ret; by split_and!|].
  apply wp_lift; [done|]. intros v Hv. apply stamp_ok in Hv as ->.
  destruct (finite_field _) as [f|] eqn:Hff; [|apply wp_ret; split_and!; [done|done|congruence]].
  apply wp_when; [intros _; repeat (apply wp_skip; intros _ ?); by apply wp_return|].
  rewrite bool_decide_eq_false. intros Hlt. split_and!; [done|done|]. intros f' [= <-]. lia.
Qed.

(** ** Holders *)

(** A pending value that took some holders in: [grown p0 p]. *)
Record Grown (p0 p : PendingDrain) : Prop := mkGrown {
  gr_prepared : p_prepared p = p_prepared p0;
  gr_verdict : p_verdict p = p_verdict p0;
  gr_notes : p_notes p = p_notes p0;
  gr_unmeasured : p_unmeasured_until p = p_unmeasured_until p0;
  gr_until : p_until p = p_until p0;
  gr_epoch : p_epoch p = p_epoch p0;
  gr_short : p_short p = p_short p0;
  gr_wanted : p_wanted_cpus p = p_wanted_cpus p0 }.

Lemma Grown_refl p : Grown p p.
Proof. by constructor. Qed.
Lemma Grown_trans p q r : Grown p q → Grown q r → Grown p r.
Proof. intros [] []. constructor; congruence. Qed.

Lemma add_holder_spec p b c :
  match add_holder p b c with
  | Go p1 => Grown p p1 ∧ p_bounds p1 = p_bounds p ++ [b]
             ∧ (if drains (pd_age (p_prepared p)) b
                then p_draining p1 = p_draining p ++ [b] ∧ p_in_way p1 = p_in_way p
                     ∧ cover (sorted_items c) (p_covered p) = (None, p_covered p1)
                else p_draining p1 = p_draining p ∧ p_in_way p1 = p_in_way p ++ [in_way_entry b]
                     ∧ p_covered p1 = p_covered p)
  | Stop o => withheld o = false ∧ outcome_notes o = completed_notes p
              ∧ (p_verdict p !! "refills" = None → refills_of o = None)
  end.
Proof.
  unfold add_holder, run, add_body, mbind, M_bind, get. cbv beta iota.
  destruct (drains _ b) eqn:Hd; [|by split_and!].
  destruct (cover (sorted_items c) (p_covered p)) as [[e|] cov] eqn:Hc; unfold modify, raise; cbv beta iota.
  - split; [apply failed_quiet|]. rewrite failed_notes. split; [done|]. intros Hr.
    apply failed_no_refills. by dict.
  - by split_and!.
Qed.

Lemma observe_holders_spec claim tiers L hs p :
  match observe_holders claim tiers L hs p with
  | Go p1 => Grown p p1
  | Stop o => withheld o = false ∧ outcome_notes o = completed_notes p
              ∧ (p_verdict p !! "refills" = None → refills_of o = None)
  end.
Proof.
  revert p. induction hs as [|h hs IH]; intros p; cbn [observe_holders]; [apply Grown_refl|].
  destruct (holder_counts p tiers L h) as [e|[c|]]; [|..|apply IH].
  { split; [apply failed_quiet|]. rewrite failed_notes. split; [done|]. by apply failed_no_refills. }
  pose proof (add_holder_spec p (holder_bound claim (pd_now (p_prepared p)) h) c) as Ha.
  destruct (add_holder p _ c) as [p1|o]; [|done]. destruct Ha as (Hg & _).
  specialize (IH p1). destruct (observe_holders _ _ _ hs p1) as [p2|o]; [by eapply Grown_trans|].
  destruct IH as (? & Hn & Hr). split; [done|]. rewrite Hn, <- (gr_verdict _ _ Hg). split; [|done].
  unfold completed_notes. by destruct Hg as [-> _ -> _ _ _ _ _].
Qed.

(** ** Finishing *)

(** Why a finished verdict withholds. *)
Inductive Grounds (p : PendingDrain) : Prop :=
  | for_measurement u :
      pd_wait (p_prepared p) = true →
      (p_bounds p ≠ [] ∨ q_mode (pd_question (p_prepared p)) = Tokens) →
      u = default (foldr Z.max (pd_now (p_prepared p) + WITHHOLD_CEILING) (declared_ends (p_bounds p))) (p_until p) →
      pd_now (p_prepared p) < u → Grounds p
  | for_holder_tail b :
      p_draining p = [] → p_in_way p = [] → q_mode (pd_question (p_prepared p)) = Exclusive →
      finite_field (pd_clocks (p_prepared p) !! "blocked_unix") = Some b →
      pd_now (p_prepared p) - b ≤ HOLDER_TAIL_WINDOW → Grounds p
  | for_in_flight :
      p_draining p = [] → p_in_way p = [] → q_mode (pd_question (p_prepared p)) ≠ Exclusive →
      pd_age (p_prepared p) ≤ WITHHOLD_CEILING → Grounds p
  | for_drain epoch expired refills :
      p_draining p ≠ [] ∨ p_in_way p ≠ [] → fits p = true →
      next_episode (pd_now (p_prepared p)) (finite_field (pd_clocks (p_prepared p) !! "epoch_unix"))
        (finite_field (pd_clocks (p_prepared p) !! "expired_unix")) (p_draining p) = (epoch, expired, refills) →
      expired = None → Grounds p.

(** The deadline a measurement's wait has after this pass. *)
Definition wait_until (p : PendingDrain) : Z :=
  default (foldr Z.max (pd_now (p_prepared p) + WITHHOLD_CEILING) (declared_ends (p_bounds p))) (p_until p).

Definition read_episode (p : PendingDrain) : Z * option Z * list HolderBound :=
  next_episode (pd_now (p_prepared p)) (finite_field (pd_clocks (p_prepared p) !! "epoch_unix"))
    (finite_field (pd_clocks (p_prepared p) !! "expired_unix")) (p_draining p).

(** The pass of a measurement that files its deadline. *)
Definition files_deadline (p : PendingDrain) : Prop :=
  pd_wait (p_prepared p) = true ∧ (p_bounds p ≠ [] ∨ q_mode (pd_question (p_prepared p)) = Tokens).

(** What every exit of [finish_drain] leaves. *)
Record Finished (p p1 : PendingDrain) : Prop := mkFinished {
  fi_prepared : p_prepared p1 = p_prepared p;
  fi_unmeasured : p_unmeasured_until p1 = p_unmeasured_until p;
  fi_eligible : p_verdict p1 !! "eligible" = p_verdict p !! "eligible";
  fi_mode : p_verdict p1 !! "mode" = p_verdict p !! "mode";
  fi_grounds : p_verdict p1 !! "withhold" = Some (VBool true) → Grounds p;
  fi_until : p_notes p1 !! "measurement_until_unix" = p_notes p !! "measurement_until_unix"
             ∨ p_notes p1 !! "measurement_until_unix" = Some (Some (wait_until p));
  fi_filed : files_deadline p → p_notes p1 !! "measurement_until_unix" = Some (Some (wait_until p));
  fi_unmeasured_note : p_notes p1 !! "unmeasured_until_unix" = p_notes p !! "unmeasured_until_unix";
  fi_episode : is_Some (p_verdict p1 !! "refills") →
    ∃ epoch expired refills, read_episode p = (epoch, expired, refills)
      ∧ p_verdict p1 !! "refills" = Some (VNames ((λ b, short_key (b_key b)) <$> refills))
      ∧ (p_verdict p1 !! "withhold" = Some (VBool true) → expired = None)
      ∧ p_notes p1 !! "epoch_unix" = Some (Some epoch) ∧ p_notes p1 !! "expired_unix" = Some expired }.

(** A value the earlier steps of [finish_drain] only annotated. *)
Definition Touched (p p1 : PendingDrain) : Prop :=
  p_prepared p1 = p_prepared p ∧ p_unmeasured_until p1 = p_unmeasured_until p
  ∧ p_verdict p1 !! "eligible" = p_verdict p !! "eligible"
  ∧ p_verdict p1 !! "mode" = p_verdict p !! "mode"
  ∧ quiet (p_verdict p1) ∧ p_verdict p1 !! "refills" = None
  ∧ p_notes p1 !! "measurement_until_unix" = p_notes p !! "measurement_until_unix"
  ∧ p_notes p1 !! "unmeasured_until_unix" = p_notes p !! "unmeasured_until_unix".

Ltac leaf :=
  constructor; dict; try done; try congruence; try (by left); try (by right);
  try (by intros [? ?]; congruence); 
  try (match goal with Hno : ¬ files_deadline _ |- _ => by intros Hfile; destruct (Hno Hfile) end).

Lemma finish_measurement_spec p p1 :
  Touched p p1 → files_deadline p →
  wp (finish_measurement p) (λ _ _, False) (λ _, Finished p) p1.
Proof.
  intros (T1 & T2 & T3 & T3' & T4 & T5 & T6 & T7) [Hw Hc]. unfold finish_measurement.
  destruct (match p_until p with Some u => _ | None => _ end) as [u ep] eqn:Hu.
  assert (u = wait_until p) as -> by (unfold wait_until; destruct (p_until p); by injection Hu).
  repeat wp_step. leaf.
  intros [= Hlt%bool_decide_eq_true]. by eapply for_measurement.
Qed.

Lemma finish_empty_spec p p1 :
  Touched p p1 →
  ¬ files_deadline p →
  p_draining p = [] → p_in_way p = [] →
  wp (finish_empty p) (λ _ _, False) (λ _, Finished p) p1.
Proof.
  intros (T1 & T2 & T3 & T3' & T4 & T5 & T6 & T7) Hno Hd Hi. unfold finish_empty, quiet in *.
  destruct (q_mode (pd_question (p_prepared p))) eqn:Hm.
  - apply wp_bind. wp_step; [leaf|].
    match goal with H : stamp _ _ = inr _ |- _ => apply stamp_ok in H as -> end.
    destruct (finite_field _) as [b|] eqn:Hb; repeat wp_step; leaf.
    intros _. rewrite bool_decide_eq_true in *. by eapply for_holder_tail.
  - repeat wp_step. leaf. intros [= Hle%bool_decide_eq_true]. apply for_in_flight; congruence.
  - repeat wp_step. leaf. intros [= Hle%bool_decide_eq_true]. apply for_in_flight; congruence.
  - repeat wp_step. leaf. intros [= Hle%bool_decide_eq_true]. apply for_in_flight; congruence.
Qed.

Lemma finish_episode_spec p p1 :
  Touched p p1 →
  ¬ files_deadline p →
  p_draining p ≠ [] ∨ p_in_way p ≠ [] → fits p = true →
  wp (finish_episode p) (λ _ _, False) (λ _, Finished p) p1.
Proof.
  intros (T1 & T2 & T3 & T3' & T4 & T5 & T6 & T7) Hno Hne Hf. unfold finish_episode, quiet in *.
  apply wp_bind. wp_step; [leaf|]. apply wp_bind. wp_step; [leaf|].
  repeat match goal with H : stamp _ _ = inr _ |- _ => apply stamp_ok in H as -> end.
  destruct (next_episode _ _ _ _) as [[ep ex] rf] eqn:Hep. repeat wp_step; leaf.
  - intros _. exists ep, ex, rf. dict. split_and!; [done|done|congruence|done|done].
  - intros _. eapply for_drain; [done|done|exact Hep|]. rewrite bool_decide_eq_false, eq_None_not_Some in *. done.
  - intros _. exists ep, ex, rf. dict. split_and!; [done|done| |done|done].
    rewrite bool_decide_eq_false, eq_None_not_Some in *. done.
Qed.

Lemma finish_body_spec p :
  quiet (p_verdict p) → p_verdict p !! "refills" = None →
  wp finish_body (λ _ _, False) (λ _, Finished p) p.
Proof.
  intros Hq Hr. unfold finish_body. apply wp_bind. apply wp_get. apply wp_bind. apply wp_modify.
  assert (Touched p (with_verdict (<["holders":=VHolders (p_in_way p)]> (p_verdict p)) p)) as Ht.
  { unfold Touched, quiet in *. by split_and!; dict. }
  revert Ht. generalize (with_verdict (<["holders":=VHolders (p_in_way p)]> (p_verdict p)) p). intros p1 Ht.
  set (empty := bool_decide (p_draining p = []) && bool_decide (p_in_way p = [])).
  apply wp_bind.
  assert (wp (when (negb empty) (note "blocked_unix" (Some (pd_now (p_prepared p)))))
    (λ _, Touched p) (λ _ _, False) p1) as Hn.
  { repeat wp_step; [|done]. destruct Ht as (?&?&?&?&?&?&?&?). unfold Touched, quiet in *. by split_and!; dict. }
  eapply wp_mono; [exact Hn| |done]. clear p1 Ht Hn. intros a p1 Ht. cbv beta in Ht. clear a. apply wp_bind.
  apply wp_when; intros Hw.
  { apply andb_true_iff in Hw as [Hw Hc].
    rewrite orb_true_iff, negb_true_iff, bool_decide_eq_false, bool_decide_eq_true in Hc.
    eapply wp_mono; [by apply finish_measurement_spec|done|done]. }
  assert (¬ files_deadline p) as Hno.
  { intros [Hw1 Hw2]. rewrite Hw1 in Hw. simpl in Hw.
    rewrite orb_false_iff, negb_false_iff, bool_decide_eq_true, bool_decide_eq_false in Hw. tauto. }
  apply wp_bind. apply wp_when; intros He; unfold empty in He.
  { rewrite andb_true_iff, !bool_decide_eq_true in He. destruct He.
    eapply wp_mono; [by apply finish_empty_spec|done|done]. }
  rewrite andb_false_iff, !bool_decide_eq_false in He.
  apply wp_bind. apply wp_when; intros Hf.
  { destruct Ht as (?&?&?&?&?&?&?&?). unfold quiet in *. repeat wp_step. leaf. }
  apply finish_episode_spec; [done|done|done|]. by apply negb_false_iff in Hf.
Qed.

Lemma finish_drain_spec p :
  quiet (p_verdict p) → p_verdict p !! "refills" = None →
  ∃ p1, Finished p p1 ∧ outcome_notes (finish_drain p) = completed_notes p1
        ∧ (finish_drain p = _complete p1 None ∨ ∃ e, finish_drain p = failed_drain p1 e).
Proof.
  intros Hq Hr. pose proof (finish_body_spec p Hq Hr) as Hw. unfold wp in Hw. unfold finish_drain.
  destruct (finish_body p) as [[[|e]|a] p1]; [| |done]; exists p1; (split; [done|]).
  - rewrite complete_notes. split; [done|by left].
  - rewrite failed_notes. split; [done|]. right. by exists e.
Qed.

(** ** What the census gathered *)

Lemma cover_spec l cov cov' :
  NoDup l.*1 → cover l cov = (None, cov') →
  ∀ k, cov' !! k = (λ v, v + default 0 ((list_to_map l : gmap string Z) !! k)) <$> cov !! k.
Proof.
  revert cov. induction l as [|[k0 c0] l IH]; intros cov Hnd; cbn [cover].
  { intros [= ->] k. cbn [list_to_map foldr]. rewrite lookup_empty. destruct (cov' !! k); simpl; [|done]. f_equal. lia. }
  destruct (cov !! k0) as [v0|] eqn:H0; [|done]. intros Hc k.
  cbn [fmap list_fmap fst] in Hnd. apply NoDup_cons in Hnd as [Hk0 Hnd].
  rewrite (IH _ Hnd Hc k). cbn [list_to_map foldr]. destruct (decide (k = k0)) as [->|Hne].
  - rewrite !lookup_insert_eq, H0. simpl.
    rewrite not_elem_of_list_to_map_1 by done. simpl. f_equal. lia.
  - by rewrite !lookup_insert_ne by done.
Qed.

(** The tokens of [kind] that [h] holds. *)
Definition holds (L : Ledger) (kind h : string) : Z := Z.of_nat (default 0%nat (holder_tokens h L !! kind)).

Section census.
Context (claim : string → ClaimRead) (tiers : option CpuTiers) (L : Ledger).

Definition bound_of (p : PendingDrain) (h : string) : HolderBound :=
  holder_bound claim (pd_now (p_prepared p)) h.
Definition leaving (p : PendingDrain) (h : string) : bool := drains (pd_age (p_prepared p)) (bound_of p h).
(** The holders the row's mode is about. *)
Definition concerned (p : PendingDrain) (h : string) : bool :=
  match holder_counts p tiers L h with inr (Some _) => true | _ => false end.

Lemma holder_counts_grown p p1 h : Grown p p1 → holder_counts p1 tiers L h = holder_counts p tiers L h.
Proof using All.
  intros Hg. unfold holder_counts. by rewrite (gr_prepared _ _ Hg), (gr_short _ _ Hg), (gr_wanted _ _ Hg).
Qed.

Lemma observe_gathers hs p p1 :
  observe_holders claim tiers L hs p = Go p1 →
  p_bounds p1 = p_bounds p ++ (bound_of p <$> filter (λ h, concerned p h = true) hs)
  ∧ p_draining p1 = p_draining p
      ++ (bound_of p <$> filter (λ h, concerned p h = true ∧ leaving p h = true) hs)
  ∧ p_in_way p1 = p_in_way p
      ++ ((λ h, in_way_entry (bound_of p h)) <$> filter (λ h, concerned p h = true ∧ leaving p h = false) hs)
  ∧ (q_mode (pd_question (p_prepared p)) = Tokens → ∀ k, is_Some (p_short p !! k) →
     p_covered p1 !! k
     = (λ v, v + sumZ (holds L k) (filter (λ h, leaving p h = true) hs)) <$> p_covered p !! k).
Proof using All.
  revert p. induction hs as [|h hs IH]; intros p; cbn [observe_holders].
  { intros [= ->]. rewrite !app_nil_r. split_and!; try done. intros _ k _.
    destruct (p_covered p1 !! k) as [z|]; [|done]. simpl. f_equal. unfold sumZ. simpl. lia. }
  destruct (holder_counts p tiers L h) as [e|[c|]] eqn:Hc; [done| |].
  - destruct (add_holder p _ c) as [p'|o] eqn:Ha; [|done]. intros Ho.
    pose proof (add_holder_spec p (holder_bound claim (pd_now (p_prepared p)) h) c) as Hs.
    rewrite Ha in Hs. destruct Hs as (Hg & Hb & Hd).
    assert (∀ x, concerned p' x = concerned p x) as Hcn by (intros; unfold concerned; by rewrite (holder_counts_grown p)).
    assert (∀ x, bound_of p' x = bound_of p x) as Hbo by (intros; unfold bound_of; by rewrite (gr_prepared _ _ Hg)).
    assert (∀ x, leaving p' x = leaving p x) as Hle
      by (intros; unfold leaving; by rewrite Hbo, (gr_prepared _ _ Hg)).
    assert (concerned p h = true) as Hch by (unfold concerned; by rewrite Hc).
    destruct (IH p' Ho) as (I1 & I2 & I3 & I4).
    rewrite (gr_prepared _ _ Hg), (gr_short _ _ Hg) in I4.
    rewrite (list_filter_iff _ (λ h, concerned p h = true)) in I1 by (intros; by rewrite Hcn).
    rewrite (list_filter_iff _ (λ h, concerned p h = true ∧ leaving p h = true)) in I2
      by (intros; by rewrite Hcn, Hle).
    rewrite (list_filter_iff _ (λ h, concerned p h = true ∧ leaving p h = false)) in I3
      by (intros; by rewrite Hcn, Hle).
    assert (filter (λ h, leaving p' h = true) hs = filter (λ h, leaving p h = true) hs) as Hfl
      by (apply list_filter_iff; intros; by rewrite Hle).
    rewrite Hfl in I4.
    rewrite (list_fmap_ext _ _ _ (λ _ x _, Hbo x)) in I1.
    rewrite (list_fmap_ext _ _ _ (λ _ x _, Hbo x)) in I2.
    rewrite (list_fmap_ext _ (λ x, in_way_entry (bound_of p x)) _ (λ _ x _, f_equal in_way_entry (Hbo x))) in I3.
    rewrite filter_cons_True by done. rewrite fmap_cons, I1, Hb, <- app_assoc. split; [done|].
    change (drains _ _) with (leaving p h) in Hd. destruct (leaving p h) eqn:Hlv.
    + destruct Hd as (Hd & Hi & Hcov). rewrite filter_cons_True by done. rewrite filter_cons_False by (intros [??]; congruence).
      rewrite I2, I3, Hd, Hi, <- app_assoc. split_and!; [done|done|]. intros Hm k Hk.
      rewrite I4 by done. rewrite filter_cons_True by done. rewrite sumZ_cons.
      rewrite (cover_spec _ _ _ (NoDup_sorted_items c) Hcov k), sorted_items_to_map.
      assert (default 0 (c !! k) = holds L k h) as ->.
      { unfold holder_counts in Hc. rewrite Hm in Hc. case_bool_decide as Hz; [done|]. injection Hc as <-.
        rewrite map_lookup_imap. destruct Hk as [a ->]. unfold holds. simpl.
        by destruct (holder_tokens h L !! k) as [[|n]|]. }
      destruct (p_covered p !! k); simpl; [f_equal; lia|done].
    + destruct Hd as (Hd & Hi & Hcov). rewrite filter_cons_False by (intros [??]; congruence). rewrite filter_cons_True by done.
      rewrite I2, I3, Hd, Hi, fmap_cons, <- app_assoc. split_and!; [done|done|]. intros Hm k Hk.
      rewrite I4 by done. by rewrite filter_cons_False, Hcov by congruence.
  - intros Ho. assert (concerned p h = false) as Hch by (unfold concerned; by rewrite Hc).
    rewrite (filter_cons_False (λ h, concerned p h = true)) by congruence.
    rewrite !(filter_cons_False (λ h, concerned p h = true ∧ _)) by (intros [??]; congruence). destruct (IH p Ho) as (I1 & I2 & I3 & I4).
    split_and!; [done..|]. intros Hm k Hk. rewrite I4 by done.
    destruct (leaving p h) eqn:Hl; [|by rewrite filter_cons_False by congruence].
    rewrite filter_cons_True by done. rewrite sumZ_cons.
    assert (holds L k h = 0) as ->; [|by rewrite Z.add_0_l].
    unfold holder_counts in Hc. rewrite Hm in Hc. case_bool_decide as Hz; [|done].
    assert (map_imap (λ kind _, match holder_tokens h L !! kind with
              | Some (S n) => Some (Z.of_nat (S n)) | _ => None end) (p_short p) !! k = None) as Hn
      by (rewrite Hz; apply lookup_empty).
    rewrite map_lookup_imap in Hn. destruct Hk as [a Hk]. rewrite Hk in Hn. simpl in Hn. unfold holds.
    by destruct (holder_tokens h L !! k) as [[|n]|].
Qed.
End census.
