(* ===== verification/DrainSpec.v ===== *)
(** * What a withhold guarantees

    A row that holds back the rows behind it has earned it, is not waiting on
    load the pool does not own, and waits for holders whose leaving gives it
    what it lacks; a veto that is refilled ends at the ceiling, and a
    measurement's deadline is fixed once. *)

From S2P Require Import Prelude.
From S2P Require Import TokenName.
From S2P Require Import Ledger.
From S2P Require Import Drain.
From S2P Require Import DrainFacts.
From stdpp Require Import options.

Open Scope Z_scope.

(** ** The holders a question is about *)

(** Whether [h] is in the way of the row: any holder, one on a GPU, one on a
    named CPU, or one with tokens of a kind the row lacks. *)
Definition affects (q : DrainQuestion) (B : Box) (h : string) : Prop :=
  let L := bx_ledger B in
  match q_mode q with
  | Exclusive => True
  | Gpu => holds_gpu h L = true
  | Held_cpus =>
      ∃ t a cpu, bx_tiers B = Some t ∧ cpu_allocation h t L = Ok a
        ∧ cpu ∈ default [] (q_held_cpus q) ∧ cpu ∈ preferred a ++ fallback a
  | Tokens => ∃ k, is_Some (shortage_of (q_need q) (available L) !! k) ∧ 0 < holds L k h
  end.

Lemma concerned_affects q B prior now host p h :
  let d := prepare_drain q prior now host in
  Begun d (available (bx_ledger B)) p →
  affects q B h → (∀ e, holder_counts p (bx_tiers B) (bx_ledger B) h ≠ inl e) →
  concerned (bx_tiers B) (bx_ledger B) p h = true.
Proof.
  intros d Hb Ha Hne. unfold concerned, holder_counts in *. rewrite (bg_prepared _ _ _ Hb) in *.
  change (pd_question d) with q in *. unfold affects in Ha. destruct (q_mode q) eqn:Hm; [done| | |].
  - destruct Ha as (k & Hk & Hpos). case_bool_decide as Hz; [|done]. exfalso.
    pose proof (f_equal (lookup k) Hz) as Hl. rewrite map_lookup_imap, lookup_empty in Hl.
    rewrite (bg_short _ _ _ Hb) in Hl. change (pd_question d) with q in Hl.
    rewrite Hm, bool_decide_eq_true_2 in Hl by done. destruct Hk as [a Ha]. rewrite Ha in Hl. simpl in Hl.
    unfold holds in Hpos. destruct (holder_tokens h (bx_ledger B) !! k) as [[|n]|]; simpl in *; [lia|done|lia].
  - by rewrite Ha.
  - destruct Ha as (t & a & cpu & -> & -> & Hc1 & Hc2). rewrite (bg_wanted _ _ _ Hb Hm).
    change (pd_question d) with q. case_bool_decide as Hz; [|done]. exfalso.
    assert (cpu ∈ (list_to_set (default [] (q_held_cpus q)) ∩ list_to_set (preferred a ++ fallback a) : gset Z)) as Hin
      by (by rewrite elem_of_intersection, !elem_of_list_to_set).
    rewrite Hz in Hin. by apply elem_of_empty in Hin.
Qed.

Lemma observe_no_error claim tiers L hs p p1 h :
  observe_holders claim tiers L hs p = Go p1 → h ∈ hs → ∀ e, holder_counts p tiers L h ≠ inl e.
Proof.
  revert p. induction hs as [|x hs IH]; intros p Ho Hin e; [by apply elem_of_nil in Hin|].
  cbn [observe_holders] in Ho. apply elem_of_cons in Hin as [->|Hin].
  - intros He. by rewrite He in Ho.
  - destruct (holder_counts p tiers L x) as [e'|[c|]]; [done| |by eapply IH].
    pose proof (add_holder_spec p (holder_bound claim (pd_now (p_prepared p)) x) c) as Hs.
    destruct (add_holder p _ c) as [p'|o]; [|done]. destruct Hs as [Hg _].
    rewrite <- (holder_counts_grown claim tiers L p p') by done. by eapply IH.
Qed.

(** ** One pass *)

(** What a withholding pass went through. *)
Lemma observe_withheld q B prior now host :
  let d := prepare_drain q prior now host in
  withheld (_observe_drain q B prior now host) = true →
  ∃ p p1, Begun d (available (bx_ledger B)) p
    ∧ observe_holders (bx_claim B) (bx_tiers B) (bx_ledger B) (held_keys (bx_ledger B)) p = Go p1
    ∧ Grown p p1 ∧ Grounds p1
    ∧ (pd_wait d = true → q_unmeasured q = true → ∃ u, p_unmeasured_until p = Some u ∧ now < u).
Proof.
  intros d. unfold _observe_drain. destruct (bx_free_error B); [by rewrite failed_quiet|].
  pose proof (begin_drain_spec d (available (bx_ledger B)) (bx_gpu B)) as Hb. fold d.
  destruct (begin_drain d _ _) as [p|o]; [|by destruct Hb as [-> _]].
  destruct (bx_census_error B); [by rewrite failed_quiet|].
  pose proof (observe_holders_spec (bx_claim B) (bx_tiers B) (bx_ledger B) (held_keys (bx_ledger B)) p) as Ho.
  destruct (observe_holders _ _ _ _ p) as [p1|o] eqn:Hobs; [|by destruct Ho as [-> _]]. intros Hw.
  destruct (finish_drain_spec p1) as (p2 & Hf & _ & Hfin).
  { unfold quiet. rewrite (gr_verdict _ _ Ho). apply Hb. }
  { rewrite (gr_verdict _ _ Ho). apply Hb. }
  destruct Hfin as [Heq|[e Heq]]; rewrite Heq in Hw; [|by rewrite failed_quiet in Hw].
  destruct (complete_withheld _ Hw) as [Ht Hu]. exists p, p1. split_and!; [done..|by apply (fi_grounds _ _ Hf)|].
  rewrite (fi_prepared _ _ Hf), (gr_prepared _ _ Ho), (bg_prepared _ _ _ Hb), (fi_unmeasured _ _ Hf),
    (gr_unmeasured _ _ Ho) in Hu. apply Hu.
Qed.

(** A withholding verdict says it is eligible, and in which mode it drains. *)
Lemma observe_says q B prior now host v n :
  _observe_drain q B prior now host = DrainAssessment v n →
  v !! "withhold" = Some (VBool true) →
  v !! "eligible" = Some (VBool true) ∧ v !! "mode" = Some (VMode (q_mode q)).
Proof.
  intros Ho Hv. assert (withheld (_observe_drain q B prior now host) = true) as Hw by (rewrite Ho; simpl; by rewrite Hv).
  revert Ho Hw. unfold _observe_drain. set (d := prepare_drain q prior now host).
  destruct (bx_free_error B); [by rewrite failed_quiet|].
  pose proof (begin_drain_spec d (available (bx_ledger B)) (bx_gpu B)) as Hb.
  destruct (begin_drain d _ _) as [p|o]; [|by destruct Hb as [-> _]].
  destruct (bx_census_error B); [by rewrite failed_quiet|].
  pose proof (observe_holders_spec (bx_claim B) (bx_tiers B) (bx_ledger B) (held_keys (bx_ledger B)) p) as Hob.
  destruct (observe_holders _ _ _ _ p) as [p1|o]; [|by destruct Hob as [-> _]].
  destruct (finish_drain_spec p1) as (p2 & Hf & _ & Hfin).
  { unfold quiet. rewrite (gr_verdict _ _ Hob). apply Hb. }
  { rewrite (gr_verdict _ _ Hob). apply Hb. }
  intros Ho Hw. destruct Hfin as [Heq|[e Heq]]; rewrite Heq in Ho, Hw; [|by rewrite failed_quiet in Hw].
  unfold _complete in Ho. injection Ho as <- _.
  assert (p_verdict p2 !! "eligible" = Some (VBool true)) as He
    by (rewrite (fi_eligible _ _ Hf), (gr_verdict _ _ Hob); apply Hb).
  assert (p_verdict p2 !! "mode" = Some (VMode (q_mode q))) as Hm
    by (rewrite (fi_mode _ _ Hf), (gr_verdict _ _ Hob); apply (bg_mode _ _ _ Hb)).
  destruct (_ && _); [|done]. by rewrite !unmeasured_verdict_other by set_solver.
Qed.

Lemma shortage_lookup need av k a :
  need !! k = Some a →
  shortage_of need av !! k
  = let have := Z.of_nat (default 0%nat (av !! k)) in if bool_decide (have < a) then Some (a - have) else None.
Proof. intros Hn. unfold shortage_of. by rewrite map_lookup_imap, Hn. Qed.

Lemma holds_nonneg L k h : 0 ≤ holds L k h.
Proof. unfold holds. lia. Qed.

(** A token drain that fits: what is free and what the leaving holders hold
    cover the row's need of every kind. *)
Lemma fits_covers q B prior now host p p1 :
  let d := prepare_drain q prior now host in
  let L := bx_ledger B in
  Begun d (available L) p → Grown p p1 → q_mode q = Tokens →
  observe_holders (bx_claim B) (bx_tiers B) L (held_keys L) p = Go p1 → fits p1 = true →
  ∀ k a, q_need q !! k = Some a →
    a ≤ Z.of_nat (default 0%nat (available L !! k))
        + sumZ (holds L k) (filter (λ h, drains (pd_age d) (holder_bound (bx_claim B) now h) = true) (held_keys L)).
Proof.
  intros d L Hb Hg Hm Ho Hf k a Hk.
  pose proof (sumZ_nonneg (holds L k)
    (filter (λ h, drains (pd_age d) (holder_bound (bx_claim B) now h) = true) (held_keys L))
    ltac:(intros; apply holds_nonneg)).
  destruct (decide (a ≤ Z.of_nat (default 0%nat (available L !! k)))) as [?|Hlt]; [lia|].
  assert (p_short p !! k = Some (a - Z.of_nat (default 0%nat (available L !! k)))) as Hs.
  { rewrite (bg_short _ _ _ Hb). change (pd_question d) with q. rewrite Hm, bool_decide_eq_true_2 by done.
    rewrite (shortage_lookup _ _ _ _ Hk). cbv zeta. rewrite bool_decide_eq_true_2; [done|lia]. }
  destruct (observe_gathers _ _ _ _ _ _ Ho) as (_ & _ & _ & Hcov).
  rewrite (bg_prepared _ _ _ Hb) in Hcov. specialize (Hcov Hm k ltac:(by rewrite Hs)).
  unfold fits in Hf. rewrite (gr_prepared _ _ Hg), (bg_prepared _ _ _ Hb) in Hf. change (pd_question d) with q in Hf.
  rewrite Hm, bool_decide_eq_true, (gr_short _ _ Hg) in Hf. specialize (Hf k _ Hs). cbv beta in Hf.
  rewrite Hcov, (bg_covered _ _ _ Hb), lookup_fmap, Hs in Hf. simpl in Hf.
  unfold leaving, bound_of in Hf. rewrite (bg_prepared _ _ _ Hb) in Hf. change (pd_now d) with now in Hf. lia.
Qed.

(** The holders in the way, in any other mode. *)
Lemma fits_leaves q B prior now host p p1 :
  let d := prepare_drain q prior now host in
  let L := bx_ledger B in
  Begun d (available L) p → Grown p p1 →
  observe_holders (bx_claim B) (bx_tiers B) L (held_keys L) p = Go p1 → p_in_way p1 = [] →
  ∀ h, h ∈ held_keys L → affects q B h → drains (pd_age d) (holder_bound (bx_claim B) now h) = true.
Proof.
  intros d L Hb Hg Ho Hw h Hin Ha. destruct (observe_gathers _ _ _ _ _ _ Ho) as (_ & _ & Hway & _).
  rewrite (proj1 (bg_lists _ _ _ Hb)), app_nil_l, Hw in Hway. symmetry in Hway. apply fmap_nil_inv in Hway.
  pose proof (concerned_affects q B prior now host p h Hb Ha (observe_no_error _ _ _ _ _ _ _ Ho Hin)) as Hc.
  destruct (drains _ _) eqn:Hd; [done|]. exfalso.
  assert (h ∈ filter (λ h, concerned (bx_tiers B) L p h = true ∧ leaving (bx_claim B) p h = false) (held_keys L)) as Hf.
  { apply list_elem_of_filter. split; [|done]. split; [done|]. unfold leaving, bound_of.
    by rewrite (bg_prepared _ _ _ Hb). }
  rewrite Hway in Hf. by apply elem_of_nil in Hf.
Qed.

Lemma no_holder_affects q B prior now host p p1 :
  let d := prepare_drain q prior now host in
  let L := bx_ledger B in
  Begun d (available L) p →
  observe_holders (bx_claim B) (bx_tiers B) L (held_keys L) p = Go p1 →
  p_draining p1 = [] → p_in_way p1 = [] → ∀ h, h ∈ held_keys L → ¬ affects q B h.
Proof.
  intros d L Hb Ho Hd Hw h Hin Ha. destruct (observe_gathers _ _ _ _ _ _ Ho) as (_ & Hdr & Hway & _).
  destruct (bg_lists _ _ _ Hb) as (E1 & _ & E2).
  rewrite E2, app_nil_l, Hd in Hdr. rewrite E1, app_nil_l, Hw in Hway. symmetry in Hdr, Hway.
  apply fmap_nil_inv in Hdr, Hway.
  pose proof (concerned_affects q B prior now host p h Hb Ha (observe_no_error _ _ _ _ _ _ _ Ho Hin)) as Hc.
  destruct (leaving (bx_claim B) p h) eqn:Hl.
  - assert (h ∈ filter (λ h, concerned (bx_tiers B) L p h = true ∧ leaving (bx_claim B) p h = true) (held_keys L)) as Hf
      by (by apply list_elem_of_filter). rewrite Hdr in Hf. by apply elem_of_nil in Hf.
  - assert (h ∈ filter (λ h, concerned (bx_tiers B) L p h = true ∧ leaving (bx_claim B) p h = false) (held_keys L)) as Hf
      by (by apply list_elem_of_filter). rewrite Hway in Hf. by apply elem_of_nil in Hf.
Qed.

Lemma observe_begins q B prior now host :
  withheld (_observe_drain q B prior now host) = true →
  ∃ p, begin_drain (prepare_drain q prior now host) (available (bx_ledger B)) (bx_gpu B) = Go p.
Proof.
  unfold _observe_drain. set (d := prepare_drain q prior now host). destruct (bx_free_error B); [by rewrite failed_quiet|].
  pose proof (begin_drain_spec d (available (bx_ledger B)) (bx_gpu B)) as Hb.
  destruct (begin_drain d _ _) as [p|o]; [by exists p|]. by destruct Hb as [-> _].
Qed.

(** A holder the census counted is in the way. *)
Lemma affects_concerned q B prior now host p h :
  let d := prepare_drain q prior now host in
  Begun d (available (bx_ledger B)) p → concerned (bx_tiers B) (bx_ledger B) p h = true → affects q B h.
Proof.
  intros d Hb. unfold concerned, holder_counts, affects. rewrite (bg_prepared _ _ _ Hb). change (pd_question d) with q.
  destruct (q_mode q) eqn:Hm; [done| | |].
  - case_bool_decide as Hz; [done|]. intros _. apply map_choose in Hz as (k & v & Hk). rewrite map_lookup_imap in Hk.
    rewrite (bg_short _ _ _ Hb) in Hk. change (pd_question d) with q in Hk. rewrite Hm, bool_decide_eq_true_2 in Hk by done.
    exists k. destruct (shortage_of _ _ !! k); [|done]. split; [done|]. cbn in Hk. unfold holds.
    destruct (holder_tokens h (bx_ledger B) !! k) as [[|n]|]; [done|cbn; lia|done].
  - by destruct (holds_gpu h (bx_ledger B)).
  - destruct (bx_tiers B) as [t|]; [|done]. destruct (cpu_allocation h t (bx_ledger B)) as [al|] eqn:Hal; [|done].
    case_bool_decide as Hz; [done|]. intros _. rewrite (bg_wanted _ _ _ Hb Hm) in Hz. change (pd_question d) with q in Hz.
    apply set_choose_L in Hz as [cpu Hc]. rewrite elem_of_intersection, !elem_of_list_to_set in Hc.
    exists t, al, cpu. tauto.
Qed.

(** Where the census counted a holder, one is in the way; where it counted
    one that leaves, it is one of them. *)
Lemma census_holder q B prior now host p p1 :
  let d := prepare_drain q prior now host in
  Begun d (available (bx_ledger B)) p →
  observe_holders (bx_claim B) (bx_tiers B) (bx_ledger B) (held_keys (bx_ledger B)) p = Go p1 →
  p_bounds p1 ≠ [] ∨ p_draining p1 ≠ [] ∨ p_in_way p1 ≠ [] → ∃ h, h ∈ held_keys (bx_ledger B) ∧ affects q B h.
Proof.
  intros d Hb Ho Hne. destruct (observe_gathers _ _ _ _ _ _ Ho) as (Hbo & Hdr & Hway & _).
  destruct (bg_lists _ _ _ Hb) as (E1 & E2 & E3). rewrite E2, app_nil_l in Hbo. rewrite E3, app_nil_l in Hdr. rewrite E1, app_nil_l in Hway.
  assert (∃ h, h ∈ held_keys (bx_ledger B) ∧ concerned (bx_tiers B) (bx_ledger B) p h = true) as (h & Hin & Hc); cycle 1.
  { exists h. split; [done|]. by eapply affects_concerned. }
  destruct Hne as [Hne|[Hne|Hne]];
    [rewrite Hbo in Hne|rewrite Hdr in Hne|rewrite Hway in Hne];
    (match type of Hne with _ <$> ?l0 ≠ [] => destruct l0 as [|h l] eqn:El; [done|] end);
    exists h; (match type of El with filter ?P ?l0 = _ => assert (h ∈ filter P l0) as Hf by (rewrite El; by left) end);
    apply list_elem_of_filter in Hf; tauto.
Qed.

Lemma leaving_counted q B prior now host p p1 h :
  let d := prepare_drain q prior now host in
  Begun d (available (bx_ledger B)) p →
  observe_holders (bx_claim B) (bx_tiers B) (bx_ledger B) (held_keys (bx_ledger B)) p = Go p1 →
  h ∈ held_keys (bx_ledger B) → affects q B h → drains (pd_age d) (holder_bound (bx_claim B) now h) = true →
  holder_bound (bx_claim B) now h ∈ p_draining p1.
Proof.
  intros d Hb Ho Hin Ha Hl. destruct (observe_gathers _ _ _ _ _ _ Ho) as (_ & -> & _).
  rewrite (proj2 (proj2 (bg_lists _ _ _ Hb))), app_nil_l. apply list_elem_of_fmap. exists h.
  unfold bound_of. rewrite (bg_prepared _ _ _ Hb). split; [done|]. apply list_elem_of_filter. split; [|done].
  split; [eapply concerned_affects; [done|done|by eapply observe_no_error]|]. unfold leaving, bound_of. by rewrite (bg_prepared _ _ _ Hb).
Qed.

(** An episode that did not expire was not refilled for longer than the ceiling. *)
Lemma open_episode now e x draining ep rf :
  next_episode now (Some e) x draining = (ep, None, rf) →
  ∀ b c, b ∈ draining → b_claimed b = Some c → e < c →
    (x = None → now - e ≤ WITHHOLD_CEILING) ∧ ∀ x', x = Some x' → x' ≤ c.
Proof.
  unfold next_episode. cbn [default]. set (rs := filter _ draining). intros Hn b c Hb Hc Hlt.
  assert ((∀ x', x = Some x' → c < x') → b ∈ rs) as Hin.
  { intros Hx. apply list_elem_of_filter. split; [|done]. unfold refill. cbn [id]. rewrite Hc, bool_decide_eq_true_2 by done.
    cbn [andb]. destruct x as [x'|]; [|done]. rewrite bool_decide_eq_true_2; [done|by apply Hx]. }
  destruct x as [x'|].
  - split; [done|]. intros ? [= <-]. destruct (decide (c < x')); [|lia]. exfalso.
    assert (b ∈ rs) as Hb' by (apply Hin; by intros ? [= <-]). case_bool_decide as He; [|done].
    rewrite He in Hb'. by apply elem_of_nil in Hb'.
  - split; [|done]. intros _. assert (b ∈ rs) as Hb' by (by apply Hin).
    rewrite (bool_decide_eq_false_2 (rs = [])) in Hn by (intros He; rewrite He in Hb'; by apply elem_of_nil in Hb').
    cbn [negb andb] in Hn. case_bool_decide as Hx; [done|]. change (id e) with e in Hx. lia.
Qed.

(** What eligibility and clearance mean. *)
Lemma earned_of d L gs : eligible_of d (available L) gs = true →
  pd_wait d = true ∨ STARVATION_FLOOR ≤ pd_passes d + 1
  ∨ (q_mode (pd_question d) ≠ Gpu ∧ gpu_need d ≠ 0 ∧ gpu_need d ≤ Z.of_nat (default 0%nat (available L !! "gpu"))
     ∧ ∀ s, gs = Some s → gpu_clear_of (pd_now d) s = true).
Proof.
  unfold eligible_of, gpu_first. rewrite !orb_true_iff, !andb_true_iff, !negb_true_iff, !bool_decide_eq_true, !bool_decide_eq_false.
  intros [[?|?]|(((Hm & Hn) & Hle) & Hc)]; [by left|by right; left|]. right; right. split_and!; [done..|]. intros s ->.
  unfold gpu_facts in Hc. rewrite bool_decide_eq_false_2 in Hc by done. cbn in Hc. by destruct (gpu_clear_of (pd_now d) s).
Qed.

Lemma cleared_of d gs : clear_foreign d gs = true →
  pd_wait d = true ∧ q_foreign_clear (pd_question d) = true
  ∧ (gpu_need d ≠ 0 → ∃ s, gs = Some s ∧ gpu_clear_of (pd_now d) s = true ∧ gs_declared s = true).
Proof.
  unfold clear_foreign. rewrite !andb_true_iff, orb_true_iff, bool_decide_eq_true. intros [[[Hw Hq] Hg] _]. split_and!; [done..|].
  intros Hne. destruct Hg as [?|Hg]; [done|]. unfold gpu_facts in Hg. rewrite bool_decide_eq_false_2 in Hg by done.
  destruct gs as [s|]; [|done]. exists s. apply andb_true_iff in Hg. tauto.
Qed.

(** * Properties *)


(** A box with one free CPU and two on a job claimed 100 s ago, and a row
    denied twice that wants three. *)
Definition demo_ledger : Ledger :=
  mkLedger {[ "cpu-0000" ]} {[ "job" := mkHolder {[ "cpu-0001"; "cpu-0002" ]} None None ]}
    {[ "cpu-0000"; "cpu-0001"; "cpu-0002" ]} ∅ None None.
Definition demo_claim (claimed : Z) (h : string) : ClaimRead :=
  if bool_decide (h = "job") then Claimed claimed (Some ("deadline", None)) else No_claim.
Definition demo_box (claimed : Z) : Box := mkBox demo_ledger (demo_claim claimed) None None None None.
Definition demo_question : DrainQuestion :=
  mkQuestion "row" {[ "cpu" := 3 ]} Tokens false false None false false None false false.
Definition demo_prior : Prior := mkPrior (Some 2) (Some (seconds 50)) ∅ ∅.

Example demo_withholds :
  withheld (_observe_drain demo_question (demo_box (seconds 100)) demo_prior (seconds 200) "host") = true.
Proof. by vm_compute. Qed.


(** ** What the record keeps *)

Lemma note_fields_lookup names changes prior name :
  note_fields names changes prior !! name
  = if decide (name ∈ names) then Num <$> noted changes prior name else None.
Proof.
  unfold note_fields.
  set (f := λ (m : Clocks) name, match noted changes prior name with Some z => <[name := Num z]> m | None => m end).
  assert (∀ m, foldl f m names !! name
    = if decide (name ∈ names) then match noted changes prior name with Some z => Some (Num z) | None => m !! name end
      else m !! name) as H.
  { induction names as [|n names IH]; intros m; cbn [foldl].
    { rewrite decide_False; [done|apply not_elem_of_nil]. }
    rewrite IH. unfold f. destruct (decide (name = n)) as [->|Hne].
    - rewrite (decide_True (P := n ∈ n :: names)) by (by left).
      destruct (noted changes prior n) eqn:Hn; [rewrite lookup_insert_eq|]; by destruct (decide _).
    - rewrite (decide_ext (name ∈ n :: names) (name ∈ names)) by (rewrite elem_of_cons; tauto).
      assert (match noted changes prior n with Some z => <[n := Num z]> m | None => m end !! name = m !! name) as ->.
      { destruct (noted changes prior n); [|done]. by rewrite lookup_insert_ne. }
      done. }
  rewrite H, lookup_empty. destruct (decide _); [|done]. by destruct (noted changes prior name).
Qed.

(** The outcomes of successive passes over one row; a record that cannot be
    written leaves the earlier one. *)
Fixpoint run_passes (q : DrainQuestion) (host : string) (ts : list (Z * Box)) (prior : Prior)
  : list (Z * Outcome) :=
  match ts with
  | [] => []
  | t :: ts' =>
      let '(o, prior') := drain_pass q host t prior in
      (fst t, o) :: run_passes q host ts' (default prior prior')
  end.

(** The pass got as far as its episode, and some draining holder was claimed
    inside it. *)
Definition refilled (o : Outcome) : bool :=
  match o with
  | DrainAssessment v _ => match v !! "refills" with Some (VNames (_ :: _)) => true | _ => false end
  | DrainFailure _ _ => false
  end.

Lemma refilled_refills_of o : refilled o = true → ∃ k ks, refills_of o = Some (VNames (k :: ks)).
Proof. destruct o as [v n|]; [|done]. simpl. destruct (v !! "refills") as [[| | | | | | |[|k ks]|]|]; naive_solver. Qed.

(** A pass that reports a refill: the episode it read, and what it notes. *)
Lemma observe_refilled q B prior now host :
  q_measurement q = false →
  let o := _observe_drain q B prior now host in
  refilled o = true →
  ∃ draining epoch expired refills changes,
    next_episode now (finite_field (pr_clocks prior !! "epoch_unix"))
      (finite_field (pr_clocks prior !! "expired_unix")) draining = (epoch, expired, refills)
    ∧ refills ≠ [] ∧ (withheld o = true → expired = None)
    ∧ outcome_notes o = Some (OrdinaryNotes changes)
    ∧ changes !! "epoch_unix" = Some (Some epoch) ∧ changes !! "expired_unix" = Some expired.
Proof.
  intros Hq o Hr. apply refilled_refills_of in Hr as (k & ks & Hr). unfold o, _observe_drain in *. clear o.
  set (d := prepare_drain q prior now host) in *.
  assert (pd_wait d = false) as Hwait by (unfold d, prepare_drain; simpl; by rewrite Hq).
  assert (pd_clocks d = pr_clocks prior) as Hcl by (unfold d, prepare_drain; simpl; by rewrite Hq).
  destruct (bx_free_error B); [by rewrite failed_no_refills in Hr|].
  pose proof (begin_drain_spec d (available (bx_ledger B)) (bx_gpu B)) as Hb.
  destruct (begin_drain d _ _) as [p|o]; [|destruct Hb as (_ & Hb & _); congruence].
  destruct (bx_census_error B); [rewrite failed_no_refills in Hr; [done|apply Hb]|].
  pose proof (observe_holders_spec (bx_claim B) (bx_tiers B) (bx_ledger B) (held_keys (bx_ledger B)) p) as Ho.
  destruct (observe_holders _ _ _ _ p) as [p1|o];
    [|destruct Ho as (_ & _ & Ho); rewrite Ho in Hr; [done|apply Hb]].
  destruct (finish_drain_spec p1) as (p2 & Hf & Hn & Hfin).
  { unfold quiet. rewrite (gr_verdict _ _ Ho). apply Hb. }
  { rewrite (gr_verdict _ _ Ho). apply Hb. }
  assert (p_verdict p2 !! "refills" = Some (VNames (k :: ks))) as Hv.
  { destruct Hfin as [Heq|[e Heq]]; rewrite Heq in Hr; [by rewrite complete_refills in Hr|by apply failed_refills in Hr]. }
  destruct (fi_episode _ _ Hf ltac:(by rewrite Hv)) as (ep & ex & rf & Hre & Hnm & Hwh & Hne & Hnx).
  assert (p_prepared p2 = d) as Hd by (rewrite (fi_prepared _ _ Hf), (gr_prepared _ _ Ho); apply Hb).
  unfold read_episode in Hre. rewrite <- (fi_prepared _ _ Hf), Hd, Hcl in Hre. change (pd_now d) with now in Hre.
  exists (p_draining p1), ep, ex, rf, (p_notes p2). split_and!; [done| | | |done|done].
  - intros ->. rewrite Hv in Hnm. done.
  - intros Hwt. apply Hwh. destruct Hfin as [Heq|[e Heq]]; rewrite Heq in Hwt; [|by rewrite failed_quiet in Hwt].
    by apply complete_withheld in Hwt as [? _].
  - rewrite Hn. unfold completed_notes. rewrite Hd, Hwait. rewrite bool_decide_eq_false_2; [done|].
    intros Hem. rewrite Hem, lookup_empty in Hne. done.
Qed.

Lemma record_pass_ordinary now changes prior prior' name v :
  record_pass now (Some (OrdinaryNotes changes)) prior = Some prior' →
  name ∈ DRAIN_NOTE_FIELDS → changes !! name = Some v → pr_clocks prior' !! name = Num <$> v.
Proof.
  unfold record_pass, ordinary_note_fields. destruct (existsb _ _); [done|]. simpl default.
  destruct (measurement_note_fields _ _); [|done]. intros [= <-] Hin Hc. simpl pr_clocks.
  rewrite note_fields_lookup, decide_True by done. unfold noted. by rewrite Hc.
Qed.

Lemma next_episode_refilled now epoch expired0 draining ep ex rf :
  next_episode now (Some epoch) expired0 draining = (ep, ex, rf) → rf ≠ [] →
  ep = epoch ∧ (ex = None → now - epoch ≤ WITHHOLD_CEILING).
Proof.
  unfold next_episode. simpl default. set (refills := filter _ draining). destruct expired0 as [x|].
  - case_bool_decide as Hr; intros [= <- <- <-] Hne; [by destruct Hne|done].
  - destruct (negb _ && _) eqn:Hc; intros [= <- <- <-] Hne; [done|]. split; [done|]. intros _.
    rewrite andb_false_iff, negb_false_iff, bool_decide_eq_true, bool_decide_eq_false in Hc.
    destruct Hc; [done|lia].
Qed.

(** A stream of rows that refills the box cannot starve the rest: while
    every pass finds a holder claimed inside the drain's episode, no pass
    withholds past the ceiling counted from the episode's start, however the
    holders and the other records change between passes. *)
Theorem refilled_veto_expires q host ts prior epoch :
  q_measurement q = false → pr_clocks prior !! "epoch_unix" = Some (Num epoch) →
  Forall (λ r, refilled r.2 = true) (run_passes q host ts prior) →
  Forall (λ r, withheld r.2 = true → r.1 - epoch ≤ WITHHOLD_CEILING) (run_passes q host ts prior).
Proof.
  intros Hq. revert prior. induction ts as [|[now B] ts IH]; intros prior Hep; [constructor|].
  cbn [run_passes]. unfold drain_pass. cbn [fst snd]. intros [Hr Hrest]%Forall_cons. simpl in Hr.
  destruct (observe_refilled q B prior now host Hq Hr) as (dr & ep & ex & rf & ch & Hne & Hrf & Hwh & Hn & He & _).
  rewrite Hep in Hne. simpl finite_field in Hne at 1.
  destruct (next_episode_refilled _ _ _ _ _ _ _ Hne Hrf) as [-> Hb]. constructor; [by simpl; auto|].
  apply IH; [|done]. rewrite Hn in *.
  destruct (record_pass now (Some (OrdinaryNotes ch)) prior) as [prior'|] eqn:Hrec; simpl; [|done].
  rewrite (record_pass_ordinary _ _ _ _ "epoch_unix" _ Hrec ltac:(unfold DRAIN_NOTE_FIELDS; set_solver) He). done.
Qed.

Definition demo_episode : Prior := mkPrior (Some 5) (Some (seconds 50)) {[ "epoch_unix" := Num (seconds 100) ]} ∅.
Definition demo_passes : list (Z * Box) :=
  [(seconds 200, demo_box (seconds 150)); (seconds 990, demo_box (seconds 150));
   (seconds 1050, demo_box (seconds 151))].

Example demo_veto :
  map (λ r, withheld r.2) (run_passes demo_question "host" demo_passes demo_episode) = [true; true; false].
Proof. by vm_compute. Qed.

Lemma refilled_veto_expires_witness :
  Forall (λ r, withheld r.2 = true → r.1 - seconds 100 ≤ WITHHOLD_CEILING)
    (run_passes demo_question "host" demo_passes demo_episode).
Proof.
  apply (refilled_veto_expires demo_question "host" demo_passes demo_episode (seconds 100));
    [done|by vm_compute|].
  apply Forall_forall. intros r Hr.
  assert (forallb (λ r, refilled r.2) (run_passes demo_question "host" demo_passes demo_episode) = true) as Hall
    by (by vm_compute).
  rewrite forallb_forall in Hall. apply Hall. by apply list_elem_of_In.
Defined.

(** ** A measurement's deadlines *)

(** The clock [name] of this host's episode for this submission. *)
Definition on_file (prior : Prior) (host : string) (generation : option string) (name : string) (z : Z) : Prop :=
  ∃ e, pr_episodes prior !! host = Some e ∧ ep_generation e = generation ∧ ep_clocks e !! name = Some (Num z).

Definition waits_for_measurement (q : DrainQuestion) : Prop :=
  q_measurement q = true ∧ (q_mode q = Exclusive ∨ q_mode q = Tokens).

Lemma prepare_waits q prior now host : waits_for_measurement q → pd_wait (prepare_drain q prior now host) = true.
Proof. intros [Hm Hmode]. unfold prepare_drain. simpl. rewrite Hm. by destruct Hmode as [-> | ->]. Qed.

Lemma prepare_on_file q prior now host name z :
  waits_for_measurement q →
  pd_clocks (prepare_drain q prior now host) !! name = Some (Num z) ↔ on_file prior host (q_generation q) name z.
Proof.
  intros Hw. pose proof (prepare_waits q prior now host Hw) as Hp. unfold prepare_drain in *.
  cbn [pd_wait pd_clocks] in *. rewrite Hp. cbv iota. clear Hp. unfold on_file.
  destruct (pr_episodes prior !! host) as [e|]; [|rewrite lookup_empty; split; [done|by intros (e & ? & _)]].
  case_bool_decide as Hg; [|rewrite lookup_empty]; split.
  - intros Hz. by exists e.
  - by intros (e' & [= <-] & _ & ?).
  - done.
  - by intros (e' & [= <-] & ? & _).
Qed.

(** The notes a measurement's pass may leave, against the clocks it read. *)
Definition lawful (d : PreparedDrain) (n : option Notes) : Prop :=
  match n with
  | None => True
  | Some (OrdinaryNotes _) => False
  | Some (MeasurementNotes h g c) =>
      h = pd_host d ∧ g = q_generation (pd_question d)
      ∧ (∀ u, pd_clocks d !! "measurement_until_unix" = Some (Num u) →
           c !! "measurement_until_unix" = None ∨ c !! "measurement_until_unix" = Some (Some u))
      ∧ (∀ v, pd_clocks d !! "unmeasured_until_unix" = Some (Num v) → c !! "unmeasured_until_unix" = None)
  end.

Lemma completed_lawful d p :
  p_prepared p = d → pd_wait d = true →
  (∀ u, pd_clocks d !! "measurement_until_unix" = Some (Num u) →
     p_notes p !! "measurement_until_unix" = None ∨ p_notes p !! "measurement_until_unix" = Some (Some u)) →
  (∀ v, pd_clocks d !! "unmeasured_until_unix" = Some (Num v) → p_notes p !! "unmeasured_until_unix" = None) →
  lawful d (completed_notes p).
Proof. intros Hp Hw H1 H2. unfold completed_notes. rewrite Hp, Hw. by case_bool_decide. Qed.

Lemma observe_lawful q B prior now host :
  waits_for_measurement q →
  lawful (prepare_drain q prior now host) (outcome_notes (_observe_drain q B prior now host)).
Proof.
  intros Hq. pose proof (prepare_waits q prior now host Hq) as Hw. unfold _observe_drain.
  set (d := prepare_drain q prior now host) in *.
  destruct (bx_free_error B).
  { rewrite failed_notes. by apply completed_lawful; [done|done|left|]. }
  pose proof (begin_drain_spec d (available (bx_ledger B)) (bx_gpu B)) as Hb.
  destruct (begin_drain d _ _) as [p|o].
  2: { destruct Hb as (_ & _ & p & (Hp & _ & Hn & Hv & _) & ->). apply completed_lawful; [done|done|by left|done]. }
  assert (lawful d (completed_notes p)) as Hlp.
  { apply completed_lawful; [apply Hb|done|left; apply Hb|apply Hb]. }
  destruct (bx_census_error B); [by rewrite failed_notes|].
  pose proof (observe_holders_spec (bx_claim B) (bx_tiers B) (bx_ledger B) (held_keys (bx_ledger B)) p) as Ho.
  destruct (observe_holders _ _ _ _ p) as [p1|o]; [|by destruct Ho as (_ & -> & _)].
  destruct (finish_drain_spec p1) as (p2 & Hf & -> & _).
  { unfold quiet. rewrite (gr_verdict _ _ Ho). apply Hb. }
  { rewrite (gr_verdict _ _ Ho). apply Hb. }
  apply completed_lawful; [rewrite (fi_prepared _ _ Hf), (gr_prepared _ _ Ho); apply Hb|done| |].
  - intros u Hu. destruct (fi_until _ _ Hf) as [-> | ->].
    + left. rewrite (gr_notes _ _ Ho). apply Hb.
    + right. unfold wait_until. by rewrite (gr_until _ _ Ho), (bg_until _ _ _ Hb), Hu.
  - intros v Hv. rewrite (fi_unmeasured_note _ _ Hf), (gr_notes _ _ Ho). by apply (bg_note_unmeasured _ _ _ Hb v).
Qed.

(** Recording the pass keeps both deadlines. *)
Lemma record_pass_keeps q prior prior' now host n name z :
  waits_for_measurement q → lawful (prepare_drain q prior now host) n →
  name = "measurement_until_unix" ∨ name = "unmeasured_until_unix" →
  record_pass now n prior = Some prior' →
  on_file prior host (q_generation q) name z → on_file prior' host (q_generation q) name z.
Proof.
  intros Hq Hl Hname. unfold record_pass.
  destruct (ordinary_note_fields _ _) as [clocks|]; [|done].
  destruct n as [[c|h g c]|]; [done| |intros [= <-]; done].
  intros Hr Hf. pose proof (prepare_on_file q prior now host name z Hq) as Hon.
  destruct Hl as (-> & -> & Hu & Hv).
  change (pd_host (prepare_drain q prior now host)) with host in Hr.
  change (pd_question (prepare_drain q prior now host)) with q in Hr.
  destruct Hf as (e & He & Hg & Hz). unfold measurement_note_fields in Hr. rewrite He in Hr.
  rewrite (bool_decide_eq_true_2 (ep_generation e = q_generation q)) in Hr by done. cbv zeta in Hr.
  destruct (existsb _ _); [done|]. injection Hr as <-.
  eexists. cbn [pr_episodes]. rewrite lookup_insert_eq. split; [done|]. split; [done|]. cbn [ep_clocks].
  assert (pd_clocks (prepare_drain q prior now host) !! name = Some (Num z)) as Hd by (apply Hon; by exists e).
  destruct Hname as [-> | ->].
  - assert (noted c (ep_clocks e) "measurement_until_unix" = Some z) as Hn.
    { unfold noted. destruct (Hu z Hd) as [-> | ->]; [by rewrite Hz|done]. }
    destruct (_ || _); rewrite ?lookup_insert_ne by discriminate;
      rewrite note_fields_lookup, decide_True, Hn by set_solver; done.
  - rewrite (bool_decide_eq_true_2 (is_Some (ep_clocks e !! "unmeasured_until_unix"))) by (by rewrite Hz).
    rewrite orb_true_r, lookup_insert_eq. unfold noted. by rewrite (Hv z Hd), Hz.
Qed.

Lemma withheld_before q B prior now host :
  waits_for_measurement q → withheld (_observe_drain q B prior now host) = true →
  (∀ u, on_file prior host (q_generation q) "measurement_until_unix" u → now < u)
  ∧ (q_unmeasured q = true → ∀ v, on_file prior host (q_generation q) "unmeasured_until_unix" v → now < v).
Proof.
  intros Hq Hw. pose proof (prepare_waits q prior now host Hq) as Hwait.
  destruct (observe_withheld _ _ _ _ _ Hw) as (p & p1 & Hb & _ & _ & _ & Hun). split.
  - intros u Hu%(prepare_on_file q prior now host _ _ Hq). apply (bg_open _ _ _ Hb Hwait).
    by rewrite (bg_until _ _ _ Hb), Hu.
  - intros Hm v Hv%(prepare_on_file q prior now host _ _ Hq).
    destruct (Hun Hwait Hm) as (u & Hu & Hlt). destruct (bg_unmeasured _ _ _ Hb Hwait Hm) as (u' & Hu' & [Hf|[Hf _]]);
      rewrite Hv in Hf; [|done]. injection Hf as ->. congruence.
Qed.

Lemma wait_until_future p d :
  p_prepared p = d → (∀ u, p_until p = Some u → pd_now d < u) → pd_now d < wait_until p.
Proof.
  intros Hd Hu. unfold wait_until. rewrite Hd. destruct (p_until p) as [u|]; simpl; [by apply Hu|].
  induction (declared_ends _) as [|x l IH]; simpl; [unfold WITHHOLD_CEILING, seconds; lia|lia].
Qed.

(** Every pass that withholds for a measurement's tokens files a deadline. *)
Lemma tokens_deadline_filed q B prior prior' now host :
  q_measurement q = true → q_mode q = Tokens →
  drain_pass q host (now, B) prior = (_observe_drain q B prior now host, Some prior') →
  withheld (_observe_drain q B prior now host) = true →
  ∃ u, on_file prior' host (q_generation q) "measurement_until_unix" u ∧ now < u.
Proof.
  intros Hm Hmode Hp Hw. assert (waits_for_measurement q) as Hq by (split; [done|by right]).
  injection Hp as Hrec. revert Hrec Hw. unfold _observe_drain.
  pose proof (prepare_waits q prior now host Hq) as Hwait. set (d := prepare_drain q prior now host) in *.
  destruct (bx_free_error B); [by rewrite failed_quiet|].
  pose proof (begin_drain_spec d (available (bx_ledger B)) (bx_gpu B)) as Hb.
  destruct (begin_drain d _ _) as [p|o]; [|by destruct Hb as [-> _]].
  destruct (bx_census_error B); [by rewrite failed_quiet|].
  pose proof (observe_holders_spec (bx_claim B) (bx_tiers B) (bx_ledger B) (held_keys (bx_ledger B)) p) as Ho.
  destruct (observe_holders _ _ _ _ p) as [p1|o]; [|by destruct Ho as [-> _]].
  destruct (finish_drain_spec p1) as (p2 & Hf & Hn & _).
  { unfold quiet. rewrite (gr_verdict _ _ Ho). apply Hb. }
  { rewrite (gr_verdict _ _ Ho). apply Hb. }
  assert (p_prepared p1 = d) as Hd1 by (rewrite (gr_prepared _ _ Ho); apply Hb).
  assert (files_deadline p1) as Hfile by (split; rewrite Hd1; [done|right; done]).
  pose proof (fi_filed _ _ Hf Hfile) as Hnote.
  simpl fst. simpl snd. rewrite Hn. intros Hrec _.
  assert (completed_notes p2 = Some (MeasurementNotes host (q_generation q) (p_notes p2))) as Hc.
  { unfold completed_notes. rewrite (fi_prepared _ _ Hf), Hd1, Hwait.
    rewrite bool_decide_eq_false_2; [done|]. intros He. by rewrite He, lookup_empty in Hnote. }
  rewrite Hc in Hrec. exists (wait_until p1). split.
  - unfold record_pass in Hrec. destruct (ordinary_note_fields _ _); [|done].
    unfold measurement_note_fields in Hrec. destruct (existsb _ _); [done|]. injection Hrec as <-.
    eexists. cbn [pr_episodes]. rewrite lookup_insert_eq. split; [done|]. split; [done|]. cbn [ep_clocks].
    destruct (bool_decide (is_Some (p_notes p2 !! "unmeasured_until_unix")) || _);
      rewrite ?lookup_insert_ne by discriminate;
      rewrite note_fields_lookup, decide_True by set_solver; unfold noted; by rewrite Hnote.
  - apply (wait_until_future p1 d Hd1). rewrite (gr_until _ _ Ho). by apply (bg_open _ _ _ Hb).
Qed.


Definition demo_generation : string :=
  "0123456789abcdef0123456789abcdef0123456789abcdef0123456789abcdef".
Definition demo_measurement : DrainQuestion :=
  mkQuestion "row" {[ "cpu" := 3 ]} Tokens false false None false true (Some demo_generation) false false.
Definition demo_waiting : Prior :=
  mkPrior (Some 1) (Some (seconds 50)) ∅
    {[ "host" := mkEpisode (Some demo_generation) {[ "measurement_until_unix" := Num (seconds 1000) ]} ]}.

Example demo_wait :
  map (λ r, withheld r.2) (run_passes demo_measurement "host" demo_passes demo_waiting) = [true; true; false].
Proof. by vm_compute. Qed.

(** The same submission before any pass of this host. *)
Definition demo_new : Prior := mkPrior (Some 1) (Some (seconds 50)) ∅ ∅.

