(* ===== verification/Scan.v ===== *)
(** * One pass over the ready rows: refusals, withholds and kept rooms

    [src/prismabuild/candidate_policy.py]: which refusals a row gets before
    any token is taken, what a refused row holds back from the rows behind it,
    and the room it keeps; with the room check of the claim pass
    ([src/prismabuild/pool.py], "a GPU row ahead of this one").  A mapping of
    whole numbers is a [gmap]; a reservation value that is no number is
    [None]. *)

From S2P Require Import Prelude.
From S2P Require Import TokenName.
From S2P Require Import Ledger.
From S2P Require Import Drain.
From stdpp Require Import options.

Open Scope Z_scope.

(** ** Refusals before placement *)

Definition RESIDENCY_REFUSAL_STATES : list string :=
  ["lead_not_resident"; "lead_unpinned"; "map_not_composed"; "map_stale"; "map_unreadable";
   "plan_unreadable"; "ram_epoch_stale"; "prelaunch_undeclared"; "map_incomplete"].
Definition RESIDENCY_LEAD_UNFINISHED : list string := ["absent"; "ready"; "claimed"].

(** A residency verdict: its state and, when it is a list, the statuses of the
    pending leads ([None] for an entry without one). *)
Record Residency := mkResidency { rv_state : string; rv_pending : option (list (option string)) }.

Definition lead_ended (status : option string) : bool :=
  match status with Some s => negb (bool_decide (s ∈ RESIDENCY_LEAD_UNFINISHED)) | None => false end.

Definition residency_denial (v : Residency) : option string :=
  if bool_decide (rv_state v ∈ RESIDENCY_REFUSAL_STATES) then
    if bool_decide (rv_state v ∈ ["lead_not_resident"; "lead_unpinned"])
       && match rv_pending v with Some (e :: es) => forallb lead_ended (e :: es) | _ => false end
    then Some "residency_lead_terminal"
    else Some ("residency_" +:+ rv_state v)
  else None.

Definition admission_denial (host_demand : gmap string Z) (capacity_present : bool) : option string :=
  if negb capacity_present then Some "admission_capacity_required"
  else if bool_decide (host_demand = ∅) then Some "admission_demand_required" else None.

Definition at_kind (m : gmap string Z) (kind : string) : Z := default 0 (m !! kind).

Definition never_fits (reservation total : gmap string Z) : bool :=
  negb (bool_decide (map_Forall (λ kind need, need ≤ at_kind total kind) reservation)).

(** What a funding producer leaves to reserve: its CPUs and memory are covered. *)
Definition funded_remainder (host_demand : gmap string Z) (cpus : nat) (mem_gb : Z) : gmap string Z :=
  let covered : gmap string Z := <["cpu" := Z.of_nat cpus]> {[ "mem_gb" := mem_gb ]} in
  map_imap (λ kind need,
    let rest := need - at_kind covered kind in if bool_decide (0 < rest) then Some rest else None)
    host_demand.

(** [blocker] is the measurement holder's key; [funded_by] the producer's. *)
Definition unfunded_measurement_blocker (blocker funded_by : option string) (funded : bool) : bool :=
  match blocker with
  | None => false
  | Some b => negb (funded && bool_decide (funded_by = Some b))
  end.

(** ** The scan order *)

(** A drain mode that holds back only some kinds; every other one holds back
    the whole box. *)
Definition WITHHOLD_KINDS (m : Mode) : option (gset string) :=
  match m with Gpu => Some {[ "gpu" ]} | _ => None end.

Record KeptRoom := mkRoom {
  kr_key : string; kr_room : gmap string Z; kr_reason : option string; kr_binds_all : bool }.

Record ScanOrder := mkScan {
  withheld_for : option string; withheld_kinds : option (gset string);
  measurement_withholds : gset string; carried_measurement_withholds : gset string;
  rooms : list KeptRoom }.

Definition new_scan : ScanOrder := mkScan None None ∅ ∅ [].

Definition whole_box_held (o : ScanOrder) : bool :=
  bool_decide (is_Some (withheld_for o)) && bool_decide (withheld_kinds o = None).

Definition row_held_back (o : ScanOrder) (takes_kind : bool) (reserving_priority : option Z)
    (withheld_priority : Z) : bool :=
  let held_back :=
    bool_decide (is_Some (withheld_for o)) && (bool_decide (withheld_kinds o = None) || takes_kind) in
  match reserving_priority with
  | Some r => if bool_decide (withheld_priority ≤ r) then false else held_back
  | None => held_back
  end.

Definition busy_room_needed (o : ScanOrder) (key : string) (carried : bool) (gpu_first : gset string)
    (has_ledger : bool) : bool :=
  has_ledger && (bool_decide (key ∈ gpu_first) || (negb carried && negb (whole_box_held o))).

Definition withhold (o : ScanOrder) (key : string) (kinds : option (gset string)) (measurement : bool)
  : ScanOrder :=
  let '(owner, scope) :=
    if whole_box_held o then (withheld_for o, withheld_kinds o)
    else
      match withheld_for o, kinds with
      | None, _ | _, None => (Some key, kinds)
      | Some owner, Some ks => (Some owner, Some (default ∅ (withheld_kinds o) ∪ ks))
      end in
  mkScan owner scope
    (if measurement then measurement_withholds o ∪ {[ key ]} else measurement_withholds o)
    (carried_measurement_withholds o) (rooms o).

(** A carried episode: its drain mode, and whether it has a deadline. *)
Definition carry (o : ScanOrder) (key : string) (episode : option (Mode * bool)) : ScanOrder :=
  match episode with
  | None => o
  | Some (mode, deadline) =>
      let o1 := withhold o key (WITHHOLD_KINDS mode) false in
      if deadline
      then mkScan (withheld_for o1) (withheld_kinds o1) (measurement_withholds o1)
             (carried_measurement_withholds o1 ∪ {[ key ]}) (rooms o1)
      else o1
  end.

Definition keep (o : ScanOrder) (room : KeptRoom) : ScanOrder :=
  mkScan (withheld_for o) (withheld_kinds o) (measurement_withholds o) (carried_measurement_withholds o)
    (rooms o ++ [room]).

Definition held_back_unfunded (o : ScanOrder) (held_back serves_incumbent : bool) : bool :=
  held_back && negb (serves_incumbent
    && match withheld_for o with Some k => bool_decide (k ∈ measurement_withholds o) | None => false end).

(** ** Kept rooms *)

Definition room_fits (available room : gmap string Z) : bool :=
  bool_decide (map_Forall (λ kind need, need ≤ at_kind available kind) room).

Definition beside (available demand room : gmap string Z) : bool :=
  bool_decide (map_Forall (λ kind need, need ≤ at_kind available kind - at_kind demand kind) room).

(** The first kept room that fits now and would not beside this demand. *)
Definition room_taken (available : gmap string Z) (rs : list KeptRoom) (demand : gmap string Z)
  : option KeptRoom :=
  head (filter (λ kept, room_fits available (kr_room kept) = true
                        ∧ beside available demand (kr_room kept) = false) rs).

(** The rooms a claim is checked against: all of them, or for a row that takes
    a GPU only those that bind every row. *)
Definition bound_rooms (rs : list KeptRoom) (demand : gmap string Z) : list KeptRoom :=
  if bool_decide (at_kind demand "gpu" = 0) then rs else filter (λ kept, kr_binds_all kept = true) rs.

(** The claim pass's room check; [None] for free tokens that cannot be read. *)
Definition room_check (available : option (gmap string Z)) (rs : list KeptRoom) (demand : gmap string Z)
  : option KeptRoom :=
  match available with Some av => room_taken av (bound_rooms rs demand) demand | None => None end.

(** ** Denials *)

Inductive Ev :=
  | EStr (s : option string) | EBool (b : bool) | ERoom (m : gmap string Z)
  | EKinds (ks : option (list string)) | EVerdict (v : Verdict)
  | EStarved (why holders : option Val) | EDecision (reason : option string) | ECarried (m : Mode).

Abbreviation Evidence := (gmap string Ev).

Record WithholdAfterDenial := mkWithholdAfter { wa_key : string; wa_kinds : option (gset string) }.

(** [identity]: whether the row is a measurement, when it has an identity. *)
Definition apply_withhold (w : WithholdAfterDenial) (o : ScanOrder) (identity : option bool)
    (measurement_suspended : bool) : ScanOrder :=
  let measurement := default false identity in
  if measurement_suspended && measurement then o else withhold o (wa_key w) (wa_kinds w) measurement.

Record CandidateDenial := mkDenial {
  cd_reason : string; cd_evidence : option Evidence; cd_order : ScanOrder;
  cd_withhold : option WithholdAfterDenial }.

(** A refused row keeps its room only if it asks for a GPU and does not fit
    what was free when it was refused. *)
Definition keep_refused_room (o : ScanOrder) (key : string) (reservation : gmap string (option Z))
    (reason : string) (free : option (gmap string Z)) : ScanOrder * Evidence :=
  match free with
  | None => (o, ∅)
  | Some av =>
      if negb (bool_decide (map_Forall (λ _ v, is_Some v) reservation)) then (o, ∅)
      else
        let room : gmap string Z := omap id reservation in
        if bool_decide (at_kind room "gpu" = 0) then (o, ∅)
        else if room_fits av room then (o, {[ "gpu_room_fit_at_refusal" := EBool true ]})
        else (keep o (mkRoom key room (Some reason) true),
              <["gpu_room_kept" := ERoom room]> {[ "gpu_room_binds_all" := EBool true ]})
  end.

(** [verdict["withhold"]] and [verdict["eligible"]]. *)
Definition truth (v : Verdict) (name : string) : bool :=
  match v !! name with Some (VBool b) => b | _ => false end.
Definition mode_of (v : Verdict) : option Mode :=
  match v !! "mode" with Some (VMode m) => Some m | _ => None end.

Definition starved_suffix (v : Verdict) : string :=
  if says v "why" ["unknown_past_ceiling"; "refilled_past_ceiling"] then "_past_ceiling" else "_starved".

Definition starved (v : Verdict) : Ev := EStarved (v !! "why") (v !! "holders").

(** The parts of an adaptive decision the refusal reads: its reason and
    whether it names the measurement that isolates the box. *)
Record AdaptiveDecision := mkDecision { dc_reason : option string; dc_isolated : bool }.

Definition _measurement_refusal_verdict (decision : option AdaptiveDecision) (verdict : option Verdict)
  : option Verdict :=
  match verdict, decision with
  | Some v, Some d =>
      if (truth v "withhold"
          || (truth v "eligible" && says v "why" ["holder_does_not_drain_soon"]))
         && bool_decide (dc_reason d = Some "measurement_holder") && dc_isolated d
      then Some (<["why" := VStr "measurement_admits_only_its_dependents"]>
                   (<["withhold" := VBool false]> v))
      else verdict
  | _, _ => verdict
  end.

Inductive Refusal :=
  | CountAdaptive (reason : string) (evidence : Evidence) (decision : option AdaptiveDecision)
      (verdict : option Verdict)
  | Uncounted (denial : CandidateDenial)
  | Silent.

Definition prepare_adaptive_refusal (source : option string) (decision : option AdaptiveDecision)
    (verdict : option Verdict) (o : ScanOrder) (dependent_owner : bool) (taken : Evidence) : Refusal :=
  let verdict := _measurement_refusal_verdict decision verdict in
  let reason := match source with Some s => if bool_decide (s = "") then "adaptive_refused" else s
                                | None => "adaptive_refused" end in
  let evidence : Evidence := {[ "decision" := EDecision (decision ≫= dc_reason) ]} in
  if bool_decide (source = Some "deferred_behind_withholding") then
    if dependent_owner then
      let e1 := <["withheld_for" := EStr (withheld_for o)]> evidence in
      let e2 := match withheld_kinds o with
                | Some ks => <["withheld_kinds" := EKinds (Some (listing ks))]> e1 | None => e1 end in
      Uncounted (mkDenial reason (Some e2) o None)
    else Silent
  else if bool_decide (source = Some "deferred_for_ready_gpu_row")
  then Uncounted (mkDenial reason (Some (taken ∪ evidence)) o None)
  else CountAdaptive reason evidence decision verdict.

Definition counted_adaptive_refusal (reason0 : string) (evidence0 : Evidence)
    (decision : option AdaptiveDecision) (verdict : option Verdict) (key : string) (o : ScanOrder)
    (demand : gmap string Z) (reservation : gmap string (option Z)) (mode : option Mode)
    (foreign : bool) (free : option (gmap string Z)) : CandidateDenial :=
  let drain_resolves :=
    bool_decide (is_Some mode) && negb foreign
    && match verdict with
       | None => true
       | Some v => match v !! "drain_resolves" with Some (VBool false) => false | _ => true end
       end in
  let named := match decision ≫= dc_reason with Some r => negb (bool_decide (r = "")) | None => false end in
  let e1 := if negb (bool_decide (at_kind demand "gpu" = 0)) && named
            then <["drain_resolves" := EBool drain_resolves]> evidence0 else evidence0 in
  let with_room reason e :=
    if drain_resolves
    then let '(o', more) := keep_refused_room o key reservation reason free in (o', more ∪ e)
    else (o, e) in
  match verdict with
  | Some v =>
      if truth v "eligible" then
        let e2 := <["withhold" := EVerdict v]> e1 in
        if truth v "withhold" then
          let kinds := mode_of v ≫= WITHHOLD_KINDS in
          let e3 := match kinds with
                    | Some ks => <["withheld_kinds" := EKinds (Some (listing ks))]> e2 | None => e2 end in
          let reason := reason0 +:+ "_withholding" in
          let '(o', e4) := with_room reason e3 in
          mkDenial reason (Some e4) o' (Some (mkWithholdAfter key kinds))
        else
          let reason := reason0 +:+ starved_suffix v in
          let '(o', e3) := with_room reason (<["starved" := starved v]> e2) in
          mkDenial reason (Some e3) o' None
      else let '(o', e2) := with_room reason0 e1 in mkDenial reason0 (Some e2) o' None
  | None => let '(o', e2) := with_room reason0 e1 in mkDenial reason0 (Some e2) o' None
  end.

Definition counted_token_refusal (evidence : Evidence) (v : Verdict) (key : string) (o : ScanOrder)
    (eligible : bool) (asked : gmap string (option Z)) (free : option (gmap string Z)) : CandidateDenial :=
  if eligible && truth v "withhold" then
    let '(o', more) := keep_refused_room o key asked "reservation_unavailable_withholding" free in
    mkDenial "reservation_unavailable_withholding" (Some (more ∪ evidence)) o'
      (Some (mkWithholdAfter key None))
  else
    let e1 := if eligible then <["starved" := starved v]> evidence else evidence in
    let reason := "reservation_unavailable" +:+ (if eligible then starved_suffix v else "") in
    let '(o', more) := keep_refused_room o key asked reason free in
    mkDenial reason (Some (more ∪ e1)) o' None.

(** ** Rows behind a withhold *)

Record RowOpening := mkOpening { ro_held_back : bool; ro_producer : bool }.

Inductive Opening := Denied (d : CandidateDenial) | GpuScope | Opened (r : RowOpening).

Definition row_before_placement (o : ScanOrder) (held_back producer : bool) : Opening :=
  if held_back && bool_decide (withheld_kinds o = None) && negb producer
  then Denied (mkDenial "deferred_behind_withheld_row"
         (Some (<["withheld_for" := EStr (withheld_for o)]> {[ "withheld_kinds" := EKinds None ]})) o None)
  else Opened (mkOpening held_back producer).

Definition _row_after_scope (o : ScanOrder) (r : RowOpening) : Opening :=
  if ro_held_back r && negb (ro_producer r)
  then Denied (mkDenial "deferred_behind_withheld_row"
         (Some (<["withheld_for" := EStr (withheld_for o)]>
                  {[ "withheld_kinds" := EKinds (Some (listing (default ∅ (withheld_kinds o)))) ]})) o None)
  else Opened r.

(** The parts of a ready row placement reads. *)
Record Row := mkRow { rw_tags : list string; rw_needs_gpu : bool }.

Definition row_after_placement (item : Row) (r : RowOpening) (o : ScanOrder) (key : string)
    (released : gset string) (matches : option bool) (worker_has_gpu ready_gpu : bool) (host : string)
  : Opening :=
  if negb (bool_decide (key = "")) && bool_decide (key ∉ released) && negb (default false matches)
  then Denied (mkDenial "placement_mismatch"
         (Some (<["worker_has_gpu" := EBool worker_has_gpu]>
                  (<["required_tags" := EKinds (Some (rw_tags item))]>
                    {[ "needs_gpu" := EBool (rw_needs_gpu item) ]}))) o None)
  else if ready_gpu && bool_decide (key ∉ released) && bool_decide (host ∉ rw_tags item)
          && negb (rw_needs_gpu item)
  then GpuScope
  else _row_after_scope o r.

Definition row_after_gpu_scope (r : RowOpening) (o : ScanOrder) (takes_gpu class_scoped : bool)
    (gpu_row : option string) : Opening :=
  if negb takes_gpu && negb class_scoped
  then Denied (mkDenial "deferred_for_ready_gpu" (Some {[ "gpu_row" := EStr gpu_row ]}) o None)
  else _row_after_scope o r.

(** Whether a row takes a withheld kind; [None] is a demand that does not
    parse, which is held back. *)
Definition _demands_withheld_kind (host_demand : option (gmap string Z)) (kinds : gset string) : bool :=
  match host_demand with
  | None => true
  | Some d => bool_decide (set_Exists (λ kind, 0 < at_kind d kind) kinds)
  end.

(** What opening a row reads besides the order: the row, its key and demand,
    the priority it reserves for a gang, whether it may serve a producer,
    placement, and the ready GPU row it would run beside. *)
Record RowReads := mkReads {
  rr_item : Row; rr_key : string; rr_demand : option (gmap string Z); rr_reserving : option Z;
  rr_withheld_priority : Z; rr_may_serve : bool; rr_released : gset string;
  rr_matches : option bool; rr_worker_has_gpu : bool; rr_gpu_row : option string;
  rr_class_scoped : bool; rr_host : string }.

Definition takes_kind (o : ScanOrder) (r : RowReads) : bool :=
  match withheld_for o, withheld_kinds o with
  | Some _, Some ks => _demands_withheld_kind (rr_demand r) ks
  | _, _ => false
  end.

(** Held back, a gang reservation of at least the withheld row's priority
    passing a measurement's wait. *)
Definition held_back (o : ScanOrder) (r : RowReads) : bool :=
  let hb := row_held_back o (takes_kind o r) None 0 in
  let measured :=
    match withheld_for o with
    | Some k => bool_decide (k ∈ measurement_withholds o) || bool_decide (k ∈ carried_measurement_withholds o)
    | None => false end in
  if hb && measured then row_held_back o (takes_kind o r) (rr_reserving r) (rr_withheld_priority r) else hb.

(** Before, at and after placement, in order. *)
Definition _opening_claim_row (o : ScanOrder) (r : RowReads) : Opening :=
  let hb := held_back o r in
  match row_before_placement o hb (hb && rr_may_serve r) with
  | Opened opening =>
      match row_after_placement (rr_item r) opening o (rr_key r) (rr_released r) (rr_matches r)
              (rr_worker_has_gpu r) (bool_decide (is_Some (rr_gpu_row r))) (rr_host r) with
      | GpuScope =>
          row_after_gpu_scope opening o (_demands_withheld_kind (rr_demand r) {[ "gpu" ]})
            (rr_class_scoped r) (rr_gpu_row r)
      | other => other
      end
  | other => other
  end.

(** A row whose transition is busy: the room it waited for is kept. *)
Definition busy_denial (o : ScanOrder) (carried : option Mode) (room : option (string * gmap string Z))
  : CandidateDenial :=
  let binds_all := bool_decide (carried = None) && negb (whole_box_held o) in
  let o' := match room with
            | Some (key, r) => keep o (mkRoom key r (Some "transition_busy") binds_all) | None => o end in
  let e1 : Evidence := match carried with Some m => {[ "withhold_carried" := ECarried m ]} | None => ∅ end in
  let e2 := match room with
            | Some (_, r) =>
                let e := <["gpu_room_kept" := ERoom r]> e1 in
                if binds_all then <["gpu_room_binds_all" := EBool true]> e else e
            | None => e1 end in
  mkDenial "transition_busy" (if bool_decide (is_Some carried) || bool_decide (is_Some room) then Some e2 else None)
    o' None.

(** ** Unified memory *)

Definition GIB : Z := 1024 * 1024 * 1024.

Record UnifiedMemoryEvidence := mkUnified {
  um_total : Z; um_available : Z; um_resident : Z; um_foreign : ForeignProcesses }.

Definition um_unknown (e : UnifiedMemoryEvidence) : bool := bool_decide (um_foreign e = F_unknown).
Definition external_bytes (e : UnifiedMemoryEvidence) : Z :=
  Z.max 0 (um_total e - um_available e - um_resident e).
Definition ceiling_gib (e : UnifiedMemoryEvidence) (margin_gb : Z) : Z :=
  if um_unknown e then 0 else Z.max 0 ((um_total e - external_bytes e) / GIB - margin_gb).

Definition unified_memory_denial (evidence : option UnifiedMemoryEvidence) (held demand : gmap string Z)
    (margin_gb : Z) (o : ScanOrder) : option CandidateDenial :=
  match evidence with
  | None => None
  | Some e =>
      if bool_decide (at_kind demand "mem_gb" ≤ 0) then None
      else
        let deny reason := Some (mkDenial reason (Some {[ "reservation_demand" := ERoom demand ]}) o None) in
        if um_unknown e then deny "unified_gpu_memory_unknown"
        else if bool_decide (ceiling_gib e margin_gb < at_kind held "mem_gb" + at_kind demand "mem_gb")
        then deny "unified_gpu_memory_budget" else None
  end.

Definition unified_memory_preemption_demand (evidence : option UnifiedMemoryEvidence)
    (demand capacity : gmap string Z) (margin_gb : Z) : option (gmap string Z) :=
  match evidence with
  | None => Some demand
  | Some e =>
      if um_unknown e || (bool_decide (0 < at_kind demand "gpu") && bool_decide (um_foreign e = F_present))
      then None
      else
        let ceiling := ceiling_gib e margin_gb in
        if bool_decide (ceiling < at_kind demand "mem_gb") then None
        else Some (<["mem_gb" := at_kind demand "mem_gb" + Z.max 0 (at_kind capacity "mem_gb" - ceiling)]> demand)
  end.

(** ** The last checks of a claim *)

(** Whether every tier demand is filed, funded, borrowed or waived: the sums
    of each ([filed] counts the tokens that moved). *)
Definition tier_completeness (demand funded : gmap string (gmap string Z)) (borrowed : gmap string Z)
    (waived : option Z) (filed : Z) : Z * bool :=
  let total (m : gmap string (gmap string Z)) :=
    sumZ (λ kv, sumZ snd (sorted_items kv.2)) (sorted_items m) in
  let wanted := total demand in
  (wanted, bool_decide (filed + total funded + sumZ snd (sorted_items borrowed) + default 0 waived < wanted)).

Inductive MovedClaimPosition := Class_refused | Backfill_refused | Backfill_binding | Placement.

Definition moved_claim_position (class_eligible : option bool) (priority : option Z) (backfill : bool)
  : MovedClaimPosition :=
  if bool_decide (class_eligible = Some false) then Class_refused
  else if backfill then
    if bool_decide (priority = Some (-10)) then Backfill_binding else Backfill_refused
  else Placement.
