(* ===== verification/ScanSpec.v ===== *)
(** * What the scan order guarantees

    The order a pass accumulates is exactly the union of the withholds that
    made it; a row it holds back does not open; a kept room that has come to
    fit is not taken; and a refusal changes the order only by its own room. *)

From S2P Require Import Prelude.
From S2P Require Import TokenName.
From S2P Require Import Ledger.
From S2P Require Import Drain.
From S2P Require Import DrainFacts.
From S2P Require Import DrainSpec.
From S2P Require Import Scan.
From stdpp Require Import options.

Open Scope Z_scope.

(** ** The order as the union of its withholds *)

(** What happens to the order during a pass. *)
Inductive Op :=
  | OWithhold (key : string) (kinds : option (gset string)) (measurement : bool)
  | OCarry (key : string) (episode : option (Mode * bool))
  | OKeep (room : KeptRoom).

Definition do_op (o : ScanOrder) (op : Op) : ScanOrder :=
  match op with
  | OWithhold key kinds m => withhold o key kinds m
  | OCarry key episode => carry o key episode
  | OKeep room => keep o room
  end.

(** The withhold an operation is, if it is one: its key and scope. *)
Definition scope_of (op : Op) : option (string * option (gset string)) :=
  match op with
  | OWithhold key kinds _ => Some (key, kinds)
  | OCarry key (Some (mode, _)) => Some (key, WITHHOLD_KINDS mode)
  | _ => None
  end.
Definition scopes (ops : list Op) : list (string * option (gset string)) := omap scope_of ops.

Definition whole (w : string * option (gset string)) : bool := bool_decide (w.2 = None).

(** The abstract order: the first whole-box withhold owns the box; without
    one, the first withhold does, for the union of the kinds. *)
Definition owner_of (ws : list (string * option (gset string))) : option string :=
  match filter (λ w, whole w = true) ws with
  | w :: _ => Some w.1
  | [] => fst <$> head ws
  end.
Definition kinds_of (ws : list (string * option (gset string))) : option (gset string) :=
  if existsb whole ws then None
  else match ws with [] => None | _ => Some (⋃ ((λ w, default ∅ w.2) <$> ws)) end.

Lemma whole_scope key ks : whole (key, Some ks) = false.
Proof. done. Qed.

Lemma owner_snoc ws w :
  owner_of (ws ++ [w])
  = if existsb whole ws then owner_of ws else if whole w then Some w.1
    else match ws with [] => Some w.1 | _ => owner_of ws end.
Proof.
  unfold owner_of. rewrite filter_app. destruct (existsb whole ws) eqn:He.
  - destruct (filter (λ w, whole w = true) ws) as [|x xs] eqn:Hf; [|done]. exfalso.
    apply existsb_exists in He as (x & Hx & Hw). rewrite <- list_elem_of_In in Hx.
    assert (x ∈ filter (λ w, whole w = true) ws) as Hin by (by apply list_elem_of_filter).
    rewrite Hf in Hin. by apply elem_of_nil in Hin.
  - assert (filter (λ w, whole w = true) ws = []) as ->.
    { apply elem_of_nil_inv. intros x [Hw Hx]%list_elem_of_filter. enough (existsb whole ws = true) by congruence.
      apply existsb_exists. exists x. by rewrite <- list_elem_of_In. }
    destruct (whole w) eqn:Hw; [by rewrite filter_cons_True|].
    rewrite filter_cons_False by congruence. rewrite filter_nil. by destruct ws.
Qed.

Lemma kinds_snoc ws w :
  kinds_of (ws ++ [w])
  = if existsb whole ws then None else if whole w then None
    else Some (default ∅ (kinds_of ws) ∪ default ∅ w.2).
Proof.
  unfold kinds_of. rewrite existsb_app. simpl existsb. rewrite orb_false_r.
  destruct (existsb whole ws); [done|]. simpl. destruct (whole w); [done|].
  destruct ws as [|x xs]; [simpl; f_equal; set_solver|].
  simpl. f_equal. rewrite fmap_app, union_list_app_L. simpl. set_solver.
Qed.

(** The order a sequence of operations leaves refines the abstract one. *)
Lemma do_ops_refine ops :
  let o := foldl do_op new_scan ops in
  withheld_for o = owner_of (scopes ops) ∧ withheld_kinds o = kinds_of (scopes ops).
Proof.
  induction ops as [|op ops IH] using rev_ind; [done|]. unfold scopes in *.
  rewrite foldl_app, omap_app. cbn [foldl omap list_omap].
  destruct IH as [IHo IHk]. set (o := foldl do_op new_scan ops) in *.
  assert (∀ key kinds m, withheld_for (withhold o key kinds m) = owner_of (omap scope_of ops ++ [(key, kinds)])
    ∧ withheld_kinds (withhold o key kinds m) = kinds_of (omap scope_of ops ++ [(key, kinds)])) as Hw.
  { intros key kinds m. set (ws := omap scope_of ops) in *. rewrite owner_snoc, kinds_snoc.
    unfold withhold, whole_box_held. rewrite IHo, IHk.
    destruct (existsb whole ws) eqn:He.
    - assert (kinds_of ws = None) as Hk by (unfold kinds_of; by rewrite He).
      assert (is_Some (owner_of ws)) as Ho.
      { unfold owner_of. destruct (filter _ ws) eqn:Hf; [|by eexists]. exfalso.
        apply existsb_exists in He as (x & Hx & Hwx). rewrite <- list_elem_of_In in Hx.
        assert (x ∈ filter (λ w, whole w = true) ws) as Hin by (by apply list_elem_of_filter).
        rewrite Hf in Hin. by apply elem_of_nil in Hin. }
      rewrite Hk, (bool_decide_eq_true_2 (is_Some _)) by done. done.
    - destruct ws as [|w ws'] eqn:Hws.
      + unfold kinds_of, owner_of. simpl. destruct kinds as [ks|]; simpl; [|done].
        split; [done|]. f_equal. set_solver.
      + assert (∃ ks, kinds_of (w :: ws') = Some ks) as [ks Hk] by (unfold kinds_of; rewrite He; by eexists).
        rewrite Hk, (bool_decide_eq_false_2 (Some ks = None)) by done. rewrite andb_false_r.
        assert (∃ k, owner_of (w :: ws') = Some k) as [k Hk2].
        { unfold owner_of. destruct (filter _ _); simpl; by eexists. }
        rewrite Hk2. destruct kinds as [ks'|]; simpl; done. }
  destruct op as [key kinds m|key [[mode dl]|]|room]; cbn [do_op scope_of carry].
  - apply Hw.
  - destruct dl; apply Hw.
  - by rewrite app_nil_r.
  - by rewrite app_nil_r.
Qed.

Lemma kinds_of_Some ws ks : kinds_of ws = Some ks → existsb whole ws = false ∧ ws ≠ [] ∧ ks = ⋃ ((λ w, default ∅ w.2) <$> ws).
Proof. unfold kinds_of. destruct (existsb whole ws); [done|]. destruct ws; naive_solver. Qed.

Definition covers (demand : option (gmap string Z)) (w : string * option (gset string)) : Prop :=
  match w.2 with None => True | Some ks => _demands_withheld_kind demand ks = true end.

Lemma demands_union demand (Xs : list (gset string)) :
  Xs ≠ [] →
  _demands_withheld_kind demand (⋃ Xs) = true ↔ ∃ X, X ∈ Xs ∧ _demands_withheld_kind demand X = true.
Proof.
  intros Hne. unfold _demands_withheld_kind. destruct demand as [d|].
  - rewrite bool_decide_eq_true. unfold set_Exists. split.
    + intros (k & Hk & Hpos). apply elem_of_union_list in Hk as (X & HX & Hk). exists X.
      split; [done|]. rewrite bool_decide_eq_true. by exists k.
    + intros (X & HX & Hb). rewrite bool_decide_eq_true in Hb. destruct Hb as (k & Hk & Hpos).
      exists k. split; [|done]. apply elem_of_union_list. by exists X.
  - split; [|done]. intros _. destruct Xs as [|X Xs]; [done|]. exists X. split; [by left|done].
Qed.

Lemma held_back_iff ops r :
  let o := foldl do_op new_scan ops in
  row_held_back o (takes_kind o r) None 0 = true ↔ ∃ w, w ∈ scopes ops ∧ covers (rr_demand r) w.
Proof.
  intros o. destruct (do_ops_refine ops) as [Ho Hk]. fold o in Ho, Hk. unfold row_held_back, takes_kind.
  rewrite Ho, Hk. set (ws := scopes ops). destruct (kinds_of ws) as [ks|] eqn:Hks.
  - apply kinds_of_Some in Hks as (He & Hne & ->).
    assert (∃ k, owner_of ws = Some k) as [k ->].
    { unfold owner_of. destruct (filter _ ws); [|by eexists]. destruct ws; [done|by eexists]. }
    rewrite (bool_decide_eq_true_2 (is_Some (Some k))) by done.
    rewrite (bool_decide_eq_false_2 (Some _ = None)) by done. simpl.
    rewrite demands_union by (by destruct ws). split.
    + intros (X & HX & Hd). apply list_elem_of_fmap in HX as (w & -> & Hw). exists w. split; [done|].
      unfold covers. destruct (w.2) eqn:Hw2; [done|done].
    + intros (w & Hw & Hc). exists (default ∅ w.2). split; [by apply list_elem_of_fmap; exists w|].
      unfold covers in Hc. destruct (w.2) as [X|] eqn:Hw2; [done|]. exfalso.
      enough (existsb whole ws = true) by congruence. apply existsb_exists. exists w.
      rewrite <- list_elem_of_In. split; [done|]. unfold whole. by rewrite Hw2.
  - rewrite (bool_decide_eq_true_2 (None = None)) by done. rewrite orb_true_l, andb_true_r, bool_decide_eq_true.
    unfold kinds_of in Hks. destruct (existsb whole ws) eqn:He.
    + apply existsb_exists in He as (w & Hw & Hwh). rewrite <- list_elem_of_In in Hw.
      unfold whole in Hwh. apply bool_decide_eq_true in Hwh. split; [intros _|intros _].
      * exists w. split; [done|]. unfold covers. by rewrite Hwh.
      * unfold owner_of. destruct (filter _ ws); [|by eexists]. by destruct ws; [apply elem_of_nil in Hw|eexists].
    + destruct ws as [|w ws']; [|done]. split; [by intros []|]. intros (w & Hw & _). by apply elem_of_nil in Hw.
Qed.

(** * Properties *)

(** After any sequence of withholds, carried withholds and kept rooms, a
    row is held back exactly when some withhold covers it (the whole box, or a
    kind the row takes or does not say it does not take); the first whole-box
    withhold owns the box, else the first withhold; and such a row never opens,
    unless it may serve a producer or reserves for a gang of at least the
    withheld priority against a measurement's wait. *)
Theorem withheld_rows_stay_behind ops r :
  let o := foldl do_op new_scan ops in
  withheld_for o = owner_of (scopes ops)
  ∧ (row_held_back o (takes_kind o r) None 0 = true ↔ ∃ w, w ∈ scopes ops ∧ covers (rr_demand r) w)
  ∧ (∀ opening, _opening_claim_row o r = Opened opening →
       (∃ w, w ∈ scopes ops ∧ covers (rr_demand r) w) →
       rr_may_serve r = true
       ∨ ∃ k p, withheld_for o = Some k
           ∧ (k ∈ measurement_withholds o ∨ k ∈ carried_measurement_withholds o)
           ∧ rr_reserving r = Some p ∧ rr_withheld_priority r ≤ p).
Proof.
  intros o. split_and!; [apply do_ops_refine|apply held_back_iff|].
  intros opening Hop Hw%held_back_iff. fold o in Hw. destruct (rr_may_serve r) eqn:Hserve; [by left|]. right.
  destruct (held_back o r) eqn:Hh.
  - exfalso. unfold _opening_claim_row, row_before_placement in Hop. rewrite Hh, Hserve in Hop. simpl in Hop.
    destruct (bool_decide (withheld_kinds o = None)); simpl in Hop; [done|].
    unfold row_after_placement, row_after_gpu_scope, _row_after_scope in Hop. simpl in Hop.
    repeat (case_match; try done).
  - unfold held_back in Hh. rewrite Hw in Hh. simpl in Hh.
    destruct (withheld_for o) as [k|] eqn:Hk; [|done].
    destruct (bool_decide (k ∈ measurement_withholds o) || _) eqn:Hm; [|congruence].
    rewrite orb_true_iff, !bool_decide_eq_true in Hm.
    unfold row_held_back in Hw, Hh. rewrite Hw in Hh. destruct (rr_reserving r) as [p|]; [|congruence].
    case_bool_decide; [|congruence]. by exists k, p.
Qed.

(** A whole-box wait of [row], a GPU wait of [gpu] before it: [row] owns the
    box, and a CPU row stays behind. *)
Definition demo_reads : RowReads :=
  mkReads (mkRow [] false) "later" (Some {[ "cpu" := 1 ]}) None 0 false ∅ (Some true) true None false "host".

Example demo_whole_box :
  let o := foldl do_op new_scan [OWithhold "gpu" (Some {[ "gpu" ]}) false; OWithhold "row" None true] in
  withheld_for o = Some "row"
  ∧ match _opening_claim_row o demo_reads with Denied d => cd_reason d | _ => "" end
    = "deferred_behind_withheld_row".
Proof. by vm_compute. Qed.

(** ** Kept rooms *)

(** Room arithmetic: every kind either mapping names. *)
Definition combine (f : Z → Z → Z) : gmap string Z → gmap string Z → gmap string Z :=
  merge (λ x y, match x, y with None, None => None | _, _ => Some (f (default 0 x) (default 0 y)) end).

Lemma at_combine f a b k : f 0 0 = 0 → at_kind (combine f a b) k = f (at_kind a k) (at_kind b k).
Proof. intros Hf. unfold at_kind, combine. rewrite lookup_merge. by destruct (a !! k), (b !! k). Qed.

(** What changes the free tokens between two rows of a pass. *)
Inductive Change := Admit (demand : gmap string Z) | Give (tokens : gmap string Z).

Definition grows (c : Change) : Prop :=
  match c with Admit m | Give m => map_Forall (λ _ n, 0 ≤ n) m end.

#[export] Instance grows_dec c : Decision (grows c).
Proof. destruct c; apply _. Defined.

(** The free tokens after the changes; [None] when a claim was refused. *)
Fixpoint changes (rs : list KeptRoom) (cs : list Change) (av : gmap string Z) : option (gmap string Z) :=
  match cs with
  | [] => Some av
  | Admit d :: cs' =>
      match room_check (Some av) rs d with
      | None => changes rs cs' (combine Z.sub av d)
      | Some _ => None
      end
  | Give m :: cs' => changes rs cs' (combine Z.add av m)
  end.

Definition takes_gpu (c : Change) : bool :=
  match c with Admit d => negb (bool_decide (at_kind d "gpu" = 0)) | Give _ => false end.

Lemma at_kind_nonneg m k : map_Forall (λ _ n, 0 ≤ n) m → 0 ≤ at_kind m k.
Proof. intros Hm. unfold at_kind. destruct (m !! k) as [n|] eqn:E; [by apply Hm in E|done]. Qed.

Lemma room_check_spec av rs d :
  match room_check (Some av) rs d with
  | Some kept => kept ∈ bound_rooms rs d ∧ room_fits av (kr_room kept) = true
                 ∧ beside av d (kr_room kept) = false
  | None => ∀ kept, kept ∈ bound_rooms rs d → room_fits av (kr_room kept) = true →
              beside av d (kr_room kept) = true
  end.
Proof.
  unfold room_check, room_taken.
  destruct (filter _ (bound_rooms rs d)) as [|kept ks] eqn:Hf; simpl.
  - intros kept Hin Hfit. destruct (beside av d (kr_room kept)) eqn:Hb; [done|]. exfalso.
    assert (kept ∈ filter (λ kept, room_fits av (kr_room kept) = true ∧ beside av d (kr_room kept) = false)
              (bound_rooms rs d)) as Hk by (by apply list_elem_of_filter).
    rewrite Hf in Hk. by apply elem_of_nil in Hk.
  - assert (kept ∈ filter (λ kept, room_fits av (kr_room kept) = true ∧ beside av d (kr_room kept) = false)
              (bound_rooms rs d)) as Hk by (rewrite Hf; by left).
    apply list_elem_of_filter in Hk. tauto.
Qed.

(** C36: a kept room is not lost once it fits: along any sequence of admitted
    claims, each checked against the kept rooms, and of tokens given back, a
    room that fits the free tokens fits them to the end; a room that does not
    bind every row is promised this against claims that take no GPU.  And a
    claim is refused for a room only if it would take it. *)
Theorem kept_rooms_survive rs cs av av' kept :
  kept ∈ rs → room_fits av (kr_room kept) = true → Forall grows cs →
  kr_binds_all kept = true ∨ Forall (λ c, takes_gpu c = false) cs →
  changes rs cs av = Some av' →
  room_fits av' (kr_room kept) = true
  ∧ (∀ d k, room_check (Some av') rs d = Some k →
       k ∈ rs ∧ room_fits av' (kr_room k) = true ∧ room_fits (combine Z.sub av' d) (kr_room k) = false).
Proof.
  intros Hin. assert (∀ av d r, beside av d r = room_fits (combine Z.sub av d) r) as Hb.
  { intros a d r. unfold beside, room_fits. apply bool_decide_ext. unfold map_Forall.
    split; intros H k n Hk; specialize (H k n Hk); rewrite ?at_combine in * by done; done. }
  assert (∀ d, bound_rooms rs d ⊆ rs) as Hsub.
  { intros d x. unfold bound_rooms. destruct (bool_decide _); [done|]. rewrite list_elem_of_filter. tauto. }
  intros Hfit Hg Hbind Hc. split.
  - revert av Hfit Hc. induction cs as [|c cs IH]; intros av Hfit; cbn [changes]; [by intros [= <-]|].
    apply Forall_cons in Hg as [Hg1 Hg]. specialize (IH Hg).
    assert (kr_binds_all kept = true ∨ Forall (λ c, takes_gpu c = false) cs) as Hbind'
      by (destruct Hbind as [?|[_ ?]%Forall_cons]; tauto).
    destruct c as [d|m].
    + pose proof (room_check_spec av rs d) as Hs. destruct (room_check (Some av) rs d); [done|].
      apply IH; [done|]. rewrite <- Hb. apply Hs; [|done]. unfold bound_rooms.
      destruct (bool_decide (at_kind d "gpu" = 0)) eqn:Hgpu; [done|].
      apply list_elem_of_filter. split; [|done]. destruct Hbind as [?|[Ht _]%Forall_cons]; [done|].
      cbn [takes_gpu] in Ht. by rewrite Hgpu in Ht.
    + apply IH; [done|]. unfold room_fits in *. rewrite bool_decide_eq_true in *. unfold map_Forall in *.
      intros k n Hk. specialize (Hfit k n Hk). rewrite at_combine by done.
      pose proof (at_kind_nonneg m k Hg1). lia.
  - intros d k Hk. pose proof (room_check_spec av' rs d) as Hs. rewrite Hk in Hs.
    destruct Hs as (H1 & H2 & H3). rewrite Hb in H3. split_and!; [by apply (Hsub d)|done|done].
Qed.

Definition demo_rooms : list KeptRoom := [mkRoom "gpu-row" (<["gpu" := 1]> {[ "cpu" := 2 ]}) None true].
Definition demo_changes : list Change := [Admit {[ "cpu" := 1 ]}; Give {[ "cpu" := 2 ]}; Admit {[ "cpu" := 2 ]}].

Lemma kept_rooms_survive_witness :
  ∃ av', changes demo_rooms demo_changes (<["gpu" := 1]> {[ "cpu" := 3 ]}) = Some av'
    ∧ Forall (λ k, room_fits av' (kr_room k) = true) demo_rooms.
Proof.
  destruct (changes demo_rooms demo_changes (<["gpu" := 1]> {[ "cpu" := 3 ]})) as [av'|] eqn:Hc; [|by vm_compute in Hc].
  exists av'. split; [reflexivity|]. constructor; [|constructor].
  apply (kept_rooms_survive demo_rooms demo_changes (<["gpu" := 1]> {[ "cpu" := 3 ]}) av'
           (mkRoom "gpu-row" (<["gpu" := 1]> {[ "cpu" := 2 ]}) None true)).
  - by left.
  - by vm_compute.
  - apply (bool_decide_eq_true_1 (Forall grows demo_changes)). by vm_compute.
  - by left.
  - exact Hc.
Defined.

(** ** Refusals *)

(** Nothing but the kept rooms differs. *)
Definition same_withholds (o o' : ScanOrder) : Prop :=
  withheld_for o' = withheld_for o ∧ withheld_kinds o' = withheld_kinds o
  ∧ measurement_withholds o' = measurement_withholds o
  ∧ carried_measurement_withholds o' = carried_measurement_withholds o.

(** The row's own room was kept: it takes a GPU and did not fit what was free. *)
Definition kept_own_room (o o' : ScanOrder) (key : string) (res : gmap string (option Z))
    (reason : string) (free : option (gmap string Z)) : Prop :=
  ∃ av room, free = Some av ∧ room = omap id res
    ∧ rooms o' = rooms o ++ [mkRoom key room (Some reason) true]
    ∧ at_kind room "gpu" ≠ 0 ∧ room_fits av room = false.

Lemma keep_refused_room_spec o key res reason free o' e :
  keep_refused_room o key res reason free = (o', e) →
  same_withholds o o' ∧ (o' = o ∨ kept_own_room o o' key res reason free).
Proof.
  unfold keep_refused_room. destruct free as [av|]; [|intros [= <- _]; split; [done|by left]].
  destruct (negb _); [intros [= <- _]; split; [done|by left]|].
  case_bool_decide as Hg; [intros [= <- _]; split; [done|by left]|].
  destruct (room_fits av (omap id res)) eqn:Hf; intros [= <- _]; split; [done|by left|done|right].
  exists av, (omap id res). done.
Qed.

(** The drain verdict governs the scan: a counted adaptive refusal holds
    the rows behind it back exactly when the verdict withholds, with the scope
    of its drain mode; and whatever it decides, a refusal leaves every earlier
    withhold as it was and keeps at most the row's own room, only for a GPU row
    that did not fit and whose refusal a drain resolves. *)
Theorem verdict_governs_scan q B prior now host v n reason evidence decision key o demand res foreign free :
  _observe_drain q B prior now host = DrainAssessment v n →
  let d := counted_adaptive_refusal reason evidence decision (Some v) key o demand res
             (Some (q_mode q)) foreign free in
  cd_withhold d = (if withheld (DrainAssessment v n)
                   then Some (mkWithholdAfter key (WITHHOLD_KINDS (q_mode q))) else None)
  ∧ same_withholds o (cd_order d)
  ∧ (cd_order d = o ∨ (foreign = false ∧ kept_own_room o (cd_order d) key res (cd_reason d) free)).
Proof.
  intros Ho. unfold counted_adaptive_refusal.
  set (dr := _ && _ && match v !! "drain_resolves" with Some (VBool false) => false | _ => true end).
  assert (∀ r e, let x := (if dr then let '(o', more) := keep_refused_room o key res r free in (o', more ∪ e)
                           else (o, e)) in
    same_withholds o x.1 ∧ (x.1 = o ∨ (foreign = false ∧ kept_own_room o x.1 key res r free))) as Hroom.
  { intros r e. destruct dr eqn:Hd; [|by split; [|left]].
    assert (foreign = false) as -> by (unfold dr in Hd; destruct foreign; [by rewrite andb_false_r in Hd|done]).
    destruct (keep_refused_room o key res r free) as [o' more] eqn:Hk.
    apply keep_refused_room_spec in Hk. simpl. tauto. }
  assert (truth v "withhold" = withheld (DrainAssessment v n)) as Hw by done.
  destruct (withheld (DrainAssessment v n)) eqn:Hwh.
  - assert (v !! "withhold" = Some (VBool true)) as Hv.
    { unfold truth in Hw. destruct (v !! "withhold") as [[]|]; naive_solver. }
    destruct (observe_says _ _ _ _ _ _ _ Ho Hv) as [He Hm].
    unfold truth, mode_of. rewrite He, Hv, Hm. cbv iota beta zeta. cbn [mbind option_bind].
    match goal with |- context [if dr then let '(o', more) := keep_refused_room _ _ _ ?r _ in (o', more ∪ ?e) else _] =>
      specialize (Hroom r e); destruct (if dr then _ else _) as [o' e'] end.
    simpl in *. split; [done|]. apply Hroom.
  - destruct (truth v "eligible"); [rewrite Hw|]; cbv iota zeta;
    match goal with |- context [if dr then let '(o', more) := keep_refused_room _ _ _ ?r _ in (o', more ∪ ?e) else _] =>
      specialize (Hroom r e); destruct (if dr then _ else _) as [o' e'] end;
    simpl in *; (split; [done|]); apply Hroom.
Qed.

Definition verdict_of (o : Outcome) : Verdict := match o with DrainAssessment v _ => v | DrainFailure _ _ => ∅ end.
Definition demo_outcome : Outcome :=
  _observe_drain demo_question (demo_box (seconds 100)) demo_prior (seconds 200) "host".

Lemma verdict_governs_scan_witness :
  cd_withhold (counted_adaptive_refusal "adaptive_cpu_refused" ∅ None (Some (verdict_of demo_outcome)) "row"
    new_scan ∅ ∅ (Some Tokens) false None) = Some (mkWithholdAfter "row" None).
Proof.
  assert (withheld demo_outcome = true) as Hw by (by vm_compute).
  destruct demo_outcome as [v n|e n] eqn:Ho; [|discriminate Hw].
  destruct (verdict_governs_scan demo_question (demo_box (seconds 100)) demo_prior (seconds 200) "host" v n
    "adaptive_cpu_refused" ∅ None "row" new_scan ∅ ∅ false None Ho) as [H _].
  rewrite Hw in H. exact H.
Defined.
