(* ===== verification/CpuTopology.v ===== *)
(** * CPU lists and the fast cores

    [src/prismabuild/cpu_topology.py]: the kernel's CPU-list text, read and
    written, and the split of a box's CPUs into preferred (one thread of each
    fast physical core) and fallback.  Sysfs is a record of what each file
    answers; CPU ids are naturals. *)

From S2P Require Import Prelude.
From S2P Require Import Ledger.
From Stdlib Require Import Ascii.
From stdpp Require Import options.

Open Scope N_scope.

Definition comma : ascii := ","%char.

(** [str.strip()] on ASCII whitespace. *)
Definition is_space (c : ascii) : bool :=
  let n := N_of_ascii c in bool_decide (n = 32) || bool_decide (9 ≤ n ∧ n ≤ 13).
Fixpoint lstrip (s : string) : string :=
  match s with "" => "" | String c s' => if is_space c then lstrip s' else s end.
Fixpoint rstrip (s : string) : string :=
  match s with
  | "" => ""
  | String c s' => let r := rstrip s' in if bool_decide (r = "") && is_space c then "" else String c r
  end.
Definition strip (s : string) : string := lstrip (rstrip s).

(** [sorted(set)]. *)
Definition sorted_cpus (X : gset N) : list N := merge_sort N.le (elements X).

(** [range(lo, hi + 1)]. *)
Definition cpu_range (lo hi : N) : gset N := 
  list_to_set (N.of_nat <$> seq (N.to_nat lo) (N.to_nat (hi + 1 - lo))).

(** One comma-separated part; [None] is the [ValueError]. *)
Definition parse_part (part : string) : option (gset N) :=
  match split_on dash part with
  | [a] => match parse_nat a with Some n => Some (cpu_range n n) | None => None end
  | [a; b] =>
      match parse_nat a, parse_nat b with
      | Some lo, Some hi => if bool_decide (hi < lo) then None else Some (cpu_range lo hi)
      | _, _ => None
      end
  | _ => None
  end.

Fixpoint parse_parts (parts : list string) (cpus : gset N) : option (gset N) :=
  match parts with
  | [] => Some cpus
  | part :: parts' =>
      if bool_decide (part = "") then parse_parts parts' cpus
      else match parse_part part with Some X => parse_parts parts' (cpus ∪ X) | None => None end
  end.

Definition parse_cpus (text : string) : option (list N) :=
  sorted_cpus <$> parse_parts (split_on comma (strip text)) ∅.

(** ** Writing a CPU list *)

Definition render (start prev : N) : string :=
  if bool_decide (start < prev) then pretty start +:+ String dash (pretty prev) else pretty start.

(** The runs of a sorted list: each ends where the next CPU is not its
    successor. *)
Fixpoint runs (start prev : N) (cpus : list N) : list string :=
  match cpus with
  | [] => [render start prev]
  | cpu :: cpus' =>
      if bool_decide (cpu = prev + 1) then runs start cpu cpus'
      else render start prev :: runs cpu cpu cpus'
  end.

Definition as_range (cpus : list N) : string :=
  match merge_sort N.le cpus with
  | [] => ""
  | cpu :: cpus' => join_with comma (runs cpu cpu cpus')
  end.

(** ** What sysfs answers *)

Record Sysfs := mkSysfs {
  sy_online : option string;            (* [online] *)
  sy_entries : list N;                  (* the [cpuN] directories *)
  sy_cpu_online : N → option N;         (* [cpuN/online] *)
  sy_capacity : N → option N;           (* [cpuN/cpu_capacity] *)
  sy_siblings : N → option string;      (* [cpuN/topology/thread_siblings_list] *)
  sy_atom : option string }.            (* [cpu_atom/cpus] of the PMU *)

(** [_read_cpus]: an unreadable or malformed list is [None]. *)
Definition _read_cpus (text : option string) : option (list N) := text ≫= parse_cpus.

Definition _online (S : Sysfs) : list N :=
  match _read_cpus (sy_online S) with
  | Some online => online
  | None => merge_sort N.le (filter (λ c, sy_cpu_online S c ≠ Some 0) (sy_entries S))
  end.

(** ** Classification *)

Section classify.
Context (S : Sysfs) (allowed : option (gset N)).

(** [_read_int(...) or 1024]. *)
Definition cap (c : N) : N :=
  match sy_capacity S c with Some n => if bool_decide (n = 0) then 1024 else n | None => 1024 end.

Definition min_cap : N := foldr (λ c acc, N.min (cap c) acc) (default 0 (cap <$> head (_online S))) (_online S).
Definition max_cap : N := foldr (λ c acc, N.max (cap c) acc) 0 (_online S).

Definition efficient : gset N := list_to_set (default [] (_read_cpus (sy_atom S))).

Definition usable : gset N :=
  match allowed with
  | None => list_to_set (_online S)
  | Some A => list_to_set (_online S) ∩ A
  end.

(** The usable threads of one core; a list that cannot be read, or an empty
    one, leaves the CPU alone. *)
Definition siblings (cpu : N) : gset N :=
  let named := match _read_cpus (sy_siblings S cpu) with Some (c :: cs) => c :: cs | _ => [cpu] end in
  list_to_set named ∩ usable.

(** [cpu == min(siblings | {cpu})]. *)
Definition lead (cpu : N) : bool := bool_decide (set_Forall (λ c, cpu ≤ c) (siblings cpu ∪ {[ cpu ]})).
(** [caps[cpu] >= threshold and cpu not in efficient], doubled. *)
Definition fast (cpu : N) : bool :=
  bool_decide (min_cap + max_cap ≤ 2 * cap cpu) && bool_decide (cpu ∉ efficient).

Definition is_preferred (cpu : N) : bool := fast cpu && lead cpu.

(** [(not fast[c], not lead[c], c)]. *)
Definition fallback_le (a b : N) : Prop :=
  let key c := (if fast c then 0 else 2) + (if lead c then 0 else 1) in
  key a < key b ∨ (key a = key b ∧ a ≤ b).

#[export] Instance fallback_le_dec : RelDecision fallback_le.
Proof. intros a b. unfold fallback_le. apply _. Defined.

Definition classify : list N * list N :=
  if bool_decide (_online S = []) then ([], [])
  else
    let cpus := sorted_cpus usable in
    (filter (λ c, is_preferred c = true) cpus,
     merge_sort fallback_le (filter (λ c, is_preferred c = false) cpus)).
End classify.

(** The tiers inside the worker's affinity; [None] without affinity support. *)
Definition inherited_tiers (S : Sysfs) (affinity : option (gset N)) : option (list N * list N) :=
  match affinity with
  | None => None
  | Some allowed =>
      let '(preferred, fallback) := classify S (Some allowed) in
      let known : gset N := list_to_set (sy_entries S) in
      let unknown := allowed ∖ known ∖ list_to_set preferred ∖ list_to_set fallback in
      let unknown' := match _read_cpus (sy_online S) with
                      | Some online => unknown ∩ list_to_set online | None => unknown end in
      Some (preferred ++ sorted_cpus unknown', fallback)
  end.

Definition preferred_cpus (S : Sysfs) : list N :=
  match classify S None with
  | ([], []) => merge_sort N.le (_online S)
  | ([], fallback) => fallback
  | (preferred, _) => preferred
  end.

(** ** Pinning *)

(** The affinity afterwards and the CPUs applied; [set_ok] is whether the
    kernel accepts the new mask. *)
Definition pin_to_preferred (S : Sysfs) (set_ok : bool) (affinity : option (gset N))
  : option (gset N) * option (list N) :=
  match affinity with
  | None => (None, None)
  | Some allowed =>
      let want : gset N := list_to_set (fst (classify S (Some allowed))) in
      if bool_decide (want = ∅) || bool_decide (want = allowed) then (affinity, Some (sorted_cpus allowed))
      else if set_ok then (Some want, Some (sorted_cpus want))
      else (affinity, Some (sorted_cpus allowed))
  end.

(** The tiers as the ledger binds them. *)
Definition ledger_tiers (t : list N * list N) : CpuTiers := mkTiers (Z.of_N <$> t.1) (Z.of_N <$> t.2).
