(* ===== verification/CpuTopologySpec.v ===== *)
(** * CPU lists round-trip, and the tiers partition the usable CPUs *)

From S2P Require Import Prelude.
From S2P Require Import Ledger.
From S2P Require Import CpuTopology.
From Stdlib Require Import Ascii.
From stdpp Require Import options.

Open Scope N_scope.

(** ** Sets of CPUs *)

Lemma elem_of_sorted_cpus c X : c ∈ sorted_cpus X ↔ c ∈ X.
Proof. unfold sorted_cpus. rewrite (merge_sort_Permutation _ _). apply elem_of_elements. Qed.

Lemma NoDup_sorted_cpus X : NoDup (sorted_cpus X).
Proof. unfold sorted_cpus. rewrite (merge_sort_Permutation _ _). apply NoDup_elements. Qed.

Lemma elem_of_cpu_range c lo hi : c ∈ cpu_range lo hi ↔ lo ≤ c ≤ hi.
Proof.
  unfold cpu_range. rewrite elem_of_list_to_set, list_elem_of_fmap. split.
  - intros (n & -> & Hn%elem_of_seq). lia.
  - intros Hc. exists (N.to_nat c). rewrite elem_of_seq. lia.
Qed.

(** ** Reading back what [as_range] writes *)

Lemma dash_comma : dash ≠ comma.
Proof. done. Qed.

Lemma render_clean start prev : has_char comma (render start prev) = false.
Proof.
  unfold render. assert (∀ n : N, has_char comma (pretty n) = false) as Hp
    by (intros; by apply pretty_N_clean).
  case_bool_decide; [|done]. rewrite has_char_app. simpl. by rewrite !Hp.
Qed.

Lemma render_nonempty start prev : render start prev ≠ "".
Proof.
  unfold render. pose proof (pretty_N_nonempty start). case_bool_decide; [|done].
  by destruct (pretty start).
Qed.

Lemma parse_render start prev :
  start ≤ prev → parse_part (render start prev) = Some (cpu_range start prev).
Proof.
  intros Hle. unfold parse_part, render. case_bool_decide as Hlt.
  - rewrite split_on_app_sep by (by apply pretty_N_clean). rewrite split_on_clean by (by apply pretty_N_clean).
    rewrite !parse_nat_pretty. by rewrite bool_decide_eq_false_2 by lia.
  - rewrite split_on_clean by (by apply pretty_N_clean). rewrite parse_nat_pretty. do 2 f_equal. lia.
Qed.

Lemma runs_parse start prev cpus X :
  start ≤ prev →
  ∃ Y, parse_parts (runs start prev cpus) X = Some Y
       ∧ ∀ c, c ∈ Y ↔ c ∈ X ∨ start ≤ c ≤ prev ∨ c ∈ cpus.
Proof.
  revert start prev X. induction cpus as [|cpu cpus IH]; intros start prev X Hle; cbn [runs].
  - cbn [parse_parts]. rewrite bool_decide_eq_false_2 by apply render_nonempty. rewrite parse_render by done.
    eexists. split; [done|]. intros c. rewrite elem_of_union, elem_of_cpu_range. set_solver.
  - case_bool_decide as Hs.
    + destruct (IH start cpu X ltac:(lia)) as (Y & HY & Hin). exists Y. split; [done|]. intros c.
      rewrite Hin, elem_of_cons. assert (start ≤ c ≤ cpu ↔ start ≤ c ≤ prev ∨ c = cpu) by lia. tauto.
    + cbn [parse_parts]. rewrite bool_decide_eq_false_2 by apply render_nonempty. rewrite parse_render by done.
      destruct (IH cpu cpu (X ∪ cpu_range start prev) ltac:(lia)) as (Y & HY & Hin). exists Y. split; [done|].
      intros c. rewrite Hin, elem_of_union, elem_of_cpu_range, elem_of_cons.
      assert (cpu ≤ c ≤ cpu ↔ c = cpu) by lia. tauto.
Qed.

Lemma runs_clean start prev cpus : Forall (λ w, has_char comma w = false) (runs start prev cpus).
Proof.
  revert start prev. induction cpus as [|cpu cpus IH]; intros start prev; cbn [runs].
  - constructor; [apply render_clean|constructor].
  - case_bool_decide; [apply IH|]. constructor; [apply render_clean|apply IH].
Qed.

Lemma runs_ne start prev cpus : runs start prev cpus ≠ [].
Proof. revert start prev. induction cpus as [|cpu cpus IH]; intros; cbn [runs]; [done|]. by case_bool_decide. Qed.

(** *** No space is ever written *)

Definition unspaced (s : string) : Prop := all_chars (λ c, negb (is_space c)) s = true.

Lemma unspaced_app s t : unspaced (s +:+ t) ↔ unspaced s ∧ unspaced t.
Proof.
  unfold unspaced. induction s as [|a s IH]; [rewrite app_nil_s; simpl; naive_solver|].
  rewrite app_cons_s. simpl. rewrite !andb_true_iff, IH. tauto.
Qed.

Lemma rstrip_unspaced s : unspaced s → rstrip s = s.
Proof.
  unfold unspaced. induction s as [|a s IH]; [done|]. simpl. intros [Ha Hs]%andb_true_iff.
  apply negb_true_iff in Ha. by rewrite IH, Ha, andb_false_r.
Qed.

Lemma strip_unspaced s : unspaced s → strip s = s.
Proof.
  intros Hs. unfold strip. rewrite rstrip_unspaced by done. destruct s as [|a s]; [done|].
  unfold unspaced in Hs. simpl in Hs. apply andb_true_iff in Hs as [Ha _]. apply negb_true_iff in Ha.
  simpl. by rewrite Ha.
Qed.

Lemma digit_unspaced a : is_digit a = true → is_space a = false.
Proof.
  unfold is_digit, digit_value, is_space. rewrite bool_decide_eq_true. case_bool_decide as Hd; [|by intros []].
  intros _. apply orb_false_iff. rewrite !bool_decide_eq_false. lia.
Qed.

Lemma all_chars_mono p q s : (∀ a, p a = true → q a = true) → all_chars p s = true → all_chars q s = true.
Proof. intros Hpq. induction s as [|a s IH]; [done|]. simpl. rewrite !andb_true_iff. naive_solver. Qed.

Lemma pretty_unspaced (n : N) : unspaced (pretty n).
Proof.
  apply (all_chars_mono is_digit); [intros a Ha; by rewrite digit_unspaced|].
  eapply digits_from_all, digits_from_pretty.
Qed.

Lemma render_unspaced start prev : unspaced (render start prev).
Proof.
  unfold render. pose proof (pretty_unspaced start). case_bool_decide; [|done].
  apply unspaced_app. split; [done|]. apply (pretty_unspaced prev).
Qed.

Lemma join_unspaced ws : Forall unspaced ws → unspaced (join_with comma ws).
Proof.
  induction 1 as [|w ws Hw Hws IH]; [done|]. destruct ws as [|w' ws]; [done|].
  change (join_with comma (w :: w' :: ws)) with (w +:+ String comma (join_with comma (w' :: ws))).
  apply unspaced_app. split; [done|]. exact IH.
Qed.

Lemma runs_unspaced start prev cpus : Forall unspaced (runs start prev cpus).
Proof.
  revert start prev. induction cpus as [|cpu cpus IH]; intros start prev; cbn [runs].
  - constructor; [apply render_unspaced|constructor].
  - case_bool_decide; [apply IH|]. constructor; [apply render_unspaced|apply IH].
Qed.

(** * Properties *)

(** C40: a CPU list written by [as_range] reads back through [parse_cpus] as
    exactly its CPUs, sorted, each once, whatever their order, gaps and
    repetitions. *)
Theorem cpu_list_roundtrip cpus :
  parse_cpus (as_range cpus) = Some (sorted_cpus (list_to_set cpus)).
Proof.
  unfold parse_cpus, as_range. destruct (merge_sort N.le cpus) as [|cpu cpus'] eqn:Hm.
  - assert (cpus = []) as ->; [|done]. apply Permutation_nil_r. rewrite <- Hm. symmetry. apply merge_sort_Permutation.
  - rewrite strip_unspaced by (apply join_unspaced, runs_unspaced).
    rewrite split_join by (apply runs_ne || apply runs_clean).
    destruct (runs_parse cpu cpu cpus' ∅ ltac:(lia)) as (Y & -> & HY). simpl. do 2 f_equal.
    apply set_eq. intros c. rewrite HY, elem_of_list_to_set, <- (merge_sort_Permutation N.le cpus), Hm, elem_of_cons.
    assert (cpu ≤ c ≤ cpu ↔ c = cpu) by lia. set_solver.
Qed.

Example demo_cpu_list :
  as_range [16; 5; 6; 7; 15; 9] = "5-7,9,15-16" ∧ parse_cpus " 0-3,,2 " = Some [0; 1; 2; 3] ∧ parse_cpus "3-1" = None.
Proof. by vm_compute. Qed.

(** ** The tiers *)

Lemma elem_of_usable_online S A c : c ∈ usable S A → c ∈ _online S.
Proof. unfold usable. destruct A; set_solver. Qed.

Lemma classify_split S A :
  let '(p, f) := classify S A in
  NoDup (p ++ f) ∧ (∀ c, c ∈ p ++ f ↔ c ∈ usable S A)
  ∧ (∀ c, c ∈ p ↔ c ∈ usable S A ∧ is_preferred S A c = true).
Proof.
  unfold classify. case_bool_decide as Ho.
  { assert (∀ c, c ∉ usable S A) as Hn
      by (intros c Hc%elem_of_usable_online; rewrite Ho in Hc; by apply elem_of_nil in Hc).
    split_and!; [constructor|set_solver|set_solver]. }
  set (cpus := sorted_cpus (usable S A)).
  assert (∀ c, c ∈ merge_sort (fallback_le S A) (filter (λ c, is_preferred S A c = false) cpus)
    ↔ c ∈ cpus ∧ is_preferred S A c = false) as Hf.
  { intros c. rewrite (merge_sort_Permutation _ _), list_elem_of_filter. tauto. }
  split_and!.
  - apply NoDup_app. split_and!; [apply NoDup_filter, NoDup_sorted_cpus| |].
    + intros c [Hp _]%list_elem_of_filter [_ Hn]%Hf. congruence.
    + rewrite (merge_sort_Permutation _ _). apply NoDup_filter, NoDup_sorted_cpus.
  - intros c. rewrite elem_of_app, list_elem_of_filter, Hf. unfold cpus. rewrite elem_of_sorted_cpus.
    destruct (is_preferred S A c); naive_solver.
  - intros c. rewrite list_elem_of_filter. unfold cpus. rewrite elem_of_sorted_cpus. tauto.
Qed.

(** Whether sysfs says a CPU is off: it is not on the online list, or, with no
    list, its own file says so. *)
Definition known_offline (S : Sysfs) (c : N) : Prop :=
  match _read_cpus (sy_online S) with
  | Some online => c ∉ online
  | None => c ∈ sy_entries S ∧ sy_cpu_online S c = Some 0
  end.

Lemma online_elem S c :
  c ∈ _online S ↔ match _read_cpus (sy_online S) with
                  | Some online => c ∈ online
                  | None => c ∈ sy_entries S ∧ sy_cpu_online S c ≠ Some 0 end.
Proof.
  unfold _online. destruct (_read_cpus (sy_online S)); [done|].
  rewrite (merge_sort_Permutation _ _), list_elem_of_filter. tauto.
Qed.

(** The tiers the worker gives its ledger are its own CPUs: every CPU of
    its affinity that sysfs does not say is off is in exactly one tier, none
    outside the affinity is, and no id is repeated -- so the ledger accepts the
    binding; a CPU that sysfs classifies is preferred exactly when it is fast
    and the first usable thread of its core. *)
Theorem inherited_tiers_partition S allowed p f :
  inherited_tiers S (Some allowed) = Some (p, f) →
  (∀ c, c ∈ p ++ f ↔ c ∈ allowed ∧ ¬ known_offline S c)
  ∧ NoDup (p ++ f)
  ∧ (∀ c, c ∈ usable S (Some allowed) →
       (c ∈ p ↔ fast S c = true ∧ ∀ s, s ∈ siblings S (Some allowed) c → c ≤ s))
  ∧ (p ++ f ≠ [] → ∀ L, default 0%nat (held L !! "cpu") = 0%nat →
       configure_cpu_tiers None (ledger_tiers (p, f)) true L
       = (Some (ledger_tiers (p, f)), Ok (Some (ledger_tiers (p, f))))).
Proof.
  unfold inherited_tiers. pose proof (classify_split S (Some allowed)) as Hs.
  destruct (classify S (Some allowed)) as [p0 f0]. destruct Hs as (Hnd & Hin & Hpref).
  set (unk := match _read_cpus (sy_online S) with Some _ => _ | None => _ end). intros [= <- <-].
  assert (∀ c, c ∈ unk ↔ c ∈ allowed ∧ ¬ (c ∈ sy_entries S) ∧ ¬ (c ∈ p0 ++ f0) ∧ ¬ known_offline S c) as Hunk.
  { intros c. unfold unk, known_offline. destruct (_read_cpus (sy_online S)) as [online|].
    - rewrite elem_of_intersection, !elem_of_difference, !elem_of_list_to_set, elem_of_app.
      destruct (decide (c ∈ online)); tauto.
    - rewrite !elem_of_difference, !elem_of_list_to_set, elem_of_app. tauto. }
  assert (∀ c, c ∈ p0 ++ f0 ↔ c ∈ _online S ∧ c ∈ allowed) as Hin2.
  { intros c. rewrite Hin. unfold usable. by rewrite elem_of_intersection, elem_of_list_to_set. }
  assert ((p0 ++ sorted_cpus unk) ++ f0 ≡ₚ sorted_cpus unk ++ (p0 ++ f0)) as Hperm
    by (by rewrite (Permutation_app_comm p0), <- app_assoc).
  assert (NoDup ((p0 ++ sorted_cpus unk) ++ f0)) as HND.
  { rewrite Hperm. apply NoDup_app. split_and!; [apply NoDup_sorted_cpus| |done].
    intros c Hc%elem_of_sorted_cpus. apply Hunk in Hc. tauto. }
  split_and!.
  - intros c. rewrite Hperm, elem_of_app, elem_of_sorted_cpus, Hunk, Hin2, online_elem. unfold known_offline.
    destruct (_read_cpus (sy_online S)) as [online|].
    + destruct (decide (c ∈ online)); tauto.
    + destruct (decide (c ∈ sy_entries S)), (decide (sy_cpu_online S c = Some 0)); tauto.
  - done.
  - intros c Hc. rewrite elem_of_app, elem_of_sorted_cpus, Hunk, Hin, Hpref.
    unfold is_preferred, lead. rewrite andb_true_iff, bool_decide_eq_true.
    assert (set_Forall (λ s, c ≤ s) (siblings S (Some allowed) c ∪ {[c]})
      ↔ ∀ s, s ∈ siblings S (Some allowed) c → c ≤ s) as ->; [|tauto].
    split; [intros H s Hs; apply H; set_solver|]. intros H s [Hs| ->%elem_of_singleton]%elem_of_union; [by apply H|lia].
  - intros Hne L HL. unfold configure_cpu_tiers, ledger_tiers. cbn [preferred fallback fst snd].
    rewrite <- fmap_app. set (cs := (p0 ++ sorted_cpus unk) ++ f0) in *.
    rewrite bool_decide_eq_false_2 by (intros H%fmap_nil_inv; done).
    rewrite (bool_decide_eq_false_2 (Exists _ _)).
    2: { rewrite Exists_exists. intros (z & (n & -> & _)%list_elem_of_fmap & Hz). lia. }
    rewrite (bool_decide_eq_true_2 (NoDup _)) by (by apply NoDup_fmap_2; [apply _|]). simpl.
    by rewrite HL.
Qed.

(** Four threads on two fast cores and one slow core: one thread of each fast
    core is preferred. *)
Definition demo_sysfs : Sysfs :=
  mkSysfs (Some "0-4") [0; 1; 2; 3; 4] (λ _, None)
    (λ c, Some (if bool_decide (c = 4) then 512 else 1024))
    (λ c, if bool_decide (c < 4) then Some (if bool_decide (c mod 2 = 0) then "0,2" else "1,3") else None) None.

Example demo_tiers : inherited_tiers demo_sysfs (Some {[ 1; 2; 3; 4 ]}) = Some ([1; 2], [3; 4]).
Proof. by vm_compute. Qed.

Lemma inherited_tiers_partition_witness :
  (3 ∈ [1; 2] ++ [3; 4] ↔ 3 ∈ ({[ 1; 2; 3; 4 ]} : gset N) ∧ ¬ known_offline demo_sysfs 3)
  ∧ NoDup ([1; 2] ++ [3; 4] : list N).
Proof.
  destruct (inherited_tiers_partition demo_sysfs {[ 1; 2; 3; 4 ]} [1; 2] [3; 4]) as (Hin & Hnd & _).
  - by vm_compute.
  - exact (conj (Hin 3) Hnd).
Defined.
