(* ===== verification/PoolProbe.v ===== *)
(** * Whether a mover's pool was the bottleneck

    [PoolContentionProbe] of [src/prismabuild/pool.py] and the interval
    arithmetic it shares with the disk pacer ([worst_member_interval],
    [pool_is_hurting] of [src/prismabuild/storage_tiers.py]).  A member's row
    is the integers of its [stat] file; times are integer microseconds; rates
    are exact rationals where the code rounds a float. *)

From S2P Require Import Prelude.
From S2P Require Import Watch.
From Stdlib Require Import QArith.QArith QArith.Qminmax.
From stdpp Require Import options.

Open Scope Z_scope.

Definition STAT_READS_COMPLETED : nat := 0.
Definition STAT_READ_SECTORS : nat := 2.
Definition STAT_READ_MS : nat := 3.
Definition STAT_IN_FLIGHT : nat := 8.
Definition STAT_IO_TICKS : nat := 9.
Definition STAT_WEIGHTED_IO_MS : nat := 10.
Definition HOLD_RELEASE_FRACTION : Q := (1 # 2)%Q.
Definition MAX_BLIND_EVENTS : nat := 64.

Abbreviation Rows := (gmap string (list Z)).

Definition field (row : list Z) (i : nat) : Z := default 0 (row !! i).
Definition complete_row (row : list Z) : bool := bool_decide (STAT_WEIGHTED_IO_MS < length row)%nat.

(** The worst member's numbers. *)
Record Worst := mkWorst { wo_util : Q; wo_await : Q; wo_backlog : Q; wo_in_flight : Z }.
Definition calm : Worst := mkWorst 0 0 0 0.

Definition member_interval (elapsed : Z) (row before : list Z) (w : Worst) : Worst :=
  let reads := field row STAT_READS_COMPLETED - field before STAT_READS_COMPLETED in
  let read_ms := field row STAT_READ_MS - field before STAT_READ_MS in
  let ticks := field row STAT_IO_TICKS - field before STAT_IO_TICKS in
  let weighted := field row STAT_WEIGHTED_IO_MS - field before STAT_WEIGHTED_IO_MS in
  mkWorst
    (Qmax (wo_util w) (Qmin 100 (inject_Z (100 * ticks * 1000) / inject_Z elapsed)))
    (Qmax (wo_await w) (if bool_decide (0 < reads) then inject_Z read_ms / inject_Z reads else 0%Q))
    (Qmax (wo_backlog w) (inject_Z (weighted * second) / inject_Z elapsed))
    (Z.max (wo_in_flight w) (field row STAT_IN_FLIGHT)).

(** One member of the interval: it counts when both rows are complete. *)
Definition add_member (previous : Rows) (elapsed : Z) (acc : bool * Worst * Z) (kv : string * list Z)
  : bool * Worst * Z :=
  let '(seen, w, sectors) := acc in
  match previous !! kv.1 with
  | Some before =>
      if complete_row kv.2 && complete_row before
      then (true, member_interval elapsed kv.2 before w,
            sectors + Z.max 0 (field kv.2 STAT_READ_SECTORS - field before STAT_READ_SECTORS))
      else acc
  | None => acc
  end.

Definition worst_member_interval (previous current : Rows) (elapsed : Z) : option (Worst * Z) :=
  if bool_decide (elapsed ≤ 0) then None
  else
    let '(seen, w, sectors) := foldl (add_member previous elapsed) (false, calm, 0) (sorted_items current) in
    if seen then Some (w, sectors) else None.

Definition Qgt_bool (a b : Q) : bool := negb (Qle_bool a b).

(** Over a cap, or once over still above the release fraction of it; a cap of
    zero or less is off. *)
Definition pool_is_hurting (w : Worst) (max_await max_backlog : Q) (over : bool) : bool :=
  let scale := if over then HOLD_RELEASE_FRACTION else 1%Q in
  (Qgt_bool max_await 0 && Qgt_bool (wo_await w) (max_await * scale))
  || (Qgt_bool max_backlog 0 && Qgt_bool (wo_backlog w) (max_backlog * scale)).

(** ** The probe *)

(** Intervals and time by verdict. *)
Record Split := mkSplit { sp_over : Z; sp_under : Z; sp_blind : Z }.

Definition add_split (v : PoolVerdict) (x : Z) (s : Split) : Split :=
  match v with
  | Over => mkSplit (sp_over s + x) (sp_under s) (sp_blind s)
  | Under => mkSplit (sp_over s) (sp_under s + x) (sp_blind s)
  | Blind => mkSplit (sp_over s) (sp_under s) (sp_blind s + x)
  end.

Record Probe := mkProbe {
  pb_members : list string; pb_max_await : Q; pb_max_backlog : Q;
  pb_counts : Split; pb_time : Split;
  pb_blind_starts : nat; pb_blind : bool; pb_over_starts : nat; pb_over : bool;
  pb_missing : list string; pb_peak : option Q;
  pb_previous : option Rows; pb_previous_at : Z }.

(** What the kernel answers for each member; [None] is an unreadable row. *)
Definition Stats := string → option (list Z).

(** The members without a complete row, and the rows. *)
Definition read_rows (stat : Stats) (members : list string) : list string * Rows :=
  foldl (λ acc device,
    match stat device with
    | Some row => if complete_row row then (acc.1, <[device := row]> acc.2) else (acc.1 ++ [device], acc.2)
    | None => (acc.1 ++ [device], acc.2)
    end) ([], ∅) members.

(** [_read]: the rows before, and the probe with the rows of now. *)
Definition _read (stat : Stats) (now : Z) (p : Probe) : option Rows * Probe :=
  let '(missing, rows) := read_rows stat (pb_members p) in
  (pb_previous p,
   mkProbe (pb_members p) (pb_max_await p) (pb_max_backlog p) (pb_counts p) (pb_time p)
     (pb_blind_starts p) (pb_blind p) (pb_over_starts p) (pb_over p)
     missing (pb_peak p) (if bool_decide (missing = []) then Some rows else None) now).

Definition new_probe (members : list string) (max_await max_backlog : Q) (stat : Stats) (now : Z) : Probe :=
  snd (_read stat now (mkProbe members max_await max_backlog (mkSplit 0 0 0) (mkSplit 0 0 0)
                         0 false 0 false [] None None now)).

(** One verdict: what it is, when its interval began, whether it starts a
    blind or an over stretch, and whether it is over only by the hysteresis. *)
Record Judged := mkJudged {
  jd_verdict : PoolVerdict; jd_since : Z; jd_interval : Z; jd_blind_start : bool; jd_over_start : bool;
  jd_release_band : bool; jd_worst : option Worst }.

Definition judge (stat : Stats) (now : Z) (p0 : Probe) : Judged * Probe :=
  let since := pb_previous_at p0 in
  let '(previous, p) := _read stat now p0 in
  let elapsed := Z.max 0 (now - since) in
  let interval :=
    match previous, pb_previous p with
    | Some prev, Some cur => Some (worst_member_interval prev cur elapsed)
    | _, _ => None
    end in
  let '(verdict, band, worst, peak) :=
    match interval with
    | None => (Blind, false, None, pb_peak p)
    | Some None => (Under, false, None, pb_peak p)
    | Some (Some (w, sectors)) =>
        let over := pool_is_hurting w (pb_max_await p) (pb_max_backlog p) (pb_over p) in
        let rate := (inject_Z (sectors * 512 * second) / inject_Z elapsed)%Q in
        (if over then Over else Under,
         over && pb_over p && negb (Qgt_bool (wo_await w) (pb_max_await p)
                                    || Qgt_bool (wo_backlog w) (pb_max_backlog p)),
         Some w, Some (Qmax (default 0%Q (pb_peak p)) rate))
    end in
  let blind := match verdict with Blind => true | _ => false end in
  let over := match verdict with Over => true | _ => false end in
  let blind_start := blind && negb (pb_blind p) in
  let over_start := over && negb (pb_over p) in
  (mkJudged verdict since elapsed blind_start over_start band worst,
   mkProbe (pb_members p) (pb_max_await p) (pb_max_backlog p)
     (add_split verdict 1 (pb_counts p)) (add_split verdict elapsed (pb_time p))
     (if blind_start then S (pb_blind_starts p) else pb_blind_starts p) blind
     (if over_start then S (pb_over_starts p) else pb_over_starts p) (over || blind)
     (pb_missing p) peak (pb_previous p) (pb_previous_at p)).

(** The worker's heartbeat: judge, then credit the interval. *)
Definition heartbeat (pw : Probe * ProgressWatch) (beat : Z * Stats) : Probe * ProgressWatch :=
  let '(j, p) := judge (snd beat) (fst beat) (fst pw) in
  (p, snd (exempt_pool_contention (jd_verdict j) (fst beat) (jd_since j) (snd pw))).

(** ** Who held the stage's lock *)

(** A holder's record: its action, or role, host and pid, or nothing. *)
Record GateHolder := mkGateHolder {
  gh_action : option string; gh_recorded : bool; gh_identity : string; gh_live : option bool }.

Record GateEntry := mkGateEntry { ge_action : option string; ge_held : Z; ge_looks : nat; ge_live : option bool }.

Definition gate_name (h : GateHolder) : string :=
  match gh_action h with
  | Some a => if bool_decide (a = "") then (if gh_recorded h then gh_identity h else "unrecorded") else a
  | None => if gh_recorded h then gh_identity h else "unrecorded"
  end.

(** Attribute [held] to a holder: whether it is new and on the record, the
    entries, and how many holders were dropped. *)
Definition note_gate_holder (h : GateHolder) (held : Z) (entries : gmap string GateEntry) (dropped : nat)
  : bool * gmap string GateEntry * nat :=
  let name := gate_name h in
  let more e := mkGateEntry (ge_action e) (ge_held e + Z.max 0 held) (S (ge_looks e)) (gh_live h) in
  match entries !! name with
  | Some e => (false, <[name := more e]> entries, dropped)
  | None =>
      if bool_decide (MAX_BLIND_EVENTS ≤ size entries)%nat then (false, entries, S dropped)
      else (true, <[name := more (mkGateEntry (gh_action h) 0 0 None)]> entries, dropped)
  end.
