(* ===== verification/PoolProbeSpec.v ===== *)
(** * The probe accounts for every second, and the worker credits only what
    it judged *)

From S2P Require Import Prelude.
From S2P Require Import Watch.
From S2P Require Import PoolProbe.
From Stdlib Require Import QArith.QArith QArith.Qminmax.
From stdpp Require Import options.

Open Scope Z_scope.

Definition total (s : Split) : Z := sp_over s + sp_under s + sp_blind s.
(** The time a pool was over or could not be read. *)
Definition contended (s : Split) : Z := sp_over s + sp_blind s.
Definition pool_credit (w : ProgressWatch) : Z := pool_contention_exempt (pw_credits w).

(** The beats' clock never goes back, from [t]. *)
Fixpoint in_time (t : Z) (beats : list (Z * Stats)) : Prop :=
  match beats with [] => True | (now, _) :: beats' => t ≤ now ∧ in_time now beats' end.

Lemma total_add v x s : total (add_split v x s) = total s + x.
Proof. unfold total. destruct v; simpl; lia. Qed.

Lemma judge_accounts stat now p j p' :
  judge stat now p = (j, p') →
  jd_since j = pb_previous_at p ∧ jd_interval j = Z.max 0 (now - pb_previous_at p)
  ∧ pb_previous_at p' = now
  ∧ pb_time p' = add_split (jd_verdict j) (jd_interval j) (pb_time p)
  ∧ pb_counts p' = add_split (jd_verdict j) 1 (pb_counts p).
Proof.
  unfold judge, _read. destruct (read_rows stat (pb_members p)) as [missing rows].
  destruct (match pb_previous p with Some _ => _ | None => _ end) as [[[w sectors]|]|];
    intros [= <- <-]; done.
Qed.

Lemma exempt_pool_spec v now since w :
  let w' := snd (exempt_pool_contention v now since w) in
  pool_credit w ≤ pool_credit w'
  ∧ pool_credit w' ≤ pool_credit w + match v with Under => 0 | _ => Z.max 0 (now - since) end.
Proof.
  unfold exempt_pool_contention, _credit, pool_credit.
  destruct v; simpl; [|lia|]; destruct (pw_credits w); simpl; lia.
Qed.

Lemma Qgt_bool_false a b : Qgt_bool a b = false → (a <= b)%Q.
Proof. unfold Qgt_bool. rewrite negb_false_iff. apply Qle_bool_imp_le. Qed.

Lemma Qgt_bool_true a b : (b < a)%Q → Qgt_bool a b = true.
Proof.
  intros Hlt. unfold Qgt_bool. apply negb_true_iff. apply not_true_is_false.
  intros Hle%Qle_bool_imp_le. by apply Qlt_not_le in Hlt.
Qed.

(** Released from a hold only below the release fraction of both caps. *)
Lemma judge_releases stat now p j p' w :
  judge stat now p = (j, p') → pb_over p = true → jd_verdict j = Under → jd_worst j = Some w →
  ((0 < pb_max_await p)%Q → (wo_await w <= pb_max_await p * HOLD_RELEASE_FRACTION)%Q)
  ∧ ((0 < pb_max_backlog p)%Q → (wo_backlog w <= pb_max_backlog p * HOLD_RELEASE_FRACTION)%Q).
Proof.
  unfold judge, _read. destruct (read_rows stat (pb_members p)) as [missing rows].
  destruct (match pb_previous p with Some _ => _ | None => _ end) as [[[w0 sectors]|]|];
    intros [= <- <-] Ho; simpl; [|done|done].
  destruct (pool_is_hurting w0 (pb_max_await p) (pb_max_backlog p) (pb_over p)) eqn:Hh; [done|].
  intros _ [= ->]. unfold pool_is_hurting in Hh. rewrite Ho in Hh. apply orb_false_iff in Hh as [H1 H2].
  split; intros Hcap; apply Qgt_bool_false; [rewrite (Qgt_bool_true _ _ Hcap) in H1|
    rewrite (Qgt_bool_true _ _ Hcap) in H2]; done.
Qed.

(** Over any run of heartbeats the probe's three times add up to the time
    that passed and its counts to the beats; the worker's pool credit grows by
    no more than the time judged over or blind; and a pool once over, or
    unreadable, is released only when both its numbers are at most the release
    fraction of their caps. *)
Theorem pool_credit_is_judged beats p w p' w' :
  in_time (pb_previous_at p) beats → foldl heartbeat (p, w) beats = (p', w') →
  total (pb_time p') - total (pb_time p) = pb_previous_at p' - pb_previous_at p
  ∧ total (pb_counts p') = total (pb_counts p) + Z.of_nat (length beats)
  ∧ 0 ≤ pool_credit w' - pool_credit w ≤ contended (pb_time p') - contended (pb_time p)
  ∧ (∀ stat now j p2 ws, judge stat now p' = (j, p2) → pb_over p' = true → jd_verdict j = Under →
       jd_worst j = Some ws →
       ((0 < pb_max_await p')%Q → (wo_await ws <= pb_max_await p' * HOLD_RELEASE_FRACTION)%Q)
       ∧ ((0 < pb_max_backlog p')%Q → (wo_backlog ws <= pb_max_backlog p' * HOLD_RELEASE_FRACTION)%Q)).
Proof.
  intros Ht Hf. cut (total (pb_time p') - total (pb_time p) = pb_previous_at p' - pb_previous_at p
    ∧ total (pb_counts p') = total (pb_counts p) + Z.of_nat (length beats)
    ∧ 0 ≤ pool_credit w' - pool_credit w ≤ contended (pb_time p') - contended (pb_time p)).
  { intros (H1 & H2 & H3). split_and!; [done|done|apply H3|apply H3|]. intros. by eapply judge_releases. }
  revert p w Ht Hf. induction beats as [|[now stat] beats IH]; intros p w Ht; cbn [foldl].
  { intros [= <- <-]. simpl. lia. }
  destruct Ht as [Hle Ht]. unfold heartbeat at 2. cbn [fst snd].
  destruct (judge stat now p) as [j p1] eqn:Hj.
  destruct (judge_accounts _ _ _ _ _ Hj) as (J1 & J2 & J3 & J4 & J5). intros Hf.
  pose proof (exempt_pool_spec (jd_verdict j) now (jd_since j) w) as [E1 E2]. rewrite <- J3 in Ht.
  destruct (IH _ _ Ht Hf) as (I1 & I2 & I3). rewrite J4, total_add in I1. rewrite J5, total_add in I2.
  rewrite J4 in I3. cbn [length].
  assert (contended (add_split (jd_verdict j) (jd_interval j) (pb_time p)) =
    contended (pb_time p) + match jd_verdict j with Under => 0 | _ => jd_interval j end) as Hc
    by (unfold contended; destruct (jd_verdict j); simpl; lia).
  rewrite Hc in I3. split_and!; [lia|lia|lia|]. destruct (jd_verdict j); lia.
Qed.

(** One busy disk: 20 ms a read over the first second, then idle. *)
Definition demo_stat (reads read_ms : Z) : Stats := λ _, Some [reads; 0; reads; read_ms; 0; 0; 0; 0; 0; 0; 0].
Definition demo_probe : Probe := new_probe ["sda"] 10 1000 (demo_stat 0 0) 0.
Definition demo_beats : list (Z * Stats) :=
  [(second, demo_stat 10 200); (2 * second, λ _, None); (3 * second, demo_stat 20 210)].
Definition demo_watch : ProgressWatch := new_watch "tok" (mkPolicy [mkPhase "copy" second None] false) 0.

Example demo_judged :
  pb_time (foldl heartbeat (demo_probe, demo_watch) demo_beats).1 = mkSplit second 0 (2 * second)
  ∧ pool_credit (foldl heartbeat (demo_probe, demo_watch) demo_beats).2 = 3 * second.
Proof. by vm_compute. Qed.

Lemma pool_credit_is_judged_witness :
  total (pb_time (foldl heartbeat (demo_probe, demo_watch) demo_beats).1) - total (pb_time demo_probe) = 3 * second.
Proof.
  destruct (foldl heartbeat (demo_probe, demo_watch) demo_beats) as [p' w'] eqn:Hf.
  destruct (pool_credit_is_judged demo_beats demo_probe demo_watch p' w') as [H _].
  - simpl. unfold second. lia.
  - exact Hf.
  - cbn [fst]. rewrite H. change p' with (fst (p', w')). rewrite <- Hf. by vm_compute.
Defined.
