(* ===== verification/PosixLock.v ===== *)
(** * The transition lock ([posix_lock.py])

    [held] and [retire] as programs over the system calls they make, run by
    any number of threads of any number of processes.  One lock path is
    modelled: a name that names an inode or nothing.  [lockf] locks belong to
    a process and go away when the process closes any descriptor of the inode;
    threads of one process are kept apart by the [RLock] of [_threads], and
    [_owned] is the thread-local note that makes nesting cheap.  Every call
    that can raise may raise.  Reporting ([busy], [F_GETLK], the submission
    timings) is left out.  The retry loop of [held] is bounded by a number of
    turns; a thread that used them up waits forever, so that every finite run
    of the code is a run of the model for some bound. *)
From S2P Require Import Prelude.

(** A process and one of its threads. *)
Abbreviation tid := (nat * nat)%type.

(** ** The state *)

(** What a lock file holds: nothing, [TOMBSTONE], or other bytes. *)
Inductive content := Empty | Tombstone | Other (size : nat).

#[export] Instance content_eq_dec : EqDecision content.
Proof. solve_decision. Defined.

Definition TOMBSTONE_LEN : nat := 31.

Definition st_size (c : content) : nat :=
  match c with Empty => 0 | Tombstone => TOMBSTONE_LEN | Other n => n end.

Record sys := mkSys {
  s_name : option nat;               (* the inode the path names *)
  s_kept : gset nat;                 (* unnamed inodes an NFS client keeps linked *)
  s_data : gmap nat content;         (* the bytes of every inode ever made *)
  s_lock : gmap nat nat;             (* [lockf]: inode to process *)
  s_open : gmap nat (nat * nat);     (* descriptor to process and inode *)
  s_mutex : gmap nat (nat * nat);    (* [_threads]: process to thread and depth *)
  s_owned : gset tid;                (* [_owned.paths] holds the key *)
  s_inside : gmap tid nat }.         (* bodies entered with [True], by thread *)

Definition set_name v s := mkSys v (s_kept s) (s_data s) (s_lock s) (s_open s) (s_mutex s) (s_owned s) (s_inside s).
Definition set_kept v s := mkSys (s_name s) v (s_data s) (s_lock s) (s_open s) (s_mutex s) (s_owned s) (s_inside s).
Definition set_data v s := mkSys (s_name s) (s_kept s) v (s_lock s) (s_open s) (s_mutex s) (s_owned s) (s_inside s).
Definition set_lock v s := mkSys (s_name s) (s_kept s) (s_data s) v (s_open s) (s_mutex s) (s_owned s) (s_inside s).
Definition set_open v s := mkSys (s_name s) (s_kept s) (s_data s) (s_lock s) v (s_mutex s) (s_owned s) (s_inside s).
Definition set_mutex v s := mkSys (s_name s) (s_kept s) (s_data s) (s_lock s) (s_open s) v (s_owned s) (s_inside s).
Definition set_owned v s := mkSys (s_name s) (s_kept s) (s_data s) (s_lock s) (s_open s) (s_mutex s) v (s_inside s).
Definition set_inside v s := mkSys (s_name s) (s_kept s) (s_data s) (s_lock s) (s_open s) (s_mutex s) (s_owned s) v.

(** No file, no process. *)
Definition boot : sys := mkSys None ∅ ∅ ∅ ∅ ∅ ∅ ∅.

(** ** System calls *)

Inductive opened := Opened (fd : nat) | Missing | Open_error.
Inductive locked := Locked | Refused | Lock_error.
Inductive named := Named (ino : nat) | No_name | Stat_error.
Record fstat := mkFstat { st_nlink : nat; st_bytes : nat; st_ino : nat }.

Inductive op : Type → Type :=
  | Mutex_acquire (blocking : bool) : op bool
  | Mutex_release : op unit
  | Owns : op bool                       (* [key in owners] *)
  | Own : op unit                        (* [owners.add(key)] *)
  | Disown : op unit                     (* [owners.discard(key)] *)
  | Sys : op bool                        (* mkdir, directory open, fsync: may raise *)
  | Open_create : op (option nat)        (* [O_RDWR | O_CREAT | O_NOFOLLOW] *)
  | Open_existing : op opened            (* [O_RDWR | O_NOFOLLOW | O_NONBLOCK] *)
  | Lockf (fd : nat) (blocking : bool) : op locked
  | Unlockf (fd : nat) : op bool
  | Fstat (fd : nat) : op (option fstat)
  | Pread (fd : nat) : op (option bool)  (* whether the bytes are [TOMBSTONE] *)
  | Pwrite (fd : nat) : op bool          (* write [TOMBSTONE] at offset 0 *)
  | Stat_name : op named
  | Unlink_name : op bool
  | Close (fd : nat) : op unit
  | Enter : op unit                      (* the body starts with [True] *)
  | Leave : op unit
  | Work : op bool                       (* a statement of the body; may raise *)
  | Wait_forever : op Empty_set.

(** The inode a process's descriptor is open on. *)
Definition fd_inode (s : sys) (p fd : nat) : option nat :=
  match s_open s !! fd with
  | Some (q, i) => if bool_decide (q = p) then Some i else None
  | None => None
  end.

(** The link count.  An NFS client that unlinks a file still open renames it
    instead, so the count of an unnamed inode can read 1. *)
Definition nlink (s : sys) (i : nat) : nat := if bool_decide (s_name s = Some i ∨ i ∈ s_kept s) then 1 else 0.

Definition release_lock (p i : nat) (s : sys) : sys :=
  if bool_decide (s_lock s !! i = Some p) then set_lock (delete i (s_lock s)) s else s.

(** What a call by thread [t] may answer, and the state it leaves. *)
Definition op_step {X} (o : op X) (t : tid) (s : sys) : X → sys → Prop :=
  let p := fst t in
  match o in op X return X → sys → Prop with
  | Mutex_acquire blocking => λ r s',
      match s_mutex s !! p with
      | None => r = true ∧ s' = set_mutex (<[p := (snd t, 1)]> (s_mutex s)) s
      | Some (th, d) =>
          if bool_decide (th = snd t)
          then r = true ∧ s' = set_mutex (<[p := (th, S d)]> (s_mutex s)) s
          else blocking = false ∧ r = false ∧ s' = s
      end
  | Mutex_release => λ _ s',
      match s_mutex s !! p with
      | Some (th, S (S d)) => th = snd t ∧ s' = set_mutex (<[p := (th, S d)]> (s_mutex s)) s
      | Some (th, _) => th = snd t ∧ s' = set_mutex (delete p (s_mutex s)) s
      | None => False
      end
  | Owns => λ r s', r = bool_decide (t ∈ s_owned s) ∧ s' = s
  | Own => λ _ s', s' = set_owned ({[ t ]} ∪ s_owned s) s
  | Disown => λ _ s', s' = set_owned (s_owned s ∖ {[ t ]}) s
  | Sys => λ _ s', s' = s
  | Open_create => λ r s',
      match r with
      | None => s' = s
      | Some fd =>
          s_open s !! fd = None ∧
          ((∃ i, s_name s = Some i ∧ s' = set_open (<[fd := (p, i)]> (s_open s)) s)
           ∨ (s_name s = None ∧ ∃ i, s_data s !! i = None
              ∧ s' = set_open (<[fd := (p, i)]> (s_open s))
                       (set_name (Some i) (set_data (<[i := Empty]> (s_data s)) s))))
      end
  | Open_existing => λ r s',
      match r with
      | Open_error => s' = s
      | Missing => s_name s = None ∧ s' = s
      | Opened fd =>
          s_open s !! fd = None ∧
          ∃ i, s_name s = Some i ∧ s' = set_open (<[fd := (p, i)]> (s_open s)) s
      end
  | Lockf fd blocking => λ r s',
      match r with
      | Lock_error => s' = s
      | Refused =>
          blocking = false ∧ s' = s ∧
          ∃ i q, fd_inode s p fd = Some i ∧ s_lock s !! i = Some q ∧ q ≠ p
      | Locked =>
          ∃ i, fd_inode s p fd = Some i ∧ (∀ q, s_lock s !! i = Some q → q = p)
               ∧ s' = set_lock (<[i := p]> (s_lock s)) s
      end
  | Unlockf fd => λ r s',
      (* a raising unlock may or may not have unlocked *)
      (r = false ∧ s' = s) ∨ ∃ i, fd_inode s p fd = Some i ∧ s' = release_lock p i s
  | Fstat fd => λ r s',
      s' = s ∧
      match r with
      | None => True
      | Some f => ∃ i c, fd_inode s p fd = Some i ∧ s_data s !! i = Some c
                  ∧ f = mkFstat (nlink s i) (st_size c) i
      end
  | Pread fd => λ r s',
      s' = s ∧
      match r with
      | None => True
      | Some b => ∃ i, fd_inode s p fd = Some i ∧ b = bool_decide (s_data s !! i = Some Tombstone)
      end
  | Pwrite fd => λ r s',
      (* a raising write may have written a part *)
      ∃ i, fd_inode s p fd = Some i
        ∧ if r then s' = set_data (<[i := Tombstone]> (s_data s)) s
          else s' = s ∨ ∃ n, s' = set_data (<[i := Other n]> (s_data s)) s
  | Stat_name => λ r s',
      s' = s ∧ match r with
               | Named i => s_name s = Some i
               | No_name => s_name s = None
               | Stat_error => True
               end
  | Unlink_name => λ r s',
      if r then ∃ i, s_name s = Some i
                ∧ (s' = set_name None s ∨ s' = set_name None (set_kept ({[ i ]} ∪ s_kept s) s))
      else s' = s
  | Close fd => λ _ s',
      ∃ i, fd_inode s p fd = Some i ∧ s' = release_lock p i (set_open (delete fd (s_open s)) s)
  | Enter => λ _ s', s' = set_inside (<[t := S (default 0 (s_inside s !! t))]> (s_inside s)) s
  | Leave => λ _ s', s' = set_inside (<[t := pred (default 0 (s_inside s !! t))]> (s_inside s)) s
  | Work => λ _ s', s' = s
  | Wait_forever => λ _ _, False
  end.

(** ** Programs *)

Inductive proc (A : Type) : Type :=
  | Ret (a : A)
  | Do {X : Type} (o : op X) (k : X → proc A).
Arguments Ret {A} a.
Arguments Do {A X} o k.

Fixpoint proc_bind {A B} (p : proc A) (f : A → proc B) : proc B :=
  match p with
  | Ret a => f a
  | Do o k => Do o (λ x, proc_bind (k x) f)
  end.

#[export] Instance proc_mbind : MBind proc := λ A B f p, proc_bind p f.
#[export] Instance proc_mret : MRet proc := λ A a, Ret a.

Definition call {X} (o : op X) : proc X := Do o Ret.

(** Whether a statement ended by falling through or by an exception. *)
Inductive out := Fine | Raised.

Definition both (a b : bool) (r : out) : out := if a && b then r else Raised.

(** [_retired]: [None] is an exception. *)
Definition _retired (fd : nat) : proc (option bool) :=
  f ← call (Fstat fd);
  match f with
  | None => mret None
  | Some f =>
      if bool_decide (st_nlink f = 0) then mret (Some true)
      else if negb (bool_decide (st_bytes f = TOMBSTONE_LEN)) then mret (Some false)
      else call (Pread fd)
  end.

(** [_finish_retirement]: [false] is an exception. *)
Definition _finish_retirement (fd : nat) : proc bool :=
  f ← call (Fstat fd);
  match f with
  | None => mret false
  | Some f =>
      if bool_decide (st_nlink f = 0) then mret true
      else
        d ← call Sys;
        if negb d then mret false
        else
          n ← call Stat_name;
          match n with
          | No_name => mret true
          | Stat_error => mret false
          | Named i =>
              if negb (bool_decide (i = st_ino f)) then mret true
              else
                u ← call Unlink_name;
                if u : bool then call Sys else mret false
          end
  end.

(** The [while True] of [held], and its [finally]. *)
Fixpoint lock_loop (turns : nat) (blocking : bool) (body : bool → proc out) : proc out :=
  match turns with
  | 0 => Do Wait_forever (λ e, match e with end)
  | S turns' =>
      d ← call Open_create;
      match d with
      | None => call Mutex_release;; mret Raised
      | Some fd =>
          l ← call (Lockf fd blocking);
          match l with
          | Lock_error => call (Close fd);; call Mutex_release;; mret Raised
          | Refused =>
              r ← body false; call (Close fd);; call Mutex_release;; mret r
          | Locked =>
              q ← _retired fd;
              match q with
              | None =>
                  call Disown;; call (Unlockf fd);; call (Close fd);; call Mutex_release;; mret Raised
              | Some false =>
                  call Own;; call Enter;; r ← body true; call Leave;;
                  call Disown;; u ← call (Unlockf fd); call (Close fd);; call Mutex_release;;
                  mret (both u true r)
              | Some true =>
                  f ← _finish_retirement fd; u ← call (Unlockf fd); call (Close fd);;
                  if f && u then lock_loop turns' blocking body
                  else call Mutex_release;; mret Raised
              end
          end
      end
  end.

(** [with held(path, blocking=blocking) as acquired: body(acquired)]. *)
Definition held (turns : nat) (blocking : bool) (body : bool → proc out) : proc out :=
  m ← call (Mutex_acquire blocking);
  if negb m then body false
  else
    own ← call Owns;
    if own : bool then call Enter;; r ← body true; call Leave;; call Mutex_release;; mret r
    else
      d ← call Sys;
      if negb d then call Mutex_release;; mret Raised
      else lock_loop turns blocking body.

(** The locked part of [retire]; whatever it answers, the lock is dropped and
    the descriptor closed. *)
Definition retire_locked (fd : nat) : proc unit :=
  f ← call (Fstat fd);
  match f with
  | None => mret ()
  | Some f =>
      residue ← (if bool_decide (st_bytes f = TOMBSTONE_LEN) then call (Pread fd) else mret (Some false));
      match residue with
      | None => mret ()
      | Some residue =>
          if negb (bool_decide (st_nlink f = 1))
             || (negb (bool_decide (st_bytes f = 0)) && negb residue)
          then mret ()
          else
            n ← call Stat_name;
            match n with
            | No_name | Stat_error => mret ()
            | Named i =>
                if negb (bool_decide (i = st_ino f)) then mret ()
                else
                  w ← (if residue then mret true
                       else (a ← call (Pwrite fd); if a : bool then call Sys else mret false));
                  if negb w then mret ()
                  else (u ← call Unlink_name; if u : bool then call Sys;; mret () else mret ())
            end
      end
  end.

(** [retire]. *)
Definition retire : proc out :=
  m ← call (Mutex_acquire false);
  if negb m then mret Fine
  else
    own ← call Owns;
    if own : bool then call Mutex_release;; mret Fine
    else
      d ← call Sys;
      if negb d then call Mutex_release;; mret Fine
      else
        o ← call Open_existing;
        match o with
        | Missing | Open_error => call Mutex_release;; mret Fine
        | Opened fd =>
            f ← call (Fstat fd);
            match f with
            | None => call (Close fd);; call Mutex_release;; mret Raised
            | Some f =>
                if negb (bool_decide (st_nlink f = 1))
                then call (Close fd);; call Mutex_release;; mret Fine
                else
                  l ← call (Lockf fd false);
                  match l with
                  | Refused | Lock_error => call (Close fd);; call Mutex_release;; mret Fine
                  | Locked =>
                      retire_locked fd;; u ← call (Unlockf fd); call (Close fd);;
                      call Mutex_release;; mret (both u true Fine)
                  end
            end
        end.

(** ** Callers *)

(** What the code around does: statements, sequences, [with held(...)] blocks
    with a branch for a refused lock, nested to any depth, and [retire]. *)
Inductive client :=
  | Statement
  | Seq (a b : client)
  | With (turns : nat) (blocking : bool) (taken refused : client)
  | Retire.

Fixpoint run (c : client) : proc out :=
  match c with
  | Statement => b ← call Work; mret (if b : bool then Fine else Raised)
  | Seq a b => r ← run a; match r with Fine => run b | Raised => mret Raised end
  | With turns blocking taken refused =>
      held turns blocking (λ acquired, if acquired then run taken else run refused)
  | Retire => retire
  end.

(** ** The machine *)

Abbreviation pool := (gmap tid (proc out)).

(** A killed process: its threads, descriptors, locks and mutex are gone. *)
Definition kill (p : nat) (s : sys) : sys :=
  mkSys (s_name s) (s_kept s) (s_data s) (filter (λ kv, kv.2 ≠ p) (s_lock s)) (filter (λ kv, kv.2.1 ≠ p) (s_open s))
    (delete p (s_mutex s)) (filter (λ t, t.1 ≠ p) (s_owned s)) (filter (λ kv, kv.1.1 ≠ p) (s_inside s)).

Inductive step : sys * pool → sys * pool → Prop :=
  | step_call t s s' P X (o : op X) k r :
      P !! t = Some (Do o k) → op_step o t s r s' → step (s, P) (s', <[t := k r]> P)
  | step_start t s P c :
      (P !! t = None ∨ ∃ r, P !! t = Some (Ret r)) → step (s, P) (s, <[t := run c]> P)
  | step_kill p s P : step (s, P) (kill p s, filter (λ kv, kv.1.1 ≠ p) P).
