(* ===== verification/PosixLockSpec.v ===== *)
(** * Exclusion under the transition lock

    A thread's view of the system is a [mode]: the mutex depth, the
    descriptors it has open, the inode it has locked and what it knows of
    that inode.  [pre] says in which mode a call is safe, [post] the mode it
    leaves; [call_sound] shows that calls made in their mode keep the views of
    all threads true, and [run_safe] that callers of [held] and [retire] only
    make such calls. *)
From stdpp Require Import functions.
From S2P Require Import Prelude.
From S2P Require Import PosixLock.

(** ** Modes *)

Record mode := mkMode {
  m_depth : nat;                    (* of the process's [RLock] *)
  m_fds : gmap nat nat;             (* open descriptors and their inodes *)
  m_lock : option (nat * nat);      (* the locked descriptor and its inode *)
  m_named : bool;                   (* the path names that inode *)
  m_tomb : option bool;             (* whether it is known (not) tombstoned *)
  m_own : bool;                     (* [key in owners] *)
  m_in : nat }.                     (* bodies entered *)

Definition idle : mode := mkMode 0 ∅ None false None false 0.

(** The mode is true of thread [t]. *)
Record holds (t : tid) (m : mode) (s : sys) : Prop := mkHolds {
  h_depth : ∀ d, s_mutex s !! t.1 = Some (t.2, d) ↔ m_depth m = d ∧ d ≠ 0;
  h_fds : ∀ f i, m_fds m !! f = Some i → s_open s !! f = Some (t.1, i);
  h_open : m_fds m ≠ ∅ → m_depth m ≠ 0;
  h_lock : ∀ f i, m_lock m = Some (f, i) → m_fds m !! f = Some i ∧ s_lock s !! i = Some t.1;
  h_named : m_named m = true → ∃ f i, m_lock m = Some (f, i) ∧ s_name s = Some i;
  h_tomb : ∀ b, m_tomb m = Some b → ∃ f i, m_lock m = Some (f, i)
             ∧ (b = true ↔ s_data s !! i = Some Tombstone);
  h_own : t ∈ s_owned s ↔ m_own m = true;
  h_owns : m_own m = true → m_named m = true ∧ m_tomb m = Some false;
  h_in : default 0 (s_inside s !! t) = m_in m;
  h_inside : m_in m ≠ 0 → m_own m = true }.

(** Every thread's mode is true, and nothing else is open or locked. *)
Record Inv (s : sys) (Ms : tid → mode) : Prop := mkInv {
  i_holds : ∀ t, holds t (Ms t) s;
  i_open : ∀ f p i, s_open s !! f = Some (p, i) →
    is_Some (s_data s !! i) ∧ ∃ th, m_fds (Ms (p, th)) !! f = Some i;
  i_lock : ∀ i p, s_lock s !! i = Some p → ∃ th f, m_lock (Ms (p, th)) = Some (f, i);
  i_name : ∀ i, s_name s = Some i → is_Some (s_data s !! i);
  i_kept : ∀ i, i ∈ s_kept s → s_data s !! i = Some Tombstone ∧ s_name s ≠ Some i;
  i_gone : ∀ i c, s_data s !! i = Some c → s_name s = Some i ∨ c = Tombstone }.

Definition set_depth d m := mkMode d (m_fds m) (m_lock m) (m_named m) (m_tomb m) (m_own m) (m_in m).
Definition set_fds F m := mkMode (m_depth m) F (m_lock m) (m_named m) (m_tomb m) (m_own m) (m_in m).
Definition set_held l m := mkMode (m_depth m) (m_fds m) l false None (m_own m) (m_in m).
Definition set_known n b m := mkMode (m_depth m) (m_fds m) (m_lock m) n b (m_own m) (m_in m).
Definition set_own b m := mkMode (m_depth m) (m_fds m) (m_lock m) (m_named m) (m_tomb m) b (m_in m).
Definition set_in n m := mkMode (m_depth m) (m_fds m) (m_lock m) (m_named m) (m_tomb m) (m_own m) n.

(** The mode in which a call keeps every view true. *)
Definition pre {X} (m : mode) (o : op X) : Prop :=
  match o with
  | Mutex_release => m_depth m ≠ 0 ∧ (m_depth m = 1 → m_fds m = ∅)
  | Own => m_named m = true ∧ m_tomb m = Some false
  | Disown => m_in m = 0
  | Open_create | Open_existing => m_depth m ≠ 0
  | Lockf fd _ => is_Some (m_fds m !! fd) ∧ m_lock m = None
  | Unlockf fd => m_own m = false ∧ ∃ i, m_lock m = Some (fd, i)
  | Close fd => m_own m = false ∧ is_Some (m_fds m !! fd) ∧ ∀ f i, m_lock m = Some (f, i) → f = fd
  | Fstat fd | Pread fd => m_own m = false ∧ is_Some (m_fds m !! fd)
  | Pwrite fd => m_own m = false ∧ m_named m = true ∧ ∃ i, m_lock m = Some (fd, i)
  | Unlink_name => m_own m = false ∧ m_named m = true ∧ m_tomb m = Some true
  | Enter => m_own m = true
  | Leave => m_in m ≠ 0
  | Mutex_acquire _ | Owns | Sys | Stat_name | Work | Wait_forever => True
  end.

(** The mode it leaves. *)
Definition post {X} (m : mode) (o : op X) : X → mode → Prop :=
  match o in op X return X → mode → Prop with
  | Mutex_acquire _ => λ r m', m' = if r then set_depth (S (m_depth m)) m else m
  | Mutex_release => λ _ m', m' = set_depth (pred (m_depth m)) m
  | Owns => λ r m', r = m_own m ∧ m' = m
  | Own => λ _ m', m' = set_own true m
  | Disown => λ _ m', m' = set_own false m
  | Sys | Work => λ _ m', m' = m
  | Open_create => λ r m',
      match r with
      | None => m' = m
      | Some fd => m_fds m !! fd = None ∧ ∃ i, m' = set_fds (<[fd := i]> (m_fds m)) m
      end
  | Open_existing => λ r m',
      match r with
      | Opened fd => m_fds m !! fd = None ∧ ∃ i, m' = set_fds (<[fd := i]> (m_fds m)) m
      | _ => m' = m
      end
  | Lockf fd _ => λ r m',
      match r with
      | Locked => ∃ i, m_fds m !! fd = Some i ∧ m' = set_held (Some (fd, i)) m
      | _ => m' = m
      end
  | Unlockf fd => λ r m', m' = set_held None m ∨ (r = false ∧ m' = m)
  | Fstat fd => λ r m',
      match r with
      | None => m' = m
      | Some f => m_fds m !! fd = Some (st_ino f)
          ∧ (m_lock m = Some (fd, st_ino f) → m_tomb m = Some true → st_bytes f = TOMBSTONE_LEN)
          ∧ m' = if bool_decide (m_lock m = Some (fd, st_ino f))
                 then if bool_decide (st_nlink f = 0) then set_known false (Some true) m
                      else if bool_decide (st_bytes f = TOMBSTONE_LEN) then m
                      else set_known true (Some false) m
                 else m
      end
  | Pread fd => λ r m',
      match r with
      | None => m' = m
      | Some b => ∃ i, m_fds m !! fd = Some i
          ∧ m' = if bool_decide (m_lock m = Some (fd, i))
                 then set_known (if b then m_named m else true) (Some b) m else m
      end
  | Pwrite fd => λ r m', m' = set_known (m_named m) (if r then Some true else None) m
  | Stat_name => λ r m',
      m' = match r, m_lock m with
           | Named i, Some (_, j) => if bool_decide (i = j) then set_known true (m_tomb m) m else m
           | _, _ => m
           end
  | Unlink_name => λ r m', m' = if r then set_known false (m_tomb m) m else m
  | Close fd => λ _ m', m' = set_fds (delete fd (m_fds m)) (set_held None m)
  | Enter => λ _ m', m' = set_in (S (m_in m)) m
  | Leave => λ _ m', m' = set_in (pred (m_in m)) m
  | Wait_forever => λ _ _, False
  end.

(** ** What the views exclude *)

Section inv.
Context (s : sys) (Ms : tid → mode) (HI : Inv s Ms).

(** Two threads of a process that both hold its mutex are one. *)
Lemma one_mutex p th th' :
  m_depth (Ms (p, th)) ≠ 0 → m_depth (Ms (p, th')) ≠ 0 → th = th'.
Proof using HI.
  intros H1 H2.
  pose proof (proj2 (h_depth _ _ _ (i_holds _ _ HI (p, th)) _) (conj eq_refl H1)) as E1.
  pose proof (proj2 (h_depth _ _ _ (i_holds _ _ HI (p, th')) _) (conj eq_refl H2)) as E2.
  cbn in E1, E2. congruence.
Qed.

Lemma fds_depth t f i : m_fds (Ms t) !! f = Some i → m_depth (Ms t) ≠ 0.
Proof using HI. intros Hf. apply (h_open _ _ _ (i_holds _ _ HI t)). intros He. by rewrite He in Hf. Qed.

Lemma lock_fds t f i : m_lock (Ms t) = Some (f, i) → m_fds (Ms t) !! f = Some i.
Proof using HI. intros Hl. apply (h_lock _ _ _ (i_holds _ _ HI t) f i Hl). Qed.

(** A descriptor has one thread. *)
Lemma one_fd t t' f i i' :
  m_fds (Ms t) !! f = Some i → m_fds (Ms t') !! f = Some i' → t = t'.
Proof using HI.
  intros H1 H2. pose proof (h_fds _ _ _ (i_holds _ _ HI t) _ _ H1) as E1.
  pose proof (h_fds _ _ _ (i_holds _ _ HI t') _ _ H2) as E2.
  destruct t as [p th], t' as [p' th']. cbn in *. assert (p' = p) as -> by congruence.
  f_equal. eauto using one_mutex, fds_depth.
Qed.

(** An inode's lock has one thread. *)
Lemma one_lock t t' f f' i :
  m_lock (Ms t) = Some (f, i) → m_lock (Ms t') = Some (f', i) → t = t'.
Proof using HI.
  intros H1 H2. destruct (h_lock _ _ _ (i_holds _ _ HI t) _ _ H1) as [F1 E1].
  destruct (h_lock _ _ _ (i_holds _ _ HI t') _ _ H2) as [F2 E2].
  destruct t as [p th], t' as [p' th']. cbn in *. assert (p' = p) as -> by congruence.
  f_equal. eauto using one_mutex, fds_depth.
Qed.

(** Nobody but [t] locks an inode [t] could lock. *)
Lemma free_or_mine t f i :
  m_fds (Ms t) !! f = Some i → (∀ q, s_lock s !! i = Some q → q = t.1) →
  ∀ t' f', m_lock (Ms t') = Some (f', i) → t' = t.
Proof using HI.
  intros Hf Hq t' f' Hl. destruct (h_lock _ _ _ (i_holds _ _ HI t') _ _ Hl) as [F E].
  apply Hq in E. destruct t as [p th], t' as [p' th']. cbn in *. subst p'.
  f_equal. eauto using one_mutex, fds_depth.
Qed.

(** At most one thread is inside. *)
Lemma one_inside t t' : m_in (Ms t) ≠ 0 → m_in (Ms t') ≠ 0 → t = t'.
Proof using HI.
  intros H1 H2. apply (h_inside _ _ _ (i_holds _ _ HI t)) in H1.
  apply (h_inside _ _ _ (i_holds _ _ HI t')) in H2.
  apply (h_owns _ _ _ (i_holds _ _ HI t)) in H1 as [N1 _].
  apply (h_owns _ _ _ (i_holds _ _ HI t')) in H2 as [N2 _].
  destruct (h_named _ _ _ (i_holds _ _ HI t) N1) as (f & i & L1 & E1).
  destruct (h_named _ _ _ (i_holds _ _ HI t') N2) as (f' & i' & L2 & E2).
  assert (i' = i) as -> by congruence. eauto using one_lock.
Qed.

End inv.

(** ** Calls keep the views true *)

Lemma inv_update t m' (s' : sys) Ms :
  holds t m' s' → (∀ t', t' ≠ t → holds t' (Ms t') s') →
  (∀ f p i, s_open s' !! f = Some (p, i) →
     is_Some (s_data s' !! i) ∧ ∃ th, m_fds ((<[t:=m']> Ms) (p, th)) !! f = Some i) →
  (∀ i p, s_lock s' !! i = Some p → ∃ th f, m_lock ((<[t:=m']> Ms) (p, th)) = Some (f, i)) →
  (∀ i, s_name s' = Some i → is_Some (s_data s' !! i)) →
  (∀ i, i ∈ s_kept s' → s_data s' !! i = Some Tombstone ∧ s_name s' ≠ Some i) →
  (∀ i c, s_data s' !! i = Some c → s_name s' = Some i ∨ c = Tombstone) →
  Inv s' (<[t:=m']> Ms).
Proof.
  intros Ht Ho H1 H2 H3 H4 H5. split; [|done..].
  intros t'. destruct (decide (t' = t)) as [->|Hne].
  - by rewrite fn_lookup_insert.
  - rewrite fn_lookup_insert_ne by done. by apply Ho.
Qed.

(** A mode that keeps the descriptors and the lock. *)
Lemma owner_kept (t : tid) m' (Ms : tid → mode) (s' : sys) :
  (∀ f i, m_fds (Ms t) !! f = Some i → m_fds m' !! f = Some i) →
  (∀ f p i, s_open s' !! f = Some (p, i) → ∃ th, m_fds (Ms (p, th)) !! f = Some i) →
  ∀ f p i, s_open s' !! f = Some (p, i) → ∃ th, m_fds ((<[t:=m']> Ms) (p, th)) !! f = Some i.
Proof.
  intros Hm H f p i Hf. destruct (H f p i Hf) as [th Hth]. exists th.
  destruct (decide ((p, th) = t)) as [<-|Hne].
  - rewrite fn_lookup_insert. by apply Hm.
  - by rewrite fn_lookup_insert_ne by done.
Qed.

Lemma locker_kept (t : tid) m' (Ms : tid → mode) (s' : sys) :
  m_lock m' = m_lock (Ms t) →
  (∀ i p, s_lock s' !! i = Some p → ∃ th f, m_lock (Ms (p, th)) = Some (f, i)) →
  ∀ i p, s_lock s' !! i = Some p → ∃ th f, m_lock ((<[t:=m']> Ms) (p, th)) = Some (f, i).
Proof.
  intros Hm H i p Hi. destruct (H i p Hi) as (th & f & Hth). exists th, f.
  destruct (decide ((p, th) = t)) as [<-|Hne].
  - rewrite fn_lookup_insert. congruence.
  - by rewrite fn_lookup_insert_ne by done.
Qed.

Lemma inv_local t m' s Ms :
  Inv s Ms → holds t m' s → m_fds m' = m_fds (Ms t) → m_lock m' = m_lock (Ms t) →
  Inv s (<[t:=m']> Ms).
Proof.
  intros HI Ht Hf Hl. apply (inv_update t m' s); [done| | | | | |].
  - intros t' _. apply HI.
  - intros f p i Hi. split; [by apply (i_open _ _ HI f p i)|].
    revert f p i Hi. apply owner_kept; [by rewrite Hf|]. intros f p i Hi. by apply (i_open _ _ HI f p i).
  - apply locker_kept; [done|]. apply HI.
  - apply HI.
  - apply HI.
  - apply HI.
Qed.

Lemma inv_same t s Ms : Inv s Ms → Inv s (<[t:=Ms t]> Ms).
Proof. intros HI. apply inv_local; [done|apply HI|done|done]. Qed.

Lemma fd_inode_mode t s Ms f i :
  Inv s Ms → m_fds (Ms t) !! f = Some i → fd_inode s t.1 f = Some i.
Proof.
  intros HI Hf. unfold fd_inode. rewrite (h_fds _ _ _ (i_holds _ _ HI t) _ _ Hf).
  by rewrite bool_decide_true.
Qed.

(** The mutex, [_owned] and the bodies: no file is touched. *)
Definition files (s : sys) := (s_name s, s_kept s, s_data s, s_lock s, s_open s).

Lemma inv_memory t m' s s' Ms :
  Inv s Ms → files s' = files s → holds t m' s' → (∀ t', t' ≠ t → holds t' (Ms t') s') →
  m_fds m' = m_fds (Ms t) → m_lock m' = m_lock (Ms t) → Inv s' (<[t:=m']> Ms).
Proof.
  unfold files. intros HI [= E1 E2 E3 E4 E5] Ht Ho Hf Hl. apply (inv_update t m' s'); [done|done|..].
  - intros f p i Hi. rewrite E3. rewrite E5 in Hi. split; [by apply (i_open _ _ HI f p i)|].
    assert (Hs : s_open s' !! f = Some (p, i)) by (by rewrite E5).
    revert f p i Hi Hs. intros f p i _ Hs. revert f p i Hs. apply owner_kept; [by rewrite Hf|].
    rewrite E5. intros f p i Hi. by apply (i_open _ _ HI f p i).
  - apply locker_kept; [done|]. rewrite E4. apply HI.
  - rewrite E1, E3. apply HI.
  - rewrite E1, E2, E3. apply HI.
  - rewrite E1, E3. apply HI.
Qed.

Lemma acquire_sound b t s r s' Ms :
  Inv s Ms → op_step (Mutex_acquire b) t s r s' →
  Inv s' (<[t := if r then set_depth (S (m_depth (Ms t))) (Ms t) else Ms t]> Ms).
Proof.
  intros HI. cbn. pose proof (h_depth _ _ _ (i_holds _ _ HI t)) as Hd.
  assert (Hgo : ∀ d, s' = set_mutex (<[t.1 := (t.2, S d)]> (s_mutex s)) s → m_depth (Ms t) = d →
    (∀ th d', s_mutex s !! t.1 = Some (th, d') → th = t.2) →
    Inv s' (<[t := set_depth (S (m_depth (Ms t))) (Ms t)]> Ms)).
  { intros d -> Hmd Hmine. apply (inv_memory t _ s); [done|done| | |done|done].
    - destruct (i_holds _ _ HI t). split; try done; cbn.
      intros d'. rewrite lookup_insert_eq, Hmd. split; [intros [= <-]; done|intros [<- _]; done].
    - intros t' Hne. destruct (i_holds _ _ HI t'). split; try done; cbn.
      intros d'. destruct (decide (t'.1 = t.1)) as [E|E].
      + rewrite <- E, lookup_insert_eq. rewrite <- h_depth0. rewrite E. split.
        * intros [= E2 E3]. destruct t, t'; cbn in *; congruence.
        * intros Hc. apply Hmine in Hc. destruct t, t'; cbn in *; congruence.
      + by rewrite lookup_insert_ne by done. }
  destruct (s_mutex s !! t.1) as [[th d]|] eqn:Hm.
  - destruct (bool_decide_reflect (th = t.2)) as [->|Hne].
    + intros [-> ->]. apply (Hgo d); [done| |by intros ?? [= <- <-]]. by apply Hd.
    + intros (_ & -> & ->). by apply inv_same.
  - intros [-> ->]. apply (Hgo 0); [done| |done].
    destruct (m_depth (Ms t)) eqn:E; [done|]. assert (S n = S n ∧ S n ≠ 0) as Hc by done. by apply Hd in Hc.
Qed.

Lemma release_sound t s r s' Ms :
  Inv s Ms → pre (Ms t) Mutex_release → op_step Mutex_release t s r s' →
  Inv s' (<[t := set_depth (pred (m_depth (Ms t))) (Ms t)]> Ms).
Proof.
  cbn. intros HI [Hd Hlast] Hs. pose proof (i_holds _ _ HI t) as Ht.
  pose proof (proj2 (h_depth _ _ _ Ht _) (conj eq_refl Hd)) as Hm. rewrite Hm in Hs.
  assert (Hgo : ∀ M, s' = set_mutex M s → (∀ d, M !! t.1 = Some (t.2, d) ↔ pred (m_depth (Ms t)) = d ∧ d ≠ 0) →
     (∀ th d, M !! t.1 = Some (th, d) → th = t.2) →
     (∀ p, p ≠ t.1 → M !! p = s_mutex s !! p) → Inv s' (<[t := set_depth (pred (m_depth (Ms t))) (Ms t)]> Ms)).
  { intros M -> HM Hmine Hother. apply (inv_memory t _ s); [done|done| | |done|done].
    - destruct Ht. split; try done; cbn. intros Hf. destruct (decide (m_depth (Ms t) = 1)) as [E|E]; [|lia].
      by apply Hlast in E.
    - intros t' Hne. destruct (i_holds _ _ HI t'). split; try done; cbn.
      intros d'. destruct (decide (t'.1 = t.1)) as [E|E]; [|by rewrite Hother].
      rewrite <- h_depth0, E. split; intros Hc; exfalso.
      + apply Hmine in Hc. destruct t, t'; cbn in *; congruence.
      + rewrite Hm in Hc. destruct t, t'; cbn in *; congruence. }
  destruct (m_depth (Ms t)) as [|[|d]] eqn:E; [done| |].
  - destruct Hs as [_ ->]. apply (Hgo (delete t.1 (s_mutex s))); [done| | |].
    + intros d. rewrite lookup_delete_eq. cbn. naive_solver.
    + by intros ??; rewrite lookup_delete_eq.
    + intros p Hp. by rewrite lookup_delete_ne.
  - destruct Hs as [_ ->]. apply (Hgo (<[t.1 := (t.2, S d)]> (s_mutex s))); [done| | |].
    + intros d'. rewrite lookup_insert_eq. cbn. naive_solver.
    + intros ??; rewrite lookup_insert_eq. naive_solver.
    + intros p Hp. by rewrite lookup_insert_ne.
Qed.

Lemma owned_sound t (b : bool) s Ms :
  Inv s Ms → (b = true → m_named (Ms t) = true ∧ m_tomb (Ms t) = Some false) →
  (b = false → m_in (Ms t) = 0) →
  Inv (set_owned (if b then {[ t ]} ∪ s_owned s else s_owned s ∖ {[ t ]}) s) (<[t := set_own b (Ms t)]> Ms).
Proof.
  intros HI Hb Hn. apply (inv_memory t _ s); [done|done| | |done|done].
  - destruct (i_holds _ _ HI t). split; try done; cbn.
    + destruct b; set_solver.
    + intros Hin. destruct b; [done|]. by rewrite Hn in Hin.
  - intros t' Hne. destruct (i_holds _ _ HI t'). split; try done; cbn. rewrite <- h_own0. destruct b; set_solver.
Qed.

Lemma inside_sound t n s Ms :
  Inv s Ms → (n ≠ 0 → m_own (Ms t) = true) →
  Inv (set_inside (<[t := n]> (s_inside s)) s) (<[t := set_in n (Ms t)]> Ms).
Proof.
  intros HI Hn. apply (inv_memory t _ s); [done|done| | |done|done].
  - destruct (i_holds _ _ HI t). split; try done; cbn. by rewrite lookup_insert_eq.
  - intros t' Hne. destruct (i_holds _ _ HI t'). split; try done; cbn. by rewrite lookup_insert_ne.
Qed.

(** Learning about the locked inode. *)
Lemma known_sound t f i n b s Ms :
  Inv s Ms → m_own (Ms t) = false → m_lock (Ms t) = Some (f, i) →
  (n = true → s_name s = Some i) → (∀ c, b = Some c → c = true ↔ s_data s !! i = Some Tombstone) →
  Inv s (<[t := set_known n b (Ms t)]> Ms).
Proof.
  intros HI Ho Hl Hn Hb. apply inv_local; [done| |done|done].
  destruct (i_holds _ _ HI t). split; try done; cbn.
  - intros ->. exists f, i. auto.
  - intros c ->. exists f, i. auto.
  - congruence.
Qed.

Lemma unnamed_tomb s Ms i : Inv s Ms → is_Some (s_data s !! i) → s_name s ≠ Some i →
  s_data s !! i = Some Tombstone.
Proof. intros HI [c Hc] Hn. by destruct (i_gone _ _ HI _ _ Hc) as [?| ->]. Qed.

Lemma fd_data t s Ms f i : Inv s Ms → m_fds (Ms t) !! f = Some i → is_Some (s_data s !! i).
Proof. intros HI Hf. eapply (i_open _ _ HI). by apply (h_fds _ _ _ (i_holds _ _ HI t)). Qed.

Lemma fstat_sound fd t s r s' Ms :
  Inv s Ms → pre (Ms t) (Fstat fd) → op_step (Fstat fd) t s r s' →
  ∃ m', post (Ms t) (Fstat fd) r m' ∧ Inv s' (<[t:=m']> Ms).
Proof.
  cbn. intros HI [Ho [i Hi]] [-> Hr]. destruct r as [f|]; [|by eauto using inv_same].
  destruct Hr as (j & c & Hj & Hc & ->). rewrite (fd_inode_mode _ _ _ _ _ HI Hi) in Hj.
  injection Hj as <-. cbn. eexists. split; [split; [done|split; [|reflexivity]]|].
  { intros Hl Ht. destruct (h_tomb _ _ _ (i_holds _ _ HI t) _ Ht) as (f & j & Hl' & Hj).
    assert (j = i) as -> by congruence. destruct Hj as [Hj _]. specialize (Hj eq_refl).
    rewrite Hc in Hj. by injection Hj as ->. }
  case_bool_decide as Hl; [|by apply inv_same].
  assert (Hz : nlink s i = 0 → s_data s !! i = Some Tombstone).
  { unfold nlink. case_bool_decide as Hk; [done|]. intros _. eapply unnamed_tomb; eauto. }
  case_bool_decide as Hn; [|case_bool_decide as Hs; [by apply inv_same|]].
  - eapply known_sound; [done..| |]; [done|]. intros c' [= <-]. naive_solver.
  - assert (c ≠ Tombstone) by (intros ->; done).
    eapply known_sound; [done..| |].
    + intros _. by destruct (i_gone _ _ HI _ _ Hc) as [?| ->].
    + intros c' [= <-]. split; [done|]. congruence.
Qed.

Lemma pread_sound fd t s r s' Ms :
  Inv s Ms → pre (Ms t) (Pread fd) → op_step (Pread fd) t s r s' →
  ∃ m', post (Ms t) (Pread fd) r m' ∧ Inv s' (<[t:=m']> Ms).
Proof.
  cbn. intros HI [Ho [i Hi]] [-> Hr]. destruct r as [b|]; [|by eauto using inv_same].
  destruct Hr as (j & Hj & ->). rewrite (fd_inode_mode _ _ _ _ _ HI Hi) in Hj. injection Hj as <-.
  eexists. split; [by exists i|]. case_bool_decide as Hl; [|by apply inv_same].
  eapply known_sound; [done..| |].
  - case_bool_decide as Ht.
    + intros Hn. destruct (h_named _ _ _ (i_holds _ _ HI t) Hn) as (? & ? & ? & ?). congruence.
    + intros _. destruct (fd_data _ _ _ _ _ HI Hi) as [c Hc].
      destruct (i_gone _ _ HI _ _ Hc) as [?| ->]; [done|]. by rewrite Hc in Ht.
  - intros c [= <-]. by rewrite bool_decide_eq_true.
Qed.

Lemma stat_sound t s r s' Ms :
  Inv s Ms → op_step Stat_name t s r s' →
  ∃ m', post (Ms t) Stat_name r m' ∧ Inv s' (<[t:=m']> Ms).
Proof.
  cbn. intros HI [-> Hr]. eexists; split; [done|].
  destruct r as [i| |]; [|by apply inv_same..].
  destruct (m_lock (Ms t)) as [[f j]|] eqn:Hl; [|by apply inv_same].
  case_bool_decide as Hij; [subst j|by apply inv_same].
  apply inv_local; [done| |done|done]. destruct (i_holds _ _ HI t). split; try done; cbn.
  - intros _. eauto.
  - intros Ho. split; [done|]. by apply h_owns0.
Qed.

(** Opening a descriptor [f] on inode [i]. *)
Lemma open_sound t f i s s1 Ms :
  Inv s1 Ms → s_open s1 = s_open s → s_open s !! f = None → m_depth (Ms t) ≠ 0 → is_Some (s_data s1 !! i) →
  m_fds (Ms t) !! f = None
  ∧ Inv (set_open (<[f := (t.1, i)]> (s_open s)) s1) (<[t := set_fds (<[f := i]> (m_fds (Ms t))) (Ms t)]> Ms).
Proof.
  intros HI E Hf Hd Hi. rewrite <- E in *.
  assert (Hnone : ∀ t', m_fds (Ms t') !! f = None).
  { intros t'. destruct (m_fds (Ms t') !! f) eqn:Hc; [|done].
    apply (h_fds _ _ _ (i_holds _ _ HI t')) in Hc. congruence. }
  split; [done|]. apply inv_update; cbn; try apply HI.
  - destruct (i_holds _ _ HI t). split; try done; cbn.
    + intros f' j. rewrite !lookup_insert_Some. naive_solver.
    + intros f' j Hl. destruct (h_lock0 _ _ Hl) as [? ?]. split; [|done].
      rewrite lookup_insert_ne; [done|]. intros ->. by rewrite Hnone in *.
  - intros t' Hne. destruct (i_holds _ _ HI t'). split; try done; cbn.
    intros f' j Hj. rewrite lookup_insert_ne; [auto|]. intros ->. by rewrite Hnone in *.
  - intros f' p j. rewrite lookup_insert_Some. intros [[<- [= <- <-]]|[Hne Hj]].
    + split; [done|]. exists t.2. rewrite <- surjective_pairing, fn_lookup_insert. cbn. by rewrite lookup_insert_eq.
    + destruct (i_open _ _ HI _ _ _ Hj) as [? [th Hth]]. split; [done|]. exists th.
      destruct (decide ((p, th) = t)) as [<-|Hn].
      * rewrite fn_lookup_insert. cbn. by rewrite lookup_insert_ne.
      * by rewrite fn_lookup_insert_ne.
  - apply locker_kept; [done|apply HI].
Qed.

(** A new, named, empty inode. *)
Lemma create_sound i s Ms :
  Inv s Ms → s_name s = None → s_data s !! i = None →
  Inv (set_name (Some i) (set_data (<[i := Empty]> (s_data s)) s)) Ms.
Proof.
  intros HI Hn Hi.
  assert (Hold : ∀ j, is_Some (s_data s !! j) → <[i := Empty]> (s_data s) !! j = s_data s !! j).
  { intros j [c Hj]. rewrite lookup_insert_ne; [done|]. congruence. }
  split; cbn; try apply HI.
  - intros t. destruct (i_holds _ _ HI t). split; try done; cbn.
    + intros Hm. destruct (h_named0 Hm) as (? & ? & ? & ?). congruence.
    + intros b Hb. destruct (h_tomb0 b Hb) as (f & j & Hl & Hj). exists f, j. split; [done|].
      rewrite Hold; [done|]. destruct (h_lock0 _ _ Hl) as [Hf _]. by eapply fd_data.
  - intros f p j Hj. destruct (i_open _ _ HI _ _ _ Hj) as [Hs ?]. by rewrite Hold.
  - intros j [= <-]. by rewrite lookup_insert_eq.
  - intros j Hj. destruct (i_kept _ _ HI _ Hj) as [Hd _]. split; [rewrite Hold; [done|]; rewrite Hd; eauto|].
    congruence.
  - intros j c. rewrite lookup_insert_Some. intros [[-> _]|[_ Hj]]; [by left|].
    destruct (i_gone _ _ HI _ _ Hj); [congruence|by right].
Qed.

(** Taking the lock of inode [i] when nobody else has it. *)
Lemma lockf_sound t f i s Ms :
  Inv s Ms → m_lock (Ms t) = None → m_fds (Ms t) !! f = Some i → (∀ q, s_lock s !! i = Some q → q = t.1) →
  Inv (set_lock (<[i := t.1]> (s_lock s)) s) (<[t := set_held (Some (f, i)) (Ms t)]> Ms).
Proof.
  intros HI Hl Hf Hq. pose proof (free_or_mine _ _ HI _ _ _ Hf Hq) as Hmine.
  apply inv_update; cbn; try apply HI.
  - destruct (i_holds _ _ HI t). split; try done; cbn.
    + intros ?? [= <- <-]. by rewrite lookup_insert_eq.
    + intros Ho. destruct (h_owns0 Ho) as [Hn _]. destruct (h_named0 Hn) as (? & ? & ? & ?). congruence.
  - intros t' Hne. destruct (i_holds _ _ HI t'). split; try done; cbn.
    intros f' j Hl'. destruct (h_lock0 _ _ Hl') as [? ?]. split; [done|].
    rewrite lookup_insert_ne; [done|]. intros <-. by apply Hmine in Hl'.
  - intros f' p j Hj. split; [by apply (i_open _ _ HI _ _ _ Hj)|].
    revert f' p j Hj. apply (owner_kept t _ Ms s); [done|]. intros f' p j Hj. by apply (i_open _ _ HI _ _ _ Hj).
  - intros j p. rewrite lookup_insert_Some. intros [[<- <-]|[Hne Hj]].
    + exists t.2, f. by rewrite <- surjective_pairing, fn_lookup_insert.
    + destruct (i_lock _ _ HI _ _ Hj) as (th & f' & Hth). exists th, f'.
      rewrite fn_lookup_insert_ne; [done|]. intros ->. congruence.
Qed.

(** Dropping the lock [t] may have. *)
Lemma drop_sound t i s Ms :
  Inv s Ms → m_own (Ms t) = false → m_depth (Ms t) ≠ 0 → (∀ f j, m_lock (Ms t) = Some (f, j) → j = i) →
  Inv (release_lock t.1 i s) (<[t := set_held None (Ms t)]> Ms).
Proof.
  intros HI Ho Hd Hj. unfold release_lock.
  assert (Hlk : ∀ j p, s_lock (if bool_decide (s_lock s !! i = Some t.1) then set_lock (delete i (s_lock s)) s else s) !! j = Some p
     ↔ s_lock s !! j = Some p ∧ ¬ (j = i ∧ p = t.1)).
  { intros j p. case_bool_decide as Hc; cbn.
    - rewrite lookup_delete_Some. split; [naive_solver|]. intros [Hp Hn]. split; [|done].
      intros <-. naive_solver congruence.
    - naive_solver. }
  assert (Hfiles : ∀ P : sys → Prop, P s → P (set_lock (delete i (s_lock s)) s) →
     P (if bool_decide (s_lock s !! i = Some t.1) then set_lock (delete i (s_lock s)) s else s)).
  { intros P ??. by case_bool_decide. }
  apply inv_update; try (apply Hfiles; apply HI).
  - destruct (i_holds _ _ HI t). split; try done; cbn; try (apply Hfiles; done). congruence.
  - intros t' Hne. destruct (i_holds _ _ HI t'). split; try done; try (apply Hfiles; done).
    intros f' j Hl'. destruct (h_lock0 _ _ Hl') as [Hf Hp]. split; [done|]. apply Hlk. split; [done|].
    intros [-> Hpp]. apply Hne. destruct t as [p th], t' as [p' th']. cbn in *. subst p'. f_equal.
    eapply one_mutex; [done| |done]. eapply fds_depth; eauto.
  - intros f' p j. rewrite (Hfiles (λ x, s_open x !! f' = Some (p, j) ↔ s_open s !! f' = Some (p, j))) by done.
    rewrite (Hfiles (λ x, is_Some (s_data x !! j) ↔ is_Some (s_data s !! j))) by done.
    intros Hj'. split; [by apply (i_open _ _ HI _ _ _ Hj')|].
    revert f' p j Hj'. apply (owner_kept t _ Ms s); [done|]. intros f' p j Hj'. by apply (i_open _ _ HI _ _ _ Hj').
  - intros j p [Hp Hn]%Hlk. destruct (i_lock _ _ HI _ _ Hp) as (th & f' & Hth). exists th, f'.
    rewrite fn_lookup_insert_ne; [done|]. intros ->. apply Hn. split; [|done]. by eapply Hj.
Qed.

Lemma close_fd_sound t f i s Ms :
  Inv s Ms → m_lock (Ms t) = None → m_fds (Ms t) !! f = Some i →
  Inv (set_open (delete f (s_open s)) s) (<[t := set_fds (delete f (m_fds (Ms t))) (Ms t)]> Ms).
Proof.
  intros HI Hl Hf. apply inv_update; cbn; try apply HI.
  - destruct (i_holds _ _ HI t). split; try done; cbn.
    + intros f' j. rewrite !lookup_delete_Some. naive_solver.
    + intros _. eapply fds_depth; eauto.
    + intros f' j. congruence.
  - intros t' Hne. destruct (i_holds _ _ HI t'). split; try done; cbn.
    intros f' j Hj. rewrite lookup_delete_ne; [auto|]. intros <-. apply Hne. eapply one_fd; eauto.
  - intros f' p j. rewrite lookup_delete_Some. intros [Hne Hj].
    destruct (i_open _ _ HI _ _ _ Hj) as [? [th Hth]]. split; [done|]. exists th.
    destruct (decide ((p, th) = t)) as [<-|Hn].
    + rewrite fn_lookup_insert. cbn. by rewrite lookup_delete_ne.
    + by rewrite fn_lookup_insert_ne.
  - apply locker_kept; [done|apply HI].
Qed.

Lemma pwrite_sound t f i (c : content) s Ms :
  Inv s Ms → m_own (Ms t) = false → m_named (Ms t) = true → m_lock (Ms t) = Some (f, i) →
  Inv (set_data (<[i := c]> (s_data s)) s)
    (<[t := set_known true (if bool_decide (c = Tombstone) then Some true else None) (Ms t)]> Ms).
Proof.
  intros HI Ho Hn Hl. destruct (h_named _ _ _ (i_holds _ _ HI t) Hn) as (f0 & i0 & Hl0 & Hname).
  assert (i0 = i) as -> by congruence. apply inv_update; cbn; try apply HI.
  - destruct (i_holds _ _ HI t). split; try done; cbn; [by eauto| |congruence].
    intros b Hb. exists f, i. split; [done|]. rewrite lookup_insert_eq. case_bool_decide; naive_solver.
  - intros t' Hne. destruct (i_holds _ _ HI t'). split; try done; cbn.
    intros b Hb. destruct (h_tomb0 b Hb) as (f' & j & Hl' & Hj). exists f', j. split; [done|].
    rewrite lookup_insert_ne; [done|]. intros <-. apply Hne. eapply one_lock; eauto.
  - intros f' p j Hj. split.
    + destruct (decide (j = i)) as [->|]; [by rewrite lookup_insert_eq|].
      rewrite lookup_insert_ne by done. by apply (i_open _ _ HI _ _ _ Hj).
    + revert f' p j Hj. apply (owner_kept t _ Ms s); [done|]. intros f' p j Hj. by apply (i_open _ _ HI _ _ _ Hj).
  - apply (locker_kept t _ Ms s); [done|apply HI].
  - intros j Hj. rewrite Hname in Hj. injection Hj as <-. by rewrite lookup_insert_eq.
  - intros j Hj. destruct (i_kept _ _ HI _ Hj) as [Hd Hk]. split; [|done].
    rewrite lookup_insert_ne; [done|]. congruence.
  - intros j c'. rewrite lookup_insert_Some. intros [[<- _]|[_ Hj]]; [by left|]. by apply (i_gone _ _ HI _ _ Hj).
Qed.

Lemma unlink_sound t i K s Ms :
  Inv s Ms → pre (Ms t) Unlink_name → s_name s = Some i → K = s_kept s ∨ K = {[ i ]} ∪ s_kept s →
  Inv (set_name None (set_kept K s)) (<[t := set_known false (m_tomb (Ms t)) (Ms t)]> Ms).
Proof.
  cbn. intros HI (Ho & Hn & Ht) Hname HK.
  destruct (h_named _ _ _ (i_holds _ _ HI t) Hn) as (f & j & Hl & Hj). assert (j = i) as -> by congruence.
  destruct (h_tomb _ _ _ (i_holds _ _ HI t) _ Ht) as (f' & j & Hl' & Hd). assert (j = i) as -> by congruence.
  destruct Hd as [Hd _]. specialize (Hd eq_refl).
  apply inv_update; cbn; try apply HI; try done.
  - destruct (i_holds _ _ HI t). split; try done; cbn. congruence.
  - intros t' Hne. destruct (i_holds _ _ HI t'). split; try done; cbn.
    intros Hn'. destruct (h_named0 Hn') as (f2 & j & Hl2 & Hj2). assert (j = i) as -> by congruence.
    destruct Hne. eapply one_lock; eauto.
  - intros f2 p j Hj2. split; [by apply (i_open _ _ HI _ _ _ Hj2)|].
    revert f2 p j Hj2. apply (owner_kept t _ Ms s); [done|]. intros f2 p j Hj2. by apply (i_open _ _ HI _ _ _ Hj2).
  - apply (locker_kept t _ Ms s); [done|apply HI].
  - intros j Hin. split; [|done]. destruct HK as [-> | ->]; [by apply HI|].
    apply elem_of_union in Hin as [->%elem_of_singleton|Hin]; [done|by apply HI].
  - intros j c Hc. right. destruct (i_gone _ _ HI _ _ Hc) as [E|?]; [|done]. congruence.
Qed.

Lemma release_open_eq p i s : s_open (release_lock p i s) = s_open s.
Proof. unfold release_lock. by case_bool_decide. Qed.

Lemma release_close p i O s : set_open O (release_lock p i s) = release_lock p i (set_open O s).
Proof. unfold release_lock. cbn. by case_bool_decide. Qed.

Lemma inv_ext s Ms Ms' : (∀ t, Ms t = Ms' t) → Inv s Ms → Inv s Ms'.
Proof.
  intros E HI. split; try apply HI.
  - intros t. rewrite <- E. apply HI.
  - intros f p i Hi. destruct (i_open _ _ HI _ _ _ Hi) as [? [th ?]]. split; [done|]. exists th. by rewrite <- E.
  - intros i p Hi. destruct (i_lock _ _ HI _ _ Hi) as (th & f & ?). exists th, f. by rewrite <- E.
Qed.

(** A call made in its mode keeps every view true, whatever it answers. *)
Lemma call_sound {X} (o : op X) t s r s' Ms :
  Inv s Ms → pre (Ms t) o → op_step o t s r s' →
  ∃ m', post (Ms t) o r m' ∧ Inv s' (<[t:=m']> Ms).
Proof.
  intros HI Hp Hs. destruct o; cbn [post].
  - eauto using acquire_sound.
  - eauto using release_sound.
  - destruct Hs as [-> ->]. exists (Ms t). split; [split; [|done]|by apply inv_same].
    pose proof (h_own _ _ _ (i_holds _ _ HI t)) as Ho.
    case_bool_decide as Hb; destruct (m_own (Ms t)); naive_solver.
  - exists (set_own true (Ms t)). split; [done|]. cbn in Hs. subst s'. by apply (owned_sound t true).
  - exists (set_own false (Ms t)). split; [done|]. cbn in Hs. subst s'. by apply (owned_sound t false).
  - cbn in Hs. subst s'. eauto using inv_same.
  - destruct r as [fd|]; cbn in Hs; [|subst s'; eauto using inv_same].
    destruct Hs as [Hf [(i & Hi & ->)|(Hn & i & Hi & ->)]].
    + destruct (open_sound t fd i s s Ms HI eq_refl Hf Hp (i_name _ _ HI _ Hi)) as [Hnf Hinv].
      eexists. split; [split; [done|by exists i]|done].
    + destruct (open_sound t fd i s _ Ms (create_sound _ _ _ HI Hn Hi) eq_refl Hf Hp) as [Hnf Hinv].
      { cbn. by rewrite lookup_insert_eq. }
      eexists. split; [split; [done|by exists i]|done].
  - destruct r as [fd| |]; cbn in Hs; [|destruct Hs as [_ ->]; eauto using inv_same|subst s'; eauto using inv_same].
    destruct Hs as (Hf & i & Hi & ->).
    destruct (open_sound t fd i s s Ms HI eq_refl Hf Hp (i_name _ _ HI _ Hi)) as [Hnf Hinv].
    eexists. split; [split; [done|by exists i]|done].
  - destruct Hp as [[i Hi] Hl]. destruct r; cbn in Hs; [|destruct Hs as (_ & -> & _); eauto using inv_same|subst s'; eauto using inv_same].
    destruct Hs as (j & Hj & Hq & ->). rewrite (fd_inode_mode _ _ _ _ _ HI Hi) in Hj. injection Hj as <-.
    eexists. split; [by exists i|]. by apply lockf_sound.
  - destruct Hp as [Ho [i Hl]]. destruct Hs as [[-> ->]|(j & Hj & ->)].
    { exists (Ms t). split; [by right|by apply inv_same]. }
    pose proof (lock_fds _ _ HI _ _ _ Hl) as Hf. rewrite (fd_inode_mode _ _ _ _ _ HI Hf) in Hj. injection Hj as <-.
    eexists. split; [by left|]. apply drop_sound; [done|done|by eapply fds_depth|]. intros f j. congruence.
  - by eapply fstat_sound.
  - by eapply pread_sound.
  - destruct Hp as (Ho & Hn & i & Hl). pose proof (lock_fds _ _ HI _ _ _ Hl) as Hf.
    destruct Hs as (j & Hj & Hs). rewrite (fd_inode_mode _ _ _ _ _ HI Hf) in Hj. injection Hj as <-.
    eexists. split; [done|]. rewrite Hn. destruct r; [subst s'; by apply (pwrite_sound t fd i Tombstone)|].
    destruct Hs as [->|[n ->]]; [|by apply (pwrite_sound t fd i (Other n))].
    apply (known_sound t fd i); [done|done|done| |done].
    intros _. destruct (h_named _ _ _ (i_holds _ _ HI t) Hn) as (? & ? & ? & ?). congruence.
  - by eapply stat_sound.
  - destruct r; cbn in Hs; [|subst s'; eauto using inv_same].
    destruct Hs as (i & Hi & Hs). eexists. split; [done|].
    destruct Hs as [->| ->]; [|by eapply unlink_sound; eauto].
    assert (Hk : set_name None s = set_name None (set_kept (s_kept s) s)) by (by destruct s).
    rewrite Hk. eapply unlink_sound; eauto.
  - destruct Hp as (Ho & [i Hi] & Hl). destruct Hs as (j & Hj & ->).
    rewrite (fd_inode_mode _ _ _ _ _ HI Hi) in Hj. injection Hj as <-. eexists. split; [done|].
    assert (Hc : Inv (set_open (delete fd (s_open s)) (release_lock t.1 i s))
       (<[t := set_fds (delete fd (m_fds (Ms t))) (set_held None (Ms t))]> (<[t := set_held None (Ms t)]> Ms))).
    { assert (H1 : Inv (release_lock t.1 i s) (<[t := set_held None (Ms t)]> Ms)).
      { apply drop_sound; [done|done|by eapply fds_depth|]. intros f j Hf. pose proof (Hl _ _ Hf) as ->.
        apply (lock_fds _ _ HI) in Hf. congruence. }
      pose proof (close_fd_sound t fd i _ _ H1) as H2. rewrite fn_lookup_insert in H2. cbn in H2.
      specialize (H2 eq_refl Hi).
      by rewrite release_open_eq in H2. }
    rewrite <- release_close.
    eapply inv_ext; [|done]. intros t'. destruct (decide (t' = t)) as [->|Hne].
    + by rewrite !fn_lookup_insert.
    + by rewrite !fn_lookup_insert_ne by done.
  - cbn in Hs. subst s'. exists (set_in (S (m_in (Ms t))) (Ms t)). split; [done|].
    rewrite (h_in _ _ _ (i_holds _ _ HI t)). by apply inside_sound.
  - cbn in Hs. subst s'. exists (set_in (pred (m_in (Ms t))) (Ms t)). split; [done|].
    rewrite (h_in _ _ _ (i_holds _ _ HI t)). apply inside_sound; [done|]. intros _.
    by apply (h_inside _ _ _ (i_holds _ _ HI t)).
  - cbn in Hs. subst s'. eauto using inv_same.
  - done.
Qed.

(** ** Programs that make every call in its mode *)

Fixpoint safe {A} (m : mode) (p : proc A) (Q : A → mode → Prop) : Prop :=
  match p with
  | Ret a => Q a m
  | Do o k => pre m o ∧ ∀ r m', post m o r m' → safe m' (k r) Q
  end.

Lemma safe_bind {A B} (p : proc A) (f : A → proc B) m Q :
  safe m p (λ a m', safe m' (f a) Q) → safe m (p ≫= f) Q.
Proof.
  revert m. induction p as [a|X o k IH]; intros m; [done|].
  intros [Hp Hk]. split; [done|]. intros r m' Hr. apply (IH r), Hk, Hr.
Qed.

Lemma safe_mono {A} (p : proc A) m (Q Q' : A → mode → Prop) :
  (∀ a m', Q a m' → Q' a m') → safe m p Q → safe m p Q'.
Proof.
  intros HQ. revert m. induction p as [a|X o k IH]; intros m; cbn; [apply HQ|].
  intros [Hp Hk]. split; [done|]. intros r m' Hr. by apply IH, Hk.
Qed.

Lemma safe_call {X} (o : op X) m (Q : X → mode → Prop) :
  pre m o → (∀ r m', post m o r m' → Q r m') → safe m (call o) Q.
Proof. done. Qed.

(** The modes a caller of [held] is in: it owns the lock, or has none. *)
Definition caller (m : mode) : Prop :=
  (m_own m = true ∧ m_depth m ≠ 0)
  ∨ (∃ d F, m = mkMode d F None false None false 0 ∧ (d = 0 → F = ∅)).

(** One call of a program, and what is left to show. *)
Ltac a_call := apply safe_bind, safe_call; [|cbn [post]].

Section lock.
Context (F : gmap nat nat) (d : nat).

(** A taker with the mutex: no lock, lock [l] with [n] and [b] known. *)
Definition bare : mode := mkMode (S d) F None false None false 0.
Definition with_fd (f i : nat) : mode := mkMode (S d) (<[f := i]> F) None false None false 0.
Definition locking (f i : nat) (n : bool) (b : option bool) : mode :=
  mkMode (S d) (<[f := i]> F) (Some (f, i)) n b false 0.

Lemma close_bare f i m : F !! f = None → m = with_fd f i ∨ (∃ n b, m = locking f i n b) →
  set_fds (delete f (m_fds m)) (set_held None m) = bare.
Proof using.
  intros Hf Hm. assert (Hd : delete f (<[f := i]> F) = F) by (by rewrite delete_insert_id).
  destruct Hm as [->|(n & b & ->)]; cbn; unfold bare, set_fds, set_held; cbn; by rewrite Hd.
Qed.

(** Closing the descriptor, locked or not, and giving the mutex back. *)
Lemma shut_safe {A} f i m (r : A) Q :
  F !! f = None → m = with_fd f i ∨ (∃ n b, m = locking f i n b) →
  (S d = 1 → F = ∅) → Q r (mkMode d F None false None false 0) →
  safe m (call (Close f);; call Mutex_release;; mret r) Q.
Proof using.
  intros Hf Hm HF HQ. a_call.
  { destruct Hm as [->|(n & b & ->)]; cbn; rewrite lookup_insert_eq; split_and!; naive_solver. }
  intros _ m' ->. rewrite (close_bare f i) by done. a_call; [cbn; split; [done|exact HF]|].
  by intros _ m' ->.
Qed.

Lemma unlock_known f i n b (r : bool) m' :
  post (locking f i n b) (Unlockf f) r m' → m' = with_fd f i ∨ (∃ n b, m' = locking f i n b).
Proof using. intros [->|[_ ->]]; [by left|right; eauto]. Qed.

(** [_retired] answers [Some false] only for the live inode the path names,
    and [Some true] only for a tombstoned one. *)
Lemma retired_safe f i Q :
  (∀ n b, Q None (locking f i n b)) → Q (Some false) (locking f i true (Some false)) →
  (∀ n, Q (Some true) (locking f i n (Some true))) →
  safe (locking f i false None) (_retired f) Q.
Proof using.
  intros HN HF HT. unfold _retired. a_call; [cbn; rewrite lookup_insert_eq; eauto|].
  intros [st|] m'; [|intros ->; apply HN]. cbn. rewrite lookup_insert_eq.
  intros ([= Hi] & Hn & Hm). rewrite <- Hi, bool_decide_true in Hm by done.
  case_bool_decide as Hz; [rewrite Hm; apply HT|].
  case_bool_decide as Hb; cbn; [|rewrite Hm; apply HF].
  subst m'. split; [cbn; rewrite lookup_insert_eq; eauto|].
  intros [[]|] m'; cbn; [| |intros ->; apply HN]; rewrite lookup_insert_eq; intros (j & [= <-] & ->);
    rewrite bool_decide_true by done; [apply HT|apply HF].
Qed.

Lemma stat_known f i n b (r : named) m' :
  post (locking f i n b) Stat_name r m' →
  m' = locking f i (match r with Named j => if bool_decide (j = i) then true else n | _ => n end) b.
Proof using. cbn. intros ->. destruct r; try done. by case_bool_decide. Qed.

Lemma finish_safe f i n Q :
  (∀ r n b, Q r (locking f i n b)) →
  safe (locking f i n (Some true)) (_finish_retirement f) Q.
Proof using.
  intros HQ. unfold _finish_retirement. a_call; [cbn; rewrite lookup_insert_eq; eauto|].
  intros [st|] m'; [|intros ->; apply HQ]. cbn [post locking m_fds]. rewrite lookup_insert_eq.
  intros ([= Hi] & Hn & Hm). cbn in Hm. rewrite <- Hi, (bool_decide_true (Some (f, i) = _)) in Hm by done.
  case_bool_decide as Hz; [rewrite Hm; apply HQ|].
  specialize (Hn ltac:(by rewrite <- Hi) eq_refl). rewrite bool_decide_true in Hm by done. subst m'.
  a_call; [done|]. intros [] m' ->; [|apply HQ].
  a_call; [done|]. intros r m' Hm%stat_known. subst m'. destruct r as [j| |]; [|apply HQ..].
  rewrite <- Hi. case_bool_decide as Hj; cbn [negb]; [|apply HQ].
  a_call; [done|]. intros [] m' ->; [|apply HQ]. apply safe_call; [done|]. intros r m' ->. apply HQ.
Qed.

Lemma lock_loop_safe turns blocking body Q :
  (S d = 1 → F = ∅) →
  (∀ b m, caller m → safe m (body b) (λ _ m', m' = m)) →
  (∀ r, Q r (mkMode d F None false None false 0)) →
  safe bare (lock_loop turns blocking body) Q.
Proof using.
  intros HF Hbody HQ. induction turns as [|turns IH]; [done|]. cbn [lock_loop].
  a_call; [done|]. intros [f|] m'; cbn [post]; [|intros ->; a_call; [by split|]; intros _ m' ->; apply HQ].
  intros [Hf [i ->]]. a_call; [cbn; rewrite lookup_insert_eq; eauto|].
  intros [] m'; [| |intros ->; eapply shut_safe; eauto].
  2:{ intros ->. apply safe_bind. eapply safe_mono; [|apply (Hbody false (with_fd f i)); right; by exists (S d), (<[f := i]> F)].
      intros r m' ->. eapply shut_safe; eauto. }
  cbn [post set_fds bare m_fds]. rewrite lookup_insert_eq. intros (j & [= <-] & ->). apply safe_bind.
  apply (retired_safe f i).
  - intros n b. a_call; [done|]. intros _ m' ->. a_call; [cbn; eauto|].
    intros r m' Hm%unlock_known. eapply shut_safe; eauto.
  - a_call; [done|]. intros _ m' ->. a_call; [done|]. intros _ m' ->.
    apply safe_bind. eapply safe_mono; [|apply Hbody; by left]. intros r m' ->.
    a_call; [done|]. intros _ m' ->. a_call; [done|]. intros _ m' ->. a_call; [cbn; eauto|].
    intros u m' Hm. apply (unlock_known f i true (Some false)) in Hm. eapply shut_safe; eauto.
  - intros n. apply safe_bind, finish_safe. intros r n' b. a_call; [cbn; eauto|].
    intros u m' Hm%unlock_known. a_call.
    { destruct Hm as [->|(? & ? & ->)]; cbn; rewrite lookup_insert_eq; split_and!; naive_solver. }
    intros _ m2 ->. rewrite (close_bare f i) by done. destruct (r && u); [apply IH|].
    a_call; [by split|]. intros _ m2 ->. apply HQ.
Qed.

Lemma retire_locked_safe f i Q :
  (∀ n b, Q tt (locking f i n b)) → safe (locking f i false None) (retire_locked f) Q.
Proof using.
  intros HQ. unfold retire_locked. a_call; [cbn; rewrite lookup_insert_eq; eauto|].
  intros [st|] m'; [|intros ->; apply HQ]. cbn [post]. cbn [m_fds locking]. rewrite lookup_insert_eq.
  intros ([= Hi] & _ & Hm). cbn in Hm. rewrite <- Hi, (bool_decide_true (Some (f, i) = _)) in Hm by done.
  apply safe_bind.
  set (after := λ (residue : bool) m, ∃ n b, m = locking f i n b ∧ (residue = true → b = Some true)).
  assert (Hres : safe m' (if bool_decide (st_bytes st = TOMBSTONE_LEN) then call (Pread f) else mret (Some false))
     (λ r m, match r with Some residue => after residue m | None => ∃ n b, m = locking f i n b end)).
  { assert (∃ n b, m' = locking f i n b) as (n & b & ->)
      by (repeat case_bool_decide; subst m'; unfold locking, set_known; cbn; eauto).
    clear Hm. case_bool_decide as Hs; [|by exists n, b].
    apply safe_call; [cbn; rewrite lookup_insert_eq; eauto|].
    intros [c|] m2; cbn [post locking m_fds]; [|intros ->; eauto].
    rewrite lookup_insert_eq. intros (j & [= <-] & ->). rewrite bool_decide_true by done.
    eexists _, (Some c). split; [reflexivity|]. by intros ->. }
  eapply safe_mono; [|exact Hres]. clear Hm Hres. intros [residue|] m2; [|intros (n & b & ->); apply HQ].
  intros (n & b & -> & Hb). destruct (_ || _); [apply HQ|].
  a_call; [done|]. intros r m3 Hm3%stat_known. subst m3. destruct r as [j| |]; [|apply HQ..].
  destruct (bool_decide_reflect (j = st_ino st)) as [Hj|Hj]; cbn [negb]; [|apply HQ].
  rewrite bool_decide_true by congruence.
  apply safe_bind. assert (Hun : safe (locking f i true (Some true))
      (u ← call Unlink_name; if u : bool then call Sys;; mret () else mret ()) Q).
  { a_call; [done|]. intros [] m3 ->; [|apply HQ]. a_call; [done|]. intros ? m3 ->. apply HQ. }
  destruct residue.
  - rewrite (Hb eq_refl). exact Hun.
  - a_call; [cbn; eauto|]. intros [] m3 ->; [|apply HQ]. apply safe_call; [done|].
    intros [] m3 ->; [exact Hun|apply HQ].
Qed.
End lock.

Lemma held_safe turns blocking body m :
  caller m → (∀ b m, caller m → safe m (body b) (λ _ m', m' = m)) →
  safe m (held turns blocking body) (λ _ m', m' = m).
Proof.
  intros Hm Hbody. unfold held. a_call; [done|].
  intros [] m1 ->; cbn [negb]; [|by apply Hbody].
  a_call; [done|]. intros own m1 [-> ->]. destruct Hm as [[Ho Hd]|(d & F & -> & HF)].
  - cbn [m_own set_depth]. rewrite Ho. a_call; [done|]. intros _ m1 ->.
    apply safe_bind. eapply safe_mono; [|apply Hbody; left; by split]. intros r m1 ->.
    a_call; [done|]. intros _ m1 ->. a_call; [split; [done|]; cbn; lia|]. intros _ m1 ->.
    by destruct m.
  - cbn [m_own set_depth]. a_call; [done|]. intros [] m1 ->; cbn [negb].
    + apply (lock_loop_safe F d); [|done|done]. intros [= ->]. by apply HF.
    + a_call; [split; [done|]; cbn; intros [= ->]; by apply HF|]. by intros _ m1 ->.
Qed.

Lemma retire_safe m : caller m → safe m retire (λ _ m', m' = m).
Proof.
  intros Hm. unfold retire. a_call; [done|]. intros [] m1 ->; cbn [negb]; [|done].
  a_call; [done|]. intros own m1 [-> ->]. destruct Hm as [[Ho Hd]|(d & F & -> & HF)].
  { cbn [m_own set_depth]. rewrite Ho. a_call; [split; [done|]; cbn; lia|]. intros _ m1 ->. by destruct m. }
  assert (HF' : S d = 1 → F = ∅) by (intros [= ->]; by apply HF).
  cbn [m_own set_depth]. a_call; [done|]. intros [] m1 ->; cbn [negb]; [|a_call; [by split|]; by intros _ m1 ->].
  a_call; [done|]. intros [f| |] m1; cbn [post]; [|intros ->; a_call; [by split|]; by intros _ m1 ->..].
  intros [Hf [i ->]]. change (set_fds _ _) with (with_fd F d f i).
  a_call; [cbn; rewrite lookup_insert_eq; eauto|].
  assert (Hshut : ∀ m (r : out), m = with_fd F d f i ∨ (∃ n b, m = locking F d f i n b) →
    safe m (call (Close f);; call Mutex_release;; mret r) (λ _ m', m' = mkMode d F None false None false 0)).
  { intros m r Hm. by eapply shut_safe; eauto. }
  intros [st|] m1; [|intros ->; by apply Hshut; left]. cbn [post]. intros (_ & _ & Hm1).
  assert (m1 = with_fd F d f i) as -> by (by rewrite Hm1). clear Hm1.
  case_bool_decide; cbn [negb]; [|by apply Hshut; left].
  a_call; [cbn; rewrite lookup_insert_eq; eauto|].
  intros [] m1; [|intros ->; by apply Hshut; left..]. cbn [post with_fd m_fds]. rewrite lookup_insert_eq.
  intros (j & [= <-] & ->). apply safe_bind. apply (retire_locked_safe F d f i). intros n b.
  a_call; [cbn; eauto|]. intros u m1 Hm%unlock_known. by apply Hshut.
Qed.

Lemma run_safe c m : caller m → safe m (run c) (λ _ m', m' = m).
Proof.
  revert m. induction c as [|a IHa b IHb|turns blocking taken IHt refused IHr|]; intros m Hm; cbn [run].
  - a_call; [done|]. by intros r m' ->.
  - apply safe_bind. eapply safe_mono; [|by apply IHa]. intros [] m' ->; [by apply IHb|done].
  - apply held_safe; [done|]. intros [] m' Hm'; auto.
  - by apply retire_safe.
Qed.

(** ** Every run *)

Definition Good (c : sys * pool) : Prop :=
  ∃ Ms, Inv c.1 Ms ∧ ∀ t, match c.2 !! t with
                          | Some p => safe (Ms t) p (λ _ m, m = idle)
                          | None => Ms t = idle
                          end.

Lemma inv_idle : Inv boot (λ _, idle).
Proof.
  split; cbn; try done; try (intros; by rewrite lookup_empty in * ).
  intros t. split; cbn; try done; try set_solver; intros; try naive_solver.
Qed.

Lemma kill_sound p s Ms : Inv s Ms → Inv (kill p s) (λ t, if bool_decide (t.1 = p) then idle else Ms t).
Proof.
  intros HI. split; cbn; try apply HI.
  - intros t. destruct (i_holds _ _ HI t). case_bool_decide as Hp; split; cbn; try done; subst.
    + intros d. rewrite lookup_delete_eq. naive_solver.
    + set_solver.
    + by rewrite map_lookup_filter_None_2 by naive_solver.
    + intros d. by rewrite lookup_delete_ne.
    + intros f i Hf. apply map_lookup_filter_Some. split; [by apply h_fds0|done].
    + intros f i Hl. destruct (h_lock0 _ _ Hl). split; [done|]. by apply map_lookup_filter_Some.
    + rewrite <- h_own0. set_solver.
    + rewrite map_lookup_filter. rewrite <- h_in0. destruct (s_inside s !! t); [|done]. cbn. by rewrite option_guard_True.
  - intros f q i [Hi Hq]%map_lookup_filter_Some. destruct (i_open _ _ HI _ _ _ Hi) as [? [th Hth]].
    split; [done|]. exists th. cbn in *. by rewrite bool_decide_false.
  - intros i q [Hi Hq]%map_lookup_filter_Some. destruct (i_lock _ _ HI _ _ Hi) as (th & f & Hth).
    exists th, f. cbn in *. by rewrite bool_decide_false.
Qed.

Lemma step_good c c' : Good c → step c c' → Good c'.
Proof.
  intros (Ms & HI & HP) Hs. destruct Hs as [t s s' P X o k r Ht Ho|t s P c Ht|p s P]; cbn in *.
  - pose proof (HP t) as Hp. rewrite Ht in Hp. destruct Hp as [Hpre Hk].
    destruct (call_sound o t s r s' Ms HI Hpre Ho) as (m' & Hpost & HI').
    exists (<[t:=m']> Ms). split; [done|]. intros t'. cbn [snd]. destruct (decide (t' = t)) as [->|Hne].
    + rewrite lookup_insert_eq, fn_lookup_insert. by apply Hk.
    + rewrite lookup_insert_ne, fn_lookup_insert_ne by done. apply HP.
  - assert (Hm : Ms t = idle).
    { pose proof (HP t) as Hp. destruct Ht as [Ht|[r Ht]]; by rewrite Ht in Hp. }
    exists Ms. split; [done|]. intros t'. cbn [snd]. destruct (decide (t' = t)) as [->|Hne].
    + rewrite lookup_insert_eq, Hm. eapply safe_mono; [|apply run_safe].
      * by intros _ m' ->.
      * right. by exists 0, ∅.
    + rewrite lookup_insert_ne by done. apply HP.
  - eexists. split; [by apply kill_sound|]. intros t. cbn. rewrite map_lookup_filter. specialize (HP t).
    destruct (P !! t); cbn.
    + case_bool_decide as Hp; [by rewrite option_guard_False by naive_solver|]. by rewrite option_guard_True.
    + by case_bool_decide.
Qed.

(** C4: the transition lock excludes: whatever threads of whatever processes
    take, nest, refuse and retire it, whichever system calls fail and whenever
    processes are killed, while one thread is in the body of a [with] that took
    it no other thread is -- also while the lock file is being removed and made
    again under the waiters. *)
Theorem transition_lock_excludes s P t :
  rtc step (boot, ∅) (s, P) → default 0 (s_inside s !! t) ≠ 0 →
  ∀ t', t' ≠ t → default 0 (s_inside s !! t') = 0.
Proof.
  intros Hr Hin t' Hne. assert (HG : Good (s, P)).
  { remember (boot, ∅) as c0 eqn:E. assert (H0 : Good c0).
    { subst. exists (λ _, idle). split; [apply inv_idle|done]. }
    clear E. induction Hr; eauto using step_good. }
  destruct HG as (Ms & HI & _). cbn in HI. revert Hin.
  rewrite (h_in _ _ _ (i_holds _ _ HI t)), (h_in _ _ _ (i_holds _ _ HI t')).
  destruct (decide (m_in (Ms t') = 0)) as [?|Hn]; [done|]. intros Hin. destruct Hne. by eapply one_inside.
Qed.

(** Process 0 is inside; process 1 opened the file and was refused. *)
Definition demo_client : client := With 1 false Statement Statement.

Definition demo_first : sys := set_mutex {[ 0 := (0, 1) ]} boot.
Definition demo_opened : sys :=
  set_open {[ 3 := (0, 7) ]} (set_name (Some 7) (set_data {[ 7 := Empty ]} demo_first)).
Definition demo_locked : sys := set_lock {[ 7 := 0 ]} demo_opened.
Definition demo_owned : sys := set_owned {[ (0, 0) ]} demo_locked.
Definition demo_entered : sys := set_inside {[ (0, 0) := 1 ]} demo_owned.
Definition demo_second : sys := set_mutex (<[1 := (0, 1)]> {[ 0 := (0, 1) ]}) demo_entered.
Definition demo_refused : sys := set_open (<[4 := (1, 7)]> {[ 3 := (0, 7) ]}) demo_second.

(** One call of thread [t], answering [r] and leaving [s']. *)
Ltac a_step t r s' :=
  eapply rtc_l;
  [eapply (step_call t _ s' _ _ _ _ r); [apply lookup_insert_eq|]|cbn beta iota].

Lemma demo_reached : ∃ P, rtc step (boot, ∅) (demo_refused, P).
Proof.
  eexists. eapply rtc_l; [apply (step_start (0, 0) _ _ demo_client); by left|].
  a_step (0, 0) true demo_first. { by vm_compute. }
  a_step (0, 0) false demo_first. { by vm_compute. }
  a_step (0, 0) true demo_first. { done. }
  a_step (0, 0) (Some 3) demo_opened. { split; [done|]. right. split; [done|]. by exists 7. }
  a_step (0, 0) Locked demo_locked. { by exists 7. }
  a_step (0, 0) (Some (mkFstat 1 0 7)) demo_locked. { split; [done|]. by exists 7, Empty. }
  a_step (0, 0) tt demo_owned. { by vm_compute. }
  a_step (0, 0) tt demo_entered. { by vm_compute. }
  eapply rtc_l; [apply (step_start (1, 0) _ _ demo_client); by left|].
  a_step (1, 0) true demo_second. { by vm_compute. }
  a_step (1, 0) false demo_second. { by vm_compute. }
  a_step (1, 0) true demo_second. { done. }
  a_step (1, 0) (Some 4) demo_refused. { split; [done|]. left. by exists 7. }
  a_step (1, 0) Refused demo_refused. { split_and!; [done|done|]. by exists 7, 0. }
  apply rtc_refl.
Qed.

Lemma transition_lock_excludes_witness : default 0 (s_inside demo_refused !! (1, 0)) = 0.
Proof.
  destruct demo_reached as [P HP].
  apply (transition_lock_excludes demo_refused P (0, 0)); [exact HP|done|done].
Defined.
