(* ===== verification/Endings.v ===== *)
(** * How a key ended ([endings.py])

    The three ending questions over captured records, and the waiter's poll
    ([action_wait.py]) that feeds the second one: which record answers for
    a key now ([resolve_current]), which ending a waiter bound to one
    generation gets ([resolve_run]), and which transition an immutable attempt
    permits ([resolve_attempt]).  [resolve_current] sees a [published_unix] as
    a finite number or nothing; the waiter compares it as it is ([Stamp]).
    Record bodies are carried as a string tag, so that an answer names the
    record it took.  The poll is a program of reads: each answers from the
    files as they stand at its turn, and each but those of the rows may
    raise. *)
From S2P Require Import Prelude.
From S2P Require Import Prog.

#[local] Open Scope Z_scope.

(** ** The key's current ending *)

Inductive State := DONE | FAILED | WITHDRAWN.

#[export] Instance State_eq_dec : EqDecision State.
Proof. solve_decision. Defined.

(** A terminal record: its generation and its body. *)
Record Ending := mkEnding { e_generation : option Z; e_body : string }.

(** What the capture found at one terminal address. *)
Inductive Observed := Absent | Present (e : Ending) | Unknown (reason : string).

Definition readable (o : Observed) : option Ending := match o with Present e => Some e | _ => None end.
Definition unreadable (o : Observed) : option string := match o with Unknown w => Some w | _ => None end.

(** The capture reads the three addresses in this order. *)
Definition STATES : list State := [DONE; FAILED; WITHDRAWN].

Record Capture := mkCapture { at_done : Observed; at_failed : Observed; at_withdrawn : Observed }.

Definition candidate (c : Capture) (s : State) : Observed :=
  match s with DONE => at_done c | FAILED => at_failed c | WITHDRAWN => at_withdrawn c end.

Record Current := mkCurrent {
  c_state : option State; c_record : option Ending; c_history : list (State * Ending);
  c_unreadable : list (State * string); c_ambiguous : bool; c_coexisting : list State }.

Section current.
Context (c : Capture).

Definition generation (s : State) : option Z := readable (candidate c s) ≫= e_generation.
Definition present : list State := filter (λ s, is_Some (readable (candidate c s))) STATES.
Definition unreadable_entries : list (State * string) :=
  omap (λ s, (s,.) <$> unreadable (candidate c s)) STATES.
Definition coexisting : list State := present ++ (fst <$> unreadable_entries).

(** The answer that takes [state] for the key's ending. *)
Definition result (state : option State) (ambiguous : bool) : Current :=
  mkCurrent state (state ≫= λ s, readable (candidate c s))
    (omap (λ s, if bool_decide (Some s = state) then None else (s,.) <$> readable (candidate c s)) present)
    unreadable_entries ambiguous coexisting.

(** A readable failure, else a readable cancellation. *)
Definition failure : option State := head (filter (λ s, is_Some (readable (candidate c s))) [FAILED; WITHDRAWN]).

Definition orderable : list State := filter (λ s, is_Some (generation s)) present.

Definition newest : Z :=
  match omap generation orderable with [] => 0 | z :: zs => foldr Z.max z zs end.
Definition winners : list State := filter (λ s, generation s = Some newest) orderable.

Definition resolve_current : Current :=
  if bool_decide (coexisting = []) then result None false
  else if bool_decide (length present = 1%nat) && bool_decide (unreadable_entries = [])
  then result (head present) false
  else if bool_decide (2 ≤ length orderable)%nat then
    match winners with
    | [winner] =>
        if bool_decide (winner = DONE) && negb (bool_decide (length orderable = length coexisting))
        then result failure true
        else result (Some winner) (negb (bool_decide (unreadable_entries = [])))
    | _ => result (match head (filter (λ s, s ≠ DONE) winners) with
                   | Some s => Some s | None => head winners end) true
    end
  else
    match orderable with
    | [only] =>
        if bool_decide (only = DONE) && bool_decide (1 < length coexisting)%nat
        then result failure true
        else result (Some only) (bool_decide (1 < length coexisting)%nat)
    | _ => result (match failure with Some s => Some s | None => head present end)
             (bool_decide (1 < length coexisting)%nat)
    end.
End current.

(** ** The watched run *)

(** A [published_unix] as the waiter meets it: missing or no number, a finite
    number, one that is not finite, or an integer no float can hold. *)
Inductive Stamp := No_stamp | At (z : Z) | Inf | Minus_inf | Nan | Too_large.

#[export] Instance Stamp_eq_dec : EqDecision Stamp.
Proof. solve_decision. Defined.

(** A filed ending: its status, generation, the preemption that stopped it and
    its body. *)
Record Filed := mkFiled {
  f_status : string; f_generation : Stamp; f_preempted_by : option string; f_body : string }.

(** A captured input, or one not asked for yet. *)
Inductive Captured (A : Type) := Uncaptured | Captures (a : A).
Arguments Uncaptured {A}.
Arguments Captures {A} a.

Record RunCapture := mkRunCapture {
  rc_terminals : list Filed;
  rc_broken : list string;
  rc_publication_errors : list string;
  rc_withdrawals : Captured (list Filed);
  rc_archives : Captured (list Filed);
  rc_publication : Captured (option string);   (* the exact publication's supersession *)
  rc_successor : Captured (option Stamp) }.

Inductive Answered := Nothing | Recorded (f : Filed) | Superseded (body : string).

(** Which reads an error came from. *)
Inductive Source := Rows | Decisions | Archives | Publications | Handoffs.

Inductive Run :=
  | Answer (a : Answered) (generation : option Stamp)
  | Withdrawal_inputs | Archive_inputs | Publication_inputs | Preemption_inputs (f : Filed)
  | Raises (from : Source).

Definition preempted (f : Filed) : bool :=
  bool_decide (is_Some (f_preempted_by f)) && bool_decide (f_status f = "withdrawn").

(** Another publication of the key, as the successor question reads it: its
    generation and the cancellation it says it revives. *)
Record Handoff := mkHandoff { h_published : Stamp; h_parent : option (Stamp * option string) }.

(** Whether the record is a handoff from this stop, and to where: [float]
    raises on an integer too large. *)
Definition handoff_to (f : Filed) (generation : Z) (h : Handoff) : res (option Stamp) :=
  match h_published h, h_parent h with
  | No_stamp, _ | _, None => Ok None
  | theirs, Some (g, by_) =>
      if bool_decide (g = At generation) && bool_decide (by_ = f_preempted_by f) then
        match theirs with
        | At z => Ok (if bool_decide (generation < z) then Some (At z) else None)
        | Inf => Ok (Some Inf)
        | Too_large => Raise (ValueError "int too large to convert to float")
        | _ => Ok None
        end
      else Ok None
  end.

(** [min] of two handoffs. *)
Definition earlier (a b : Stamp) : Stamp :=
  match a, b with At x, At y => At (Z.min x y) | Inf, _ => b | _, _ => a end.

(** The earliest actual handoff from this stop. *)
Fixpoint preemption_successor (f : Filed) (generation : Z) (records : list Handoff) : res (option Stamp) :=
  match records with
  | [] => Ok None
  | h :: hs =>
      match handoff_to f generation h with
      | Raise e => Raise e
      | Ok found =>
          match preemption_successor f generation hs with
          | Raise e => Raise e
          | Ok rest => Ok (match found, rest with
                           | Some a, Some b => Some (earlier a b)
                           | None, r => r
                           | a, None => a
                           end)
          end
      end
  end.

(** The withdrawals of the watched generation that no terminal repeats. *)
Fixpoint add_withdrawals (generation : option Z) (ws found : list Filed) : list Filed :=
  match ws with
  | [] => found
  | w :: ws' =>
      add_withdrawals generation ws'
        (if match generation with None => true | Some g => bool_decide (f_generation w = At g) end
            && negb (existsb (λ e, bool_decide (f_status e = "withdrawn")
                                   && bool_decide (f_generation e = f_generation w)) found)
         then found ++ [w] else found)
  end.

(** [max(found, key=stamp)]: the first of the greatest generation; [None] when
    [float] raises. *)
Definition stamp_lt (a b : Stamp) : bool :=
  match a, b with
  | (No_stamp | Minus_inf), (At _ | Inf) | At _, Inf => true
  | At x, At y => bool_decide (x < y)
  | _, _ => false
  end.
Fixpoint greatest (f : Filed) (fs : list Filed) : Filed :=
  match fs with
  | [] => f
  | x :: fs' => greatest (if stamp_lt (f_generation f) (f_generation x) then x else f) fs'
  end.
Definition latest (f : Filed) (fs : list Filed) : option Filed :=
  if existsb (λ x, bool_decide (f_generation x = Too_large)) (f :: fs) then None else Some (greatest f fs).

Definition raise_or (es : list string) (r : Run) : Run := match es with _ :: _ => Raises Rows | [] => r end.

(** The part that answers, once [found] is known. *)
Definition answer_run (c : RunCapture) (g : Z) (found : list Filed) : Run :=
  let exact := filter (λ f, f_generation f = At g) found in
  let landed r :=
    match r with
    | [] => raise_or (rc_broken c) (Answer Nothing (Some (At g)))
    | f :: _ =>
        if preempted f then
          match rc_successor c with
          | Uncaptured => Preemption_inputs f
          | Captures (Some next) => Answer Nothing (Some next)
          | Captures None => Answer (Recorded f) (Some (At g))
          end
        else Answer (Recorded f) (Some (At g))
    end in
  match exact with
  | [] =>
      match rc_publication c with
      | Uncaptured => Publication_inputs
      | Captures (Some p) => Answer (Superseded p) (Some (At g))
      | Captures None => raise_or (rc_publication_errors c) (landed found)
      end
  | _ => landed exact
  end.

Definition resolve_run (c : RunCapture) (generation : option Z) : Run :=
  match rc_withdrawals c with
  | Uncaptured => Withdrawal_inputs
  | Captures ws =>
      let found := add_withdrawals generation ws (rc_terminals c) in
      match generation with
      | Some g =>
          if existsb (λ f, bool_decide (f_generation f = At g)) found then answer_run c g found
          else match rc_archives c with
               | Uncaptured => Archive_inputs
               | Captures archived => answer_run c g (found ++ archived)
               end
      | None =>
          raise_or (rc_publication_errors c)
            (match found with
             | [f] => Answer (Recorded f) None
             | f :: fs => match latest f fs with Some l => Answer (Recorded l) None | None => Raises Rows end
             | [] => raise_or (rc_broken c) (Answer Nothing None)
             end)
      end
  end.

(** ** One poll of the waiter ([action_wait.py]) *)

(** A terminal row as the waiter reads it; [publication] marks a row that
    carries the supersession schema. *)
Inductive Row := No_row | Torn_row (reason : string) | Row_of (f : Filed) (publication : bool).

(** What the waiter makes of a row: nothing of its generation, a record, an
    [UnreadableTerminal], or an error of [float]. *)
Inductive Terminal := Passed | Taken (f : Filed) (publication : bool) | Unreadable | Overflows.

(** The record at a row, when it belongs to the watched generation; a record
    with no generation stands. *)
Definition terminal_record (row : Row) (generation : option Z) (report_unreadable : bool) : Terminal :=
  match row with
  | No_row => Passed
  | Torn_row _ => if report_unreadable then Unreadable else Passed
  | Row_of f publication =>
      match generation, f_generation f with
      | None, _ | _, No_stamp => Taken f publication
      | Some g, At theirs => if bool_decide (theirs = g) then Taken f publication else Passed
      | Some _, Too_large => Overflows
      | Some _, (Inf | Minus_inf | Nan) => Passed
      end
  end.

(** [require_execution_ending]. *)
Definition execution_ending (f : Filed) (publication : bool) : bool :=
  negb (bool_decide (f_status f = "superseded") || publication).

(** The reads of a poll. *)
Inductive pop : Type → Type :=
  | Read_row (s : State) : pop Row
  | Read_decisions (generation : option Z) : pop (res (list Filed))
  | Read_archives (g : Z) : pop (res (list Filed))
  | Read_publication (g : Z) : pop (res (option string))
  | Read_handoffs : pop (res (list Handoff)).

(** The rows of a poll: the endings, the unreadable rows, and the rows that
    only publish a supersession; [None] when an error ends it. *)
Fixpoint read_rows (states : list State) (generation : option Z) (report_unreadable : bool)
  : prog pop (option (list Filed * list string * list string)) :=
  match states with
  | [] => mret (Some ([], [], []))
  | s :: states' =>
      row ← call (Read_row s);
      match terminal_record row generation report_unreadable with
      | Overflows => mret None
      | t =>
          rest ← read_rows states' generation report_unreadable;
          mret ('(found, broken, publications) ← rest;
                Some (match t with
                      | Taken f publication =>
                          if execution_ending f publication then (f :: found, broken, publications)
                          else (found, broken, "publication evidence" :: publications)
                      | Unreadable => (found, "unreadable" :: broken, publications)
                      | _ => (found, broken, publications)
                      end))
      end
  end.

(** The successor of a preempted ending, read when it was preempted. *)
Definition _read_preemption_successor (f : Filed) (g : Z) : prog pop (res (option Stamp)) :=
  if preempted f then
    r ← call Read_handoffs;
    mret (match r with Raise e => Raise e | Ok records => preemption_successor f g records end)
  else mret (Ok None).

(** One turn of the poll: capture what was asked for, or raise. *)
Definition supply (generation : option Z) (r : Run) (c : RunCapture) : prog pop (Run + RunCapture) :=
  let '(mkRunCapture t b p w a pub s) := c in
  match r, generation with
  | Withdrawal_inputs, _ =>
      x ← call (Read_decisions generation);
      mret (match x with Raise _ => inl (Raises Decisions) | Ok ws => inr (mkRunCapture t b p (Captures ws) a pub s) end)
  | Archive_inputs, Some g =>
      x ← call (Read_archives g);
      mret (match x with Raise _ => inl (Raises Archives) | Ok ar => inr (mkRunCapture t b p w (Captures ar) pub s) end)
  | Publication_inputs, Some g =>
      x ← call (Read_publication g);
      mret (match x with Raise _ => inl (Raises Publications) | Ok found => inr (mkRunCapture t b p w a (Captures found) s) end)
  | Preemption_inputs f, Some g =>
      x ← _read_preemption_successor f g;
      mret (match x with Raise _ => inl (Raises Handoffs) | Ok next => inr (mkRunCapture t b p w a pub (Captures next)) end)
  | _, _ => mret (inl r)
  end.

Fixpoint poll_loop (turns : nat) (generation : option Z) (c : RunCapture) : prog pop Run :=
  let r := resolve_run c generation in
  match r, turns with
  | (Answer _ _ | Raises _), _ | _, O => mret r
  | _, S turns' =>
      x ← supply generation r c;
      match x with
      | inl stop => mret stop
      | inr c' => poll_loop turns' generation c'
      end
  end.

Definition outcome_poll (generation : option Z) (report_unreadable : bool) : prog pop Run :=
  rows ← read_rows STATES generation report_unreadable;
  match rows with
  | None => mret (Raises Rows)
  | Some (found, broken, publications) =>
      poll_loop 4 generation (mkRunCapture found broken publications Uncaptured Uncaptured Uncaptured Uncaptured)
  end.

(** The key's files at one moment: the three rows, and what the filed
    withdrawal decisions, the attempt archives, the publication endings and
    the records a handoff is read from answer.  Each of these directories, and
    the records of a handoff, which the code reads under the transition lock,
    is read at one moment. *)
Record KeyFiles := mkKeyFiles {
  kf_row : State → Row; kf_decisions : res (list Filed); kf_archived : res (list Filed);
  kf_publication : Z → res (option string); kf_handoffs : res (list Handoff) }.

Definition of_generation (generation : option Z) (r : res (list Filed)) : res (list Filed) :=
  match generation, r with Some g, Ok fs => Ok (filter (λ f, f_generation f = At g) fs) | _, _ => r end.

Definition answers {X} (k : KeyFiles) (o : pop X) : X :=
  match o in pop X return X with
  | Read_row s => kf_row k s
  | Read_decisions generation => of_generation generation (kf_decisions k)
  | Read_archives g => of_generation (Some g) (kf_archived k)
  | Read_publication g => kf_publication k g
  | Read_handoffs => kf_handoffs k
  end.

(** A poll whose [i]-th read finds the files [w i]: the answer, and the number
    of the next read. *)
Fixpoint polled {A} (w : nat → KeyFiles) (i : nat) (p : prog pop A) : A * nat :=
  match p with
  | Ret a => (a, i)
  | Do o k => polled w (S i) (k (answers (w i) o))
  end.

(** ** The transition an attempt permits *)

Inductive Disposition := To_done | To_failed | To_withdrawn | Requeued.

#[export] Instance Disposition_eq_dec : EqDecision Disposition.
Proof. solve_decision. Defined.

(** An immutable attempt, as far as the transition reads it.  [None] stands
    for a field of the wrong type. *)
Record Attempt := mkAttempt {
  a_status : option string; a_disposition : option Disposition;
  a_attempt : option Z; a_max_attempts : option Z;
  a_stop : option bool;               (* an output retry stop, and whether it verifies *)
  a_interruption : bool;              (* [retry_scope == "interruption"] *)
  a_worker_reported : bool;
  a_detail : bool; a_finished_unix : option Z; a_finished_host : option string;
  a_stdout : string; a_stderr : string }.

Definition succeeded (status : string) : bool :=
  bool_decide (status = "executed") || bool_decide (status = "cache_hit").

(** The one disposition the rule allows. *)
Definition expected_disposition (status : string) (stopped worker_final : bool) (attempt max : Z)
  : Disposition :=
  if bool_decide (status = "withdrawn") then To_withdrawn
  else if succeeded status then To_done
  else if stopped || worker_final || bool_decide (max ≤ attempt) then To_failed
  else Requeued.

Definition TERMINAL_STREAM_TAIL_BYTES : nat := 64 * 1024.

(** The bounded tail of a stream, its length and whether it was cut.  A stream
    is its bytes here. *)
Definition _terminal_stream_inline (raw : string) : string * nat * bool :=
  let n := String.length raw in
  if bool_decide (n ≤ TERMINAL_STREAM_TAIL_BYTES)%nat then (raw, n, false)
  else (String.substring (n - TERMINAL_STREAM_TAIL_BYTES) TERMINAL_STREAM_TAIL_BYTES raw, n, true).

Record Adopted := mkAdopted {
  ad_attempt : Z; ad_status : string; ad_disposition : Disposition; ad_stopped : bool;
  ad_finished_unix : Z; ad_finished_host : string;
  ad_stdout : string * nat * bool; ad_stderr : string * nat * bool }.

Definition resolve_attempt (attempts : list Attempt) : res Adopted :=
  match last attempts with
  | None => Raise (PoolContractError "no immutable outcome")
  | Some a =>
      match a_status a, a_disposition a, a_attempt a, a_max_attempts a with
      | Some status, Some disposition, Some attempt, Some max =>
          if bool_decide (status = "") then Raise (PoolContractError "status")
          else
            let stopped := bool_decide (is_Some (a_stop a)) in
            if stopped && succeeded status then Raise (PoolContractError "successful attempt stopped")
            else if bool_decide (a_stop a = Some false) then Raise (PoolContractError "output retry stop")
            else
              let final := a_interruption a && a_worker_reported a in
              if negb (bool_decide (disposition = expected_disposition status stopped final attempt max))
              then Raise (PoolContractError "disposition")
              else if negb (a_detail a) then Raise (PoolContractError "detail")
              else
                match a_finished_unix a, a_finished_host a with
                | Some t, Some h =>
                    if bool_decide (h = "") then Raise (PoolContractError "finished_host")
                    else Ok (mkAdopted attempt status disposition stopped t h
                               (_terminal_stream_inline (a_stdout a)) (_terminal_stream_inline (a_stderr a)))
                | None, _ => Raise (PoolContractError "finished_unix")
                | _, None => Raise (PoolContractError "finished_host")
                end
      | None, _, _, _ => Raise (PoolContractError "status")
      | _, None, _, _ => Raise (PoolContractError "disposition")
      | _, _, _, _ => Raise (PoolContractError "bounds")
      end
  end.
