(* ===== verification/EndingsSpec.v ===== *)
(** * What an ending answer means

    Success is never read out of an unsettled contest, no evidence is dropped,
    the watching poll answers only for its own generation whatever happens to
    the files between its reads, and an attempt is adopted only with the disposition
    its bounds allow. *)
From S2P Require Import Prelude.
From S2P Require Import Prog.
From S2P Require Import Endings.

#[local] Open Scope Z_scope.

(** ** The current ending *)

(** Compute the answer over every shape of the three addresses. *)
Ltac by_addresses c :=
  destruct c as [[|[[?|] ?]|?] [|[[?|] ?]|?] [|[[?|] ?]|?]].
Ltac compute_answer H :=
  cbv -[Z.max Z.eq_dec Z.lt] in H;
  repeat (destruct (Z.eq_dec _ _); try discriminate H);
  try discriminate H.

(** C34: success is never read out of a contest that the generations do not
    settle.  When [done] is the answer, every other terminal address is empty,
    or holds a readable record of a strictly older generation than [done]'s,
    or -- the one exception -- [done] itself has no generation, the other
    address cannot be read, and the answer says it is ambiguous. *)
Theorem success_is_settled c :
  c_state (resolve_current c) = Some DONE →
  ∀ other, other ≠ DONE →
  candidate c other = Absent
  ∨ (∃ g g', generation c DONE = Some g ∧ generation c other = Some g' ∧ g' < g)
  ∨ (generation c DONE = None ∧ is_Some (unreadable (candidate c other))
     ∧ c_ambiguous (resolve_current c) = true).
Proof.
  intros H other Ho.
  by_addresses c; compute_answer H.
  all: destruct other; try done; cbn; try (by left).
  all: right; try (left; eexists _, _; repeat split; lia).
  all: right; repeat split; eauto.
Qed.

(** No evidence is dropped.  Every readable record of the key is the
    answer's record or one of its history, every unreadable one is reported,
    and a readable failure or cancellation always names an ending. *)
Theorem ending_keeps_evidence c s :
  let r := resolve_current c in
  match candidate c s with
  | Present e => (c_state r = Some s ∧ c_record r = Some e) ∨ (s, e) ∈ c_history r
  | Unknown why => (s, why) ∈ c_unreadable r
  | Absent => s ∉ c_coexisting r
  end ∧
  (is_Some (readable (candidate c s)) → s ≠ DONE → is_Some (c_state r)).
Proof.
  by_addresses c; destruct s.
  all: cbv -[Z.max Z.eq_dec elem_of not]; repeat (destruct (Z.eq_dec _ _)).
  all: try (exfalso; lia).
  all: (split; [set_solver|intros [? H1] H2; first [discriminate H1 | by destruct H2 | by eexists]]).
Qed.
(** A [done] record of generation 9 beside a failure of generation 4. *)
Definition demo_settled : Capture :=
  mkCapture (Present (mkEnding (Some 9) "executed")) (Present (mkEnding (Some 4) "failed")) Absent.

Lemma success_is_settled_witness :
  c_state (resolve_current demo_settled) = Some DONE ∧
  ((∃ g g', generation demo_settled DONE = Some g ∧ generation demo_settled FAILED = Some g' ∧ g' < g)
   ∨ candidate demo_settled FAILED = Absent ∨ generation demo_settled DONE = None).
Proof.
  split; [vm_compute; reflexivity|].
  destruct (success_is_settled demo_settled ltac:(vm_compute; reflexivity) FAILED ltac:(discriminate))
    as [H|[H|[H _]]]; [right; left; exact H|left; exact H|right; right; exact H].
Defined.

(** Where the answer departs from the rule [resolve_current] documents for
    a contest.  A [done] record without a generation beside a [failed] row that
    cannot be read is answered as [done]; and a third candidate without a
    generation does not make the answer ambiguous when a failure is the newest
    of the other two. *)
Theorem contest_departures :
  let unread := resolve_current (mkCapture (Present (mkEnding None "executed")) (Unknown "not valid JSON") Absent) in
  let third := resolve_current (mkCapture (Present (mkEnding None "executed"))
                 (Present (mkEnding (Some 9) "failed")) (Present (mkEnding (Some 4) "withdrawn"))) in
  c_state unread = Some DONE ∧ c_ambiguous unread = true
  ∧ c_state third = Some FAILED ∧ c_ambiguous third = false ∧ c_coexisting third = [DONE; FAILED; WITHDRAWN].
Proof. vm_compute. done. Qed.

(** ** The watched run *)

Lemma polled_bind {A B} w i (p : prog pop A) (f : A → prog pop B) :
  polled w i (p ≫= f) = polled w (polled w i p).2 (f (polled w i p).1).
Proof.
  revert i. induction p as [a|X o k IH]; intros i; [done|].
  change (Do o k ≫= f) with (Do o (λ x, k x ≫= f)). cbn [polled]. apply IH.
Qed.

(** A poll reads at most seven times: the three rows, and one read for each
    capture. *)
Definition READS : nat := 7.

(** Adding the withdrawals of a generation adds no other record, and keeps
    whether the generation has an ending. *)
Lemma add_withdrawals_sound g ws found f :
  f ∈ add_withdrawals (Some g) ws found → f ∈ found ∨ f ∈ ws.
Proof.
  revert found. induction ws as [|w ws IH]; intros found; cbn [add_withdrawals]; [by left|].
  intros [H|H]%IH; [|set_solver]. destruct (_ && _); set_solver.
Qed.

Lemma add_withdrawals_keeps g ws found f : f ∈ found → f ∈ add_withdrawals (Some g) ws found.
Proof.
  revert found. induction ws as [|w ws IH]; intros found Hf; cbn [add_withdrawals]; [done|].
  apply IH. destruct (_ && _); set_solver.
Qed.

Lemma add_withdrawals_exact g ws found w :
  w ∈ ws → f_generation w = At g → ∃ f, f ∈ add_withdrawals (Some g) ws found ∧ f_generation f = At g.
Proof.
  revert found. induction ws as [|w' ws IH]; intros found Hw Hg; [set_solver|].
  apply elem_of_cons in Hw as [->|Hw]; [|by apply IH]. cbn [add_withdrawals].
  rewrite (bool_decide_true (f_generation w' = At g)) by done. cbn [andb].
  destruct (existsb _ found) eqn:He; cbn.
  - apply existsb_exists in He as (e & He1 & [_ He2%bool_decide_eq_true]%andb_true_iff).
    exists e. split; [|congruence]. by apply add_withdrawals_keeps, list_elem_of_In.
  - exists w'. split; [|done]. apply add_withdrawals_keeps. set_solver.
Qed.

(** A handoff from the stop [f] of generation [g] to the publication [n], and
    the earliest of them. *)
Definition handed_off (hs : list Handoff) (f : Filed) (g : Z) (n : Stamp) : Prop :=
  stamp_lt (At g) n ∧ ∃ h, h ∈ hs ∧ h_published h = n ∧ h_parent h = Some (At g, f_preempted_by f).
Definition earliest_handoff (hs : list Handoff) (f : Filed) (g : Z) (n : Stamp) : Prop :=
  handed_off hs f g n ∧ ∀ m, handed_off hs f g m → stamp_lt m n = false.

(** A handoff from this stop whose stamp no float can hold. *)
Definition huge_handoff (hs : list Handoff) (f : Filed) (g : Z) : Prop :=
  ∃ h, h ∈ hs ∧ h_published h = Too_large ∧ h_parent h = Some (At g, f_preempted_by f).

Lemma handoff_to_spec f g h :
  match handoff_to f g h with
  | Ok found => ∀ n, found = Some n ↔ stamp_lt (At g) n ∧ h_published h = n ∧ h_parent h = Some (At g, f_preempted_by f)
  | Raise _ => h_published h = Too_large ∧ h_parent h = Some (At g, f_preempted_by f)
  end.
Proof.
  unfold handoff_to. destruct (h_published h) as [|z| | | |] eqn:Ep, (h_parent h) as [[g' by_]|]; cbn;
    try naive_solver;
    destruct (bool_decide_reflect (g' = At g)), (bool_decide_reflect (by_ = f_preempted_by f)); cbn;
    try naive_solver.
  case_bool_decide as Hlt; cbn; [|intros n; split; [done|]; intros (H & <- & _); by rewrite bool_decide_false in H].
  intros n. split; [intros [= <-]; by rewrite bool_decide_true; subst|naive_solver].
Qed.

Lemma preemption_successor_spec f g hs :
  match preemption_successor f g hs with
  | Ok (Some n) => earliest_handoff hs f g n
  | Ok None => ∀ n, ¬ handed_off hs f g n
  | Raise _ => huge_handoff hs f g
  end.
Proof.
  induction hs as [|h hs IH]; cbn [preemption_successor]; [intros n (_ & h & Hh & _); set_solver|].
  pose proof (handoff_to_spec f g h) as Hh. destruct (handoff_to f g h) as [found|e].
  2: { exists h. set_solver. }
  assert (Hcons : ∀ n, handed_off (h :: hs) f g n ↔ found = Some n ∨ handed_off hs f g n).
  { intros n. rewrite Hh. unfold handed_off. setoid_rewrite elem_of_cons. naive_solver. }
  destruct (preemption_successor f g hs) as [rest|e].
  2: { destruct IH as (h' & ? & ?). exists h'. split; [set_solver|done]. }
  destruct found as [a|], rest as [b|].
  2: { pose proof (proj1 (Hh a) eq_refl) as (Ha & _). split; [apply Hcons; auto|].
       intros m [[= <-]|Hm]%Hcons; [|by destruct (IH m)]. destruct a; try done. cbn. apply bool_decide_eq_false. lia. }
  2: { split; [apply Hcons; right; apply IH|]. intros m [[=]|Hm]%Hcons. by apply IH. }
  2: { intros n [[=]|Hm]%Hcons. by apply (IH n). }
  destruct IH as [IH1 IH2]. pose proof (proj1 (Hh a) eq_refl) as (Ha & _). pose proof (proj1 IH1) as Hb.
  assert (Hmin : (earlier a b = a ∨ earlier a b = b) ∧ stamp_lt a (earlier a b) = false
                 ∧ ∀ m, stamp_lt (At g) m → stamp_lt m b = false → stamp_lt m (earlier a b) = false).
  { destruct a as [|x| | | |], b as [|y| | | |]; try done; cbn; [|split_and!; [by left|apply bool_decide_eq_false; lia|by intros []]|by auto..].
    split_and!; [destruct (Z.min_spec x y) as [[_ ->]|[_ ->]]; auto|apply bool_decide_eq_false; lia|].
    intros [] _; cbn; rewrite ?bool_decide_eq_false; [done|lia|done..]. }
  destruct Hmin as ([E|E] & M1 & M2); (split; [rewrite E; apply Hcons; auto|]);
    (intros m [[= <-]|Hm]%Hcons; [done|apply M2; [apply Hm|by apply IH2]]).
Qed.

Section watched.
Context (w : nat → KeyFiles) (g : Z) (report_unreadable : bool).

(** An ending one of the reads could find, and one that keeps its place
    throughout the poll: at its row, among the decisions or in the archives. *)
Definition on_file (f : Filed) : Prop :=
  ∃ i, (i < READS)%nat ∧
  ((∃ s publication, kf_row (w i) s = Row_of f publication ∧ execution_ending f publication)
   ∨ (∃ fs, kf_decisions (w i) = Ok fs ∧ f ∈ fs) ∨ (∃ fs, kf_archived (w i) = Ok fs ∧ f ∈ fs)).
Definition stays_at_row (f : Filed) : Prop :=
  ∃ s publication, execution_ending f publication ∧
    ∀ i, (i < READS)%nat → kf_row (w i) s = Row_of f publication.
Definition stays_decided (f : Filed) : Prop :=
  ∀ i, (i < READS)%nat → ∃ fs, kf_decisions (w i) = Ok fs ∧ f ∈ fs.
Definition stays_archived (f : Filed) : Prop :=
  ∀ i, (i < READS)%nat → ∃ fs, kf_archived (w i) = Ok fs ∧ f ∈ fs.

(** No ending of [g] keeps its place among the rows and the decisions; none
    anywhere. *)
Definition not_filed : Prop := ∀ f, stays_at_row f ∨ stays_decided f → f_generation f ≠ At g.
Definition missing : Prop := not_filed ∧ ∀ f, stays_archived f → f_generation f ≠ At g.

(** A row the waiter refuses to read past: torn, when it reports those, or
    publication evidence where an ending belongs. *)
Definition bad_row : Prop :=
  ∃ i s, (i < READS)%nat ∧
  ((∃ why, kf_row (w i) s = Torn_row why) ∧ report_unreadable = true
   ∨ ∃ f publication, kf_row (w i) s = Row_of f publication ∧ execution_ending f publication = false).
Definition huge_row : Prop :=
  ∃ i s f publication, (i < READS)%nat ∧ kf_row (w i) s = Row_of f publication ∧ f_generation f = Too_large.

Definition told (f : Filed) : Prop := f_generation f = At g ∨ f_generation f = No_stamp.

(** ** Reading the rows *)

Lemma read_rows_polled states i :
  (i + length states ≤ READS)%nat →
  let '(r, j) := polled w i (read_rows states (Some g) report_unreadable) in
  match r with
  | None => huge_row
  | Some (found, broken, publications) =>
      j = (i + length states)%nat
      ∧ (∀ f, f ∈ found → on_file f ∧ told f)
      ∧ (∀ f s publication, s ∈ states → execution_ending f publication → f_generation f = At g →
           (∀ i, (i < READS)%nat → kf_row (w i) s = Row_of f publication) → f ∈ found)
      ∧ (broken ≠ [] ∨ publications ≠ [] → bad_row)
  end.
Proof.
  revert i. induction states as [|s states IH]; intros i Hi; cbn [read_rows].
  { cbn. split_and!; [lia|set_solver..|naive_solver]. }
  change (call (Read_row s) ≫= ?f) with (Do (Read_row s) f). cbn [polled answers length] in *.
  specialize (IH (S i) ltac:(lia)).
  assert (Hlt : (i < READS)%nat) by lia.
  destruct (terminal_record (kf_row (w i) s) (Some g) report_unreadable) as [|f pub| |] eqn:Et;
    [rewrite polled_bind..|].
  4: { cbn. unfold terminal_record in Et. destruct (kf_row (w i) s) as [|why|f pub] eqn:Er; [done|by destruct report_unreadable|].
       destruct (f_generation f) eqn:Eg; try done; [by case_bool_decide|]. by exists i, s, f, pub. }
  all: destruct (polled w (S i) _) as [[[[found broken] publications]|] j]; cbn [fst snd] in *; [|exact IH].
  all: cbn [polled fst snd mbind option_bind mret option_ret]; destruct IH as (-> & IH1 & IH2 & IH3).
  - split_and!; [lia|done| |done]. intros f s' pub Hs He Hg Hrow.
    apply elem_of_cons in Hs as [->|Hs]; [|by eapply IH2].
    rewrite (Hrow i Hlt) in Et. cbn in Et. rewrite Hg in Et. by rewrite bool_decide_true in Et.
  - assert (Hf : kf_row (w i) s = Row_of f pub ∧ told f).
    { unfold terminal_record in Et. destruct (kf_row (w i) s) as [|why|f' pub'] eqn:Er; [done|by destruct report_unreadable|].
      destruct (f_generation f') as [| | | | |] eqn:Eg; try done; [by simplify_eq; split; [|right]|].
      case_bool_decide; [|done]. simplify_eq. split; [done|by left]. }
    destruct Hf as [Hrow Htold]. destruct (execution_ending f pub) eqn:Ee.
    + split_and!; [lia| | |naive_solver].
      * intros x [->|Hx]%elem_of_cons; [|by apply IH1]. split; [|done]. exists i. split; [done|]. left.
        exists s, pub. by rewrite Ee.
      * intros x s' pub' Hs He Hg Hx. apply elem_of_cons in Hs as [->|Hs]; [|apply list_elem_of_further; by eapply IH2].
        rewrite (Hx i Hlt) in Hrow. simplify_eq. set_solver.
    + split_and!; [lia|done| |].
      * intros x s' pub' Hs He Hg Hx. apply elem_of_cons in Hs as [->|Hs]; [|by eapply IH2].
        rewrite (Hx i Hlt) in Hrow. simplify_eq. by rewrite Ee in He.
      * intros _. exists i, s. split; [done|]. right. by exists f, pub.
  - assert (Hf : (∃ why, kf_row (w i) s = Torn_row why) ∧ report_unreadable = true).
    { unfold terminal_record in Et. destruct (kf_row (w i) s) as [|why|f' pub'] eqn:Er; [done|destruct report_unreadable; [by eauto|done]|].
      destruct (f_generation f'); try done. by case_bool_decide. }
    split_and!; [lia|done| |].
    + intros x s' pub' Hs He Hg Hx. apply elem_of_cons in Hs as [->|Hs]; [|by eapply IH2].
      destruct Hf as [[why Hf] _]. by rewrite (Hx i Hlt) in Hf.
    + intros _. exists i, s. split; [done|]. by left.
Qed.

(** ** The turns of the poll *)

Definition captured_by {A} (x : Captured A) : nat := match x with Uncaptured => 0 | Captures _ => 1 end.

Definition without_successor (c : RunCapture) : RunCapture :=
  mkRunCapture (rc_terminals c) (rc_broken c) (rc_publication_errors c) (rc_withdrawals c) (rc_archives c)
    (rc_publication c) Uncaptured.

(** What a capture is worth after reads of the files. *)
Record faithful (c : RunCapture) : Prop := mkFaithful {
  fa_terminals : ∀ f, f ∈ rc_terminals c → on_file f ∧ told f;
  fa_rows : ∀ f, stays_at_row f → f_generation f = At g → f ∈ rc_terminals c;
  fa_bad : rc_broken c ≠ [] ∨ rc_publication_errors c ≠ [] → bad_row;
  fa_withdrawals : ∀ ws, rc_withdrawals c = Captures ws →
    (∀ f, f ∈ ws → on_file f ∧ told f) ∧ ∀ f, stays_decided f → f_generation f = At g → f ∈ ws;
  fa_archives : ∀ ar, rc_archives c = Captures ar →
    (∀ f, f ∈ ar → on_file f ∧ told f) ∧ ∀ f, stays_archived f → f_generation f = At g → f ∈ ar;
  fa_publication : ∀ x, rc_publication c = Captures x → ∃ i, (i < READS)%nat ∧ kf_publication (w i) g = Ok x;
  fa_successor : ∀ x, rc_successor c = Captures x →
    ∃ f i hs, resolve_run (without_successor c) (Some g) = Preemption_inputs f
              ∧ (i < READS)%nat ∧ kf_handoffs (w i) = Ok hs ∧ preemption_successor f g hs = Ok x }.

(** The watched ending itself. *)
Definition ours (f : Filed) : Prop := f_generation f = At g ∨ f_generation f = No_stamp ∧ missing.

(** What each answer of the poll tells. *)
Definition told_rightly (r : Run) : Prop :=
  match r with
  | Answer (Recorded f) selected =>
      selected = Some (At g) ∧ on_file f ∧ ours f
      ∧ (preempted f → ∃ i hs, (i < READS)%nat ∧ kf_handoffs (w i) = Ok hs ∧ ∀ n, ¬ handed_off hs f g n)
  | Answer (Superseded p) selected =>
      selected = Some (At g) ∧ missing ∧ ∃ i, (i < READS)%nat ∧ kf_publication (w i) g = Ok (Some p)
  | Answer Nothing selected =>
      selected = Some (At g) ∧ missing
      ∨ ∃ f n i hs, selected = Some n ∧ on_file f ∧ ours f ∧ preempted f
                    ∧ (i < READS)%nat ∧ kf_handoffs (w i) = Ok hs ∧ earliest_handoff hs f g n
  | Raises Rows => missing ∧ bad_row ∨ huge_row
  | Raises Decisions => ∃ i e, (i < READS)%nat ∧ kf_decisions (w i) = Raise e
  | Raises Archives => not_filed ∧ ∃ i e, (i < READS)%nat ∧ kf_archived (w i) = Raise e
  | Raises Publications => missing ∧ ∃ i e, (i < READS)%nat ∧ kf_publication (w i) g = Raise e
  | Raises Handoffs =>
      ∃ f i, on_file f ∧ ours f ∧ preempted f ∧ (i < READS)%nat
             ∧ ((∃ e, kf_handoffs (w i) = Raise e) ∨ ∃ hs, kf_handoffs (w i) = Ok hs ∧ huge_handoff hs f g)
  | _ => False
  end.

(** What an answer over a faithful capture is worth, and what a question may
    count on. *)
Definition asked_rightly (c : RunCapture) (r : Run) : Prop :=
  match r with
  | Withdrawal_inputs => rc_withdrawals c = Uncaptured
  | Archive_inputs => rc_archives c = Uncaptured ∧ not_filed
  | Publication_inputs => rc_publication c = Uncaptured ∧ missing
  | Preemption_inputs f => rc_successor c = Uncaptured ∧ on_file f ∧ ours f ∧ preempted f
  | r => told_rightly r
  end.

(** A question other than the handoffs' is asked before they are read. *)
Lemma question_without c :
  match resolve_run c (Some g) with
  | Withdrawal_inputs | Archive_inputs | Publication_inputs =>
      resolve_run (without_successor c) (Some g) = resolve_run c (Some g)
  | _ => True
  end.
Proof.
  unfold resolve_run, answer_run. destruct c as [t b p ws ar pub s]. cbn.
  destruct ws as [|ws]; [done|]. destruct (existsb _ _); [|destruct ar as [|ar]; [done|]].
  all: destruct (filter _ _) as [|f fs]; [destruct pub as [|[]]; try done; destruct p; try done|].
  all: try (destruct (preempted f); by destruct s as [|[]]).
  all: match goal with |- context [match ?l with [] => _ | _ :: _ => _ end] => destruct l as [|f fs] end.
  all: try (by destruct b).
  all: destruct (preempted f); by destruct s as [|[]].
Qed.

(** Landing on an ending of its own. *)
Lemma landed_right c f :
  faithful c → on_file f → ours f →
  (preempted f → resolve_run (without_successor c) (Some g) = Preemption_inputs f) →
  asked_rightly c
    (if preempted f then
       match rc_successor c with
       | Uncaptured => Preemption_inputs f
       | Captures (Some next) => Answer Nothing (Some next)
       | Captures None => Answer (Recorded f) (Some (At g))
       end
     else Answer (Recorded f) (Some (At g))).
Proof.
  intros Hc Hf Ho Hp. destruct (preempted f) eqn:Ep; [|cbn; rewrite Ep; naive_solver].
  destruct (rc_successor c) as [|x] eqn:Es; [by cbn; rewrite Ep|].
  destruct (fa_successor c Hc x Es) as (f' & i & hs & Hr & Hi & Hk & Hs).
  rewrite (Hp I) in Hr. injection Hr as <-.
  pose proof (preemption_successor_spec f g hs) as Hspec. rewrite Hs in Hspec.
  destruct x as [n|]; cbn.
  - right. exists f, n, i, hs. by rewrite Ep.
  - split_and!; [done..|]. intros _. by exists i, hs.
Qed.

Lemma answer_run_right c found :
  faithful c → (∀ f, f ∈ found → on_file f ∧ told f) → (filter (λ f, f_generation f = At g) found = [] → missing) →
  (∀ s, resolve_run (mkRunCapture (rc_terminals c) (rc_broken c) (rc_publication_errors c) (rc_withdrawals c)
                       (rc_archives c) (rc_publication c) s) (Some g)
        = answer_run (mkRunCapture (rc_terminals c) (rc_broken c) (rc_publication_errors c) (rc_withdrawals c)
                       (rc_archives c) (rc_publication c) s) g found) →
  asked_rightly c (answer_run c g found).
Proof.
  intros Hc Hall Hnone Hr. specialize (Hr Uncaptured).
  change (mkRunCapture _ _ _ _ _ _ _) with (without_successor c) in Hr. revert Hr.
  unfold answer_run. cbn [without_successor rc_publication rc_broken rc_publication_errors rc_successor].
  destruct (filter _ found) as [|f fs] eqn:Ef.
  - specialize (Hnone eq_refl). pose proof (fa_publication c Hc) as Hp.
    destruct (rc_publication c) as [|[p|]] eqn:Epub; [by split|intros _; cbn; naive_solver|].
    pose proof (fa_bad c Hc) as Hb. destruct (rc_publication_errors c) as [|e es]; cbn [raise_or].
    2: { intros _. left. split; [done|]. apply Hb. by right. }
    destruct found as [|f fs].
    + intros _. destruct (rc_broken c) as [|e es]; cbn; [by left|]. left. split; [done|]. apply Hb. by left.
    + intros Hr. destruct (Hall f) as [H1 [H2|H2]]; [set_solver| |].
      * rewrite filter_cons_True in Ef by done. done.
      * apply landed_right; [done..|by right|]. intros Hpf. rewrite Hr. by destruct (preempted f).
  - intros Hr. assert (Hin : f ∈ filter (λ f, f_generation f = At g) found) by (rewrite Ef; set_solver).
    apply list_elem_of_filter in Hin as [H1 H2]. apply landed_right; [done|by apply Hall|by left|].
    intros Hpf. rewrite Hr. by destruct (preempted f).
Qed.

Lemma existsb_generation found :
  existsb (λ f, bool_decide (f_generation f = At g)) found = false →
  ∀ f, f ∈ found → f_generation f ≠ At g.
Proof.
  intros He f Hf Hg. apply not_true_iff_false in He. apply He, existsb_exists.
  exists f. split; [by apply list_elem_of_In|by apply bool_decide_eq_true].
Qed.

Lemma resolve_run_right c : faithful c → asked_rightly c (resolve_run c (Some g)).
Proof.
  intros Hc. unfold resolve_run. pose proof (fa_withdrawals c Hc) as Hw.
  destruct (rc_withdrawals c) as [|ws] eqn:Ew; [done|]. destruct (Hw ws eq_refl) as [Hw1 Hw2].
  set (found := add_withdrawals (Some g) ws (rc_terminals c)).
  assert (Hfound : ∀ f, f ∈ found → on_file f ∧ told f).
  { intros f [H|H]%add_withdrawals_sound; [by apply (fa_terminals c Hc)|by apply Hw1]. }
  destruct (existsb _ found) eqn:He.
  - apply answer_run_right; [done..| |].
    + intros Hnone. exfalso. apply existsb_exists in He as (f & Hf%list_elem_of_In & Hg%bool_decide_eq_true).
      assert (Hin : f ∈ filter (λ f, f_generation f = At g) found) by (by apply list_elem_of_filter).
      rewrite Hnone in Hin. set_solver.
    + intros s. unfold resolve_run. cbn [rc_withdrawals rc_terminals]. rewrite Ew. fold found. by rewrite He.
  - pose proof (existsb_generation found He) as Hno.
    assert (Hnf : not_filed).
    { intros f [Hf|Hf] Hg.
      - eapply Hno; [|exact Hg]. apply add_withdrawals_keeps. by apply (fa_rows c Hc).
      - destruct (add_withdrawals_exact g ws (rc_terminals c) f) as (e & H1 & H2); [by apply Hw2|done|].
        by apply (Hno e). }
    pose proof (fa_archives c Hc) as Ha. destruct (rc_archives c) as [|ar] eqn:Ea; [done|].
    destruct (Ha ar eq_refl) as [Ha1 Ha2]. apply answer_run_right; [done|..].
    + intros f [H|H]%elem_of_app; auto.
    + intros Hnone. split; [done|]. intros f Hf Hg.
      assert (Hin : f ∈ filter (λ f, f_generation f = At g) (found ++ ar)).
      { apply list_elem_of_filter. split; [done|]. apply elem_of_app. right. by apply Ha2. }
      rewrite Hnone in Hin. set_solver.
    + intros s. unfold resolve_run. cbn [rc_withdrawals rc_terminals rc_archives]. rewrite Ew, Ea. fold found.
      by rewrite He.
Qed.

(** ** One turn, and all of them *)

Definition uncaptured (c : RunCapture) : nat :=
  4 - (captured_by (rc_withdrawals c) + captured_by (rc_archives c) + captured_by (rc_publication c)
       + captured_by (rc_successor c)).

Definition is_question (r : Run) : bool :=
  match r with Withdrawal_inputs | Archive_inputs | Publication_inputs | Preemption_inputs _ => true | _ => false end.

Lemma of_generation_spec r fs f : of_generation (Some g) r = Ok fs → f ∈ fs ↔ f_generation f = At g ∧ ∃ all, r = Ok all ∧ f ∈ all.
Proof. destruct r as [all|e]; cbn; [|done]. intros [= <-]. rewrite list_elem_of_filter. naive_solver. Qed.

Lemma of_generation_raises r e : of_generation (Some g) r = Raise e → r = Raise e.
Proof. by destruct r. Qed.

Lemma supply_right c i :
  faithful c → (i < READS)%nat → is_question (resolve_run c (Some g)) →
  let '(x, j) := polled w i (supply (Some g) (resolve_run c (Some g)) c) in
  j = S i ∧ match x with inl stop => told_rightly stop | inr c' => faithful c' ∧ (uncaptured c' < uncaptured c)%nat end.
Proof.
  intros Hc Hi Hq. pose proof (resolve_run_right c Hc) as Hr. pose proof (question_without c) as Hwo.
  pose proof (fa_successor c Hc) as Hs.
  assert (Hsucc : match resolve_run c (Some g) with
                  | Withdrawal_inputs | Archive_inputs | Publication_inputs => rc_successor c = Uncaptured
                  | _ => True end).
  { destruct (rc_successor c) as [|x]; [by destruct (resolve_run c (Some g))|].
    destruct (Hs x eq_refl) as (f & _ & _ & Hf & _). by destruct (resolve_run c (Some g)); try rewrite Hwo in Hf. }
  clear Hs Hwo. destruct Hc as [H1 H2 H3 H4 H5 H6 H7].
  destruct (resolve_run c (Some g)) as [| | | |f|] eqn:Er; try (by destruct Hq); cbn [asked_rightly] in Hr;
    destruct c as [t b p ws ar pub s];
    cbn [rc_terminals rc_broken rc_publication_errors rc_withdrawals rc_archives rc_publication rc_successor] in *;
    cbn [supply].
  - subst ws s. change (call ?o ≫= ?f) with (Do o f). cbn [polled answers]. split; [done|].
    destruct (of_generation (Some g) (kf_decisions (w i))) as [ws|e] eqn:Eo;
      [|apply of_generation_raises in Eo; cbn; eauto].
    split; [|unfold uncaptured; cbn; destruct ar, pub; cbn; lia].
    constructor; cbn; try done. intros ws' [= <-]. split.
    + intros f Hf. apply (of_generation_spec _ _ f Eo) in Hf as [Hg Hf]. split; [exists i; naive_solver|by left].
    + intros f Hf Hg. apply (of_generation_spec _ _ f Eo). split; [done|]. by apply Hf.
  - destruct Hr as [-> Hr]. subst s. change (call ?o ≫= ?f) with (Do o f). cbn [polled answers]. split; [done|].
    destruct (of_generation (Some g) (kf_archived (w i))) as [ar|e] eqn:Eo;
      [|apply of_generation_raises in Eo; cbn; eauto].
    split; [|unfold uncaptured; cbn; destruct ws, pub; cbn; lia].
    constructor; cbn; try done. intros ar' [= <-]. split.
    + intros f Hf. apply (of_generation_spec _ _ f Eo) in Hf as [Hg Hf]. split; [exists i; naive_solver|by left].
    + intros f Hf Hg. apply (of_generation_spec _ _ f Eo). split; [done|]. by apply Hf.
  - destruct Hr as [-> Hr]. subst s. change (call ?o ≫= ?f) with (Do o f). cbn [polled answers]. split; [done|].
    destruct (kf_publication (w i) g) as [x|e] eqn:Eo; [|cbn; eauto].
    split; [|unfold uncaptured; cbn; destruct ws, ar; cbn; lia].
    constructor; cbn; try done. intros x' [= <-]. eauto.
  - destruct Hr as (-> & Hf & Ho & Hp). unfold _read_preemption_successor. destruct (preempted f) eqn:Ep; [|done].
    change (call ?o ≫= ?f) with (Do o f).
    change (Do ?o ?k ≫= ?f) with (Do o (λ x, k x ≫= f)). cbn [polled answers mret prog_mret mbind prog_mbind prog_bind].
    split; [done|]. destruct (kf_handoffs (w i)) as [hs|e] eqn:Eo.
    2: { exists f, i. rewrite Ep. eauto 10. }
    pose proof (preemption_successor_spec f g hs) as Hspec.
    destruct (preemption_successor f g hs) as [x|e] eqn:Ex.
    2: { exists f, i. rewrite Ep. eauto 10. }
    split; [|unfold uncaptured; cbn; destruct ws, ar, pub; cbn; lia].
    constructor; cbn; try done. intros x' [= <-]. exists f, i, hs. done.
Qed.

Lemma poll_loop_right turns c i :
  faithful c → (uncaptured c ≤ turns)%nat → (i + turns ≤ READS)%nat →
  told_rightly (polled w i (poll_loop turns (Some g) c)).1.
Proof.
  revert c i. induction turns as [|turns IH]; intros c i Hc Hu Hi.
  - pose proof (resolve_run_right c Hc) as Hr. cbn [poll_loop].
    destruct c as [t b p [|] [|] [|] [|]]; unfold uncaptured in Hu; cbn in Hu; try lia.
    destruct (resolve_run _ (Some g)); cbn in *; naive_solver.
  - cbn [poll_loop]. pose proof (resolve_run_right c Hc) as Hr.
    destruct (is_question (resolve_run c (Some g))) eqn:Eq.
    + assert (Hstep : ∀ X (a b : X), match resolve_run c (Some g) with Answer _ _ | Raises _ => a | _ => b end = b)
        by (by destruct (resolve_run c (Some g))).
      rewrite Hstep, polled_bind. pose proof (supply_right c i Hc ltac:(lia)) as Hsup. rewrite Eq in Hsup.
      specialize (Hsup I). destruct (polled w i (supply _ _ _)) as [[stop|c'] j]; destruct Hsup as [-> Hx]; [exact Hx|].
      destruct Hx. cbn [fst snd]. apply IH; [done|lia..].
    + destruct (resolve_run c (Some g)); try done; exact Hr.
Qed.

Lemma rows_faithful t b p :
  (polled w 0 (read_rows STATES (Some g) report_unreadable)).1 = Some (t, b, p) →
  faithful (mkRunCapture t b p Uncaptured Uncaptured Uncaptured Uncaptured).
Proof.
  intros Hp. pose proof (read_rows_polled STATES 0 ltac:(vm_compute; lia)) as Hr.
  destruct (polled w 0 _) as [r j]. cbn [fst] in Hp. subst r. destruct Hr as (_ & H1 & H2 & H3).
  constructor; cbn; try done. intros f (s & pub & He & Hs) Hg. apply (H2 f s pub); [destruct s; set_solver|done..].
Qed.
End watched.

(** C33: a waiter bound to generation [g] is answered by that run or by nothing
    that could be another's, whatever happens to the key's files between the
    poll's reads (at most seven, each answered by the files as they stand at
    its turn).  A recorded ending was on file and is of generation [g], or
    carries no generation while none of [g] is there to be found; and when it
    was preempted, a read of the handoffs found none from it.  The poll tells
    of a supersession, or of nothing yet, only while no ending of [g] is there
    to be found, and it moves to another generation only along the earliest
    handoff read from a preempted stop of its own.  "There to be found" means
    that the ending keeps its place -- its row, the decisions or the archives
    -- throughout the poll.  An error is told for its reason: an unreadable or
    misplaced row while no ending of [g] is there to be found, or a row whose
    generation no float can hold; an unreadable decision, whatever else is on
    file; an unreadable archive, while the rows and decisions keep no ending
    of [g]; an unreadable publication, while nothing keeps one; unreadable
    handoffs, after a preempted ending of its own. *)
Theorem watched_run_answer w g report_unreadable :
  told_rightly w g report_unreadable (polled w 0 (outcome_poll (Some g) report_unreadable)).1.
Proof.
  unfold outcome_poll. rewrite polled_bind.
  pose proof (read_rows_polled w g report_unreadable STATES 0 ltac:(vm_compute; lia)) as Hr.
  pose proof (rows_faithful w g report_unreadable) as Hf.
  destruct (polled w 0 (read_rows STATES (Some g) report_unreadable)) as [[[[t b] p]|] j]; cbn [fst snd] in *;
    [|by right].
  destruct Hr as (-> & _). apply poll_loop_right; [by apply Hf|vm_compute; lia..].
Qed.

(** A key with a [failed] row of generation 4 whose decisions cannot be read,
    and the same key once the row has gone to the archives between the reads. *)
Definition demo_ending : Filed := mkFiled "failed" (At 4) None "exit 1".
Definition demo_key (decisions : res (list Filed)) (failed : Row) (archived : list Filed) : KeyFiles :=
  mkKeyFiles (λ s, if bool_decide (s = FAILED) then failed else No_row) decisions (Ok archived)
    (λ _, Ok None) (Ok []).

Lemma watched_run_demo :
  let k := demo_key (Ok []) (Row_of demo_ending false) [] in
  let unread := demo_key (Raise (ValueError "not valid JSON")) (Row_of demo_ending false) [] in
  let moved i := if bool_decide (i = 0)%nat then k else demo_key (Ok []) No_row [demo_ending] in
  (polled (λ _, k) 0 (outcome_poll (Some 4) true)).1 = Answer (Recorded demo_ending) (Some (At 4))
  ∧ (polled (λ _, unread) 0 (outcome_poll (Some 4) true)).1 = Raises Decisions
  ∧ (polled moved 0 (outcome_poll (Some 4) true)).1 = Answer (Recorded demo_ending) (Some (At 4))
  ∧ (polled (λ _, k) 0 (outcome_poll (Some 5) true)).1 = Answer Nothing (Some (At 5)).
Proof. by vm_compute. Qed.

(** ** The transition an attempt permits *)

Lemma substring_split m l s :
  (m + l = String.length s)%nat →
  s = String.append (String.substring 0 m s) (String.substring m l s)
  ∧ String.length (String.substring m l s) = l ∧ String.length (String.substring 0 m s) = m.
Proof.
  revert m. induction s as [|a s IH]; intros [|m]; cbn.
  - intros ->. done.
  - lia.
  - intros ->.
    assert (Hs : ∀ t, String.substring 0 (String.length t) t = t) by (induction t; cbn; congruence).
    cbn. by rewrite !Hs.
  - intros Hl. destruct (IH m) as (H1 & H2 & H3); [lia|]. cbn. rewrite H3. split_and!; [|done..].
    exact (f_equal (String a) H1).
Qed.

(** The inline copy is the stream's tail, never longer than the cap. *)
Lemma stream_inline_spec raw t n cut :
  _terminal_stream_inline raw = (t, n, cut) →
  n = String.length raw ∧ (String.length t ≤ TERMINAL_STREAM_TAIL_BYTES)%nat
  ∧ ∃ before, raw = String.append before t ∧ (cut = false → before = "").
Proof.
  unfold _terminal_stream_inline. case_bool_decide as Hn; intros [= <- <- <-].
  - split_and!; [done..|]. by exists "".
  - destruct (substring_split (String.length raw - TERMINAL_STREAM_TAIL_BYTES) TERMINAL_STREAM_TAIL_BYTES raw)
      as (H1 & H2 & _); [lia|].
    rewrite H2. split_and!; [done..|]. eexists. split; [exact H1|done].
Qed.

(** The rule, by the disposition it gives. *)
Lemma expected_disposition_spec status stopped final n max :
  let d := expected_disposition status stopped final n max in
  (d = To_withdrawn ↔ status = "withdrawn")
  ∧ (d = To_done ↔ status = "executed" ∨ status = "cache_hit")
  ∧ (d = Requeued ↔ status ∉ ["withdrawn"; "executed"; "cache_hit"] ∧ n < max ∧ stopped = false ∧ final = false).
Proof.
  unfold expected_disposition, succeeded. rewrite !not_elem_of_cons.
  destruct (bool_decide_reflect (status = "withdrawn")) as [->|]; [cbn; naive_solver|].
  destruct (bool_decide_reflect (status = "executed")) as [->|]; [cbn; naive_solver|].
  destruct (bool_decide_reflect (status = "cache_hit")) as [->|]; [cbn; naive_solver|].
  destruct stopped, final, (bool_decide_reflect (max ≤ n)); cbn;
    (split; [naive_solver|split; [naive_solver|]]); (split; [try done|naive_solver lia]).
  intros _. split_and!; [done..|apply not_elem_of_nil|lia|done|done].
Qed.

(** The transition the immutable attempt permits.  An attempt is adopted
    only with the disposition its own status and bounds allow: a success is
    [done], a cancellation [withdrawn], and a failure is requeued exactly when
    it is under its attempt bound, is not a stopped output retry and is not a
    final interruption.  What goes into the mutable record is the tail of each
    stream, within the cap. *)
Theorem adopted_transition attempts a ad :
  last attempts = Some a → resolve_attempt attempts = Ok ad →
  ∃ max, a_max_attempts a = Some max ∧ a_attempt a = Some (ad_attempt ad)
  ∧ a_disposition a = Some (ad_disposition ad) ∧ a_status a = Some (ad_status ad)
  ∧ (ad_disposition ad = To_withdrawn ↔ ad_status ad = "withdrawn")
  ∧ (ad_disposition ad = To_done ↔ ad_status ad = "executed" ∨ ad_status ad = "cache_hit")
  ∧ (ad_disposition ad = Requeued ↔
     ad_status ad ∉ ["withdrawn"; "executed"; "cache_hit"] ∧ ad_attempt ad < max ∧ a_stop a = None
     ∧ (a_interruption a && a_worker_reported a) = false)
  ∧ (String.length (ad_stdout ad).1.1 ≤ TERMINAL_STREAM_TAIL_BYTES)%nat
  ∧ (String.length (ad_stderr ad).1.1 ≤ TERMINAL_STREAM_TAIL_BYTES)%nat.
Proof.
  intros Hl. unfold resolve_attempt. rewrite Hl.
  destruct (a_status a) as [status|], (a_disposition a) as [disp|], (a_attempt a) as [n|],
    (a_max_attempts a) as [max|]; try done.
  case_bool_decide as Hempty; [done|].
  destruct (_ && succeeded status) eqn:Hss; [done|].
  destruct (bool_decide_reflect (a_stop a = Some false)); [done|].
  match goal with |- context [bool_decide (disp = ?d)] => destruct (bool_decide_reflect (disp = d)) as [Hd|] end;
    cbn [negb]; [|done].
  destruct (a_detail a); cbn [negb]; [|done].
  destruct (a_finished_unix a) as [t|], (a_finished_host a) as [h|]; try done.
  destruct (bool_decide_reflect (h = "")) as [|_]; [done|]. intros [= <-]. cbn [ad_disposition ad_status ad_attempt ad_stdout ad_stderr].
  exists max. do 4 (split; [done|]).
  assert (Hinline : ∀ raw, (String.length (_terminal_stream_inline raw).1.1 ≤ TERMINAL_STREAM_TAIL_BYTES)%nat).
  { intros raw. destruct (_terminal_stream_inline raw) as [[u k] cut] eqn:E. by apply stream_inline_spec in E as (_ & ? & _). }
  subst disp. destruct (expected_disposition_spec status (bool_decide (is_Some (a_stop a)))
    (a_interruption a && a_worker_reported a) n max) as (H1 & H2 & H3).
  split; [exact H1|split; [exact H2|split; [|split; apply Hinline]]].
  rewrite H3, bool_decide_eq_false, <- eq_None_not_Some. reflexivity.
Qed.

(** A first failure of two allowed attempts. *)
Definition demo_attempt : Attempt :=
  mkAttempt (Some "failed") (Some Requeued) (Some 1) (Some 2) None false true true (Some 7) (Some "spark") "out" "err".

Lemma adopted_transition_witness :
  last [demo_attempt] = Some demo_attempt ∧
  ∃ ad, resolve_attempt [demo_attempt] = Ok ad ∧ ad_disposition ad = Requeued ∧ ad_attempt ad < 2.
Proof.
  split; [reflexivity|]. eexists. split; [vm_compute; reflexivity|]. split; [reflexivity|].
  destruct (adopted_transition [demo_attempt] demo_attempt _ eq_refl ltac:(vm_compute; reflexivity))
    as (max & Hm & _ & _ & _ & _ & _ & Hr & _).
  injection Hm as <-. destruct Hr as [Hr _]. exact (proj1 (proj2 (Hr eq_refl))).
Defined.
