(* ===== verification/Lifecycle.v ===== *)
(** * The life of a key ([lifecycle.py], [pool.py])

    One key's records under the queue root and the handlers that move them:
    publish, claim, finish, defer, reap, sweep and withdraw, as programs over
    the file operations they make.  Actors run them interleaved, one operation
    at a time, and may be killed at any point.  The key's transition lock is a
    step here; [PosixLockSpec] shows that it excludes.

    The row a claimant works on, its reservations, containers and clocks enter
    as answers that may be anything: [Choice] (an admission, an age, a host
    comparison), [Cleanup], [Sys] (a call that may raise and changes none of
    these records).  Broker scopes and their late-finish marks, gangs and
    produced outputs are left out.  The rename of a claim and the read of what
    it moved are one step. *)
From S2P Require Import Prelude.
From S2P Require Import Endings.
From S2P Require Import Prog.

(** ** Records *)

(** A queue record: its generation ([published_unix]), the attempts it inherits
    ([attempt_history_missing_before]), those charged, the bound, whether
    [retry_scope] is [interruption], the claim ([claimed_by], [claimed_unix])
    and the status of a [finish_pending]. *)
Record rec := mkRec {
  r_gen : Z; r_base : nat; r_attempts : nat; r_max : nat; r_interruption : bool;
  r_claim : option (nat * nat); r_pending : option string }.

#[export] Instance rec_eq_dec : EqDecision rec.
Proof. solve_decision. Defined.

Definition same_claim (live snapshot : rec) : bool :=
  bool_decide (r_claim live = r_claim snapshot) && bool_decide (r_gen live = r_gen snapshot)
  && bool_decide (r_attempts live = r_attempts snapshot).

(** The record with its claim, its pending finish, its attempt count. *)
Definition with_claim (c : option (nat * nat)) (r : rec) : rec :=
  mkRec (r_gen r) (r_base r) (r_attempts r) (r_max r) (r_interruption r) c (r_pending r).
Definition with_pending (p : option string) (r : rec) : rec :=
  mkRec (r_gen r) (r_base r) (r_attempts r) (r_max r) (r_interruption r) (r_claim r) p.

(** [_shape_as_ready_item] after [n] charged attempts. *)
Definition _shape_as_ready_item (n : nat) (r : rec) : rec :=
  mkRec (r_gen r) (r_base r) n (r_max r) (r_interruption r) None None.

(** An immutable attempt: what [resolve_attempt] reads of it. *)
Record outcome := mkOutcome {
  o_status : string; o_disposition : Disposition; o_max : nat; o_stopped : bool; o_final : bool }.

(** A terminal row: its generation and the attempt it adopted; a row filed by
    a finisher that lost its claim has none. *)
Record row := mkRow { w_gen : Z; w_attempt : option nat }.

(** ** The key's files *)

Record st := mkSt {
  s_ready : option rec; s_claimed : option rec;
  s_names : gmap nat rec;           (* bytes ever moved aside, by name *)
  s_tombs : gset nat;               (* finish tombstones in claimed/ *)
  s_captures : gset nat;            (* captures in ready-transitions/ *)
  s_done : option row; s_failed : option row;
  s_marker : option Z;              (* the visible withdrawal *)
  s_attempts : gmap (Z * nat) outcome;
  s_decisions : gset Z;             (* immutable withdrawal decisions *)
  s_endings : gmap Z Z;             (* publication supersessions *)
  s_lease : option (nat * nat);
  s_lock : option nat;
  (* history, for the statements only *)
  s_published : gmap Z (nat * nat * bool);   (* base, bound, interruption *)
  s_spent : gset nat;               (* names whose bytes also went elsewhere *)
  s_overwritten : gset Z;           (* ready rows replaced by a publication *)
  s_raced : gset Z;                 (* generations ended by a lost finish *)
  s_dropped : gset Z }.             (* bytes filed as evidence only *)

Definition set_ready v s := mkSt v (s_claimed s) (s_names s) (s_tombs s) (s_captures s) (s_done s) (s_failed s) (s_marker s) (s_attempts s) (s_decisions s) (s_endings s) (s_lease s) (s_lock s) (s_published s) (s_spent s) (s_overwritten s) (s_raced s) (s_dropped s).
Definition set_claimed v s := mkSt (s_ready s) v (s_names s) (s_tombs s) (s_captures s) (s_done s) (s_failed s) (s_marker s) (s_attempts s) (s_decisions s) (s_endings s) (s_lease s) (s_lock s) (s_published s) (s_spent s) (s_overwritten s) (s_raced s) (s_dropped s).
Definition set_names v s := mkSt (s_ready s) (s_claimed s) v (s_tombs s) (s_captures s) (s_done s) (s_failed s) (s_marker s) (s_attempts s) (s_decisions s) (s_endings s) (s_lease s) (s_lock s) (s_published s) (s_spent s) (s_overwritten s) (s_raced s) (s_dropped s).
Definition set_tombs v s := mkSt (s_ready s) (s_claimed s) (s_names s) v (s_captures s) (s_done s) (s_failed s) (s_marker s) (s_attempts s) (s_decisions s) (s_endings s) (s_lease s) (s_lock s) (s_published s) (s_spent s) (s_overwritten s) (s_raced s) (s_dropped s).
Definition set_captures v s := mkSt (s_ready s) (s_claimed s) (s_names s) (s_tombs s) v (s_done s) (s_failed s) (s_marker s) (s_attempts s) (s_decisions s) (s_endings s) (s_lease s) (s_lock s) (s_published s) (s_spent s) (s_overwritten s) (s_raced s) (s_dropped s).
Definition set_done v s := mkSt (s_ready s) (s_claimed s) (s_names s) (s_tombs s) (s_captures s) v (s_failed s) (s_marker s) (s_attempts s) (s_decisions s) (s_endings s) (s_lease s) (s_lock s) (s_published s) (s_spent s) (s_overwritten s) (s_raced s) (s_dropped s).
Definition set_failed v s := mkSt (s_ready s) (s_claimed s) (s_names s) (s_tombs s) (s_captures s) (s_done s) v (s_marker s) (s_attempts s) (s_decisions s) (s_endings s) (s_lease s) (s_lock s) (s_published s) (s_spent s) (s_overwritten s) (s_raced s) (s_dropped s).
Definition set_marker v s := mkSt (s_ready s) (s_claimed s) (s_names s) (s_tombs s) (s_captures s) (s_done s) (s_failed s) v (s_attempts s) (s_decisions s) (s_endings s) (s_lease s) (s_lock s) (s_published s) (s_spent s) (s_overwritten s) (s_raced s) (s_dropped s).
Definition set_attempts v s := mkSt (s_ready s) (s_claimed s) (s_names s) (s_tombs s) (s_captures s) (s_done s) (s_failed s) (s_marker s) v (s_decisions s) (s_endings s) (s_lease s) (s_lock s) (s_published s) (s_spent s) (s_overwritten s) (s_raced s) (s_dropped s).
Definition set_decisions v s := mkSt (s_ready s) (s_claimed s) (s_names s) (s_tombs s) (s_captures s) (s_done s) (s_failed s) (s_marker s) (s_attempts s) v (s_endings s) (s_lease s) (s_lock s) (s_published s) (s_spent s) (s_overwritten s) (s_raced s) (s_dropped s).
Definition set_endings v s := mkSt (s_ready s) (s_claimed s) (s_names s) (s_tombs s) (s_captures s) (s_done s) (s_failed s) (s_marker s) (s_attempts s) (s_decisions s) v (s_lease s) (s_lock s) (s_published s) (s_spent s) (s_overwritten s) (s_raced s) (s_dropped s).
Definition set_lease v s := mkSt (s_ready s) (s_claimed s) (s_names s) (s_tombs s) (s_captures s) (s_done s) (s_failed s) (s_marker s) (s_attempts s) (s_decisions s) (s_endings s) v (s_lock s) (s_published s) (s_spent s) (s_overwritten s) (s_raced s) (s_dropped s).
Definition set_lock v s := mkSt (s_ready s) (s_claimed s) (s_names s) (s_tombs s) (s_captures s) (s_done s) (s_failed s) (s_marker s) (s_attempts s) (s_decisions s) (s_endings s) (s_lease s) v (s_published s) (s_spent s) (s_overwritten s) (s_raced s) (s_dropped s).
Definition set_published v s := mkSt (s_ready s) (s_claimed s) (s_names s) (s_tombs s) (s_captures s) (s_done s) (s_failed s) (s_marker s) (s_attempts s) (s_decisions s) (s_endings s) (s_lease s) (s_lock s) v (s_spent s) (s_overwritten s) (s_raced s) (s_dropped s).
Definition set_spent v s := mkSt (s_ready s) (s_claimed s) (s_names s) (s_tombs s) (s_captures s) (s_done s) (s_failed s) (s_marker s) (s_attempts s) (s_decisions s) (s_endings s) (s_lease s) (s_lock s) (s_published s) v (s_overwritten s) (s_raced s) (s_dropped s).
Definition set_overwritten v s := mkSt (s_ready s) (s_claimed s) (s_names s) (s_tombs s) (s_captures s) (s_done s) (s_failed s) (s_marker s) (s_attempts s) (s_decisions s) (s_endings s) (s_lease s) (s_lock s) (s_published s) (s_spent s) v (s_raced s) (s_dropped s).
Definition set_raced v s := mkSt (s_ready s) (s_claimed s) (s_names s) (s_tombs s) (s_captures s) (s_done s) (s_failed s) (s_marker s) (s_attempts s) (s_decisions s) (s_endings s) (s_lease s) (s_lock s) (s_published s) (s_spent s) (s_overwritten s) v (s_dropped s).
Definition set_dropped v s := mkSt (s_ready s) (s_claimed s) (s_names s) (s_tombs s) (s_captures s) (s_done s) (s_failed s) (s_marker s) (s_attempts s) (s_decisions s) (s_endings s) (s_lease s) (s_lock s) (s_published s) (s_spent s) (s_overwritten s) (s_raced s) v.

Definition empty : st := mkSt None None ∅ ∅ ∅ None None None ∅ ∅ ∅ None None ∅ ∅ ∅ ∅ ∅.

Definition gen_at (s : st) (n : nat) : option Z := r_gen <$> s_names s !! n.

(** [n]'s bytes are also in a slot of generation [g]. *)
Definition spend (n : nat) (g : Z) (s : st) : st :=
  if bool_decide (gen_at s n = Some g) then set_spent ({[ n ]} ∪ s_spent s) s else s.

(** A terminal directory. *)
Inductive terminal := To_row_done | To_row_failed.

#[export] Instance terminal_eq_dec : EqDecision terminal.
Proof. solve_decision. Defined.

Definition row_at (t : terminal) (s : st) : option row :=
  match t with To_row_done => s_done s | To_row_failed => s_failed s end.
Definition set_row (t : terminal) (v : option row) (s : st) : st :=
  match t with To_row_done => set_done v s | To_row_failed => set_failed v s end.
Definition other (t : terminal) : terminal :=
  match t with To_row_done => To_row_failed | To_row_failed => To_row_done end.
Definition row_of (d : Disposition) : option terminal :=
  match d with To_done => Some To_row_done | To_failed => Some To_row_failed | _ => None end.

(** The one outcome the rule allows this attempt. *)
Definition lawful (n : nat) (o : outcome) : bool :=
  bool_decide (o_disposition o =
    expected_disposition (o_status o) (o_stopped o) (o_final o) (Z.of_nat n) (Z.of_nat (o_max o))).

Definition failing (status : string) : bool :=
  negb (succeeded status) && negb (bool_decide (status = "withdrawn")).

(** ** File operations *)

(** A read, or the exception it raised. *)
Inductive rd (A : Type) := Got (a : A) | Unread.
Arguments Got {A} a.
Arguments Unread {A}.

Inductive linked := Linked | Exists | Link_failed.

Inductive op : Type → Type :=
  | Lock (blocking : bool) : op bool
  | Unlock : op unit
  | Choice : op bool
  | Sys : op bool                                (* [false]: it raised *)
  | Cleanup : op bool                            (* of an unlocked finish *)
  | Run (g : Z) : op (option string)             (* [execute]; [None]: no scope *)
  | Telemetry (status : string) : op string
  | Read_claimed : op (rd (option rec))
  | Read_ready : op (rd (option rec))
  | Read_name (n : nat) : op (rd (option rec))   (* a tombstone or a capture *)
  | Read_row (t : terminal) : op (rd (option row))
  | Read_lease : op (rd (option (nat * nat)))
  | Decided (g : Z) : op (rd bool)               (* [withdrawal_covers] *)
  | Marker : op (rd bool)
  | Ending_of (g : Z) : op (rd (option Z))       (* [publication_ending] *)
  | Attempt_at (g : Z) (n : nat) : op (rd (option outcome))
  | Archived (g : Z) : op (rd bool)              (* [archived_generation_outcomes] *)
  | Archive (g : Z) (n max : nat) (status : string) (d : Disposition) (final : bool) : op (option outcome)
  | Replace_claimed (r : rec) : op bool
  | Replace_row (t : terminal) (w : row) : op bool
  | Unlink_row (t : terminal) : op bool
  | Entomb : op (option nat)
  | Link_claimed (n : nat) : op bool             (* link a tombstone back *)
  | Relink (n : nat) : op bool                   (* the same, by the sweep *)
  | Verify (n : nat) : op (option bool)          (* [attempt_outcomes]; [None]: unavailable *)
  | Mark_identity (n : nat) : op bool
  | Unlink_tomb (n : nat) : op bool
  | Link_ready (n : nat) (r : rec) : op linked
  | See_ready (n : nat) : op (rd (option rec))   (* read beside tombstone [n] *)
  | See_claimed (n : nat) : op (rd bool)
  | Supersede (g g' : Z) : op bool
  | Publish (r : rec) : op bool
  | Blocked : op bool                            (* [_claim_blocked_fresh] *)
  | Rename_ready : op (option rec)
  | Link_claimed_ready : op bool
  | Unlink_claimed : op bool
  | Write_lease (c : nat * nat) : op bool
  | Unlink_lease : op bool
  | Decide (g : Z) : op bool                     (* the immutable decision *)
  | Mark (g : Z) : op bool                       (* the visible marker *)
  | Capture : op (option nat)
  | Restore (n : nat) : op bool                  (* link a capture to ready *)
  | Unlink_capture (n : nat) : op bool
  | Retire_capture (n : nat) (covered : bool) : op bool.

(** A terminal attempt of [g] is archived. *)
Definition ended_attempt (s : st) (g : Z) : Prop :=
  ∃ n o, s_attempts s !! (g, n) = Some o ∧ (o_disposition o = To_done ∨ o_disposition o = To_failed).

(** A read may always raise; otherwise it answers [a]. *)
Definition reads {A} (a : A) (s : st) (x : rd A) (s' : st) : Prop := s' = s ∧ (x = Unread ∨ x = Got a).

(** What a call by actor [a] may answer, and the state it leaves.
    [incomplete]: whether an unlocked finish can find its containers still
    running. *)
Definition op_step (incomplete : bool) {X} (o : op X) (a : nat) (s : st) : X → st → Prop :=
  match o in op X return X → st → Prop with
  | Lock blocking => λ x s',
      if x : bool then s_lock s = None ∧ s' = set_lock (Some a) s
      else blocking = false ∧ s' = s
  | Unlock => λ _ s', s' = set_lock None s
  | Choice | Sys => λ _ s', s' = s
  | Cleanup => λ x s', s' = s ∧ (x = false → incomplete = true)
  | Run g => λ x s', s' = s ∧ (x = Some "withdrawn" → g ∈ s_decisions s)
  | Telemetry status => λ x s', s' = s ∧ (x = status ∨ x = "failed")
  | Read_claimed => reads (s_claimed s) s
  | Read_ready => reads (s_ready s) s
  | Read_name n => reads (if bool_decide (n ∈ s_tombs s ∨ n ∈ s_captures s) then s_names s !! n else None) s
  | Read_row t => reads (row_at t s) s
  | Read_lease => reads (s_lease s) s
  | Decided g => reads (bool_decide (g ∈ s_decisions s)) s
  | Marker => reads (bool_decide (is_Some (s_marker s))) s
  | Ending_of g => reads (s_endings s !! g) s
  | Attempt_at g n => reads (s_attempts s !! (g, n)) s
  | Archived g => λ x s', s' = s
      ∧ match x with Unread => True | Got true => ended_attempt s g | Got false => ¬ ended_attempt s g end
  | Archive g n max status d final => λ x s',
      (* first writer wins; it may raise before or after *)
      (x = None ∧ s' = s)
      ∨ ∃ stopped, let o := mkOutcome status (if stopped && failing status then To_failed else d) max
                              (stopped && failing status) final in
        let s1 := match s_attempts s !! (g, n) with
                  | Some _ => s
                  | None => set_attempts (<[(g, n) := o]> (s_attempts s)) s
                  end in
        s' = s1 ∧ (x = None ∨ x = s_attempts s1 !! (g, n))
  | Replace_claimed r => λ x s', s' = if x : bool then set_claimed (Some r) s else s
  | Replace_row t w => λ x s',
      s' = if x : bool
           then (if bool_decide (w_attempt w = None) then set_raced ({[ w_gen w ]} ∪ s_raced s) else id)
                  (set_row t (Some w) s)
           else s
  | Unlink_row t => λ x s', s' = if x : bool then set_row t None s else s
  | Entomb => λ x s',
      match x with
      | None => s' = s
      | Some n => ∃ r, s_claimed s = Some r ∧ s_names s !! n = None
          ∧ s' = set_claimed None (set_tombs ({[ n ]} ∪ s_tombs s) (set_names (<[n := r]> (s_names s)) s))
      end
  | Link_claimed n => λ x s',
      if x : bool then ∃ r, n ∈ s_tombs s ∧ s_names s !! n = Some r ∧ s_claimed s = None
                            ∧ s' = spend n (r_gen r) (set_claimed (Some r) s)
      else s' = s
  | Relink n => λ x s',
      if x : bool then ∃ r, n ∈ s_tombs s ∧ s_names s !! n = Some r ∧ s_claimed s = None
                            ∧ s' = spend n (r_gen r) (set_claimed (Some r) s)
      else match s_claimed s with
           | Some c => s' = spend n (r_gen c) s
           | None => s' = set_dropped (match gen_at s n with Some g => {[ g ]} | None => ∅ end ∪ s_dropped s) s
           end
  | Verify n => λ x s',
      s' = if bool_decide (x = Some false)
           then set_dropped (match gen_at s n with Some g => {[ g ]} | None => ∅ end ∪ s_dropped s) s
           else s
  | Mark_identity n => λ x s', s' = s ∧ (x = true → n ∈ s_tombs s)
  | Unlink_tomb n => λ x s', s' = if x : bool then set_tombs (s_tombs s ∖ {[ n ]}) s else s
  | Link_ready n r => λ x s',
      match x with
      | Linked => s_ready s = None ∧ s' = spend n (r_gen r) (set_ready (Some r) s)
      | Exists => is_Some (s_ready s) ∧ s' = s
      | Link_failed => s' = s
      end
  | See_ready n => λ x s',
      (x = Unread ∧ s' = s)
      ∨ (x = Got (s_ready s) ∧ s' = match s_ready s with Some r => spend n (r_gen r) s | None => s end)
  | See_claimed n => λ x s',
      (x = Unread ∧ s' = s)
      ∨ (x = Got (bool_decide (is_Some (s_claimed s)))
         ∧ s' = match s_claimed s with Some r => spend n (r_gen r) s | None => s end)
  | Supersede g g' => λ x s',
      s' = if x : bool then set_endings (match s_endings s !! g with
                                         | Some _ => s_endings s
                                         | None => <[g := g']> (s_endings s)
                                         end) s else s
  | Publish r => λ x s',
      if x : bool
      then s_published s !! r_gen r = None
           ∧ s' = set_published (<[r_gen r := (r_base r, r_max r, r_interruption r)]> (s_published s))
                    (set_marker None
                      (set_overwritten (match s_ready s with Some q => {[ r_gen q ]} | None => ∅ end ∪ s_overwritten s)
                        (set_ready (Some r) s)))
      else s' = s
  | Blocked => λ x s', s' = s ∧ (x = false → s_claimed s = None ∧ s_tombs s = ∅)
  | Rename_ready => λ x s',
      match x with
      | None => s' = s
      | Some r => s_ready s = Some r ∧ s' = set_claimed (Some r) (set_ready None s)
      end
  | Link_claimed_ready => λ x s',
      if x : bool then ∃ r, s_claimed s = Some r ∧ s_ready s = None ∧ s' = set_ready (Some r) s
      else s' = s
  | Unlink_claimed => λ x s', s' = if x : bool then set_claimed None s else s
  | Write_lease c => λ x s', s' = if x : bool then set_lease (Some c) s else s
  | Unlink_lease => λ x s', s' = if x : bool then set_lease None s else s
  | Decide g => λ x s', s' = if x : bool then set_decisions ({[ g ]} ∪ s_decisions s) s else s
  | Mark g => λ x s', s' = if x : bool then set_marker (Some g) s else s
  | Capture => λ x s',
      match x with
      | None => s' = s
      | Some n => ∃ r, s_ready s = Some r ∧ s_names s !! n = None
          ∧ s' = set_ready None (set_captures ({[ n ]} ∪ s_captures s) (set_names (<[n := r]> (s_names s)) s))
      end
  | Restore n => λ x s',
      if x : bool then ∃ r, n ∈ s_captures s ∧ s_names s !! n = Some r ∧ s_ready s = None
                            ∧ s' = spend n (r_gen r) (set_ready (Some r) s)
      else s' = s
  | Unlink_capture n => λ x s', s' = if x : bool then set_captures (s_captures s ∖ {[ n ]}) s else s
  | Retire_capture n covered => λ x s',
      s' = if x : bool
           then (if covered || bool_decide (n ∈ s_spent s) || bool_decide (gen_at s n = r_gen <$> s_ready s)
                    || bool_decide (gen_at s n = r_gen <$> s_claimed s) then id
                 else set_dropped (match gen_at s n with Some g => {[ g ]} | None => ∅ end ∪ s_dropped s))
                  (set_captures (s_captures s ∖ {[ n ]}) s)
           else s
  end.

(** ** Conclusions ([lifecycle.py]) *)

Abbreviation proc := (prog op).

(** How a handler ended: it returned, or an exception left it. *)
Inductive out := Fine | Raised.

(** [with queue.action_transition_lock(key, blocking=...)]; [nested] when the
    caller holds the lock already. *)
Definition with_lock {A} (nested blocking : bool) (refused : A) (body : proc A) : proc A :=
  if nested then body
  else
    l ← call (Lock blocking);
    if l : bool then (x ← body; call Unlock;; mret x) else mret refused.

(** [terminal_outcome_covers]. *)
Definition terminal_outcome_covers (g : Z) : proc (rd (option terminal)) :=
  d ← call (Read_row To_row_done);
  match d with
  | Unread => mret Unread
  | Got d =>
      if bool_decide (w_gen <$> d = Some g) then mret (Got (Some To_row_done))
      else
        f ← call (Read_row To_row_failed);
        match f with
        | Unread => mret Unread
        | Got f => mret (Got (if bool_decide (w_gen <$> f = Some g) then Some To_row_failed else None))
        end
  end.

(** [_entomb_claim]: the tombstone that is the caller's, or not. *)
Inductive entombed := Mine (n : nat) | Not_mine | Entomb_raised.

Definition _entomb_claim (expect : rec) : proc entombed :=
  n ← call Entomb;
  match n with
  | None => mret Not_mine
  | Some n =>
      e ← call (Read_name n);
      match e with
      | Unread => mret Entomb_raised
      | Got None => mret (Mine n)
      | Got (Some e) =>
          if same_claim e expect then mret (Mine n)
          else
            l ← call (Link_claimed n);
            if l : bool then (u ← call (Unlink_tomb n); mret (if u : bool then Not_mine else Entomb_raised))
            else mret Not_mine
      end
  end.

(** [file_superseded]: evidence, which no reader of the queue takes for work. *)
Definition file_superseded : proc out := b ← call Sys; mret (if b : bool then Fine else Raised).

(** [_publish_requeued_claim], with its [finally]. *)
Definition _publish_requeued_claim (r : rec) (n : nat) : proc out :=
  x ← (p ← call (Ending_of (r_gen r));
       match p with
       | Unread => mret Raised
       | Got (Some _) => file_superseded
       | Got None =>
           w ← call Sys;
           if negb w then mret Raised
           else
             l ← call (Link_ready n r);
             match l with
             | Linked => mret Fine
             | Link_failed => mret Raised
             | Exists =>
                 q ← call (See_ready n);
                 match q with
                 | Unread | Got None => mret Raised
                 | Got (Some q) =>
                     if bool_decide (r_gen q < r_gen r)%Z then mret Raised
                     else if bool_decide (r_gen q = r_gen r) then mret Fine
                     else
                       b ← call (Supersede (r_gen r) (r_gen q));
                       if b : bool then file_superseded else mret Raised
                 end
             end
       end);
  u ← call Sys;
  mret (if u : bool then x else Raised).

(** [_archive_earlier_terminal]: whether the other row is to be retired. *)
Definition _archive_earlier_terminal (g : Z) (t : terminal) : proc bool :=
  p ← call (Read_row (other t));
  match p with
  | Unread | Got None => mret false
  | Got (Some w) =>
      if bool_decide (w_gen w = g) then mret false
      else (b ← file_superseded; mret (match b with Fine => true | Raised => false end))
  end.

Inductive transition := FINISH | EXPIRE | RELEASE_UNSTARTED | DEFER | CANCEL.

#[export] Instance transition_eq_dec : EqDecision transition.
Proof. solve_decision. Defined.

(** [_publish_claim_destination]. *)
Definition _publish_claim_destination (t : transition) (r : rec) (attempt : nat) (d : Disposition) (n : nat) : proc out :=
  let back :=
    if bool_decide (t = EXPIRE ∨ t = RELEASE_UNSTARTED) then
      (l ← call (Link_claimed n);
       if l : bool then (u ← call (Unlink_tomb n); mret (if u : bool then Fine else Raised)) else mret Fine)
    else mret Raised in
  match row_of d with
  | Some w =>
      retired ← _archive_earlier_terminal (r_gen r) w;
      b ← call (Replace_row w (mkRow (r_gen r) (Some attempt)));
      if negb b then back
      else
        q ← (if retired : bool then call (Unlink_row (other w)) else mret true);
        if negb q then mret Raised
        else (u ← call (Unlink_tomb n); mret (if u : bool then Fine else Raised))
  | None =>
      p ← _publish_requeued_claim r n;
      match p with
      | Raised => back
      | Fine => u ← call (Unlink_tomb n); mret (if u : bool then Fine else Raised)
      end
  end.

(** [LEGAL_DESTINATIONS], for the plans of [_commit_claim]. *)
Definition _legal_destination (t : transition) (d : Disposition) : bool :=
  match t, d with
  | FINISH, (To_done | To_failed | Requeued) | EXPIRE, (To_done | To_failed | Requeued) => true
  | (RELEASE_UNSTARTED | DEFER), Requeued | CANCEL, To_withdrawn => true
  | _, _ => false
  end.

(** [_commit_claim]: retire the exact owner before publishing its next home. *)
Definition _commit_claim (nested : bool) (t : transition) (r original : rec) (attempt : nat) (d : Disposition) : proc out :=
  if negb (_legal_destination t d) then mret Raised
  else
    e ← _entomb_claim original;
    match e with
    | Entomb_raised => mret Raised
    | Not_mine => mret Fine
    | Mine n =>
        let guarded := bool_decide (t = FINISH) || (bool_decide (t = EXPIRE) && bool_decide (is_Some (row_of d))) in
        m ← (if guarded then call (Mark_identity n) else mret true);
        if negb m then mret Fine
        else
          l ← call Unlink_lease;
          if negb l then mret Raised
          else
            q ← call Sys;                                   (* [_release_reservation] *)
            if negb q then mret Raised
            else if bool_decide (t = CANCEL) then
              (u ← call (Unlink_tomb n); mret (if u : bool then Fine else Raised))
            else if guarded then
              with_lock nested true Raised
                (o ← call (Mark_identity n);
                 if negb o then mret Fine else _publish_claim_destination t r attempt d n)
            else _publish_claim_destination t r attempt d n
    end.

(** The disposition of a finished attempt, and the one a late report states. *)
Definition finish_disposition (status : string) (n max : nat) (interruption : bool) : Disposition :=
  if succeeded status then To_done
  else if bool_decide (max ≤ n) || interruption then To_failed else Requeued.
Definition late_disposition (status : string) (n max : nat) : Disposition :=
  if bool_decide (status = "withdrawn") then To_withdrawn
  else if succeeded status then To_done
  else if bool_decide (max ≤ n) then To_failed else Requeued.

(** [_archive_late_finish]. *)
Definition _archive_late_finish (snapshot live : rec) (status : string) : proc out :=
  let n := S (r_attempts snapshot) in
  if bool_decide (r_gen snapshot = r_gen live) && bool_decide (r_attempts live < n) then file_superseded
  else
    o ← call (Archive (r_gen snapshot) n (r_max snapshot) status (late_disposition status n (r_max snapshot)) false);
    mret (match o with Some _ => Fine | None => Raised end).

(** [_complete_cancellation]. *)
Definition _complete_cancellation (nested : bool) (r read_claim : rec) : proc out :=
  with_lock nested true Raised
    (live ← call Read_claimed;
     match live with
     | Unread => mret Raised
     | Got None => mret Fine
     | Got (Some live) =>
         if negb (same_claim live read_claim) then mret Fine
         else
           h ← call Sys;                                    (* the decision and its filed copy *)
           if negb h then mret Raised
           else
             filed ← call Choice;                           (* [withdrawn_attempt in filed] *)
             proved ← (if filed : bool then mret true
                       else
                         o ← call (Archive (r_gen r) (S (r_attempts r)) (r_max r) "withdrawn" To_withdrawn false);
                         match o with
                         | Some o =>
                             if lawful (S (r_attempts r)) o && bool_decide (o_status o = "withdrawn")
                             then call Sys else mret false
                         | None => mret false
                         end);
             if negb proved then mret Raised
             else
               e ← file_superseded;                         (* scratch declarations, if any *)
               match e with
               | Raised => mret Raised
               | Fine => _commit_claim true CANCEL r read_claim 0 To_withdrawn
               end
     end).

(** [check_lease_identity]: whether claim and lease contradict each other. *)
Definition lease_conflict (r : rec) (lease : option (nat * nat)) : bool :=
  match r_claim r, lease with
  | Some c, Some l => negb (bool_decide (c = l))
  | _, _ => false
  end.

(** The rest of [_worker_finish] once the attempt is settled. *)
Definition finish_settled (nested : bool) (r : rec) (status : string) : proc out :=
  let n := S (r_attempts r) in
  o ← call (Archive (r_gen r) n (r_max r) status (finish_disposition status n (r_max r) (r_interruption r))
              (r_interruption r));
  match o with
  | None => mret Raised
  | Some o =>
      if negb (lawful n o) then mret Raised
      else
        _commit_claim nested FINISH
          (match row_of (o_disposition o) with Some _ => r | None => _shape_as_ready_item n r end)
          r n (o_disposition o)
  end.

(** A finish whose containers still run keeps the claim as their owner. *)
Definition finish_incomplete (r : rec) (status : string) : proc out :=
  live ← call Read_claimed;
  match live with
  | Unread => mret Raised
  | Got None => mret Fine
  | Got (Some live) =>
      if same_claim live r
      then (b ← call (Replace_claimed (with_pending (Some status) r)); mret (if b : bool then Fine else Raised))
      else mret Fine
  end.

(** A finish whose claim was concluded by someone else. *)
Definition finish_lost (snapshot : rec) (status : string) : proc out :=
  m ← call Marker;
  match m with
  | Unread => mret Raised
  | Got true => mret Fine
  | Got false =>
      q ← call Sys;
      if negb q then mret Raised
      else
        l ← call Unlink_lease;
        if negb l then mret Raised
        else
          c ← terminal_outcome_covers (r_gen snapshot);
          match c with
          | Unread => mret Raised
          | Got (Some _) => mret Fine
          | Got None =>
              let t := if succeeded status then To_row_done else To_row_failed in
              p ← call (Read_row t);
              match p with
              | Unread => mret Raised
              | Got (Some _) => mret Fine
              | Got None =>
                  b ← call (Replace_row t (mkRow (r_gen snapshot) None));
                  mret (if b : bool then Fine else Raised)
              end
          end
  end.

(** [cleanup_action_containers], by a reaper that holds the lock or not. *)
Definition cleanup_action_containers (nested : bool) : proc bool := if nested then call Choice else call Cleanup.

(** [_worker_finish]. *)
Definition _worker_finish (nested : bool) (snapshot : rec) (status : string) : proc out :=
  c ← call Read_claimed;
  match c with
  | Unread => mret Raised
  | Got None =>
      q ← call Read_ready;
      match q with
      | Unread => mret Raised
      | Got (Some live) => _archive_late_finish snapshot live status
      | Got None =>
          h ← call Sys;                                     (* [resolve_claim_holder] *)
          if negb h then mret Raised
          else
            k ← cleanup_action_containers nested;
            if negb k then finish_incomplete snapshot status
            else (status' ← call (Telemetry status); finish_lost snapshot status')
      end
  | Got (Some r) =>
      if negb (same_claim r snapshot) then _archive_late_finish snapshot r status
      else
        l ← call Read_lease;
        match l with
        | Unread => mret Raised
        | Got l =>
            if lease_conflict r l then mret Raised
            else
              h ← call Sys;
              if negb h then mret Raised
              else
                k ← cleanup_action_containers nested;
                if negb k then finish_incomplete r status
                else
                  status' ← call (Telemetry status);
                  w ← call (Decided (r_gen r));
                  match w with
                  | Unread => mret Raised
                  | Got true => _complete_cancellation nested r r
                  | Got false => finish_settled nested (with_pending None r) status'
                  end
        end
  end.

(** [_recover_cancelled_claim], under the key's lock. *)
Definition _recover_cancelled_claim (r : rec) : proc out :=
  p ← call (Attempt_at (r_gen r) (S (r_attempts r)));
  match p with
  | Unread => mret Fine
  | Got (Some o) =>
      if negb (lawful (S (r_attempts r)) o) then mret Fine
      else if bool_decide (o_status o = "withdrawn") then _complete_cancellation true r r
      else (e ← file_superseded;
            match e with Fine => _commit_claim true CANCEL r r 0 To_withdrawn | Raised => mret Raised end)
  | Got None =>
      e ← file_superseded;
      match e with Fine => _commit_claim true CANCEL r r 0 To_withdrawn | Raised => mret Raised end
  end.

(** The attempt an expired claim is charged. *)
Definition expire_charged (r : rec) : proc out :=
  let n := S (r_attempts r) in
  oom ← call Choice;                                        (* [_resource_failure] *)
  let over := bool_decide (r_max r ≤ n) in
  o ← call (Archive (r_gen r) n (r_max r)
              (if oom : bool then "failed" else if over then "lease_lost_max_attempts" else "lease_lost")
              (if over then To_failed else Requeued) false);
  match o with
  | None => mret Raised
  | Some o =>
      if negb (lawful n o) then mret Raised
      else
        _commit_claim true EXPIRE
          (match row_of (o_disposition o) with Some _ => r | None => _shape_as_ready_item n r end)
          r n (o_disposition o)
  end.

(** [_expired_claim], under the key's lock; [leased]: a lease was read. *)
Definition _expired_claim (r : rec) (leased : bool) : proc out :=
  k ← call Choice;                                          (* [cleanup_action_containers] *)
  if negb k then (b ← call (Replace_claimed r); mret (if b : bool then Fine else Raised))
  else
    known ← call Choice;                                    (* the listing made before the lock *)
    t ← (if known : bool then terminal_outcome_covers (r_gen r) else mret (Got None));
    match t with
    | Unread => mret Raised
    | Got (Some _) =>
        e ← file_superseded;
        match e with
        | Raised => mret Raised
        | Fine =>
            q ← call Sys;
            if negb q then mret Raised
            else
              u ← call Unlink_claimed;
              if negb u then mret Raised
              else (l ← call Unlink_lease; mret (if l : bool then Fine else Raised))
        end
    | Got None =>
        w ← call (Decided (r_gen r));
        match w with
        | Unread => mret Raised
        | Got true => _recover_cancelled_claim r
        | Got false =>
            if leased then expire_charged r
            else
              p ← call (Attempt_at (r_gen r) (S (r_attempts r)));
              match p with
              | Unread => mret Raised
              | Got (Some _) => expire_charged r
              | Got None =>
                  spent ← call Choice;                      (* [_spent_output_retry_stop] *)
                  if spent : bool then expire_charged r
                  else
                    e ← file_superseded;
                    match e with
                    | Raised => mret Raised
                    | Fine => _commit_claim true RELEASE_UNSTARTED
                                (_shape_as_ready_item (r_attempts r) r) r 0 Requeued
                    end
              end
        end
    end.

(** A claim without a pending finish: by the age of its lease. *)
Definition reap_aged : proc out :=
  age ← call Read_lease;
  match age with
  | Unread => mret Fine
  | Got age =>
      stale ← call Choice;                                  (* [timeout_s], or the grace *)
      if negb stale then mret Fine
      else
        c ← call Read_claimed;
        match c with
        | Unread => mret Raised
        | Got None => mret Fine
        | Got (Some r) =>
            if bool_decide (is_Some (r_pending r)) then mret Fine
            else
              l ← call Read_lease;
              match l with
              | Unread => mret Raised
              | Got l =>
                  if lease_conflict r l then mret Fine
                  else
                    h ← call Sys;
                    if negb h then mret Fine
                    else _expired_claim r (bool_decide (is_Some age))
              end
        end
  end.

(** [reap_stale] at one key. *)
Definition reap_one : proc out :=
  with_lock false false Fine
    (first ← call Read_claimed;
     match first with
     | Unread => mret Raised
     | Got first =>
         match first ≫= r_pending, first with
         | Some status, Some r =>
             ours ← call Choice;
             if ours : bool then _worker_finish true r status else mret Fine
         | _, _ => reap_aged
         end
     end).

(** ** Sweeps *)

(** Filing an unrestorable tombstone as evidence.  [t]: the row that ended its
    generation, [next]: the publication that superseded it. *)
Definition retire_tombstone (r : rec) (n : nat) (live : bool) (t : option terminal) (next : option Z) : proc out :=
  c ← call (See_claimed n);
  match c with
  | Unread => mret Raised
  | Got c =>
      clean ← (if c : bool then mret true
               else
                 h ← call Choice;                           (* holders, cleanup, release *)
                 if negb h then mret false
                 else
                   l ← call Read_lease;
                   match l with
                   | Unread => mret false
                   | Got l => if bool_decide (is_Some l ∧ l = r_claim r) then call Unlink_lease else mret true
                   end);
      if negb clean then mret Fine
      else
        kept ← (match t with
                | Some t =>
                    if live then mret true
                    else
                      b ← call Choice;                      (* [_retire_recorded_terminal] *)
                      if negb b then mret false
                      else (u ← call Choice; if u : bool then call (Unlink_row (other t)) else mret true)
                | None => mret true
                end);
        if negb kept then mret Fine
        else
          s ← (match next with Some g' => call (Supersede (r_gen r) g') | None => mret true end);
          if negb s then mret Fine
          else
            f ← file_superseded;
            match f with
            | Raised => mret Raised
            | Fine => u ← call (Unlink_tomb n); mret (if u : bool then Fine else Raised)
            end
  end.

(** What else the key has beside a tombstone: whether it is live, whether the
    generation ended, and a newer publication; [None] when a read raised. *)
Definition tombstone_facts (r : rec) (n : nat) : proc (option (bool * option terminal * bool * option Z)) :=
  p ← call Read_ready;
  match p with
  | Unread => mret None
  | Got p =>
      c ← (if bool_decide (is_Some p) then mret (Got false) else call (See_claimed n));
      match c with
      | Unread => mret None
      | Got c =>
          let live := bool_decide (is_Some p) || c in
          t ← terminal_outcome_covers (r_gen r);
          match t with
          | Unread => mret None
          | Got t =>
              w ← call (Decided (r_gen r));
              match w with
              | Unread => mret None
              | Got w =>
                  e ← call (Ending_of (r_gen r));
                  match e with
                  | Unread => mret None
                  | Got e =>
                      if bool_decide (is_Some t) || w || bool_decide (is_Some e)
                      then mret (Some (live, t, true, None))
                      else
                        c ← call (See_claimed n);
                        match c with
                        | Unread => mret None
                        | Got true => mret (Some (live, t, false, None))
                        | Got false =>
                            q ← call Read_ready;
                            match q with
                            | Unread => mret None
                            | Got None => mret (Some (live, t, false, None))
                            | Got (Some _) =>
                                a ← call (Archived (r_gen r));
                                match a with
                                | Unread => mret None
                                | Got true => mret (Some (live, t, true, None))
                                | Got false =>
                                    q ← call (See_ready n);
                                    match q with
                                    | Unread | Got None => mret None
                                    | Got (Some q) =>
                                        if bool_decide (r_gen q < r_gen r)%Z then mret None
                                        else mret (Some (true, t, false,
                                               if bool_decide (r_gen r < r_gen q)%Z then Some (r_gen q) else None))
                                    end
                                end
                            end
                        end
                  end
              end
          end
      end
  end.

(** [_sweep_finish_tombstones] at one tombstone. *)
Definition sweep_tombstone (n : nat) : proc out :=
  with_lock false false Fine
    (aged ← call Choice;
     if negb aged then mret Fine
     else
       e ← call (Read_name n);
       match e with
       | Unread => mret Fine
       | Got None =>
           h ← call Choice;
           if negb h then mret Fine
           else
             f ← file_superseded;
             match f with
             | Raised => mret Raised
             | Fine => u ← call (Unlink_tomb n); mret (if u : bool then Fine else Raised)
             end
       | Got (Some r) =>
           v ← tombstone_facts r n;
           match v with
           | None => mret Fine
           | Some (live, t, covered, next) =>
               if negb live && negb covered then
                 verified ← call (Verify n);
                 match verified with
                 | None => mret Fine
                 | Some false => retire_tombstone r n live t next
                 | Some true =>
                     l ← call (Relink n);
                     if l : bool then (u ← call (Unlink_tomb n); mret (if u : bool then Fine else Raised))
                     else retire_tombstone r n live t next
                 end
               else retire_tombstone r n live t next
           end
       end).

(** [_restore_ready_transition]. *)
Definition _restore_ready_transition (n : nat) : proc out :=
  l ← call (Restore n);
  if l : bool then (u ← call (Unlink_capture n); mret (if u : bool then Fine else Raised)) else mret Fine.

(** [_sweep_ready_transitions] at one capture. *)
Definition sweep_ready_transition (n : nat) : proc out :=
  with_lock false false Fine
    (aged ← call Choice;
     if negb aged then mret Fine
     else
       e ← call (Read_name n);
       match e with
       | Unread | Got None => mret Fine
       | Got (Some r) =>
           q ← call Read_ready;
           c ← call Read_claimed;
           match q, c with
           | Got None, Got None =>
               t ← terminal_outcome_covers (r_gen r);
               match t with
               | Unread => mret Fine
               | Got t =>
                   w ← call (Decided (r_gen r));
                   match w with
                   | Unread => mret Fine
                   | Got w =>
                       if bool_decide (is_Some t) || w
                       then (call (Retire_capture n true);; mret Fine)
                       else _restore_ready_transition n
                   end
               end
           | Got _, Got _ => call (Retire_capture n false);; mret Fine
           | _, _ => mret Fine
           end
       end).

(** ** Publishing, claiming, withdrawing ([pool.py]) *)

(** The row [publish] writes; a handoff inherits [base] attempts. *)
Definition new_row (g : Z) (base max : nat) (interruption : bool) : rec :=
  mkRec g base base max interruption None None.

Definition publish (g : Z) (base max : nat) (interruption : bool) : proc out :=
  if negb (bool_decide (base < max)) then mret Raised
  else
    with_lock false true Raised
      (admitted ← call Choice;
       if negb admitted then mret Raised
       else (b ← call (Publish (new_row g base max interruption)); mret (if b : bool then Fine else Raised))).

(** [_ClaimReservation.abandon], its part on the row. *)
Definition abandon : proc unit :=
  l ← call Link_claimed_ready;
  if l : bool then (call Unlink_claimed;; mret ()) else mret ().

(** [PERSISTED_RETRY]: put the moved bytes back first. *)
Definition abandon_persisted (moved : rec) : proc unit :=
  call Unlink_lease;;
  b ← call (Replace_claimed moved);
  if b : bool then abandon else mret ().

(** A claim that met an ending of its own generation. *)
Definition drop_claim : proc unit :=
  r ← call Sys;                                             (* [DROP_EXACT_CLAIM] *)
  if negb r then mret ()
  else
    f ← file_superseded;
    match f with
    | Raised => mret ()
    | Fine => call Unlink_claimed;; mret ()
    end.

(** [_persist_committed_claim] of the bytes a claimant [c] moved. *)
Definition _persist_committed_claim (moved : rec) (c : nat * nat) : proc (option rec) :=
  t ← terminal_outcome_covers (r_gen moved);
  match t with
  | Unread => mret None
  | Got (Some _) => drop_claim;; mret None
  | Got None =>
      w ← call (Decided (r_gen moved));
      match w with
      | Unread => mret None
      | Got true => drop_claim;; mret None
      | Got false =>
          let claimed := with_claim (Some c) moved in
          funded ← call Choice;                             (* [_verify_claim_funding] *)
          if negb funded then (abandon;; mret None)
          else
            warmed ← call Sys;                              (* [prewarm] *)
            if negb warmed then mret None
            else
              b ← call (Replace_claimed claimed);
              if negb b then (abandon;; mret None)
              else
                l ← call (Write_lease c);
                if negb l then (abandon_persisted moved;; mret None)
                else
                  sealed ← call Choice;                     (* [_seal_claim_funding] *)
                  if negb sealed then (abandon_persisted moved;; mret None)
                  else mret (Some claimed)
      end
  end.

(** The rename of one claim ([_rename_and_commit_claim]), its commit and its
    persistence, under the key's lock. *)
Definition claim (c : nat * nat) : proc (option rec) :=
  with_lock false false None
    (b ← call Blocked;
     if b : bool then mret None
     else
       m ← call Rename_ready;
       match m with
       | None => mret None
       | Some moved =>
           admitted ← call Choice;
           if negb admitted then (abandon;; mret None) else _persist_committed_claim moved c
       end).

(** [_withdraw_ready], under the key's lock. *)
Definition _withdraw_ready : proc out :=
  n ← call Capture;
  match n with
  | None => mret Fine
  | Some n =>
      e ← call (Read_name n);
      match e with
      | Got (Some r) =>
          w ← call (Decided (r_gen r));
          match w with
          | Got true => call (Retire_capture n true);; mret Fine
          | _ => _restore_ready_transition n
          end
      | _ => _restore_ready_transition n
      end
  end.

(** [withdraw]: the generation it cancels is the claimed one, or the one
    waiting behind a claim that is cancelled already. *)
Definition withdraw : proc out :=
  with_lock false true Raised
    (c ← call Read_claimed;
     q ← call Read_ready;
     match c, q with
     | Got c, Got q =>
         w ← (match c with Some c => call (Decided (r_gen c)) | None => mret (Got true) end);
         v ← (match q with Some q => call (Decided (r_gen q)) | None => mret (Got true) end);
         match w, v with
         | Got w, Got v =>
             let target := match c, q with
                           | Some c, Some q => Some (if w && negb v then r_gen q else r_gen c)
                           | Some c, None => Some (r_gen c)
                           | None, Some q => Some (r_gen q)
                           | None, None => None
                           end in
             match target with
             | None => mret Raised
             | Some g =>
                 h ← call Sys;
                 if negb h then mret Raised
                 else
                   d ← call (Decide g);
                   if negb d then mret Raised
                   else
                     m ← call (Mark g);
                     if negb m then mret Raised else _withdraw_ready
             end
         | _, _ => mret Raised
         end
     | _, _ => mret Raised
     end).

(** [_defer_launch]. *)
Definition _defer_launch (item : rec) : proc out :=
  with_lock false true Raised
    (c ← call Read_claimed;
     match c with
     | Unread => mret Raised
     | Got None => mret Fine
     | Got (Some r) =>
         if negb (same_claim r item) then mret Fine
         else
           h ← call Sys;
           if negb h then mret Raised
           else _commit_claim true DEFER (_shape_as_ready_item (r_attempts r) r) r 0 Requeued
     end).

(** [serve_once] from the claim on. *)
Definition serve_once (c : nat * nat) : proc out :=
  x ← claim c;
  match x with
  | None => mret Fine
  | Some item =>
      outcome ← call (Run (r_gen item));
      match outcome with
      | None => _defer_launch item
      | Some status => _worker_finish false item status
      end
  end.

(** ** The machine *)

Inductive client :=
  | Publisher (g : Z) (base max : nat) (interruption : bool)
  | Worker (c : nat * nat)
  | Reaper
  | Tombstone_sweeper (n : nat)
  | Capture_sweeper (n : nat)
  | Withdrawer.

Definition handler (c : client) : proc out :=
  match c with
  | Publisher g base max interruption => publish g base max interruption
  | Worker c => serve_once c
  | Reaper => reap_one
  | Tombstone_sweeper n => sweep_tombstone n
  | Capture_sweeper n => sweep_ready_transition n
  | Withdrawer => withdraw
  end.

Definition actors : Type := nat → option (proc out).

Definition put (a : nat) (p : option (proc out)) (P : actors) : actors := λ b, if decide (b = a) then p else P b.

(** A killed actor lets go of the lock. *)
Definition kill (a : nat) (s : st) : st :=
  if bool_decide (s_lock s = Some a) then set_lock None s else s.

(** A sweep works on names it listed. *)
Definition startable (c : client) (s : st) : Prop :=
  match c with
  | Tombstone_sweeper n | Capture_sweeper n => is_Some (s_names s !! n)
  | _ => True
  end.

Inductive step (incomplete : bool) : st * actors → st * actors → Prop :=
  | step_call (a : nat) (s s' : st) (P : actors) (X : Type) (o : op X) (k : X → proc out) (x : X) :
      P a = Some (Do o k) → op_step incomplete o a s x s' →
      step incomplete (s, P) (s', put a (Some (k x)) P)
  | step_start (a : nat) (s : st) (P : actors) (c : client) :
      (P a = None ∨ ∃ x, P a = Some (Ret x)) → startable c s →
      step incomplete (s, P) (s, put a (Some (handler c)) P)
  | step_kill (a : nat) (s : st) (P : actors) : step incomplete (s, P) (kill a s, put a None P).

Definition reachable (incomplete : bool) (s : st) : Prop := ∃ P, rtc (step incomplete) (empty, λ _, None) (s, P).
