(* ===== verification/LifecycleLogic.v ===== *)
(** * A logic for the key's handlers

    What is permanent in the key's files ([le]), what stays true of them
    ([Inv]), what an actor that holds the lock may rely on ([mode]), and for
    each file operation when it is safe and what it teaches ([pre], [post]).
    [op_sound] shows that operations made when they are safe keep the
    invariant and every actor's mode. *)
From S2P Require Import Prelude.
From S2P Require Import Endings.
From S2P Require Import Prog.
From S2P Require Import Lifecycle.

(** ** What is permanent *)

(** [n] was moved aside and is no tombstone (any more). *)
Definition gone (s : st) (n : nat) : Prop := is_Some (s_names s !! n) ∧ n ∉ s_tombs s.

Record le (s s' : st) : Prop := mkLe {
  le_attempts : s_attempts s ⊆ s_attempts s';
  le_decisions : s_decisions s ⊆ s_decisions s';
  le_endings : dom (s_endings s) ⊆ dom (s_endings s');
  le_published : s_published s ⊆ s_published s';
  le_names : s_names s ⊆ s_names s';
  le_spent : s_spent s ⊆ s_spent s';
  le_overwritten : s_overwritten s ⊆ s_overwritten s';
  le_raced : s_raced s ⊆ s_raced s';
  le_dropped : s_dropped s ⊆ s_dropped s';
  le_gone : ∀ n, gone s n → gone s' n }.

#[export] Instance le_preorder : PreOrder le.
Proof.
  split; [split; try reflexivity; auto|].
  intros s1 s2 s3 [] []. split; try (etrans; eassumption). auto.
Qed.

(** The generation has an ending, or the bytes that stood for it were replaced
    or dropped knowingly. *)
Inductive accounted (s : st) (g : Z) : Prop :=
  | acc_decision : g ∈ s_decisions s → accounted s g
  | acc_ending : g ∈ dom (s_endings s) → accounted s g
  | acc_attempt : ended_attempt s g → accounted s g
  | acc_raced : g ∈ s_raced s → accounted s g
  | acc_overwritten : g ∈ s_overwritten s → accounted s g
  | acc_dropped : g ∈ s_dropped s → accounted s g.

(** The attempts [lo < m < hi] of [g] are archived as requeued. *)
Definition requeued (s : st) (g : Z) (lo hi : nat) : Prop :=
  ∀ m, lo < m < hi → ∃ o, s_attempts s !! (g, m) = Some o ∧ o_disposition o = Requeued.

(** A record that may stand in the queue. *)
Record good (s : st) (r : rec) : Prop := mkGood {
  g_published : s_published s !! r_gen r = Some (r_base r, r_max r, r_interruption r);
  g_bound : r_base r ≤ r_attempts r < r_max r;
  g_history : requeued s (r_gen r) (r_base r) (S (r_attempts r));
  g_pending : r_pending r = Some "withdrawn" → r_gen r ∈ s_decisions s }.

(** Nothing is lost when the tombstone [n] goes. *)
Definition disposable (s : st) (n : nat) : Prop :=
  n ∈ s_spent s ∨ (∃ g, gen_at s n = Some g ∧ accounted s g) ∨ gone s n.

Section permanent.
Context (s s' : st) (Hle : le s s').

Lemma names_mono n r : s_names s !! n = Some r → s_names s' !! n = Some r.
Proof using Hle. intros H. destruct Hle. by eapply lookup_weaken. Qed.

Lemma gen_at_mono n g : gen_at s n = Some g → gen_at s' n = Some g.
Proof using Hle.
  unfold gen_at. intros (r & Hr & ->)%fmap_Some. by rewrite (names_mono n r Hr).
Qed.

Lemma attempts_mono k o : s_attempts s !! k = Some o → s_attempts s' !! k = Some o.
Proof using Hle. intros H. destruct Hle. by eapply lookup_weaken. Qed.

Lemma ended_attempt_mono g : ended_attempt s g → ended_attempt s' g.
Proof using Hle. intros (n & o & Ho & Hd). exists n, o. split; [by apply attempts_mono|done]. Qed.

Lemma accounted_mono g : accounted s g → accounted s' g.
Proof using Hle.
  intros []; [apply acc_decision|apply acc_ending|apply acc_attempt, ended_attempt_mono
    |apply acc_raced|apply acc_overwritten|apply acc_dropped]; destruct Hle; auto.
Qed.

Lemma requeued_mono g lo hi : requeued s g lo hi → requeued s' g lo hi.
Proof using Hle.
  intros H m Hm. destruct (H m Hm) as (o & Ho & Hd). exists o. split; [by apply attempts_mono|done].
Qed.

Lemma published_mono g v : s_published s !! g = Some v → s_published s' !! g = Some v.
Proof using Hle. intros H. destruct Hle. by eapply lookup_weaken. Qed.

Lemma good_mono r : good s r → good s' r.
Proof using Hle.
  intros []. split; [by apply published_mono|done|by apply requeued_mono|].
  intros Hp. destruct Hle. auto.
Qed.

Lemma disposable_mono n : disposable s n → disposable s' n.
Proof using Hle.
  intros [H|[(g & H1 & H2)|H]].
  - left. destruct Hle. auto.
  - right; left. exists g. split; [by apply gen_at_mono|by apply accounted_mono].
  - right; right. destruct Hle. auto.
Qed.
End permanent.

Create HintDb lifecycle.
#[export] Hint Resolve names_mono gen_at_mono attempts_mono ended_attempt_mono accounted_mono requeued_mono
  published_mono good_mono disposable_mono : lifecycle.

(** ** The invariant *)

(** The generations in the custody of [claimed/]. *)
Definition custody (s : st) (g : Z) : Prop :=
  r_gen <$> s_claimed s = Some g ∨ ∃ n, n ∈ s_tombs s ∧ gen_at s n = Some g.

(** Bytes of [g] are where a handler will find them. *)
Definition carried (s : st) (g : Z) : Prop :=
  r_gen <$> s_ready s = Some g ∨ r_gen <$> s_claimed s = Some g
  ∨ ∃ n, (n ∈ s_tombs s ∨ n ∈ s_captures s) ∧ n ∉ s_spent s ∧ gen_at s n = Some g.

(** The attempt [n] of [g] fits its publication and its predecessors. *)
Definition numbered (s : st) (g : Z) (n : nat) (o : outcome) : Prop :=
  ∃ base interruption, s_published s !! g = Some (base, o_max o, interruption)
    ∧ (base < n ≤ o_max o) ∧ lawful n o = true ∧ requeued s g base n.

Section invariant.
Context (incomplete : bool).

Record Inv (s : st) : Prop := mkInv {
  i_ready : ∀ r, s_ready s = Some r → good s r;
  i_claimed : ∀ r, s_claimed s = Some r → good s r;
  i_names : ∀ n r, s_names s !! n = Some r → good s r;
  i_named : ∀ n, n ∈ s_tombs s ∨ n ∈ s_captures s ∨ n ∈ s_spent s → is_Some (s_names s !! n);
  i_attempts : ∀ g n o, s_attempts s !! (g, n) = Some o → numbered s g n o;
  i_rows : ∀ t w, row_at t s = Some w →
    match w_attempt w with
    | Some n => ∃ o, s_attempts s !! (w_gen w, n) = Some o ∧ row_of (o_disposition o) = Some t
    | None => w_gen w ∈ s_raced s
    end;
  i_custody : incomplete = false → ∀ g g', custody s g → custody s g' → g = g';
  i_alive : incomplete = false → ∀ g, is_Some (s_published s !! g) → accounted s g ∨ carried s g }.

Lemma row_accounted s t w : Inv s → row_at t s = Some w → accounted s (w_gen w).
Proof.
  intros HI Hw. pose proof (i_rows s HI t w Hw) as H. destruct (w_attempt w) as [n|].
  - destruct H as (o & Ho & Hd). apply acc_attempt. exists n, o. split; [done|].
    destruct (o_disposition o), t; naive_solver.
  - by apply acc_raced.
Qed.

(** ** Modes *)

(** What a holder of the lock knows: the one generation in custody, that
    nothing is in custody, what stands in [ready/]. *)
Record know := mkKnow { k_gen : option Z; k_empty : bool; k_ready : option (option rec) }.

Abbreviation mode := (option know).

Definition knows (k : know) (s : st) : Prop :=
  (∀ g, incomplete = false → k_gen k = Some g → ∀ g', custody s g' → g' = g)
  ∧ (incomplete = false → k_empty k = true → s_claimed s = None ∧ s_tombs s = ∅)
  ∧ (∀ v, k_ready k = Some v → s_ready s = v).

Definition holds (a : nat) (m : mode) (s : st) : Prop :=
  match m with
  | None => s_lock s ≠ Some a
  | Some k => s_lock s = Some a ∧ knows k s
  end.

Definition ignorant : know := mkKnow None false None.

(** ** When a call is safe *)

(** An attempt may be archived under this number with this outcome. *)
Definition archivable (s : st) (g : Z) (n max : nat) (status : string) (d : Disposition) (final : bool) : Prop :=
  ∃ base interruption, s_published s !! g = Some (base, max, interruption) ∧ (base < n ≤ max)
    ∧ requeued s g base n ∧ d = expected_disposition status false final (Z.of_nat n) (Z.of_nat max).

Definition pre {X} (m : mode) (s : st) (o : op X) : Prop :=
  match o with
  | Lock _ => m = None
  | Unlock | Link_claimed_ready | Capture | Restore _ => is_Some m
  | Archive g n max status d final => archivable s g n max status d final
  | Replace_claimed r => good s r ∧ (incomplete = false → ∃ k, m = Some k ∧ k_gen k = Some (r_gen r))
                         ∧ (incomplete = false → ∀ k, m = Some k → k_empty k = false)
  | Replace_row t w =>
      match w_attempt w with
      | Some n => ∃ o, s_attempts s !! (w_gen w, n) = Some o ∧ row_of (o_disposition o) = Some t
      | None => True
      end
  | Link_ready _ r => is_Some m ∧ good s r
  | Publish r => is_Some m ∧ r_base r = r_attempts r ∧ r_attempts r < r_max r ∧ r_pending r = None
  | Rename_ready => ∃ k, m = Some k ∧ k_empty k = true
  | Unlink_claimed => incomplete = false → ∃ k g, m = Some k ∧ k_gen k = Some g
      ∧ (accounted s g ∨ ∃ r, k_ready k = Some (Some r) ∧ r_gen r = g)
  | Unlink_tomb n => incomplete = false → disposable s n
  | Unlink_capture n => n ∈ s_spent s
  | Retire_capture n covered => is_Some m
      ∧ (incomplete = false → covered = true → ∃ g, gen_at s n = Some g ∧ accounted s g)
  | See_claimed n | Relink n | Verify n => is_Some (s_names s !! n)
  | Read_name n => is_Some (s_names s !! n)
  | _ => True
  end.

(** What the answer teaches, and the mode it leaves. *)
Definition learn_ready (v : option rec) (m : mode) : mode :=
  (λ k, mkKnow (k_gen k) (k_empty k) (Some v)) <$> m.
Definition learn_gen (g : Z) (m : mode) : mode := (λ k, mkKnow (Some g) (k_empty k) (k_ready k)) <$> m.

Definition post {X} (m : mode) (s : st) (o : op X) : X → mode → st → Prop :=
  match o in op X return X → mode → st → Prop with
  | Lock _ => λ x m' _, m' = if x : bool then Some ignorant else None
  | Unlock => λ _ m' _, m' = None
  | Cleanup => λ x m' _, m' = m ∧ (x = false → incomplete = true)
  | Run g => λ x m' s', m' = m ∧ (x = Some "withdrawn" → g ∈ s_decisions s')
  | Telemetry status => λ x m' _, m' = m ∧ (x = status ∨ x = "failed")
  | Read_claimed => λ x m' s',
      match x with
      | Unread => m' = m
      | Got None => m' = m
      | Got (Some r) => good s' r ∧ m' = learn_gen (r_gen r) m
          ∧ (incomplete = false → ∀ k, m = Some k → k_empty k = false)
      end
  | Read_ready => λ x m' s',
      match x with
      | Unread => m' = m
      | Got v => (∀ r, v = Some r → good s' r) ∧ m' = learn_ready v m
          ∧ ∀ k v', m = Some k → k_ready k = Some v' → v = v'
      end
  | Read_name n => λ x m' s', m' = m ∧
      match x with
      | Unread => True
      | Got None => gone s' n
      | Got (Some r) => s_names s' !! n = Some r ∧ good s' r
      end
  | Read_row _ => λ x m' s', m' = m ∧ ∀ w, x = Got (Some w) → accounted s' (w_gen w)
  | Decided g => λ x m' s', m' = m ∧ (x = Got true → g ∈ s_decisions s') ∧ (x = Got false → g ∉ s_decisions s)
  | Ending_of g => λ x m' s', m' = m ∧ ∀ g', x = Got (Some g') → accounted s' g
  | Attempt_at g n => λ x m' s', m' = m ∧ ∀ o, x = Got (Some o) → s_attempts s' !! (g, n) = Some o
  | Archived g => λ x m' s', m' = m ∧ (x = Got true → ended_attempt s' g)
  | Archive g n max _ _ _ => λ x m' s', m' = m ∧ ∀ o, x = Some o → s_attempts s' !! (g, n) = Some o ∧ o_max o = max
  | Entomb => λ x m' s', m' = m ∧ ∀ n, x = Some n → is_Some (s_names s' !! n)
  | Link_claimed n => λ x m' s', m' = m ∧ (x = true → n ∈ s_spent s')
  | Relink n => λ x m' s', m' = m ∧ (incomplete = false → disposable s' n)
  | Verify n => λ x m' s', m' = m ∧ (x = Some false → disposable s' n)
  | Link_ready n r => λ x m' s',
      match x with
      | Linked => m' = learn_ready (Some r) m ∧ (gen_at s' n = Some (r_gen r) → n ∈ s_spent s')
      | _ => m' = m
      end
  | See_ready n => λ x m' s', m' = m ∧
      ∀ q, x = Got (Some q) → good s' q ∧ (gen_at s' n = Some (r_gen q) → n ∈ s_spent s')
  | See_claimed n => λ x m' s', m' = m ∧ (x = Got true → incomplete = false → disposable s' n)
  | Supersede g _ => λ x m' s', m' = m ∧ (x = true → accounted s' g)
  | Publish r => λ x m' _, m' = if x : bool then learn_ready (Some r) m else m
  | Blocked => λ x m' _, m' = if x : bool then m else (λ k, mkKnow (k_gen k) true (k_ready k)) <$> m
  | Rename_ready => λ x m' s',
      match x with
      | None => m' = m
      | Some r => good s' r ∧ m' = Some (mkKnow (Some (r_gen r)) false (Some None))
      end
  | Link_claimed_ready => λ x m' _,
      if x : bool
      then ∃ r, m' = learn_ready (Some r) m
           ∧ ∀ k g, m = Some k → incomplete = false → k_gen k = Some g → r_gen r = g
      else m' = m
  | Decide g => λ x m' s', m' = m ∧ (x = true → g ∈ s_decisions s')
  | Capture => λ x m' s',
      match x with
      | None => m' = m
      | Some n => m' = learn_ready None m ∧ is_Some (s_names s' !! n)
      end
  | Restore n => λ x m' s',
      m' = (if x : bool then (λ k, mkKnow (k_gen k) (k_empty k) None) <$> m else m) ∧ (x = true → n ∈ s_spent s')
  | Choice | Sys | Read_lease | Marker | Replace_claimed _ | Replace_row _ _ | Unlink_row _
  | Mark_identity _ | Unlink_tomb _ | Unlink_claimed | Write_lease _ | Unlink_lease | Mark _
  | Unlink_capture _ | Retire_capture _ _ => λ _ m' _, m' = m
  end.

(** A call made when it is safe keeps the invariant, the caller's mode and
    everyone else's. *)
Definition sound {X} (o : op X) : Prop := ∀ a m s x s',
  Inv s → holds a m s → pre m s o → op_step incomplete o a s x s' →
  Inv s' ∧ le s s' ∧ (∃ m', post m s o x m' s' ∧ holds a m' s')
  ∧ ∀ b mb, b ≠ a → holds b mb s → holds b mb s'.

(** A call that leaves the files as they are only has to teach the truth. *)
Lemma quiet {X} (o : op X) a m s x :
  Inv s → holds a m s → (∃ m', post m s o x m' s ∧ holds a m' s) →
  Inv s ∧ le s s ∧ (∃ m', post m s o x m' s ∧ holds a m' s) ∧ ∀ b mb, b ≠ a → holds b mb s → holds b mb s.
Proof. intros. split_and!; [done|reflexivity|done|done]. Qed.

(** *** Calls that only read *)

Lemma claimed_custody s r : s_claimed s = Some r → custody s (r_gen r).
Proof. intros H. left. by rewrite H. Qed.

Lemma learn_gen_holds a m s r :
  Inv s → holds a m s → s_claimed s = Some r →
  holds a (learn_gen (r_gen r) m) s ∧ (incomplete = false → ∀ k, m = Some k → k_empty k = false).
Proof.
  intros HI Hm Hr. destruct m as [k|]; cbn in *; [|done].
  destruct Hm as (Hl & H1 & H2 & H3). split.
  - split; [done|]. split_and!; cbn; [|done|done].
    intros g Hi [= <-] g' Hg'. eapply i_custody; [done|done|done|]. by apply claimed_custody.
  - intros Hi ? [= <-]. destruct (k_empty k); [|done]. destruct H2 as [H2 _]; [done|done|]. congruence.
Qed.

Lemma learn_ready_holds a m s :
  holds a m s → holds a (learn_ready (s_ready s) m) s
    ∧ ∀ k v', m = Some k → k_ready k = Some v' → s_ready s = v'.
Proof.
  destruct m as [k|]; cbn; [|done]. intros (Hl & H1 & H2 & H3). split; [|by intros ? ? [= <-] ?; apply H3].
  split; [done|]. split_and!; cbn; [done|done|]. by intros ? [= <-].
Qed.

(** Answer one of the reads. *)
Ltac read_base :=
  intros a m s x s' HI Hm Hp Hs; cbn in Hs, Hp;
  first [subst s' | destruct Hs as [-> Hs]]; apply quiet; [done|done|].
Ltac read_sound := read_base; match goal with |- ∃ _, post ?m _ _ _ _ _ ∧ _ => exists m end; split; [|done]; cbn.

Lemma choice_sound : sound Choice.
Proof. read_sound. done. Qed.
Lemma sys_sound : sound Sys.
Proof. read_sound. done. Qed.
Lemma cleanup_sound : sound Cleanup.
Proof. read_sound. done. Qed.
Lemma run_sound g : sound (Run g).
Proof. read_sound. done. Qed.
Lemma telemetry_sound status : sound (Telemetry status).
Proof. read_sound. done. Qed.
Lemma read_lease_sound : sound Read_lease.
Proof. read_sound. done. Qed.
Lemma marker_sound : sound Marker.
Proof. read_sound. done. Qed.
Lemma mark_identity_sound n : sound (Mark_identity n).
Proof. read_sound. done. Qed.
Lemma decided_sound g : sound (Decided g).
Proof.
  read_sound. split; [done|]. split; intros ->; (destruct Hs as [|[= Hb]]; [done|]); symmetry in Hb.
  - by apply bool_decide_eq_true in Hb.
  - by apply bool_decide_eq_false in Hb.
Qed.
Lemma ending_of_sound g : sound (Ending_of g).
Proof.
  read_sound. split; [done|]. intros g' ->. destruct Hs as [|[= Hb]]; [done|].
  apply acc_ending, elem_of_dom. by eexists.
Qed.
Lemma attempt_at_sound g n : sound (Attempt_at g n).
Proof. read_sound. split; [done|]. intros o ->. destruct Hs as [|[= Hb]]; [done|]. done. Qed.
Lemma archived_sound g : sound (Archived g).
Proof. read_sound. split; [done|]. by intros ->. Qed.
Lemma read_row_sound t : sound (Read_row t).
Proof.
  read_sound. split; [done|]. intros w ->. destruct Hs as [|[= Hb]]; [done|]. by eapply row_accounted.
Qed.
Lemma read_name_sound n : sound (Read_name n).
Proof.
  read_sound. split; [done|]. destruct x as [x|]; [|done]. destruct Hs as [|[= Hb]]; [done|].
  case_bool_decide as Hn; subst x.
  - destruct Hp as [r Hr]. rewrite Hr. split; [done|]. by eapply i_names.
  - split; [done|naive_solver].
Qed.
Lemma read_claimed_sound : sound Read_claimed.
Proof.
  read_base. destruct Hs as [->| ->]; [by exists m|]. destruct (s_claimed s) as [r|] eqn:Hr; [|by exists m].
  destruct (learn_gen_holds a m s r HI Hm Hr) as [H1 H2].
  exists (learn_gen (r_gen r) m). split; [|done]. split_and!; [by eapply i_claimed|done|done].
Qed.
Lemma read_ready_sound : sound Read_ready.
Proof.
  read_base. destruct Hs as [->| ->]; [by exists m|].
  destruct (learn_ready_holds a m s Hm) as [H1 H2].
  exists (learn_ready (s_ready s) m). split; [|done]. split_and!; [|done|done]. by apply i_ready.
Qed.
Lemma blocked_sound : sound Blocked.
Proof.
  read_base. destruct x; [by exists m|]. specialize (Hs eq_refl).
  eexists. split; [done|]. destruct m as [k|]; cbn in *; [|done].
  destruct Hm as (Hl & H1 & H2 & H3). split; [done|]. by split_and!.
Qed.

(** *** Calls that leave the slots alone *)

(** The part of the state that says where a generation's bytes are. *)
Record same_slots (s s' : st) : Prop := mkSame {
  sm_ready : s_ready s' = s_ready s; sm_claimed : s_claimed s' = s_claimed s;
  sm_names : s_names s' = s_names s; sm_tombs : s_tombs s' = s_tombs s;
  sm_captures : s_captures s' = s_captures s; sm_spent : s_spent s' = s_spent s }.

Lemma custody_same s s' g : same_slots s s' → custody s' g ↔ custody s g.
Proof. intros []. unfold custody, gen_at. by rewrite sm_claimed0, sm_names0, sm_tombs0. Qed.

Lemma carried_same s s' g : same_slots s s' → carried s' g ↔ carried s g.
Proof.
  intros []. unfold carried, gen_at.
  by rewrite sm_ready0, sm_claimed0, sm_names0, sm_tombs0, sm_captures0, sm_spent0.
Qed.

Lemma numbered_mono s s' g n o : le s s' → numbered s g n o → numbered s' g n o.
Proof.
  intros Hle (b & i & H1 & H2 & H3 & H4). exists b, i. split_and!; [by eapply published_mono|lia..|done|].
  by eapply requeued_mono.
Qed.

Definition row_fact (s : st) (t : terminal) (w : row) : Prop :=
  match w_attempt w with
  | Some n => ∃ o, s_attempts s !! (w_gen w, n) = Some o ∧ row_of (o_disposition o) = Some t
  | None => w_gen w ∈ s_raced s
  end.

Lemma row_fact_mono s s' t w : le s s' → row_fact s t w → row_fact s' t w.
Proof.
  intros Hle. unfold row_fact. destruct (w_attempt w) as [n|]; [|destruct Hle; auto].
  intros (o & Ho & Hd). exists o. split; [by eapply attempts_mono|done].
Qed.

(** Growing the immutable records, with the slots as they were. *)
Lemma inv_grow s s' :
  Inv s → le s s' → same_slots s s' → s_published s' = s_published s →
  (∀ t w, row_at t s' = Some w → row_fact s' t w) →
  (∀ g n o, s_attempts s' !! (g, n) = Some o → numbered s' g n o) → Inv s'.
Proof.
  intros HI Hle Hsm Hp Hrow Ha. pose proof Hsm as [E1 E2 E3 E4 E5 E6].
  split; [| | | |done|done| |].
  - rewrite E1. intros r Hr. eapply good_mono; [done|by apply i_ready].
  - rewrite E2. intros r Hr. eapply good_mono; [done|by apply i_claimed].
  - rewrite E3. intros n r Hr. eapply good_mono; [done|by eapply i_names].
  - rewrite E3, E4, E5, E6. by apply i_named.
  - intros Hi g g' H1%(custody_same s s'); [|done]. intros H2%(custody_same s s'); [|done].
    by eapply i_custody.
  - rewrite Hp. intros Hi g Hg. rewrite carried_same by done.
    destruct (i_alive s HI Hi g Hg); [left|by right]. by eapply accounted_mono.
Qed.

Lemma life_inv_same s s' :
  Inv s → le s s' → same_slots s s' → (∀ t, row_at t s' = row_at t s) →
  s_attempts s' = s_attempts s → s_published s' = s_published s → Inv s'.
Proof.
  intros HI Hle Hsm Hrow Ha Hp. apply (inv_grow s); [done..| |].
  - intros t w Hw. rewrite Hrow in Hw. eapply row_fact_mono; [done|by apply i_rows].
  - rewrite Ha. intros g n o Ho. eapply numbered_mono; [done|by apply i_attempts].
Qed.

(** Who else is affected: a holder of the lock only by calls made without it. *)
Lemma others_stable s s' a :
  s_lock s' = s_lock s →
  (s_lock s ≠ Some a → s_ready s' = s_ready s ∧ (∀ g, incomplete = false → custody s' g → custody s g)
     ∧ (incomplete = false → s_claimed s = None → s_tombs s = ∅ → s_claimed s' = None ∧ s_tombs s' = ∅)) →
  ∀ b mb, b ≠ a → holds b mb s → holds b mb s'.
Proof.
  intros Hl Hu b [k|] Hb; cbn; rewrite Hl; [|done].
  intros (Hlb & H1 & H2 & H3). destruct Hu as (E1 & E2 & E3); [congruence|].
  split; [done|]. split_and!.
  - intros g Hi Hg g' Hg'. eapply H1; eauto.
  - intros Hi He. destruct (H2 Hi He). auto.
  - rewrite E1. done.
Qed.

Lemma same_holds s s' a m : same_slots s s' → s_lock s' = s_lock s → holds a m s → holds a m s'.
Proof.
  intros Hsm Hl. pose proof Hsm as [E1 E2 E3 E4 E5 E6]. destruct m as [k|]; cbn; rewrite Hl; [|done].
  intros (Hlb & H1 & H2 & H3). split; [done|]. unfold knows. rewrite E1, E2, E4. split_and!; [|done|done].
  intros g Hi Hg g' Hg'%(custody_same s s'); [|done]. eauto.
Qed.

(** A call that changes none of that. *)
Lemma same_sound {X} (o : op X) a m s x s' :
  Inv s → holds a m s → le s s' → same_slots s s' → s_lock s' = s_lock s →
  (∀ t, row_at t s' = row_at t s) → s_attempts s' = s_attempts s → s_published s' = s_published s →
  post m s o x m s' →
  Inv s' ∧ le s s' ∧ (∃ m', post m s o x m' s' ∧ holds a m' s') ∧ ∀ b mb, b ≠ a → holds b mb s → holds b mb s'.
Proof.
  intros. split_and!; [by eapply life_inv_same|done| |intros; by eapply same_holds].
  exists m. split; [done|]. by eapply same_holds.
Qed.

(** The growth of one field. *)
Ltac le_tac := split; cbn; try reflexivity; try set_solver; try done.
Ltac same_tac :=
  first [assumption
    |by split
    |by intros []
    |done
    |solve [le_tac]].

Ltac op_intro := intros a m s x s' HI Hm Hp Hs; cbn in Hp, Hs.
Ltac still := apply quiet; [done|done|match goal with |- ∃ _, post ?m _ _ _ _ _ ∧ _ => exists m; split; [by repeat split|done] end].

Lemma write_lease_sound c : sound (Write_lease c).
Proof. op_intro; subst s'; destruct x; [|still]. apply same_sound; same_tac. Qed.
Lemma unlink_lease_sound : sound Unlink_lease.
Proof. op_intro; subst s'; destruct x; [|still]. apply same_sound; same_tac. Qed.
Lemma mark_sound g : sound (Mark g).
Proof. op_intro; subst s'; destruct x; [|still]. apply same_sound; same_tac. Qed.
Lemma decide_sound g : sound (Decide g).
Proof.
  op_intro; subst s'; destruct x; [|still].
  apply same_sound; same_tac.
Qed.
Lemma supersede_sound g g' : sound (Supersede g g').
Proof.
  op_intro; subst s'; destruct x; [|still].
  assert (Hd : dom (s_endings s) ⊆ dom (match s_endings s !! g with
            | Some _ => s_endings s | None => <[g := g']> (s_endings s) end))
    by (destruct (s_endings s !! g); set_solver).
  apply same_sound; try same_tac. cbn. split; [done|]. intros _. apply acc_ending. cbn.
  destruct (s_endings s !! g) eqn:E; [|set_solver]. apply elem_of_dom. by eexists.
Qed.
Lemma lock_sound b : sound (Lock b).
Proof.
  op_intro; subst m. destruct x.
  - destruct Hs as [Hl ->]. split_and!; [eapply life_inv_same; [done|..]; same_tac|same_tac| |].
    + eexists. split; [done|]. cbn. split; [done|]. by split_and!.
    + intros b' [k|] Hb; cbn; [rewrite Hl; naive_solver|]. congruence.
  - destruct Hs as [_ ->]. apply quiet; [done|done|]. by exists None.
Qed.
Lemma unlock_sound : sound Unlock.
Proof.
  op_intro; subst s'; destruct Hp as [k ->]; destruct Hm as [Hl _].
  split_and!; [eapply life_inv_same; [done|..]; same_tac|same_tac| |].
  - exists None. by split.
  - intros b' [k'|] Hb; cbn; [rewrite Hl; naive_solver|done].
Qed.

(** *** Attempts and rows *)

(** A stopped output retry is a failure whatever the bounds say. *)
Lemma archive_lawful n max status final stopped :
  lawful n (mkOutcome status
    (if stopped && failing status then To_failed
     else expected_disposition status false final (Z.of_nat n) (Z.of_nat max))
    max (stopped && failing status) final) = true.
Proof.
  unfold lawful. cbn. apply bool_decide_eq_true.
  destruct (stopped && failing status) eqn:E; [|done].
  apply andb_true_iff in E as [_ E]. unfold failing in E. apply andb_true_iff in E as [E1 E2].
  unfold expected_disposition. apply negb_true_iff in E1, E2. by rewrite E1, E2.
Qed.

Lemma archive_sound g n max status d final : sound (Archive g n max status d final).
Proof.
  op_intro. destruct Hs as [[-> ->]|(stopped & -> & Hx)]; [still|].
  set (o := mkOutcome _ _ _ _ _). destruct Hp as (base & i & Hpub & Hn & Hq & ->).
  assert (Hpost : ∀ s1, (x = None ∨ x = s_attempts s1 !! (g, n)) →
            (∀ o', s_attempts s1 !! (g, n) = Some o' → o_max o' = max) →
            post m s (Archive g n max status (expected_disposition status false final (Z.of_nat n) (Z.of_nat max)) final) x m s1).
  { intros s1 H1 H2. split; [done|]. intros o' ->. destruct H1 as [|H1]; [done|]. auto. }
  destruct (s_attempts s !! (g, n)) as [o'|] eqn:Ho.
  { apply quiet; [done|done|]. exists m. split; [|done]. apply Hpost; [by rewrite Ho in *|].
    intros o'' Ho''. destruct (i_attempts s HI g n o'' Ho'') as (? & ? & Hpub' & _). congruence. }
  set (s' := set_attempts _ s) in *.
  assert (Hle : le s s'). { le_tac. by apply insert_subseteq. }
  split_and!; [|done| |].
  - apply (inv_grow s); [done|done|by split|done| |].
    + intros t w Hw. eapply row_fact_mono; [done|]. apply i_rows; [done|]. by destruct t.
    + intros g' n' o'. cbn. rewrite lookup_insert_Some. intros [[[= <- <-] <-]|[_ Ho']].
      * exists base, i. cbn. split_and!; [done|lia..|apply archive_lawful|]. by eapply requeued_mono.
      * eapply numbered_mono; [done|by apply i_attempts].
  - exists m. split; [|eapply same_holds; [|done|done]; by split]. apply Hpost; [done|].
    intros o'. cbn. rewrite lookup_insert_eq. by intros [= <-].
  - intros b mb _. apply same_holds; [by split|done].
Qed.

Lemma replace_row_sound t w : sound (Replace_row t w).
Proof.
  op_intro. subst s'. destruct x; [|still].
  set (s' := _ (set_row t (Some w) s)).
  assert (Hle : le s s') by (unfold s'; case_bool_decide; destruct t; le_tac).
  assert (Hsm : same_slots s s') by (unfold s'; case_bool_decide; destruct t; by split).
  assert (Hl : s_lock s' = s_lock s) by (unfold s'; case_bool_decide; by destruct t).
  split_and!; [|done| |].
  - apply (inv_grow s); [done|done|done|unfold s'; case_bool_decide; by destruct t| |].
    + intros t' w' Hw'.
      assert (row_at t' s = Some w' ∨ t' = t ∧ w' = w) as [H|[-> ->]].
      { unfold s' in Hw'. case_bool_decide; destruct t, t'; cbn in Hw'; naive_solver. }
      * eapply row_fact_mono; [done|by apply i_rows].
      * unfold row_fact. destruct (w_attempt w) eqn:Ew.
        -- destruct Hp as (o & Ho & Hd). exists o. split; [by eapply attempts_mono|done].
        -- unfold s'. rewrite bool_decide_true by done. destruct t; cbn; set_solver.
    + intros g n o Ho. eapply numbered_mono; [done|]. apply i_attempts; [done|].
      unfold s' in Ho. case_bool_decide; by destruct t.
  - exists m. split; [done|]. by eapply same_holds.
  - intros b mb _. by apply same_holds.
Qed.

Lemma unlink_row_sound t : sound (Unlink_row t).
Proof.
  op_intro. subst s'. destruct x; [|still].
  assert (Hle : le s (set_row t None s)) by (destruct t; le_tac).
  assert (Hsm : same_slots s (set_row t None s)) by (destruct t; by split).
  split_and!; [|done| |].
  - apply (inv_grow s); [done|done|done|by destruct t| |].
    + intros t' w' Hw'. eapply row_fact_mono; [done|]. apply i_rows; [done|].
      destruct t, t'; cbn in Hw'; done.
    + intros g n o Ho. eapply numbered_mono; [done|]. apply i_attempts; [done|]. by destruct t.
  - exists m. split; [done|]. eapply same_holds; [done|by destruct t|done].
  - intros b mb _. apply same_holds; [done|by destruct t].
Qed.

(** *** The slots *)

(** The invariant of a state whose slots changed: what has to be shown anew. *)
Lemma inv_slots s s' :
  Inv s → le s s' → s_attempts s' = s_attempts s → (∀ t, row_at t s' = row_at t s) →
  (∀ r, s_ready s' = Some r → good s' r) → (∀ r, s_claimed s' = Some r → good s' r) →
  (∀ n r, s_names s' !! n = Some r → good s' r) →
  (∀ n, n ∈ s_tombs s' ∨ n ∈ s_captures s' ∨ n ∈ s_spent s' → is_Some (s_names s' !! n)) →
  (incomplete = false → ∀ g g', custody s' g → custody s' g' → g = g') →
  (incomplete = false → ∀ g, is_Some (s_published s' !! g) → accounted s' g ∨ carried s' g) → Inv s'.
Proof.
  intros HI Hle Ha Hrow H1 H2 H3 H4 H5 H6. split; [done..| | |done|done].
  - rewrite Ha. intros g n o Ho. eapply numbered_mono; [done|by apply i_attempts].
  - intros t w Hw. rewrite Hrow in Hw. eapply row_fact_mono; [done|by apply i_rows].
Qed.

(** What was carried is carried or accounted for. *)
Lemma alive_upto s s' :
  Inv s → le s s' → s_published s' = s_published s →
  (incomplete = false → ∀ g, carried s g → accounted s' g ∨ carried s' g) →
  incomplete = false → ∀ g, is_Some (s_published s' !! g) → accounted s' g ∨ carried s' g.
Proof.
  intros HI Hle Hp Hc Hi g. rewrite Hp. intros Hg.
  destruct (i_alive s HI Hi g Hg); [left; by eapply accounted_mono|by apply Hc].
Qed.

(** Spending a name whose generation stands in a slot. *)
Lemma spend_le n g s : le s (spend n g s).
Proof. unfold spend. case_bool_decide; le_tac. Qed.

Lemma spend_same n g s :
  s_ready (spend n g s) = s_ready s ∧ s_claimed (spend n g s) = s_claimed s ∧ s_names (spend n g s) = s_names s
  ∧ s_tombs (spend n g s) = s_tombs s ∧ s_captures (spend n g s) = s_captures s ∧ s_lock (spend n g s) = s_lock s
  ∧ s_attempts (spend n g s) = s_attempts s ∧ s_published (spend n g s) = s_published s
  ∧ (∀ t, row_at t (spend n g s) = row_at t s).
Proof. unfold spend. case_bool_decide; by split_and!. Qed.

Lemma spend_spent n g s : gen_at s n = Some g → n ∈ s_spent (spend n g s).
Proof. intros H. unfold spend. rewrite bool_decide_true by done. cbn. set_solver. Qed.

Lemma spend_custody n g s g' : custody (spend n g s) g' ↔ custody s g'.
Proof.
  destruct (spend_same n g s) as (_ & E2 & E3 & E4 & _). unfold custody, gen_at. by rewrite E2, E3, E4.
Qed.

Lemma spend_holds n g s a m : holds a m s → holds a m (spend n g s).
Proof.
  destruct (spend_same n g s) as (E1 & E2 & E3 & E4 & E5 & E6 & _).
  destruct m as [k|]; cbn; rewrite E6; [|done]. unfold knows. rewrite E1, E2, E4.
  setoid_rewrite spend_custody. done.
Qed.

Lemma spend_inv n g s :
  Inv s → (r_gen <$> s_ready s = Some g ∨ r_gen <$> s_claimed s = Some g) → Inv (spend n g s).
Proof.
  intros HI Hg. pose proof (spend_le n g s) as Hle.
  destruct (spend_same n g s) as (E1 & E2 & E3 & E4 & E5 & E6 & E7 & E8 & E9).
  apply (inv_slots s); [done|done|done|done|rewrite E1|rewrite E2|rewrite E3|rewrite E3, E4, E5| |].
  - intros r Hr. eapply good_mono; [done|by apply i_ready].
  - intros r Hr. eapply good_mono; [done|by apply i_claimed].
  - intros n' r Hr. eapply good_mono; [done|by eapply i_names].
  - intros n' Hn'. unfold spend in Hn'. case_bool_decide as Hd; [|by apply i_named].
    cbn in Hn'. destruct (decide (n' = n)) as [->|]; [|apply i_named; set_solver].
    unfold gen_at in Hd. apply fmap_Some in Hd as (r & Hr & _). by eexists.
  - setoid_rewrite spend_custody. by apply i_custody.
  - apply (alive_upto s); [done..|]. intros Hi g' Hc. right. unfold carried, gen_at. rewrite E1, E2, E3, E4, E5.
    destruct Hc as [H|[H|(n' & H1 & H2 & H3)]]; [by left|by right; left|].
    destruct (decide (n' = n ∧ g' = g)) as [[-> ->]|Hne].
    + destruct Hg; [by left|by right; left].
    + right; right. exists n'. split_and!; [done| |done]. unfold spend. case_bool_decide as Hd; [|done].
      cbn. intros [->%elem_of_singleton|]%elem_of_union; [|done]. apply Hne. split; [done|]. congruence.
Qed.

(** Seeing a slot of a name's own generation beside it. *)
Lemma see_sound n s r a m :
  Inv s → holds a m s → s_ready s = Some r ∨ s_claimed s = Some r →
  Inv (spend n (r_gen r) s) ∧ le s (spend n (r_gen r) s) ∧ holds a m (spend n (r_gen r) s)
  ∧ (∀ b mb, holds b mb s → holds b mb (spend n (r_gen r) s))
  ∧ (gen_at (spend n (r_gen r) s) n = Some (r_gen r) → n ∈ s_spent (spend n (r_gen r) s)).
Proof.
  intros HI Hm Hr. split_and!.
  - apply spend_inv; [done|]. destruct Hr as [->| ->]; auto.
  - apply spend_le.
  - by apply spend_holds.
  - intros. by apply spend_holds.
  - intros Hg. apply spend_spent. unfold gen_at in *. by destruct (spend_same n (r_gen r) s) as (_ & _ & <- & _).
Qed.

(** A name in custody is of the claimed generation. *)
Lemma claimed_disposes s n c :
  Inv s → incomplete = false → s_claimed s = Some c → is_Some (s_names s !! n) → disposable (spend n (r_gen c) s) n.
Proof.
  intros HI Hi Hc [r Hr]. pose proof (spend_le n (r_gen c) s) as Hle.
  destruct (decide (n ∈ s_tombs s)) as [Ht|Ht].
  - left. apply spend_spent. unfold gen_at. rewrite Hr. cbn. f_equal.
    eapply (i_custody s HI Hi); [|by apply claimed_custody]. right. exists n. split; [done|]. unfold gen_at. by rewrite Hr.
  - right; right. eapply le_gone; [exact Hle|]. split; [by eexists|done].
Qed.

Lemma see_ready_sound n : sound (See_ready n).
Proof.
  op_intro. destruct Hs as [[-> ->]|[-> ->]]; [still|].
  destruct (s_ready s) as [r|] eqn:Hr; [|still].
  destruct (see_sound n s r a m HI Hm) as (H1 & H2 & H3 & H4 & H5); [by left|].
  split_and!; [done|done| |auto]. exists m. split; [|done]. split; [done|].
  intros q [= <-]. split; [|done]. eapply good_mono; [done|by apply i_ready].
Qed.

Lemma see_claimed_sound n : sound (See_claimed n).
Proof.
  op_intro. destruct Hs as [[-> ->]|[-> ->]]; [still|].
  destruct (s_claimed s) as [r|] eqn:Hr; [|still].
  destruct (see_sound n s r a m HI Hm) as (H1 & H2 & H3 & H4 & H5); [by right|].
  split_and!; [done|done| |auto]. exists m. split; [|done]. split; [done|].
  intros _ Hi. by eapply claimed_disposes.
Qed.

(** Filling [claimed/] with a record of the generation in custody. *)
Lemma set_claimed_le v s : le s (set_claimed v s).
Proof. le_tac. Qed.

Lemma set_claimed_custody r s g :
  custody (set_claimed (Some r) s) g → g = r_gen r ∨ custody s g.
Proof. intros [[= <-]|H]; [by left|right; by right]. Qed.

Lemma set_claimed_inv r s :
  Inv s → good s r → (incomplete = false → ∀ g, custody s g → g = r_gen r) → Inv (set_claimed (Some r) s).
Proof.
  intros HI Hg Hc. pose proof (set_claimed_le (Some r) s) as Hle.
  apply (inv_slots s); [done|done|done|by intros []| | | |exact (i_named s HI)| |].
  - intros q Hq. eapply good_mono; [done|by apply i_ready].
  - intros q [= <-]. by eapply good_mono.
  - intros n q Hq. eapply good_mono; [done|by eapply i_names].
  - intros Hi g g' H1%set_claimed_custody H2%set_claimed_custody.
    destruct H1 as [->|H1%Hc], H2 as [->|H2%Hc]; by subst.
  - apply (alive_upto s); [done..|]. intros Hi g [H|[H|H]]; [by right; left| |by right; right; right].
    right; right; left. cbn. f_equal. symmetry. apply Hc; [done|]. by left.
Qed.

Lemma claim_mode a m s r :
  holds a m s → (incomplete = false → ∀ k, m = Some k → k_empty k = false) →
  (incomplete = false → ∀ g, custody s g → g = r_gen r) →
  (incomplete = false → ∀ k, m = Some k → k_gen k = None ∨ custody s (r_gen r) ∨ k_gen k = Some (r_gen r)) →
  holds a m (set_claimed (Some r) s).
Proof.
  destruct m as [k|]; cbn; [|done]. intros (Hl & H1 & H2 & H3) He Hc Hk.
  split; [done|]. split_and!; [|by intros Hi; rewrite (He Hi k eq_refl)|done].
  intros g Hi Hg g' Hg'%set_claimed_custody.
  destruct Hg' as [->|Hg']; [|by eapply H1]. destruct (Hk Hi k eq_refl) as [|[H|]]; [congruence| |congruence].
  by eapply H1.
Qed.

Lemma replace_claimed_sound r : sound (Replace_claimed r).
Proof.
  op_intro. subst s'. destruct x; [|still]. destruct Hp as (Hg & Hk & He).
  assert (Hc : incomplete = false → ∀ g, custody s g → g = r_gen r).
  { intros Hi g Hgc. destruct (Hk Hi) as (k & -> & Hkg). destruct Hm as (_ & H1 & _). by eapply H1. }
  split_and!; [by apply set_claimed_inv|le_tac| |].
  - exists m. split; [done|]. apply claim_mode; [done|done|done|]. intros Hi k ->.
    destruct (Hk Hi) as (? & [= <-] & ?). auto.
  - apply others_stable; [done|]. intros Hl. split; [done|]. split.
    + intros g Hi. destruct (Hk Hi) as (k & -> & _). by destruct Hm as [Hm _].
    + intros Hi. destruct (Hk Hi) as (k & -> & _). by destruct Hm as [Hm _].
Qed.

(** Linking a tombstone back to [claimed/]. *)
Lemma tomb_custody s n r : n ∈ s_tombs s → s_names s !! n = Some r → custody s (r_gen r).
Proof. intros Ht Hr. right. exists n. unfold gen_at. by rewrite Hr. Qed.

Lemma link_back_sound s n r a m :
  Inv s → holds a m s → n ∈ s_tombs s → s_names s !! n = Some r → s_claimed s = None →
  let s' := spend n (r_gen r) (set_claimed (Some r) s) in
  Inv s' ∧ le s s' ∧ holds a m s' ∧ (∀ b mb, b ≠ a → holds b mb s → holds b mb s') ∧ n ∈ s_spent s'.
Proof.
  intros HI Hm Ht Hr Hn s'. pose proof (tomb_custody s n r Ht Hr) as Hc.
  assert (Hone : incomplete = false → ∀ g, custody s g → g = r_gen r).
  { intros Hi g Hg. by eapply (i_custody s HI). }
  assert (H1 : Inv (set_claimed (Some r) s)) by (apply set_claimed_inv; [done|by eapply i_names|done]).
  assert (Hempty : incomplete = false → ∀ b k, holds b (Some k) s → k_empty k = false).
  { intros Hi b k (_ & _ & H2 & _). destruct (k_empty k); [|done]. destruct H2; [done..|set_solver]. }
  assert (Hmode : ∀ b mb, holds b mb s → holds b mb (set_claimed (Some r) s)).
  { intros b mb Hb. apply claim_mode; [done| |done|by right; left].
    intros Hi k ->. by eapply Hempty. }
  split_and!.
  - apply spend_inv; [done|by right].
  - etrans; [apply (set_claimed_le (Some r))|apply spend_le].
  - by apply spend_holds, Hmode.
  - intros. by apply spend_holds, Hmode.
  - apply spend_spent. unfold gen_at. cbn. by rewrite Hr.
Qed.

Lemma link_claimed_sound n : sound (Link_claimed n).
Proof.
  op_intro. destruct x; [|subst s'; still]. destruct Hs as (r & Ht & Hr & Hn & ->).
  destruct (link_back_sound s n r a m HI Hm Ht Hr Hn) as (H1 & H2 & H3 & H4 & H5).
  split_and!; [done|done| |done]. by exists m.
Qed.

Lemma life_drop_sound s n a m :
  Inv s → holds a m s →
  let s' := set_dropped (match gen_at s n with Some g => {[ g ]} | None => ∅ end ∪ s_dropped s) s in
  Inv s' ∧ le s s' ∧ holds a m s' ∧ (∀ b mb, holds b mb s → holds b mb s')
  ∧ ∀ g, gen_at s n = Some g → accounted s' g.
Proof.
  intros HI Hm s'. assert (Hle : le s s') by le_tac. assert (Hsm : same_slots s s') by by split.
  split_and!; [apply (life_inv_same s); [done|done|done|by intros []|done|done]|done|by eapply same_holds|intros; by eapply same_holds|].
  intros g Hg. apply acc_dropped. cbn. rewrite Hg. set_solver.
Qed.

Lemma relink_sound n : sound (Relink n).
Proof.
  op_intro. destruct Hp as [r Hr]. destruct x.
  - destruct Hs as (r' & Ht & Hr' & Hn & ->).
    destruct (link_back_sound s n r' a m HI Hm Ht Hr' Hn) as (H1 & H2 & H3 & H4 & H5).
    split_and!; [done|done| |done]. exists m. split; [|done]. split; [done|]. intros _. by left.
  - destruct (s_claimed s) as [c|] eqn:Hc; subst s'.
    + destruct (see_sound n s c a m HI Hm) as (H1 & H2 & H3 & H4 & H5); [by right|].
      split_and!; [done|done| |auto]. exists m. split; [|done]. split; [done|].
      intros Hi. eapply claimed_disposes; [done..|by eexists].
    + destruct (life_drop_sound s n a m HI Hm) as (H1 & H2 & H3 & H4 & H5).
      split_and!; [done|done| |auto]. exists m. split; [|done]. split; [done|].
      intros Hi. right; left. exists (r_gen r). unfold gen_at in *. cbn.
      rewrite Hr in *. split; [done|]. by apply H5.
Qed.

Lemma verify_sound n : sound (Verify n).
Proof.
  op_intro. destruct Hp as [r Hr]. destruct (bool_decide_reflect (x = Some false)) as [->|Hx]; subst s'.
  - destruct (life_drop_sound s n a m HI Hm) as (H1 & H2 & H3 & H4 & H5).
    split_and!; [done|done| |auto]. exists m. split; [|done]. split; [done|].
    intros _. right; left. exists (r_gen r). unfold gen_at in *. cbn.
    rewrite Hr in *. split; [done|]. by apply H5.
  - apply quiet; [done|done|]. exists m. by split.
Qed.

(** Moving the claim aside. *)
Lemma entomb_sound : sound Entomb.
Proof.
  op_intro. destruct x as [n|]; [|subst s'; still]. destruct Hs as (r & Hr & Hn & ->).
  set (s' := set_claimed _ _).
  assert (Hnt : n ∉ s_tombs s) by (intros Ht; destruct (i_named s HI n) as [? ?]; [auto|congruence]).
  assert (Hns : n ∉ s_spent s) by (intros Ht; destruct (i_named s HI n) as [? ?]; [auto|congruence]).
  assert (Hle : le s s').
  { le_tac; [by apply insert_subseteq|]. intros n' [Hs Ht]. split; cbn.
    - destruct (decide (n' = n)) as [->|]; [by rewrite lookup_insert_eq|by rewrite lookup_insert_ne].
    - intros [->%elem_of_singleton|?]%elem_of_union; [destruct Hs; congruence|done]. }
  assert (Hgen : ∀ n' g, gen_at s n' = Some g → gen_at s' n' = Some g) by (intros; by eapply gen_at_mono).
  assert (Hgn : gen_at s' n = Some (r_gen r)) by (unfold gen_at; cbn; by rewrite lookup_insert_eq).
  assert (Hcus : ∀ g, custody s' g → custody s g).
  { intros g [Hg|(n' & Ht & Hg)]; [done|]. cbn in Ht. destruct (decide (n' = n)) as [->|].
    - left. rewrite Hr. cbn. congruence.
    - right. exists n'. split; [set_solver|]. unfold gen_at in *. cbn in Hg. by rewrite lookup_insert_ne in Hg. }
  split_and!; [|done| |].
  - apply (inv_slots s); [done|done|done|by intros []| |done| | | |].
    + intros q Hq. eapply good_mono; [done|by apply i_ready].
    + intros n' q. cbn. rewrite lookup_insert_Some. intros [[<- <-]|[_ Hq]]; (eapply good_mono; [done|]).
      * by apply i_claimed.
      * by eapply i_names.
    + intros n' Hn'. cbn in *. destruct (decide (n' = n)) as [->|]; [rewrite lookup_insert_eq; by eexists|].
      rewrite lookup_insert_ne by done. apply i_named; [done|]. set_solver.
    + intros Hi g g' Hg%Hcus Hg'%Hcus. by eapply i_custody.
    + apply (alive_upto s); [done..|]. intros Hi g [H|[H|(n' & H1 & H2 & H3)]]; right.
      * by left.
      * right; right. exists n. rewrite Hr in H. cbn in H. split_and!; [left; cbn; set_solver|done|congruence].
      * right; right. exists n'. split_and!; [cbn; set_solver|done|by apply Hgen].
  - exists m. split; [split; [done|]|].
    + intros ? [= <-]. cbn. rewrite lookup_insert_eq. by eexists.
    + destruct m as [k|]; cbn in *; [|done]. destruct Hm as (Hl & H1 & H2 & H3). split; [done|].
      split_and!; [|by intros Hi He; destruct (H2 Hi He); congruence|done]. intros g Hi Hg g' Hg'%Hcus. eauto.
  - apply others_stable; [done|]. intros Hl. split; [done|]. split; [auto|]. congruence.
Qed.

Lemma unlink_tomb_sound n : sound (Unlink_tomb n).
Proof.
  op_intro. subst s'. destruct x; [|still]. set (s' := set_tombs _ s).
  assert (Hle : le s s') by (le_tac; intros n' []; split; [done|set_solver]).
  assert (Hcus : ∀ g, custody s' g → custody s g).
  { intros g [Hg|(n' & Ht & Hg)]; [by left|]. right. exists n'. split; [set_solver|done]. }
  split_and!; [|done| |].
  - apply (inv_slots s); [done|done|done|by intros []| | | | | |].
    + intros q Hq. eapply good_mono; [done|by apply i_ready].
    + intros q Hq. eapply good_mono; [done|by apply i_claimed].
    + intros n' q Hq. eapply good_mono; [done|by eapply i_names].
    + intros n' Hn'. apply (i_named s HI). cbn in Hn'. set_solver.
    + intros Hi g g' Hg%Hcus Hg'%Hcus. by eapply i_custody.
    + apply (alive_upto s); [done..|]. intros Hi g [H|[H|(n' & H1 & H2 & H3)]]; [by right; left|by right; right; left|].
      destruct (decide (n' = n ∧ n' ∉ s_captures s)) as [[-> Hnc]|Hne].
      * destruct (Hp Hi) as [Hd|[(g' & Hg' & Hd)|[_ Hd]]]; [done| |set_solver].
        left. eapply accounted_mono; [done|]. congruence.
      * right; right; right. exists n'. split_and!; [|done|done]. cbn.
        destruct H1; [|by right]. destruct (decide (n' = n)); [|left; set_solver]. right.
        destruct (decide (n' ∈ s_captures s)); [done|naive_solver].
  - exists m. split; [done|]. destruct m as [k|]; cbn in *; [|done].
    destruct Hm as (Hl & H1 & H2 & H3). split; [done|]. split_and!; [|by intros Hi He; destruct (H2 Hi He); set_solver|done].
    intros g Hi Hg g' Hg'%Hcus. eauto.
  - apply others_stable; [done|]. intros Hl. split; [done|]. split; [auto|]. cbn. set_solver.
Qed.

(** *** Calls made under the lock *)

Lemma locked_others s s' a k :
  holds a (Some k) s → s_lock s' = s_lock s → ∀ b mb, b ≠ a → holds b mb s → holds b mb s'.
Proof. intros [Hl _] E. apply others_stable; [done|]. by rewrite Hl. Qed.

(** Filling an empty [ready/]. *)
Lemma set_ready_inv s r : Inv s → s_ready s = None → good s r → Inv (set_ready (Some r) s).
Proof.
  intros HI Hn Hg. assert (Hle : le s (set_ready (Some r) s)) by le_tac.
  apply (inv_slots s); [done|done|done|by intros []| | | |exact (i_named s HI)|exact (i_custody s HI)|].
  - intros q [= <-]. by eapply good_mono.
  - intros q Hq. eapply good_mono; [done|by apply i_claimed].
  - intros n q Hq. eapply good_mono; [done|by eapply i_names].
  - apply (alive_upto s); [done..|]. intros Hi g [H|H]; [by rewrite Hn in H|]. right. by right.
Qed.

Lemma learn_ready_set a m s v : holds a m s → is_Some m → holds a (learn_ready v m) (set_ready v s).
Proof.
  intros Hm [k ->]. destruct Hm as (Hl & H1 & H2 & H3). split; [done|]. split_and!; [done|done|]. by intros ? [= <-].
Qed.

Lemma link_ready_sound n r : sound (Link_ready n r).
Proof.
  op_intro. destruct Hp as [Hm' Hg]. destruct x; [|destruct Hs as [_ ->]; still|subst s'; still].
  destruct Hs as [Hn ->]. pose proof Hm' as [k ->].
  pose proof (set_ready_inv s r HI Hn Hg) as H1. set (s1 := set_ready (Some r) s) in *.
  destruct (see_sound n s1 r a (learn_ready (Some r) (Some k)) H1) as (H2 & H3 & H4 & H5 & H6);
    [by apply learn_ready_set|by left|].
  split_and!; [done|etrans; [|done]; le_tac| |].
  - eexists. split; [|done]. by split.
  - eapply locked_others; [done|]. by destruct (spend_same n (r_gen r) s1) as (_ & _ & _ & _ & _ & -> & _).
Qed.

Lemma link_claimed_ready_sound : sound Link_claimed_ready.
Proof.
  op_intro. destruct x; [|subst s'; still]. destruct Hs as (r & Hr & Hn & ->).
  pose proof (learn_ready_set a m s (Some r) Hm Hp) as Hm'. destruct Hp as [k ->].
  split_and!; [apply set_ready_inv; [done|done|by apply i_claimed]|le_tac| |by eapply locked_others].
  eexists. split; [|done]. exists r. split; [done|].
  intros ? g [= <-] Hi Hk. destruct Hm as (_ & H1 & _). eapply H1; [done|done|]. by apply claimed_custody.
Qed.

Lemma rename_ready_sound : sound Rename_ready.
Proof.
  op_intro. destruct x as [r|]; [|subst s'; still]. destruct Hp as (k & -> & Hk). destruct Hs as (Hr & ->).
  set (s' := set_claimed _ _). assert (Hle : le s s') by le_tac.
  assert (Hempty : incomplete = false → s_claimed s = None ∧ s_tombs s = ∅) by (destruct Hm as (_ & _ & H & _); auto).
  assert (Hcus : incomplete = false → ∀ g, custody s' g → g = r_gen r).
  { intros Hi g [H|(n & Ht & _)]; [cbn in H; congruence|]. destruct (Hempty Hi) as [_ He]. cbn in Ht. set_solver. }
  split_and!; [|done| |by eapply locked_others].
  - apply (inv_slots s); [done|done|done|by intros []|done| | |exact (i_named s HI)| |].
    + intros q [= <-]. eapply good_mono; [done|by apply i_ready].
    + intros n q Hq. eapply good_mono; [done|by eapply i_names].
    + intros Hi g g' H1%Hcus H2%Hcus; [congruence|done|done].
    + apply (alive_upto s); [done..|]. intros Hi g [H|[H|H]]; right.
      * right; left. cbn. by rewrite Hr in H.
      * destruct (Hempty Hi) as [He _]. by rewrite He in H.
      * by right; right.
  - eexists. split; [split; [eapply good_mono; [done|by apply i_ready]|done]|].
    destruct Hm as (Hl & _). split; [done|]. split_and!; cbn; [|done|by intros ? [= <-]].
    intros g Hi [= <-]. by apply Hcus.
Qed.

Lemma unlink_claimed_sound : sound Unlink_claimed.
Proof.
  op_intro. subst s'. destruct x; [|still]. set (s' := set_claimed None s).
  assert (Hle : le s s') by le_tac.
  assert (Hcus : ∀ g, custody s' g → custody s g) by (intros g [Hg|Hg]; [done|by right]).
  split_and!; [|done| |].
  - apply (inv_slots s); [done|done|done|by intros []| |done| |exact (i_named s HI)| |].
    + intros q Hq. eapply good_mono; [done|by apply i_ready].
    + intros n q Hq. eapply good_mono; [done|by eapply i_names].
    + intros Hi g g' Hg%Hcus Hg'%Hcus. by eapply i_custody.
    + apply (alive_upto s); [done..|]. intros Hi g [H|[H|H]]; [by right; left| |by right; right; right].
      destruct (Hp Hi) as (k & g' & -> & Hk & Hacc). destruct Hm as (_ & H1 & _ & H3).
      assert (g = g') as -> by (eapply H1; [done|done|by left]).
      destruct Hacc as [Hacc|(r & Hr & <-)]; [left; by eapply accounted_mono|].
      right; left. cbn. by rewrite (H3 _ Hr).
  - exists m. split; [done|]. destruct m as [k|]; cbn in *; [|done].
    destruct Hm as (Hl & H1 & H2 & H3). split; [done|]. split_and!; [|by intros Hi He; destruct (H2 Hi He)|done].
    intros g Hi Hg g' Hg'%Hcus. eauto.
  - apply others_stable; [done|]. intros Hl. split; [done|]. split; [auto|done].
Qed.

Lemma publish_sound r : sound (Publish r).
Proof.
  op_intro. destruct Hp as (Hm' & Hb & Hmax & Hpend). pose proof Hm' as [k ->].
  destruct x; [|subst s'; still]. destruct Hs as [Hf ->]. set (s' := set_published _ _).
  assert (Hle : le s s') by (le_tac; by apply insert_subseteq).
  assert (Hgood : good s' r).
  { split; [cbn; by rewrite lookup_insert_eq|lia| |by rewrite Hpend]. intros n Hn. lia. }
  split_and!; [|done| |by eapply locked_others].
  - apply (inv_slots s); [done|done|done|by intros []| | | |exact (i_named s HI)|exact (i_custody s HI)|].
    + by intros q [= <-].
    + intros q Hq. eapply good_mono; [done|by apply i_claimed].
    + intros n q Hq. eapply good_mono; [done|by eapply i_names].
    + intros Hi g Hg. cbn in Hg. destruct (decide (g = r_gen r)) as [->|Hne]; [by right; left|].
      rewrite lookup_insert_ne in Hg by done.
      destruct (i_alive s HI Hi g Hg) as [H|[H|H]]; [left; by eapply accounted_mono| |by right; right].
      left. apply acc_overwritten. cbn. destruct (s_ready s); set_solver.
  - eexists. split; [done|]. destruct Hm as (Hl & H1 & H2 & H3). split; [done|].
    split_and!; [done|done|]. by intros ? [= <-].
Qed.

(** *** Captures of [ready/] *)

Lemma capture_sound : sound Capture.
Proof.
  op_intro. destruct x as [n|]; [|subst s'; still]. destruct Hs as (r & Hr & Hn & ->). destruct Hp as [k ->].
  set (s' := set_ready _ _).
  assert (Hns : n ∉ s_spent s) by (intros Ht; destruct (i_named s HI n) as [? ?]; [auto|congruence]).
  assert (Hnt : n ∉ s_tombs s) by (intros Ht; destruct (i_named s HI n) as [? ?]; [auto|congruence]).
  assert (Hle : le s s').
  { le_tac; [by apply insert_subseteq|]. intros n' [Hs Ht]. split; [|done]. cbn.
    destruct (decide (n' = n)) as [->|]; [by rewrite lookup_insert_eq|by rewrite lookup_insert_ne]. }
  assert (Hgn : gen_at s' n = Some (r_gen r)) by (unfold gen_at; cbn; by rewrite lookup_insert_eq).
  assert (Hcus : ∀ g, custody s' g → custody s g).
  { intros g [Hg|(n' & Ht & Hg)]; [by left|]. right. exists n'. cbn in Ht. split; [done|]. unfold gen_at in *. cbn in Hg.
    rewrite lookup_insert_ne in Hg; [done|]. by intros ->. }
  split_and!; [|done| |by eapply locked_others].
  - apply (inv_slots s); [done|done|done|by intros []|done| | | | |].
    + intros q Hq. eapply good_mono; [done|by apply i_claimed].
    + intros n' q. cbn. rewrite lookup_insert_Some. intros [[<- <-]|[_ Hq]]; (eapply good_mono; [done|]).
      * by apply i_ready.
      * by eapply i_names.
    + intros n' Hn'. cbn in *. destruct (decide (n' = n)) as [->|]; [rewrite lookup_insert_eq; by eexists|].
      rewrite lookup_insert_ne by done. apply i_named; [done|]. set_solver.
    + intros Hi g g' Hg%Hcus Hg'%Hcus. by eapply i_custody.
    + apply (alive_upto s); [done..|]. intros Hi g [H|[H|(n' & H1 & H2 & H3)]]; right.
      * right; right. exists n. rewrite Hr in H. cbn in H. split_and!; [right; cbn; set_solver|done|congruence].
      * by right; left.
      * right; right. exists n'. split_and!; [cbn; set_solver|done|by eapply gen_at_mono].
  - eexists. split; [split; [done|]; cbn; rewrite lookup_insert_eq; by eexists|].
    destruct Hm as (Hl & H1 & H2 & H3). split; [done|]. split_and!; [|done|by intros ? [= <-]].
    intros g Hi Hg g' Hg'%Hcus. by eapply H1.
Qed.

Lemma restore_sound n : sound (Restore n).
Proof.
  op_intro. destruct Hp as [k ->]. destruct x; [|subst s'; still]. destruct Hs as (r & Hc & Hr & Hn & ->).
  pose proof (set_ready_inv s r HI Hn (i_names s HI n r Hr)) as H1. set (s1 := set_ready (Some r) s) in *.
  destruct (see_sound n s1 r a (Some (mkKnow (k_gen k) (k_empty k) None)) H1) as (H2 & H3 & H4 & H5 & H6);
    [|by left|].
  { destruct Hm as (Hl & E1 & E2 & E3). split; [done|]. by split_and!. }
  split_and!; [done|etrans; [|done]; le_tac| |].
  - eexists. split; [|done]. split; [done|]. intros _. apply H6. unfold gen_at.
    destruct (spend_same n (r_gen r) s1) as (_ & _ & -> & _). cbn. by rewrite Hr.
  - eapply locked_others; [done|]. by destruct (spend_same n (r_gen r) s1) as (_ & _ & _ & _ & _ & -> & _).
Qed.

(** Taking a capture away that nothing depends on. *)
Lemma drop_capture_sound s n a m :
  Inv s → holds a m s →
  (incomplete = false → ∀ g, gen_at s n = Some g → n ∈ s_spent s ∨ accounted s g
     ∨ r_gen <$> s_ready s = Some g ∨ r_gen <$> s_claimed s = Some g) →
  let s' := set_captures (s_captures s ∖ {[ n ]}) s in
  Inv s' ∧ le s s' ∧ holds a m s' ∧ ∀ b mb, holds b mb s → holds b mb s'.
Proof.
  intros HI Hm Hn s'. assert (Hle : le s s') by le_tac.
  split_and!; [|done|by destruct m|by intros b []].
  apply (inv_slots s); [done|done|done|by intros []| | | | |exact (i_custody s HI)|].
  - intros q Hq. eapply good_mono; [done|by apply i_ready].
  - intros q Hq. eapply good_mono; [done|by apply i_claimed].
  - intros n' q Hq. eapply good_mono; [done|by eapply i_names].
  - intros n' Hn'. apply (i_named s HI). cbn in Hn'. set_solver.
  - apply (alive_upto s); [done..|]. intros Hi g [H|[H|(n' & H1 & H2 & H3)]]; [by right; left|by right; right; left|].
    destruct (decide (n' = n)) as [->|].
    + destruct (Hn Hi g H3) as [|[H|[H|H]]]; [done|left; by eapply accounted_mono|by right; left|by right; right; left].
    + right; right; right. exists n'. split_and!; [cbn; set_solver|done|done].
Qed.

Lemma unlink_capture_sound n : sound (Unlink_capture n).
Proof.
  op_intro. subst s'. destruct x; [|still].
  destruct (drop_capture_sound s n a m HI Hm) as (H1 & H2 & H3 & H4); [auto|].
  split_and!; [done|done|by exists m|auto].
Qed.

Lemma retire_capture_sound n covered : sound (Retire_capture n covered).
Proof.
  op_intro. subst s'. destruct x; [|still]. destruct Hp as [_ Hcov].
  destruct (covered || bool_decide (n ∈ s_spent s) || bool_decide (gen_at s n = r_gen <$> s_ready s)
            || bool_decide (gen_at s n = r_gen <$> s_claimed s)) eqn:E; cbn.
  - destruct (drop_capture_sound s n a m HI Hm) as (H1 & H2 & H3 & H4); [|split_and!; [done|done|by exists m|auto]].
    intros Hi g Hg. rewrite Hg in E. rewrite !orb_true_iff, !bool_decide_eq_true in E.
    destruct E as [[[E|E]|E]|E]; [|by left|by right; right; left|by right; right; right].
    destruct (Hcov Hi E) as (g' & Hg' & Hacc). right; left. congruence.
  - destruct (life_drop_sound s n a m HI Hm) as (H1 & H2 & H3 & H4 & H5). set (s1 := set_dropped _ s) in *.
    destruct (drop_capture_sound s1 n a m H1 H3) as (H6 & H7 & H8 & H9); [intros _ g Hg; right; left; by apply H5|].
    split_and!; [done|by etrans|by exists m|auto].
Qed.

Lemma op_sound {X} (o : op X) : sound o.
Proof.
  destruct o; eauto using lock_sound, unlock_sound, choice_sound, sys_sound, cleanup_sound, run_sound,
    telemetry_sound, read_claimed_sound, read_ready_sound, read_name_sound, read_row_sound, read_lease_sound,
    decided_sound, marker_sound, ending_of_sound, attempt_at_sound, archived_sound, archive_sound,
    replace_claimed_sound, replace_row_sound, unlink_row_sound, entomb_sound, link_claimed_sound, relink_sound, verify_sound,
    mark_identity_sound, unlink_tomb_sound, link_ready_sound, see_ready_sound, see_claimed_sound, supersede_sound,
    publish_sound, blocked_sound, rename_ready_sound, link_claimed_ready_sound, unlink_claimed_sound,
    write_lease_sound, unlink_lease_sound, decide_sound, mark_sound, capture_sound, restore_sound,
    unlink_capture_sound, retire_capture_sound.
Qed.

(** ** The machine *)

Definition ok {A} (p : proc A) (m : mode) (s : st) (Q : A → mode → st → Prop) : Prop :=
  safe le (λ X, @pre X) (λ X, @post X) p m s Q.

(** Every actor's program is safe in its mode. *)
Definition sane (s : st) (P : actors) : Prop :=
  Inv s ∧ ∃ Ms : nat → mode,
    (∀ a, holds a (Ms a) s) ∧ ∀ a, match P a with
                                   | Some p => ok p (Ms a) s (λ _ m _, m = None)
                                   | None => Ms a = None
                                   end.

Definition put_mode (a : nat) (m : mode) (Ms : nat → mode) : nat → mode := λ b, if decide (b = a) then m else Ms b.

Lemma sane_call a s s' P X (o : op X) k x :
  P a = Some (Do o k) → op_step incomplete o a s x s' → sane s P → sane s' (put a (Some (k x)) P).
Proof.
  intros HP Hs (HI & Ms & Hm & Hok). pose proof (Hok a) as Ha. rewrite HP in Ha.
  destruct (Ha s) as [Hpre Hk]; [reflexivity|].
  destruct (op_sound o a (Ms a) s x s' HI (Hm a) Hpre Hs) as (HI' & Hle & (m' & Hpost & Hm') & Hothers).
  split; [done|]. exists (put_mode a m' Ms). unfold put, put_mode. split; intros b; destruct (decide (b = a)) as [->|Hb].
  - done.
  - by apply Hothers.
  - by apply Hk.
  - specialize (Hok b). destruct (P b) as [p|]; [|done]. by eapply prog_safe_mono; [apply _|..].
Qed.

Lemma sane_kill a s P : sane s P → sane (kill a s) (put a None P).
Proof.
  intros (HI & Ms & Hm & Hok).
  assert (Hle : le s (kill a s)) by (unfold kill; case_bool_decide; [le_tac|reflexivity]).
  split.
  - apply (life_inv_same s); [done|done|..]; unfold kill; case_bool_decide; try done; by intros [].
  - exists (put_mode a None Ms). unfold put, put_mode. split; intros b; destruct (decide (b = a)) as [->|Hb].
    + cbn. unfold kill. case_bool_decide; [done|]. done.
    + specialize (Hm b). unfold kill. case_bool_decide as Hl; [|done].
      destruct (Ms b) as [k|]; cbn in *; [|done]. destruct Hm as [Hm _]. congruence.
    + done.
    + specialize (Hok b). destruct (P b) as [p|]; [|done]. by eapply prog_safe_mono; [apply _|..].
Qed.

Lemma sane_start a s P c :
  (P a = None ∨ ∃ x, P a = Some (Ret x)) → ok (handler c) None s (λ _ m _, m = None) →
  sane s P → sane s (put a (Some (handler c)) P).
Proof.
  intros HP Hc (HI & Ms & Hm & Hok). split; [done|]. exists Ms. split; [done|].
  unfold put. intros b. destruct (decide (b = a)) as [->|Hb]; [|apply Hok].
  specialize (Hok a). destruct HP as [HP|[x HP]]; rewrite HP in Hok; [by rewrite Hok|].
  rewrite (Hok s); [done|reflexivity].
Qed.

Lemma sane_empty : sane empty (λ _, None).
Proof.
  split.
  - split; try done; try (intros; set_solver).
    + intros [] w; done.
    + intros _ g g' [|(n & Hn & _)]; [done|]. cbn in Hn. set_solver.
    + intros _ g [? ?]. done.
  - exists (λ _, None). by split.
Qed.
End invariant.
