(* ===== verification/LifecycleHandlers.v ===== *)
(** * The handlers are safe

    Each handler of [Lifecycle] in the logic of [LifecycleLogic]: one lemma per
    program, from the calls up to [handler_ok], and with the soundness of the
    calls the invariant of every reachable state, [reachable_inv]. *)
From S2P Require Import Prelude.
From S2P Require Import Endings.
From S2P Require Import Prog.
From S2P Require Import Lifecycle.
From S2P Require Import LifecycleLogic.

#[local] Arguments LifecycleLogic.ok : simpl never.

Section handlers.
Context (incomplete : bool).

Abbreviation ok := (LifecycleLogic.ok incomplete).

(** ** Stepping through a program *)

(** The bytes [n] are gone, or they are of [g]. *)
Definition bytes_of (s : st) (n : nat) (g : Z) : Prop := gone s n ∨ gen_at s n = Some g.

Lemma bytes_disposable s n g : bytes_of s n g → accounted s g → disposable s n.
Proof. intros [H|H] Ha; [by right; right|]. right; left. eauto. Qed.

Lemma bytes_spent s n g : bytes_of s n g → (gen_at s n = Some g → n ∈ s_spent s) → disposable s n.
Proof. intros [H|H] Ha; [by right; right|]. left. auto. Qed.

Lemma bytes_of_mono s s' n g : le s s' → bytes_of s n g → bytes_of s' n g.
Proof. intros Hle [H|H]; [left; by eapply le_gone|right; by eapply gen_at_mono]. Qed.


(** What a conclusion may publish: a row for an archived attempt, or a record
    that may stand in the queue. *)
Definition publishable (s : st) (r : rec) (attempt : nat) (d : Disposition) : Prop :=
  match row_of d with
  | Some w => ∃ o, s_attempts s !! (r_gen r, attempt) = Some o ∧ row_of (o_disposition o) = Some w
  | None => good s r
  end.

Lemma publishable_mono s s' r attempt d : le s s' → publishable s r attempt d → publishable s' r attempt d.
Proof.
  unfold publishable. intros Hle. destruct (row_of d); [|by apply good_mono].
  intros (o & Ho & Hd). exists o. split; [|done]. by eapply attempts_mono.
Qed.

Lemma is_Some_names s s' : le s s' → ∀ n, is_Some (s_names s !! n) → is_Some (s_names s' !! n).
Proof. intros Hle n [r Hr]. exists r. by eapply names_mono. Qed.

(** Carry what is permanent along [le s s']. *)
Ltac change_to H t := let H' := fresh in pose proof t as H'; cbv beta in H'; clear H; rename H' into H.
Ltac up :=
  repeat match goal with
  | Hle : le ?s ?s1 |- _ =>
      repeat match goal with
      | H : good s _ |- _ => apply (good_mono s s1 Hle) in H
      | H : accounted s _ |- _ => apply (accounted_mono s s1 Hle) in H
      | H : ended_attempt s _ |- _ => apply (ended_attempt_mono s s1 Hle) in H
      | H : disposable s _ |- _ => apply (disposable_mono s s1 Hle) in H
      | H : ?P → disposable s ?n |- _ => change_to H (λ E : P, disposable_mono s s1 Hle n (H E))
      | H : ?P → ?Q → disposable s ?n |- _ => change_to H (λ (E : P) (F : Q), disposable_mono s s1 Hle n (H E F))
      | H : ?P → accounted s ?g |- _ => change_to H (λ E : P, accounted_mono s s1 Hle g (H E))
      | H : ?P → ?g ∈ s_decisions s |- _ => change_to H (λ E : P, le_decisions s s1 Hle g (H E))
      | H : publishable s _ _ _ |- _ => apply (publishable_mono s s1 _ _ _ Hle) in H
      | H : ?P → publishable s ?r ?n ?d |- _ => change_to H (λ E : P, publishable_mono s s1 r n d Hle (H E))
      | H : bytes_of s _ _ |- _ => apply (bytes_of_mono s s1 _ _ Hle) in H
      | H : gone s _ |- _ => apply (le_gone s s1 Hle) in H
      | H : requeued s _ _ _ |- _ => apply (requeued_mono s s1 Hle) in H
      | H : s_names s !! _ = Some _ |- _ => apply (names_mono s s1 Hle) in H
      | H : is_Some (s_names s !! _) |- _ =>
          change_to H (is_Some_names s s1 Hle _ H)
      | H : gen_at s _ = Some _ |- _ => apply (gen_at_mono s s1 Hle) in H
      | H : s_attempts s !! _ = Some _ |- _ => apply (attempts_mono s s1 Hle) in H
      | H : _ ∈ s_decisions s |- _ => apply (le_decisions s s1 Hle) in H
      | H : ∀ w : row, @?P w → accounted s (@?g w) |- _ =>
          change_to H (λ w Hw, accounted_mono s s1 Hle _ (H w Hw))
      | H : _ ∈ s_spent s |- _ => apply (le_spent s s1 Hle) in H
      end;
      clear Hle; try clear s
  end.

Lemma ok_bind {A B} (p : proc A) (f : A → proc B) m s (Q : A → option know → st → Prop) R :
  ok p m s Q → (∀ a m' s', le s s' → Q a m' s' → ok (f a) m' s' R) → ok (p ≫= f) m s R.
Proof. apply prog_safe_bind; apply _. Qed.

Lemma ok_weaken {A} (p : proc A) m s (Q R : A → option know → st → Prop) :
  (∀ a m' s', le s s' → Q a m' s' → R a m' s') → ok p m s Q → ok p m s R.
Proof. apply prog_safe_weaken; apply _. Qed.

Lemma ok_ret {A} (a : A) m s (Q : A → option know → st → Prop) : (∀ s', le s s' → Q a m s') → ok (mret a) m s Q.
Proof. done. Qed.

Lemma ok_call {X B} (o : op X) (f : X → proc B) m s (R : B → option know → st → Prop) :
  (∀ s1, le s s1 → pre incomplete m s1 o ∧
     ∀ x m' s2, le s1 s2 → post incomplete m s1 o x m' s2 → ok (f x) m' s2 R) → ok (call o ≫= f) m s R.
Proof. done. Qed.

Lemma ok_last {X} (o : op X) m s (R : X → option know → st → Prop) :
  (∀ s1, le s s1 → pre incomplete m s1 o ∧
     ∀ x m' s2, le s1 s2 → post incomplete m s1 o x m' s2 → ∀ s3, le s2 s3 → R x m' s3) → ok (call o) m s R.
Proof. done. Qed.

(** The tombstone [n] may go from here on. *)
Ltac disposing n tac := match goal with |- LifecycleLogic.ok _ _ _ ?s _ => assert (disposable s n) by tac end.

(** One call that [by_pre] proves safe; what follows from its answer. *)
Ltac learn :=
  repeat match goal with
  | H : _ ∧ _ |- _ => destruct H
  | H : ?m = ?x |- _ => is_var m; subst m
  | H : ?x = ?m |- _ => is_var m; subst m
  end.
Ltac call_with by_pre :=
  first [apply ok_call | apply ok_last]; let s1 := fresh "s" in let Hle := fresh "Hle" in
  intros s1 Hle; up; split;
  [by_pre
  |let x := fresh "x" in let m := fresh "m'" in let s2 := fresh "s" in
   intros x m s2 Hle; up; let Hx := fresh "Hx" in intros Hx; cbn in Hx].
Ltac one := call_with ltac:(cbn; eauto).
Ltac ret := apply ok_ret; intros ? ?; up.
Ltac give := ret; cbn; repeat split; solve [done | eauto | by eexists | by intros].

(** The lock is held, or it is not. *)
Definition kind (nested : bool) (m : option know) : Prop := if nested then is_Some m else m = None.

(** A program that only calls what is always safe. *)
Lemma file_superseded_ok m s : ok file_superseded m s (λ _ m' _, m' = m).
Proof. unfold file_superseded. one. subst. by ret. Qed.

Lemma terminal_outcome_covers_ok g m s :
  ok (terminal_outcome_covers g) m s (λ x m' s', m' = m ∧ ∀ t, x = Got (Some t) → accounted s' g).
Proof.
  unfold terminal_outcome_covers. one. destruct Hx as [-> Hd]. destruct x as [d|]; [|by ret].
  destruct (bool_decide_reflect (w_gen <$> d = Some g)) as [Hg|_].
  - ret. split; [done|]. intros _ _. apply fmap_Some in Hg as (w & -> & ->). by apply Hd.
  - one. destruct Hx as [-> Hf]. destruct x as [f|]; [|by ret]. ret. split; [done|].
    intros t. destruct (bool_decide_reflect (w_gen <$> f = Some g)) as [Hg|_]; [|done].
    intros _. apply fmap_Some in Hg as (w & -> & ->). by apply Hf.
Qed.

(** The lock around a body: afterwards it is free again. *)
Lemma with_lock_ok {A} nested blocking (refused : A) (body : proc A) m s (Q : A → st → Prop) :
  kind nested m → (∀ s', le s s' → Q refused s') →
  (∀ a s1 s2, le s1 s2 → Q a s1 → Q a s2) →
  (∀ k s', le s s' → ok body (Some k) s' (λ a m' s', is_Some m' ∧ Q a s')) →
  ok (with_lock nested blocking refused body) m s (λ a m' s', kind nested m' ∧ Q a s').
Proof.
  intros Hk Hr Hmono Hb. unfold with_lock. destruct nested; cbn in Hk.
  - destruct Hk as [k ->]. by apply Hb.
  - subst m. apply ok_call. intros s1 H1. split; [done|]. intros x m' s2 H2 ->. destruct x.
    + eapply ok_bind; [apply Hb; by etrans|]. intros a m' s3 H3 [Hm Ha].
      apply ok_call. intros s4 H4. split; [done|]. intros _ m1 s5 H5 ->. apply ok_ret. intros s6 H6.
      split; [done|]. eapply Hmono; [|exact Ha]. by repeat (etrans; [eassumption|]).
    + apply ok_ret. intros s3 H3. split; [done|]. apply Hr. by repeat (etrans; [eassumption|]).
Qed.

(** A handler's locked body that leaves nothing to say. *)
Lemma locked_ok nested blocking (refused : out) (body : proc out) m s :
  kind nested m → (∀ k s', le s s' → ok body (Some k) s' (λ _ m' _, is_Some m')) →
  ok (with_lock nested blocking refused body) m s (λ _ m' _, kind nested m').
Proof.
  intros Hk Hb. eapply ok_weaken; [|apply (with_lock_ok nested blocking refused body m s (λ _ _, True)); [done|done|done|]].
  - by intros a m' s' _ [? _].
  - intros k s' Hle. eapply ok_weaken; [|by apply Hb]. done.
Qed.

(** A call at a program's end that only changes what it must. *)
Lemma unlink_tomb_ok n m s nested :
  kind nested m → (incomplete = false → disposable s n) →
  ok (u ← call (Unlink_tomb n); mret (if u : bool then Fine else Raised)) m s (λ _ m' _, kind nested m').
Proof. intros Hk Hn. one. subst. by ret. Qed.

Lemma same_claim_gen a b : same_claim a b = true → r_gen a = r_gen b.
Proof. unfold same_claim. rewrite !andb_true_iff, !bool_decide_eq_true. tauto. Qed.

Lemma _entomb_claim_ok expect m s nested :
  kind nested m →
  ok (_entomb_claim expect) m s (λ x m' s', kind nested m' ∧ ∀ n, x = Mine n → bytes_of s' n (r_gen expect)).
Proof.
  intros Hk. unfold _entomb_claim. one. destruct Hx as [-> Hn]. destruct x as [n|]; [|by ret].
  specialize (Hn n eq_refl). one. destruct Hx as [-> Hx]. destruct x as [[e|]|]; [| |by ret].
  - destruct Hx as [He _]. destruct (same_claim e expect) eqn:Es.
    + ret. split; [done|]. intros ? [= <-]. right. unfold gen_at. rewrite He. cbn. f_equal. by apply same_claim_gen.
    + one. destruct Hx as [-> Hx]. destruct x; [|by ret]. specialize (Hx eq_refl).
      call_with ltac:(cbn; intros _; by left). subst. destruct x; by ret.
  - ret. split; [done|]. intros ? [= <-]. by left.
Qed.

(** ** Concluding a claim *)

Lemma _publish_requeued_claim_ok r n k s :
  good s r → bytes_of s n (r_gen r) →
  ok (_publish_requeued_claim r n) (Some k) s
    (λ x m' s', is_Some m' ∧ (x = Fine → incomplete = false → disposable s' n)).
Proof.
  intros Hr Hn. unfold _publish_requeued_claim.
  eapply (ok_bind _ _ _ _ (λ x m' s', is_Some m' ∧ (x = Fine → disposable s' n))).
  - one. destruct Hx as [-> Hp]. destruct x as [[g'|]|]; [| |give].
    + disposing n ltac:((eapply bytes_disposable; eauto)).
      eapply ok_weaken; [|apply file_superseded_ok]. cbn. intros x m' s' Hle ->. up. eauto.
    + one. subst. destruct x; cbn [negb]; [|give]. one. destruct x; [|subst|subst; give].
      * destruct Hx as [-> Hx]. disposing n ltac:(eauto using bytes_spent). give.
      * one. destruct Hx as [-> Hq]. destruct x as [[q|]|]; [|give..].
        destruct (Hq q eq_refl) as [Hg Hq']. clear Hq.
        destruct (bool_decide (_ < _)%Z); [give|].
        destruct (bool_decide_reflect (r_gen q = r_gen r)) as [E|_].
        { rewrite E in Hq'. disposing n ltac:(eauto using bytes_spent). give. }
        one. destruct Hx as [-> Hx]. destruct x; [|give].
        disposing n ltac:((eapply bytes_disposable; eauto)).
        eapply ok_weaken; [|apply file_superseded_ok]. cbn. intros x m' s' Hle ->. up. eauto.
  - intros x m' s' Hle [[k' ->] Hx]. up. one. subst. destruct x0; give.
Qed.

Lemma _archive_earlier_terminal_ok g t m s : ok (_archive_earlier_terminal g t) m s (λ _ m' _, m' = m).
Proof.
  unfold _archive_earlier_terminal. one. destruct Hx as [-> _]. destruct x as [[w|]|]; [|give..].
  destruct (bool_decide (w_gen w = g)); [give|].
  eapply ok_bind; [apply file_superseded_ok|]. intros x m' s' Hle ->. give.
Qed.

(** The tombstone goes back to where it came from. *)
Lemma link_back_ok n k s :
  ok (l ← call (Link_claimed n);
      if l : bool then (u ← call (Unlink_tomb n); mret (if u : bool then Fine else Raised)) else mret Fine)
    (Some k) s (λ _ m' _, is_Some m').
Proof.
  one. destruct Hx as [-> Hx]. destruct x; [|give]. apply (unlink_tomb_ok n _ _ true); [by eexists|].
  intros _. left. auto.
Qed.

Lemma row_of_ended s g n o t : s_attempts s !! (g, n) = Some o → row_of (o_disposition o) = Some t → ended_attempt s g.
Proof. intros Ho Hd. exists n, o. split; [done|]. destruct (o_disposition o); try done; auto. Qed.

Lemma _publish_claim_destination_ok t r attempt d n k s :
  bytes_of s n (r_gen r) → publishable s r attempt d →
  ok (_publish_claim_destination t r attempt d n) (Some k) s (λ _ m' _, is_Some m').
Proof.
  intros Hn Hp. unfold _publish_claim_destination, publishable in *. set (back := if bool_decide _ then _ else _).
  assert (Hback : ∀ k s, ok back (Some k) s (λ _ m' _, is_Some m'))
    by (intros k' s'; unfold back; destruct (bool_decide _); [apply link_back_ok|give]).
  destruct (row_of d) as [w|].
  - destruct Hp as (o & Ho & Hd). pose proof (row_of_ended _ _ _ _ _ Ho Hd) as He.
    eapply ok_bind; [apply _archive_earlier_terminal_ok|]. intros retired m' s' Hle ->. up. one. subst.
    destruct x; cbn [negb]; [|apply Hback].
    eapply (ok_bind _ _ _ _ (λ _ m' _, m' = Some k)).
    { destruct retired; [one; subst; intros; done|give]. }
    intros q m' s' Hle ->. up. destruct q; cbn [negb]; [|give].
    apply (unlink_tomb_ok n _ _ true); [by eexists|]. intros _. eapply bytes_disposable; [done|]. by apply acc_attempt.
  - eapply ok_bind; [by apply _publish_requeued_claim_ok|]. intros x m' s' Hle [[k' ->] Hx]. up.
    destruct x; [|apply Hback]. apply (unlink_tomb_ok n _ _ true); [by eexists|]. auto.
Qed.

Lemma _commit_claim_ok nested t r original attempt d m s :
  kind nested m → (nested = false → t = FINISH) → r_gen r = r_gen original →
  (t = CANCEL → r_gen original ∈ s_decisions s) → (t ≠ CANCEL → _legal_destination t d = true → publishable s r attempt d) →
  ok (_commit_claim nested t r original attempt d) m s (λ _ m' _, kind nested m').
Proof.
  intros Hk Hf Hg Hc Hp. unfold _commit_claim. destruct (_legal_destination t d) eqn:El; cbn [negb]; [|give].
  assert (Hp' : t ≠ CANCEL → publishable s r attempt d) by auto. clear Hp. rename Hp' into Hp.
  eapply ok_bind; [by apply _entomb_claim_ok|]. intros e m' s' Hle [Hk' He]. up. clear m Hk.
  destruct e as [n| |]; [|give..]. specialize (He n eq_refl). rewrite <- Hg in *.
  set (guarded := bool_decide (t = FINISH) || _).
  eapply (ok_bind _ _ _ _ (λ _ m1 _, m1 = m')).
  { destruct guarded; [one; subst; intros; done|give]. }
  intros x m1 s1 Hle ->. up. destruct x; cbn [negb]; [|give]. one. subst. destruct x; cbn [negb]; [|give].
  one. subst. destruct x; cbn [negb]; [|give].
  destruct (bool_decide_reflect (t = CANCEL)) as [->|Ht].
  { apply unlink_tomb_ok; [done|]. intros _. eapply bytes_disposable; [done|]. apply acc_decision. auto. }
  specialize (Hp Ht). destruct guarded eqn:Eg.
  - apply locked_ok; [done|]. intros k s2 Hle. up. one. subst. destruct x; cbn [negb]; [|give].
    by apply _publish_claim_destination_ok.
  - destruct nested; [|unfold guarded in Eg; by rewrite bool_decide_true in Eg by auto].
    destruct Hk' as [k ->]. by apply _publish_claim_destination_ok.
Qed.

(** ** Archiving an attempt *)

Lemma late_disposition_expected status n max :
  late_disposition status n max = expected_disposition status false false (Z.of_nat n) (Z.of_nat max).
Proof.
  unfold late_disposition, expected_disposition. cbn.
  destruct (bool_decide (status = _)), (succeeded status); try done.
  by rewrite (bool_decide_ext (max ≤ n) (Z.of_nat max ≤ Z.of_nat n)%Z) by lia.
Qed.

Lemma finish_disposition_expected status n max i :
  status ≠ "withdrawn" →
  finish_disposition status n max i = expected_disposition status false i (Z.of_nat n) (Z.of_nat max).
Proof.
  intros Hs. unfold finish_disposition, expected_disposition. rewrite (bool_decide_false (status = _)) by done.
  rewrite (bool_decide_ext (max ≤ n) (Z.of_nat max ≤ Z.of_nat n)%Z) by lia. cbn.
  by rewrite orb_comm.
Qed.

(** The next attempt of a record in the queue may be archived. *)
Lemma good_archivable s r status d final :
  good s r → d = expected_disposition status false final (Z.of_nat (S (r_attempts r))) (Z.of_nat (r_max r)) →
  archivable s (r_gen r) (S (r_attempts r)) (r_max r) status d final.
Proof. intros [Hp Hb Hh _] ->. exists (r_base r), (r_interruption r). split_and!; [done|lia..|done|done]. Qed.

(** What the archived attempt allows is publishable. *)
Lemma archived_publishable s r n o :
  good s r → n = S (r_attempts r) → s_attempts s !! (r_gen r, n) = Some o → o_max o = r_max r → lawful n o = true →
  o_disposition o ≠ To_withdrawn →
  publishable s (match row_of (o_disposition o) with Some _ => r | None => _shape_as_ready_item n r end) n (o_disposition o).
Proof.
  intros [Hp Hb Hh Hpend] -> Ho Hmax Hl Hw. unfold publishable. destruct (row_of (o_disposition o)) eqn:E; [by exists o|].
  assert (o_disposition o = Requeued) as Hd by (by destruct (o_disposition o)).
  apply bool_decide_eq_true in Hl. rewrite Hd, Hmax in Hl. unfold expected_disposition in Hl.
  assert (S (r_attempts r) < r_max r).
  { destruct (bool_decide_reflect (Z.of_nat (r_max r) ≤ Z.of_nat (S (r_attempts r)))%Z); [|lia].
    rewrite orb_true_r in Hl. repeat case_match; done. }
  split; cbn; [done|lia| |done]. intros m Hm. destruct (decide (m = S (r_attempts r))) as [->|]; [by exists o|].
  apply Hh. lia.
Qed.

Lemma _archive_late_finish_ok snapshot live status m s nested :
  kind nested m → good s snapshot →
  ok (_archive_late_finish snapshot live status) m s (λ _ m' _, kind nested m').
Proof.
  intros Hk Hg. unfold _archive_late_finish. destruct (bool_decide _ && _).
  - eapply ok_weaken; [|apply file_superseded_ok]. by intros x m' s' _ ->.
  - call_with ltac:(apply good_archivable; [done|apply late_disposition_expected]).
    destruct Hx as [-> _]. destruct x; give.
Qed.

Lemma _complete_cancellation_ok nested r c m s :
  kind nested m → good s r → r_gen r = r_gen c → r_gen c ∈ s_decisions s →
  ok (_complete_cancellation nested r c) m s (λ _ m' _, kind nested m').
Proof.
  intros Hk Hr Hg Hd. unfold _complete_cancellation. apply locked_ok; [done|]. intros k s' Hle. up. clear m Hk.
  one. destruct x as [[live|]|]; [|subst; give..]. destruct Hx as (_ & -> & _).
  destruct (same_claim live c); cbn [negb]; [|give]. one. subst. destruct x; cbn [negb]; [|give]. one. subst.
  eapply (ok_bind _ _ _ _ (λ _ m1 _, is_Some m1)).
  - destruct x; [give|]. call_with ltac:(apply good_archivable; [done|reflexivity]). destruct Hx as [-> _].
    destruct x as [o|]; [|give]. destruct (_ && _); [|give]. one. subst. intros. by eexists.
  - intros proved m1 ? Hle Hm1. up. destruct proved; cbn [negb]; [|give].
    eapply ok_bind; [apply file_superseded_ok|]. intros e ? ? Hle ->. up. destruct e; [|give]. by apply (_commit_claim_ok true).
Qed.

Lemma finish_settled_ok nested r status m s :
  kind nested m → good s r → status ≠ "withdrawn" →
  ok (finish_settled nested r status) m s (λ _ m' _, kind nested m').
Proof.
  intros Hk Hr Hs. unfold finish_settled.
  call_with ltac:(apply good_archivable; [done|by apply finish_disposition_expected]).
  destruct Hx as [-> Hx]. destruct x as [o|]; [|give]. destruct (Hx o eq_refl) as [Ho Hmax].
  destruct (lawful _ o) eqn:Hl; cbn [negb]; [|give].
  apply _commit_claim_ok; [done|done|by destruct (row_of _)|done|]. intros _ Hlegal.
  apply archived_publishable; [done..|]. by intros E; rewrite E in Hlegal.
Qed.

Lemma finish_incomplete_ok nested r status m s :
  kind nested m → good s r → (nested = false → incomplete = true) → (status = "withdrawn" → r_gen r ∈ s_decisions s) →
  ok (finish_incomplete r status) m s (λ _ m' _, kind nested m').
Proof.
  intros Hk Hr Hi Hs. unfold finish_incomplete. one. destruct x as [[live|]|]; [|subst; give..].
  destruct Hx as (Hl & -> & He). destruct (same_claim live r) eqn:E.
  - assert (Hk' : kind nested (learn_gen (r_gen live) m)) by (destruct nested; cbn in *; [destruct Hk as [k ->]; by eexists|by subst]).
    call_with ltac:(idtac); [|subst; destruct x; give].
    split_and!.
    + destruct Hr. split; cbn; try done. intros [= ->]. auto.
    + intros H. destruct nested; [|by rewrite Hi in H]. destruct Hk as [k ->]. eexists. split; [done|]. cbn.
      f_equal. by apply same_claim_gen.
    + intros H k. destruct m as [k'|]; [|done]. intros [= <-]. cbn. eauto.
  - ret. destruct nested; cbn in *; [destruct Hk as [k ->]; by eexists|by subst].
Qed.

Lemma finish_lost_ok nested r status m s :
  kind nested m → ok (finish_lost r status) m s (λ _ m' _, kind nested m').
Proof.
  intros Hk. unfold finish_lost. one. subst. destruct x as [[]|]; [give| |give].
  one. subst. destruct x; cbn [negb]; [|give]. one. subst. destruct x; cbn [negb]; [|give].
  eapply ok_bind; [apply terminal_outcome_covers_ok|]. intros x m' s' Hle [-> _]. up.
  destruct x as [[t|]|]; [give| |give]. one. destruct Hx as [-> _]. destruct x as [[w|]|]; [give| |give].
  one. subst. destruct x; give.
Qed.

Lemma kind_learn_gen nested g m : kind nested m → kind nested (learn_gen g m).
Proof. destruct nested; cbn; [intros [k ->]; by eexists|by intros ->]. Qed.

Lemma kind_learn_ready nested v m : kind nested m → kind nested (learn_ready v m).
Proof. destruct nested; cbn; [intros [k ->]; by eexists|by intros ->]. Qed.

Lemma good_with_pending s r : good s r → good s (with_pending None r).
Proof. by intros []. Qed.

Lemma cleanup_action_containers_ok nested m s :
  ok (cleanup_action_containers nested) m s (λ x m' _, m' = m ∧ (x = false → nested = false → incomplete = true)).
Proof.
  unfold cleanup_action_containers. destruct nested.
  - one. subst. intros ? _. by split.
  - one. destruct Hx as [-> Hx]. intros ? _. by split; auto.
Qed.

(** A status other than a cancellation, unless the generation is decided. *)
Lemma finish_decided_ok nested r status m s :
  kind nested m → good s r → (status = "withdrawn" → r_gen r ∈ s_decisions s) →
  ok (w ← call (Decided (r_gen r));
      match w with
      | Unread => mret Raised
      | Got true => _complete_cancellation nested r r
      | Got false => finish_settled nested (with_pending None r) status
      end) m s (λ _ m' _, kind nested m').
Proof.
  intros Hk Hr Hs. apply ok_call. intros s1 Hle. up. split; [done|]. intros x m' s2 Hle (-> & Ht & Hf).
  destruct x as [[]|]; [| |give].
  - up. specialize (Ht eq_refl). by apply _complete_cancellation_ok.
  - specialize (Hf eq_refl). assert (status ≠ "withdrawn") by (intros E; auto). up.
    apply finish_settled_ok; [done|by apply good_with_pending|done].
Qed.

Lemma _worker_finish_ok nested snapshot status m s :
  kind nested m → good s snapshot → (status = "withdrawn" → r_gen snapshot ∈ s_decisions s) →
  ok (_worker_finish nested snapshot status) m s (λ _ m' _, kind nested m').
Proof.
  intros Hk Hg Hs. unfold _worker_finish. one. destruct x as [[r|]|]; [| |subst; give].
  - destruct Hx as (Hr & -> & _). apply (kind_learn_gen nested (r_gen r)) in Hk.
    revert Hk. generalize (learn_gen (r_gen r) m). clear m. intros m Hk.
    destruct (same_claim r snapshot) eqn:E; cbn [negb]; [|by apply _archive_late_finish_ok].
    apply same_claim_gen in E. rewrite <- E in Hs. one. subst. destruct x as [l|]; [|give].
    destruct (lease_conflict r l); [give|]. one. subst. destruct x; cbn [negb]; [|give].
    eapply ok_bind; [apply cleanup_action_containers_ok|]. intros x ? ? Hle [-> Hi]. up.
    destruct x; cbn [negb]; [|apply finish_incomplete_ok; auto].
    one. destruct Hx as [-> Hx]. apply finish_decided_ok; [done|done|]. intros ->. destruct Hx; [auto|done].
  - subst. one. destruct x as [[live|]|]; [| |subst; give]; destruct Hx as (_ & -> & _).
    + apply _archive_late_finish_ok; [by apply kind_learn_ready|done].
    + apply (kind_learn_ready nested None) in Hk. revert Hk. generalize (learn_ready None m). clear m. intros m Hk.
      one. subst. destruct x; cbn [negb]; [|give].
      eapply ok_bind; [apply cleanup_action_containers_ok|]. intros x ? ? Hle [-> Hi]. up.
      destruct x; cbn [negb]; [|apply finish_incomplete_ok; auto].
      one. destruct Hx as [-> Hx]. by apply finish_lost_ok.
Qed.

(** ** Reaping *)

Lemma _recover_cancelled_claim_ok r k s :
  good s r → r_gen r ∈ s_decisions s → ok (_recover_cancelled_claim r) (Some k) s (λ _ m' _, is_Some m').
Proof.
  intros Hr Hd. unfold _recover_cancelled_claim.
  assert (Hfile : ∀ k s, r_gen r ∈ s_decisions s →
    ok (e ← file_superseded;
        match e with Fine => _commit_claim true CANCEL r r 0 To_withdrawn | Raised => mret Raised end)
      (Some k) s (λ _ m' _, is_Some m')).
  { clear. intros k s Hd. eapply ok_bind; [apply file_superseded_ok|]. intros x m' s' Hle ->. up.
    destruct x; [|give]. apply (_commit_claim_ok true); [by eexists|done..]. }
  one. destruct Hx as [-> _]. destruct x as [[o|]|]; [|by apply Hfile|give].
  destruct (lawful _ o); cbn [negb]; [|give]. destruct (bool_decide (o_status o = _)); [|by apply Hfile].
  apply (_complete_cancellation_ok true); [by eexists|done..].
Qed.

Lemma expire_charged_ok r k s : good s r → ok (expire_charged r) (Some k) s (λ _ m' _, is_Some m').
Proof.
  intros Hr. unfold expire_charged. one. subst.
  call_with ltac:(apply good_archivable; [done|]).
  - rewrite (bool_decide_ext (r_max r ≤ S (r_attempts r)) (Z.of_nat (r_max r) ≤ Z.of_nat (S (r_attempts r)))%Z) by lia.
    unfold expected_disposition. destruct x, (bool_decide (_ ≤ _)%Z); done.
  - destruct Hx as [-> Hx]. destruct x0 as [o|]; [|give]. destruct (Hx o eq_refl) as [Ho Hmax].
    destruct (lawful _ o) eqn:Hl; cbn [negb]; [|give].
    apply (_commit_claim_ok true); [by eexists|done|by destruct (row_of _)|done|]. intros _ Hlegal.
    apply archived_publishable; [done..|]. by intros E; rewrite E in Hlegal.
Qed.

Lemma _expired_claim_ok r leased k s :
  good s r → k_gen k = Some (r_gen r) → (incomplete = false → k_empty k = false) →
  ok (_expired_claim r leased) (Some k) s (λ _ m' _, is_Some m').
Proof.
  intros Hr Hkg Hke. unfold _expired_claim. one. subst. destruct x; cbn [negb].
  2: { call_with ltac:(split_and!; [done|by eauto|by intros Hi ? [= <-]; auto]). subst. destruct x; give. }
  one. subst.
  eapply (ok_bind _ _ _ _ (λ t m' s', m' = Some k ∧ ∀ t', t = Got (Some t') → accounted s' (r_gen r))).
  { destruct x; [apply terminal_outcome_covers_ok|give]. }
  clear x. intros t ? ? Hle [-> Ht]. up. destruct t as [[t|]|]; [| |give].
  { match goal with |- LifecycleLogic.ok _ _ _ ?s _ => assert (accounted s (r_gen r)) by eauto end.
    eapply ok_bind; [apply file_superseded_ok|]. intros x ? ? Hle ->. up. destruct x; [|give].
    one. subst. destruct x; cbn [negb]; [|give]. call_with ltac:(cbn; by eauto 10). subst.
    destruct x; cbn [negb]; [|give]. one. subst. destruct x; give. }
  one. destruct Hx as (-> & Hd & _). destruct x as [[]|]; [by apply _recover_cancelled_claim_ok; auto| |give].
  destruct leased; [by apply expire_charged_ok|]. one. destruct Hx as [-> _].
  destruct x as [[o|]|]; [by apply expire_charged_ok| |give]. one. subst. destruct x; [by apply expire_charged_ok|].
  eapply ok_bind; [apply file_superseded_ok|]. intros x ? ? Hle ->. up. destruct x; [|give].
  apply (_commit_claim_ok true); [by eexists|done..|]. intros _ _. by destruct Hr.
Qed.

Lemma reap_aged_ok k s : ok reap_aged (Some k) s (λ _ m' _, is_Some m').
Proof.
  unfold reap_aged. one. subst. destruct x as [age|]; [|give]. one. subst. destruct x; cbn [negb]; [|give].
  one. destruct x as [[r|]|]; [|subst; give..]. destruct Hx as (Hr & -> & He).
  destruct (bool_decide _); [give|]. one. subst. destruct x as [l|]; [|give].
  destruct (lease_conflict r l); [give|]. one. subst. destruct x; cbn [negb]; [|give].
  apply _expired_claim_ok; [done|done|]. cbn. eauto.
Qed.

Lemma reap_one_ok s : ok reap_one None s (λ _ m' _, m' = None).
Proof.
  unfold reap_one. apply (locked_ok false); [done|]. intros k s' Hle. up. one.
  destruct x as [[r|]|]; [|subst; apply reap_aged_ok|subst; give]. destruct Hx as (Hr & -> & _). cbn [mbind option_bind].
  destruct (r_pending r) as [status|] eqn:Ep; [|apply reap_aged_ok]. one. subst. destruct x; [|give].
  apply (_worker_finish_ok true); [by eexists|done|]. intros ->. by destruct Hr; auto.
Qed.

(** ** Sweeping *)

Lemma retire_tombstone_ok r n live t next k s :
  s_names s !! n = Some r → (next = None → incomplete = false → disposable s n) →
  ok (retire_tombstone r n live t next) (Some k) s (λ _ m' _, is_Some m').
Proof.
  intros Hn Hd. assert (Hn' : is_Some (s_names s !! n)) by by eexists.
  assert (Hb : bytes_of s n (r_gen r)) by (right; unfold gen_at; by rewrite Hn).
  unfold retire_tombstone. one. destruct Hx as [-> _]. destruct x as [c|]; [|give].
  eapply (ok_bind _ _ _ _ (λ _ m' _, m' = Some k)).
  { destruct c; [give|]. one. subst. destruct x; cbn [negb]; [|give]. one. subst. destruct x as [l|]; [|give].
    destruct (bool_decide _); [|give]. one. by subst. }
  intros clean ? ? Hle ->. up. destruct clean; cbn [negb]; [|give].
  eapply (ok_bind _ _ _ _ (λ _ m' _, m' = Some k)).
  { destruct t as [t|]; [|give]. destruct live; [give|]. one. subst. destruct x; cbn [negb]; [|give].
    one. subst. destruct x; [|give]. one. by subst. }
  intros kept ? ? Hle ->. up. destruct kept; cbn [negb]; [|give].
  eapply (ok_bind _ _ _ _ (λ x m' s', m' = Some k ∧ (x = true → incomplete = false → disposable s' n))).
  { destruct next as [g'|].
    - one. destruct Hx as [-> Hx]. intros s' Hle. split; [done|]. intros -> _.
      eapply bytes_disposable; [by eapply bytes_of_mono|]. eapply accounted_mono; eauto.
    - ret. split; [done|auto]. }
  intros x ? ? Hle [-> Hx]. up. destruct x; cbn [negb]; [|give].
  eapply ok_bind; [apply file_superseded_ok|]. intros f ? ? Hle ->. up. destruct f; [|give].
  apply (unlink_tomb_ok n _ _ true); [by eexists|auto].
Qed.

(** What the facts beside a tombstone justify: unless a newer publication is
    named, a tombstone that will not be restored may go. *)
Definition justified (n : nat) (v : option (bool * option terminal * bool * option Z)) (s : st) : Prop :=
  ∀ live t covered, v = Some (live, t, covered, None) → live || covered = true → incomplete = false → disposable s n.

Lemma justified_disposable n live t covered next s :
  (incomplete = false → disposable s n) → justified n (Some (live, t, covered, next)) s.
Proof. by intros Hd ? ? ? _ _. Qed.

Lemma tombstone_facts_ok r n k s :
  s_names s !! n = Some r →
  ok (tombstone_facts r n) (Some k) s (λ v m' s', is_Some m' ∧ justified n v s').
Proof.
  intros Hn. assert (Hn' : is_Some (s_names s !! n)) by by eexists.
  assert (Hb : bytes_of s n (r_gen r)) by (right; unfold gen_at; by rewrite Hn).
  unfold tombstone_facts. one. destruct x as [p|]; [|subst; give]. destruct Hx as (_ & -> & _). cbn [learn_ready fmap option_fmap option_map].
  set (k1 := mkKnow _ _ _).
  eapply (ok_bind _ _ _ _ (λ c m' s', m' = Some k1 ∧ (c = Got true → incomplete = false → disposable s' n))).
  { destruct (bool_decide (is_Some p)); [give|]. one. destruct Hx as [-> Hx]. intros ? ?. up. by split. }
  intros c ? ? Hle [-> Hc]. up. destruct c as [c|]; [|give].
  eapply ok_bind; [apply terminal_outcome_covers_ok|]. intros t ? ? Hle [-> Ht]. up.
  destruct t as [t|]; [|give].
  match goal with |- LifecycleLogic.ok _ _ _ ?s _ =>
    assert (Ht' : is_Some t → accounted s (r_gen r)) by (intros [t' ->]; by apply (Ht t')) end. clear Ht.
  one. destruct Hx as (-> & Hw & _). destruct x as [w|]; [|give].
  one. destruct Hx as (-> & He). destruct x as [e|]; [|give].
  match goal with |- LifecycleLogic.ok _ _ _ ?s _ =>
    assert (He' : is_Some e → accounted s (r_gen r)) by (intros [g' ->]; eauto) end. clear He.
  destruct (bool_decide (is_Some t) || w || bool_decide (is_Some e)) eqn:E.
  { ret. split; [by eexists|]. apply justified_disposable. intros _. eapply bytes_disposable; [done|].
    rewrite !orb_true_iff, !bool_decide_eq_true in E. destruct E as [[E| ->]|E]; [auto| |auto].
    apply acc_decision. auto. }
  one. destruct Hx as [-> Hx]. destruct x as [[]|]; [| |give].
  { specialize (Hx eq_refl). ret. split; [by eexists|]. by apply justified_disposable. }
  clear Hx. one. destruct x as [q|]; [|subst; give]. destruct Hx as (Hq & -> & Hp).
  assert (Hqp : q = p) by (by apply (Hp k1)). clear Hp. cbn [learn_ready fmap option_fmap option_map].
  destruct q as [q0|].
  2: { subst p. ret. split; [by eexists|]. intros live t' covered [= <- <- <-]. cbn. rewrite orb_false_r. intros ->. auto. }
  one. destruct Hx as [-> Ha]. destruct x as [[]|]; [| |give].
  { specialize (Ha eq_refl). ret. split; [by eexists|]. apply justified_disposable. intros _.
    eapply bytes_disposable; [done|]. by apply acc_attempt. }
  one. destruct Hx as [-> Hs]. destruct x as [[q1|]|]; [|give..]. destruct (Hs q1 eq_refl) as [_ Hs'].
  destruct (bool_decide_reflect (r_gen q1 < r_gen r)%Z); [give|].
  destruct (bool_decide_reflect (r_gen r < r_gen q1)%Z).
  { ret. split; [by eexists|]. by intros ? ? ?. }
  assert (Heq : r_gen q1 = r_gen r) by lia. rewrite Heq in Hs'. disposing n ltac:(by eapply bytes_spent).
  ret. split; [by eexists|]. by apply justified_disposable.
Qed.

Lemma sweep_tombstone_ok n s : is_Some (s_names s !! n) → ok (sweep_tombstone n) None s (λ _ m' _, m' = None).
Proof.
  intros Hn. unfold sweep_tombstone. apply (locked_ok false); [done|]. intros k s' Hle. up.
  one. subst. destruct x; cbn [negb]; [|give]. one. destruct Hx as [-> Hx]. destruct x as [[r|]|]; [| |give].
  - destruct Hx as [Hr _]. eapply ok_bind; [by apply tombstone_facts_ok|]. intros v ? ? Hle [[k' ->] Hv]. cbn beta in *.
    pose proof (names_mono _ _ Hle _ _ Hr) as Hr'. apply mk_is_Some in Hr' as Hn'. clear Hle Hr.
    destruct v as [[[[live t] covered] next]|]; [|give].
    destruct (negb live && negb covered) eqn:E.
    + one. destruct Hx as [-> Hv']. destruct x as [[]|]; [|apply retire_tombstone_ok; auto|give].
      one. destruct Hx as [-> Hx]. destruct x; [apply (unlink_tomb_ok n _ _ true); [by eexists|done]|]. apply retire_tombstone_ok; [done|auto].
    + apply retire_tombstone_ok; [done|]. intros ->. eapply Hv; [done|]. by destruct live, covered.
  - one. subst. destruct x; cbn [negb]; [|give].
    eapply ok_bind; [apply file_superseded_ok|]. intros f ? ? Hle ->. up. destruct f; [|give].
    apply (unlink_tomb_ok n _ _ true); [by eexists|]. intros _. by right; right.
Qed.

Lemma _restore_ready_transition_ok n k s : ok (_restore_ready_transition n) (Some k) s (λ _ m' _, is_Some m').
Proof.
  unfold _restore_ready_transition. one. destruct Hx as [-> Hx]. destruct x; [|give]. specialize (Hx eq_refl).
  one. subst. destruct x; give.
Qed.

Lemma sweep_ready_transition_ok n s :
  is_Some (s_names s !! n) → ok (sweep_ready_transition n) None s (λ _ m' _, m' = None).
Proof.
  intros Hn. unfold sweep_ready_transition. apply (locked_ok false); [done|]. intros k s' Hle. up.
  one. subst. destruct x; cbn [negb]; [|give]. one. destruct Hx as [-> Hx]. destruct x as [[r|]|]; [|give..].
  destruct Hx as [Hr _].
  match type of Hr with s_names ?s !! _ = _ =>
    assert (Hg : gen_at s n = Some (r_gen r)) by (unfold gen_at; by rewrite Hr) end.
  apply ok_call. intros ? Hle. up. split; [done|]. intros q m1 ? Hle Hq. up.
  assert (∃ k1, m1 = Some k1) as [k1 ->] by (destruct q; [destruct Hq as (_ & -> & _)|subst]; by eexists). clear Hq.
  apply ok_call. intros ? Hle. up. split; [done|]. intros c m1 ? Hle Hc. up.
  assert (∃ k2, m1 = Some k2) as [k2 ->] by (destruct c as [[]|]; [destruct Hc as (_ & -> & _)|subst..]; by eexists). clear Hc.
  assert (Hfalse : ∀ k s, ok (call (Retire_capture n false);; mret Fine) (Some k) s (λ _ m' _, is_Some m')).
  { clear. intros k s. call_with ltac:(cbn; by eauto). subst. give. }
  destruct q as [[q|]|], c as [[c|]|]; [apply Hfalse|apply Hfalse|give|apply Hfalse| |give..].
  eapply ok_bind; [apply terminal_outcome_covers_ok|]. intros t ? ? Hle [-> Ht]. up. destruct t as [t|]; [|give].
  match goal with |- LifecycleLogic.ok _ _ _ ?s _ =>
    assert (Ht' : is_Some t → accounted s (r_gen r)) by (intros [t' ->]; by apply (Ht t')) end. clear Ht.
  one. destruct Hx as (-> & Hw & _). destruct x as [w|]; [|give].
  destruct (bool_decide (is_Some t) || w) eqn:E; [|apply _restore_ready_transition_ok].
  call_with ltac:(idtac); [|subst; give]. split; [by eexists|]. intros _ _. exists (r_gen r). split; [done|].
  rewrite orb_true_iff, bool_decide_eq_true in E. destruct E as [E| ->]; [auto|]. apply acc_decision. auto.
Qed.

(** ** Publishing, claiming, withdrawing *)

Lemma publish_ok g base max interruption s : ok (publish g base max interruption) None s (λ _ m' _, m' = None).
Proof.
  unfold publish. destruct (bool_decide_reflect (base < max)); cbn [negb]; [|give].
  apply (locked_ok false); [done|]. intros k s' Hle. up. one. subst. destruct x; cbn [negb]; [|give].
  call_with ltac:(cbn; by eauto). subst. destruct x; give.
Qed.

Lemma abandon_ok k g s : k_gen k = Some g → ok abandon (Some k) s (λ _ m' _, is_Some m').
Proof.
  intros Hk. unfold abandon. one. destruct x; [|subst; give]. destruct Hx as (r & -> & Hr).
  call_with ltac:(idtac).
  - intros Hi. eexists _, g. split_and!; [done|done|]. right. exists r. split; [done|]. by eapply Hr.
  - subst. give.
Qed.

Lemma abandon_persisted_ok k moved s :
  k_gen k = Some (r_gen moved) → k_empty k = false → good s moved →
  ok (abandon_persisted moved) (Some k) s (λ _ m' _, is_Some m').
Proof.
  intros Hk He Hg. unfold abandon_persisted. one. subst.
  call_with ltac:(split_and!; [done|by eauto|by intros _ ? [= <-]]). subst. destruct x0; [by eapply abandon_ok|give].
Qed.

Lemma drop_claim_ok k g s : k_gen k = Some g → accounted s g → ok drop_claim (Some k) s (λ _ m' _, is_Some m').
Proof.
  intros Hk Ha. unfold drop_claim. one. subst. destruct x; cbn [negb]; [|give].
  eapply ok_bind; [apply file_superseded_ok|]. intros f ? ? Hle ->. up.
  destruct f; [|give]. call_with ltac:(cbn; by eauto 10). subst. give.
Qed.

Lemma nothing_ok {A B} (p : proc A) (x : B) k s (Q : B → st → Prop) :
  (∀ s, Q x s) → ok p (Some k) s (λ _ m' _, is_Some m') →
  ok (p;; mret x) (Some k) s (λ a m' s', is_Some m' ∧ Q a s').
Proof. intros HQ Hp. eapply ok_bind; [exact Hp|]. intros ? m' s' Hle Hm. apply ok_ret. intros ? ?. by split. Qed.

Definition served (x : option rec) (s : st) : Prop := ∀ item, x = Some item → good s item.

Lemma _persist_committed_claim_ok c moved k s :
  k_gen k = Some (r_gen moved) → k_empty k = false → good s moved →
  ok (_persist_committed_claim moved c) (Some k) s (λ x m' s', is_Some m' ∧ served x s').
Proof.
  intros Hkg Hke Hg. assert (Hn : ∀ s, served None s) by done. unfold _persist_committed_claim.
  eapply ok_bind; [apply terminal_outcome_covers_ok|]. intros t ? ? Hle [-> Ht]. up. destruct t as [[t|]|]; [| |give].
  { apply nothing_ok; [done|]. eapply drop_claim_ok; [done|]. by eapply Ht. }
  one. destruct Hx as (-> & Hw & _). destruct x as [[]|]; [| |give].
  { apply nothing_ok; [done|]. eapply drop_claim_ok; [done|]. apply acc_decision. auto. }
  one. subst. destruct x; cbn [negb]; [|by apply nothing_ok; [|eapply abandon_ok]]. one. subst. destruct x; cbn [negb]; [|give].
  call_with ltac:(split_and!; [by destruct Hg|by eauto|by intros _ ? [= <-]]). subst.
  destruct x; cbn [negb]; [|by apply nothing_ok; [|eapply abandon_ok]].
  one. subst. destruct x; cbn [negb]; [|by apply nothing_ok; [|apply abandon_persisted_ok]].
  one. subst. destruct x; cbn [negb]; [|by apply nothing_ok; [|apply abandon_persisted_ok]].
  ret. split; [by eexists|]. intros ? [= <-]. by destruct Hg.
Qed.

Lemma claim_ok c s : ok (claim c) None s (λ x m' s', m' = None ∧ served x s').
Proof.
  unfold claim. apply (with_lock_ok false); [done|done| |].
  { intros a s1 s2 Hle H item E. eapply good_mono; [done|auto]. }
  intros k s' Hle. up. assert (Hn : ∀ s, served None s) by done.
  one. destruct x; subst; [give|]. call_with ltac:(cbn; by eauto). destruct x as [moved|]; [|subst; give].
  destruct Hx as [Hg ->]. one. subst. destruct x; cbn [negb]; [|by apply nothing_ok; [|eapply abandon_ok]].
  by apply _persist_committed_claim_ok.
Qed.

Lemma _withdraw_ready_ok k s : ok _withdraw_ready (Some k) s (λ _ m' _, is_Some m').
Proof.
  unfold _withdraw_ready. one. destruct x as [n|]; [|subst; give]. destruct Hx as [-> Hn]. one.
  destruct Hx as [-> Hx]. destruct x as [[r|]|]; [|apply _restore_ready_transition_ok..]. destruct Hx as [Hr _].
  match type of Hr with s_names ?s !! _ = _ =>
    assert (Hg : gen_at s n = Some (r_gen r)) by (unfold gen_at; by rewrite Hr) end.
  one. destruct Hx as (-> & Hd & _). destruct x as [[]|]; [|apply _restore_ready_transition_ok..].
  specialize (Hd eq_refl). call_with ltac:(cbn; by eauto 10 using acc_decision). subst. give.
Qed.

Lemma withdraw_ok s : ok withdraw None s (λ _ m' _, m' = None).
Proof.
  unfold withdraw. apply (locked_ok false); [done|]. intros k s' Hle. up.
  apply ok_call. intros ? Hle. up. split; [done|]. intros c m1 ? Hle Hc. up.
  assert (∃ k1, m1 = Some k1) as [k1 ->] by (destruct c as [[]|]; [destruct Hc as (_ & -> & _)|subst..]; by eexists). clear Hc.
  apply ok_call. intros ? Hle. up. split; [done|]. intros q m1 ? Hle Hq. up.
  assert (∃ k2, m1 = Some k2) as [k2 ->] by (destruct q; [destruct Hq as (_ & -> & _)|subst]; by eexists). clear Hq.
  destruct c as [c|], q as [q|]; [|give..].
  assert (Hdecided : ∀ (v : option rec) s,
    ok (match v with Some c => call (Decided (r_gen c)) | None => mret (Got true) end) (Some k2) s (λ _ m' _, m' = Some k2)).
  { clear. intros [c|] s; [|give]. one. destruct Hx as [-> _]. done. }
  eapply ok_bind; [apply Hdecided|]. intros w ? ? Hle ->. up.
  eapply ok_bind; [apply Hdecided|]. intros v ? ? Hle ->. up.
  destruct w as [w|], v as [v|]; [|give..]. destruct (match c with Some _ => _ | None => _ end); [|give].
  one. subst. destruct x; cbn [negb]; [|give]. one. destruct Hx as [-> _]. destruct x; cbn [negb]; [|give].
  one. subst. destruct x; cbn [negb]; [|give]. apply _withdraw_ready_ok.
Qed.

Lemma _defer_launch_ok item s : ok (_defer_launch item) None s (λ _ m' _, m' = None).
Proof.
  unfold _defer_launch. apply (locked_ok false); [done|]. intros k s' Hle. up. one.
  destruct x as [[r|]|]; [|subst; give..]. destruct Hx as (Hr & -> & _). destruct (same_claim r item); cbn [negb]; [|give].
  one. subst. destruct x; cbn [negb]; [|give]. apply (_commit_claim_ok true); [by eexists|done..|].
  intros _ _. by destruct Hr.
Qed.

Lemma serve_once_ok c s : ok (serve_once c) None s (λ _ m' _, m' = None).
Proof.
  unfold serve_once. eapply ok_bind; [apply claim_ok|]. intros x ? ? Hle [-> Hs]. up. destruct x as [item|]; [|give].
  specialize (Hs item eq_refl). one. destruct Hx as [-> Hx]. destruct x as [status|]; [|apply _defer_launch_ok].
  apply (_worker_finish_ok false); [done|done|]. intros ->. auto.
Qed.

Lemma handler_ok c s : startable c s → ok (handler c) None s (λ _ m' _, m' = None).
Proof.
  destruct c; cbn [handler startable]; intros Hc; eauto using publish_ok, serve_once_ok, reap_one_ok, sweep_tombstone_ok,
    sweep_ready_transition_ok, withdraw_ok.
Qed.

Lemma step_sane s P s' P' : step incomplete (s, P) (s', P') → sane incomplete s P → sane incomplete s' P'.
Proof.
  inversion 1; subst; [by eapply sane_call| |apply sane_kill].
  apply sane_start; [done|]. by apply handler_ok.
Qed.

Lemma reachable_inv s : reachable incomplete s → Inv incomplete s.
Proof.
  intros [P H]. enough (∀ x y, rtc (step incomplete) x y →
    sane incomplete x.1 x.2 → sane incomplete y.1 y.2) as HI by (destruct (HI _ _ H); [apply sane_empty|done]).
  clear. induction 1 as [|[s1 P1] [s2 P2] [s3 P3] Hs _ IH]; [done|]. intros Hx. apply IH. by eapply step_sane.
Qed.
End handlers.
