(* ===== verification/LifecycleSpec.v ===== *)
(** * What the life of a key guarantees

    Theorems about every state that publishers, workers, reapers, sweepers and
    withdrawers can reach at one key, interleaved call by call and killed
    anywhere; and runs in which the code loses a generation. *)
From S2P Require Import Prelude.
From S2P Require Import Endings.
From S2P Require Import Prog.
From S2P Require Import Lifecycle.
From S2P Require Import LifecycleLogic.
From S2P Require Import LifecycleHandlers.

(** ** Runs *)

Section runs.
Context (incomplete : bool).

(** Calls of one actor with nobody in between. *)
Inductive run (a : nat) : st → proc out → st → proc out → Prop :=
  | run_here s p : run a s p s p
  | run_call s s1 s2 X (o : op X) k x p :
      op_step incomplete o a s x s1 → run a s1 (k x) s2 p → run a s (Do o k) s2 p.

(** Actor [a] is at [p] in a reachable state. *)
Definition paused (s : st) (a : nat) (p : proc out) : Prop :=
  ∃ P, rtc (step incomplete) (empty, λ _, None) (s, P) ∧ P a = Some p.

Lemma put_same a p (P : actors) : put a p P a = p.
Proof. unfold put. by rewrite decide_True. Qed.

Lemma put_other a b p (P : actors) : b ≠ a → put a p P b = P b.
Proof. intros. unfold put. by rewrite decide_False. Qed.

Lemma kill_free a s : s_lock s ≠ Some a → kill a s = s.
Proof. intros. unfold kill. by rewrite bool_decide_false. Qed.

Lemma reachable_empty : reachable incomplete empty.
Proof. exists (λ _, None). apply rtc_refl. Qed.

Lemma paused_reachable s a p : paused s a p → reachable incomplete s.
Proof. intros (P & H & _). by exists P. Qed.

(** A run keeps what the others are doing. *)
Lemma run_steps a s p s' p' : run a s p s' p' → ∀ P, P a = Some p →
  ∃ P', rtc (step incomplete) (s, P) (s', P') ∧ P' a = Some p' ∧ ∀ b, b ≠ a → P' b = P b.
Proof.
  induction 1 as [s p|s s1 s2 X o k x p Hs _ IH]; intros P HP; [exists P; split_and!; [apply rtc_refl|done|done]|].
  destruct (IH (put a (Some (k x)) P)) as (P' & H1 & H2 & H3); [apply put_same|].
  exists P'. split_and!; [|done|intros b Hb; rewrite H3 by done; by apply put_other].
  eapply rtc_l; [|done]. by eapply step_call.
Qed.

(** A new actor, from its start. *)
Lemma start_steps a c s s' p' P :
  s_lock s ≠ Some a → startable c s → run a s (handler c) s' p' →
  ∃ P', rtc (step incomplete) (s, P) (s', P') ∧ P' a = Some p' ∧ ∀ b, b ≠ a → P' b = P b.
Proof.
  intros Hl Hc Hr. destruct (run_steps _ _ _ _ _ Hr (put a (Some (handler c)) (put a None P))) as (P' & H1 & H2 & H3);
    [apply put_same|].
  exists P'. split_and!; [|done|intros b Hb; rewrite H3 by done; by rewrite !put_other].
  eapply rtc_l; [apply (step_kill incomplete a s P)|]. rewrite kill_free by done.
  eapply rtc_l; [apply step_start; [left; apply put_same|done]|done].
Qed.

Lemma paused_start a c s s' p' :
  reachable incomplete s → s_lock s ≠ Some a → startable c s → run a s (handler c) s' p' → paused s' a p'.
Proof.
  intros [P H] Hl Hc Hr. destruct (start_steps a c s s' p' P Hl Hc Hr) as (P' & H1 & H2 & _).
  exists P'. split; [by eapply steps_app|done].
Qed.

Lemma paused_run a s p s' p' : paused s a p → run a s p s' p' → paused s' a p'.
Proof.
  intros (P & H & HP) Hr. destruct (run_steps a s p s' p' Hr P HP) as (P' & H1 & H2 & _).
  exists P'. split; [by eapply steps_app|done].
Qed.

(** Another actor comes, and dies or is done. *)
Lemma paused_other a b c s p s' p' :
  paused s a p → b ≠ a → s_lock s ≠ Some b → startable c s → run b s (handler c) s' p' → paused (kill b s') a p.
Proof.
  intros (P & H & HP) Hb Hl Hc Hr. destruct (start_steps b c s s' p' P Hl Hc Hr) as (P' & H1 & _ & H3).
  exists (put b None P'). split; [|by rewrite put_other, H3 by done].
  do 2 (eapply steps_app; [done|]). eapply rtc_l; [by apply step_kill|apply rtc_refl].
Qed.

Lemma reachable_start a c s s' p' :
  reachable incomplete s → s_lock s ≠ Some a → startable c s → run a s (handler c) s' p' →
  reachable incomplete (kill a s').
Proof.
  intros [P H] Hl Hc Hr. destruct (start_steps a c s s' p' P Hl Hc Hr) as (P' & H1 & _).
  exists (put a None P'). do 2 (eapply steps_app; [done|]). eapply rtc_l; [by apply step_kill|apply rtc_refl].
Qed.
End runs.

(** *** Playing a run *)

(** Play one call with the given answer. *)
Ltac play_call := cbn; unfold reads; repeat match goal with
  | |- _ ∧ _ => split
  | |- ∃ _, _ => eexists
  end; first [reflexivity | by right | by vm_compute | by intros | by right; eexists false; split; [reflexivity|by right] | right; split; reflexivity].
Lemma run_at incomplete a s s1 p s2 q : s = s1 → run incomplete a s1 p s2 q → run incomplete a s p s2 q.
Proof. by intros ->. Qed.

Ltac tidy := eapply run_at; [vm_compute; reflexivity|].
Ltac play x := eapply (run_call _ _ _ _ _ _ _ _ x); [solve [play_call]|tidy].

(** A publication, a claim up to its execution, a finish up to its tombstone. *)
Ltac play_publish := tidy; play true; play true; play true; play tt; apply run_here.
Ltac no_rows := play (@Got (option row) None); play (@Got (option row) None).
Ltac play_claim r rows :=
  tidy; play true; play false; play (Some r); play true; rows; play (Got false);
  do 5 play true; play tt.
Ltac play_entomb r o :=
  play (Some "failed"); play (Got (Some r)); play (Got (Some (7, 7))); play true; play true; play "failed";
  play (Got false); play (Some o); play (Some 0).

Definition claimed_row : rec := with_claim (Some (7, 7)) (new_row 1 0 2 false).
Definition waiting_row : rec := new_row 2 0 2 false.
Definition last_row : rec := with_claim (Some (7, 7)) (new_row 1 0 1 false).

Definition requeued_once : outcome := mkOutcome "failed" Requeued 2 false false.
Definition charged_out : outcome := mkOutcome "lease_lost_max_attempts" To_failed 1 false false.

(** One publication of [max] attempts. *)
Definition with_publication (max : nat) : st :=
  set_published {[ 1%Z := (0, max, false) ]} (set_ready (Some (new_row 1 0 max false)) empty).

Lemma reach_eq incomplete s s' : reachable incomplete s → s = s' → reachable incomplete s'.
Proof. by intros ? <-. Qed.

Lemma publication_reached incomplete max : 0 < max ≤ 2 → reachable incomplete (with_publication max).
Proof.
  intros H. destruct max as [|[|[|]]]; [lia| | |lia];
    match goal with |- reachable _ (with_publication ?m) =>
      eapply reach_eq; [eapply (reachable_start incomplete 0 (Publisher 1 0 m false) empty);
       [apply reachable_empty|done|done|play_publish]|by vm_compute] end.
Qed.

(** The claim is moved aside, its attempt archived as requeued. *)
Definition with_tombstone : st :=
  set_lease (Some (7, 7)) (set_attempts {[ (1%Z, 1) := requeued_once ]} (set_tombs {[ 0 ]}
    (set_names {[ 0 := claimed_row ]} (set_ready None (with_publication 2))))).

Lemma tombstone_reached : reachable false with_tombstone.
Proof.
  eapply reach_eq.
  - eapply (reachable_start false 1 (Worker (7, 7))); [apply (publication_reached false 2); lia|done|done|].
    play_claim (new_row 1 0 2 false) no_rows. play_entomb claimed_row requeued_once. apply run_here.
  - by vm_compute.
Qed.

(** The worker executes its claim. *)
Definition with_claimant : st :=
  set_lease (Some (7, 7)) (set_claimed (Some claimed_row) (set_ready None (with_publication 2))).

Lemma claimant_reached : reachable false with_claimant.
Proof.
  eapply reach_eq.
  - eapply (reachable_start false 1 (Worker (7, 7))); [apply (publication_reached false 2); lia|done|done|].
    play_claim (new_row 1 0 2 false) no_rows. apply run_here.
  - by vm_compute.
Qed.

(** A withdrawer cancelled the claimed generation, moved the waiting one aside
    to look at it, and died. *)
Definition with_capture : st :=
  set_marker (Some 1%Z) (set_decisions {[ 1%Z ]} (set_captures {[ 0 ]} (set_names {[ 0 := waiting_row ]}
    (set_published {[ 1%Z := (0, 2, false); 2%Z := (0, 2, false) ]} with_claimant)))).

Lemma capture_reached : reachable false with_capture.
Proof.
  eapply reach_eq.
  - eapply (reachable_start false 2 Withdrawer).
    { eapply (reachable_start false 0 (Publisher 2 0 2 false)); [apply claimant_reached|done|done|play_publish]. }
    { done. }
    { done. }
    tidy. play true. play (Got (Some claimed_row)). play (Got (Some waiting_row)). play (Got false). play (Got false).
    play true. play true. play true. play (Some 0). apply run_here.
  - by vm_compute.
Qed.

(** A reaper ended the generation. *)
Definition with_failure : st :=
  set_failed (Some (mkRow 1 (Some 1))) (set_attempts {[ (1%Z, 1) := charged_out ]} (set_names {[ 0 := last_row ]}
    (set_ready None (with_publication 1)))).

(** The reaper's run over a claim whose lease is stale. *)
Ltac play_reap r o :=
  tidy; play true; play (Got (Some r)); play (Got (Some (7, 7))); play true; play (Got (Some r));
  play (Got (Some (7, 7))); do 3 play true; no_rows; play (Got false); play false; play (Some o);
  play (Some 0); play (Got (Some r)); play true; play true; play true; play true;
  play (@Got (option row) None); play true; play true; play tt; apply run_here.

Lemma failure_reached incomplete : reachable incomplete with_failure.
Proof.
  eapply reach_eq.
  - eapply (reachable_start incomplete 2 Reaper).
    { eapply (reachable_start incomplete 1 (Worker (7, 7))); [apply (publication_reached incomplete 1); lia|done|done|].
      play_claim (new_row 1 0 1 false) no_rows. apply run_here. }
    { done. }
    { done. }
    play_reap last_row charged_out.
  - by vm_compute.
Qed.

(** ** What holds at every key *)

(** C9: no published generation disappears.  In every state the handlers can
    reach -- interleaved call by call, killed anywhere, any call refused -- as
    long as no unlocked finish finds its containers still running, a published
    generation has bytes in [ready/], [claimed/], a tombstone or a capture that
    stand for it, or it is accounted for: cancelled, superseded, ended by an
    archived attempt or by a finish that lost its claim, overwritten by a newer
    publication, or filed as evidence by a sweep. *)
Theorem no_generation_lost s g :
  reachable false s → is_Some (s_published s !! g) → accounted s g ∨ carried s g.
Proof. intros Hs Hg. by apply (i_alive false s (reachable_inv false s Hs)). Qed.

(** Moved aside: carried by the tombstone. *)
Lemma no_generation_lost_witness : accounted with_tombstone 1 ∨ carried with_tombstone 1.
Proof. apply no_generation_lost; [apply tombstone_reached|by eexists]. Defined.

(** C38: at most one generation of a key is in the custody of [claimed/].  In
    every state the handlers can reach -- interleaved call by call, killed
    anywhere, any call refused -- as long as no unlocked finish finds its
    containers still running, a claim beside a tombstone, or two tombstones, are
    of the same generation. *)
Theorem one_custody s g g' : reachable false s → custody s g → custody s g' → g = g'.
Proof. intros Hs. by apply (i_custody false s (reachable_inv false s Hs)). Qed.

(** A sweep linked the tombstone back to [claimed/] and died before it removed
    the tombstone. *)
Definition with_both : st := set_claimed (Some claimed_row) (set_spent {[ 0 ]} with_tombstone).

Lemma both_reached : reachable false with_both.
Proof.
  eapply reach_eq.
  - eapply (reachable_start false 2 (Tombstone_sweeper 0)); [apply tombstone_reached|done|by eexists|].
    tidy. play true. play true. play (Got (Some claimed_row)). play (@Got (option rec) None). play (Got false).
    no_rows. play (Got false). play (@Got (option Z) None). play (Got false). play (@Got (option rec) None).
    play (Some true). play true. apply run_here.
  - by vm_compute.
Qed.

(** The claim and the tombstone beside it. *)
Lemma one_custody_witness :
  ∃ c t, s_claimed with_both = Some c ∧ 0 ∈ s_tombs with_both ∧ gen_at with_both 0 = Some t ∧ r_gen c = t.
Proof.
  exists claimed_row, 1%Z. split; [reflexivity|]. split; [apply (bool_decide_unpack _); vm_compute; exact I|]. split; [reflexivity|].
  apply (one_custody with_both); [apply both_reached|left; reflexivity|right].
  exists 0. split; [apply (bool_decide_unpack _); vm_compute; exact I|reflexivity].
Defined.

(** The last attempt of a generation. *)
Lemma attempt_last incomplete s g n o :
  Inv incomplete s → s_attempts s !! (g, n) = Some o → o_disposition o ≠ Requeued →
  ∀ n' o', s_attempts s !! (g, n') = Some o' → n' ≤ n.
Proof.
  intros HI Ho Hd n' o' Ho'. destruct (decide (n' ≤ n)) as [|Hlt]; [done|].
  destruct (i_attempts _ _ HI g n o Ho) as (base & i & Hp & Hn & _ & _).
  destruct (i_attempts _ _ HI g n' o' Ho') as (base' & i' & Hp' & _ & _ & Hq').
  assert (base' = base) as -> by congruence. destruct (Hq' n) as (o1 & Ho1 & Hd1); [lia|congruence].
Qed.

(** C10: the attempts of a generation are numbered from the base its publication
    gave it, without gaps and within its bound; each has the disposition the
    rule allows it; and only the last one can be anything but requeued, so a
    generation ends once.  Also when unlocked finishes find containers running. *)
Theorem attempt_history incomplete s g n o :
  reachable incomplete s → s_attempts s !! (g, n) = Some o →
  ∃ base interruption, s_published s !! g = Some (base, o_max o, interruption)
    ∧ (base < n ≤ o_max o) ∧ lawful n o = true
    ∧ (∀ m, base < m < n → ∃ o', s_attempts s !! (g, m) = Some o' ∧ o_disposition o' = Requeued)
    ∧ (o_disposition o ≠ Requeued → ∀ n' o', s_attempts s !! (g, n') = Some o' → n' ≤ n).
Proof.
  intros Hs Ho. pose proof (reachable_inv incomplete s Hs) as HI.
  destruct (i_attempts _ _ HI g n o Ho) as (base & i & Hp & Hn & Hl & Hq). exists base, i.
  split_and!; [done|lia|lia|done|done|]. intros Hd. by eapply attempt_last.
Qed.

Lemma attempt_history_witness :
  ∃ base interruption, s_published with_failure !! 1%Z = Some (base, o_max charged_out, interruption)
    ∧ (base < 1 ≤ o_max charged_out) ∧ lawful 1 charged_out = true
    ∧ (∀ m, base < m < 1 → ∃ o', s_attempts with_failure !! (1%Z, m) = Some o' ∧ o_disposition o' = Requeued)
    ∧ (o_disposition charged_out ≠ Requeued → ∀ n' o', s_attempts with_failure !! (1%Z, n') = Some o' → n' ≤ 1).
Proof. apply (attempt_history true); [apply failure_reached|by vm_compute]. Defined.

(** C11: a terminal row tells what the immutable attempts say: it adopted an
    attempt of its generation whose disposition is this directory, and no other
    attempt of that generation could be filed in [done/] or [failed/]; or it was
    filed by a finish that had lost its claim. *)
Theorem rows_agree incomplete s t w :
  reachable incomplete s → row_at t s = Some w →
  match w_attempt w with
  | Some n => ∃ o, s_attempts s !! (w_gen w, n) = Some o ∧ row_of (o_disposition o) = Some t
      ∧ ∀ n' o', s_attempts s !! (w_gen w, n') = Some o' → is_Some (row_of (o_disposition o')) → n' = n
  | None => w_gen w ∈ s_raced s
  end.
Proof.
  intros Hs Hw. pose proof (reachable_inv incomplete s Hs) as HI. pose proof (i_rows _ _ HI t w Hw) as H.
  destruct (w_attempt w) as [n|]; [|done]. destruct H as (o & Ho & Hd). exists o. split_and!; [done|done|].
  intros n' o' Ho' [t' Hd'].
  assert (n' ≤ n) by (eapply attempt_last; [done|done|by intros E; rewrite E in Hd|done]).
  assert (n ≤ n') by (eapply attempt_last; [done|exact Ho'|by intros E; rewrite E in Hd'|done]). lia.
Qed.

Lemma rows_agree_witness :
  ∃ o, s_attempts with_failure !! (1%Z, 1) = Some o ∧ row_of (o_disposition o) = Some To_row_failed
    ∧ ∀ n' o', s_attempts with_failure !! (1%Z, n') = Some o' → is_Some (row_of (o_disposition o')) → n' = 1.
Proof. apply (rows_agree true with_failure To_row_failed (mkRow 1 (Some 1))); [apply failure_reached|done]. Defined.

(** No record waits or runs past its bound: what stands in [ready/] or
    [claimed/] belongs to a publication, has charged attempts below its bound,
    and every attempt it was charged is archived as requeued. *)
Theorem queued_within_bound incomplete s r :
  reachable incomplete s → s_ready s = Some r ∨ s_claimed s = Some r →
  s_published s !! r_gen r = Some (r_base r, r_max r, r_interruption r) ∧ (r_base r ≤ r_attempts r < r_max r)
  ∧ ∀ m, r_base r < m ≤ r_attempts r → ∃ o, s_attempts s !! (r_gen r, m) = Some o ∧ o_disposition o = Requeued.
Proof.
  intros Hs Hr. pose proof (reachable_inv incomplete s Hs) as HI.
  assert (good s r) as [Hp Hb Hh _] by (destruct Hr; [by eapply i_ready|by eapply i_claimed]).
  split_and!; [done|lia|lia|]. intros m Hm. apply Hh. lia.
Qed.

Lemma queued_within_bound_witness :
  s_published with_claimant !! 1%Z = Some (0, 2, false) ∧ (0 ≤ 0 < 2)
  ∧ ∀ m, 0 < m ≤ 0 → ∃ o, s_attempts with_claimant !! (1%Z, m) = Some o ∧ o_disposition o = Requeued.
Proof. apply (queued_within_bound false with_claimant claimed_row); [apply claimant_reached|by right]. Defined.

(** ** How the code loses a generation *)

(** The generation is published, and it is neither queued nor ended. *)
Definition lost (s : st) (g : Z) : Prop :=
  is_Some (s_published s !! g) ∧ ¬ carried s g ∧ g ∉ s_decisions s ∧ g ∉ dom (s_endings s) ∧ ¬ ended_attempt s g
  ∧ g ∉ s_raced s ∧ g ∉ s_overwritten s.

(** A check that is enough for it. *)
Definition lost_b (s : st) (g : Z) : bool :=
  bool_decide (is_Some (s_published s !! g))
  && bool_decide (r_gen <$> s_ready s ≠ Some g) && bool_decide (r_gen <$> s_claimed s ≠ Some g)
  && bool_decide (s_tombs s = ∅) && bool_decide (s_captures s = ∅)
  && bool_decide (g ∉ s_decisions s) && bool_decide (g ∉ dom (s_endings s))
  && bool_decide (map_Forall (λ k o, k.1 = g → o_disposition o ≠ To_done ∧ o_disposition o ≠ To_failed) (s_attempts s))
  && bool_decide (g ∉ s_raced s) && bool_decide (g ∉ s_overwritten s).

Lemma lost_b_sound s g : lost_b s g = true → lost s g.
Proof.
  unfold lost_b. rewrite !andb_true_iff, !bool_decide_eq_true.
  intros (((((((((H1 & H2) & H3) & H4) & H5) & H6) & H7) & H8) & H9) & H10). split_and!; try done.
  - intros [H|[H|(n & [H|H] & _)]]; [done|done|..]; set_solver.
  - intros (n & o & Ho & Hd). pose proof (map_Forall_lookup_1 _ _ _ _ H8 Ho eq_refl). naive_solver.
Qed.

(** The sweep of interrupted finishes loses a retry when the link that should
    restore its claim fails: it goes on to file the only bytes of the generation
    as evidence, beside neither a live nor a terminal record. *)
Theorem sweep_link_error_loses :
  ∃ s s', reachable false s ∧ carried s 1 ∧ startable (Tombstone_sweeper 0) s
    ∧ run false 2 s (handler (Tombstone_sweeper 0)) s' (Ret Fine) ∧ lost s' 1.
Proof.
  exists with_tombstone. eexists. split_and!; [apply tombstone_reached| |by eexists| |].
  - right; right. exists 0. split_and!; [left|..]; by vm_compute.
  - tidy. play true. play true. play (Got (Some claimed_row)). play (@Got (option rec) None). play (Got false).
    no_rows. play (Got false). play (@Got (option Z) None). play (Got false). play (@Got (option rec) None).
    play (Some true). play false. play (Got false). play true. play (Got (Some (7, 7))). play true. play true.
    play true. play tt. apply run_here.
  - apply lost_b_sound. by vm_compute.
Qed.

(** The sweep of interrupted withdrawals retires the bytes of a waiting
    generation, which nobody cancelled, when the generation before it is still
    claimed. *)
Theorem sweep_capture_loses :
  ∃ s s', reachable false s ∧ carried s 2 ∧ startable (Capture_sweeper 0) s
    ∧ run false 3 s (handler (Capture_sweeper 0)) s' (Ret Fine) ∧ lost s' 2.
Proof.
  exists with_capture. eexists. split_and!; [apply capture_reached| |by eexists| |].
  - right; right. exists 0. split_and!; [right|..]; by vm_compute.
  - tidy. play true. play true. play (Got (Some waiting_row)). play (@Got (option rec) None).
    play (Got (Some claimed_row)). play true. play tt. apply run_here.
  - apply lost_b_sound. by vm_compute.
Qed.

(** A finish that found its containers running writes its claim back without
    the lock, over the claim of a newer generation made since it looked. *)
Theorem pending_finish_loses :
  ∃ s s' p, paused true s 1 p ∧ carried s 2 ∧ run true 1 s p s' (Ret Fine) ∧ lost s' 2.
Proof.
  do 3 eexists. split_and!.
  - eapply (paused_other true 1 3 (Worker (8, 8))).
    { eapply (paused_other true 1 0 (Publisher 2 0 2 false)).
      { eapply (paused_other true 1 2 Reaper).
        { eapply (paused_start true 1 (Worker (7, 7))); [apply (publication_reached true 1); lia|done|done|].
          play_claim (new_row 1 0 1 false) no_rows. play (Some "failed"). play (Got (Some last_row)).
          play (Got (Some (7, 7))). play true. play false. play (Got (Some last_row)). apply run_here. }
        { done. }
        { done. }
        { done. }
        play_reap last_row charged_out. }
      { done. }
      { done. }
      { done. }
      play_publish. }
    { done. }
    { done. }
    { done. }
    play_claim (new_row 2 0 2 false)
      ltac:(play (@Got (option row) None); play (Got (Some (mkRow 1 (Some 1))))). apply run_here.
  - right; left. by vm_compute.
  - tidy. play true. apply run_here.
  - apply lost_b_sound. by vm_compute.
Qed.
