(* ===== verification/IdleBaseline.v ===== *)
(** * The host's own idle history ([adaptive_cpu.py])

    [idle_judgement_with_reference] and its parts: the window of idle samples
    a host keeps, and the judgement of a new sample against it.  Times are
    integer microseconds, loads exact rationals.  The statistics a verdict carries for its
    readers are left out, but not the rounding of the maximum it compares
    with. *)
From S2P Require Import Prelude.
From S2P Require Import Watch.
From S2P Require Import PoolProbe.
From Stdlib Require Import QArith.QArith QArith.Qminmax QArith.Qround.
From stdpp Require Import options.

Open Scope Z_scope.

(** The fields a host is judged idle on: [IDLE_FIELDS] for CPU admission, and
    the broker's three for GPU admission. *)
Inductive IdleField := Busy_cpus | Psi_some | Memory_some | Memory_full | Cpu_some.
Definition IDLE_FIELDS : list IdleField := [Busy_cpus; Psi_some].

Definition IDLE_WINDOW : nat := 256.
Definition PROVISIONAL_MIN_SAMPLES : nat := 5.
Definition PROVISIONAL_MIN_SPAN : Z := 180 * second.

(** The loads of one sample, and a sample the window remembers; a controller
    reads only its own fields. *)
Record Load := mkLoads { ld_busy : Q; ld_psi : Q; ld_memory_some : Q; ld_memory_full : Q; ld_cpu_some : Q }.
Definition mkLoad (busy psi : Q) : Load := mkLoads busy psi 0 0 0.
Record Kept := mkKept { kp_at : Z; kp_load : Load; kp_provisional : bool }.

Definition load_of (f : IdleField) (l : Load) : Q :=
  match f with
  | Busy_cpus => ld_busy l | Psi_some => ld_psi l
  | Memory_some => ld_memory_some l | Memory_full => ld_memory_full l | Cpu_some => ld_cpu_some l
  end.

(** What makes a history this host's: its CPU count, or its device. *)
Inductive Identity := Cpu_count (n : nat) | Device (uuid : string).
#[export] Instance Identity_eq_dec : EqDecision Identity.
Proof. solve_decision. Defined.

(** [idle-baseline.json] of this schema. *)
Record Baseline := mkBaseline {
  bl_identity : Identity; bl_samples : list Kept; bl_holders_seen : option Z; bl_excursion : option Z }.

Inductive IdleState := Holders_present | Holder_tail | Idle | Sample_not_fresh.
Inductive Basis := Measured | Unmeasured.

#[export] Instance IdleState_eq_dec : EqDecision IdleState.
Proof. solve_decision. Defined.
#[export] Instance Basis_eq_dec : EqDecision Basis.
Proof. solve_decision. Defined.

Record Verdict := mkVerdict { vd_state : IdleState; vd_exceeds : bool; vd_basis : option Basis }.

(** [round(x, 6)], half to even. *)
Definition round6 (x : Q) : Q :=
  let n := Qfloor (x * inject_Z 1000000) in
  let rest := (x * inject_Z 1000000 - inject_Z n)%Q in
  let up := match Qcompare rest (1 # 2) with Gt => true | Eq => Z.odd n | Lt => false end in
  inject_Z (if up then n + 1 else n) / inject_Z 1000000.

(** The maximum of a field over a non-empty window. *)
Fixpoint max_of (f : IdleField) (s : Kept) (rest : list Kept) : Q :=
  match rest with
  | [] => load_of f (kp_load s)
  | t :: rest => Qmax (load_of f (kp_load s)) (max_of f t rest)
  end.

(** [_judge_idle]: on what basis, and whether it exceeds. *)
Definition _judge_idle (reference : list Kept) (current : Load) (fields : list IdleField)
    (prior_rule : option (Load → bool)) : Basis * bool :=
  match reference with
  | s :: rest => (Measured, existsb (λ f, Qgt_bool (load_of f current) (round6 (max_of f s rest))) fields)
  | [] => (Unmeasured, match prior_rule with None => true | Some p => p current end)
  end.

(** [_idle_reference]: what a sample at [now] is judged against, and the
    excursion it continues. *)
Definition _idle_reference (samples : list Kept) (now : Z) (excursion : option Z) : list Kept * option Z :=
  let prior := filter (λ s, kp_at s < now) samples in
  match excursion with
  | Some run =>
      match filter (λ s, kp_at s < run) prior with
      | s :: rest => if bool_decide (now - run < run - kp_at s) then (s :: rest, Some run) else (prior, None)
      | [] => (prior, None)
      end
  | None => (prior, None)
  end.

Definition is_nil {A} (l : list A) : bool := match l with [] => true | _ => false end.

(** [l[-n:]]. *)
Definition last_n {A} (n : nat) (l : list A) : list A := drop (length l - n) l.

Definition firm (samples : list Kept) : list Kept := filter (λ s, kp_provisional s = false) samples.
Definition pending (samples : list Kept) : list Kept := filter (λ s, kp_provisional s = true) samples.
Definition strip (s : Kept) : Kept := mkKept (kp_at s) (kp_load s) false.

(** Whether this sample completes the provisional gate. *)
Definition completes (pending : list Kept) (now : Z) : bool :=
  match pending with
  | [] => false
  | s :: _ => bool_decide (PROVISIONAL_MIN_SAMPLES ≤ length pending + 1)%nat
              && bool_decide (PROVISIONAL_MIN_SPAN ≤ now - kp_at s)
  end.

(** The history that is this host's: another identity starts over. *)
Definition of_identity (state : option Baseline) (identity : Identity) : Baseline :=
  match state with
  | Some b => if bool_decide (bl_identity b = identity) then b else mkBaseline identity [] None None
  | None => mkBaseline identity [] None None
  end.

(** [idle_judgement_with_reference], and whether it took the flags off the
    samples it was passed: its copy of the state is shallow, so that the
    caller's samples lose them too. *)
Definition idle_judgement_with_reference (state : option Baseline) (now : Z) (current : Load) (interval : Z)
    (holders : bool) (identity : Identity) (fields : list IdleField) (prior_rule : option (Load → bool))
  : Verdict * Baseline * option (list Kept) * bool :=
  let state := of_identity state identity in
  let samples := bl_samples state in
  let seen := bl_holders_seen state in
  if holders then
    let '(basis, exceeds) := _judge_idle (firm samples) current fields prior_rule in
    (mkVerdict Holders_present exceeds (Some basis),
     mkBaseline identity samples
       (match seen with Some t => if bool_decide (t < now) then Some now else seen | None => Some now end)
       (bl_excursion state),
     Some (firm samples), false)
  else if match seen with Some t => bool_decide (now - interval ≤ t) | None => false end then
    (mkVerdict Holder_tail true None, state, None, false)
  else
    let gate := is_nil (firm samples) && completes (pending samples) now in
    let '(reference, run) :=
      if negb (is_nil (firm samples)) then _idle_reference (firm samples) now (bl_excursion state)
      else (if gate then pending samples else [], None) in
    let '(basis, exceeds) := _judge_idle reference current fields prior_rule in
    let refused_seed := bool_decide (basis = Unmeasured) && exceeds && bool_decide (is_Some prior_rule) in
    let verdict := mkVerdict Idle exceeds (Some basis) in
    let samples := if gate then strip <$> samples else samples in
    if negb (bool_decide (Forall (λ s, kp_at s ≠ now) samples)) then
      (verdict, mkBaseline identity samples seen (bl_excursion state), Some reference, gate)
    else
      (verdict,
       mkBaseline identity (last_n IDLE_WINDOW (samples ++ [mkKept now current refused_seed])) seen
         (if refused_seed then (if gate then bl_excursion state else None)
          else if exceeds && negb (is_nil reference) then Some (default now run) else None),
       Some reference, gate).

(** [Controller.idle]'s prior rule on a host of [cpus] CPUs. *)
Definition prior_rule (cpus : nat) (l : Load) : bool :=
  Qgt_bool (ld_busy l) ((5 # 100) * inject_Z (Z.of_nat cpus)) || Qle_bool (10 # 100) (ld_psi l).

#[export] Instance Q_eq_dec : EqDecision Q.
Proof. intros x y. unfold Decision. decide equality; [apply Pos.eq_dec|apply Z.eq_dec]. Defined.
#[export] Instance Load_eq_dec : EqDecision Load.
Proof. solve_decision. Defined.
#[export] Instance Kept_eq_dec : EqDecision Kept.
Proof. solve_decision. Defined.
#[export] Instance Baseline_eq_dec : EqDecision Baseline.
Proof. solve_decision. Defined.

(** What the caller's state has become by the call. *)
Definition shared (stripped : bool) (state : option Baseline) : option Baseline :=
  if stripped then
    (λ b, mkBaseline (bl_identity b) (strip <$> bl_samples b) (bl_holders_seen b) (bl_excursion b)) <$> state
  else state.

(** [Controller.idle]: the verdict, its reference, and [idle-baseline.json]
    afterwards; it is written only when the history differs from the state
    that was read, as the judgement left it. *)
Definition idle (cpus : nat) (file : option Baseline) (now : Z) (current : Load) (interval : Z) (holders : bool)
  : Verdict * option (list Kept) * option Baseline :=
  let '(verdict, updated, reference, stripped) :=
    idle_judgement_with_reference file now current interval holders (Cpu_count cpus) IDLE_FIELDS (Some (prior_rule cpus)) in
  (verdict, reference, if bool_decide (Some updated = shared stripped file) then file else Some updated).
