(* ===== verification/IdleBaselineSpec.v ===== *)
(** * What an idle history can and cannot forgive

    Theorems about [IdleBaseline]: the window stays a window, a load the prior
    rule refuses cannot pass for its own baseline before the provisional gate,
    and an excursion is refused as long as it runs inside what the window
    remembers. *)
From S2P Require Import Prelude.
From S2P Require Import Watch.
From S2P Require Import PoolProbe.
From S2P Require Import IdleBaseline.
From Stdlib Require Import QArith.QArith QArith.Qround QArith.Qminmax Lqa.
From stdpp Require Import options.

Open Scope Z_scope.

(** ** Sequences of judgements *)

(** One judgement of the CPU controller. *)
Record Ask := mkAsk { as_at : Z; as_load : Load; as_interval : Z; as_holders : bool }.

Definition ask (cpus : nat) (file : option Baseline) (q : Ask) : Verdict * option (list Kept) * option Baseline :=
  idle cpus file (as_at q) (as_load q) (as_interval q) (as_holders q).

Fixpoint judged (cpus : nat) (file : option Baseline) (qs : list Ask) : list Verdict * option Baseline :=
  match qs with
  | [] => ([], file)
  | q :: qs =>
      let '(v, _, file) := ask cpus file q in
      let '(vs, file) := judged cpus file qs in (v :: vs, file)
  end.

Lemma judged_cons cpus file q qs :
  judged cpus file (q :: qs)
  = ((ask cpus file q).1.1 :: (judged cpus (ask cpus file q).2 qs).1, (judged cpus (ask cpus file q).2 qs).2).
Proof. cbn [judged]. destruct (ask cpus file q) as [[v r] b]. cbn [fst snd]. by destruct (judged cpus b qs). Qed.

(** The judgement an ask makes. *)
Definition judgement (cpus : nat) (file : option Baseline) (q : Ask) : Verdict * Baseline * option (list Kept) * bool :=
  idle_judgement_with_reference file (as_at q) (as_load q) (as_interval q) (as_holders q) (Cpu_count cpus) IDLE_FIELDS
    (Some (prior_rule cpus)).

Lemma ask_verdict cpus file q : (ask cpus file q).1.1 = (judgement cpus file q).1.1.1.
Proof. unfold ask, idle, judgement. by destruct (idle_judgement_with_reference _ _ _ _ _ _ _ _) as [[[v b] r] s]. Qed.

(** The file holds the history afterwards, or already did but for flags. *)
Lemma ask_file cpus file q :
  (ask cpus file q).2 = Some (judgement cpus file q).1.1.2
  ∨ (ask cpus file q).2 = file ∧ Some (judgement cpus file q).1.1.2 = shared (judgement cpus file q).2 file.
Proof.
  unfold ask, idle, judgement. destruct (idle_judgement_with_reference _ _ _ _ _ _ _ _) as [[[v b] r] s]. cbn.
  destruct (bool_decide_reflect (Some b = shared s file)); [by right|by left].
Qed.

Lemma filter_every {A} (P : A → Prop) `{!∀ x, Decision (P x)} (l : list A) : Forall P l → filter P l = l.
Proof. induction 1 as [|x l Hx _ IH]; [done|]. by rewrite filter_cons_True, IH. Qed.

Lemma filter_nothing {A} (P : A → Prop) `{!∀ x, Decision (P x)} (l : list A) : Forall (λ x, ¬ P x) l → filter P l = [].
Proof. induction 1 as [|x l Hx _ IH]; [done|]. by rewrite filter_cons_False, IH. Qed.

(** ** The window *)

Lemma last_n_length {A} n (l : list A) : (length (last_n n l) ≤ n)%nat.
Proof. unfold last_n. rewrite length_drop. lia. Qed.

Lemma last_n_sublist {A} n (l : list A) : last_n n l `sublist_of` l.
Proof. apply sublist_drop. Qed.

Lemma last_n_all {A} n (l : list A) : (length l ≤ n)%nat → last_n n l = l.
Proof. intros. unfold last_n. by replace (length l - n)%nat with 0%nat by lia. Qed.

Lemma Forall_last_n {A} (P : A → Prop) n (l : list A) : Forall P l → Forall P (last_n n l).
Proof. apply Forall_drop. Qed.

(** At most [IDLE_WINDOW] samples, no stamp twice, of the host asked about. *)
Record windowed (cpus : nat) (b : Baseline) : Prop := mkWindowed {
  wi_identity : bl_identity b = Cpu_count cpus;
  wi_bounded : (length (bl_samples b) ≤ IDLE_WINDOW)%nat;
  wi_stamps : NoDup (kp_at <$> bl_samples b) }.

Definition windowed_opt (b : option Baseline) : Prop :=
  match b with Some b => ∃ cpus, windowed cpus b | None => True end.

Lemma of_identity_windowed b cpus : windowed_opt b → windowed cpus (of_identity b (Cpu_count cpus)).
Proof.
  intros Hb. destruct b as [b|]; cbn in *; [|split; cbn; [done|lia|constructor]].
  destruct (bool_decide_reflect (bl_identity b = Cpu_count cpus)) as [E|_]; [|split; cbn; [done|lia|constructor]].
  destruct Hb as (n & Hb). assert (n = cpus) as <-; [|done]. pose proof (wi_identity _ _ Hb). congruence.
Qed.

Lemma strip_stamps (samples : list Kept) : kp_at <$> (strip <$> samples) = kp_at <$> samples.
Proof. rewrite <- list_fmap_compose. by apply list_fmap_ext. Qed.

Lemma kept_windowed (samples : list Kept) s :
  NoDup (kp_at <$> samples) → Forall (λ t, kp_at t ≠ kp_at s) samples →
  NoDup (kp_at <$> last_n IDLE_WINDOW (samples ++ [s])).
Proof.
  intros Hn Hs. eapply sublist_NoDup; [|apply fmap_sublist, last_n_sublist]. rewrite fmap_app, NoDup_app.
  split_and!; [done| |apply NoDup_singleton]. intros x (t & -> & Ht)%list_elem_of_fmap.
  rewrite Forall_forall in Hs. intros ?%list_elem_of_singleton. by eapply Hs.
Qed.

Lemma judgement_windowed cpus file q : windowed_opt file → windowed cpus (judgement cpus file q).1.1.2.
Proof.
  intros Hb. apply (of_identity_windowed file cpus) in Hb as [Hi Hl Hn].
  unfold judgement, idle_judgement_with_reference. destruct (as_holders q).
  - destruct (_judge_idle _ _ _ _). by split.
  - destruct (match bl_holders_seen _ with Some _ => _ | None => _ end); [by split|].
    set (gate := is_nil _ && _). destruct (if negb (is_nil _) then _ else _) as [reference run].
    destruct (_judge_idle _ _ _ _) as [basis exceeds]. set (refused := _ && _ && _).
    set (samples := if gate then _ else _).
    assert (length samples ≤ IDLE_WINDOW ∧ NoDup (kp_at <$> samples))%nat as [Hl' Hn'].
    { subst samples. destruct gate; [|done]. by rewrite length_fmap, strip_stamps. }
    destruct (bool_decide_reflect (Forall (λ s, kp_at s ≠ as_at q) samples)) as [Ha|_]; cbn [negb fst snd]; [|by split].
    split; cbn [bl_identity bl_samples]; [done|apply last_n_length|by apply kept_windowed].
Qed.

Lemma ask_windowed cpus file q :
  windowed_opt file → ∃ b, (ask cpus file q).2 = Some b ∧ windowed cpus b.
Proof.
  intros Hf. pose proof (judgement_windowed cpus file q Hf) as Hw.
  destruct (ask_file cpus file q) as [->|[-> E]]; [by eexists|].
  destruct file as [b|]; [|by unfold shared in E; destruct (judgement cpus None q).2]. exists b. split; [done|].
  cbn in Hf. destruct Hw as [Hi _ _]. unfold shared in E. destruct (judgement cpus (Some b) q).2;
    injection E as E; rewrite E in Hi; cbn in Hi; destruct Hf as (n & Hf);
    assert (n = cpus) as <- by (pose proof (wi_identity _ _ Hf); congruence); done.
Qed.

(** The idle history stays a window of one host: after any sequence of
    judgements, whatever file it started from, it has at most [IDLE_WINDOW]
    samples, no instant twice, all of the topology last asked about. *)
Theorem idle_window_wf cpus file q qs :
  windowed_opt file → ∃ b, (judged cpus file (q :: qs)).2 = Some b ∧ windowed cpus b.
Proof.
  revert file q. induction qs as [|q' qs IH]; intros file q Hf; destruct (ask_windowed cpus file q Hf) as (b & E & Hw);
    rewrite judged_cons; cbn [snd]; [by eexists|].
  apply IH. rewrite E. by exists cpus.
Qed.

(** A host with no history, asked twice. *)
Lemma idle_window_wf_witness :
  ∃ b', (judged 4 None [mkAsk 1 (mkLoad 0 0) 1 false; mkAsk 2 (mkLoad 0 0) 1 true]).2 = Some b' ∧ windowed 4 b'.
Proof. by apply idle_window_wf. Defined.

(** ** Loads that are not the host's *)

(** Nothing but provisional samples, none before [first], at most [n]. *)
Record unseeded (cpus : nat) (first : Z) (n : nat) (b : Baseline) : Prop := mkUnseeded {
  us_identity : bl_identity b = Cpu_count cpus;
  us_seen : bl_holders_seen b = None;
  us_provisional : Forall (λ s, kp_provisional s = true ∧ first ≤ kp_at s) (bl_samples b);
  us_count : (length (bl_samples b) ≤ n)%nat }.

Definition unseeded_opt (cpus : nat) (first : Z) (n : nat) (b : option Baseline) : Prop :=
  match b with Some b => unseeded cpus first n b | None => True end.

Lemma unseeded_mono cpus first n m b : (n ≤ m)%nat → unseeded cpus first n b → unseeded cpus first m b.
Proof. intros ? []. split; [done|done|done|lia]. Qed.

Lemma unseeded_firm cpus first n b : unseeded cpus first n b → firm (bl_samples b) = [].
Proof.
  intros [_ _ Hp _]. apply filter_nothing. eapply Forall_impl; [exact Hp|]. intros s [E _]. cbn. by rewrite E.
Qed.

Lemma unseeded_pending cpus first n b : unseeded cpus first n b → pending (bl_samples b) = bl_samples b.
Proof. intros [_ _ Hp _]. apply filter_every. eapply Forall_impl; [exact Hp|]. by intros s [E _]. Qed.

(** The gate is not reached. *)
Definition waits (n : nat) (first now : Z) : Prop :=
  (n + 1 < PROVISIONAL_MIN_SAMPLES)%nat ∨ now - first < PROVISIONAL_MIN_SPAN.

Lemma unseeded_waits cpus first n b now :
  unseeded cpus first n b → waits n first now → completes (pending (bl_samples b)) now = false.
Proof.
  intros Hu Hgate. rewrite (unseeded_pending _ _ _ _ Hu). destruct Hu as [_ _ Hp Hc]. unfold completes.
  destruct (bl_samples b) as [|s l] eqn:E; [done|]. apply Forall_cons in Hp as [[_ Hs] _]. apply andb_false_iff.
  destruct Hgate as [H|H]; [left|right]; apply bool_decide_eq_false; cbn [length] in *; lia.
Qed.

Lemma of_identity_unseeded cpus first n b :
  unseeded_opt cpus first n b → unseeded cpus first n (of_identity b (Cpu_count cpus)).
Proof.
  destruct b as [b|]; cbn; [|by split; cbn; [| |constructor|lia]]. intros Hb. by rewrite bool_decide_true by apply Hb.
Qed.

Lemma ask_unseeded cpus file first n q :
  unseeded_opt cpus first n file → as_holders q = false → prior_rule cpus (as_load q) = true → first ≤ as_at q →
  waits n first (as_at q) →
  vd_exceeds (ask cpus file q).1.1 = true ∧ unseeded_opt cpus first (S n) (ask cpus file q).2.
Proof.
  intros Hb Hh Hp Hf Hgate. rewrite ask_verdict.
  assert (vd_exceeds (judgement cpus file q).1.1.1 = true ∧ unseeded cpus first (S n) (judgement cpus file q).1.1.2)
    as [Hv Hu].
  { apply of_identity_unseeded in Hb as Hu. unfold judgement, idle_judgement_with_reference.
    rewrite Hh, (us_seen _ _ _ _ Hu), (unseeded_firm _ _ _ _ Hu), (unseeded_waits _ _ _ _ _ Hu Hgate).
    cbn [is_nil negb andb _judge_idle]. rewrite Hp. destruct Hu as [Hi Hs Hpr Hc].
    destruct (bool_decide_reflect (Forall (λ s, kp_at s ≠ as_at q) (bl_samples (of_identity file (Cpu_count cpus)))));
      cbn [negb fst snd vd_exceeds]; (split; [done|]); split; cbn [bl_identity bl_samples bl_holders_seen]; try done; [| |lia].
    - apply Forall_last_n, Forall_app. split; [done|]. by repeat constructor.
    - unfold last_n. rewrite length_drop, length_app. cbn [length]. lia. }
  split; [done|]. destruct (ask_file cpus file q) as [->|[-> _]]; [done|].
  destruct file; [|done]. eapply unseeded_mono; [|done]. lia.
Qed.

(** What one sample of a load that is refused while nothing is measured is. *)
Definition foreign (cpus : nat) (first : Z) (q : Ask) : Prop :=
  as_holders q = false ∧ prior_rule cpus (as_load q) = true ∧ first ≤ as_at q.

Lemma unseeded_run cpus first n file qs :
  unseeded_opt cpus first n file → Forall (foreign cpus first) qs →
  (n + length qs < PROVISIONAL_MIN_SAMPLES)%nat ∨ Forall (λ q, as_at q - first < PROVISIONAL_MIN_SPAN) qs →
  Forall (λ v, vd_exceeds v = true) (judged cpus file qs).1.
Proof.
  revert n file. induction qs as [|q qs IH]; intros n file Hf Hq Hw; [constructor|].
  apply Forall_cons in Hq as [(Hh & Hp & Ha) Hq]. rewrite judged_cons. cbn [fst length] in *.
  destruct (ask_unseeded cpus file first n q Hf Hh Hp Ha) as [Hv Hf'].
  { destruct Hw as [Hw|[Hw _]%Forall_cons]; [left; lia|by right]. }
  constructor; [done|]. apply (IH (S n)); [done|done|].
  destruct Hw as [Hw|[_ Hw]%Forall_cons]; [left; lia|by right].
Qed.

(** A load does not become its own baseline by being there: on a host
    with no idle history, a run of samples without holders that the prior
    rule refuses exceeds throughout, as long as it has fewer than
    [PROVISIONAL_MIN_SAMPLES] samples or spans less than
    [PROVISIONAL_MIN_SPAN_S]. *)
Theorem refused_seeds_wait cpus first qs :
  Forall (foreign cpus first) qs →
  (length qs < PROVISIONAL_MIN_SAMPLES)%nat ∨ Forall (λ q, as_at q - first < PROVISIONAL_MIN_SPAN) qs →
  Forall (λ v, vd_exceeds v = true) (judged cpus None qs).1.
Proof. intros Hq Hw. by apply (unseeded_run cpus first 0). Qed.

(** Six samples in a minute, on four CPUs of which two are busy. *)
Lemma refused_seeds_wait_witness :
  Forall (λ v, vd_exceeds v = true)
    (judged 4 None ((λ i, mkAsk (i * 10 * second) (mkLoad 2 0) second false) <$> [0; 1; 2; 3; 4; 5])).1.
Proof.
  apply (refused_seeds_wait 4 0); [|right]; repeat constructor; vm_compute; done.
Defined.

(** ** Excursions *)

(** Rounding moves a load up by half a millionth at most. *)
Lemma round6_near (x : Q) : (round6 x <= x + (1 # 2000000))%Q.
Proof.
  unfold round6. set (X := (x * inject_Z 1000000)%Q). set (n := Qfloor X).
  pose proof (Qfloor_le X) as Hn. fold n in Hn. set (up := match _ with Eq => _ | _ => _ end).
  assert (inject_Z (if up then n + 1 else n) <= X + (1 # 2))%Q as Hb.
  { subst up. destruct (Qcompare_spec (X - inject_Z n) (1 # 2)) as [E|E|E]; [destruct (Z.odd n)| |];
      rewrite ?inject_Z_plus; change (inject_Z 1) with 1%Q; lra. }
  unfold Qdiv. apply (Qmult_le_r _ _ (inject_Z 1000000)); [done|].
  rewrite <- Qmult_assoc, (Qmult_comm (/ inject_Z 1000000)), Qmult_inv_r, Qmult_1_r by done.
  eapply Qle_trans; [exact Hb|]. subst X. rewrite Qmult_plus_distr_l.
  apply Qplus_le_compat; [apply Qle_refl|]. by vm_compute.
Qed.

Lemma max_of_below f (c : Q) s rest :
  Forall (λ t, load_of f (kp_load t) < c)%Q (s :: rest) → (max_of f s rest < c)%Q.
Proof.
  revert s. induction rest as [|t rest IH]; intros s [Hs Hr]%Forall_cons; [done|]. cbn [max_of].
  apply Q.max_lub_lt; [done|by apply IH].
Qed.

(** A load above every sample of the window on one field, by more than the
    rounding. *)
Definition above (window : list Kept) (l : Load) : Prop :=
  ∃ f, f ∈ IDLE_FIELDS ∧ Forall (λ s, load_of f (kp_load s) < load_of f l - (1 # 2000000))%Q window.

Lemma judge_above window l pr : window ≠ [] → above window l → _judge_idle window l IDLE_FIELDS pr = (Measured, true).
Proof.
  destruct window as [|s rest]; [done|]. intros _ (f & Hin & Hf%max_of_below). cbn [_judge_idle]. f_equal.
  apply existsb_exists. exists f. split; [by apply list_elem_of_In|]. unfold Qgt_bool. apply negb_true_iff, not_true_iff_false. rewrite Qle_bool_iff.
  pose proof (round6_near (max_of f s rest)). lra.
Qed.

(** A window of measured samples before [t0], the oldest at [oldest]. *)
Record established (oldest t0 : Z) (window : list Kept) : Prop := mkEstablished {
  es_head : kp_at <$> head window = Some oldest;
  es_before : Forall (λ s, kp_provisional s = false ∧ kp_at s < t0) window }.

Definition clear_of_holders (seen : option Z) (q : Ask) : Prop :=
  match seen with Some t => t < as_at q - as_interval q | None => True end.

(** The file while an excursion from [t0] on runs: the window, the run's
    samples before [now], and the mark of its start. *)
Record excursing (cpus : nat) (seen : option Z) (t0 now : Z) (window run : list Kept) (b : Baseline) : Prop := mkExcursing {
  ex_identity : bl_identity b = Cpu_count cpus;
  ex_seen : bl_holders_seen b = seen;
  ex_samples : bl_samples b = window ++ run;
  ex_run : Forall (λ s, kp_provisional s = false ∧ t0 ≤ kp_at s < now) run;
  ex_mark : bl_excursion b = Some t0 ∨ run = [] ∧ bl_excursion b = None ∧ now = t0 }.

Section excursion.
  Context (cpus : nat) (seen : option Z) (oldest t0 : Z) (window : list Kept).
  Hypothesis Hw : established oldest t0 window.

Lemma established_nonempty : window ≠ [].
Proof using Hw. intros ->. by destruct Hw. Qed.

Lemma excursing_firm now run b : excursing cpus seen t0 now window run b → firm (bl_samples b) = window ++ run.
Proof using Hw.
  intros Hx. rewrite (ex_samples _ _ _ _ _ _ _ Hx). apply filter_every, Forall_app.
  split; [eapply Forall_impl; [apply Hw|]|eapply Forall_impl; [apply Hx|]]; by intros s [-> _].
Qed.

Lemma window_before_run run now :
  Forall (λ s, kp_provisional s = false ∧ t0 ≤ kp_at s < now) run →
  filter (λ s, kp_at s < t0) (window ++ run) = window.
Proof using Hw.
  intros Hr. rewrite filter_app, (filter_every _ window), (filter_nothing _ run), app_nil_r; [done| |].
  - eapply Forall_impl; [exact Hr|]. intros s [_ ?]. cbn. lia.
  - eapply Forall_impl; [apply Hw|]. by intros s [_ ?].
Qed.

Lemma all_before run now :
  t0 ≤ now → Forall (λ s, kp_provisional s = false ∧ t0 ≤ kp_at s < now) run →
  Forall (λ s, kp_at s < now) (window ++ run).
Proof using Hw.
  intros Ht Hr. apply Forall_app.
  split; [eapply Forall_impl; [apply Hw|]|eapply Forall_impl; [exact Hr|]]; intros s [_ ?]; cbn in *; lia.
Qed.

(** The run is judged against the window before it. *)
Lemma excursing_reference now run b :
  excursing cpus seen t0 now window run b → t0 ≤ now → now - t0 < t0 - oldest →
  ∃ r, _idle_reference (window ++ run) now (bl_excursion b) = (window, r) ∧ default now r = t0.
Proof using Hw.
  intros [_ _ _ Hr Hm] Ht Hn. unfold _idle_reference. rewrite (filter_every _ (window ++ run)) by by apply all_before.
  destruct Hm as [->|(-> & -> & ->)].
  - rewrite (window_before_run run now Hr). destruct Hw as [Hh _]. destruct window as [|s rest]; [done|].
    cbn in Hh. injection Hh as Hh. rewrite bool_decide_true by lia. by exists (Some t0).
  - rewrite app_nil_r. by exists None.
Qed.

Lemma judgement_excursing run b q :
  excursing cpus seen t0 (as_at q) window run b → t0 ≤ as_at q → as_at q - t0 < t0 - oldest →
  as_holders q = false → clear_of_holders seen q → above window (as_load q) →
  (length window + S (length run) ≤ IDLE_WINDOW)%nat →
  judgement cpus (Some b) q
  = (mkVerdict Idle true (Some Measured),
     mkBaseline (Cpu_count cpus) (window ++ run ++ [mkKept (as_at q) (as_load q) false]) seen (Some t0), Some window, false).
Proof using Hw.
  intros Hx Ht Hn Hh Hc Ha Hl. unfold judgement, idle_judgement_with_reference, of_identity.
  rewrite (bool_decide_true (bl_identity b = Cpu_count cpus)) by apply Hx. rewrite Hh, (excursing_firm _ _ _ Hx).
  rewrite (ex_seen _ _ _ _ _ _ _ Hx), (ex_samples _ _ _ _ _ _ _ Hx).
  assert (match seen with Some t => bool_decide (as_at q - as_interval q ≤ t) | None => false end = false) as ->.
  { unfold clear_of_holders in Hc. destruct seen; [|done]. apply bool_decide_eq_false. lia. }
  assert (is_nil window = false ∧ is_nil (window ++ run) = false) as [Hnil ->].
  { pose proof established_nonempty. by destruct window. }
  cbn [negb andb]. destruct (excursing_reference _ _ _ Hx Ht Hn) as (r & -> & Hr).
  rewrite (judge_above _ _ _ established_nonempty Ha). cbn [andb].
  rewrite (bool_decide_true (Forall _ _)).
  2: { eapply Forall_impl; [apply (all_before run (as_at q)); [done|apply Hx]|]. intros s ?; cbn in *; lia. }
  rewrite (bool_decide_false (Measured = Unmeasured)) by done. cbn [negb andb].
  rewrite last_n_all by (rewrite !length_app; cbn; lia).
  cbn [negb]. rewrite Hnil. cbn [negb]. by rewrite Hr, <- app_assoc.
Qed.

(** So an ask in the run exceeds, and the run goes on. *)
Lemma ask_excursing run b q now :
  excursing cpus seen t0 (as_at q) window run b → t0 ≤ as_at q → as_at q - t0 < t0 - oldest →
  as_holders q = false → clear_of_holders seen q → above window (as_load q) →
  (length window + S (length run) ≤ IDLE_WINDOW)%nat → as_at q < now →
  vd_exceeds (ask cpus (Some b) q).1.1 = true
  ∧ ∃ b' s, (ask cpus (Some b) q).2 = Some b' ∧ excursing cpus seen t0 now window (run ++ [s]) b'.
Proof using Hw.
  intros Hx Ht Hn Hh Hc Ha Hl Hq. pose proof (judgement_excursing _ _ _ Hx Ht Hn Hh Hc Ha Hl) as E.
  rewrite ask_verdict, E. split; [done|].
  assert ((ask cpus (Some b) q).2 = Some (judgement cpus (Some b) q).1.1.2) as ->.
  { destruct (ask_file cpus (Some b) q) as [->|[-> E']]; [done|]. rewrite E'. by rewrite E. }
  rewrite E. do 2 eexists. split; [done|]. split; cbn; [done|done|done| |by left].
  apply Forall_app. split; [|by repeat constructor]. eapply Forall_impl; [apply Hx|]. intros s [? ?]. cbn in *.
  split; [done|lia].
Qed.
End excursion.

(** A sample of the run from [t0]: no holders, above the window, and no
    longer after [t0] than the window reaches back before it. *)
Record of_excursion (seen : option Z) (oldest t0 : Z) (window : list Kept) (q : Ask) : Prop := mkOfExcursion {
  oe_quiet : as_holders q = false;
  oe_clear : clear_of_holders seen q;
  oe_above : above window (as_load q);
  oe_inside : as_at q - t0 < t0 - oldest }.

Lemma excursion_run cpus seen oldest t0 window run b q qs :
  established oldest t0 window → excursing cpus seen t0 (as_at q) window run b → t0 ≤ as_at q →
  StronglySorted Z.lt (as_at <$> q :: qs) → Forall (of_excursion seen oldest t0 window) (q :: qs) →
  (length window + length run + length (q :: qs) ≤ IDLE_WINDOW)%nat →
  Forall (λ v, vd_exceeds v = true) (judged cpus (Some b) (q :: qs)).1.
Proof.
  intros Hw. revert run b q. induction qs as [|q' qs IH]; intros run b q Hx Ht Hs Ho Hl;
    apply Forall_cons in Ho as [[Hh Hc Ha Hi] Ho]; rewrite judged_cons; cbn [fst length] in *.
  - destruct (ask_excursing cpus seen oldest t0 window Hw run b q (as_at q + 1)) as [Hv _]; try done; try lia.
    by repeat constructor.
  - cbn in Hs. apply StronglySorted_inv in Hs as [Hs [Hq _]%Forall_cons].
    destruct (ask_excursing cpus seen oldest t0 window Hw run b q (as_at q')) as [Hv (b' & s & -> & Hx')]; try done; try lia.
    constructor; [done|]. apply (IH (run ++ [s])); try done; [lia|]. rewrite length_app. cbn. lia.
Qed.

(** A sustained foreign load is refused for as long as it runs inside
    what the window remembers: a run of samples without holders, each above
    the measured window on some field, exceeds throughout while the run is
    younger than the window's reach back from its start, although the
    samples of the run join the window themselves. *)
Theorem excursion_refused cpus b oldest q qs :
  bl_identity b = Cpu_count cpus → established oldest (as_at q) (bl_samples b) → bl_excursion b = None →
  StronglySorted Z.lt (as_at <$> q :: qs) →
  Forall (of_excursion (bl_holders_seen b) oldest (as_at q) (bl_samples b)) (q :: qs) →
  (length (bl_samples b) + length (q :: qs) ≤ IDLE_WINDOW)%nat →
  Forall (λ v, vd_exceeds v = true) (judged cpus (Some b) (q :: qs)).1.
Proof.
  intros Hi Hw He Hs Ho Hl. eapply (excursion_run _ _ oldest (as_at q) (bl_samples b) []); [done| |done|done|done|].
  - split; [done|done|by rewrite app_nil_r|constructor|by right].
  - cbn [length] in *. by rewrite Nat.add_0_r.
Qed.

(** Two quiet samples 300 s apart, then three minutes of one busy CPU. *)
Lemma excursion_refused_witness :
  Forall (λ v, vd_exceeds v = true)
    (judged 4 (Some (mkBaseline (Cpu_count 4) [mkKept 0 (mkLoad 0 0) false; mkKept (200 * second) (mkLoad 0 0) false] None None))
       ((λ i, mkAsk (i * second) (mkLoad 1 0) second false) <$> [300; 360; 420; 480])).1.
Proof.
  eapply (excursion_refused 4 (mkBaseline (Cpu_count 4) _ None None) 0 (mkAsk (300 * second) (mkLoad 1 0) second false)); cbn.
  - done.
  - split; [done|]. by repeat constructor.
  - done.
  - repeat constructor.
  - repeat (apply Forall_cons; split); [..|constructor]; (split; [done|done|exists Busy_cpus; split; [by left|by repeat constructor]|done]).
  - apply Nat.leb_le. by vm_compute.
Defined.

(** ** Rounding *)

(** A window's maximum is compared rounded to six digits: a load equal to
    it can exceed it. *)
Lemma steady_load_exceeds :
  let l := mkLoad (1234564 # 10000000) 0 in
  vd_exceeds <$> (judged 4 None [mkAsk 0 l second false; mkAsk (10 * second) l second false]).1 = [false; true].
Proof. vm_compute. reflexivity. Qed.
