(* ===== verification/SpendOnce.v ===== *)
(** * Credit that is spent once

    What the admission controllers promise of the samples they spend: a
    record holds the time of the last sample spent, a sample later than it may
    be spent, and a spender that did not launch may put the record back to
    what it replaced while the record is still its own.  The CPU controller's
    borrows and the GPU controller's probes both refine this. *)
From S2P Require Import Prelude.
From stdpp Require Import options.

Open Scope Z_scope.

(** The spending in effect: the time of each sample, and of the one it
    replaced in the record. *)
Definition Spent : Type := list (Z * Z).

Inductive spend_step : Z * Spent → Z * Spent → Prop :=
  | Spend_sample last t live : last < t → spend_step (last, live) (t, (t, last) :: live)
  | Put_back t previous l1 l2 : spend_step (t, l1 ++ (t, previous) :: l2) (previous, l1 ++ l2)
  | Settled last x l1 l2 : spend_step (last, l1 ++ x :: l2) (last, l1 ++ l2)
  | Unrelated S : spend_step S S.

(** Nothing in effect is later than the record; a spender that puts its
    record back leaves one that no other is later than, or does not own it. *)
Record spend_inv (S : Z * Spent) : Prop := mkSpendInv {
  sp_bound : ∀ x, x ∈ S.2 → x.1 ≤ S.1;
  sp_below : ∀ r x, r ∈ S.2 → x ∈ S.2 → x.1 ≠ r.1 → x.1 ≤ r.2 ∨ r.1 < x.1;
  sp_distinct : NoDup S.2.*1 }.

Lemma spend_inv_nil last : spend_inv (last, []).
Proof. split; cbn; [by intros ? ?%elem_of_nil|by intros ?? ?%elem_of_nil|constructor]. Qed.

Lemma spend_inv_drop last l1 x l2 : spend_inv (last, l1 ++ x :: l2) → spend_inv (last, l1 ++ l2).
Proof.
  intros [Hb Hl Hd]. cbn in *.
  assert (∀ y, y ∈ l1 ++ l2 → y ∈ l1 ++ x :: l2) as Hin by (intros y; rewrite !elem_of_app, elem_of_cons; tauto).
  split; cbn; [by eauto|by eauto|]. rewrite fmap_app. rewrite fmap_app, fmap_cons in Hd. eapply sublist_NoDup; [exact Hd|].
  apply sublist_app; [done|by apply sublist_cons].
Qed.

Lemma spend_distinct last l1 x l2 y : spend_inv (last, l1 ++ x :: l2) → y ∈ l1 ++ l2 → y.1 ≠ x.1.
Proof.
  intros [_ _ Hd] Hy E. cbn in Hd. rewrite fmap_app, fmap_cons, <- Permutation_middle in Hd.
  apply NoDup_cons in Hd as [Hn _]. apply Hn. rewrite <- E, <- fmap_app. by apply list_elem_of_fmap_2.
Qed.

Lemma spend_step_inv S S' : spend_step S S' → spend_inv S → spend_inv S'.
Proof.
  destruct 1 as [last t live Hlt|t previous l1 l2|last x l1 l2|S]; intros HI; [| |by eapply spend_inv_drop|done].
  - destruct HI as [Hb Hl Hd]. cbn in *. split; cbn.
    + intros x [->|Hx%Hb]%elem_of_cons; cbn; lia.
    + intros r x [->|Hr]%elem_of_cons [->|Hx]%elem_of_cons Hne; cbn in *; [done|left; by apply Hb| |by apply Hl].
      right. apply Hb in Hr. lia.
    + constructor; [|done]. intros (x & E & Hx%Hb)%list_elem_of_fmap. cbn in *. lia.
  - pose proof (spend_inv_drop _ _ _ _ HI) as [Hb' Hl' Hd']. split; [|exact Hl'|exact Hd']. cbn in *. intros x Hx.
    pose proof (spend_distinct _ _ _ _ _ HI Hx) as Hne. specialize (Hb' x Hx). cbn in Hne.
    destruct HI as [_ Hl _]. destruct (Hl (t, previous) x) as [?|?]; cbn in *; [| |done|done|lia].
    + apply elem_of_app. right. by left.
    + apply elem_of_app in Hx as [?|?]; apply elem_of_app; [by left|by right; right].
Qed.

(** A system whose steps are spending steps through an abstraction keeps the
    invariant along every run. *)
Section refinement.
Context {St : Type} (step : St → St → Prop) (abs : St → Z * Spent).
Hypothesis step_refines : ∀ S S', step S S' → spend_step (abs S) (abs S').

Lemma spend_run_inv S S' : rtc step S S' → spend_inv (abs S) → spend_inv (abs S').
Proof using step_refines.
  induction 1 as [|S1 S2 S3 Hs _ IH]; [done|]. intros HI. by eapply IH, spend_step_inv, HI; eauto.
Qed.
End refinement.
