(* ===== verification/AdaptiveCpu.v ===== *)
(** * Host CPU admission ([adaptive_cpu.py], [holder_census.py])

    [Controller.decision] and what it is made of: the census of holders and
    their prices, a producer's allowance, the gates on host pressure and
    measurement isolation, and lending of measured idle reservations; then
    [admitted] and [withdrew], which spend and return a sample's one borrow.
    The ledger is the one of [Ledger].  Times are integer microseconds, CPU
    loads and seconds exact rationals, a demand a natural number per kind.
    What a refusal or an admission records only for its readers is left out. *)
From S2P Require Import Prelude.
From S2P Require Import TokenName.
From S2P Require Import Ledger.
From S2P Require Import Tier.
From S2P Require Import Watch.
From S2P Require Import PoolProbe.
From S2P Require Import IdleBaseline.
From Stdlib Require Import QArith.QArith QArith.Qminmax.
From stdpp Require Import options.

Open Scope Z_scope.

Definition IDLE_BUSY_FRACTION : Q := 5 # 100.
Definition MAX_SAMPLE_AGE : Z := 5 * second.
Definition MIN_INTERVAL_S : Q := 1.
Definition MAX_INTERVAL_S : Q := 60.
Definition MAX_ACTIONS : nat := 256.
Definition PROJECTED_CPU_TOLERANCE : Q := 1 # 100.
Definition CPU_COST_MARGIN : Q := 125 # 100.
Definition PER_CPU_FOREIGN_MAX : Q := 10 # 100.

Definition Qnat (n : nat) : Q := inject_Z (Z.of_nat n).

(** [cpu_consumption_cost]. *)
Definition cpu_consumption_cost (cpu : Q) : Q := Qmax (5 # 100) (cpu * CPU_COST_MARGIN).

(** [projected_cpu_fits] on finite terms. *)
Definition projected_cpu_fits (busy pending active cost total : Q) : bool :=
  forallb (Qle_bool 0) [busy; pending; active; cost; total]
  && Qgt_bool total 0
  && Qle_bool (Qmax (busy + pending) active + cost) (total + PROJECTED_CPU_TOLERANCE).

(** ** What a decision reads *)

(** The host sample. *)
Record Sample := mkSample {
  sm_at : Z; sm_load : Load; sm_interval : Z; sm_cpu_count : nat;
  sm_per_cpu : option (gmap Z Q); sm_foreign : option (gmap Z Q) }.

(** [telemetry/<action>.json]; [te_rate] is the rate a price kept with it. *)
Record Tele := mkTele {
  te_complete : bool; te_at : Z; te_key : option string; te_cpu : Q; te_wall : Q;
  te_nonce : option string; te_peak : Z; te_rate : option Q }.

(** One shape of [profiles.json]. *)
Record Profile := mkProfile {
  pf_cpu : Q; pf_at : Z; pf_samples : nat; pf_peak : Z; pf_completions : list string }.

(** What [.adaptive.json] says of its claim beside the ledger's part. *)
Record Claimed := mkClaimed {
  ca_declared : option Z; ca_shape : option string; ca_measurement : bool;
  ca_funded_by : option string; ca_admitted : option Z }.

Definition unclaimed : Claimed := mkClaimed None None false None None.

(** The host: its ledger and CPU tiers, the claims its holders' metadata
    tells of, the holder directories in the order they are listed, and the
    telemetry of each. *)
Record Host := mkHost {
  ho_ledger : Ledger; ho_tiers : CpuTiers; ho_claimed : gmap string Claimed;
  ho_scan : list string; ho_telemetry : string → option Tele }.

Definition host_cpus (H : Host) : list Z := preferred (ho_tiers H) ++ fallback (ho_tiers H).

(** ** The holder census ([holder_census.py]) *)

(** [non_mirror_holders]. *)
Definition non_mirror_holders (H : Host) : list string :=
  filter (λ h, starts_with RAM_HOST_MEMORY_PREFIX h = false) (ho_scan H).

(** [census.cpu(name).metadata]: an absent record is an empty one. *)
Definition metadata (H : Host) (h : string) : option (CpuMeta * Claimed) :=
  (λ cm, (cm, default unclaimed (ho_claimed H !! h))) <$> cpu_meta h (ho_ledger H).

Definition physical_cpu_count (H : Host) (h : string) : nat :=
  size (glob_kind "cpu" (toks (ho_ledger H) (Held h))).

Definition has_contents (H : Host) (h : string) : bool :=
  match l_held (ho_ledger H) !! h with
  | Some d => negb (bool_decide (h_tokens d = ∅)) || bool_decide (is_Some (h_cpu d)) || bool_decide (is_Some (h_gpu d))
  | None => false
  end.

Definition claimed_of (H : Host) (h : string) : Claimed := default unclaimed (snd <$> metadata H h).

(** [meta.get('declared_cpu', physical)]. *)
Definition reserved_cpu (H : Host) (h : string) : Z :=
  default (Z.of_nat (physical_cpu_count H h)) (ca_declared (claimed_of H h)).

(** A holder without a CPU reservation that is not simply empty. *)
Definition unknown_reservation (H : Host) (h : string) : bool :=
  bool_decide (is_Some (metadata H h)) || has_contents H h.

(** [set(allocation['preferred'] + allocation['fallback'])]. *)
Definition assigned_to (H : Host) (h : string) : res (gset Z) :=
  a ← cpu_allocation h (ho_tiers H) (ho_ledger H); Ok (list_to_set (preferred a ++ fallback a)).

(** [_held_cpus]. *)
Fixpoint _held_cpus (H : Host) (holders : list string) : res (gset Z) :=
  match holders with
  | [] => Ok ∅
  | h :: holders => X ← assigned_to H h; Y ← _held_cpus H holders; Ok (X ∪ Y)
  end.

(** [_predicted_cpus]. *)
Definition _predicted_cpus (H : Host) (need : nat) (eligible : option (list Z)) : res (option (list Z)) :=
  free_cpu_allocation need (ho_tiers H) eligible (ho_ledger H).

(** ** A producer's allowance *)

(** [_funding]'s refusals, and its answer. *)
Inductive Unfunded :=
  | Demand_outside_allowance | Owner_holds_no_allowance | Owner_allowance_malformed
  | Measurement_beside | Allowance_in_use | Demand_exceeds_allowance.
Record Funded := mkFunded { fu_cpus : list Z; fu_mem_gb : nat }.

Definition EXPORT_DEMAND : gset string := {[ "cpu"; "mem_gb" ]}.
Definition demand_of (demand : gmap string nat) (kind : string) : nat := default 0%nat (demand !! kind).

(** The other holders that use [owner]'s allowance, and their CPUs. *)
Definition funded_holders (H : Host) (owner : string) (holders : list string) : list string :=
  filter (λ h, h ≠ owner ∧ ca_funded_by (claimed_of H h) = Some owner) holders.
Definition funded_cpus (H : Host) (h : string) : list Z :=
  default [] ((λ m, default [] (ad_funded (cm_adaptive m.1))) <$> metadata H h).

Definition _funding (H : Host) (owner : string) (holders : list string) (demand : gmap string nat)
  : Funded * bool + Unfunded :=
  if negb (bool_decide (dom demand ⊆ EXPORT_DEMAND)) || bool_decide (demand_of demand "cpu" = 0%nat) then
    inr Demand_outside_allowance
  else
    match metadata H owner ≫= λ m, cm_allowance m.1 with
    | None => inr Owner_holds_no_allowance
    | Some (mkGranted slots cpus mem _) =>
        if bool_decide (slots ≤ 0) then inr Owner_allowance_malformed
        else if existsb (λ h, negb (bool_decide (h = owner)) && ca_measurement (claimed_of H h)) holders then
          inr Measurement_beside
        else
          let users := funded_holders H owner holders in
          let spare := filter (λ c, c ∉ users ≫= funded_cpus H) cpus in
          let need_cpu := demand_of demand "cpu" in
          let need_mem := demand_of demand "mem_gb" in
          if bool_decide (slots ≤ Z.of_nat (length users)) then inr Allowance_in_use
          else if bool_decide (length spare < need_cpu)%nat
               || bool_decide (Z.of_nat (length cpus) / slots < Z.of_nat need_cpu)
               || bool_decide (mem / slots < Z.of_nat need_mem) then inr Demand_exceeds_allowance
          else inl (mkFunded (take need_cpu spare) need_mem, ca_measurement (claimed_of H owner))
    end.

(** ** Prices *)

(** A mapping in its own order, as a file is read into one. *)
Fixpoint dset {A} (k : string) (v : A) (d : list (string * A)) : list (string * A) :=
  match d with
  | [] => [(k, v)]
  | (k', v') :: d => if bool_decide (k = k') then (k, v) :: d else (k', v') :: dset k v d
  end.
Fixpoint dget {A} (k : string) (d : list (string * A)) : option A :=
  match d with [] => None | (k', v) :: d => if bool_decide (k = k') then Some v else dget k d end.

(** The 512 last learned profiles. *)
Definition profile_le (a b : string * Profile) : Prop := pf_at a.2 ≤ pf_at b.2.
#[export] Instance profile_le_dec : RelDecision profile_le.
Proof. intros a b. unfold profile_le. apply _. Defined.
Definition newest (d : list (string * Profile)) : list (string * Profile) := last_n 512 (merge_sort profile_le d).

Record Terms := mkTerms { tm_active : Q; tm_pending : Q }.

(** [_price_holders]'s loop state. *)
Record Pricing := mkPricing {
  pr_profiles : list (string * Profile); pr_next : gmap string Tele; pr_prices : gmap string (option Q * Q);
  pr_terms : Terms; pr_known : bool }.

(** Whether a holder's telemetry is evidence for it. *)
Definition telemetry_valid (H : Host) (now : Z) (h : string) (r : Tele) : bool :=
  te_complete r && bool_decide (0 ≤ now - te_at r ≤ MAX_SAMPLE_AGE)
  && bool_decide (default now (ca_admitted (claimed_of H h)) ≤ te_at r)
  && bool_decide (default h (te_key r) = h) && Qle_bool 0 (te_cpu r) && Qle_bool 0 (te_wall r).

(** The last priced telemetry of this run of the action. *)
Definition previous_of (H : Host) (now : Z) (h : string) (r : option Tele) (recent : gmap string Tele) : option Tele :=
  match recent !! h with
  | Some p => if bool_decide (te_nonce p = r ≫= te_nonce)
                 && bool_decide (default now (ca_admitted (claimed_of H h)) ≤ te_at p) then Some p else None
  | None => None
  end.

Definition with_rate (r : Tele) (cpu : Q) : Tele :=
  mkTele (te_complete r) (te_at r) (te_key r) (te_cpu r) (te_wall r) (te_nonce r) (te_peak r) (Some cpu).

(** What a measured rate teaches of its shape. *)
Definition learn (old : option Profile) (cpu : Q) (now peak : Z) (completions : list string) : Profile :=
  mkProfile (Qmax (cpu * CPU_COST_MARGIN) (default cpu (pf_cpu <$> old) * (98 # 100))) now
    (Nat.min 1000 (default 0%nat (pf_samples <$> old) + 1)) (Z.max peak (default 0 (pf_peak <$> old))) completions.

(** The rate of one holder, with the telemetry to keep of it. *)
Inductive Rated := Fresh_rate (cpu : Q) | Kept_rate (cpu : option Q) (p : Tele) | No_rate (keep : option Tele).

Definition rate (H : Host) (now : Z) (h : string) (recent : gmap string Tele) : Rated :=
  match ho_telemetry H h with
  | Some r =>
      if telemetry_valid H now h r then
        let previous := previous_of H now h (Some r) recent in
        let wall_delta := (te_wall r - default (te_wall r) (te_wall <$> previous))%Q in
        let cpu_delta := (te_cpu r - default (te_cpu r) (te_cpu <$> previous))%Q in
        if Qle_bool MIN_INTERVAL_S wall_delta && Qle_bool wall_delta MAX_INTERVAL_S && Qle_bool 0 cpu_delta then
          Fresh_rate (cpu_delta / wall_delta)
        else
          match previous with
          | Some p =>
              if Qle_bool 0 wall_delta && negb (Qle_bool MIN_INTERVAL_S wall_delta) then
                Kept_rate (if bool_decide (0 ≤ now - te_at p ≤ MAX_SAMPLE_AGE) then te_rate p else None) p
              else No_rate (Some r)
          | None => No_rate (Some r)
          end
      else No_rate None
  | None => No_rate None
  end.

Definition price_holder (H : Host) (now : Z) (recent : gmap string Tele) (a : Pricing) (h : string) : Pricing :=
  let meta := claimed_of H h in
  let reserved := reserved_cpu H h in
  if bool_decide (reserved = 0) then
    mkPricing (pr_profiles a) (pr_next a) (pr_prices a) (pr_terms a) (pr_known a && negb (unknown_reservation H h))
  else
    let known := pr_known a && negb (bool_decide (reserved < 0) || ca_measurement meta) in
    let '(cpu, next, profiles) :=
      match rate H now h recent with
      | Fresh_rate cpu =>
          let r := default (mkTele false 0 None 0 0 None 0 None) (ho_telemetry H h) in
          (Some cpu, <[h := with_rate r cpu]> (pr_next a),
           match ca_shape meta with
           | Some shape =>
               if ca_measurement meta then pr_profiles a
               else let old := dget shape (pr_profiles a) in
                    dset shape (learn old cpu now (te_peak r) (default [] (pf_completions <$> old))) (pr_profiles a)
           | None => pr_profiles a
           end)
      | Kept_rate cpu p => (cpu, <[h := p]> (pr_next a), pr_profiles a)
      | No_rate (Some r) => (None, <[h := r]> (pr_next a), pr_profiles a)
      | No_rate None => (None, pr_next a, pr_profiles a)
      end in
    let cost := match cpu with None => inject_Z reserved | Some c => cpu_consumption_cost c end in
    mkPricing profiles next (<[h := (cpu, cost)]> (pr_prices a))
      (mkTerms (tm_active (pr_terms a) + cost)
               (match cpu with None => tm_pending (pr_terms a) + cost | Some _ => tm_pending (pr_terms a) end)%Q)
      known.

(** ** The controller *)

(** The host-local files the controller keeps. *)
Record Files := mkFiles {
  fi_baseline : option Baseline; fi_profiles : gmap string Profile; fi_jobs : gmap string Tele;
  fi_last_borrow : option (Z * option string) }.

(** The controller of one pass: its files, the judgement it already made of
    its sample, and the holder costs of its last decision. *)
Record Ctl := mkCtl {
  ct_files : Files; ct_idle : option ((Z * bool) * (Verdict * option (list Kept))); ct_costs : option Terms }.

Definition set_files (f : Files) (C : Ctl) : Ctl := mkCtl f (ct_idle C) (ct_costs C).
Definition set_costs (t : option Terms) (C : Ctl) : Ctl := mkCtl (ct_files C) (ct_idle C) t.

(** [_price_holders]. *)
Definition price_loop (H : Host) (now : Z) (C : Ctl) (holders : list string) : Pricing :=
  foldl (price_holder H now (fi_jobs (ct_files C)))
    (mkPricing (sorted_items (fi_profiles (ct_files C))) ∅ ∅ (mkTerms 0 0) true) holders.

Definition _price_holders (H : Host) (now : Z) (holders : list string) (C : Ctl)
  : (list (string * Profile) * gmap string (option Q * Q) * Terms) * Ctl :=
  let p := price_loop H now C holders in
  let profiles := newest (pr_profiles p) in
  (profiles, pr_prices p, pr_terms p,
   mkCtl (mkFiles (fi_baseline (ct_files C)) (list_to_map profiles) (pr_next p) (fi_last_borrow (ct_files C)))
     (ct_idle C) (if pr_known p then Some (pr_terms p) else None)).

(** [Controller.idle], once per sample and holder state. *)
Definition idle_once (H : Host) (s : Sample) (holders : bool) (C : Ctl) : Verdict * Ctl :=
  let key := (sm_at s, holders) in
  match ct_idle C with
  | Some (k, (v, r)) =>
      if bool_decide (k = key) then (v, C)
      else
        let '(v, r, b) := idle (length (host_cpus H)) (fi_baseline (ct_files C)) (sm_at s) (sm_load s) (sm_interval s) holders in
        (v, mkCtl (mkFiles b (fi_profiles (ct_files C)) (fi_jobs (ct_files C)) (fi_last_borrow (ct_files C)))
                  (Some (key, (v, r))) (ct_costs C))
  | None =>
      let '(v, r, b) := idle (length (host_cpus H)) (fi_baseline (ct_files C)) (sm_at s) (sm_load s) (sm_interval s) holders in
      (v, mkCtl (mkFiles b (fi_profiles (ct_files C)) (fi_jobs (ct_files C)) (fi_last_borrow (ct_files C)))
                (Some (key, (v, r))) (ct_costs C))
  end.

(** Why a decision refuses. *)
Inductive Reason :=
  | Host_pressure | Host_pressure_unproven
  | Measurement_sampler_unknown | Measurement_foreign_ambient | Measurement_host_not_idle
  | Max_actions | Unbounded_cpu_not_exclusive
  | Holder_reservation_unknown (holder : string) | Measurement_holder (holder : string)
  | Projected_cpu_cost | Pressure_override_no_borrow | Borrow_evidence_unavailable.

(** The rest of a decision, a refusal, or an exception that leaves it. *)
Inductive ans (A : Type) := Go (a : A) | Refuse (r : Reason) | Throw (e : exn).
Arguments Go {A} a.
Arguments Refuse {A} r.
Arguments Throw {A} e.

#[export] Instance ans_bind : MBind ans := λ A B f m,
  match m with Go a => f a | Refuse r => Refuse r | Throw e => Throw e end.

Definition lift {A} (r : res A) : ans A := match r with Ok a => Go a | Raise e => Throw e end.
Definition refuse_if (b : bool) (r : Reason) : ans unit := if b then Refuse r else Go ().

(** What the CPUs a measurement would be given show. *)
Record Ambient := mkAmbient { am_exceeds : bool; am_clear : bool }.

Definition within (v : Q) : bool := Qle_bool 0 v && Qle_bool v 1.

(** [_measurement_foreign_ambient] of a fresh sample. *)
Definition _measurement_foreign_ambient (H : Host) (s : Sample) (holders : list string) (declared : nat)
  : res (option Ambient) :=
  match sm_foreign s with
  | None => Ok None
  | Some foreign =>
      if bool_decide (foreign = ∅) || bool_decide (declared = 0%nat) then Ok None
      else
        predicted ← _predicted_cpus H declared None;
        match predicted with
        | None | Some [] => Ok None
        | Some predicted =>
            held ← _held_cpus H holders;
            let readings := omap (λ c, (λ v, (c, v)) <$> foreign !! c) (remove_dups predicted) in
            let excess := existsb (λ cv, negb (bool_decide (cv.1 ∈ held)) && Qgt_bool cv.2 PER_CPU_FOREIGN_MAX) readings in
            let complete := bool_decide (length readings = length predicted) && forallb (λ cv, within cv.2) readings in
            if bool_decide (readings = []) then Ok None
            else Ok (Some (mkAmbient excess (complete && negb excess)))
        end
  end.

(** [_measurement_idle_refusal]. *)
Definition _measurement_idle_refusal (H : Host) (s : Sample) (v : Verdict) (ambient : option Ambient)
    (reference : option (list Kept)) : option Reason :=
  if negb (vd_exceeds v) then None
  else
    match ambient with
    | Some (mkAmbient true _) => Some Measurement_foreign_ambient
    | Some (mkAmbient false true) =>
        match reference with
        | Some r =>
            if (_judge_idle r (mkLoad 0 (ld_psi (sm_load s))) [Psi_some] (Some (prior_rule (length (host_cpus H))))).2
            then Some Measurement_host_not_idle else None
        | None => Some Measurement_host_not_idle
        end
    | _ => Some Measurement_host_not_idle
    end.

(** Whether the sample is fresh for this host. *)
Definition fresh (H : Host) (now : Z) (s : Sample) : bool :=
  bool_decide (0 ≤ now - sm_at s ≤ MAX_SAMPLE_AGE) && bool_decide (sm_cpu_count s = length (host_cpus H)).

(** What the action and its claim say; [dm_reads] is the producer its sealed
    request names, if that is read here. *)
Record Demand := mkDemand {
  dm_demand : gmap string nat; dm_shape : option string; dm_measurement : bool;
  dm_owner : option (option string); dm_reads : option string; dm_allowance : option Allowance;
  dm_exempt : bool; dm_costs : bool }.

Definition dm_declared (d : Demand) : nat := demand_of (dm_demand d) "cpu".
Definition full_width (H : Host) (d : Demand) : bool :=
  bool_decide (dm_declared d = length (host_cpus H)) && negb (dm_measurement d) && negb (bool_decide (dm_declared d = 0%nat)).
Definition exclusive_need (H : Host) (d : Demand) : bool :=
  dm_measurement d || bool_decide (dm_declared d = 0%nat) || bool_decide (dm_declared d = length (host_cpus H)).

(** A reading of every CPU, each a fraction. *)
Definition proven (H : Host) (per_cpu : gmap Z Q) : bool :=
  bool_decide (dom per_cpu = list_to_set (host_cpus H)) && forallb (λ kv, within kv.2) (map_to_list per_cpu).
Definition attributed (per_cpu foreign : gmap Z Q) : bool :=
  bool_decide (dom foreign = dom per_cpu)
  && forallb (λ kv, Qle_bool 0 kv.2 && Qle_bool kv.2 (default 0%Q (per_cpu !! kv.1))) (map_to_list foreign).
Definition cpu_idle (foreign : gmap Z Q) (c : Z) : bool := Qle_bool (default 0%Q (foreign !! c)) IDLE_BUSY_FRACTION.

(** The pressure gate: whether a high PSI was overridden, and the CPUs it was
    overridden for. *)
Definition pressure_gate (H : Host) (s : Sample) (holders : list string) (d : Demand) : ans (option (list Z)) :=
  if negb (Qle_bool (10 # 100) (ld_psi (sm_load s))
           && (negb (exclusive_need H d) || (full_width H d && negb (is_nil holders)))) then Go None
  else
    match sm_per_cpu s with
    | None => Refuse Host_pressure_unproven
    | Some per_cpu =>
        if negb (proven H per_cpu) then Refuse Host_pressure_unproven
        else if full_width H d then Refuse Host_pressure
        else
          let foreign := default per_cpu (sm_foreign s) in
          if negb (attributed per_cpu foreign) then Refuse Host_pressure_unproven
          else
            held ← lift (_held_cpus H holders);
            let eligible := filter (λ c, (c ∉ held) ∧ (dm_exempt d || cpu_idle foreign c) = true) (host_cpus H) in
            proof ← lift (_predicted_cpus H (dm_declared d) (Some eligible));
            predicted ← match proof with
                        | Some p => Go (Some p)
                        | None => lift (_predicted_cpus H (dm_declared d) None)
                        end;
            match predicted with
            | None => Refuse Host_pressure_unproven
            | Some predicted =>
                if existsb (λ c, bool_decide (c ∈ held) || (negb (dm_exempt d) && negb (cpu_idle foreign c))) predicted
                then Refuse Host_pressure
                else if bool_decide (proof = None) then Refuse Host_pressure_unproven
                else Go (Some eligible)
            end
    end.

(** The holders' veto: every reservation known, and isolation kept. *)
Fixpoint holder_gate (H : Host) (d : Demand) (owner : option (option string)) (serves : option string)
    (holders : list string) : ans (option string) :=
  match holders with
  | [] => Go serves
  | h :: holders =>
      if bool_decide (reserved_cpu H h = 0) then
        if unknown_reservation H h then Refuse (Holder_reservation_unknown h) else holder_gate H d owner serves holders
      else if dm_measurement d then Refuse (Measurement_holder h)
      else if ca_measurement (claimed_of H h) then
        let known := default (dm_reads d) owner in
        if bool_decide (known = Some h) then holder_gate H d (Some known) (Some h) holders
        else Refuse (Measurement_holder h)
      else holder_gate H d owner serves holders
  end.

(** Every gate before the holders are priced. *)
Definition gates (H : Host) (s : option Sample) (fr : bool) (v : Verdict) (reference : option (list Kept))
    (ambient : option Ambient) (holders : list string) (d : Demand) : ans (option (list Z) * option string) :=
  override ← match s with
             | Some s =>
                 if fr then
                   _ ← refuse_if (Qle_bool ((95 # 100) * Qnat (length (host_cpus H))) (ld_busy (sm_load s))) Host_pressure;
                   pressure_gate H s holders d
                 else Go None
             | None => Go None
             end;
  _ ← refuse_if (dm_measurement d && negb fr) Measurement_sampler_unknown;
  _ ← match s with
      | Some s =>
          if dm_measurement d then
            match _measurement_idle_refusal H s v ambient reference with Some r => Refuse r | None => Go () end
          else Go ()
      | None => Go ()
      end;
  _ ← refuse_if (full_width H d && fr && is_nil holders && vd_exceeds v) Host_pressure;
  _ ← refuse_if (bool_decide (MAX_ACTIONS ≤ length holders)%nat) Max_actions;
  _ ← refuse_if (bool_decide (dm_declared d = 0%nat) && (negb (is_nil holders) || negb fr || vd_exceeds v))
                Unbounded_cpu_not_exclusive;
  serves ← holder_gate H d (dm_owner d) None holders;
  Go (override, serves).

(** A holder that lends: measured, neither a measurement nor funded, and
    cheaper than what it reserved. *)
Definition lends (H : Host) (h : string) (cpu : option Q) (cost : Q) : bool :=
  let meta := claimed_of H h in
  bool_decide (is_Some cpu) && bool_decide (is_Some (ca_shape meta)) && negb (ca_measurement meta)
  && bool_decide (ca_funded_by meta = None) && negb (Qle_bool (inject_Z (reserved_cpu H h)) cost).

(** The CPUs holders lend, and those they keep. *)
Fixpoint lending (H : Host) (prices : gmap string (option Q * Q)) (holders : list string) (lend keep : gset Z)
    (lendable : bool) : ans (gset Z * gset Z * bool) :=
  match holders with
  | [] => Go (lend, keep, lendable)
  | h :: holders =>
      match prices !! h with
      | None => lending H prices holders lend keep lendable
      | Some (cpu, cost) =>
          X ← lift (assigned_to H h);
          if lends H h cpu cost
          then lending H prices holders (lend ∪ X) keep true
          else lending H prices holders lend (keep ∪ X) lendable
      end
  end.

(** What an admitted claim carries to the ledger and its metadata. *)
Record Admission := mkAdmission {
  dc_declared : nat; dc_cost : Q; dc_shape : option string; dc_unbounded : bool; dc_measurement : bool;
  dc_serves : option string; dc_funded_by : option string; dc_funded : option Funded;
  dc_allowance : option Allowance; dc_idle : option Verdict; dc_admitted : Z; dc_preferred_borrow : nat;
  dc_eligible : option (list Z); dc_sampled : Z; dc_borrowing : bool; dc_active : Q; dc_pending : Q;
  dc_borrowable : list Z; dc_borrow_id : option string }.

(** [requested_cpu_cost]. *)
Definition requested_cost (H : Host) (now : Z) (d : Demand) (profiles : list (string * Profile)) : Q :=
  if bool_decide (dm_declared d = 0%nat) then Qnat (length (host_cpus H))
  else
    match dm_shape d ≫= λ shape, dget shape profiles with
    | Some p =>
        if bool_decide (3 ≤ pf_samples p)%nat && bool_decide (0 ≤ now - pf_at p < 86400 * second)
        then Qmax (5 # 100) (Qmin (Qnat (dm_declared d)) (pf_cpu p)) else Qnat (dm_declared d)
    | None => Qnat (dm_declared d)
    end.

(** [sorted(borrowable, key=...)]. *)
Definition busy_le (per_cpu : gmap Z Q) (a b : Z) : Prop :=
  Qle_bool (default 0%Q (per_cpu !! a)) (default 0%Q (per_cpu !! b)) = true.
#[export] Instance busy_le_dec per_cpu : RelDecision (busy_le per_cpu).
Proof. intros a b. unfold busy_le. apply _. Defined.

(** The placement: how many preferred CPUs to borrow, and whether anything is
    borrowed at all. *)
Definition placement (H : Host) (s : option Sample) (fr : bool) (d : Demand) (override : option (list Z))
    (borrowable : gset Z) (lendable : bool) (last : Z) : ans (nat * bool * gset Z) :=
  let available := default 0%nat (available (ho_ledger H) !! "cpu") in
  let can_borrow := fr && bool_decide (is_Some (dm_shape d)) && negb (dm_measurement d) && lendable in
  preferred_borrow ← (if can_borrow then
                        (n ← lift (free_preferred (ho_tiers H) (ho_ledger H));
                         Go (Nat.min (dm_declared d - n)
                                     (size (borrowable ∩ list_to_set (preferred (ho_tiers H))))))
                      else Go 0%nat);
  match override with
  | Some _ => if bool_decide (available < dm_declared d)%nat then Refuse Pressure_override_no_borrow
              else Go (0%nat, false, ∅)
  | None =>
      if bool_decide (available < dm_declared d)%nat || bool_decide (0 < preferred_borrow)%nat then
        let authorized := can_borrow && bool_decide (dm_declared d - available ≤ size borrowable)%nat
                          && match s with Some s => bool_decide (last < sm_at s) | None => false end in
        if authorized then Go (preferred_borrow, true, borrowable)
        else if bool_decide (dm_declared d ≤ available)%nat then Go (0%nat, false, borrowable)
        else Refuse Borrow_evidence_unavailable
      else Go (preferred_borrow, false, borrowable)
  end.

(** Everything after the holders are priced. *)
Definition settle (H : Host) (now : Z) (s : option Sample) (fr : bool) (v : Verdict) (holders : list string) (d : Demand)
    (override : option (list Z)) (serves : option string) (profiles : list (string * Profile))
    (prices : gmap string (option Q * Q)) (terms : Terms) (last : Z) : ans Admission :=
  '(lend, keep, lendable) ← lending H prices holders ∅ ∅ false;
  let cost := requested_cost H now d profiles in
  let full_width_idle := fr && is_nil holders && bool_decide (dm_declared d = length (host_cpus H)) && negb (vd_exceeds v) in
  _ ← refuse_if (match s with
                 | Some s => fr && negb (bool_decide (dm_declared d = 0%nat)) && negb full_width_idle
                             && negb (projected_cpu_fits (ld_busy (sm_load s)) (tm_pending terms) (tm_active terms) cost
                                        (Qnat (length (host_cpus H))))
                 | None => false
                 end) Projected_cpu_cost;
  '(preferred_borrow, borrowing, borrowable) ← placement H s fr d override (lend ∖ keep) lendable last;
  Go (mkAdmission (dm_declared d) cost (dm_shape d) (bool_decide (dm_declared d = 0%nat)) (dm_measurement d) serves
        None None (dm_allowance d) (if exclusive_need H d && fr then Some v else None) now preferred_borrow override
        (default 0 (sm_at <$> s)) borrowing (tm_active terms) (tm_pending terms)
        (merge_sort (busy_le (default ∅ (s ≫= sm_per_cpu))) (elements borrowable)) None).

(** A dependent admitted on its producer's allowance. *)
Definition funded_admission (now : Z) (s : option Sample) (d : Demand) (owner : string) (f : Funded) (measuring : bool)
  : Admission :=
  mkAdmission (dm_declared d) (Qnat (dm_declared d)) (dm_shape d) false false (if measuring then Some owner else None)
    (Some owner) (Some f) None None now 0 None (default 0 (sm_at <$> s)) false 0 0 [] None.

Definition not_fresh : Verdict := mkVerdict Sample_not_fresh true None.

(** The sample's freshness, if there is one. *)
Definition is_fresh (H : Host) (now : Z) (s : option Sample) : bool :=
  match s with Some s => fresh H now s | None => false end.

(** The idle judgement a decision starts with. *)
Definition judgement_step (H : Host) (now : Z) (s : option Sample) (C : Ctl) : Verdict * Ctl :=
  match s with
  | Some s => if fresh H now s then idle_once H s (negb (is_nil (non_mirror_holders H))) C else (not_fresh, C)
  | None => (not_fresh, C)
  end.

(** A measurement's question about the CPUs it would be given. *)
Definition ambient_step (H : Host) (now : Z) (s : option Sample) (d : Demand) : res (option Ambient) :=
  match s with
  | Some s => if dm_measurement d && fresh H now s
              then _measurement_foreign_ambient H s (non_mirror_holders H) (dm_declared d) else Ok None
  | None => Ok None
  end.

(** [Controller.decision]. *)
Definition decision (H : Host) (now : Z) (s : option Sample) (d : Demand) (C : Ctl) : ans Admission * Ctl :=
  let holders := non_mirror_holders H in
  let fr := is_fresh H now s in
  let '(v, C) := judgement_step H now s (set_costs None C) in
  match ambient_step H now s d with
  | Raise e => (Throw e, C)
  | Ok ambient =>
      match (if dm_measurement d then None
             else match dm_owner d with Some (Some owner) => Some (owner, _funding H owner holders (dm_demand d)) | _ => None end) with
      | Some (owner, inl (f, measuring)) =>
          (Go (funded_admission now s d owner f measuring),
           if dm_costs d && fr then (_price_holders H now holders C).2 else C)
      | _ =>
          match gates H s fr v (ct_idle C ≫= λ i, i.2.2) ambient holders d with
          | Refuse r => (Refuse r, C)
          | Throw e => (Throw e, C)
          | Go (override, serves) =>
              let '(profiles, prices, terms, C) := _price_holders H now holders C in
              let C := if fr then C else set_costs None C in
              (settle H now s fr v holders d override serves profiles prices terms
                 (default 0 (fst <$> fi_last_borrow (ct_files C))), C)
          end
      end
  end.

(** [admitted]: the borrow is spent; [id] is the fresh [borrow_id]. *)
Definition admitted (id : string) (a : Admission) (F : Files) : option (Z * option string) * Admission * Files :=
  if dc_borrowing a then
    (fi_last_borrow F,
     mkAdmission (dc_declared a) (dc_cost a) (dc_shape a) (dc_unbounded a) (dc_measurement a) (dc_serves a)
       (dc_funded_by a) (dc_funded a) (dc_allowance a) (dc_idle a) (dc_admitted a) (dc_preferred_borrow a)
       (dc_eligible a) (dc_sampled a) (dc_borrowing a) (dc_active a) (dc_pending a) (dc_borrowable a) (Some id),
     mkFiles (fi_baseline F) (fi_profiles F) (fi_jobs F) (Some (dc_sampled a, Some id)))
  else (None, a, F).

(** [withdrew]: the borrow goes back if it is still this claim's. *)
Definition withdrew (a : Admission) (previous : option (Z * option string)) (F : Files) : Files :=
  if dc_borrowing a then
    match dc_borrow_id a with
    | None => F
    | Some id =>
        if bool_decide (fi_last_borrow F = Some (dc_sampled a, Some id))
        then mkFiles (fi_baseline F) (fi_profiles F) (fi_jobs F) previous else F
    end
  else F.

(** What the ledger is told of an admission. *)
Definition adaptive_of (a : Admission) : Adaptive :=
  mkAdaptive (Z.of_nat (dc_preferred_borrow a)) (dc_borrowing a) (dc_eligible a) (dc_borrowable a)
    (fu_cpus <$> dc_funded a) (dc_allowance a).
