(* ===== verification/AdaptiveCpuFacts.v ===== *)
(** * Inverting an admission decision

    What [AdaptiveCpu.decision] has established when it admits: the gates it
    passed, the prices it compared, the CPUs it lends.  The theorems of
    [AdaptiveCpuSpec] are read off these lemmas. *)
From S2P Require Import Prelude.
From S2P Require Import TokenName.
From S2P Require Import Ledger.
From S2P Require Import Tier.
From S2P Require Import Watch.
From S2P Require Import PoolProbe.
From S2P Require Import IdleBaseline.
From S2P Require Import AdaptiveCpu.
From Stdlib Require Import QArith.QArith QArith.Qminmax Lqa.
From stdpp Require Import options.

Open Scope Z_scope.

(** ** The answer monad *)

Lemma ans_bind_go {A B} (f : A → ans B) (m : ans A) b : m ≫= f = Go b ↔ ∃ a, m = Go a ∧ f a = Go b.
Proof. destruct m; cbn; naive_solver. Qed.

Lemma lift_go {A} (r : res A) a : lift r = Go a ↔ r = Ok a.
Proof. destruct r; cbn; naive_solver. Qed.

Lemma refuse_if_go b r u : refuse_if b r = Go u ↔ b = false.
Proof. destruct u, b; cbn; naive_solver. Qed.

(** Take one step of an answer that went through. *)
Ltac go_step :=
  match goal with
  | H : (_ ≫= _) = Go _ |- _ => apply ans_bind_go in H as (? & ? & H)
  | H : lift _ = Go _ |- _ => apply lift_go in H
  | H : refuse_if _ _ = Go _ |- _ => apply refuse_if_go in H
  | H : Go _ = Go _ |- _ => injection H as H
  | H : Refuse _ = Go _ |- _ => discriminate H
  | H : Throw _ = Go _ |- _ => discriminate H
  end.

(** ** The decision *)

(** It changes the idle history only. *)
Lemma judgement_step_keeps H now s C :
  fi_profiles (ct_files (judgement_step H now s C).2) = fi_profiles (ct_files C)
  ∧ fi_jobs (ct_files (judgement_step H now s C).2) = fi_jobs (ct_files C)
  ∧ fi_last_borrow (ct_files (judgement_step H now s C).2) = fi_last_borrow (ct_files C).
Proof.
  unfold judgement_step, idle_once. destruct s as [s|]; [|done]. destruct (fresh H now s); [|done].
  destruct (ct_idle C) as [[k [v r]]|]; [destruct (bool_decide _); [done|]|];
    by destruct (idle _ _ _ _ _ _) as [[]].
Qed.

Lemma price_loop_reads H now C C' holders :
  fi_profiles (ct_files C) = fi_profiles (ct_files C') → fi_jobs (ct_files C) = fi_jobs (ct_files C') →
  price_loop H now C holders = price_loop H now C' holders.
Proof. unfold price_loop. by intros -> ->. Qed.

(** How a claim is admitted: funded by its producer's allowance, or past every
    gate and at a price. *)
Inductive admission (H : Host) (now : Z) (s : option Sample) (d : Demand) (C : Ctl) : Admission → Prop :=
  | Funded_admission owner f measuring :
      dm_measurement d = false → dm_owner d = Some (Some owner) →
      _funding H owner (non_mirror_holders H) (dm_demand d) = inl (f, measuring) →
      admission H now s d C (funded_admission now s d owner f measuring)
  | Ordinary_admission ambient override serves a (pr := price_loop H now C (non_mirror_holders H))
      (C0 := set_costs None C) :
      ambient_step H now s d = Ok ambient →
      gates H s (is_fresh H now s) (judgement_step H now s C0).1 (ct_idle (judgement_step H now s C0).2 ≫= λ i, i.2.2)
        ambient (non_mirror_holders H) d = Go (override, serves) →
      settle H now s (is_fresh H now s) (judgement_step H now s C0).1 (non_mirror_holders H) d override serves
        (newest (pr_profiles pr)) (pr_prices pr) (pr_terms pr) (default 0 (fst <$> fi_last_borrow (ct_files C))) = Go a →
      admission H now s d C a.

Lemma decision_admission H now s d C a C' : decision H now s d C = (Go a, C') → admission H now s d C a.
Proof.
  unfold decision. pose proof (judgement_step_keeps H now s (set_costs None C)) as (Ep & Ej & El).
  destruct (judgement_step H now s (set_costs None C)) as [v C1] eqn:Ev. cbn [fst snd ct_files set_costs] in *.
  destruct (ambient_step H now s d) as [ambient|e] eqn:Ea; [|done].
  set (fundings := if dm_measurement d then None else _). destruct fundings as [[owner [[f measuring]|why]]|] eqn:Ef; subst fundings.
  { destruct (dm_measurement d) eqn:Em; [done|]. destruct (dm_owner d) as [[o|]|] eqn:Eo; [|done|done].
    intros [= <- <-]. injection Ef as -> Ef. by eapply Funded_admission. }
  all: clear Ef; destruct (gates _ _ _ _ _ _ _ _) as [[override serves]|r|e] eqn:Eg; [|done|done];
    unfold _price_holders; intros [= E _];
    rewrite (price_loop_reads H now C1 C (non_mirror_holders H) Ep Ej) in E;
    eapply (Ordinary_admission H now s d C ambient override serves); rewrite ?Ev; cbn [fst snd]; [done|done|];
    rewrite <- El, <- E; by destruct (is_fresh H now s).
Qed.

(** ** The gates *)

(** What the gates leave established. *)
Record passed (H : Host) (s : option Sample) (fr : bool) (v : Verdict) (reference : option (list Kept))
    (ambient : option Ambient) (holders : list string) (d : Demand) (override : option (list Z)) (serves : option string)
  : Prop := mkPassed {
  pa_pressure : match s with
                | Some s => if fr then pressure_gate H s holders d = Go override else override = None
                | None => override = None
                end;
  pa_measured : dm_measurement d = true → fr = true
                ∧ ∀ s', s = Some s' → _measurement_idle_refusal H s' v ambient reference = None;
  pa_full : full_width H d = true → fr = true → holders = [] → vd_exceeds v = false;
  pa_actions : (length holders < MAX_ACTIONS)%nat;
  pa_bounded : dm_declared d = 0%nat → holders = [] ∧ fr = true ∧ vd_exceeds v = false;
  pa_holders : holder_gate H d (dm_owner d) None holders = Go serves }.

Lemma gates_passed H s fr v reference ambient holders d override serves :
  gates H s fr v reference ambient holders d = Go (override, serves) →
  passed H s fr v reference ambient holders d override serves.
Proof.
  unfold gates. intros Hg. apply ans_bind_go in Hg as (ov & Hpr & Hg).
  apply ans_bind_go in Hg as (? & Hfr%refuse_if_go & Hg). apply ans_bind_go in Hg as (? & Hidle & Hg).
  apply ans_bind_go in Hg as (? & Hfull%refuse_if_go & Hg). apply ans_bind_go in Hg as (? & Hmax%refuse_if_go & Hg).
  apply ans_bind_go in Hg as (? & Hunb%refuse_if_go & Hg). apply ans_bind_go in Hg as (sv & Hh & [= -> ->]).
  apply bool_decide_eq_false in Hmax. split; [| | |lia| |done].
  - destruct s as [s|]; [|by injection Hpr]. destruct fr; [|by injection Hpr]. by apply ans_bind_go in Hpr as (? & _ & ?).
  - intros Em. rewrite Em in *. cbn [andb] in Hfr. apply negb_false_iff in Hfr. split; [done|]. intros s' ->.
    by destruct (_measurement_idle_refusal _ _ _ _ _).
  - intros Ef -> ->. rewrite Ef in Hfull. by destruct (vd_exceeds v).
  - intros E0. rewrite bool_decide_true in Hunb by done. cbn [andb] in Hunb.
    apply orb_false_iff in Hunb as [[H1 H2]%orb_false_iff H3]. apply negb_false_iff in H1, H2. by destruct holders.
Qed.

(** The holders are all known, and a measurement among them is served. *)
Lemma holder_gate_passed H d owner serves0 holders serves :
  holder_gate H d owner serves0 holders = Go serves →
  Forall (λ h, (reserved_cpu H h = 0 ∧ unknown_reservation H h = false)
               ∨ (reserved_cpu H h ≠ 0 ∧ dm_measurement d = false)) holders
  ∧ (∀ h, h ∈ holders → reserved_cpu H h ≠ 0 → ca_measurement (claimed_of H h) = true →
      default (dm_reads d) owner = Some h ∧ serves = Some h)
  ∧ ((∀ h, h ∈ holders → reserved_cpu H h ≠ 0 → ca_measurement (claimed_of H h) = false) → serves = serves0).
Proof.
  revert owner serves0. induction holders as [|h holders IH]; intros owner serves0; cbn [holder_gate].
  { intros [= ->]. split_and!; [constructor|by intros ? ?%elem_of_nil|done]. }
  destruct (bool_decide_reflect (reserved_cpu H h = 0)) as [E0|E0].
  { destruct (unknown_reservation H h) eqn:Eu; [done|]. intros (Hf & Hm & Hs)%IH. split_and!.
    - constructor; [by left|done].
    - intros h' [->|?]%elem_of_cons ?; [done|by apply Hm].
    - intros Hn. apply Hs. intros h' ?. apply Hn. by right. }
  destruct (dm_measurement d) eqn:Em; [done|]. destruct (ca_measurement (claimed_of H h)) eqn:Ec.
  - destruct (bool_decide_reflect (default (dm_reads d) owner = Some h)) as [Eo|]; [|done]. intros (Hf & Hm & Hs)%IH.
    assert (serves = Some h) as ->.
    { destruct (decide (Exists (λ h', reserved_cpu H h' ≠ 0 ∧ ca_measurement (claimed_of H h') = true) holders)) as [Hx|Hx].
      - apply Exists_exists in Hx as (h' & Hin & Hr & Hc). destruct (Hm h' Hin Hr Hc) as [Hd ->]. cbn in Hd. congruence.
      - apply Hs. intros h' Hin Hr. apply not_true_is_false. intros Hc. apply Hx, Exists_exists. eauto. }
    split_and!.
    + constructor; [by right|done].
    + intros h' [->|Hin]%elem_of_cons Hr Hc; [done|]. destruct (Hm h' Hin Hr Hc) as [Hd ?]. cbn in Hd. split; [congruence|done].
    + intros Hn. specialize (Hn h (list_elem_of_here _ _) E0). congruence.
  - intros (Hf & Hm & Hs)%IH. split_and!.
    + constructor; [by right|done].
    + intros h' [->|Hin]%elem_of_cons; [congruence|by apply Hm].
    + intros Hn. apply Hs. intros h' ?. apply Hn. by right.
Qed.

(** The pressure the gate is about: a high PSI no exclusive claim is judged on
    elsewhere. *)
Definition pressed (H : Host) (s : Sample) (holders : list string) (d : Demand) : bool :=
  Qle_bool (10 # 100) (ld_psi (sm_load s)) && (negb (exclusive_need H d) || (full_width H d && negb (is_nil holders))).

Lemma pressure_gate_passed H s holders d override :
  pressure_gate H s holders d = Go override →
  if pressed H s holders d then
    ∃ per_cpu held (E := filter (λ c, (c ∉ held) ∧ (dm_exempt d || cpu_idle (default per_cpu (sm_foreign s)) c) = true) (host_cpus H)),
      sm_per_cpu s = Some per_cpu ∧ proven H per_cpu = true ∧ attributed per_cpu (default per_cpu (sm_foreign s)) = true
      ∧ _held_cpus H holders = Ok held ∧ override = Some E ∧ full_width H d = false
      ∧ ∃ p, _predicted_cpus H (dm_declared d) (Some E) = Ok (Some p)
  else override = None.
Proof.
  unfold pressure_gate, pressed. destruct (Qle_bool _ _ && _); cbn [negb]; [|by intros [= <-]].
  destruct (sm_per_cpu s) as [per_cpu|]; [|done]. destruct (proven H per_cpu) eqn:Ep; cbn [negb]; [|done].
  destruct (full_width H d); [done|]. destruct (attributed _ _) eqn:Ea; cbn [negb]; [|done].
  intros Hp. apply ans_bind_go in Hp as (held & Hh%lift_go & Hp). apply ans_bind_go in Hp as (proof & Hq%lift_go & Hp).
  apply ans_bind_go in Hp as (predicted & _ & Hp). destruct predicted as [predicted|]; [|done].
  destruct (existsb _ _); [done|]. destruct proof as [p|]; cbn in Hp; [|done]. injection Hp as <-.
  exists per_cpu, held. split_and!; try done. by exists p.
Qed.

(** ** Lending *)

Lemma lending_go H prices holders lend keep b lend' keep' b' :
  lending H prices holders lend keep b = Go (lend', keep', b') →
  lend ⊆ lend' ∧ keep ⊆ keep'
  ∧ (∀ h cpu cost, h ∈ holders → prices !! h = Some (cpu, cost) →
      ∃ X, assigned_to H h = Ok X ∧ if lends H h cpu cost then X ⊆ lend' else X ⊆ keep')
  ∧ (∀ c, c ∈ lend' → c ∈ lend ∨ ∃ h cpu cost X, h ∈ holders ∧ prices !! h = Some (cpu, cost)
      ∧ assigned_to H h = Ok X ∧ c ∈ X ∧ lends H h cpu cost = true).
Proof.
  revert lend keep b. induction holders as [|h holders IH]; intros lend keep b; cbn [lending].
  { intros [= -> -> ->]. split_and!; [done|done|by intros ??? ?%elem_of_nil|by left]. }
  destruct (prices !! h) as [[cpu cost]|] eqn:Ep.
  2: { intros (H1 & H2 & H3 & H4)%IH. split_and!; [done|done| |].
       - intros h' cpu cost [->|Hin]%elem_of_cons E; [congruence|by eapply H3].
       - intros c [?|(h' & ? & ? & ? & ? & ?)]%H4; [by left|right]. do 4 eexists. split; [by right|done]. }
  intros Hg. apply ans_bind_go in Hg as (X & HX%lift_go & Hg). destruct (lends H h cpu cost) eqn:El; apply IH in Hg as (H1 & H2 & H3 & H4).
  - split_and!; [set_solver|done| |].
    + intros h' cpu' cost' [->|Hin]%elem_of_cons E; [|by eapply H3]. exists X. split; [done|].
      rewrite Ep in E. injection E as <- <-. rewrite El. set_solver.
    + intros c [[?|?]%elem_of_union|(h' & ? & ? & ? & ? & ?)]%H4; [by left| |]; right.
      * exists h, cpu, cost, X. split_and!; [by left|done..].
      * do 4 eexists. split; [by right|done].
  - split_and!; [done|set_solver| |].
    + intros h' cpu' cost' [->|Hin]%elem_of_cons E; [|by eapply H3]. exists X. split; [done|].
      rewrite Ep in E. injection E as <- <-. rewrite El. set_solver.
    + intros c [?|(h' & ? & ? & ? & ? & ?)]%H4; [by left|right]. do 4 eexists. split; [by right|done].
Qed.

(** ** The placement and the answer *)

(** A borrow's evidence. *)
Lemma authorized_true (fr lendable : bool) (d : Demand) (need have : nat) (s : option Sample) (last : Z) :
  fr && bool_decide (is_Some (dm_shape d)) && negb (dm_measurement d) && lendable && bool_decide (need ≤ have)%nat
    && match s with Some s => bool_decide (last < sm_at s) | None => false end = true →
  dm_measurement d = false ∧ lendable = true ∧ fr = true ∧ is_Some (dm_shape d) ∧ (need ≤ have)%nat
  ∧ ∃ s', s = Some s' ∧ last < sm_at s'.
Proof.
  rewrite !andb_true_iff, negb_true_iff, !bool_decide_eq_true. intros [[[[[??]?]?]?] Hs]. split_and!; try done.
  destruct s as [s|]; [|done]. exists s. by apply bool_decide_eq_true in Hs.
Qed.

(** What a placement may be. *)
Lemma placement_go H s fr d override borrowable lendable last pb borrowing B :
  placement H s fr d override borrowable lendable last = Go (pb, borrowing, B) →
  (if borrowing then
     override = None ∧ B = borrowable ∧ dm_measurement d = false ∧ lendable = true ∧ fr = true ∧ is_Some (dm_shape d)
     ∧ (dm_declared d - default 0%nat (available (ho_ledger H) !! "cpu") ≤ size borrowable)%nat
     ∧ ∃ s', s = Some s' ∧ last < sm_at s'
   else pb = 0%nat ∧ (dm_declared d ≤ default 0%nat (available (ho_ledger H) !! "cpu"))%nat)
  ∧ (is_Some override → borrowing = false ∧ B = ∅ ∧ pb = 0%nat)
  ∧ B ⊆ borrowable.
Proof.
  unfold placement. set (free := default _ _). intros Hp. apply ans_bind_go in Hp as (n & Hn & Hp).
  destruct override as [E|].
  { destruct (bool_decide_reflect (free < dm_declared d)%nat); [done|]. injection Hp as <- <- <-.
    split; [by split; [|lia]|]. split; [done|set_solver]. }
  split; [|split; [by intros [??]|]].
  all: destruct (bool_decide_reflect (free < dm_declared d)%nat) as [Hf|Hf]; cbn [orb] in Hp;
    [|destruct (bool_decide_reflect (0 < n)%nat)].
  all: try (destruct (_ && _ && match s with Some _ => _ | None => _ end) eqn:Ea;
    [injection Hp as <- <- <-; try done; by apply authorized_true in Ea|
     destruct (bool_decide_reflect (dm_declared d ≤ free)%nat); [|done]]).
  all: injection Hp as <- <- <-; try done; (split; [lia|lia]).
Qed.

Lemma settle_go H now s fr v holders d override serves profiles prices terms last a :
  settle H now s fr v holders d override serves profiles prices terms last = Go a →
  ∃ lend keep lendable pb borrowing B,
    lending H prices holders ∅ ∅ false = Go (lend, keep, lendable)
    ∧ placement H s fr d override (lend ∖ keep) lendable last = Go (pb, borrowing, B)
    ∧ (∀ s', s = Some s' → fr = true → dm_declared d ≠ 0%nat →
         holders ≠ [] ∨ dm_declared d ≠ length (host_cpus H) ∨ vd_exceeds v = true →
         projected_cpu_fits (ld_busy (sm_load s')) (tm_pending terms) (tm_active terms) (requested_cost H now d profiles)
           (Qnat (length (host_cpus H))) = true)
    ∧ a = mkAdmission (dm_declared d) (requested_cost H now d profiles) (dm_shape d) (bool_decide (dm_declared d = 0%nat))
            (dm_measurement d) serves None None (dm_allowance d) (if exclusive_need H d && fr then Some v else None) now pb
            override (default 0 (sm_at <$> s)) borrowing (tm_active terms) (tm_pending terms)
            (merge_sort (busy_le (default ∅ (s ≫= sm_per_cpu))) (elements B)) None.
Proof.
  unfold settle. intros Hs. apply ans_bind_go in Hs as ([[lend keep] lendable] & Hl & Hs).
  apply ans_bind_go in Hs as (? & Hf%refuse_if_go & Hs). apply ans_bind_go in Hs as ([[pb borrowing] B] & Hp & [= <-]).
  exists lend, keep, lendable, pb, borrowing, B. split_and!; [done|done| |done].
  intros s' -> -> Hd Hx. rewrite bool_decide_false in Hf by done. cbn [andb negb] in Hf.
  assert (is_nil holders && bool_decide (dm_declared d = length (host_cpus H)) && negb (vd_exceeds v) = false) as E.
  { destruct Hx as [Hx|[Hx|Hx]]; [by destruct holders|rewrite bool_decide_false by done|rewrite Hx];
      by rewrite ?andb_false_r. }
  rewrite E in Hf. cbn [andb negb] in Hf. by apply negb_false_iff in Hf.
Qed.

(** ** Prices *)

Definition rate_of (H : Host) (now : Z) (recent : gmap string Tele) (h : string) : option Q :=
  match rate H now h recent with Fresh_rate c => Some c | Kept_rate c _ => c | No_rate _ => None end.

(** A holder's price: its measured rate with a margin, or all it reserved. *)
Definition cost_of (H : Host) (now : Z) (recent : gmap string Tele) (h : string) : Q :=
  match rate_of H now recent h with None => inject_Z (reserved_cpu H h) | Some c => cpu_consumption_cost c end.

Definition sumQ {A} (f : A → Q) (l : list A) : Q := foldr (λ x acc, f x + acc)%Q 0%Q l.

Lemma price_holder_eq H now recent a h :
  pr_prices (price_holder H now recent a h)
  = (if bool_decide (reserved_cpu H h = 0) then pr_prices a
     else <[h := (rate_of H now recent h, cost_of H now recent h)]> (pr_prices a))
  ∧ pr_terms (price_holder H now recent a h)
    = (if bool_decide (reserved_cpu H h = 0) then pr_terms a
       else mkTerms (tm_active (pr_terms a) + cost_of H now recent h)
              (match rate_of H now recent h with None => tm_pending (pr_terms a) + cost_of H now recent h
                                               | Some _ => tm_pending (pr_terms a) end)%Q).
Proof.
  unfold price_holder, cost_of, rate_of. destruct (bool_decide _); [done|].
  by destruct (rate H now h recent) as [c|c p|[r|]].
Qed.

(** The holders with a reservation, and those of them no rate is known of. *)
Definition reserved_holders (H : Host) (holders : list string) : list string :=
  filter (λ h, reserved_cpu H h ≠ 0) holders.
Definition unmeasured (H : Host) (now : Z) (recent : gmap string Tele) (holders : list string) : list string :=
  filter (λ h, rate_of H now recent h = None) (reserved_holders H holders).

Lemma foldl_prices H now recent a holders h :
  pr_prices (foldl (price_holder H now recent) a holders) !! h
  = if bool_decide (h ∈ reserved_holders H holders) then Some (rate_of H now recent h, cost_of H now recent h)
    else pr_prices a !! h.
Proof.
  revert a. induction holders as [|h' holders IH]; intros a; cbn [foldl]; [done|]. rewrite IH.
  destruct (price_holder_eq H now recent a h') as [-> _]. unfold reserved_holders in *. rewrite filter_cons.
  destruct (bool_decide_reflect (reserved_cpu H h' = 0)) as [E|E].
  - by rewrite decide_False by auto.
  - rewrite decide_True by done. destruct (decide (h = h')) as [->|Hne].
    + rewrite lookup_insert_eq. rewrite (bool_decide_true (h' ∈ h' :: _)) by by left. by destruct (bool_decide _).
    + rewrite lookup_insert_ne by done.
      by rewrite (bool_decide_ext (h ∈ h' :: _) (h ∈ filter (λ h, reserved_cpu H h ≠ 0) holders))
        by (rewrite elem_of_cons; naive_solver).
Qed.

Lemma foldl_terms H now recent a holders :
  tm_active (pr_terms (foldl (price_holder H now recent) a holders))
    == tm_active (pr_terms a) + sumQ (cost_of H now recent) (reserved_holders H holders)
  ∧ tm_pending (pr_terms (foldl (price_holder H now recent) a holders))
    == tm_pending (pr_terms a) + sumQ (cost_of H now recent) (unmeasured H now recent holders).
Proof.
  revert a. induction holders as [|h holders IH]; intros a; cbn [foldl]; [cbn; split; ring|].
  destruct (IH (price_holder H now recent a h)) as [-> ->]. destruct (price_holder_eq H now recent a h) as [_ ->].
  unfold unmeasured, reserved_holders. rewrite filter_cons.
  destruct (bool_decide_reflect (reserved_cpu H h = 0)) as [E|E]; [by rewrite decide_False by auto|].
  rewrite decide_True by done. rewrite (filter_cons (λ h, rate_of H now recent h = None)).
  destruct (rate_of H now recent h) eqn:Er; [rewrite decide_False by done|rewrite decide_True by done];
    cbn [tm_active tm_pending]; unfold sumQ; cbn [foldr]; split; ring.
Qed.

Lemma price_loop_prices H now C holders h :
  pr_prices (price_loop H now C holders) !! h
  = if bool_decide (h ∈ reserved_holders H holders)
    then Some (rate_of H now (fi_jobs (ct_files C)) h, cost_of H now (fi_jobs (ct_files C)) h) else None.
Proof. apply foldl_prices. Qed.

Lemma price_loop_terms H now C holders (p := price_loop H now C holders) :
  tm_active (pr_terms p) == sumQ (cost_of H now (fi_jobs (ct_files C))) (reserved_holders H holders)
  ∧ tm_pending (pr_terms p) == sumQ (cost_of H now (fi_jobs (ct_files C))) (unmeasured H now (fi_jobs (ct_files C)) holders).
Proof.
  subst p. unfold price_loop. destruct (foldl_terms H now (fi_jobs (ct_files C))
    (mkPricing (sorted_items (fi_profiles (ct_files C))) ∅ ∅ (mkTerms 0 0) true) holders) as [-> ->].
  cbn [pr_terms tm_active tm_pending]. split; ring.
Qed.

Lemma cost_of_pos H now recent h : 0 < reserved_cpu H h → (5 # 100 <= cost_of H now recent h)%Q.
Proof.
  intros Hr. unfold cost_of. destruct (rate_of H now recent h); [apply Q.le_max_l|].
  apply (Qle_trans _ 1); [done|]. change 1%Q with (inject_Z 1). rewrite <- Zle_Qle. lia.
Qed.

(** A claim asks for no more than it declared, and never for nothing. *)
Lemma requested_cost_bounds H now d profiles :
  dm_declared d ≠ 0%nat →
  (5 # 100 <= requested_cost H now d profiles)%Q ∧ (requested_cost H now d profiles <= Qnat (dm_declared d))%Q.
Proof.
  intros Hd. assert (1 <= Qnat (dm_declared d))%Q.
  { unfold Qnat. change 1%Q with (inject_Z 1). rewrite <- Zle_Qle. lia. }
  unfold requested_cost. rewrite bool_decide_false by done.
  destruct (dm_shape d ≫= _) as [p|]; [destruct (_ && _)|]; [|split; [lra|apply Qle_refl]..].
  split; [apply Q.le_max_l|]. apply Q.max_lub; [lra|apply Q.le_min_l].
Qed.

Lemma projected_fits_true busy pending active cost total :
  projected_cpu_fits busy pending active cost total = true →
  (busy + pending + cost <= total + PROJECTED_CPU_TOLERANCE)%Q ∧ (active + cost <= total + PROJECTED_CPU_TOLERANCE)%Q.
Proof.
  unfold projected_cpu_fits. intros [_ Hf%Qle_bool_imp_le]%andb_true_iff.
  pose proof (Q.le_max_l (busy + pending) active). pose proof (Q.le_max_r (busy + pending) active). split; lra.
Qed.

(** ** Hosts to try the theorems on *)

(** A host of four CPUs, one held by an action that is not measured. *)
Definition four_tiers : CpuTiers := mkTiers [0; 1; 2; 3] [].
Definition four_ledger : Ledger :=
  mkLedger {[ "cpu-0001"; "cpu-0002"; "cpu-0003" ]} {[ "other" := mkHolder {[ "cpu-0000" ]} None None ]} ∅ ∅ None None.
Definition four_host : Host := mkHost four_ledger four_tiers ∅ ["other"] (λ _, None).
Definition quiet_sample : Sample := mkSample 100 (mkLoad 0 0) second 4 None None.
Definition new_ctl : Ctl := mkCtl (mkFiles None ∅ ∅ None) None None.
Definition two_cpus : Demand := mkDemand {[ "cpu" := 2%nat ]} (Some "shape") false (Some None) None None false false.

(** The host with its holder measured at a tenth of the CPU it reserved. *)
Definition lending_meta : CpuMeta := mkCpuMeta (mkAdaptive 0 false None [] None None) None 0 None.
Definition lending_ledger : Ledger :=
  mkLedger {[ "cpu-0002"; "cpu-0003" ]}
    {[ "other" := mkHolder {[ "cpu-0000"; "cpu-0001" ]} (Some lending_meta) None ]} ∅ ∅ None None.
Definition tele_at (t : Z) (cpu wall : Q) (rate : option Q) : Tele := mkTele true t None cpu wall None 0 rate.
Definition lending_host : Host :=
  mkHost lending_ledger four_tiers {[ "other" := mkClaimed (Some 2) (Some "cheap") false None (Some 0) ]} ["other"]
    (λ _, Some (tele_at (10 * second) (2 # 10) 10 None)).
Definition lending_ctl : Ctl :=
  mkCtl (mkFiles None ∅ {[ "other" := tele_at (8 * second) 0 8 None ]} None) None None.
Definition three_cpus : Demand := mkDemand {[ "cpu" := 3%nat ]} (Some "shape") false (Some None) None None false false.
Definition later_sample : Sample := mkSample (10 * second) (mkLoad 0 0) second 4 None None.

(** A measurement of one CPU, and an export that serves it on a free one. *)
Definition measuring_host : Host :=
  mkHost (mkLedger {[ "cpu-0001"; "cpu-0002" ]} {[ "m" := mkHolder {[ "cpu-0000" ]} (Some lending_meta) None ]} ∅ ∅ None None)
    four_tiers {[ "m" := mkClaimed (Some 1) (Some "shape") true None (Some 0) ]} ["m"] (λ _, None).
Definition serving : Demand := mkDemand {[ "cpu" := 1%nat ]} None false (Some (Some "m")) None None false false.

(** The host under pressure, its free CPUs idle. *)
Definition pressed_sample : Sample :=
  mkSample 100 (mkLoad 1 (5 # 10)) second 4 (Some {[ 0 := 1%Q; 1 := 0%Q; 2 := 0%Q; 3 := 0%Q ]}) None.

Definition a_claimant : Claimant := mkClaimant 1 "box" 2 "n".
