(* ===== verification/AdaptiveCpuLedger.v ===== *)
(** * The CPUs an admission ends up with

    From the decision to the ledger: a claim admitted for named CPUs
    ([eligible_cpus]) that borrows nothing takes only tokens of those CPUs,
    and the allocation the ledger records for it has no other. *)
From S2P Require Import Prelude.
From S2P Require Import TokenName.
From S2P Require Import Ledger.
From S2P Require Import LedgerFacts.
From S2P Require Import LedgerEffects.
From S2P Require Import LedgerCount.
From stdpp Require Import options.

(** ** Tokens and the CPUs they represent *)

Definition represents (t : CpuTiers) (n : string) (c : Z) : Prop :=
  ∃ i, token_index n = Some i ∧ (preferred t ++ fallback t) !! N.to_nat i = Some c.

Lemma represents_fun t n c c' : represents t n c → represents t n c' → c = c'.
Proof. intros (i & Hi & Hc) (j & Hj & Hc'). congruence. Qed.

Lemma cpu_ids_represents ns t cs : cpu_ids ns t = Ok cs → Forall2 (represents t) ns cs.
Proof.
  revert cs. induction ns as [|n ns IH]; cbn [cpu_ids]; intros cs; [by intros [= <-]; constructor|].
  destruct (token_index n) as [i|] eqn:Ei; [|done]. destruct (_ !! N.to_nat i) as [c|] eqn:Ec; [|done].
  destruct (cpu_ids ns t) as [cs'|]; [|done]. intros [= <-]. constructor; [by exists i|by apply IH].
Qed.

(** Every CPU token of the holder is of an eligible CPU. *)
Definition eligible_held (t : CpuTiers) (allowed : list Z) (h : string) (L : Ledger) : Prop :=
  ∀ n, n ∈ toks L (Held h) → of_kind "cpu" n = true → ∃ c, represents t n c ∧ c ∈ allowed.

Lemma free_cpu_tokens_eligible t allowed L ns :
  free_cpu_tokens (Some t) (Some allowed) L = Ok ns →
  NoDup ns ∧ Forall (λ n, of_kind "cpu" n = true ∧ ∃ c, represents t n c ∧ c ∈ allowed) ns.
Proof.
  unfold free_cpu_tokens. destruct (cpu_ids _ _) as [cs|] eqn:E; [|done]. intros [= <-].
  apply cpu_ids_represents in E. set (tokens := listing _) in *. split.
  - eapply sublist_NoDup; [|apply fmap_sublist, sublist_filter]. rewrite fst_zip; [apply NoDup_listing|].
    by erewrite Forall2_length by exact E.
  - apply Forall_forall. intros n ([n' c] & -> & [Hc Hz]%list_elem_of_filter)%list_elem_of_fmap. cbn in *.
    split.
    + apply elem_of_zip_l in Hz. apply elem_of_listing, elem_of_filter in Hz. apply Hz.
    + exists c. split; [|done]. apply list_elem_of_lookup in Hz as (i & Hi).
      apply lookup_zip_Some in Hi as [H1 H2]. by eapply Forall2_lookup_lr.
Qed.

(** ** Taking *)

Lemma take_loop_eligible E h t allowed need kind ns L tk u L' :
  take_loop E h need ns L = (tk, Ok u, L') → NoDup ns → plain (l_free L) → eligible_held t allowed h L →
  Forall (λ n, of_kind kind n = true ∧ (kind = "cpu" → ∃ c, represents t n c ∧ c ∈ allowed)) ns →
  plain (l_free L') ∧ eligible_held t allowed h L'.
Proof.
  intros Ht Hnd Hpl Hel Hns. apply take_loop_spec in Ht as (m & Hsub & _ & _ & Hm); [|done].
  pose proof Hm as (HXs & HXf & _). split.
  { eapply plain_subseteq; [|exact Hpl]. change (toks L' Free) with (l_free L') in HXf. rewrite HXf.
    change (toks L Free) with (l_free L). set_solver. }
  intros n Hn Hcpu. apply (moves_in Free (Held h) _ _ _ n (Held h) ltac:(done) Hm) in Hn as [[_ Hn%elem_of_list_to_set]|[Hn _]];
    [|by apply Hel].
  assert (n ∈ ns) as Hin by (eapply elem_of_submseteq; [done|by apply sublist_submseteq]).
  rewrite Forall_forall in Hns. destruct (Hns n Hin) as [Hk He]. apply He.
  assert (n ∈ l_free L) as Hf by (apply HXs; by apply elem_of_list_to_set).
  by rewrite <- (plain_kind _ _ _ Hpl Hf Hk), (plain_kind _ _ _ Hpl Hf Hcpu).
Qed.

Lemma take_kinds_eligible E h ad t allowed g ws L L' :
  ad_eligible_cpus ad = Some allowed → take_kinds E h (Some ad) (Some t) g ws L = (Done, L') → plain (l_free L) → eligible_held t allowed h L →
  eligible_held t allowed h L'.
Proof.
  intros Had. revert L. induction ws as [|[kind v] ws IH]; intros L Ht Hpl Hel; cbn [take_kinds] in Ht; [by simplify_eq|].
  rewrite Had in Ht. set (src := if bool_decide (kind = "cpu") then _ else _) in Ht.
  destruct src as [ns|] eqn:Es; subst src; [|done].
  destruct (take_loop E h _ ns L) as [[tk [u|]] L1] eqn:Htl; [|done]. destruct (_ && _); [done|].
  assert (NoDup ns ∧ Forall (λ n, of_kind kind n = true ∧ (kind = "cpu" → ∃ c, represents t n c ∧ c ∈ allowed)) ns)
    as [Hnd Hns].
  { destruct (bool_decide_reflect (kind = "cpu")) as [->|Hk].
    - apply free_cpu_tokens_eligible in Es as [? Hf]. split; [done|]. eapply Forall_impl; [exact Hf|]. by intros n [??].
    - injection Es as <-. split; [apply NoDup_listing|]. apply Forall_forall.
      intros n [??]%elem_of_listing%elem_of_filter. done. }
  destruct (take_loop_eligible _ _ _ _ _ _ _ _ _ _ _ Htl Hnd Hpl Hel Hns) as [? ?]. by apply (IH L1).
Qed.

(** ** The recorded allocation *)

(** Without a recorded allocation a holder has its tokens' CPUs. *)
Lemma allocation_eligible t allowed h L a :
  cpu_meta h L = None → eligible_held t allowed h L → cpu_allocation h t L = Ok a →
  Forall (.∈ allowed) (preferred a ++ fallback a).
Proof.
  intros Hm Hel. unfold cpu_allocation. rewrite Hm. destruct (cpu_ids _ t) as [cs|] eqn:E; [|done].
  intros [= <-]. cbn [preferred fallback]. apply cpu_ids_represents in E.
  apply Forall_forall. intros c [[Hc _]%list_elem_of_filter|[Hc _]%list_elem_of_filter]%elem_of_app.
  all: apply list_elem_of_lookup in Hc as (i & Hi); destruct (Forall2_lookup_r _ _ _ _ _ E Hi) as (n & Hn & Hr).
  all: apply list_elem_of_lookup_2, elem_of_listing, elem_of_filter in Hn as [Hk Hn].
  all: destruct (Hel n Hn Hk) as (c' & Hr' & Hc'); by rewrite (represents_fun _ _ _ _ Hr Hr').
Qed.

Lemma write_cpu_meta_allocation E h ad t w L L' allowed :
  write_cpu_meta E h (Some ad) (Some t) w L = (Done, L') → ad_funded ad = None → ad_borrowable_cpus ad = [] →
  is_Some (l_held L !! h) → cpu_meta h L = None → eligible_held t allowed h L →
  ∃ a, cpu_allocation h t L' = Ok a ∧ Forall (.∈ allowed) (preferred a ++ fallback a).
Proof.
  intros Hw Hf Hb [d Hd] Hm Hel. unfold write_cpu_meta in Hw.
  destruct (cpu_allocation h t L) as [a0|] eqn:Ea; [|done].
  pose proof (allocation_eligible _ _ _ _ _ Hm Hel Ea) as H0. unfold assigned_cpus in Hw. rewrite Hf, Hb in Hw. cbn [borrow_tier] in Hw.
  set (own := list_to_set _ : gset Z) in Hw. destruct (bool_decide (size own = _)) in Hw; [|done].
  set (alloc := mkTiers _ _) in Hw.
  assert (Forall (.∈ allowed) (preferred alloc ++ fallback alloc)) as H1.
  { apply Forall_forall. intros c [[Hc _]%list_elem_of_filter|[Hc _]%list_elem_of_filter]%elem_of_app;
      apply elem_of_list_to_set in Hc; rewrite Forall_forall in H0; by apply H0. }
  assert (∀ a b g, set_meta E h (set_cpu (Some (mkCpuMeta ad (Some a) b g))) L = (Done, L') → cpu_allocation h t L' = Ok a) as Hset.
  { intros a b g. unfold set_meta. destruct (io_write_meta E h); [done|]. intros [= <-].
    unfold cpu_allocation, cpu_meta. cbn. by rewrite lookup_alter_eq, Hd. }
  destruct (ad_dependent_allowance ad) as [al|]; [|by eauto].
  destruct (cpu_ids _ t) as [cs|]; [|done]. destruct (grant_allowance al alloc cs) as [[a' g]|] eqn:Eg; [|done].
  exists a'. split; [by eauto|]. unfold grant_allowance in Eg. destruct (_ || _) in Eg; [done|]. injection Eg as <- <-.
  cbn [preferred fallback]. rewrite Forall_forall in H1. apply Forall_forall.
  intros c [[_ Hc]%list_elem_of_filter|[_ Hc]%list_elem_of_filter]%elem_of_app; apply H1, elem_of_app; [by left|by right].
Qed.

(** ** The acquisition *)

Lemma mkdir_held h L : is_Some (l_held (mkdir h L) !! h).
Proof. unfold mkdir. destruct (l_held L !! h) eqn:E; [by rewrite E|]. cbn. by rewrite lookup_insert_eq. Qed.

Lemma put_keeps_dir p X L h : is_Some (l_held L !! h) → is_Some (l_held (put p X L) !! h).
Proof.
  intros Hh. destruct p as [|h'|]; cbn; [done| |done]. destruct (decide (h = h')) as [->|?];
    [by rewrite lookup_insert_eq|by rewrite lookup_insert_ne].
Qed.

Lemma rename_keeps_dir E p q n L e L' h : rename E p q n L = (e, L') → is_Some (l_held L !! h) → is_Some (l_held L' !! h).
Proof.
  unfold rename. destruct (io_rename E p q n); [by intros [= _ <-]|].
  destruct (bool_decide _); intros [= _ <-] Hh; [|done]. by apply put_keeps_dir, put_keeps_dir.
Qed.

Lemma take_loop_keeps_dir E h need ns L t r L' h' :
  take_loop E h need ns L = (t, r, L') → is_Some (l_held L !! h') → is_Some (l_held L' !! h').
Proof.
  revert need L t. induction ns as [|n ns IH]; intros need L t; cbn [take_loop]; [by intros [= _ _ <-]|].
  destruct (bool_decide _); [by intros [= _ _ <-]|].
  destruct (rename E Free (Held h) n L) as [[[]|] L1] eqn:Hr; intros Ht Hh; apply (rename_keeps_dir _ _ _ _ _ _ _ h' Hr) in Hh.
  - by eapply IH.
  - by injection Ht as _ _ <-.
  - destruct (take_loop E h (need - 1) ns L1) as [[t' r'] L2] eqn:Ht'. injection Ht as _ <- <-. by eapply IH.
Qed.

Lemma take_kinds_keeps_dir E h ad ti g ws L a L' h' :
  take_kinds E h ad ti g ws L = (a, L') → is_Some (l_held L !! h') → is_Some (l_held L' !! h').
Proof.
  revert L. induction ws as [|[kind v] ws IH]; intros L; cbn [take_kinds]; [by intros [= _ <-]|].
  destruct (if bool_decide (kind = "cpu") then _ else _) as [ns|e]; [|by intros [= _ <-]].
  destruct (take_loop E h _ _ L) as [[t [u|e]] L1] eqn:Ht; intros Hk Hh; apply (take_loop_keeps_dir _ _ _ _ _ _ _ _ h' Ht) in Hh.
  - destruct (_ && _); [by injection Hk as _ <-|by eapply IH].
  - by injection Hk as _ <-.
Qed.

(** The GPU sidecar leaves the CPU part alone. *)
Lemma write_gpu_meta_keeps E h g w L a L' :
  write_gpu_meta E h g w L = (a, L') →
  cpu_meta h L' = cpu_meta h L ∧ (is_Some (l_held L !! h) → is_Some (l_held L' !! h)).
Proof.
  unfold write_gpu_meta, set_meta, cpu_meta. destruct g as [g|]; [|by intros [= _ <-]].
  destruct (io_write_meta E h); intros [= _ <-]; [done|]. cbn. rewrite lookup_alter_eq.
  destruct (l_held L !! h); [by split; [|intros _; eexists]|]. split; [done|]. by intros [].
Qed.

(** A claim for named CPUs that borrows nothing runs on those CPUs only. *)
Lemma begin_acquire_eligible E lock_free c key demand ad t g L L' h allowed :
  _begin_acquire_locked E lock_free c key demand (Some ad) (Some t) g L = (L', Ok (Some h)) →
  ad_eligible_cpus ad = Some allowed → ad_funded ad = None → ad_borrowable_cpus ad = [] →
  l_held L !! h = None → plain (l_free L) →
  ∃ a, cpu_allocation h t L' = Ok a ∧ Forall (.∈ allowed) (preferred a ++ fallback a).
Proof.
  intros Hb Had Hf Hbo Hh Hpl. unfold _begin_acquire_locked in Hb. destruct lock_free; cbn [negb] in Hb; [|done].
  rewrite Hf in Hb. destruct (_ && _) in Hb.
  { injection Hb as <- <-. set (L0 := set_shortage None L).
    assert (toks L0 (Held (handle_for c key)) = ∅) as Ht by (unfold toks; cbn [l_held set_shortage L0]; by rewrite Hh).
    assert (cpu_meta (handle_for c key) L0 = None) as Hm by (unfold cpu_meta; cbn [l_held set_shortage L0]; by rewrite Hh).
    assert (∃ a, cpu_allocation (handle_for c key) t L0 = Ok a) as [a Ha].
    { unfold cpu_allocation. rewrite Hm, Ht. by eexists. }
    exists a. split; [done|]. eapply allocation_eligible; [exact Hm| |exact Ha]. intros n. rewrite Ht. set_solver. }
  destruct (acquire_attempt _ _ _ _ _ _ _) as [at1 L1] eqn:Ea.
  destruct at1; [injection Hb as <- <-|by destruct (_empty_into_free _ _ _) as [? []]..].
  unfold acquire_attempt in Ea. set (h := handle_for c key) in *. set (L0 := mkdir h (set_shortage None L)) in *.
  destruct (take_kinds _ _ _ _ _ _ _) as [[] L2] eqn:Et; [|done|done].
  destruct (write_gpu_meta _ _ _ _ _) as [[] L3] eqn:Eg; [|done|done].
  assert (cpu_meta h L0 = None ∧ toks L0 (Held h) = ∅ ∧ l_free L0 = l_free L) as (Hm0 & Ht0 & Hf0).
  { subst L0. unfold mkdir, cpu_meta, toks. cbn [l_held set_shortage]. rewrite Hh. cbn. by rewrite lookup_insert_eq. }
  pose proof (take_kinds_eligible _ _ _ _ allowed _ _ _ _ Had Et ltac:(by rewrite Hf0) ltac:(by intros n; rewrite Ht0; set_solver)) as He2.
  destruct (take_kinds_same_meta _ _ _ _ _ _ _ _ _ Et h) as [Hm2 _].
  destruct (write_gpu_meta_keeps _ _ _ _ _ _ _ Eg) as [Hm3 Hd3].
  pose proof (take_kinds_keeps_dir _ _ _ _ _ _ _ _ _ h Et (mkdir_held h _)) as Hd2.
  eapply (write_cpu_meta_allocation _ _ _ _ _ _ _ allowed Ea); [done|done|by apply Hd3|congruence|].
  intros n Hn. apply He2. apply write_gpu_meta_same in Eg as [Eg _]. by rewrite <- Eg.
Qed.
