(* ===== verification/AdaptiveCpuSpec.v ===== *)
(** * What CPU admission guarantees

    Theorems about [AdaptiveCpu]: an admitted claim fits the box beside the
    prices of its holders, a measurement is alone or served, lent CPUs are
    lent by everybody who runs on them, a claim admitted under pressure runs
    on the CPUs the pressure was excused for, an allowance is never given
    twice, and a sample pays for one borrow. *)
From S2P Require Import Prelude.
From S2P Require Import TokenName.
From S2P Require Import Ledger.
From S2P Require Import Tier.
From S2P Require Import Watch.
From S2P Require Import PoolProbe.
From S2P Require Import IdleBaseline.
From S2P Require Import AdaptiveCpu.
From S2P Require Import AdaptiveCpuFacts.
From S2P Require Import LedgerCount.
From S2P Require Import AdaptiveCpuLedger.
From Stdlib Require Import QArith.QArith QArith.Qminmax Lqa.
From stdpp Require Import options.

Open Scope Z_scope.

(** ** The box is not oversold *)

(** C16: an admitted claim that pays for itself fits: with a fresh sample, what
    the host already runs, the reservations no telemetry measures, and the
    claim's own cost do not exceed its CPUs, and neither do all holders' prices
    with that cost, up to the tolerance; a price is a measured rate with its
    margin or everything the holder reserved; the claim costs no more than it
    declares.  Three kinds of claim are admitted without this and are left out:
    a dependent that runs on its producer's allowance, a claim that declares no
    number of CPUs, and a claim of every CPU on a host without holders. *)
Theorem admission_fits H now s d C a C' (recent := fi_jobs (ct_files C)) (holders := non_mirror_holders H) :
  decision H now (Some s) d C = (Go a, C') → dc_funded a = None →
  fresh H now s = true → dm_declared d ≠ 0%nat →
  holders ≠ [] ∨ dm_declared d ≠ length (host_cpus H) →
  (ld_busy (sm_load s) + sumQ (cost_of H now recent) (unmeasured H now recent holders) + dc_cost a
     <= Qnat (length (host_cpus H)) + PROJECTED_CPU_TOLERANCE)%Q
  ∧ (sumQ (cost_of H now recent) (reserved_holders H holders) + dc_cost a
     <= Qnat (length (host_cpus H)) + PROJECTED_CPU_TOLERANCE)%Q
  ∧ (5 # 100 <= dc_cost a)%Q ∧ (dc_cost a <= Qnat (dm_declared d))%Q.
Proof.
  intros Hd Hf Hfr H0 Hx. apply decision_admission in Hd. destruct Hd as [|ambient override serves a p C0 _ _ Hs]; [done|].
  apply settle_go in Hs as (lend & keep & lendable & pb & borrowing & B & _ & _ & Hp & ->). cbn [dc_cost].
  pose proof (price_loop_terms H now C holders) as [Ea Ep].
  destruct (projected_fits_true _ _ _ _ _ (Hp s eq_refl Hfr H0 (match Hx with or_introl x => or_introl x | or_intror x => or_intror (or_introl x) end)))
    as [H1 H2].
  subst p. fold holders in H1, H2. rewrite Ep in H1. rewrite Ea in H2. by split_and!; [..|apply requested_cost_bounds|apply requested_cost_bounds].
Qed.

(** A host of four CPUs, one held by an action that is not measured. *)
Lemma admission_fits_witness :
  ∃ a C', decision four_host 200 (Some quiet_sample) two_cpus new_ctl = (Go a, C')
    ∧ (sumQ (cost_of four_host 200 ∅) (reserved_holders four_host ["other"]) + dc_cost a <= 4 + PROJECTED_CPU_TOLERANCE)%Q.
Proof.
  destruct (decision four_host 200 (Some quiet_sample) two_cpus new_ctl) as [r C'] eqn:E.
  assert (∃ a, r = Go a ∧ dc_funded a = None) as (a & -> & Hf).
  { apply (f_equal fst) in E. cbn [fst] in E. subst r. vm_compute. by eexists. }
  exists a, C'. split; [done|]. by eapply (admission_fits four_host 200 quiet_sample two_cpus new_ctl a C'); [..|left].
Defined.

(** ** Lending *)

(** A lender: its rate is known, below what it reserved with the margin, and
    it is neither a measurement nor run on somebody's allowance. *)
Definition lender (H : Host) (now : Z) (recent : gmap string Tele) (h : string) : Prop :=
  (∃ c, rate_of H now recent h = Some c ∧ (cpu_consumption_cost c < inject_Z (reserved_cpu H h))%Q)
  ∧ ca_measurement (claimed_of H h) = false ∧ ca_funded_by (claimed_of H h) = None.

Lemma lends_lender H now recent h : lends H h (rate_of H now recent h) (cost_of H now recent h) = true → lender H now recent h.
Proof.
  unfold lends, lender, cost_of. rewrite !andb_true_iff, !negb_true_iff, !bool_decide_eq_true.
  intros [[[[[c ->] _] ?] ?] Hq]. split; [|done]. exists c. split; [done|].
  apply Qnot_le_lt. rewrite <- Qle_bool_iff. congruence.
Qed.

(** What the CPUs an ordinary admission may borrow are. *)
Lemma borrowable_lent H now s d C a C' c :
  decision H now s d C = (Go a, C') → c ∈ dc_borrowable a →
  (∃ h X, h ∈ non_mirror_holders H ∧ assigned_to H h = Ok X ∧ c ∈ X ∧ lender H now (fi_jobs (ct_files C)) h)
  ∧ ∀ h X, h ∈ non_mirror_holders H → reserved_cpu H h ≠ 0 → assigned_to H h = Ok X → c ∈ X →
      lender H now (fi_jobs (ct_files C)) h.
Proof.
  intros Hd%decision_admission Hc. destruct Hd as [|ambient override serves a p C0 _ _ Hs]; [by apply elem_of_nil in Hc|].
  apply settle_go in Hs as (lend & keep & lendable & pb & borrowing & B & Hl & (_ & _ & HB)%placement_go & _ & ->).
  cbn [dc_borrowable] in Hc. rewrite merge_sort_Permutation, elem_of_elements in Hc. apply HB, elem_of_difference in Hc as [Hc Hk].
  apply lending_go in Hl as (_ & _ & Hall & Hin). split.
  - destruct (Hin c Hc) as [[]%elem_of_empty|(h & cpu & cost & X & Hh & Hp & HX & HcX & Hl)].
    exists h, X. split_and!; [done..|]. subst p. rewrite price_loop_prices in Hp. destruct (bool_decide _); [|done].
    injection Hp as <- <-. by apply lends_lender.
  - intros h X Hh Hr HX HcX.
    destruct (Hall h (rate_of H now (fi_jobs (ct_files C)) h) (cost_of H now (fi_jobs (ct_files C)) h) Hh) as (Y & HY & Hl).
    { subst p. rewrite price_loop_prices, bool_decide_true; [done|]. by apply list_elem_of_filter. }
    rewrite HX in HY. injection HY as <-. destruct (lends _ _ _ _) eqn:El; [by apply lends_lender|]. by apply Hl in HcX.
Qed.

(** A CPU that an admission may borrow is some holder's, whose measured
    rate leaves room on it, and every holder with a reservation that runs on
    it is such a lender: no measurement's CPU, no CPU of a producer's
    allowance and none of an unmeasured holder is ever lent. *)
Theorem only_lenders_lend H now s d C a C' c h X :
  decision H now s d C = (Go a, C') → c ∈ dc_borrowable a →
  h ∈ non_mirror_holders H → reserved_cpu H h ≠ 0 → assigned_to H h = Ok X → c ∈ X →
  lender H now (fi_jobs (ct_files C)) h.
Proof. intros Hd Hc. by apply (borrowable_lent H now s d C a C' c Hd Hc). Qed.

(** The host with its holder measured at a tenth of a CPU of two. *)
Lemma only_lenders_lend_witness :
  ∃ a C', decision lending_host (10 * second) (Some later_sample) three_cpus lending_ctl = (Go a, C')
    ∧ 0 ∈ dc_borrowable a ∧ lender lending_host (10 * second) (fi_jobs (ct_files lending_ctl)) "other".
Proof.
  destruct (decision lending_host (10 * second) (Some later_sample) three_cpus lending_ctl) as [r C'] eqn:E.
  assert (∃ a, r = Go a ∧ bool_decide (0 ∈ dc_borrowable a) = true) as (a & -> & Hf%bool_decide_eq_true).
  { apply (f_equal fst) in E. cbn [fst] in E. subst r. vm_compute. by eexists. }
  exists a, C'. split; [done|]. split; [done|].
  eapply (only_lenders_lend lending_host (10 * second) (Some later_sample) three_cpus lending_ctl a C' 0 "other" (list_to_set [0; 1]));
    [done|done|by left|by vm_compute|by vm_compute|by apply elem_of_list_to_set; left].
Defined.

(** ** Isolation *)

(** C14: a measurement is alone, or served: it is admitted only where no holder
    has a reservation or anything unknown; and beside a measurement, only a
    claim of its own producer link is admitted, not itself a measurement, and
    without any of the measurement's CPUs to borrow. *)
Theorem measurement_isolated H now s d C a C' :
  decision H now s d C = (Go a, C') →
  (dc_measurement a = true →
     Forall (λ h, reserved_cpu H h = 0 ∧ unknown_reservation H h = false) (non_mirror_holders H))
  ∧ ∀ h, h ∈ non_mirror_holders H → reserved_cpu H h ≠ 0 → ca_measurement (claimed_of H h) = true →
      dc_measurement a = false ∧ dc_serves a = Some h
      ∧ default (dm_reads d) (dm_owner d) = Some h
      ∧ ∀ X, assigned_to H h = Ok X → X ## list_to_set (dc_borrowable a).
Proof.
  intros Hd. pose proof (borrowable_lent H now s d C a C') as Hb.
  assert (∀ h X, h ∈ non_mirror_holders H → reserved_cpu H h ≠ 0 → ca_measurement (claimed_of H h) = true →
    assigned_to H h = Ok X → X ## list_to_set (dc_borrowable a)) as Hdis.
  { intros h X Hh Hr Hm HX c Hc Hl%elem_of_list_to_set. destruct (Hb c Hd Hl) as [_ Hall].
    destruct (Hall h X Hh Hr HX Hc) as [_ [? _]]. congruence. }
  apply decision_admission in Hd. destruct Hd as [owner f measuring Hm Ho Hf|ambient override serves a p C0 _ Hg Hs].
  - split; [done|]. intros h Hh Hr Hc. unfold _funding in Hf.
    destruct (_ || _) in Hf; [done|]. destruct (metadata H owner ≫= _) as [[slots cpus mem basis]|]; [|done].
    destruct (bool_decide _) in Hf; [done|]. destruct (existsb _ _) eqn:Ex; [done|].
    destruct (decide (h = owner)) as [->|Hne].
    2: { apply not_true_iff_false in Ex. destruct Ex. apply existsb_exists. exists h.
         split; [by apply list_elem_of_In|]. by rewrite bool_decide_false, Hc by done. }
    destruct (bool_decide _) in Hf; [done|]. destruct (_ || _ || _) in Hf; [done|]. injection Hf as <- <-.
    rewrite Ho, Hc. split_and!; [done..|]. intros X HX. eapply Hdis; eauto.
  - apply gates_passed in Hg. apply settle_go in Hs as (lend & keep & lendable & pb & borrowing & B & _ & _ & _ & ->).
    cbn [dc_measurement dc_serves] in *. destruct (holder_gate_passed _ _ _ _ _ _ (pa_holders _ _ _ _ _ _ _ _ _ _ Hg)) as (Hf & Hsv & _).
    split.
    + intros Em. eapply Forall_impl; [exact Hf|]. intros h [?|[_ ?]]; [done|congruence].
    + intros h Hh Hr Hc. destruct (Hsv h Hh Hr Hc) as [-> ->]. split_and!; [|done..|].
      * rewrite Forall_forall in Hf. by destruct (Hf h Hh) as [[? _]|[_ ?]].
      * intros X HX. eapply Hdis; eauto.
Qed.

(** An export beside the measurement it serves. *)
Lemma measurement_isolated_witness :
  ∃ a C', decision measuring_host 200 (Some quiet_sample) serving new_ctl = (Go a, C') ∧ dc_serves a = Some "m".
Proof.
  destruct (decision measuring_host 200 (Some quiet_sample) serving new_ctl) as [r C'] eqn:E.
  assert (∃ a, r = Go a) as (a & ->).
  { apply (f_equal fst) in E. cbn [fst] in E. subst r. vm_compute. by eexists. }
  exists a, C'. split; [done|].
  apply (measurement_isolated _ _ _ _ _ _ _ E); [by left|by vm_compute|by vm_compute].
Defined.

(** ** Pressure *)

Lemma held_cpus_held H holders held h X :
  _held_cpus H holders = Ok held → h ∈ holders → assigned_to H h = Ok X → X ⊆ held.
Proof.
  revert held. induction holders as [|h' holders IH]; intros held; cbn [_held_cpus]; [by intros _ ?%elem_of_nil|].
  intros (Y & HY & (Z & HZ & [= <-])%res_bind_ok)%res_bind_ok [->|Hin]%elem_of_cons HX; [|specialize (IH _ HZ Hin HX); set_solver].
  rewrite HX in HY. injection HY as <-. set_solver.
Qed.

(** What a claim admitted under pressure has: where PSI says tasks wait
    for a CPU, a claim that is neither exclusive nor funded is admitted only
    onto named CPUs of the host that no holder is assigned and that the
    fresh sample shows idle (but for an exempt canary), only when that many
    of them are free, and it borrows nothing. *)
Lemma pressure_needs_idle_cpus H now s d C a C' :
  decision H now (Some s) d C = (Go a, C') → dc_funded a = None → fresh H now s = true →
  exclusive_need H d = false → (10 # 100 <= ld_psi (sm_load s))%Q →
  ∃ per_cpu E p, sm_per_cpu s = Some per_cpu ∧ dc_eligible a = Some E
    ∧ _predicted_cpus H (dm_declared d) (Some E) = Ok (Some p)
    ∧ dc_preferred_borrow a = 0%nat ∧ dc_borrowing a = false ∧ dc_borrowable a = []
    ∧ ∀ c, c ∈ E → c ∈ host_cpus H
        ∧ (∀ h X, h ∈ non_mirror_holders H → assigned_to H h = Ok X → c ∉ X)
        ∧ (dm_exempt d = false →
             ∃ v, default per_cpu (sm_foreign s) !! c = Some v ∧ (v <= IDLE_BUSY_FRACTION)%Q).
Proof.
  intros Hd Hf Hfr Hx Hpsi. apply decision_admission in Hd. destruct Hd as [|ambient override serves a p C0 _ Hg Hs]; [done|].
  apply gates_passed in Hg. apply settle_go in Hs as (lend & keep & lendable & pb & borrowing & B & _ & (_ & Hov & _)%placement_go & _ & ->).
  pose proof (pa_pressure _ _ _ _ _ _ _ _ _ _ Hg) as Hp. cbn [is_fresh] in Hp. rewrite Hfr in Hp.
  apply pressure_gate_passed in Hp. unfold pressed in Hp. rewrite Hx in Hp.
  rewrite (proj2 (Qle_bool_iff _ _) Hpsi) in Hp. cbn [negb orb andb] in Hp.
  destruct Hp as (per_cpu & held & Ep & Hpr & Hat & Hheld & -> & _ & q & Hq).
  destruct (Hov (mk_is_Some _ _ eq_refl)) as (-> & -> & ->). cbn [dc_eligible dc_preferred_borrow dc_borrowing dc_borrowable].
  do 3 eexists. split_and!; [exact Ep|done|exact Hq|done|done|by rewrite elements_empty|].
  intros c [[Hc Hi] Hin]%list_elem_of_filter. split_and!; [done| |].
  - intros h X Hh HX HcX. by apply Hc, (held_cpus_held _ _ _ _ _ Hheld Hh HX).
  - intros Ee. rewrite Ee in Hi. cbn [orb] in Hi. unfold cpu_idle in Hi.
    apply andb_true_iff in Hat as [Hat%bool_decide_eq_true _]. apply andb_true_iff in Hpr as [Hpr%bool_decide_eq_true _].
    assert (is_Some (default per_cpu (sm_foreign s) !! c)) as [v Ev].
    { apply elem_of_dom. rewrite Hat, Hpr. by apply elem_of_list_to_set. }
    exists v. split; [done|]. rewrite Ev in Hi. by apply Qle_bool_imp_le.
Qed.

(** C15: a claim for some of a host's CPUs admitted under pressure runs only on
    CPUs the pressure was excused for.  This is about a claim that declares a
    number of CPUs less than all of the host's, is not a measurement, and does
    not run on its producer's allowance (a dependent that does is pinned to its
    producer's CPUs and no idleness is asked of them).  From the decision to the
    ledger: whatever the ledger has become by then and whatever renames fail, if
    the acquisition goes through, every CPU of the allocation it records was, at
    the decision, assigned to no holder and, unless the claim is an exempt
    canary, shown idle by the fresh sample. *)
Theorem pressure_claim_runs_idle H now s d C a C' io lock_free c key demand g L L' h :
  decision H now (Some s) d C = (Go a, C') → dc_funded a = None → fresh H now s = true →
  exclusive_need H d = false → (10 # 100 <= ld_psi (sm_load s))%Q →
  _begin_acquire_locked io lock_free c key demand (Some (adaptive_of a)) (Some (ho_tiers H)) g L = (L', Ok (Some h)) →
  l_held L !! h = None → plain (l_free L) →
  ∃ per_cpu alloc, sm_per_cpu s = Some per_cpu ∧ cpu_allocation h (ho_tiers H) L' = Ok alloc
    ∧ ∀ cpu, cpu ∈ preferred alloc ++ fallback alloc →
        (∀ h' X, h' ∈ non_mirror_holders H → assigned_to H h' = Ok X → cpu ∉ X)
        ∧ (dm_exempt d = false → ∃ v, default per_cpu (sm_foreign s) !! cpu = Some v ∧ (v <= IDLE_BUSY_FRACTION)%Q).
Proof.
  intros Hd Hf Hfr Hx Hpsi Hb Hh Hpl.
  destruct (pressure_needs_idle_cpus H now s d C a C' Hd Hf Hfr Hx Hpsi) as (per_cpu & E & p & Ep & He & _ & _ & _ & Hbo & Hall).
  eapply begin_acquire_eligible in Hb as (alloc & Ha & Hin); [|exact He|by cbn; rewrite Hf|exact Hbo|done|done].
  exists per_cpu, alloc. split_and!; [done|done|]. intros cpu Hc. rewrite Forall_forall in Hin. by apply Hall, Hin.
Qed.

(** Two idle CPUs of a host under pressure, taken. *)
Lemma pressure_claim_runs_idle_witness :
  ∃ alloc, preferred alloc = [1; 2]
    ∧ ∀ cpu, cpu ∈ preferred alloc ++ fallback alloc → ∃ v, default ∅ (sm_per_cpu pressed_sample) !! cpu = Some v ∧ (v <= IDLE_BUSY_FRACTION)%Q.
Proof.
  destruct (decision four_host 200 (Some pressed_sample) two_cpus new_ctl) as [r C'] eqn:E.
  assert (∃ a, r = Go a ∧ dc_funded a = None ∧ dc_eligible a = Some [1; 2; 3] ∧ dc_borrowable a = [] ∧ dc_preferred_borrow a = 0%nat
    ∧ dc_borrowing a = false ∧ dc_allowance a = None) as (a & -> & Hf & Hel & Hbo & Hpb & Hbr & Hal).
  { apply (f_equal fst) in E. cbn [fst] in E. subst r. vm_compute. eexists. by split_and!. }
  assert (∃ alloc, preferred alloc = [1; 2] ∧ ∃ L', (_begin_acquire_locked io_ok true a_claimant "new" {[ "cpu" := 2 ]}
      (Some (adaptive_of a)) (Some four_tiers) None four_ledger = (L', Ok (Some (handle_for a_claimant "new")))
      ∧ cpu_allocation (handle_for a_claimant "new") four_tiers L' = Ok alloc)) as (alloc & Hpf & L' & Hb & Ha).
  { unfold adaptive_of. rewrite Hf, Hel, Hbo, Hpb, Hbr, Hal. exists (mkTiers [1; 2] []). split; [done|].
    eexists. by split; vm_compute. }
  destruct (pressure_claim_runs_idle four_host 200 pressed_sample two_cpus new_ctl a C' io_ok true a_claimant "new"
    {[ "cpu" := 2 ]} None four_ledger L' (handle_for a_claimant "new") E Hf) as (per & alloc' & Ep & Ha' & Hall);
    [by vm_compute|by vm_compute|by apply Qle_bool_imp_le|exact Hb|by vm_compute| |].
  - change (set_Forall (λ n, is_token n = true → has_char dash (kind_of n) = false) (l_free four_ledger)).
    apply (bool_decide_unpack _). by vm_compute.
  - exists alloc. split; [done|]. change (ho_tiers four_host) with four_tiers in Ha'. rewrite Ha in Ha'. injection Ha' as <-.
    intros cpu Hc. destruct (Hall cpu Hc) as [_ Hi]. injection Ep as <-. by apply Hi.
Defined.
