(* ===== verification/AdaptiveCpuRuns.v ===== *)
(** * Sequences of admissions

    What many decisions on one host keep, each under the admission lock: a
    host sample pays for one borrow, whichever claims go through or give
    their borrow back, and a producer's allowance is given once. *)
From S2P Require Import Prelude.
From S2P Require Import TokenName.
From S2P Require Import Ledger.
From S2P Require Import Tier.
From S2P Require Import Watch.
From S2P Require Import PoolProbe.
From S2P Require Import IdleBaseline.
From S2P Require Import AdaptiveCpu.
From S2P Require Import AdaptiveCpuFacts.
From S2P Require Import SpendOnce.
From Stdlib Require Import QArith.QArith.
From stdpp Require Import options.

Open Scope Z_scope.

(** ** One borrow per sample *)

(** A decision writes no borrow itself. *)
Lemma decision_keeps_borrow H now s d C r C' :
  decision H now s d C = (r, C') → fi_last_borrow (ct_files C') = fi_last_borrow (ct_files C).
Proof.
  unfold decision. pose proof (judgement_step_keeps H now s (set_costs None C)) as (_ & _ & El).
  destruct (judgement_step H now s (set_costs None C)) as [v C1]. cbn [fst snd ct_files set_costs] in El.
  destruct (ambient_step H now s d) as [ambient|e]; [|by intros [= _ <-]].
  destruct (if dm_measurement d then None else _) as [[owner [[f measuring]|why]]|].
  { intros [= _ <-]. by destruct (dm_costs d && _). }
  all: destruct (gates _ _ _ _ _ _ _ _) as [[override serves]|w|e]; [|by intros [= _ <-]..];
    unfold _price_holders; intros [= _ <-]; rewrite <- El; by destruct (is_fresh H now s).
Qed.

Definition last_sample (b : option (Z * option string)) : Z := default 0 (fst <$> b).

(** A borrowing decision is later than the last borrow recorded. *)
Lemma borrowing_is_later H now s d C a C' :
  decision H now s d C = (Go a, C') → dc_borrowing a = true →
  last_sample (fi_last_borrow (ct_files C)) < dc_sampled a.
Proof.
  intros Hd%decision_admission Hb. destruct Hd as [|ambient override serves a p C0 _ _ Hs]; [done|].
  apply settle_go in Hs as (lend & keep & lendable & pb & borrowing & B & _ & Hp & _ & ->).
  cbn [dc_borrowing dc_sampled] in *. apply placement_go in Hp as (Hp & _ & _). rewrite Hb in Hp.
  destruct Hp as (_ & _ & _ & _ & _ & _ & _ & s' & -> & Hl). done.
Qed.

(** The borrows of a host that were admitted and neither given back nor over,
    each with what it replaced in [last-borrow.json]. *)
Definition Borrows : Type := list (Admission * option (Z * option string)).

(** The host's steps: a borrowing claim is admitted, under a fresh id; an
    admitted claim that was not launched gives its borrow back; a borrow is
    over; anything else that leaves [last-borrow.json] alone. *)
Inductive borrow_step : Files * Borrows → Files * Borrows → Prop :=
  | Step_borrow H now s d C a C' id previous a' F (live : Borrows) :
      decision H now s d C = (Go a, C') → dc_borrowing a = true →
      (∀ b, b ∈ live → dc_borrow_id b.1 ≠ Some id) →
      admitted id a (ct_files C') = (previous, a', F) →
      borrow_step (ct_files C, live) (F, (a', previous) :: live)
  | Step_withdraw F (l1 l2 : Borrows) a previous :
      borrow_step (F, l1 ++ (a, previous) :: l2) (withdrew a previous F, l1 ++ l2)
  | Step_over F (l1 l2 : Borrows) b : borrow_step (F, l1 ++ b :: l2) (F, l1 ++ l2)
  | Step_other F F' live : fi_last_borrow F' = fi_last_borrow F → borrow_step (F, live) (F', live).

(** The record and the live borrows as credit that is spent once. *)
Definition borrow_credit (S : Files * Borrows) : Z * Spent :=
  (last_sample (fi_last_borrow S.1), (λ b, (dc_sampled b.1, last_sample b.2)) <$> S.2).

Lemma borrow_step_spends S S' : borrow_step S S' → spend_step (borrow_credit S) (borrow_credit S').
Proof.
  unfold borrow_credit.
  destruct 1 as [H now s d C a C' id previous a' F live Hd Hb Hid Ha|F l1 l2 a previous|F l1 l2 b|F F' live E]; cbn.
  - pose proof (borrowing_is_later _ _ _ _ _ _ _ Hd Hb) as Hlt. apply decision_keeps_borrow in Hd.
    unfold admitted in Ha. rewrite Hb, Hd in Ha. injection Ha as <- <- <-. cbn. by apply Spend_sample.
  - rewrite !fmap_app, fmap_cons. unfold withdrew. destruct (dc_borrowing a); [|apply Settled].
    destruct (dc_borrow_id a) as [id|]; [|apply Settled].
    destruct (bool_decide_reflect (fi_last_borrow F = Some (dc_sampled a, Some id))) as [E|]; [|apply Settled].
    rewrite E. apply Put_back.
  - rewrite !fmap_app, fmap_cons. apply Settled.
  - rewrite E. apply Unrelated.
Qed.

(** C17: a host sample pays for one borrow: over any sequence of decisions,
    admissions and returned borrows on one host, whatever was recorded before,
    no two borrows that are in effect were authorized by the same sample. *)
Theorem one_borrow_per_sample F F' live :
  rtc borrow_step (F, []) (F', live) → NoDup ((λ b, dc_sampled b.1) <$> live).
Proof.
  intros Hs%(spend_run_inv _ _ borrow_step_spends); [|apply spend_inv_nil]. apply sp_distinct in Hs. revert Hs. cbn. by rewrite <- list_fmap_compose.
Qed.

(** A borrow given back, and made again on the same sample. *)
Lemma one_borrow_per_sample_witness :
  ∃ F' live, rtc borrow_step (ct_files lending_ctl, []) (F', live) ∧ length live = 1%nat
    ∧ NoDup ((λ b : Admission * option (Z * option string), dc_sampled b.1) <$> live).
Proof.
  destruct (decision lending_host (10 * second) (Some later_sample) three_cpus lending_ctl) as [r C1] eqn:E1.
  assert (∃ a, r = Go a ∧ dc_borrowing a = true ∧ dc_sampled a = 10 * second) as (a & -> & Hb & Hs).
  { apply (f_equal fst) in E1. cbn [fst] in E1. subst r. vm_compute. by eexists. }
  destruct (admitted "one" a (ct_files C1)) as [[previous a1] F1] eqn:Ea.
  assert (fi_last_borrow (withdrew a1 previous F1) = fi_last_borrow (ct_files lending_ctl)) as Hw.
  { pose proof (decision_keeps_borrow _ _ _ _ _ _ _ E1) as Hk. unfold admitted in Ea. rewrite Hb in Ea. injection Ea as <- <- <-.
    unfold withdrew. cbn. by rewrite bool_decide_true. }
  destruct (admitted "two" a (ct_files C1)) as [[previous2 a2] F2] eqn:Ea2.
  assert (rtc borrow_step (ct_files lending_ctl, []) (F2, [(a2, previous2)])) as Hrun.
  { assert (∀ id p b F, admitted id a (ct_files C1) = (p, b, F) → borrow_step (ct_files lending_ctl, []) (F, [(b, p)])) as Hst.
    { intros id p b F Hadm. refine (Step_borrow lending_host (10 * second) (Some later_sample) three_cpus lending_ctl a C1 id
        p b F [] E1 Hb (λ x Hx, False_ind _ (proj1 (elem_of_nil x) Hx)) Hadm). }
    clear E1.
    eapply rtc_l; [exact (Hst _ _ _ _ Ea)|]. eapply rtc_l; [exact (Step_withdraw F1 [] [] a1 previous)|].
    eapply rtc_l; [exact (Step_other _ (ct_files lending_ctl) [] (eq_sym Hw))|]. apply rtc_once. exact (Hst _ _ _ _ Ea2). }
  clear E1. exists F2, [(a2, previous2)]. split_and!; [done|done|]. by eapply one_borrow_per_sample.
Defined.

(** ** An allowance is given once *)

(** C39: an allowance is given once: if a producer's allowance names each CPU
    once, and what its dependents run on are different CPUs of it, then so they
    are with the dependent a decision admits on it, which gets as many CPUs as
    it asks for; no more dependents than slots are admitted, and each with no
    more memory than its slot's share. *)
Theorem allowance_given_once H now s d C a C' owner f g
    (users := funded_holders H owner (non_mirror_holders H)) (used := users ≫= funded_cpus H) :
  decision H now s d C = (Go a, C') → dc_funded_by a = Some owner → dc_funded a = Some f →
  (metadata H owner ≫= λ m, cm_allowance m.1) = Some g → NoDup (gr_cpus g) →
  NoDup used → used ⊆ gr_cpus g →
  NoDup (used ++ fu_cpus f) ∧ used ++ fu_cpus f ⊆ gr_cpus g
  ∧ length (fu_cpus f) = dm_declared d
  ∧ Z.of_nat (S (length users)) ≤ gr_slots g
  ∧ Z.of_nat (fu_mem_gb f) * gr_slots g ≤ gr_mem_gb g.
Proof.
  intros Hd%decision_admission Ho Hf Hg Hn Hu Hs. destruct Hd as [owner' f' measuring _ _ Hfu|ambient override serves a p C0 _ _ Hse].
  2: { apply settle_go in Hse as (? & ? & ? & ? & ? & ? & _ & _ & _ & ->). done. }
  cbn in Ho, Hf. injection Ho as ->. injection Hf as ->. unfold _funding in Hfu. rewrite Hg in Hfu.
  destruct (_ || _) in Hfu; [done|]. destruct g as [slots cpus mem basis]. cbn [gr_cpus gr_slots gr_mem_gb] in *.
  destruct (bool_decide_reflect (slots ≤ 0)) as [|Hpos]; [done|]. destruct (existsb _ _); [done|].
  fold users in Hfu. destruct (bool_decide_reflect (slots ≤ Z.of_nat (length users))) as [|Hslots]; [done|]. fold used in Hfu.
  set (spare := filter (λ c, c ∉ used) cpus) in Hfu.
  destruct (bool_decide_reflect (length spare < demand_of (dm_demand d) "cpu")%nat) as [|Hspare]; [done|].
  destruct (bool_decide _) in Hfu; [done|]. cbn [orb] in Hfu.
  destruct (bool_decide_reflect (mem / slots < Z.of_nat (demand_of (dm_demand d) "mem_gb"))) as [|Hmem]; [done|].
  injection Hfu as <- _. cbn [fu_cpus fu_mem_gb].
  assert (NoDup spare) as Hnd by by apply NoDup_filter.
  assert (∀ c, c ∈ take (demand_of (dm_demand d) "cpu") spare → (c ∉ used) ∧ c ∈ cpus) as Hin.
  { intros c Hc%elem_of_take. destruct Hc as (i & Hc%list_elem_of_lookup_2 & _). by apply list_elem_of_filter in Hc. }
  split_and!.
  - apply NoDup_app. split_and!; [done|intros c Hc Hc'%Hin; by destruct Hc'|]. eapply sublist_NoDup; [exact Hnd|apply sublist_take].
  - intros c [Hc|Hc%Hin]%elem_of_app; [by apply Hs|by destruct Hc].
  - rewrite length_take. unfold dm_declared. lia.
  - lia.
  - assert (Z.of_nat (demand_of (dm_demand d) "mem_gb") ≤ mem / slots) by lia.
    pose proof (Z.mul_div_le mem slots ltac:(lia)). nia.
Qed.

(** A producer with an allowance of two CPUs and two slots, an export that
    runs on the first of them, and a second export. *)
Definition producing_host : Host :=
  mkHost (mkLedger ∅ {[ "producer" := mkHolder {[ "cpu-0000"; "cpu-0001"; "cpu-0002" ]}
                          (Some (mkCpuMeta (mkAdaptive 0 false None [] None None) (Some (mkTiers [0] [])) 0
                                   (Some (mkGranted 2 [1; 2] 2 None)))) None;
                        "first" := mkHolder ∅
                          (Some (mkCpuMeta (mkAdaptive 0 false None [] (Some [1]) None) (Some (mkTiers [1] [])) 0 None)) None ]}
     ∅ ∅ None None)
    four_tiers {[ "producer" := mkClaimed (Some 3) (Some "shape") false None (Some 0);
                  "first" := mkClaimed (Some 1) None false (Some "producer") (Some 0) ]} ["producer"; "first"] (λ _, None).
Definition export : Demand :=
  mkDemand {[ "cpu" := 1%nat; "mem_gb" := 1%nat ]} None false (Some (Some "producer")) None None false false.

Lemma allowance_given_once_witness :
  ∃ a C' f, decision producing_host 200 (Some quiet_sample) export new_ctl = (Go a, C')
    ∧ dc_funded a = Some f ∧ fu_cpus f = [2] ∧ NoDup ([1] ++ fu_cpus f) ∧ Z.of_nat 2 ≤ 2.
Proof.
  destruct (decision producing_host 200 (Some quiet_sample) export new_ctl) as [r C'] eqn:E.
  assert (∃ a f, r = Go a ∧ dc_funded_by a = Some "producer" ∧ dc_funded a = Some f ∧ fu_cpus f = [2]) as (a & f & -> & Ho & Hf & Hc).
  { apply (f_equal fst) in E. cbn [fst] in E. subst r. vm_compute. do 2 eexists. by split_and!. }
  exists a, C', f. split; [reflexivity|]. split; [exact Hf|]. split; [exact Hc|].
  destruct (allowance_given_once producing_host 200 (Some quiet_sample) export new_ctl a C' "producer" f
    (mkGranted 2 [1; 2] 2 None) E Ho Hf) as (Hn & _ & _ & Hs & _); [by vm_compute|apply (bool_decide_unpack _); by vm_compute..|].
  split; [exact Hn|exact Hs].
Defined.
