(* ===== verification/CpuSampler.v ===== *)
(** * The host sample ([adaptive_cpu.py], [control_cpu.py])

    [Controller.sample] from two readings of the kernel's counters: the busy
    fraction of each CPU, how much of it stable control, kernel and interrupt
    work explains, and what is left as foreign.  A reading is an argument;
    counters and ticks are integers, fractions exact rationals. *)
From S2P Require Import Prelude.
From S2P Require Import Ledger.
From S2P Require Import Watch.
From S2P Require Import PoolProbe.
From S2P Require Import IdleBaseline.
From S2P Require Import AdaptiveCpu.
From Stdlib Require Import QArith.QArith QArith.Qminmax.
From stdpp Require Import options.

Open Scope Z_scope.

Definition PF_KTHREAD : Z := 2097152.

(** ** Attribution of threads ([control_cpu.attributed_ticks]) *)

Inductive Attribution := Control | Kernel.
#[export] Instance Attribution_eq_dec : EqDecision Attribution.
Proof. solve_decision. Defined.

(** One thread's record: its inner tick bounds, where it ran and who it is. *)
Record Thread := mkThread {
  th_start : Z; th_cpu : Z; th_migrations : Z; th_ticks : Z; th_end : option Z;
  th_identity : list string; th_kind : option Attribution; th_flags : option Z }.

Definition category (t : Thread) : Attribution := default Control (th_kind t).

Definition kernel_flags (t : Thread) : bool :=
  match th_flags t with Some f => bool_decide (0 ≤ f) && negb (bool_decide (Z.land f PF_KTHREAD = 0)) | None => false end.

Definition readable (t : Thread) : bool :=
  bool_decide (0 ≤ th_start t ∧ 0 ≤ th_cpu t ∧ 0 ≤ th_migrations t ∧ 0 ≤ th_ticks t).

Definition same_thread (old now : Thread) : bool :=
  bool_decide (th_start old = th_start now ∧ th_cpu old = th_cpu now ∧ th_migrations old = th_migrations now
               ∧ th_identity old = th_identity now).

(** The ticks one thread is credited with, on its CPU. *)
Definition credit (previous : gmap string Thread) (kind : option Attribution) (born_after : option Z)
    (tid : string) (now : Thread) : option (Z * Z) :=
  match previous !! tid with
  | None =>
      match born_after with
      | Some b =>
          if negb (bool_decide (kind = Some Kernel)) && bool_decide (category now = Control) && readable now
             && bool_decide (b < th_start now) && bool_decide (th_migrations now = 0)
          then Some (th_cpu now, th_ticks now) else None
      | None => None
      end
  | Some old =>
      if negb (bool_decide (category old = category now))
         || match kind with Some k => negb (bool_decide (category now = k)) | None => false end then None
      else if bool_decide (category now = Kernel) && negb (kernel_flags old && kernel_flags now) then None
      else if negb (same_thread old now) || negb (readable now) then None
      else
        let start := default (th_ticks old) (th_end old) in
        if bool_decide (0 ≤ start) && bool_decide (start ≤ th_ticks now) then Some (th_cpu now, th_ticks now - start) else None
  end.

(** Adding a credit to the CPU it is of, if that is one of ours. *)
Definition add_credit_to (excluded : gmap Z Z) (c : option (Z * Z)) : gmap Z Z :=
  match c with Some (cpu, ticks) => alter (Z.add ticks) cpu excluded | None => excluded end.

Definition attributed_ticks (previous : gmap string Thread) (current : list (string * Thread)) (busy : gmap Z Z)
    (kind : option Attribution) (born_after : option Z) : gmap Z Z :=
  let excluded := foldl (λ ex kv, add_credit_to ex (credit previous kind born_after kv.1 kv.2)) ((λ _, 0) <$> busy) current in
  map_imap (λ cpu ticks, Some (if bool_decide (ticks ≤ default 0 (busy !! cpu)) then ticks else 0)) excluded.

(** ** Interrupts ([_irq_ticks]) *)

(** The two interrupt counters of one CPU over an interval. *)
Definition irq_delta (old now : Z * Z) (busy : Z) : Z :=
  let d1 := now.1 - old.1 in
  let d2 := now.2 - old.2 in
  if bool_decide (0 ≤ old.1 ∧ 0 ≤ old.2 ∧ 0 ≤ now.1 ∧ 0 ≤ now.2) && bool_decide (0 ≤ d1 ∧ 0 ≤ d2) && bool_decide (d1 + d2 ≤ busy)
  then d1 + d2 else 0.

Definition _irq_ticks (previous : option (gmap Z (Z * Z))) (current : gmap Z (Z * Z)) (busy : gmap Z Z) : gmap Z Z :=
  match previous with
  | Some previous =>
      if bool_decide (dom previous = dom busy) && bool_decide (dom current = dom busy) then
        map_imap (λ cpu b, Some (match previous !! cpu, current !! cpu with
                                 | Some old, Some now => irq_delta old now b | _, _ => 0 end)) busy
      else (λ _, 0) <$> busy
  | None => (λ _, 0) <$> busy
  end.

(** ** The sample *)

(** One reading of the counters; the control threads are read again after
    them, with the boot clock. *)
Record Counters := mkCounters {
  co_cpus : gmap Z (Z * Z); co_irq : gmap Z (Z * Z); co_psi : Z; co_at : Z;
  co_threads : list (string * Thread); co_boot : option Z }.

(** [cpu-sample.json]. *)
Record SampleFile := mkSampleFile { sf_counters : Counters; sf_observation : option Sample }.

(** The busy and total ticks of each CPU over the interval. *)
Definition tick_deltas (previous current : Counters) : gmap Z (Z * Z) :=
  map_zip_with (λ p c, (c.1 - p.1, c.2 - p.2)) (co_cpus previous) (co_cpus current).

Definition usable_delta (d : Z * Z) : bool := bool_decide (0 ≤ d.1 ≤ d.2 ∧ 0 < d.2).

Definition ratio (n d : Z) : Q := inject_Z n / inject_Z d.

(** The ticks that are not foreign. *)
Definition excluded_ticks (previous : Counters) (before : list (string * Thread)) (current : Counters) (busy : gmap Z Z)
  : gmap Z Z :=
  let born_after := co_boot previous ≫= λ b, if bool_decide (0 ≤ b) then Some b else None in
  let prior := list_to_map (co_threads previous) in
  let control := attributed_ticks prior before busy (Some Control) born_after in
  let kernel := attributed_ticks prior before busy (Some Kernel) None in
  let irq := _irq_ticks (Some (co_irq previous)) (co_irq current) busy in
  map_imap (λ cpu b,
      let c := default 0 (control !! cpu) in
      let k := default 0 (kernel !! cpu) in
      let threaded := if bool_decide (c + k ≤ b) then c + k else c in
      Some (Z.max threaded (default 0 (irq !! cpu)))) busy.

(** What an interval between two readings shows, if it shows anything. *)
Definition observe_interval (cpu_count : nat) (previous : Counters) (before : list (string * Thread)) (current : Counters)
  : option Sample :=
  let elapsed := co_at current - co_at previous in
  let deltas := tick_deltas previous current in
  let psi_delta := co_psi current - co_psi previous in
  if bool_decide (second ≤ elapsed ≤ 60 * second) && bool_decide (dom (co_cpus previous) = dom (co_cpus current))
     && forallb (λ kv, usable_delta kv.2) (map_to_list deltas) && bool_decide (0 ≤ psi_delta) then
    let excluded := excluded_ticks previous before current (fst <$> deltas) in
    Some (mkSample (co_at current)
            (mkLoad (map_fold (λ _ d acc, ratio d.1 d.2 + acc)%Q 0%Q deltas) (Qmin 1 (ratio psi_delta elapsed)))
            elapsed cpu_count
            (Some ((λ d, ratio d.1 d.2) <$> deltas))
            (Some (map_imap (λ cpu d, Some (ratio (d.1 - default 0 (excluded !! cpu)) d.2)) deltas)))
  else None.

(** [Controller.sample]: [now] is the clock before the reading, [reading] the
    control threads before the counters and the counters, if they could be
    read.  Within one second the last observation stands. *)
Definition sample (cpu_count : nat) (now : Z) (reading : option (list (string * Thread) * Counters)) (file : option SampleFile)
  : option Sample * option SampleFile :=
  let recent at' := match file with Some f => bool_decide (0 ≤ at' - co_at (sf_counters f) < second) | None => false end in
  if recent now then (file ≫= sf_observation, file)
  else
    match reading with
    | None => (None, file)
    | Some (before, current) =>
        if recent (co_at current) then (file ≫= sf_observation, file)
        else
          let observation := f ← file; observe_interval cpu_count (sf_counters f) before current in
          (observation, Some (mkSampleFile current observation))
    end.
