(* ===== verification/CpuSamplerSpec.v ===== *)
(** * A host sample is evidence

    Theorems about [CpuSampler]: what the sampler answers always passes the
    tests the admission decision puts to a sample; attribution never explains
    more than a CPU was busy. *)
From S2P Require Import Prelude.
From S2P Require Import Ledger.
From S2P Require Import Watch.
From S2P Require Import PoolProbe.
From S2P Require Import IdleBaseline.
From S2P Require Import AdaptiveCpu.
From S2P Require Import CpuSampler.
From Stdlib Require Import QArith.QArith QArith.Qminmax Lqa.
From stdpp Require Import options.

Open Scope Z_scope.

(** ** Attribution *)

(** A count per CPU of [busy] that is no more than it was busy. *)
Definition explains (busy ticks : gmap Z Z) : Prop :=
  dom ticks = dom busy ∧ ∀ cpu t, ticks !! cpu = Some t → 0 ≤ t ≤ default 0 (busy !! cpu).

Lemma explains_default busy ticks cpu b :
  explains busy ticks → busy !! cpu = Some b → 0 ≤ default 0 (ticks !! cpu) ≤ b.
Proof.
  intros [Hd Ht] Hb. assert (is_Some (ticks !! cpu)) as [t E].
  { apply elem_of_dom. rewrite Hd. by apply elem_of_dom. }
  rewrite E. cbn. specialize (Ht cpu t E). by rewrite Hb in Ht.
Qed.

Lemma credit_nonneg previous kind born tid now cpu t : credit previous kind born tid now = Some (cpu, t) → 0 ≤ t.
Proof.
  unfold credit. destruct (previous !! tid) as [old|].
  - destruct (_ || _); [done|]. destruct (_ && _); [done|]. destruct (_ || _); [done|].
    destruct (bool_decide (0 ≤ _)); [|done]. destruct (bool_decide_reflect (default (th_ticks old) (th_end old) ≤ th_ticks now)); [|done].
    intros [= <- <-]. lia.
  - destruct born as [b|]; [|done]. destruct (_ && _) eqn:E; [|done]. intros [= <- <-].
    rewrite !andb_true_iff in E. destruct E as [[[_ Hr] _] _]. unfold readable in Hr. apply bool_decide_eq_true in Hr. lia.
Qed.

Lemma credits_nonneg previous kind born current excluded :
  (∀ cpu t, excluded !! cpu = Some t → 0 ≤ t) →
  let ex := foldl (λ ex kv, add_credit_to ex (credit previous kind born kv.1 kv.2)) excluded current in
  dom ex = dom excluded ∧ ∀ cpu t, ex !! cpu = Some t → 0 ≤ t.
Proof.
  revert excluded. induction current as [|[tid now] current IH]; intros excluded Hex; cbn [foldl]; [done|].
  set (ex1 := add_credit_to excluded _).
  assert (dom ex1 = dom excluded ∧ ∀ cpu t, ex1 !! cpu = Some t → 0 ≤ t) as [Hd Hn].
  { subst ex1. unfold add_credit_to. cbn [fst snd]. destruct (credit previous kind born tid now) as [[cpu t]|] eqn:E; [|done].
    apply credit_nonneg in E. split; [apply dom_alter_L|]. intros cpu' t'. rewrite lookup_alter.
    destruct (decide (cpu = cpu')) as [->|]; [|by apply Hex]. destruct (excluded !! cpu') as [u|] eqn:Eu; [|done].
    cbn. intros [= <-]. specialize (Hex _ _ Eu). lia. }
  destruct (IH ex1 Hn) as [Hd' Hn']. cbn zeta. by rewrite Hd', Hd.
Qed.

Lemma dom_imap_total {A B} (f : Z → A → B) (m : gmap Z A) : dom (map_imap (λ k x, Some (f k x)) m) = dom m.
Proof.
  apply set_eq. intros k. rewrite !elem_of_dom, map_lookup_imap. destruct (m !! k); cbn; by split; intros []; eauto.
Qed.

Lemma attributed_explains previous current busy kind born :
  (∀ cpu b, busy !! cpu = Some b → 0 ≤ b) → explains busy (attributed_ticks previous current busy kind born).
Proof.
  intros Hb. unfold attributed_ticks.
  destruct (credits_nonneg previous kind born current ((λ _, 0) <$> busy)) as [Hd Hn].
  { intros cpu t. rewrite lookup_fmap. destruct (busy !! cpu); cbn; [by intros [= <-]|done]. }
  set (ex := foldl _ _ _) in *. split; [by rewrite dom_imap_total, Hd, dom_fmap_L|].
  intros cpu t. rewrite map_lookup_imap. destruct (ex !! cpu) as [u|] eqn:Eu; [|done]. cbn. intros [= <-].
  specialize (Hn _ _ Eu). assert (is_Some (busy !! cpu)) as [b Eb].
  { apply elem_of_dom. rewrite <- (dom_fmap_L (λ _ : Z, 0)), <- Hd. by apply elem_of_dom. }
  rewrite Eb. cbn. specialize (Hb _ _ Eb). destruct (bool_decide_reflect (u ≤ b)); lia.
Qed.

Lemma irq_delta_bounds old now b : 0 ≤ b → 0 ≤ irq_delta old now b ≤ b.
Proof.
  intros Hb. unfold irq_delta.
  destruct (bool_decide (0 ≤ old.1 ∧ _)); [|cbn; lia]. destruct (bool_decide_reflect (0 ≤ now.1 - old.1 ∧ 0 ≤ now.2 - old.2)); [|cbn; lia].
  destruct (bool_decide_reflect (now.1 - old.1 + (now.2 - old.2) ≤ b)); cbn; lia.
Qed.

Lemma irq_explains previous current busy :
  (∀ cpu b, busy !! cpu = Some b → 0 ≤ b) → explains busy (_irq_ticks previous current busy).
Proof.
  intros Hb. assert (explains busy ((λ _, 0) <$> busy)) as H0.
  { split; [apply dom_fmap_L|]. intros cpu t. rewrite lookup_fmap. destruct (busy !! cpu) eqn:E; cbn; [|done].
    intros [= <-]. specialize (Hb _ _ E). lia. }
  unfold _irq_ticks. destruct previous as [previous|]; [|done]. destruct (_ && _); [|done].
  split; [apply dom_imap_total|]. intros cpu t. rewrite map_lookup_imap.
  destruct (busy !! cpu) as [b|] eqn:Eb; [|done]. cbn. intros [= <-]. specialize (Hb _ _ Eb).
  destruct (previous !! cpu), (current !! cpu); [by apply irq_delta_bounds|lia..].
Qed.

(** Control, kernel and interrupt work never explain more than was run. *)
Lemma excluded_explains previous before current busy :
  (∀ cpu b, busy !! cpu = Some b → 0 ≤ b) → explains busy (excluded_ticks previous before current busy).
Proof.
  intros Hb. unfold excluded_ticks. set (born := co_boot previous ≫= _).
  pose proof (attributed_explains (list_to_map (co_threads previous)) before busy (Some Control) born Hb) as Hc.
  pose proof (irq_explains (Some (co_irq previous)) (co_irq current) busy Hb) as Hi.
  pose proof (attributed_explains (list_to_map (co_threads previous)) before busy (Some Kernel) None Hb) as Hk.
  generalize dependent (_irq_ticks (Some (co_irq previous)) (co_irq current) busy). intros irq Hi.
  split; [apply dom_imap_total|]. intros cpu t. rewrite map_lookup_imap.
  destruct (busy !! cpu) as [b|] eqn:Eb; [|done]. cbn [mbind option_bind]. intros [= <-].
  change (default 0 (Some b)) with b.
  pose proof (explains_default _ _ _ _ Hc Eb). pose proof (explains_default _ _ _ _ Hi Eb).
  pose proof (explains_default _ _ _ _ Hk Eb). 
  match goal with |- context [bool_decide ?P] => destruct (bool_decide_reflect P) end; lia.
Qed.

(** ** Fractions *)

Lemma ratio_bounds n m d : 0 ≤ n ≤ m → 0 < d → (0 <= ratio n d)%Q ∧ (ratio n d <= ratio m d)%Q.
Proof.
  intros Hn Hd. unfold ratio. assert (0 < inject_Z d)%Q by (change 0%Q with (inject_Z 0); rewrite <- Zlt_Qlt; lia). split.
  - apply Qle_shift_div_l; [done|]. rewrite Qmult_0_l. change 0%Q with (inject_Z 0). rewrite <- Zle_Qle. lia.
  - unfold Qdiv. apply Qmult_le_compat_r; [rewrite <- Zle_Qle; lia|]. apply Qlt_le_weak, Qinv_lt_0_compat. done.
Qed.

Lemma ratio_fraction n d : 0 ≤ n ≤ d → 0 < d → (0 <= ratio n d)%Q ∧ (ratio n d <= 1)%Q.
Proof.
  intros Hn Hd. split; [by apply (ratio_bounds n n d); [lia|]|]. unfold ratio. apply Qle_shift_div_r.
  - change 0%Q with (inject_Z 0). rewrite <- Zlt_Qlt. lia.
  - rewrite Qmult_1_l, <- Zle_Qle. lia.
Qed.

Lemma busy_sum_bounds (deltas : gmap Z (Z * Z)) :
  map_Forall (λ _ d, usable_delta d = true) deltas →
  (0 <= map_fold (λ _ d acc, ratio d.1 d.2 + acc) 0 deltas)%Q
  ∧ (map_fold (λ _ d acc, ratio d.1 d.2 + acc) 0 deltas <= Qnat (size deltas))%Q.
Proof.
  revert deltas. refine (map_fold_weak_ind (λ r m, map_Forall (λ _ d, usable_delta d = true) m → (0 <= r)%Q ∧ (r <= Qnat (size m))%Q)
    _ _ _ _); [by intros _; vm_compute|].
  intros k [n d] m r Hk IH Hall. apply map_Forall_insert in Hall as [Hd Hall]; [|done]. destruct (IH Hall) as [H1 H2].
  unfold usable_delta in Hd. apply bool_decide_eq_true in Hd. cbn [fst snd] in *.
  destruct (ratio_fraction n d) as [H3 H4]; [lia|lia|]. rewrite map_size_insert_None by done. unfold Qnat in *.
  rewrite Nat2Z.inj_succ, <- Z.add_1_r, inject_Z_plus. change (inject_Z 1) with 1%Q. split; lra.
Qed.

(** ** The observation *)

(** A sample of this host that the decision's tests cannot fault. *)
Record evidence (H : Host) (s : Sample) : Prop := mkEvidence {
  ev_count : sm_cpu_count s = length (host_cpus H);
  ev_busy : (0 <= ld_busy (sm_load s))%Q ∧ (ld_busy (sm_load s) <= Qnat (length (host_cpus H)))%Q;
  ev_psi : (0 <= ld_psi (sm_load s))%Q ∧ (ld_psi (sm_load s) <= 1)%Q;
  ev_readings : ∃ per_cpu foreign, sm_per_cpu s = Some per_cpu ∧ sm_foreign s = Some foreign
                  ∧ proven H per_cpu = true ∧ attributed per_cpu foreign = true }.

Lemma forallb_map_Forall {A} (f : A → bool) (m : gmap Z A) :
  forallb (λ kv : Z * A, f kv.2) (map_to_list m) = true ↔ map_Forall (λ _ x, f x = true) m.
Proof.
  rewrite forallb_forall, map_Forall_to_list, Forall_forall.
  split; intros Hf [k x]; [intros Hin; by apply (Hf (k, x)), list_elem_of_In|intros Hin%list_elem_of_In; by apply (Hf (k, x))].
Qed.

Lemma within_fraction n d : 0 ≤ n ≤ d → 0 < d → within (ratio n d) = true.
Proof.
  intros Hn Hd. destruct (ratio_fraction n d Hn Hd). unfold within. by rewrite andb_true_iff, !Qle_bool_iff.
Qed.

Lemma observe_interval_evidence H previous before current s :
  NoDup (host_cpus H) → dom (co_cpus current) = list_to_set (host_cpus H) →
  observe_interval (length (host_cpus H)) previous before current = Some s → evidence H s.
Proof.
  intros Hnd Hdom. unfold observe_interval. set (deltas := tick_deltas previous current).
  destruct (bool_decide_reflect (second ≤ co_at current - co_at previous ≤ 60 * second)) as [Hel|]; cbn [andb]; [|done].
  destruct (bool_decide_reflect (dom (co_cpus previous) = dom (co_cpus current))) as [Hk|]; cbn [andb]; [|done].
  destruct (forallb _ _) eqn:Hf; cbn [andb]; [|done]. apply forallb_map_Forall in Hf.
  destruct (bool_decide_reflect (0 ≤ co_psi current - co_psi previous)) as [Hp|]; [|done].
  intros [= <-]. assert (dom deltas = list_to_set (host_cpus H)) as Hdd.
  { subst deltas. unfold tick_deltas. apply set_eq. intros c. rewrite <- Hdom, elem_of_dom, map_lookup_zip_with.
    rewrite elem_of_dom. assert (is_Some (co_cpus previous !! c) ↔ is_Some (co_cpus current !! c)) as Hc.
    { by rewrite <- !elem_of_dom, Hk. }
    destruct (co_cpus previous !! c), (co_cpus current !! c); cbn; split; intros; try done; naive_solver. }
  assert (size deltas = length (host_cpus H)) as Hsz.
  { rewrite <- size_dom, Hdd. by apply size_list_to_set. }
  assert (∀ c d, deltas !! c = Some d → 0 ≤ d.1 ≤ d.2 ∧ 0 < d.2) as Hd.
  { intros c d E. specialize (Hf c d E). cbn in Hf. unfold usable_delta in Hf. by apply bool_decide_eq_true in Hf. }
  pose proof (excluded_explains previous before current (fst <$> deltas)) as Hex.
  set (excluded := excluded_ticks _ _ _ _) in *.
  destruct Hex as [Hxd Hx].
  { intros c b. rewrite lookup_fmap. destruct (deltas !! c) as [d|] eqn:E; cbn; [|done]. intros [= <-]. specialize (Hd c d E). lia. }
  split; cbn [sm_cpu_count sm_load ld_busy ld_psi sm_per_cpu sm_foreign]; [done| | |].
  - rewrite <- Hsz. by apply busy_sum_bounds.
  - split; [|apply Q.le_min_l]. apply Q.min_glb; [done|]. apply (ratio_bounds _ (co_psi current - co_psi previous)); [lia|]. unfold second in Hel. lia.
  - do 2 eexists. split_and!; [done|done| |].
    + unfold proven. rewrite dom_fmap_L, bool_decide_true by done. cbn [andb]. apply (forallb_map_Forall within).
      intros c q. rewrite lookup_fmap. destruct (deltas !! c) as [d|] eqn:E; cbn; [|done]. intros [= <-].
      specialize (Hd c d E). apply within_fraction; lia.
    + unfold attributed. rewrite dom_imap_total, dom_fmap_L, bool_decide_true by done. cbn [andb].
      apply forallb_forall. intros [c q] Hin%list_elem_of_In%elem_of_map_to_list. cbn [fst snd].
      rewrite map_lookup_imap in Hin. rewrite lookup_fmap. destruct (deltas !! c) as [d|] eqn:E; [|done].
      cbn in Hin |- *. injection Hin as <-. specialize (Hd c d E).
      assert (0 ≤ default 0 (excluded !! c) ≤ d.1) as Hb.
      { apply (explains_default (fst <$> deltas)); [by split|]. by rewrite lookup_fmap, E. }
      destruct (ratio_bounds (d.1 - default 0 (excluded !! c)) d.1 d.2) as [H1 H2]; [lia|lia|].
      by rewrite andb_true_iff, !Qle_bool_iff.
Qed.

(** ** Sampling *)

(** A pass's question: the clock, and what could be read. *)
Definition Look : Type := Z * option (list (string * Thread) * Counters).

Fixpoint samples (cpu_count : nat) (file : option SampleFile) (looks : list Look) : list (option Sample) :=
  match looks with
  | [] => []
  | (now, reading) :: looks =>
      let '(o, file) := sample cpu_count now reading file in o :: samples cpu_count file looks
  end.

(** A reading has a counter for each of the host's CPUs. *)
Definition covers (H : Host) (l : Look) : Prop :=
  match l.2 with Some (_, c) => dom (co_cpus c) = list_to_set (host_cpus H) | None => True end.

Definition evident (H : Host) (o : option Sample) : Prop := match o with Some s => evidence H s | None => True end.

Lemma sample_evident H now reading file :
  NoDup (host_cpus H) → covers H (now, reading) → evident H (file ≫= sf_observation) →
  evident H (sample (length (host_cpus H)) now reading file).1
  ∧ evident H ((sample (length (host_cpus H)) now reading file).2 ≫= sf_observation).
Proof.
  intros Hnd Hc Hf. unfold sample. destruct (match file with Some f => _ | None => false end); [done|].
  destruct reading as [[before current]|]; [|done].
  destruct (match file with Some f => bool_decide (0 ≤ co_at current - _ < _) | None => false end); [done|].
  destruct file as [f|]; [|done]. cbn [mbind option_bind fst snd sf_observation].
  destruct (observe_interval _ _ _ _) as [s|] eqn:E; [|done]. apply (observe_interval_evidence H) in E; [by split|done|exact Hc].
Qed.

(** C37: every sample is evidence: whatever the sequence of readings, as long
    as each covers the host's CPUs, everything the sampler answers has a busy
    fraction for every CPU, a foreign part of each that is no more, a busy
    total within the CPUs and a pressure within one, so that the admission
    decision never has to refuse its own sampler as unproven. *)
Theorem samples_are_evidence H looks :
  NoDup (host_cpus H) → Forall (covers H) looks → Forall (evident H) (samples (length (host_cpus H)) None looks).
Proof.
  intros Hnd. assert (∀ file, evident H (file ≫= sf_observation) → Forall (covers H) looks →
    Forall (evident H) (samples (length (host_cpus H)) file looks)) as Hgen; [|by apply Hgen].
  induction looks as [|[now reading] looks IH]; intros file Hf Hc; [constructor|]. apply Forall_cons in Hc as [Hc1 Hc].
  cbn [samples]. pose proof (sample_evident H now reading file Hnd Hc1 Hf) as [H1 H2].
  destruct (sample (length (host_cpus H)) now reading file) as [o file']. constructor; [done|]. by apply IH.
Qed.

(** One CPU, busy for half a two-second interval, a quarter of it a worker
    loop's. *)
Definition loop_thread (ticks : Z) : string * Thread := ("7/7", mkThread 1 0 0 ticks None ["loop"] (Some Control) (Some 0)).
Definition one_cpu : Host := mkHost empty_ledger (mkTiers [0] []) ∅ [] (λ _, None).
Definition look_at (at' busy total ticks : Z) : Look :=
  (at', Some ([loop_thread ticks], mkCounters {[ 0 := (busy, total) ]} {[ 0 := (0, 0) ]} 0 at' [loop_thread ticks] None)).

Lemma samples_are_evidence_witness :
  Forall (evident one_cpu) (samples 1 None [look_at second 0 0 0; look_at (3 * second) 100 200 50])
  ∧ (omap id (samples 1 None [look_at second 0 0 0; look_at (3 * second) 100 200 50])
     ≫= λ s, map_to_list (default ∅ (sm_foreign s))) = [(0, ratio 50 200)].
Proof.
  split; [|by vm_compute].
  apply (samples_are_evidence one_cpu); [by repeat constructor; apply not_elem_of_nil|by repeat constructor].
Defined.
