(* ===== verification/CpuLearning.v ===== *)
(** * What a host learns of its actions ([adaptive_cpu.py])

    Export rates and the slots a producer's allowance has ([export_rate_key],
    [export_rate_names], [export_slots], [producer_allowance],
    [learn_export]), and what a completed action teaches of its shape
    ([record_completion]).  Times are integer microseconds.  A digest is an
    argument. *)
From S2P Require Import Prelude.
From S2P Require Import Ledger.
From S2P Require Import Watch.
From S2P Require Import PoolProbe.
From S2P Require Import IdleBaseline.
From S2P Require Import AdaptiveCpu.
From Stdlib Require Import QArith.QArith Ascii.
From stdpp Require Import options.

Open Scope Z_scope.

Definition SPOOL_ROOT_ENV : string := "PRISMABUILD_PRODUCED_SPOOL_ROOT".
Definition EXPORT_SLOTS_ENV : string := "PRISMABUILD_PRODUCED_SPOOL_EXPORT_SLOTS".
Definition DEFAULT_EXPORT_SLOTS : Z := 1.
Definition EXPORT_RATE_MEMORY : nat := 32.
Definition EXPORT_RATE_FAMILY_PREFIX : string := "family:".

(** [_is_key]: 64 lower-case hexadecimal digits. *)
Definition _is_key (s : string) : bool := bool_decide (String.length s = 64%nat) && all_chars is_lower_hex s.

(** An identifier of the action contract ([core._ID_RE]). *)
Definition id_start (a : ascii) : bool := is_digit a || (bool_decide (97 ≤ N_of_ascii a)%N && bool_decide (N_of_ascii a ≤ 122)%N).
Definition id_char (a : ascii) : bool :=
  id_start a || bool_decide (a = "."%char) || bool_decide (a = "_"%char) || bool_decide (a = "/"%char) || bool_decide (a = "-"%char).
Definition is_identifier (s : string) : bool :=
  match s with
  | EmptyString => false
  | String a rest => id_start a && all_chars id_char rest && bool_decide (String.length s ≤ 256)%nat
  end.

(** [export_rate_key]. *)
Definition export_rate_key (template family : option string) : option string :=
  match family with
  | None => match template with Some t => if _is_key t then Some t else None | None => None end
  | Some f => if is_identifier f then Some (EXPORT_RATE_FAMILY_PREFIX +:+ f) else None
  end.

(** A [produced_output] reference: its template, and the family it declares
    when it declares one. *)
Record OutputRef := mkOutputRef { or_template : option string; or_family : option string }.

(** [export_rate_names]: [None] is a family nobody can use. *)
Definition export_rate_names (ref : option OutputRef) : option (option string * option string) :=
  match ref with
  | None => Some (None, None)
  | Some (mkOutputRef template None) => Some (template, None)
  | Some (mkOutputRef template (Some family)) =>
      match export_rate_key template (Some family) with Some _ => Some (template, Some family) | None => None end
  end.

(** One key of [export-rates.json]. *)
Record RateEntry := mkRateEntry {
  re_landing : list Z; re_spacing : list Z; re_last : gmap string Z; re_learned : Z }.
Definition no_entry : RateEntry := mkRateEntry [] [] ∅ 0.

Definition ceil_div (a b : Z) : Z := (a + b - 1) / b.

Definition maximum (x : Z) (l : list Z) : Z := foldr Z.max x l.
Definition minimum (x : Z) (l : list Z) : Z := foldr Z.min x l.

(** [export_slots]: the slots, and whether they are measured. *)
Definition export_slots (rates : gmap string RateEntry) (template family : option string) : Z * string :=
  let entry := default no_entry (export_rate_key template family ≫= λ k, rates !! k) in
  match filter (λ v, 0 < v) (re_landing entry), filter (λ v, 0 < v) (re_spacing entry) with
  | l :: ls, g :: gs => (Z.max 1 (ceil_div (maximum l ls) (minimum g gs)), "measured")
  | _, _ => (DEFAULT_EXPORT_SLOTS, "unmeasured")
  end.

(** [producer_allowance] of an action whose sealed environment is [variables]. *)
Definition producer_allowance (variables : option (gmap string string)) (ref : option OutputRef)
    (rates : gmap string RateEntry) : option Allowance :=
  match variables with
  | None => None
  | Some variables =>
      match variables !! SPOOL_ROOT_ENV with
      | None => None
      | Some root =>
          if bool_decide (root = "") then None
          else
            let grant '(slots, basis) := mkAllowance slots slots slots (Some basis) in
            match variables !! EXPORT_SLOTS_ENV with
            | None =>
                match export_rate_names ref with
                | None => None
                | Some (template, family) => Some (grant (export_slots rates template family))
                end
            | Some raw =>
                match parse_nat raw with
                | Some n => if bool_decide (n = 0%N) then None else Some (grant (Z.of_N n, "declared"))
                | None => None
                end
            end
      end
  end.

(** [sorted(..., key=value)[-n:]] of a mapping that was read in key order and
    then written to. *)
Definition by_value {A} (value : A → Z) (a b : string * A) : Prop := value a.2 ≤ value b.2.
#[export] Instance by_value_dec {A} (value : A → Z) : RelDecision (by_value value).
Proof. intros a b. unfold by_value. apply _. Defined.
Definition keep_last {A} (n : nat) (value : A → Z) (d : list (string * A)) : gmap string A :=
  list_to_map (last_n n (merge_sort (by_value value) d)).

(** [learn_export] with the admission lock held and a CPU map; [None] is
    nothing learned. *)
Definition learn_entry (entry : RateEntry) (owner : string) (published landing now : Z) : option RateEntry :=
  let previous := re_last entry !! owner in
  if match previous with Some p => bool_decide (published ≤ p) | None => false end then None
  else
    Some (mkRateEntry (last_n EXPORT_RATE_MEMORY (re_landing entry ++ [landing]))
            (match previous with
             | Some p => last_n EXPORT_RATE_MEMORY (re_spacing entry ++ [published - p])
             | None => re_spacing entry
             end)
            (keep_last EXPORT_RATE_MEMORY id (dset owner published (sorted_items (re_last entry)))) now).

Definition learn_export (locked mapped : bool) (template family : option string) (owner : string)
    (published landing now : Z) (rates : gmap string RateEntry) : option (gmap string RateEntry) :=
  match export_rate_key template family with
  | None => None
  | Some key =>
      if negb (_is_key owner) || bool_decide (published ≤ 0) || bool_decide (landing ≤ 0) || negb mapped || negb locked then None
      else
        entry ← learn_entry (default no_entry (rates !! key)) owner published landing now;
        Some (keep_last 512 re_learned (dset key entry (sorted_items rates)))
  end.

(** A finished action's row, as far as learning reads it. *)
Record DoneItem := mkDoneItem { di_key : string; di_claimed : Z; di_shape : option string; di_measurement : bool }.

(** [record_completion]; [id] is the digest of this completion. *)
Definition record_completion (locked mapped : bool) (it : DoneItem) (t : Tele) (id : string) (now : Z)
    (profiles : gmap string Profile) : option (gmap string Profile) :=
  if negb (te_complete t) || negb (bool_decide (te_key t = Some (di_key it)))
     || negb (bool_decide (0 ≤ now - te_at t ≤ MAX_SAMPLE_AGE)) || bool_decide (te_at t < di_claimed it)
     || negb (Qle_bool 0 (te_cpu t)) || Qle_bool (te_wall t) 0 || bool_decide (te_peak t < 0) then None
  else
    match di_shape it with
    | None => None
    | Some shape =>
        if di_measurement it || negb mapped || negb locked then None
        else
          let previous := profiles !! shape in
          let completed := default [] (pf_completions <$> previous) in
          if bool_decide (id ∈ completed) then None
          else
            let p := learn previous (te_cpu t / te_wall t)%Q now (te_peak t) (last_n 32 (completed ++ [id])) in
            Some (list_to_map (newest (dset shape p (sorted_items profiles))))
    end.
