(* ===== verification/CpuLearningSpec.v ===== *)
(** * What learning keeps

    Theorems about [CpuLearning]: measured slots cover the worst overlap of
    exports remembered and are no more than that; the memory stays bounded
    and positive; what a completion teaches never undercuts it. *)
From S2P Require Import Prelude.
From S2P Require Import Ledger.
From S2P Require Import Watch.
From S2P Require Import PoolProbe.
From S2P Require Import IdleBaseline.
From S2P Require Import IdleBaselineSpec.
From S2P Require Import AdaptiveCpu.
From S2P Require Import CpuLearning.
From Stdlib Require Import QArith.QArith QArith.Qminmax.
From stdpp Require Import options.

Open Scope Z_scope.

(** ** Slots *)

Lemma maximum_spec x l : (∀ v, v ∈ x :: l → v ≤ maximum x l) ∧ maximum x l ∈ x :: l.
Proof.
  unfold maximum. induction l as [|y l [IH1 IH2]]; cbn [foldr].
  { split; [|by left]. intros v [->|[]%elem_of_nil]%elem_of_cons. done. }
  split.
  - intros v [->|[->|Hv]%elem_of_cons]%elem_of_cons; [|lia|]; [specialize (IH1 x (list_elem_of_here _ _)); lia|].
    specialize (IH1 v). rewrite elem_of_cons in IH1. specialize (IH1 (or_intror Hv)). lia.
  - destruct (Z.max_spec y (foldr Z.max x l)) as [[_ ->]|[_ ->]]; [|by right; left].
    apply elem_of_cons in IH2 as [E|E]; [rewrite E at 1; by left|by right; right].
Qed.

Lemma minimum_spec x l : (∀ v, v ∈ x :: l → minimum x l ≤ v) ∧ minimum x l ∈ x :: l.
Proof.
  unfold minimum. induction l as [|y l [IH1 IH2]]; cbn [foldr].
  { split; [|by left]. intros v [->|[]%elem_of_nil]%elem_of_cons. done. }
  split.
  - intros v [->|[->|Hv]%elem_of_cons]%elem_of_cons; [|lia|]; [specialize (IH1 x (list_elem_of_here _ _)); lia|].
    specialize (IH1 v). rewrite elem_of_cons in IH1. specialize (IH1 (or_intror Hv)). lia.
  - destruct (Z.min_spec y (foldr Z.min x l)) as [[_ ->]|[_ ->]]; [by right; left|].
    apply elem_of_cons in IH2 as [E|E]; [rewrite E at 1; by left|by right; right].
Qed.

Lemma ceil_div_spec a b : 0 < b → a ≤ ceil_div a b * b ∧ (ceil_div a b - 1) * b < a.
Proof.
  intros Hb. unfold ceil_div. pose proof (Z.div_mod (a + b - 1) b ltac:(lia)).
  pose proof (Z.mod_pos_bound (a + b - 1) b Hb). split; nia.
Qed.

(** What a key remembers of one side. *)
Definition remembered (rates : gmap string RateEntry) (template family : option string) : RateEntry :=
  default no_entry (export_rate_key template family ≫= λ k, rates !! k).

(** Measured slots are what the exports needed: they cover the longest
    landing at the shortest spacing remembered under the producer's key, so
    that no remembered pair overlaps more exports than there are slots, and
    one slot fewer would not, unless there is only one. *)
Theorem export_slots_cover rates template family n :
  export_slots rates template family = (n, "measured") →
  let e := remembered rates template family in
  1 ≤ n
  ∧ (∀ l g, l ∈ re_landing e → g ∈ re_spacing e → 0 < l → 0 < g → l ≤ n * g)
  ∧ (n = 1 ∨ ∃ l g, l ∈ re_landing e ∧ g ∈ re_spacing e ∧ 0 < g ∧ (n - 1) * g < l).
Proof.
  unfold export_slots. fold (remembered rates template family). set (e := remembered rates template family).
  destruct (filter _ (re_landing e)) as [|l ls] eqn:El; [done|].
  destruct (filter _ (re_spacing e)) as [|g gs] eqn:Eg; [done|]. intros [= <-].
  pose proof (maximum_spec l ls) as [HM1 HM2]. pose proof (minimum_spec g gs) as [Hm1 Hm2].
  rewrite <- El in HM1, HM2. rewrite <- Eg in Hm1, Hm2.
  apply list_elem_of_filter in HM2 as [HMp HM2]. apply list_elem_of_filter in Hm2 as [Hmp Hm2].
  pose proof (ceil_div_spec (maximum l ls) (minimum g gs) Hmp) as [H1 H2].
  split_and!; [lia| |].
  - intros l' g' Hl Hg Hlp Hgp. specialize (HM1 l'). specialize (Hm1 g'). rewrite list_elem_of_filter in HM1, Hm1.
    specialize (HM1 (conj Hlp Hl)). specialize (Hm1 (conj Hgp Hg)). nia.
  - destruct (decide (ceil_div (maximum l ls) (minimum g gs) ≤ 1)); [left; lia|right].
    exists (maximum l ls), (minimum g gs). split_and!; [done|done|done|]. rewrite Z.max_r by lia. done.
Qed.

(** Exports of seven seconds, two seconds apart, need four slots. *)
Lemma export_slots_cover_witness :
  ∃ n, export_slots {[ "family:rows" := mkRateEntry [3; 7] [2; 5] ∅ 0 ]} None (Some "rows") = (n, "measured") ∧ n = 4 ∧ 7 ≤ n * 2.
Proof.
  assert (export_slots {[ "family:rows" := mkRateEntry [3; 7] [2; 5] ∅ 0 ]} None (Some "rows") = (4, "measured")) as E
    by by vm_compute.
  exists 4. split; [exact E|]. split; [done|].
  destruct (export_slots_cover {[ "family:rows" := mkRateEntry [3; 7] [2; 5] ∅ 0 ]} None (Some "rows") 4 E) as (_ & Hc & _).
  apply Hc; vm_compute; [right; left|left|done|done].
Defined.

(** ** The memory of rates *)

Record entry_wf (e : RateEntry) : Prop := mkEntryWf {
  ew_landing : (length (re_landing e) ≤ EXPORT_RATE_MEMORY)%nat ∧ Forall (λ v, 0 < v) (re_landing e);
  ew_spacing : (length (re_spacing e) ≤ EXPORT_RATE_MEMORY)%nat ∧ Forall (λ v, 0 < v) (re_spacing e);
  ew_last : (size (re_last e) ≤ EXPORT_RATE_MEMORY)%nat }.

Lemma size_list_to_map_le {A} (l : list (string * A)) : (size (list_to_map l : gmap string A) ≤ length l)%nat.
Proof.
  induction l as [|[k v] l IH]; [by rewrite list_to_map_nil, map_size_empty|]. rewrite list_to_map_cons, map_size_insert.
  cbn [length]. destruct (_ !! k); cbn; lia.
Qed.

Lemma keep_last_size {A} n (value : A → Z) d : (size (keep_last n value d) ≤ n)%nat.
Proof. unfold keep_last. etrans; [apply size_list_to_map_le|apply last_n_length]. Qed.

Lemma keep_last_in {A} n (value : A → Z) d k v : keep_last n value d !! k = Some v → (k, v) ∈ d.
Proof.
  unfold keep_last. intros Hk%elem_of_list_to_map_2.
  eapply elem_of_submseteq in Hk; [|apply sublist_submseteq, last_n_sublist]. by rewrite merge_sort_Permutation in Hk.
Qed.

Lemma dset_in {A} k v (d : list (string * A)) k' v' : (k', v') ∈ dset k v d → (k' = k ∧ v' = v) ∨ (k', v') ∈ d.
Proof.
  induction d as [|[k0 v0] d IH]; cbn [dset]; [intros [[= -> ->]|[]%elem_of_nil]%elem_of_cons; by left|].
  destruct (bool_decide_reflect (k = k0)) as [->|].
  - intros [[= -> ->]|?]%elem_of_cons; [by left|right; by right].
  - intros [[= -> ->]|?%IH]%elem_of_cons; [right; by left|]. destruct H; [by left|right; by right].
Qed.

Lemma learn_entry_wf e owner published landing now e' :
  entry_wf e → 0 < landing → learn_entry e owner published landing now = Some e' → entry_wf e'.
Proof.
  intros [[Hl1 Hl2] [Hs1 Hs2] Hz] Hlp. unfold learn_entry.
  destruct (match re_last e !! owner with Some p => _ | None => false end) eqn:Eg; [done|]. intros [= <-]. split; cbn.
  - split; [apply last_n_length|]. apply Forall_last_n, Forall_app. split; [done|]. by repeat constructor.
  - destruct (re_last e !! owner) as [p|]; [|done]. apply bool_decide_eq_false in Eg. split; [apply last_n_length|].
    apply Forall_last_n, Forall_app. split; [done|]. repeat constructor. lia.
  - apply keep_last_size.
Qed.

(** Learning keeps the memory bounded and every rate positive. *)
Theorem learned_rates_wf locked mapped template family owner published landing now rates rates' :
  learn_export locked mapped template family owner published landing now rates = Some rates' →
  map_Forall (λ _, entry_wf) rates → (size rates' ≤ 512)%nat ∧ map_Forall (λ _, entry_wf) rates'.
Proof.
  unfold learn_export. destruct (export_rate_key template family) as [key|]; [|done].
  destruct (_ || _ || _ || _ || _) eqn:Eg; [done|]. destruct (learn_entry _ _ _ _ _) as [e|] eqn:Ee; [|done].
  cbn. intros [= <-] Hw. split; [apply keep_last_size|]. intros k e' Hk%keep_last_in%dset_in.
  destruct Hk as [[-> ->]|Hin%elem_of_sorted_items]; [|by eapply Hw].
  eapply (learn_entry_wf _ _ _ landing); [|destruct (bool_decide_reflect (landing ≤ 0)); [by rewrite ?orb_true_r in Eg|lia]|exact Ee].
  destruct (rates !! key) as [e0|] eqn:E0; [by eapply Hw|]. 
  split; cbn; [split; [apply Nat.le_0_l|constructor]..|]. rewrite map_size_empty. apply Nat.le_0_l.
Qed.

(** ** Completions *)

(** A completion teaches conservatively, and once: every profile afterwards
    is one that was there, or that of the completed shape, whose rate is at
    least the attributed rate with its margin and at most a fiftieth below
    what was known, with this completion remembered among the last 32; a
    completion that is remembered teaches nothing. *)
Theorem completion_learns locked mapped it t id now profiles profiles' k p :
  record_completion locked mapped it t id now profiles = Some profiles' → profiles' !! k = Some p →
  profiles !! k = Some p
  ∨ (di_shape it = Some k ∧ di_measurement it = false ∧ te_complete t = true ∧ (0 < te_wall t)%Q
     ∧ (te_cpu t / te_wall t * CPU_COST_MARGIN <= pf_cpu p)%Q
     ∧ (∀ old, profiles !! k = Some old →
          (pf_cpu old * (98 # 100) <= pf_cpu p)%Q ∧ id ∉ pf_completions old)
     ∧ id ∈ pf_completions p ∧ (length (pf_completions p) ≤ 32)%nat).
Proof.
  unfold record_completion. destruct (_ || _ || _ || _ || _ || _ || _) eqn:Eg; [done|].
  destruct (di_shape it) as [shape|]; [|done]. destruct (di_measurement it || negb mapped || negb locked) eqn:Em; [done|].
  cbn zeta. destruct (bool_decide_reflect (id ∈ default [] (pf_completions <$> profiles !! shape))) as [|Hid]; [done|].
  intros [= <-] Hk. change (keep_last 512 pf_at (dset shape (learn (profiles !! shape) (te_cpu t / te_wall t) now (te_peak t)
    (last_n 32 (default [] (pf_completions <$> profiles !! shape) ++ [id]))) (sorted_items profiles)) !! k = Some p) in Hk.
  apply keep_last_in, dset_in in Hk as [[-> ->]|Hin%elem_of_sorted_items]; [right|by left].
  rewrite !orb_false_iff in Eg. rewrite !orb_false_iff in Em.
  destruct Eg as [[[[[[Ec _] _] _] _] Ew] _]. destruct Em as [[Em _] _]. apply negb_false_iff in Ec.
  split_and!; [done|done|done| |apply Q.le_max_l| | |apply last_n_length].
  - apply Qnot_le_lt. rewrite <- Qle_bool_iff. congruence.
  - intros old E. rewrite E in Hid |- *. split; [apply Q.le_max_r|done].
  - cbn [learn pf_completions]. unfold last_n. rewrite length_app, drop_app_le by (cbn [length]; lia).
    apply elem_of_app. right. by left.
Qed.

(** The first completion of a shape, at half a CPU. *)
Lemma completion_learns_witness :
  ∃ profiles' p, record_completion true true (mkDoneItem "a" 0 (Some "shape") false)
      (mkTele true 5 (Some "a") 1 2 None 0 None) "id" 6 ∅ = Some profiles'
    ∧ profiles' !! "shape" = Some p ∧ "id" ∈ pf_completions p ∧ (1 / 2 * CPU_COST_MARGIN <= pf_cpu p)%Q.
Proof.
  destruct (record_completion true true (mkDoneItem "a" 0 (Some "shape") false) (mkTele true 5 (Some "a") 1 2 None 0 None) "id" 6 ∅)
    as [profiles'|] eqn:E; [|by vm_compute in E].
  assert (∃ p, profiles' !! "shape" = Some p) as [p Hp].
  { vm_compute in E. injection E as <-. by eexists. }
  exists profiles', p. split; [reflexivity|]. split; [exact Hp|].
  destruct (completion_learns _ _ _ _ _ _ _ _ "shape" p E Hp) as [Hx|(_ & _ & _ & _ & Hc & _ & Hi & _)]; [discriminate Hx|].
  split; [exact Hi|exact Hc].
Defined.
