(* ===== verification/GpuGuard.v ===== *)
(** * The memory guard ([gpu_memory.py])

    [Guard.observe]: which jobs of a host are stopped, from a sequence of
    memory snapshots.  The collection of a snapshot is not part of the model.
    Clocks are integer microseconds, memory is in bytes, rates are exact
    rationals in bytes a second; a job's processes are known by the GPU
    domains they name. *)
From S2P Require Import Prelude.
From S2P Require Import Watch.
From S2P Require Import PoolProbe.
From S2P Require Import AdaptiveCpu.
From Stdlib Require Import QArith.QArith QArith.Qround QArith.Qminmax.
From stdpp Require Import options.

Open Scope Z_scope.

(** [JobSample]. *)
Record JobSample := mkJobSample {
  js_scope : string; js_cgroup : option (Z * Z); js_budget : Z; js_host : option Z; js_gpu_lower : option Z;
  js_complete : bool; js_domains : gset (string * string); js_gpu_budget : option Z; js_domain : string;
  js_shared_lower : option Z }.

(** [Snapshot]. *)
Record Snapshot := mkSnapshot {
  sn_mono : Z; sn_total : option Z; sn_available : option Z; sn_some : option Q; sn_full : option Q;
  sn_jobs : list JobSample }.

(** [Policy]. *)
Record Policy := mkPolicy {
  po_budget_samples : nat; po_pressure_samples : nat; po_max_gap : Z; po_projection : Q; po_reserve : Z;
  po_reserve_fraction : Q; po_min_growth : Q; po_dominant : Q; po_some : Q; po_full : Q }.

(** Its defaults. *)
Definition default_policy : Policy :=
  mkPolicy 2 3 (5 * second) 5 (2 * 1024 * 1024 * 1024) (2 # 100) (inject_Z (128 * 1024 * 1024)) (80 # 100) 1 (1 # 10).

(** [_system_charge]. *)
Definition _system_charge (j : JobSample) : option Z :=
  match js_host j with
  | None => None
  | Some host =>
      match js_shared_lower j with
      | Some shared => Some (Z.max host shared)
      | None =>
          if bool_decide (js_domain j = "shared_system") then (λ g, Z.max host g) <$> js_gpu_lower j
          else Some (Z.max host 0)
      end
  end.

(** [job.gpu_budget_bytes or job.budget_bytes]. *)
Definition gpu_budget (j : JobSample) : Z :=
  match js_gpu_budget j with Some b => if bool_decide (b = 0) then js_budget j else b | None => js_budget j end.

(** [_budget_identity]. *)
Definition Key : Type := string * option (Z * Z) * Z * Z * string * gset (string * string).
Definition _budget_identity (j : JobSample) : Key :=
  (js_scope j, js_cgroup j, js_budget j, gpu_budget j, js_domain j, js_domains j).

Inductive Domain := System | Gpu.
#[export] Instance Domain_eq_dec : EqDecision Domain.
Proof. solve_decision. Defined.
#[export] Instance Domain_countable : Countable Domain.
Proof.
  refine (inj_countable' (λ d, match d with System => true | Gpu => false end) (λ b : bool, if b then System else Gpu) _).
  by intros [].
Defined.

Inductive StopReason := Memory_budget_exceeded | Gpu_memory_budget_exceeded | Projected_host_oom.
Record Stop := mkStop { st_scope : string; st_cgroup : option (Z * Z); st_reason : StopReason }.

(** [Guard]. *)
Record Guard := mkGuard {
  gu_previous : option Snapshot; gu_over : gmap (Key * Domain) nat; gu_pressure : gmap Key nat }.
Definition new_guard : Guard := mkGuard None ∅ ∅.

(** A sample that can be held against its job. *)
Definition judgeable (j : JobSample) : bool :=
  js_complete j && bool_decide (is_Some (_system_charge j)) && bool_decide (is_Some (js_cgroup j)).

Definition used (d : Domain) (j : JobSample) : option Z := match d with System => _system_charge j | Gpu => js_gpu_lower j end.
Definition allowed (d : Domain) (j : JobSample) : Z := match d with System => js_budget j | Gpu => gpu_budget j end.

(** [excess]. *)
Definition excess (d : Domain) (j : JobSample) : bool :=
  judgeable j && match used d j with Some u => bool_decide (allowed d j < u) | None => false end.

Definition over_reason (d : Domain) : StopReason :=
  match d with System => Memory_budget_exceeded | Gpu => Gpu_memory_budget_exceeded end.

Definition decided (scope : string) (stops : list Stop) : bool := existsb (λ s, bool_decide (st_scope s = scope)) stops.

(** One metric of one job: the counter, and a decision when it is due. *)
Definition count_metric (po : Policy) (j : JobSample) (acc : gmap (Key * Domain) nat * list Stop) (d : Domain)
  : gmap (Key * Domain) nat * list Stop :=
  let '(over, stops) := acc in
  let counter := (_budget_identity j, d) in
  let n := if excess d j then S (default 0%nat (over !! counter)) else 0%nat in
  (<[counter := n]> over,
   if bool_decide (po_budget_samples po ≤ n)%nat && negb (decided (js_scope j) stops)
   then stops ++ [mkStop (js_scope j) (js_cgroup j) (over_reason d)] else stops).

(** The growth of a job since the previous snapshot, bytes a second. *)
Definition growth_of (prior : list JobSample) (dt : Z) (j : JobSample) : option Q :=
  match last (filter (λ o, js_scope o = js_scope j) prior) with
  | Some old =>
      if judgeable j && js_complete old && bool_decide (_budget_identity old = _budget_identity j) then
        match _system_charge j, _system_charge old with
        | Some c, Some o => Some (Qmax 0 (inject_Z ((c - o) * second) / inject_Z dt))
        | _, _ => None
        end
      else None
  | None => None
  end.

Definition count_job (po : Policy) (prior : list JobSample) (dt : Z)
    (acc : gmap (Key * Domain) nat * list Stop * list (string * Q)) (j : JobSample)
  : gmap (Key * Domain) nat * list Stop * list (string * Q) :=
  let '(over, stops, growth) := acc in
  let '(over, stops) := foldl (count_metric po j) (over, stops) [System; Gpu] in
  (over, stops, match growth_of prior dt j with Some r => dset (js_scope j) r growth | None => growth end).

(** [max(growth, key=growth.get)]: the first of the largest. *)
Fixpoint largest (growth : list (string * Q)) : option (string * Q) :=
  match growth with
  | [] => None
  | g :: growth =>
      match largest growth with
      | Some g' => if Qle_bool g'.2 g.2 then Some g else Some g'
      | None => Some g
      end
  end.

Definition total_growth (growth : list (string * Q)) : Q := foldr (λ g acc, g.2 + acc)%Q 0%Q growth.

(** [all] evidence the projection reads, if it is there: what is available
    now and before, the total, and the two pressures. *)
Definition host_evidence (prev s : Snapshot) (growth : list (string * Q)) : option (Z * Z * Z * Q * Q) :=
  match sn_available s, sn_available prev, sn_total s, sn_some s, sn_full s with
  | Some now, Some before, Some total, Some some, Some full =>
      if forallb js_complete (sn_jobs s) && bool_decide (length growth = length (sn_jobs s))
      then Some (now, before, total, some, full) else None
  | _, _, _, _, _ => None
  end.

(** The job that is about to exhaust the host, if one is. *)
Definition candidate (po : Policy) (prev s : Snapshot) (dt : Z) (growth : list (string * Q)) : option string :=
  match host_evidence prev s growth, largest growth with
  | Some (now, before, total, some, full), Some (scope, rate) =>
      let reserve := Z.max (po_reserve po) (Qfloor (inject_Z total * po_reserve_fraction po)) in
      let loss := (inject_Z ((before - now) * second) / inject_Z dt)%Q in
      if negb (bool_decide (scope = "")) && Qle_bool (po_min_growth po) rate && Qgt_bool loss 0
         && Qle_bool (po_dominant po * total_growth growth) rate && Qle_bool (po_dominant po * loss) rate
         && bool_decide (now ≤ 2 * reserve) && Qle_bool (inject_Z now - loss * po_projection po) (inject_Z reserve)
         && (Qle_bool (po_some po) some || Qle_bool (po_full po) full) then
        match filter (λ j, js_scope j = scope) (sn_jobs s) with
        | j :: _ =>
            match _system_charge j with
            | Some c => if Qgt_bool (inject_Z c + rate * po_projection po) (inject_Z (js_budget j)) then Some scope else None
            | None => None
            end
        | [] => None
        end
      else None
  | _, _ => None
  end.

Definition count_pressure (po : Policy) (chosen : option string) (acc : gmap Key nat * list Stop) (j : JobSample)
  : gmap Key nat * list Stop :=
  let '(pressure, stops) := acc in
  let key := _budget_identity j in
  let n := if bool_decide (chosen = Some (js_scope j)) then S (default 0%nat (pressure !! key)) else 0%nat in
  (<[key := n]> pressure,
   if bool_decide (po_pressure_samples po - 1 ≤ n)%nat && negb (decided (js_scope j) stops)
   then stops ++ [mkStop (js_scope j) (js_cgroup j) Projected_host_oom] else stops).

(** The interval to the previous snapshot, if they are continuous. *)
Definition interval (po : Policy) (prev : option Snapshot) (s : Snapshot) : option (Snapshot * Z) :=
  match prev with
  | Some p => let dt := sn_mono s - sn_mono p in if bool_decide (0 < dt ≤ po_max_gap po) then Some (p, dt) else None
  | None => None
  end.

(** [Guard.observe]. *)
Definition observe (po : Policy) (s : Snapshot) (g : Guard) : list Stop * Guard :=
  let gap := interval po (gu_previous g) s in
  let active : gset Key := list_to_set (_budget_identity <$> sn_jobs s) in
  let over := match gap with Some _ => filter (λ kv, kv.1.1 ∈ active) (gu_over g) | None => ∅ end in
  let pressure := match gap with Some _ => filter (λ kv, kv.1 ∈ active) (gu_pressure g) | None => ∅ end in
  let prior := match gap with Some (p, _) => sn_jobs p | None => [] end in
  let dt := match gap with Some (_, dt) => dt | None => 0 end in
  let '(over, stops, growth) := foldl (count_job po prior dt) (over, [], []) (sn_jobs s) in
  let chosen := match gap with Some (p, dt) => candidate po p s dt growth | None => None end in
  let '(pressure, stops) := foldl (count_pressure po chosen) (pressure, stops) (sn_jobs s) in
  (stops, mkGuard (Some s) over pressure).
