(* ===== verification/GpuGuardSpec.v ===== *)
(** * Whom the memory guard stops

    Theorems about [GpuGuard]: the guard's counters are the lengths of
    unbroken streaks of evidence, so that a job is stopped exactly when a
    streak about that very job is long enough, and at most once a snapshot. *)
From S2P Require Import Prelude.
From S2P Require Import Watch.
From S2P Require Import PoolProbe.
From S2P Require Import AdaptiveCpu.
From S2P Require Import GpuGuard.
From Stdlib Require Import QArith.QArith.
From stdpp Require Import options.

Open Scope Z_scope.

(** ** Histories and streaks *)

(** A history is a list of snapshots, the latest first; the guard has seen
    all of it. *)
Fixpoint guard_after (po : Policy) (h : list Snapshot) : Guard :=
  match h with [] => new_guard | s :: h => (observe po s (guard_after po h)).2 end.

Definition stops_at (po : Policy) (s : Snapshot) (h : list Snapshot) : list Stop := (observe po s (guard_after po h)).1.

(** A scope is one job. *)
Definition distinct (s : Snapshot) : Prop := NoDup (js_scope <$> sn_jobs s).

(** For how many snapshots without a gap the job [key] has been over. *)
Fixpoint over_streak (po : Policy) (h : list Snapshot) (key : Key) (d : Domain) : nat :=
  match h with
  | [] => 0
  | s :: h =>
      if existsb (λ j, bool_decide (_budget_identity j = key) && excess d j) (sn_jobs s)
      then S (match interval po (head h) s with Some _ => over_streak po h key d | None => 0%nat end)
      else 0
  end.

(** The growths of a snapshot, and whom they point at. *)
Definition growths (prior : list JobSample) (dt : Z) (jobs : list JobSample) : list (string * Q) :=
  foldl (λ g j, match growth_of prior dt j with Some r => dset (js_scope j) r g | None => g end) [] jobs.

Definition chosen_at (po : Policy) (s : Snapshot) (h : list Snapshot) : option string :=
  match interval po (head h) s with
  | Some (p, dt) => candidate po p s dt (growths (sn_jobs p) dt (sn_jobs s))
  | None => None
  end.

(** For how many intervals without a gap [key] has been the one that exhausts
    the host. *)
Fixpoint oom_streak (po : Policy) (h : list Snapshot) (key : Key) : nat :=
  match h with
  | [] => 0
  | s :: h =>
      if existsb (λ j, bool_decide (_budget_identity j = key) && bool_decide (chosen_at po s h = Some (js_scope j))) (sn_jobs s)
      then S (match interval po (head h) s with Some _ => oom_streak po h key | None => 0%nat end)
      else 0
  end.

(** ** One pass over the jobs *)

Lemma identity_scope j j' : _budget_identity j = _budget_identity j' → js_scope j = js_scope j'.
Proof. unfold _budget_identity. intros [= -> _ _ _ _ _]. done. Qed.

(** What the pass leaves of one job's counter and of the decisions. *)
Definition metric_count (d : Domain) (j : JobSample) (over : gmap (Key * Domain) nat) : nat :=
  if excess d j then S (default 0%nat (over !! (_budget_identity j, d))) else 0.

(** What a job is stopped for by its counts, the system's first. *)
Definition over_stop (po : Policy) (j : JobSample) (over : gmap (Key * Domain) nat) : list Stop :=
  if bool_decide (po_budget_samples po ≤ metric_count System j over)%nat
  then [mkStop (js_scope j) (js_cgroup j) Memory_budget_exceeded]
  else if bool_decide (po_budget_samples po ≤ metric_count Gpu j over)%nat
  then [mkStop (js_scope j) (js_cgroup j) Gpu_memory_budget_exceeded] else [].

Lemma decided_app scope l l' : decided scope (l ++ l') = decided scope l || decided scope l'.
Proof. apply existsb_app. Qed.

Lemma decided_false scope l : decided scope l = false ↔ scope ∉ st_scope <$> l.
Proof.
  unfold decided. rewrite <- not_true_iff_false, existsb_exists. split.
  - intros Hn (s & -> & Hs)%list_elem_of_fmap. apply Hn. exists s. split; [by apply list_elem_of_In|by apply bool_decide_eq_true].
  - intros Hn (s & Hs%list_elem_of_In & <-%bool_decide_eq_true). apply Hn. by apply list_elem_of_fmap_2.
Qed.

Lemma metrics_once po j over stops :
  js_scope j ∉ st_scope <$> stops →
  foldl (count_metric po j) (over, stops) [System; Gpu]
  = (<[(_budget_identity j, Gpu) := metric_count Gpu j over]> (<[(_budget_identity j, System) := metric_count System j over]> over),
     stops ++ over_stop po j over).
Proof.
  intros Hn%decided_false. cbn [foldl]. unfold count_metric at 2. rewrite Hn.
  fold (metric_count System j over). cbn [negb]. rewrite andb_true_r. unfold count_metric, over_stop.
  rewrite (lookup_insert_ne over (_budget_identity j, System)) by (intros [=]). fold (metric_count Gpu j over). f_equal.
  destruct (bool_decide (po_budget_samples po ≤ metric_count System j over)%nat).
  - rewrite decided_app, Hn. cbn. rewrite (bool_decide_true (js_scope j = js_scope j)) by done. cbn. by rewrite andb_false_r.
  - rewrite Hn. cbn [negb]. rewrite andb_true_r. destruct (bool_decide _); [done|by rewrite app_nil_r].
Qed.

Lemma over_stop_scope po j over : Forall (λ s, st_scope s = js_scope j) (over_stop po j over).
Proof. unfold over_stop. destruct (bool_decide _); [|destruct (bool_decide _)]; by repeat constructor. Qed.

(** The whole pass: every job's counters and stops are of its own. *)
Lemma count_jobs po prior dt over0 jobs over stops growth :
  NoDup (js_scope <$> jobs) → Forall (λ j, js_scope j ∉ st_scope <$> stops) jobs →
  (∀ j d, j ∈ jobs → over !! (_budget_identity j, d) = over0 !! (_budget_identity j, d)) →
  let r := foldl (count_job po prior dt) (over, stops, growth) jobs in
  (∀ j d, j ∈ jobs → r.1.1 !! (_budget_identity j, d) = Some (metric_count d j over0))
  ∧ (∀ key d, key ∉ _budget_identity <$> jobs → r.1.1 !! (key, d) = over !! (key, d))
  ∧ r.1.2 = stops ++ (jobs ≫= λ j, over_stop po j over0)
  ∧ r.2 = foldl (λ g j, match growth_of prior dt j with Some q => dset (js_scope j) q g | None => g end) growth jobs.
Proof.
  revert over stops growth. induction jobs as [|j jobs IH]; intros over stops growth Hnd Hns Hov; cbn [foldl].
  { cbn. split_and!; [by intros ?? ?%elem_of_nil|done|by rewrite app_nil_r|done]. }
  apply NoDup_cons in Hnd as [Hj Hnd]. apply Forall_cons in Hns as [Hn Hns].
  unfold count_job at 2 4 6 8. rewrite (metrics_once _ _ _ _ Hn).
  assert (∀ d, metric_count d j over = metric_count d j over0) as Hm.
  { intros d. unfold metric_count. by rewrite Hov by by left. }
  assert (over_stop po j over = over_stop po j over0) as Ho by (unfold over_stop; by rewrite !Hm).
  rewrite !Hm, Ho. set (over1 := <[_ := _]> (<[_ := _]> over)).
  assert (∀ key d, key ≠ _budget_identity j → over1 !! (key, d) = over !! (key, d)) as Hne.
  { intros key d Hk. subst over1. by rewrite !lookup_insert_ne by (intros [= ? ?]; congruence). }
  assert (∀ j', j' ∈ jobs → _budget_identity j' ≠ _budget_identity j) as Hid.
  { intros j' Hj' E%identity_scope. apply Hj. rewrite <- E. by apply list_elem_of_fmap_2. }
  edestruct (IH over1 (stops ++ over_stop po j over0)) as (H1 & H2 & H3 & H4).
  { done. }
  { rewrite Forall_forall in Hns |- *. intros j' Hj'. rewrite fmap_app, not_elem_of_app. split; [by apply Hns|].
    intros (st & E & Hst)%list_elem_of_fmap. pose proof (over_stop_scope po j over0) as Hs. rewrite Forall_forall in Hs.
    rewrite (Hs _ Hst) in E. apply Hj. rewrite <- E. by apply list_elem_of_fmap_2. }
  { intros j' d Hj'. rewrite Hne by by apply Hid. apply Hov. by right. }
  cbn zeta. split_and!.
  - intros j' d [->|Hj']%elem_of_cons; [|by apply H1]. rewrite H2.
    + subst over1. destruct d; [rewrite lookup_insert_ne by (intros [=])|]; by rewrite lookup_insert_eq.
    + intros (j' & E & Hj')%list_elem_of_fmap. by apply (Hid j' Hj').
  - intros key d Hk. rewrite fmap_cons, not_elem_of_cons in Hk. destruct Hk as [Hk1 Hk2]. rewrite H2 by done. by apply Hne.
  - rewrite H3, <- app_assoc. done.
  - exact H4.
Qed.

(** ** The projection's pass *)

Definition press_count (chosen : option string) (j : JobSample) (pressure : gmap Key nat) : nat :=
  if bool_decide (chosen = Some (js_scope j)) then S (default 0%nat (pressure !! _budget_identity j)) else 0.

Definition oom_stop (po : Policy) (chosen : option string) (pressure : gmap Key nat) (stops : list Stop) (j : JobSample) : list Stop :=
  if bool_decide (po_pressure_samples po - 1 ≤ press_count chosen j pressure)%nat && negb (decided (js_scope j) stops)
  then [mkStop (js_scope j) (js_cgroup j) Projected_host_oom] else [].

Lemma count_pressures po chosen pressure0 stops0 jobs pressure stops :
  NoDup (js_scope <$> jobs) →
  (∀ j, j ∈ jobs → pressure !! _budget_identity j = pressure0 !! _budget_identity j) →
  (∀ j, j ∈ jobs → decided (js_scope j) stops = decided (js_scope j) stops0) →
  let r := foldl (count_pressure po chosen) (pressure, stops) jobs in
  (∀ j, j ∈ jobs → r.1 !! _budget_identity j = Some (press_count chosen j pressure0))
  ∧ (∀ key, key ∉ _budget_identity <$> jobs → r.1 !! key = pressure !! key)
  ∧ r.2 = stops ++ (jobs ≫= oom_stop po chosen pressure0 stops0).
Proof.
  revert pressure stops. induction jobs as [|j jobs IH]; intros pressure stops Hnd Hp Hd; cbn [foldl].
  { cbn. split_and!; [by intros ? ?%elem_of_nil|done|by rewrite app_nil_r]. }
  apply NoDup_cons in Hnd as [Hj Hnd]. unfold count_pressure at 2 4 6. fold (press_count chosen j pressure).
  assert (press_count chosen j pressure = press_count chosen j pressure0) as -> by (unfold press_count; by rewrite Hp by by left).
  rewrite (Hd j) by by left.
  assert (∀ j', j' ∈ jobs → js_scope j' ≠ js_scope j) as Hsc.
  { intros j' Hj' E. apply Hj. rewrite <- E. by apply list_elem_of_fmap_2. }
  assert (∀ j', j' ∈ jobs → _budget_identity j' ≠ _budget_identity j) as Hid by (intros j' Hj' E%identity_scope; by apply (Hsc j')).
  set (stops1 := if _ && _ then _ else stops).
  assert (stops1 = stops ++ oom_stop po chosen pressure0 stops0 j) as E1.
  { subst stops1. unfold oom_stop. destruct (_ && _); [done|by rewrite app_nil_r]. }
  edestruct (IH (<[_budget_identity j := press_count chosen j pressure0]> pressure) stops1) as (H1 & H2 & H3).
  { done. }
  { intros j' Hj'. rewrite lookup_insert_ne by (intros E; by apply (Hid j' Hj')). apply Hp. by right. }
  { intros j' Hj'. rewrite E1, decided_app, (Hd j') by by right. unfold oom_stop. destruct (_ && _); cbn; [|by rewrite orb_false_r].
    rewrite bool_decide_false by (intros E; by apply (Hsc j' Hj')). by rewrite orb_false_r. }
  cbn zeta. split_and!.
  - intros j' [->|Hj']%elem_of_cons; [|by apply H1]. rewrite H2; [by rewrite lookup_insert_eq|].
    intros (j' & E & Hj')%list_elem_of_fmap. by apply (Hid j' Hj').
  - intros key Hk. rewrite fmap_cons, not_elem_of_cons in Hk. destruct Hk as [Hk1 Hk2]. rewrite H2 by done.
    by rewrite lookup_insert_ne by congruence.
  - rewrite H3, E1, <- app_assoc. done.
Qed.

(** ** The counters are streaks *)

(** What the guard remembers after a history. *)
Definition counts_streaks (po : Policy) (h : list Snapshot) (g : Guard) : Prop :=
  gu_previous g = head h
  ∧ (∀ key d, default 0%nat (gu_over g !! (key, d)) = over_streak po h key d)
  ∧ ∀ key, default 0%nat (gu_pressure g !! key) = oom_streak po h key.

Lemma existsb_identity (jobs : list JobSample) (f : JobSample → bool) j :
  NoDup (js_scope <$> jobs) → j ∈ jobs → existsb (λ j', bool_decide (_budget_identity j' = _budget_identity j) && f j') jobs = f j.
Proof.
  intros Hnd Hj. destruct (f j) eqn:E.
  - apply existsb_exists. exists j. split; [by apply list_elem_of_In|]. by rewrite bool_decide_true, E.
  - apply not_true_is_false. intros (j' & Hj'%list_elem_of_In & Hf)%existsb_exists. apply andb_true_iff in Hf as [Hid%bool_decide_eq_true Hf].
    apply identity_scope in Hid. assert (j' = j) as ->; [|congruence].
    clear -Hnd Hj Hj' Hid. induction jobs as [|i jobs IH]; [by apply elem_of_nil in Hj|].
    apply NoDup_cons in Hnd as [Hn Hnd]. apply elem_of_cons in Hj as [->|Hj], Hj' as [->|Hj']; [done| | |by apply IH].
    + destruct Hn. rewrite <- Hid. by apply list_elem_of_fmap_2.
    + destruct Hn. rewrite Hid. by apply list_elem_of_fmap_2.
Qed.

Lemma existsb_absent (jobs : list JobSample) (f : JobSample → bool) key :
  key ∉ _budget_identity <$> jobs → existsb (λ j', bool_decide (_budget_identity j' = key) && f j') jobs = false.
Proof.
  intros Hk. apply not_true_is_false. intros (j' & Hj'%list_elem_of_In & Hf)%existsb_exists.
  apply andb_true_iff in Hf as [<-%bool_decide_eq_true _]. apply Hk. by apply list_elem_of_fmap_2.
Qed.

(** The counter a job comes to, from the counters before. *)
Lemma metric_count_streak po s h over j d :
  distinct s → j ∈ sn_jobs s →
  default 0%nat (over !! (_budget_identity j, d))
    = match interval po (head h) s with Some _ => over_streak po h (_budget_identity j) d | None => 0%nat end →
  metric_count d j over = over_streak po (s :: h) (_budget_identity j) d.
Proof. intros Hd Hj Ho. unfold metric_count. cbn [over_streak]. by rewrite (existsb_identity _ (excess d)), Ho. Qed.

Lemma press_count_streak po s h pressure j :
  distinct s → j ∈ sn_jobs s →
  default 0%nat (pressure !! _budget_identity j)
    = match interval po (head h) s with Some _ => oom_streak po h (_budget_identity j) | None => 0%nat end →
  press_count (chosen_at po s h) j pressure = oom_streak po (s :: h) (_budget_identity j).
Proof.
  intros Hd Hj Ho. unfold press_count. cbn [oom_streak].
  by rewrite (existsb_identity _ (λ j, bool_decide (chosen_at po s h = Some (js_scope j)))), Ho.
Qed.

(** What is stopped, in the words of the streaks. *)
Definition over_stop_of (po : Policy) (h : list Snapshot) (j : JobSample) : list Stop :=
  if bool_decide (po_budget_samples po ≤ over_streak po h (_budget_identity j) System)%nat
  then [mkStop (js_scope j) (js_cgroup j) Memory_budget_exceeded]
  else if bool_decide (po_budget_samples po ≤ over_streak po h (_budget_identity j) Gpu)%nat
  then [mkStop (js_scope j) (js_cgroup j) Gpu_memory_budget_exceeded] else [].

Lemma bind_ext {A B} (f g : A → list B) (l : list A) : (∀ x, x ∈ l → f x = g x) → l ≫= f = l ≫= g.
Proof.
  induction l as [|x l IH]; intros Hfg; [done|]. cbn. rewrite (Hfg x) by by left.
  f_equal. apply IH. intros y Hy. apply Hfg. by right.
Qed.

Lemma observe_streaks po s h g :
  counts_streaks po h g → distinct s →
  counts_streaks po (s :: h) (observe po s g).2
  ∧ ∃ pressure, (observe po s g).1
      = (sn_jobs s ≫= over_stop_of po (s :: h))
        ++ (sn_jobs s ≫= oom_stop po (chosen_at po s h) pressure (sn_jobs s ≫= over_stop_of po (s :: h)))
    ∧ ∀ j, j ∈ sn_jobs s → press_count (chosen_at po s h) j pressure = oom_streak po (s :: h) (_budget_identity j).
Proof.
  intros (Hp & Ho & Hr) Hd. unfold observe. rewrite Hp. set (active := list_to_set _ : gset Key).
  assert (∀ key, key ∈ active ↔ key ∈ _budget_identity <$> sn_jobs s) as Hact by (intros key; apply elem_of_list_to_set).
  set (over0 := match interval po (head h) s with Some _ => filter (λ kv, kv.1.1 ∈ active) _ | None => _ end).
  set (press0 := match interval po (head h) s with Some _ => filter (λ kv, kv.1 ∈ active) _ | None => _ end).
  assert (∀ j d, j ∈ sn_jobs s → metric_count d j over0 = over_streak po (s :: h) (_budget_identity j) d) as Hm.
  { intros j d Hj. apply metric_count_streak; [done|done|]. subst over0. destruct (interval po (head h) s) as [[p dt]|]; [|done].
    rewrite <- Ho. f_equal. destruct (gu_over g !! (_budget_identity j, d)) as [n|] eqn:E.
    - apply map_lookup_filter_Some. split; [done|]. cbn [fst]. apply Hact. by apply list_elem_of_fmap_2.
    - apply map_lookup_filter_None. by left. }
  assert (∀ j, j ∈ sn_jobs s → press_count (chosen_at po s h) j press0 = oom_streak po (s :: h) (_budget_identity j)) as Hpc.
  { intros j Hj. apply press_count_streak; [done|done|]. subst press0. destruct (interval po (head h) s) as [[p dt]|]; [|done].
    rewrite <- Hr. f_equal. destruct (gu_pressure g !! _budget_identity j) as [n|] eqn:E.
    - apply map_lookup_filter_Some. split; [done|]. cbn [fst]. apply Hact. by apply list_elem_of_fmap_2.
    - apply map_lookup_filter_None. by left. }
  set (prior := match interval po (head h) s with Some (p, _) => sn_jobs p | None => [] end).
  set (dt := match interval po (head h) s with Some (_, dt) => dt | None => 0 end).
  pose proof (count_jobs po prior dt over0 (sn_jobs s) over0 [] [] Hd) as Hc. cbn zeta in Hc.
  destruct Hc as (H1 & H2 & H3 & H4); [by apply Forall_forall; intros j _ ?%elem_of_nil|done|].
  destruct (foldl (count_job po prior dt) _ _) as [[over stops] growth]. cbn [fst snd] in *.
  assert (match interval po (head h) s with Some (p, dt) => candidate po p s dt growth | None => None end = chosen_at po s h) as ->.
  { unfold chosen_at. subst prior dt. destruct (interval po (head h) s) as [[p dt]|]; [|done]. by rewrite H4. }
  assert (stops = sn_jobs s ≫= over_stop_of po (s :: h)) as ->.
  { rewrite H3. apply bind_ext. intros j Hj. unfold over_stop, over_stop_of. by rewrite !Hm. }
  pose proof (count_pressures po (chosen_at po s h) press0 (sn_jobs s ≫= over_stop_of po (s :: h)) (sn_jobs s) press0
    (sn_jobs s ≫= over_stop_of po (s :: h)) Hd ltac:(done) ltac:(done)) as Hq. cbn zeta in Hq. destruct Hq as (Q1 & Q2 & Q3).
  destruct (foldl (count_pressure po (chosen_at po s h)) _ _) as [pressure stops]. cbn [fst snd] in *.
  split; [split_and!; [done| |]|].
  - intros key d. cbn [gu_over]. destruct (decide (key ∈ _budget_identity <$> sn_jobs s)) as [(j & -> & Hj)%list_elem_of_fmap|Hn].
    + by rewrite H1, Hm.
    + rewrite H2 by done. cbn [over_streak]. rewrite (existsb_absent _ (excess d)) by done. subst over0.
      destruct (interval po (head h) s) as [[p dt']|]; [|done]. rewrite (proj2 (map_lookup_filter_None _ _ _)); [done|].
      right. intros n _ Hin. apply Hn, Hact, Hin.
  - intros key. cbn [gu_pressure]. destruct (decide (key ∈ _budget_identity <$> sn_jobs s)) as [(j & -> & Hj)%list_elem_of_fmap|Hn].
    + by rewrite Q1, Hpc.
    + rewrite Q2 by done. cbn [oom_streak].
      rewrite (existsb_absent _ (λ j, bool_decide (chosen_at po s h = Some (js_scope j)))) by done. subst press0.
      destruct (interval po (head h) s) as [[p dt']|]; [|done]. rewrite (proj2 (map_lookup_filter_None _ _ _)); [done|].
      right. intros n _ Hin. apply Hn, Hact, Hin.
  - exists press0. split; [exact Q3|exact Hpc].
Qed.

Lemma guard_after_streaks po h : Forall distinct h → counts_streaks po h (guard_after po h).
Proof.
  induction 1 as [|s h Hs _ IH]; [done|]. by destruct (observe_streaks po s h _ IH Hs) as [? _].
Qed.

(** ** Decisions *)

Lemma over_stop_of_in po h j st :
  st ∈ over_stop_of po h j ↔ st_scope st = js_scope j ∧ st_cgroup st = js_cgroup j
    ∧ match st_reason st with
      | Memory_budget_exceeded => (po_budget_samples po ≤ over_streak po h (_budget_identity j) System)%nat
      | Gpu_memory_budget_exceeded => (over_streak po h (_budget_identity j) System < po_budget_samples po)%nat
                                      ∧ (po_budget_samples po ≤ over_streak po h (_budget_identity j) Gpu)%nat
      | Projected_host_oom => False
      end.
Proof.
  unfold over_stop_of. destruct st as [sc cg []]; cbn [st_scope st_cgroup st_reason].
  all: repeat match goal with |- context [bool_decide ?P] => destruct (bool_decide_reflect P) end.
  all: rewrite ?list_elem_of_singleton, ?elem_of_nil; split; try done; try (by intros [=]; subst); try lia.
  all: try (intros (-> & -> & ?); try done; lia).
  all: try (intros (_ & _ & [])).
  all: intros [= -> ->]; split_and!; try done; lia.
Qed.

Lemma bind_in_own (f : JobSample → list Stop) (jobs : list JobSample) j st :
  NoDup (js_scope <$> jobs) → j ∈ jobs → (∀ i s, i ∈ jobs → s ∈ f i → st_scope s = js_scope i) → st_scope st = js_scope j →
  st ∈ jobs ≫= f ↔ st ∈ f j.
Proof.
  intros Hnd Hj Hf Hs. rewrite list_elem_of_bind. split; [|by eauto].
  intros (i & Hi & Hin). pose proof (Hf i st Hin Hi) as E. assert (i = j) as ->; [|done].
  rewrite Hs in E. clear -Hnd Hj Hin E. induction jobs as [|k jobs IH]; [by apply elem_of_nil in Hj|].
  apply NoDup_cons in Hnd as [Hn Hnd]. apply elem_of_cons in Hj as [->|Hj], Hin as [->|Hin]; [done| | |by apply IH].
  - destruct Hn. rewrite E. by apply list_elem_of_fmap_2.
  - destruct Hn. rewrite <- E. by apply list_elem_of_fmap_2.
Qed.

Lemma oom_stop_in po chosen pressure stops j st :
  st ∈ oom_stop po chosen pressure stops j ↔
  st = mkStop (js_scope j) (js_cgroup j) Projected_host_oom
  ∧ (po_pressure_samples po - 1 ≤ press_count chosen j pressure)%nat ∧ decided (js_scope j) stops = false.
Proof.
  unfold oom_stop. destruct (bool_decide_reflect (po_pressure_samples po - 1 ≤ press_count chosen j pressure)%nat) as [Hp|Hp];
    [destruct (decided (js_scope j) stops)|]; cbn [andb negb]; rewrite ?list_elem_of_singleton, ?elem_of_nil; naive_solver.
Qed.

(** C21: whom the guard stops, and only them: after any history of snapshots
    a job is stopped for its memory exactly when it has been over its budget,
    as the very same job under the very same budget, in every one of the last
    [budget_samples] snapshots, none of them further from the next than the
    allowed gap; for its GPU memory exactly when that is so of its GPU
    allowance and not of its memory; and for exhausting the host exactly when
    neither is so and the last [pressure_samples - 1] intervals without a gap
    all pointed at it. *)
Theorem guard_stops_iff po s h j r :
  Forall distinct (s :: h) → j ∈ sn_jobs s →
  mkStop (js_scope j) (js_cgroup j) r ∈ stops_at po s h
  ↔ match r with
    | Memory_budget_exceeded => (po_budget_samples po ≤ over_streak po (s :: h) (_budget_identity j) System)%nat
    | Gpu_memory_budget_exceeded =>
        (over_streak po (s :: h) (_budget_identity j) System < po_budget_samples po)%nat
        ∧ (po_budget_samples po ≤ over_streak po (s :: h) (_budget_identity j) Gpu)%nat
    | Projected_host_oom =>
        (∀ d, over_streak po (s :: h) (_budget_identity j) d < po_budget_samples po)%nat
        ∧ (po_pressure_samples po - 1 ≤ oom_streak po (s :: h) (_budget_identity j))%nat
    end.
Proof.
  intros [Hs Hh]%Forall_cons Hj. destruct (observe_streaks po s h _ (guard_after_streaks po h Hh) Hs) as [_ (pressure & E & Hpc)].
  unfold stops_at. rewrite E, elem_of_app. set (overs := sn_jobs s ≫= over_stop_of po (s :: h)).
  assert (∀ st, st_scope st = js_scope j → st ∈ overs ↔ st ∈ over_stop_of po (s :: h) j) as Hov.
  { intros st Hst. apply bind_in_own; [done|done| |done]. by intros i st' _ [? _]%over_stop_of_in. }
  rewrite Hov, over_stop_of_in by done. cbn [st_scope st_cgroup st_reason].
  rewrite (bind_in_own _ _ j); [|done|done| |done].
  2: { by intros i st _ [-> _]%oom_stop_in. }
  rewrite oom_stop_in, (Hpc j Hj).
  assert (decided (js_scope j) overs = false ↔ ∀ d, (over_streak po (s :: h) (_budget_identity j) d < po_budget_samples po)%nat) as Hdec.
  { rewrite decided_false. split.
    - intros Hn d. apply Nat.nle_gt. intros Hle. apply Hn.
      assert (∃ st, st ∈ over_stop_of po (s :: h) j) as [st Hst].
      { destruct (decide (po_budget_samples po ≤ over_streak po (s :: h) (_budget_identity j) System)%nat) as [HS|HS].
        - exists (mkStop (js_scope j) (js_cgroup j) Memory_budget_exceeded). by apply over_stop_of_in.
        - exists (mkStop (js_scope j) (js_cgroup j) Gpu_memory_budget_exceeded). apply over_stop_of_in. cbn [st_scope st_cgroup st_reason].
          split_and!; [done|done|lia|by destruct d]. }
      pose proof Hst as [Hsc _]%over_stop_of_in. rewrite <- Hsc. apply list_elem_of_fmap_2. by apply Hov.
    - intros Hlt (st & Hst & Hin)%list_elem_of_fmap. apply Hov in Hin; [|done]. apply over_stop_of_in in Hin as (_ & _ & Hr).
      pose proof (Hlt System). pose proof (Hlt Gpu). destruct (st_reason st); [lia|lia|done]. }
  destruct r; [split; [intros [(_ & _ & ?)|[[=] _]]; done|by left]..|].
  rewrite <- Hdec. split; [intros [(_ & _ & [])|(_ & ? & ?)]; done|intros [? ?]; by right].
Qed.

(** A job of a hundred bytes that holds two hundred, seen twice. *)
Definition greedy : JobSample := mkJobSample "job" (Some (1, 1)) 100 (Some 200) (Some 0) true ∅ None "discrete" (Some 0).
Definition seen_at (t : Z) : Snapshot := mkSnapshot (t * second) None None None None [greedy].

Lemma guard_stops_iff_witness :
  mkStop "job" (Some (1, 1)) Memory_budget_exceeded ∈ stops_at default_policy (seen_at 2) [seen_at 1]
  ∧ mkStop "job" (Some (1, 1)) Memory_budget_exceeded ∉ stops_at default_policy (seen_at 20) [seen_at 1].
Proof.
  split.
  - apply (guard_stops_iff default_policy (seen_at 2) [seen_at 1] greedy Memory_budget_exceeded); [|by left|by apply Nat.leb_le].
    by repeat constructor; apply not_elem_of_nil.
  - intros Hin. apply (guard_stops_iff default_policy (seen_at 20) [seen_at 1] greedy Memory_budget_exceeded) in Hin; [|by repeat constructor; apply not_elem_of_nil|by left].
    vm_compute in Hin. lia.
Defined.
