(* ===== verification/AdaptiveGpu.v ===== *)
(** * Host GPU admission ([adaptive_gpu.py], [gpu_sample_facts.py])

    [Controller.decision] for a single shared GPU: what the broker's sample
    must show, the power reference, the response of power to a probe
    ([observe_feedback]), the exception for an idle device held at its power
    cap, and the credit a probe spends ([reserve_probe], [return_probe]).
    Times are integer microseconds, power and pressure exact rationals; a
    field of the sample that is not of its type is absent.  What a refusal
    records only for its readers is left out, and so is the ownership test of
    the sample file. *)
From S2P Require Import Prelude.
From S2P Require Import TokenName.
From S2P Require Import Ledger.
From S2P Require Import Tier.
From S2P Require Import Watch.
From S2P Require Import PoolProbe.
From S2P Require Import IdleBaseline.
From S2P Require Import AdaptiveCpu.
From Stdlib Require Import QArith.QArith QArith.Qminmax QArith.Qabs.
From stdpp Require Import options.

Open Scope Z_scope.

Definition SETTLE : Z := 2 * second.
Definition FEEDBACK_SAMPLES : nat := 3.
Definition FEEDBACK_WINDOW : nat := 6.
Definition PSI_AVG10 : Z := 10 * second.
Definition GIB : Z := 1024 * 1024 * 1024.
Definition IDLE_PRESSURE_FIELDS : list IdleField := [Memory_some; Memory_full; Cpu_some].
Definition SW_CAP_IDLE_CLOCK_FRACTION : Q := 10 # 100.
Definition SW_CAP_IDLE_POWER_FRACTION : Q := 65 # 100.
Definition SW_CAP_IDLE_DEVICE_NAME : string := "NVIDIA GB10".
Definition SW_CAP_IDLE_BIT : Z := 4.
Definition SW_CAP_GPU_IDLE_BIT : Z := 1.
Definition SW_CAP_OTHER_LIMITERS : list string :=
  ["hw_slowdown"; "hw_thermal_slowdown"; "hw_power_brake_slowdown"; "sw_thermal_slowdown"; "sync_boost"].

(** [DECLARED_GPU_POWER_REFERENCE_W]. *)
Definition declared_reference (name : option string) : option Q :=
  if bool_decide (name = Some SW_CAP_IDLE_DEVICE_NAME) then Some (100 # 1)%Q else None.

(** [_prior_pressure]. *)
Definition _prior_pressure (l : Load) : bool :=
  Qle_bool 1 (ld_memory_some l) || Qle_bool (1 # 10) (ld_memory_full l) || Qle_bool 10 (ld_cpu_some l).

(** ** The broker's sample *)

Record GpuDevice := mkGpuDevice {
  gd_uuid : option string; gd_name : option string; gd_domain : option string; gd_power : option Q;
  gd_limit : option Q; gd_scope : option string; gd_envelope : option Q; gd_limited : option bool;
  gd_memory_only : bool; gd_memory : option (Z * Z * Z); gd_sm : option Q; gd_max_sm : option Q;
  gd_reasons : option (gmap string (option bool)); gd_mask : option Z }.

(** A device of which nothing is known. *)
Definition no_device : GpuDevice :=
  mkGpuDevice None None None None None None None None false None None None None None.

Record GpuJob := mkGpuJob { gj_key : string; gj_complete : bool; gj_nonce : option string; gj_scope : option string }.

Record HostFacts := mkHostFacts { hf_total : Z; hf_available : Z; hf_memory_some : Q; hf_memory_full : Q; hf_cpu_some : Q }.

(** [gs_host] has the five host fields when all are numbers. *)
Record GpuSample := mkGpuSample {
  gs_declared : bool; gs_at : option Z; gs_id : option string; gs_devices : list GpuDevice;
  gs_foreign : option (list string); gs_jobs : option (list GpuJob); gs_host : option HostFacts }.

(** Python's truth of a string that may be absent. *)
Definition truthy (s : option string) : bool := match s with Some v => negb (bool_decide (v = "")) | None => false end.

(** [is_nonnegative_number]. *)
Definition nonneg (q : option Q) : option Q := match q with Some v => if Qle_bool 0 v then Some v else None | None => None end.

(** [single_device_inventory]. *)
Definition single_device (s : GpuSample) (fr : bool) : option (GpuDevice * string * list GpuJob * list string) :=
  match gs_id s, gs_devices s, gs_foreign s, gs_jobs s with
  | Some id, [d], Some foreign, Some jobs =>
      if fr && gs_declared s && negb (bool_decide (id = "")) then Some (d, id, jobs, foreign) else None
  | _, _, _, _ => None
  end.

(** [controller_host]. *)
Definition controller_host (s : GpuSample) : option HostFacts :=
  match gs_host s with
  | Some h =>
      if bool_decide (0 < hf_total h) && bool_decide (0 ≤ hf_available h ≤ hf_total h)
         && forallb (λ q, Qle_bool 0 q && Qle_bool q 100) [hf_memory_some h; hf_memory_full h; hf_cpu_some h]
      then Some h else None
  | None => None
  end.

(** [device_identity]. *)
Definition device_identity (d : GpuDevice) : option string :=
  match gd_uuid d, gd_domain d with
  | Some u, Some m => if negb (bool_decide (u = "")) && (bool_decide (m = "shared_system") || bool_decide (m = "discrete")) then Some u else None
  | _, _ => None
  end.

(** ** The state of the controller *)

(** One observation of the device's power. *)
Record Row := mkRow { rw_id : string; rw_at : Z; rw_power : Q }.
#[export] Instance Row_eq_dec : EqDecision Row.
Proof. solve_decision. Defined.

(** [power_feedback]: what a probe is waiting to see, and the plateau it saw. *)
Record Feedback := mkFeedback {
  fb_uuid : string; fb_baseline : list Row; fb_admitted : Z; fb_expected : list string; fb_plateau : option (list Row * Z) }.
#[export] Instance Feedback_eq_dec : EqDecision Feedback.
Proof. solve_decision. Defined.

(** [gpu-state.json]. *)
Record GpuState := mkGpuState {
  gp_peaks : gmap string Q; gp_baseline : option Baseline; gp_feedback : option Feedback; gp_window : list Row;
  gp_members : list string; gp_sample_id : option string; gp_sampled : Z; gp_low : nat;
  gp_consumed : option (string * Z); gp_probe : option string }.
Definition no_state : GpuState := mkGpuState ∅ None None [] [] None 0 0 None None.

Definition set_peaks (p : gmap string Q) (s : GpuState) : GpuState :=
  mkGpuState p (gp_baseline s) (gp_feedback s) (gp_window s) (gp_members s) (gp_sample_id s) (gp_sampled s) (gp_low s) (gp_consumed s) (gp_probe s).
Definition set_baseline (b : option Baseline) (s : GpuState) : GpuState :=
  mkGpuState (gp_peaks s) b (gp_feedback s) (gp_window s) (gp_members s) (gp_sample_id s) (gp_sampled s) (gp_low s) (gp_consumed s) (gp_probe s).
Definition set_feedback (f : option Feedback) (s : GpuState) : GpuState :=
  mkGpuState (gp_peaks s) (gp_baseline s) f (gp_window s) (gp_members s) (gp_sample_id s) (gp_sampled s) (gp_low s) (gp_consumed s) (gp_probe s).
Definition set_window (w : list Row) (m : list string) (s : GpuState) : GpuState :=
  mkGpuState (gp_peaks s) (gp_baseline s) (gp_feedback s) w m (gp_sample_id s) (gp_sampled s) (gp_low s) (gp_consumed s) (gp_probe s).
Definition set_sample (id : string) (at' : Z) (low : nat) (s : GpuState) : GpuState :=
  mkGpuState (gp_peaks s) (gp_baseline s) (gp_feedback s) (gp_window s) (gp_members s) (Some id) at' low (gp_consumed s) (gp_probe s).
Definition set_consumed (c : option (string * Z)) (p : option string) (s : GpuState) : GpuState :=
  mkGpuState (gp_peaks s) (gp_baseline s) (gp_feedback s) (gp_window s) (gp_members s) (gp_sample_id s) (gp_sampled s) (gp_low s) c p.

(** [admission_power_reference]. *)
Definition admission_power_reference (d : GpuDevice) (s : GpuState) : option Q :=
  match nonneg (gd_limit d) with
  | Some l => if Qeq_bool l 0 then None else Some l
  | None => None
  end
  ∪ (if bool_decide (gd_scope d = Some "soc_tdp") then
       match declared_reference (gd_name d) with
       | Some declared =>
           match nonneg (gd_uuid d ≫= λ u, gp_peaks s !! u) with
           | Some peak => if Qgt_bool peak declared then Some peak else Some declared
           | None => Some declared
           end
       | None => None
       end
     else None).

(** [reporting_power_reference]: what a reader divides by. *)
Definition reporting_power_reference (d : GpuDevice) (s : GpuState) : option Q :=
  let published :=
    if bool_decide (gd_scope d = Some "soc_tdp") then
      match nonneg (gd_envelope d) with Some p => if Qeq_bool p 0 then None else Some p | None => None end
    else None in
  match nonneg (admission_power_reference d s) with
  | Some w => if Qgt_bool w 0 then Some w else published
  | None => published
  end.

(** [record_power_peak]. *)
Definition record_power_peak (d : GpuDevice) (s : GpuState) : GpuState :=
  match gd_uuid d, nonneg (gd_power d) with
  | Some u, Some power =>
      if bool_decide (u = "") then s
      else if match nonneg (gd_envelope d) with Some c => negb (Qeq_bool c 0) && Qgt_bool power c | None => false end then s
      else
        match nonneg (gp_peaks s !! u) with
        | Some peak => if Qgt_bool power peak then set_peaks (<[u := power]> (gp_peaks s)) s else s
        | None => set_peaks (<[u := power]> (gp_peaks s)) s
        end
  | _, _ => s
  end.

(** ** The response of power to a probe *)

Definition mean (rows : list Row) : Q :=
  foldr (λ r acc, rw_power r + acc)%Q 0%Q rows / inject_Z (Z.of_nat (length rows)).

(** The square of the standard error of the mean. *)
Definition error2 (rows : list Row) : Q :=
  let n := Z.of_nat (length rows) in
  if bool_decide (n ≤ 1) then 0%Q
  else (foldr (λ r acc, (rw_power r - mean rows) * (rw_power r - mean rows) + acc) 0 rows / inject_Z (n - 1) / inject_Z n)%Q.

(** [_separated_power]: [abs(difference) > margin], the margin's root compared
    as a square. *)
Definition separated (before after : list Row) : bool :=
  let d := (mean after - mean before)%Q in
  Qgt_bool (Qabs d) ((3 # 100) * Qmax (mean before) (mean after))
  && Qgt_bool (d * d) (4 * (error2 before + error2 after)).

(** [observe_feedback]: the state, and whether a probe is permitted. *)
Definition observe_feedback (uuid : string) (row : Row) (members : list string) (s : GpuState) : bool * GpuState :=
  match members with
  | [] => (true, set_window [] [] (set_feedback None s))
  | _ :: _ =>
      let kept := if bool_decide (gp_members s = members) then gp_window s else [] in
      let window := filter (λ r, 0 ≤ rw_at row - rw_at r ≤ MAX_SAMPLE_AGE) kept in
      let window := if match last window with None => true | Some r => bool_decide (second ≤ rw_at row - rw_at r) end
                    then last_n FEEDBACK_WINDOW (window ++ [row]) else window in
      let s := set_window window members s in
      match gp_feedback s with
      | None => (true, s)
      | Some f =>
          if negb (bool_decide (fb_uuid f = uuid)) then (true, set_feedback None s)
          else
            match fb_plateau f with
            | Some (observed, evaluated) =>
                let recent := filter (λ r, evaluated < rw_at r) window in
                if bool_decide (FEEDBACK_SAMPLES ≤ length recent)%nat && separated observed recent
                then (true, set_feedback None s) else (false, s)
            | None =>
                if negb (bool_decide (members = fb_expected f)) then (true, set_feedback None s)
                else
                  let recent := filter (λ r, fb_admitted f + SETTLE ≤ rw_at r) window in
                  if bool_decide (length recent < FEEDBACK_SAMPLES)%nat then (false, s)
                  else if separated (fb_baseline f) recent then (true, set_feedback None s)
                  else (false, set_feedback (Some (mkFeedback (fb_uuid f) (fb_baseline f) (fb_admitted f) (fb_expected f)
                                                     (Some (recent, rw_at row)))) s)
            end
      end
  end.

(** ** The power-cap exception *)

(** The limiter breakdown of an idle device under its software cap only. *)
Definition cap_reasons (reasons : gmap string (option bool)) : bool :=
  bool_decide (reasons !! "sw_power_cap" = Some (Some true))
  && forallb (λ k, bool_decide (reasons !! k = Some (Some false))) SW_CAP_OTHER_LIMITERS
  && match reasons !! "gpu_idle" with Some (Some _) => true | _ => false end
  && forallb (λ kv, bool_decide (kv.1 = "gpu_idle") || bool_decide (kv.1 = "sw_power_cap") || negb (bool_decide (kv.2 = Some true)))
       (map_to_list reasons).

Definition cap_mask (reasons : gmap string (option bool)) (mask : Z) : bool :=
  negb (bool_decide (Z.land mask SW_CAP_IDLE_BIT = 0))
  && bool_decide (Z.land mask (Z.lnot (Z.lor SW_CAP_IDLE_BIT SW_CAP_GPU_IDLE_BIT)) = 0)
  && bool_decide (negb (bool_decide (Z.land mask SW_CAP_GPU_IDLE_BIT = 0)) = bool_decide (reasons !! "gpu_idle" = Some (Some true))).

(** [sw_cap_idle_first_job]: whether the exception applies. *)
Definition sw_cap_idle_first_job (d : GpuDevice) (reference : option Q) (holders jobs foreign : nat) (measurement pressure : bool)
  : bool :=
  bool_decide (gd_name d = Some SW_CAP_IDLE_DEVICE_NAME) && bool_decide (gd_domain d = Some "shared_system")
  && bool_decide (gd_scope d = Some "soc_tdp") && negb measurement && bool_decide (holders = 0%nat)
  && bool_decide (jobs = 0%nat) && bool_decide (foreign = 0%nat) && negb pressure && bool_decide (gd_limited d = Some true)
  && match nonneg (gd_power d), nonneg reference with
     | Some power, Some r => negb (Qeq_bool r 0) && Qle_bool power (SW_CAP_IDLE_POWER_FRACTION * r)
     | _, _ => false
     end
  && match nonneg (gd_sm d), nonneg (gd_max_sm d) with
     | Some sm, Some top => negb (Qeq_bool top 0) && Qle_bool sm (SW_CAP_IDLE_CLOCK_FRACTION * top)
     | _, _ => false
     end
  && match gd_reasons d, gd_mask d with
     | Some reasons, Some mask => cap_reasons reasons && cap_mask reasons mask
     | _, _ => false
     end.

(** ** The decision *)

(** What [.gpu.json] says of its claim beside the ledger's part. *)
Record GpuClaimed := mkGpuClaimed {
  gc_exclusive : bool; gc_measurement : bool; gc_admitted : Z; gc_budget : Z; gc_shape : option string; gc_device : option string }.

(** A holder's own telemetry, as far as a probe reads it. *)
Record GpuTele := mkGpuTele { gt_complete : bool; gt_nonce : option string; gt_scope : option string; gt_at : option Z }.

Record GpuHost := mkGpuHost {
  gh_ledger : Ledger; gh_claimed : gmap string GpuClaimed; gh_scan : list string; gh_telemetry : string → option GpuTele }.

(** The claim: how many GPUs and gigabytes, and its sealed contract. *)
Record GpuDemand := mkGpuDemand {
  dg_key : string; dg_gpu : nat; dg_mem_gb : Z; dg_shape : option string; dg_measurement : bool; dg_exclusive : bool; dg_budget : Z }.

Definition gpu_present (H : GpuHost) : list string := filter (λ h, starts_with RAM_HOST_MEMORY_PREFIX h = false) (gh_scan H).

(** [census.gpu(name)]: a holder owns the device by its metadata or a token. *)
Definition gpu_claim (H : GpuHost) (h : string) : option GpuClaimed :=
  match gpu_meta h (gh_ledger H) with Some _ => gh_claimed H !! h | None => None end.
Definition owns_device (H : GpuHost) (h : string) : bool :=
  bool_decide (is_Some (gpu_claim H h)) || negb (bool_decide (glob_kind "gpu" (toks (gh_ledger H) (Held h)) = ∅)).
Definition gpu_holders (H : GpuHost) : list string := filter (λ h, owns_device H h = true) (gpu_present H).

(** A holder nothing may be admitted beside. *)
Definition keeps_device (H : GpuHost) (h : string) : bool :=
  match gpu_claim H h with Some c => gc_exclusive c || gc_measurement c | None => true end.

(** [f"{holder.name}:{meta.get('admitted_unix')}"], sorted. *)
Definition member_of (name : string) (admitted : Z) : string := name +:+ ":" +:+ pretty admitted.
Definition members_of (H : GpuHost) : list string :=
  merge_sort (≤)%string ((λ h, member_of h (default 0 (gc_admitted <$> gpu_claim H h))) <$> gpu_holders H).

Inductive GpuReason :=
  | Gpu_max_actions | Exclusive_holder | Host_or_device_congested | Gpu_memory_sample_invalid | Gpu_memory_budget
  | Sample_invalid_or_stale | Measurement_device_not_idle | Sharing_probe_not_authorized | Holder_telemetry_unavailable (h : string).

(** What an admitted claim carries. *)
Record GpuAdmission := mkGpuAdmission {
  ga_gpu : nat; ga_exclusive : bool; ga_key : string; ga_members : list string; ga_measurement : bool; ga_shape : option string;
  ga_admitted : Z; ga_probe : bool; ga_sample_id : string; ga_sampled : Z; ga_budget : Z; ga_device : option string }.

(** The evidence a fresh sample of one device gives, with the reference. *)
Record Evidence := mkEvidence {
  ge_device : GpuDevice; ge_uuid : string; ge_id : string; ge_at : Z; ge_jobs : list GpuJob; ge_foreign : list string;
  ge_host : HostFacts; ge_power : option (Q * Q) }.

(** A sample that is evidence at all: [valid] before the limiter is read. *)
Definition evidence_of (now : Z) (sample : GpuSample) (s : GpuState) : option Evidence :=
  match gs_at sample with
  | Some at' =>
      let fr := bool_decide (0 ≤ at') && bool_decide (0 ≤ now - at' ≤ MAX_SAMPLE_AGE) in
      match single_device sample fr, controller_host sample with
      | Some (d, id, jobs, foreign), Some host =>
          match device_identity d with
          | Some u =>
              if gd_memory_only d then Some (mkEvidence d u id at' jobs foreign host None)
              else
                match nonneg (gd_power d), nonneg (admission_power_reference d s) with
                | Some power, Some r => if Qgt_bool r 0 then Some (mkEvidence d u id at' jobs foreign host (Some (power, r))) else None
                | _, _ => None
                end
          | None => None
          end
      | _, _ => None
      end
  | None => None
  end.

(** The sample's pressures as the idle history reads them. *)
Definition pressures (h : HostFacts) : Load := mkLoads 0 0 (hf_memory_some h) (hf_memory_full h) (hf_cpu_some h).

Definition short_of_memory (e : Evidence) (dm : GpuDemand) : bool :=
  Qgt_bool (Qmax (inject_Z (2 * GIB)) ((2 # 100) * inject_Z (hf_total (ge_host e))) + inject_Z (dg_mem_gb dm * GIB))
           (inject_Z (hf_available (ge_host e))).

(** What the valid part of the decision finds. *)
Record Found := mkFound { fo_valid : bool; fo_low : bool; fo_feedback : bool; fo_congested : bool }.

(** The judgement of the sample, with the state it leaves. *)
Definition look (e : Evidence) (occupied : bool) (members : list string) (dm : GpuDemand) (s : GpuState) : Found * bool * GpuState :=
  let '(v, b, _, _) := idle_judgement_with_reference (gp_baseline s) (ge_at e) (pressures (ge_host e)) PSI_AVG10 occupied
                         (Device (ge_uuid e)) IDLE_PRESSURE_FIELDS (Some _prior_pressure) in
  let s := set_baseline (Some b) s in
  let pressure := if dg_measurement dm then short_of_memory e dm || vd_exceeds v
                  else _prior_pressure (pressures (ge_host e)) || short_of_memory e dm in
  let foreign := negb (is_nil (ge_foreign e)) in
  let '(found, s) :=
    match ge_power e with
    | None => (mkFound true false false (pressure || foreign), s)
    | Some (power, r) =>
        let limited := gd_limited (ge_device e) in
        let valid := bool_decide (is_Some limited) in
        let congested := pressure || foreign || Qle_bool ((80 # 100) * r) power || bool_decide (limited = Some true) in
        let low := valid && negb congested && Qle_bool power ((65 # 100) * r) in
        let '(allowed, s) := observe_feedback (ge_uuid e) (mkRow (ge_id e) (ge_at e) power) members s in
        (mkFound valid low allowed congested, record_power_peak (ge_device e) s)
    end in
  let s := if bool_decide (gp_sample_id s = Some (ge_id e)) then s
           else
             let continuous := bool_decide (0 < ge_at e - gp_sampled s ≤ MAX_SAMPLE_AGE) in
             set_sample (ge_id e) (ge_at e)
               (if fo_low found && continuous then Nat.min 3 (gp_low s + 1) else if fo_low found then 1%nat else 0%nat) s in
  (found, pressure, s).

(** The discrete memory gate: total, free and used, and the budgets held. *)
Definition held_budget (H : GpuHost) : Z := sumZ (λ h, default 0 (gc_budget <$> gpu_claim H h)) (gpu_holders H).

Definition memory_gate (H : GpuHost) (d : GpuDevice) (budget : Z) : option GpuReason :=
  if bool_decide (gd_domain d = Some "discrete") then
    match gd_memory d with
    | Some (total, free, usedb) =>
        if bool_decide (0 ≤ total) && bool_decide (0 ≤ free) && bool_decide (0 ≤ usedb) then
          if bool_decide (total = 0) || bool_decide (budget ≤ 0) || bool_decide (total < held_budget H + budget)
             || bool_decide (free < budget) || bool_decide (total < free + usedb) then Some Gpu_memory_budget else None
        else Some Gpu_memory_sample_invalid
    | None => Some Gpu_memory_sample_invalid
    end
  else None.

(** What a probe needs of one holder. *)
Definition holder_attributed (H : GpuHost) (now : Z) (e : Evidence) (h : string) : bool :=
  match gpu_claim H h, gh_telemetry H h, last (filter (λ j, gj_key j = h) (ge_jobs e)) with
  | Some c, Some t, Some j =>
      truthy (gc_shape c) && bool_decide (gc_device c = Some (ge_uuid e)) && gt_complete t && gj_complete j
      && bool_decide (gj_nonce j = gt_nonce t) && truthy (gj_nonce j) && bool_decide (gj_scope j = gt_scope t)
      && match gt_at t with
         | Some at' => bool_decide (0 ≤ at') && bool_decide (0 ≤ now - at' ≤ MAX_SAMPLE_AGE) && bool_decide (gc_admitted c ≤ at')
         | None => false
         end
      && bool_decide (gc_admitted c + SETTLE ≤ ge_at e)
  | _, _, _ => false
  end.

(** [state.get('consumed_sample_id') == sample_id or sampled <= consumed]. *)
Definition spent (s : GpuState) (e : Evidence) : bool :=
  match gp_consumed s with Some (id, at') => bool_decide (id = ge_id e) || bool_decide (ge_at e ≤ at') | None => bool_decide (ge_at e ≤ 0) end.

(** The sharing gate. *)
Definition sharing_gate (H : GpuHost) (now : Z) (e : Evidence) (found : Found) (dm : GpuDemand) (s : GpuState) : option GpuReason :=
  if is_nil (gpu_holders H) then None
  else if negb (fo_low found) || negb (truthy (dg_shape dm)) || negb (fo_feedback found)
          || bool_decide (gp_low s < 2)%nat || spent s e then Some Sharing_probe_not_authorized
  else
    match filter (λ h, holder_attributed H now e h = false) (gpu_holders H) with
    | h :: _ => Some (Holder_telemetry_unavailable h)
    | [] => None
    end.

(** Every gate after the look, in order. *)
Definition gpu_gates (H : GpuHost) (now : Z) (e : Evidence) (found : Found) (pressure : bool) (dm : GpuDemand) (s : GpuState)
  : option GpuReason :=
  let exception := fo_congested found && bool_decide (is_Some (ge_power e))
    && sw_cap_idle_first_job (ge_device e) (snd <$> ge_power e) (length (gpu_holders H)) (length (ge_jobs e))
         (length (ge_foreign e)) (dg_measurement dm) pressure in
  if fo_congested found && negb exception then Some Host_or_device_congested
  else
    match memory_gate H (ge_device e) (dg_budget dm) with
    | Some r => Some r
    | None =>
        if negb (fo_valid found) then Some Sample_invalid_or_stale
        else if dg_measurement dm && (negb (fo_low found) || negb (is_nil (ge_foreign e))) then Some Measurement_device_not_idle
        else sharing_gate H now e found dm s
    end.

Inductive GpuAnswer := No_gpu_demand | Gpu_refused (r : GpuReason) | Gpu_admitted (a : GpuAdmission).

(** [Controller.decision]. *)
Definition gpu_decision (H : GpuHost) (now : Z) (sample : GpuSample) (dm : GpuDemand) (s : GpuState) : GpuAnswer * GpuState :=
  let holders := gpu_holders H in
  if bool_decide (dg_gpu dm = 0%nat) then (No_gpu_demand, s)
  else if bool_decide (MAX_ACTIONS ≤ length holders)%nat then (Gpu_refused Gpu_max_actions, s)
  else if negb (is_nil holders) && (dg_exclusive dm || dg_measurement dm || existsb (keeps_device H) holders) then
    (Gpu_refused Exclusive_holder, s)
  else
    match evidence_of now sample s with
    | None => (Gpu_refused Sample_invalid_or_stale, s)
    | Some e =>
        let '(found, pressure, s) := look e (negb (is_nil (gpu_present H))) (members_of H) dm s in
        match gpu_gates H now e found pressure dm s with
        | Some r => (Gpu_refused r, s)
        | None =>
            (Gpu_admitted (mkGpuAdmission (dg_gpu dm) (dg_exclusive dm) (dg_key dm) (members_of H) (dg_measurement dm) (dg_shape dm)
               now (negb (is_nil holders)) (ge_id e) (ge_at e) (dg_budget dm) (Some (ge_uuid e))), s)
        end
    end.

(** ** Probes *)

(** A probe's receipt: what it spent, what it replaced, and its feedback. *)
Record Ticket := mkTicket {
  tk_probe : string; tk_sample : string; tk_sampled : Z; tk_previous : option (string * Z); tk_feedback : Feedback }.

(** [reserve_probe]; [id] is the fresh probe id. *)
Definition reserve_probe (id : string) (a : GpuAdmission) (s : GpuState) : option Ticket * GpuState :=
  if ga_probe a then
    let f := mkFeedback (default "" (ga_device a)) (gp_window s) (ga_admitted a)
               (merge_sort (≤)%string (ga_members a ++ [member_of (ga_key a) (ga_admitted a)])) None in
    (Some (mkTicket id (ga_sample_id a) (ga_sampled a) (gp_consumed s) f),
     set_feedback (Some f) (set_consumed (Some (ga_sample_id a, ga_sampled a)) (Some id) s))
  else (None, s).

(** [return_probe]. *)
Definition return_probe (t : Ticket) (s : GpuState) : GpuState :=
  if bool_decide (gp_probe s = Some (tk_probe t)) && bool_decide (gp_consumed s = Some (tk_sample t, tk_sampled t)) then
    let s := set_consumed (tk_previous t) None s in
    if bool_decide (gp_feedback s = Some (tk_feedback t)) then set_feedback None s else s
  else s.
