(* ===== verification/AdaptiveGpuSpec.v ===== *)
(** * What the GPU controller admits

    Theorems about [AdaptiveGpu]: the evidence behind every admission, the
    use of the device over sequences of admissions and departures, the credit
    of a sample, and the power reference over sequences of decisions. *)
From S2P Require Import Prelude.
From S2P Require Import TokenName.
From S2P Require Import Ledger.
From S2P Require Import Tier.
From S2P Require Import Watch.
From S2P Require Import PoolProbe.
From S2P Require Import IdleBaseline.
From S2P Require Import AdaptiveCpu.
From S2P Require Import SpendOnce.
From S2P Require Import AdaptiveGpu.
From Stdlib Require Import QArith.QArith QArith.Qminmax QArith.Qabs.
From stdpp Require Import options.

Open Scope Z_scope.

(** ** The parts of an admission *)

Lemma is_nil_true {A} (l : list A) : is_nil l = true ↔ l = [].
Proof. by destruct l. Qed.
Lemma is_nil_false {A} (l : list A) : is_nil l = false ↔ l ≠ [].
Proof. by destruct l. Qed.

(** What the look finds, by the device's class. *)
Definition found_of (e : Evidence) (pressure : bool) (found : Found) : Prop :=
  match ge_power e with
  | None => found = mkFound true false false (pressure || negb (is_nil (ge_foreign e)))
  | Some (power, r) =>
      let limited := gd_limited (ge_device e) in
      let congested := pressure || negb (is_nil (ge_foreign e)) || Qle_bool ((80 # 100) * r) power || bool_decide (limited = Some true) in
      fo_valid found = bool_decide (is_Some limited) ∧ fo_congested found = congested
      ∧ fo_low found = bool_decide (is_Some limited) && negb congested && Qle_bool power ((65 # 100) * r)
  end.

Lemma look_found e occupied members dm s found pressure s' :
  look e occupied members dm s = (found, pressure, s') →
  found_of e pressure found
  ∧ (dg_measurement dm = false → pressure = _prior_pressure (pressures (ge_host e)) || short_of_memory e dm)
  ∧ (dg_measurement dm = true → pressure = false → short_of_memory e dm = false).
Proof.
  unfold look. destruct (idle_judgement_with_reference _ _ _ _ _ _ _ _) as [[[v b] r0] g]. unfold found_of.
  set (p := if dg_measurement dm then _ else _).
  assert ((dg_measurement dm = false → p = _prior_pressure (pressures (ge_host e)) || short_of_memory e dm)
          ∧ (dg_measurement dm = true → p = false → short_of_memory e dm = false)) as Hp.
  { subst p. destruct (dg_measurement dm); split; try done. by intros _ [? _]%orb_false_iff. }
  destruct (ge_power e) as [[power r]|]; [destruct (observe_feedback _ _ _ _) as [allowed s1]|]; intros [= <- <- _]; done.
Qed.

(** An admission: the evidence it had, and the gates it passed. *)
Lemma gpu_decision_admitted H now sample dm s a s' :
  gpu_decision H now sample dm s = (Gpu_admitted a, s') →
  ∃ e found pressure,
    evidence_of now sample s = Some e
    ∧ look e (negb (is_nil (gpu_present H))) (members_of H) dm s = (found, pressure, s')
    ∧ gpu_gates H now e found pressure dm s' = None
    ∧ (length (gpu_holders H) < MAX_ACTIONS)%nat
    ∧ (gpu_holders H = [] ∨ dg_exclusive dm = false ∧ dg_measurement dm = false ∧ existsb (keeps_device H) (gpu_holders H) = false)
    ∧ a = mkGpuAdmission (dg_gpu dm) (dg_exclusive dm) (dg_key dm) (members_of H) (dg_measurement dm) (dg_shape dm)
            now (negb (is_nil (gpu_holders H))) (ge_id e) (ge_at e) (dg_budget dm) (Some (ge_uuid e)).
Proof.
  unfold gpu_decision. destruct (bool_decide (dg_gpu dm = 0%nat)); [done|].
  destruct (bool_decide_reflect (MAX_ACTIONS ≤ length (gpu_holders H))%nat) as [|Hmax]; [done|].
  destruct (negb (is_nil (gpu_holders H)) && _) eqn:Hx; [done|].
  destruct (evidence_of now sample s) as [e|] eqn:He; [|done].
  destruct (look _ _ _ _ _) as [[found pressure] s1] eqn:Hl. destruct (gpu_gates _ _ _ _ _ _ _) eqn:Hg; [done|].
  intros [= <- <-]. exists e, found, pressure. split_and!; [done|done|done|lia| |done].
  destruct (is_nil (gpu_holders H)) eqn:En; [left; by apply is_nil_true in En|right].
  cbn [negb andb] in Hx. apply orb_false_iff in Hx as [[? ?]%orb_false_iff ?]. done.
Qed.

Lemma gates_open H now e found pressure dm s :
  gpu_gates H now e found pressure dm s = None →
  (fo_congested found = false
   ∨ ∃ power r, ge_power e = Some (power, r)
     ∧ sw_cap_idle_first_job (ge_device e) (Some r) (length (gpu_holders H)) (length (ge_jobs e)) (length (ge_foreign e))
         (dg_measurement dm) pressure = true)
  ∧ memory_gate H (ge_device e) (dg_budget dm) = None ∧ fo_valid found = true
  ∧ (dg_measurement dm = true → fo_low found = true ∧ ge_foreign e = [])
  ∧ sharing_gate H now e found dm s = None.
Proof.
  unfold gpu_gates. intros Hg. cbn zeta in Hg. destruct (fo_congested found && negb _) eqn:Hc; [done|].
  destruct (memory_gate _ _ _); [done|]. destruct (fo_valid found); [|done]. cbn [negb] in Hg.
  destruct (dg_measurement dm && _) eqn:Hm; [done|]. split_and!; try done.
  - destruct (fo_congested found); [|by left]. right. cbn [andb negb] in Hc. apply negb_false_iff in Hc.
    destruct (ge_power e) as [[power r]|]; [|done]. cbn in Hc. by exists power, r.
  - intros Hd. rewrite Hd in Hm. cbn [andb] in Hm. apply orb_false_iff in Hm as [Hl%negb_false_iff Hf%negb_false_iff].
    split; [done|by apply is_nil_true].
Qed.

Lemma existsb_all_false {A} (f : A → bool) (l : list A) : existsb f l = false → ∀ x, x ∈ l → f x = false.
Proof.
  intros Hf x Hx. apply not_true_is_false. intros Ht. apply not_true_iff_false in Hf. apply Hf.
  apply existsb_exists. exists x. by rewrite <- list_elem_of_In.
Qed.

(** Sharing: what the gate needs of the state and of each holder. *)
Lemma sharing_open H now e found dm s :
  sharing_gate H now e found dm s = None → gpu_holders H ≠ [] →
  fo_low found = true ∧ truthy (dg_shape dm) = true ∧ fo_feedback found = true ∧ (2 ≤ gp_low s)%nat ∧ spent s e = false
  ∧ ∀ h, h ∈ gpu_holders H → holder_attributed H now e h = true.
Proof.
  unfold sharing_gate. intros Hs Hn%is_nil_false. rewrite Hn in Hs. destruct (_ || _) eqn:Ho in Hs; [done|].
  apply orb_false_iff in Ho as [Ho Hsp]. apply orb_false_iff in Ho as [Ho Hl%bool_decide_eq_false].
  apply orb_false_iff in Ho as [Ho Hf%negb_false_iff]. apply orb_false_iff in Ho as [Hlow%negb_false_iff Hsh%negb_false_iff].
  split_and!; [done|done|done|lia|done|]. intros h Hh. destruct (holder_attributed H now e h) eqn:E; [done|].
  assert (h ∈ filter (λ h, holder_attributed H now e h = false) (gpu_holders H)) as Hin by by apply list_elem_of_filter.
  destruct (filter _ _) in Hs, Hin; [by apply elem_of_nil in Hin|done].
Qed.

(** ** The evidence behind an admission *)

(** The device is at rest: its power well under the reference, its clocks not
    limited. *)
Definition at_rest (e : Evidence) : Prop :=
  ∃ power r, ge_power e = Some (power, r) ∧ (power <= (65 # 100) * r)%Q ∧ gd_limited (ge_device e) = Some false.

(** A holder others may run beside: it asked to share, its work is attributed
    to this device, and it has had time to settle before the sample. *)
Definition shares (H : GpuHost) (e : Evidence) (h : string) : Prop :=
  ∃ c, gpu_claim H h = Some c ∧ gc_exclusive c = false ∧ gc_measurement c = false
     ∧ gc_device c = Some (ge_uuid e) ∧ gc_admitted c + SETTLE ≤ ge_at e.

(** A device whose clocks are capped at rest, with nothing on it. *)
Definition capped_at_rest (H : GpuHost) (e : Evidence) (dm : GpuDemand) : Prop :=
  gpu_holders H = [] ∧ ge_jobs e = [] ∧ dg_measurement dm = false
  ∧ (∃ power r, ge_power e = Some (power, r) ∧ (power <= (65 # 100) * r)%Q)
  ∧ ∃ sm top, gd_sm (ge_device e) = Some sm ∧ gd_max_sm (ge_device e) = Some top ∧ (sm <= (10 # 100) * top)%Q.

Lemma found_low e pressure found :
  found_of e pressure found → fo_low found = true → at_rest e ∧ ge_foreign e = [] ∧ pressure = false.
Proof.
  unfold found_of, at_rest. destruct (ge_power e) as [[power r]|]; [|by intros -> [=]].
  intros (_ & _ & ->) Hl. apply andb_true_iff in Hl as [Hl Hp%Qle_bool_iff]. apply andb_true_iff in Hl as [Hv Hc%negb_true_iff].
  apply bool_decide_eq_true in Hv as [l Hv]. apply orb_false_iff in Hc as [Hc Hli%bool_decide_eq_false].
  apply orb_false_iff in Hc as [Hc _]. apply orb_false_iff in Hc as [Hpr Hf%negb_false_iff].
  split_and!; [|by apply is_nil_true|done]. exists power, r. rewrite Hv in Hli |- *. by destruct l.
Qed.

Lemma nonneg_some q v : nonneg q = Some v → q = Some v.
Proof. destruct q as [w|]; [|done]. cbn. by destruct (Qle_bool 0 w). Qed.

Lemma exception_capped H e dm pressure power r :
  ge_power e = Some (power, r) → nonneg (gd_power (ge_device e)) = Some power →
  sw_cap_idle_first_job (ge_device e) (Some r) (length (gpu_holders H)) (length (ge_jobs e)) (length (ge_foreign e))
    (dg_measurement dm) pressure = true →
  capped_at_rest H e dm ∧ ge_foreign e = [] ∧ pressure = false ∧ gd_limited (ge_device e) = Some true.
Proof.
  intros Hp Hpw Hs. unfold sw_cap_idle_first_job in Hs. rewrite Hpw in Hs.
  apply andb_true_iff in Hs as [Hs _]. apply andb_true_iff in Hs as [Hs Hclock]. apply andb_true_iff in Hs as [Hs Hpower].
  repeat apply andb_true_iff in Hs as [Hs ?].
  repeat match goal with
    | Hx : bool_decide _ = true |- _ => apply bool_decide_eq_true in Hx
    | Hx : negb _ = true |- _ => apply negb_true_iff in Hx
    | Hx : length _ = 0%nat |- _ => apply nil_length_inv in Hx
    end.
  split_and!; try done. split_and!; try done.
  - exists power, r. split; [done|]. destruct (nonneg (Some r)) as [r'|] eqn:Er; [|done]. apply nonneg_some in Er as [= <-].
    apply andb_true_iff in Hpower as [_ Hq]. by apply Qle_bool_iff in Hq.
  - destruct (nonneg (gd_sm _)) as [sm|] eqn:E1; [|done]. destruct (nonneg (gd_max_sm _)) as [top|] eqn:E2; [|done].
    apply nonneg_some in E1, E2. exists sm, top. split_and!; [done|done|].
    apply andb_true_iff in Hclock as [_ Hq]. by apply Qle_bool_iff in Hq.
Qed.

(** What makes a sample evidence. *)
Lemma evidence_spec now sample s e :
  evidence_of now sample s = Some e →
  gs_devices sample = [ge_device e] ∧ gs_at sample = Some (ge_at e) ∧ gs_id sample = Some (ge_id e)
  ∧ 0 ≤ now - ge_at e ≤ MAX_SAMPLE_AGE ∧ gd_uuid (ge_device e) = Some (ge_uuid e)
  ∧ gs_foreign sample = Some (ge_foreign e) ∧ gs_jobs sample = Some (ge_jobs e)
  ∧ match ge_power e with
    | Some (power, r) => nonneg (gd_power (ge_device e)) = Some power ∧ admission_power_reference (ge_device e) s = Some r ∧ (0 < r)%Q
    | None => gd_memory_only (ge_device e) = true
    end.
Proof.
  unfold evidence_of. destruct (gs_at sample) as [at'|]; [|done].
  destruct (single_device sample _) as [[[[d id] jobs] foreign]|] eqn:Hs; [|done].
  destruct (controller_host sample) as [host|]; [|done]. destruct (device_identity d) as [u|] eqn:Hu; [|done].
  assert (gd_uuid d = Some u) as Hud.
  { unfold device_identity in Hu. destruct (gd_uuid d), (gd_domain d); [|done..]. destruct (negb _ && _) in Hu; [by injection Hu as ->|done]. }
  unfold single_device in Hs. destruct (gs_id sample) as [i|]; [|done]. destruct (gs_devices sample) as [|d' [|]]; [done| |done].
  destruct (gs_foreign sample) as [f|]; [|done]. destruct (gs_jobs sample) as [j|]; [|done]. destruct (_ && _) eqn:Hf in Hs; [|done].
  injection Hs as -> -> -> ->. apply andb_true_iff in Hf as [Hf _]. apply andb_true_iff in Hf as [Hf _].
  apply andb_true_iff in Hf as [_ Hf%bool_decide_eq_true].
  destruct (gd_memory_only d) eqn:Hm; [by intros [= <-]|].
  destruct (nonneg (gd_power d)) as [power|] eqn:Hp; [|done].
  destruct (nonneg (admission_power_reference d s)) as [r|] eqn:Hr; [|done]. destruct (Qgt_bool r 0) eqn:Hg; [|done].
  intros [= <-]. cbn. split_and!; try done; try lia; [by apply nonneg_some|].
  apply negb_true_iff in Hg. apply Qnot_le_lt. intros Hle%Qle_bool_iff. congruence.
Qed.

(** C18: the evidence behind every GPU admission: the sample is fresh and of
    the one device, no foreign process is on it and the host keeps its memory
    reserve; an exclusive claim or a measurement finds no holder, and a
    measurement a device at rest; work is put beside holders only on a device
    at rest in two samples running, on a host without pressure, when every
    holder asked to share, is attributed to the device and has settled; and a
    device with capped clocks takes only a first job, at idle power and
    clocks. *)
Theorem gpu_admission_evidence H now sample dm s a s' :
  gpu_decision H now sample dm s = (Gpu_admitted a, s') →
  ∃ e, evidence_of now sample s = Some e ∧ ga_sampled a = ge_at e ∧ 0 ≤ now - ge_at e ≤ MAX_SAMPLE_AGE
    ∧ ge_foreign e = [] ∧ short_of_memory e dm = false
    ∧ (dg_exclusive dm = true → gpu_holders H = [])
    ∧ (dg_measurement dm = true → gpu_holders H = [] ∧ at_rest e)
    ∧ (gpu_holders H ≠ [] →
         at_rest e ∧ (2 ≤ gp_low s')%nat ∧ _prior_pressure (pressures (ge_host e)) = false ∧ Forall (shares H e) (gpu_holders H))
    ∧ (gd_limited (ge_device e) = Some true → ge_power e ≠ None → capped_at_rest H e dm).
Proof.
  intros (e & found & pressure & He & Hl & Hg & _ & Hx & ->)%gpu_decision_admitted.
  pose proof (evidence_spec _ _ _ _ He) as (_ & _ & _ & Hfr & _ & _ & _ & Hpo).
  pose proof (look_found _ _ _ _ _ _ _ _ Hl) as (Hf & Hpf & Hpm).
  apply gates_open in Hg as (Hc & _ & Hv & Hme & Hsh).
  assert (ge_foreign e = [] ∧ pressure = false ∧ (gd_limited (ge_device e) = Some true → ge_power e ≠ None → capped_at_rest H e dm)) as (Hfo & Hpr & Hcap).
  { destruct Hc as [Hc|(power & r & Ep & Hex)].
    - unfold found_of in Hf. destruct (ge_power e) as [[power r]|].
      + destruct Hf as (_ & Hf & _). rewrite Hc in Hf. symmetry in Hf. apply orb_false_iff in Hf as [Hf Hli%bool_decide_eq_false].
        apply orb_false_iff in Hf as [[Hp Hfo%negb_false_iff]%orb_false_iff _]. split_and!; [by apply is_nil_true|done|done].
      + rewrite Hf in Hc. apply orb_false_iff in Hc as [? Hfo%negb_false_iff]. split_and!; [by apply is_nil_true|done|done].
    - rewrite Ep in Hpo. destruct Hpo as (Hpw & _). destruct (exception_capped _ _ _ _ _ _ Ep Hpw Hex) as (? & ? & ? & _). done. }
  exists e. cbn [ga_sampled]. split; [done|]. split; [done|]. split; [done|]. split_and!; try done.
  - destruct (dg_measurement dm); [exact (Hpm eq_refl Hpr)|]. specialize (Hpf eq_refl). rewrite Hpr in Hpf. symmetry in Hpf.
    by apply orb_false_iff in Hpf as [_ ?].
  - intros Hex. destruct Hx as [|(Hex' & _)]; [done|congruence].
  - intros Hm. destruct Hx as [|(_ & Hm' & _)]; [|congruence]. split; [done|]. apply Hme in Hm as [Hlow _].
    by apply (found_low _ _ _ Hf Hlow).
  - intros Hn. destruct Hx as [|(_ & Hm & Hk)]; [done|]. apply sharing_open in Hsh as (Hlow & _ & _ & H2 & _ & Hatt); [|done].
    destruct (found_low _ _ _ Hf Hlow) as (Hrest & _ & _). specialize (Hpf Hm). rewrite Hpr in Hpf. symmetry in Hpf.
    apply orb_false_iff in Hpf as [Hpp _]. split_and!; [done|done|done|]. apply Forall_forall. intros h Hh.
    pose proof (existsb_all_false _ _ Hk h Hh) as Hkeep. specialize (Hatt h Hh).
    unfold keeps_device in Hkeep. unfold holder_attributed in Hatt. destruct (gpu_claim H h) as [c|] eqn:Ec; [|done].
    apply orb_false_iff in Hkeep as [? ?]. destruct (gh_telemetry H h) as [t|]; [|done]. destruct (last _) as [j|]; [|done].
    apply andb_true_iff in Hatt as [Hatt Hset%bool_decide_eq_true]. repeat apply andb_true_iff in Hatt as [Hatt ?].
    exists c. split_and!; try done. by eapply bool_decide_eq_true.
Qed.

(** A device at rest with one settled job on it, and a second asking. *)
Definition resting : GpuDevice :=
  mkGpuDevice (Some "gpu") (Some SW_CAP_IDLE_DEVICE_NAME) (Some "shared_system") (Some 20%Q) None (Some "soc_tdp") (Some (140 # 1))
    (Some false) false None (Some 200%Q) (Some (3000 # 1)) None None.
Definition quiet_host : HostFacts := mkHostFacts (128 * GIB) (100 * GIB) 0 0 0.
Definition gpu_sample (id : string) (t : Z) : GpuSample :=
  mkGpuSample true (Some (t * second)) (Some id) [resting] (Some []) (Some [mkGpuJob "one" true (Some "nonce") (Some "scope")]) (Some quiet_host).
Definition one_sharer : GpuHost :=
  mkGpuHost (mkLedger ∅ {[ "one" := mkHolder {[ "gpu-0000" ]} None (Some (mkGpuMeta (mkAdaptiveGpu false) 0)) ]} ∅ ∅ None None)
    {[ "one" := mkGpuClaimed false false second GIB (Some "shape") (Some "gpu") ]} ["one"]
    (λ h, if bool_decide (h = "one") then Some (mkGpuTele true (Some "nonce") (Some "scope") (Some (10 * second))) else None).
Definition sharer : GpuDemand := mkGpuDemand "two" 1 4 (Some "shape") false false GIB.
Definition seen_once : GpuState := mkGpuState ∅ None None [] [] (Some "s9") (9 * second) 1 None None.

Lemma gpu_admission_evidence_witness :
  ∃ a s', gpu_decision one_sharer (10 * second) (gpu_sample "s10" 10) sharer seen_once = (Gpu_admitted a, s')
    ∧ ga_probe a = true ∧ ∃ e, evidence_of (10 * second) (gpu_sample "s10" 10) seen_once = Some e ∧ at_rest e.
Proof.
  destruct (gpu_decision one_sharer (10 * second) (gpu_sample "s10" 10) sharer seen_once) as [r s'] eqn:E.
  assert (∃ a, r = Gpu_admitted a ∧ ga_probe a = true) as (a & -> & Hp).
  { apply (f_equal fst) in E. cbn [fst] in E. subst r. vm_compute. by eexists. }
  exists a, s'. split; [reflexivity|]. split; [exact Hp|].
  destruct (gpu_admission_evidence _ _ _ _ _ _ _ E) as (e & He & _ & _ & _ & _ & _ & _ & Hs & _).
  clear E. exists e. split; [exact He|]. apply Hs. apply (bool_decide_unpack _). by vm_compute.
Defined.
