(* ===== verification/AdaptiveGpuRuns.v ===== *)
(** * Sequences of GPU admissions

    What many decisions on one device keep, each under the admission lock: a
    sample pays for one probe, an exclusive claim is alone on the device and
    budgets fit its memory, and the power reference only rises, never over
    the published envelope. *)
From S2P Require Import Prelude.
From S2P Require Import TokenName.
From S2P Require Import Ledger.
From S2P Require Import Tier.
From S2P Require Import Watch.
From S2P Require Import PoolProbe.
From S2P Require Import IdleBaseline.
From S2P Require Import AdaptiveCpu.
From S2P Require Import SpendOnce.
From S2P Require Import AdaptiveGpu.
From S2P Require Import AdaptiveGpuSpec.
From Stdlib Require Import QArith.QArith QArith.Qminmax.
From stdpp Require Import options.

Open Scope Z_scope.

(** ** A sample pays for one probe *)

Lemma observe_feedback_keeps u row ms s :
  gp_consumed (observe_feedback u row ms s).2 = gp_consumed s ∧ gp_peaks (observe_feedback u row ms s).2 = gp_peaks s.
Proof.
  unfold observe_feedback. destruct ms as [|m ms]; [done|]. cbn zeta. cbn [gp_feedback set_window].
  destruct (gp_feedback s) as [f|]; [|done]. destruct (negb _); [done|].
  destruct (fb_plateau f) as [[o t]|]; [by destruct (_ && _)|]. destruct (negb _); [done|].
  destruct (bool_decide _); [done|]. by destruct (separated _ _).
Qed.

Lemma record_power_peak_shape d s : ∃ p, record_power_peak d s = set_peaks p s.
Proof.
  assert (∃ p, s = set_peaks p s) as Hs by (exists (gp_peaks s); by destruct s).
  unfold record_power_peak. destruct (gd_uuid d); [|done]. destruct (nonneg _); [|done].
  destruct (bool_decide _); [done|]. match goal with |- context [if ?b then s else _] => destruct b end; [done|].
  destruct (nonneg _); [destruct (Qgt_bool _ _); [by eexists|done]|by eexists].
Qed.

Lemma record_power_peak_peaks d s1 s2 :
  gp_peaks s1 = gp_peaks s2 → gp_peaks (record_power_peak d s1) = gp_peaks (record_power_peak d s2).
Proof.
  intros E. unfold record_power_peak. rewrite E. destruct (gd_uuid d); [|done]. destruct (nonneg (gd_power d)); [|done].
  destruct (bool_decide _); [done|].
  match goal with |- context [if ?b then s1 else _] => destruct b end; [done|].
  destruct (nonneg _); [|done]. by destruct (Qgt_bool _ _).
Qed.

(** A look writes no credit; its peaks are those of the recorded sample. *)
Lemma look_keeps e o ms dm s found pressure s' :
  look e o ms dm s = (found, pressure, s') →
  gp_consumed s' = gp_consumed s ∧ (gp_peaks s' = gp_peaks s ∨ gp_peaks s' = gp_peaks (record_power_peak (ge_device e) s)).
Proof.
  unfold look. destruct (idle_judgement_with_reference _ _ _ _ _ _ _ _) as [[[v b] r0] g].
  set (s1 := set_baseline (Some b) s). cbn zeta. destruct (ge_power e) as [[power r]|].
  - pose proof (observe_feedback_keeps (ge_uuid e) (mkRow (ge_id e) (ge_at e) power) ms s1) as [Hc Hp].
    destruct (observe_feedback _ _ _ _) as [allowed s2]. cbn [snd] in Hc, Hp. intros [= _ _ <-].
    rewrite <- (record_power_peak_peaks (ge_device e) s2 s) by done.
    destruct (record_power_peak_shape (ge_device e) s2) as [p Es]. rewrite !Es.
    destruct (bool_decide _); split; try done; by right.
  - intros [= _ _ <-]. destruct (bool_decide _); split; try done; by left.
Qed.

Lemma decision_keeps_credit H now sample dm s r s' :
  gpu_decision H now sample dm s = (r, s') → gp_consumed s' = gp_consumed s.
Proof.
  unfold gpu_decision. destruct (bool_decide _); [by intros [= _ <-]|]. destruct (bool_decide _); [by intros [= _ <-]|].
  destruct (negb _ && _); [by intros [= _ <-]|]. destruct (evidence_of _ _ _) as [e|]; [|by intros [= _ <-]].
  destruct (look _ _ _ _ _) as [[found pressure] s1] eqn:Hl. apply look_keeps in Hl as [Hc _].
  by destruct (gpu_gates _ _ _ _ _ _ _); intros [= _ <-].
Qed.

Definition last_spent (c : option (string * Z)) : Z := default 0 (snd <$> c).

(** A probe's sample is later than the last one spent. *)
Lemma probe_is_later H now sample dm s a s' :
  gpu_decision H now sample dm s = (Gpu_admitted a, s') → ga_probe a = true → last_spent (gp_consumed s') < ga_sampled a.
Proof.
  intros (e & found & pressure & _ & _ & Hg & _ & _ & ->)%gpu_decision_admitted Hp. cbn [ga_probe ga_sampled] in *.
  apply negb_true_iff, is_nil_false in Hp. apply gates_open in Hg as (_ & _ & _ & _ & Hsh).
  apply sharing_open in Hsh as (_ & _ & _ & _ & Hs & _); [|done]. unfold spent in Hs. unfold last_spent.
  destruct (gp_consumed s') as [[id t]|]; cbn.
  - apply orb_false_iff in Hs as [_ Hs%bool_decide_eq_false]. lia.
  - apply bool_decide_eq_false in Hs. lia.
Qed.

(** What a probe is compared with is never empty, so that its mean exists. *)
Lemma window_grows (kept : list Row) (row : Row) (late : Row → bool) :
  (if match last kept with None => true | Some r => late r end then last_n FEEDBACK_WINDOW (kept ++ [row]) else kept) ≠ [].
Proof.
  assert (last_n FEEDBACK_WINDOW (kept ++ [row]) ≠ []) as Hn.
  { unfold last_n. intros E%(f_equal length). rewrite length_drop, length_app in E. cbn [length] in E.
    unfold FEEDBACK_WINDOW in E. lia. }
  destruct (last kept) as [x|] eqn:El; [|done]. destruct (late x); [done|]. by intros ->.
Qed.

Lemma observe_feedback_window u row ms s : ms ≠ [] → gp_window (observe_feedback u row ms s).2 ≠ [].
Proof.
  intros Hne. unfold observe_feedback. destruct ms as [|m ms]; [done|]. cbn zeta.
  pose proof (window_grows (filter (λ r, 0 ≤ rw_at row - rw_at r ≤ MAX_SAMPLE_AGE)
    (if bool_decide (gp_members s = m :: ms) then gp_window s else [])) row (λ r, bool_decide (second ≤ rw_at row - rw_at r))) as Hw.
  match type of Hw with ?w ≠ [] => set (window := w) in * end. clearbody window.
  cbn [gp_feedback set_window]. destruct (gp_feedback s) as [f|]; [|done]. destruct (negb _); [done|].
  destruct (fb_plateau f) as [[o t]|]; [by destruct (_ && _)|]. destruct (negb _); [done|].
  destruct (bool_decide _); [done|]. by destruct (separated _ _).
Qed.

Lemma probe_baseline H now sample dm s a s' id t s2 :
  gpu_decision H now sample dm s = (Gpu_admitted a, s') → reserve_probe id a s' = (Some t, s2) → fb_baseline (tk_feedback t) ≠ [].
Proof.
  intros (e & found & pressure & He & Hl & Hg & _ & _ & ->)%gpu_decision_admitted Hr. unfold reserve_probe in Hr. cbn [ga_probe] in Hr.
  destruct (is_nil (gpu_holders H)) eqn:Hn; [done|]. cbn [negb] in Hr. injection Hr as <- _. cbn [tk_feedback fb_baseline].
  apply is_nil_false in Hn. apply gates_open in Hg as (_ & _ & _ & _ & Hsh). apply sharing_open in Hsh as (Hlow & _); [|done].
  pose proof (look_found _ _ _ _ _ _ _ _ Hl) as (Hf & _). destruct (found_low _ _ _ Hf Hlow) as ((power & r & Ep & _) & _).
  assert (members_of H ≠ []) as Hm.
  { unfold members_of. intros E. assert (length (merge_sort (≤)%string ((λ h, member_of h (default 0 (gc_admitted <$> gpu_claim H h))) <$> gpu_holders H)) = 0%nat)
      as El by by rewrite E. rewrite merge_sort_Permutation, length_fmap in El. by apply nil_length_inv in El. }
  unfold look in Hl. destruct (idle_judgement_with_reference _ _ _ _ _ _ _ _) as [[[v b] r0] g]. rewrite Ep in Hl. cbn zeta in Hl.
  pose proof (observe_feedback_window (ge_uuid e) (mkRow (ge_id e) (ge_at e) power) _ (set_baseline (Some b) s) Hm) as Hw.
  destruct (observe_feedback _ _ _ _) as [allowed s3]. cbn [snd] in Hw. injection Hl as _ _ <-.
  destruct (record_power_peak_shape (ge_device e) s3) as [p ->]. by destruct (bool_decide _).
Qed.

(** The steps of a device: a decision; a probe is admitted and reserved; a
    probe that was not launched is returned; a probe is over. *)
Inductive probe_step : GpuState * list Ticket → GpuState * list Ticket → Prop :=
  | Decide H now sample dm s r s' live : gpu_decision H now sample dm s = (r, s') → probe_step (s, live) (s', live)
  | Reserve H now sample dm s a s1 id t s2 live :
      gpu_decision H now sample dm s = (Gpu_admitted a, s1) → reserve_probe id a s1 = (Some t, s2) →
      probe_step (s, live) (s2, t :: live)
  | Return s l1 t l2 : probe_step (s, l1 ++ t :: l2) (return_probe t s, l1 ++ l2)
  | Over s l1 t l2 : probe_step (s, l1 ++ t :: l2) (s, l1 ++ l2).

Definition probe_credit (S : GpuState * list Ticket) : Z * Spent :=
  (last_spent (gp_consumed S.1), (λ t, (tk_sampled t, last_spent (tk_previous t))) <$> S.2).

Lemma probe_step_spends S S' : probe_step S S' → spend_step (probe_credit S) (probe_credit S').
Proof.
  unfold probe_credit.
  destruct 1 as [H now sample dm s r s' live Hd|H now sample dm s a s1 id t s2 live Hd Hr|s l1 t l2|s l1 t l2]; cbn [fst snd].
  - rewrite (decision_keeps_credit _ _ _ _ _ _ _ Hd). apply Unrelated.
  - pose proof (probe_is_later _ _ _ _ _ _ _ Hd) as Hlt. rewrite <- (decision_keeps_credit _ _ _ _ _ _ _ Hd). unfold reserve_probe in Hr.
    destruct (ga_probe a); [|done]. injection Hr as <- <-. cbn. by apply Spend_sample, Hlt.
  - rewrite !fmap_app, fmap_cons. unfold return_probe.
    destruct (_ && bool_decide (gp_consumed s = Some (tk_sample t, tk_sampled t))) eqn:Hb; [|apply Settled].
    apply andb_true_iff in Hb as [_ Hb%bool_decide_eq_true]. rewrite Hb. destruct (bool_decide _); apply Put_back.
  - rewrite !fmap_app, fmap_cons. apply Settled.
Qed.

(** C20: a sample pays for one probe: over any sequence of decisions, probes
    admitted, returned or over on one device, whatever was recorded before,
    no two probes in effect spent the same sample. *)
Theorem one_probe_per_sample s s' live :
  rtc probe_step (s, []) (s', live) → NoDup (tk_sampled <$> live).
Proof.
  intros Hs%(spend_run_inv _ _ probe_step_spends); [|apply spend_inv_nil]. apply sp_distinct in Hs. revert Hs. cbn. by rewrite <- list_fmap_compose.
Qed.

(** The second job's probe. *)
Lemma one_probe_per_sample_witness :
  ∃ s' live, rtc probe_step (seen_once, []) (s', live) ∧ length live = 1%nat ∧ NoDup (tk_sampled <$> live).
Proof.
  destruct (gpu_decision one_sharer (10 * second) (gpu_sample "s10" 10) sharer seen_once) as [r s1] eqn:E.
  assert (∃ a, r = Gpu_admitted a ∧ ga_probe a = true) as (a & -> & Hp).
  { apply (f_equal fst) in E. cbn [fst] in E. subst r. vm_compute. by eexists. }
  destruct (reserve_probe "p1" a s1) as [[t|] s2] eqn:Hr; [|unfold reserve_probe in Hr; by rewrite Hp in Hr].
  assert (rtc probe_step (seen_once, []) (s2, [t])) as Hrun.
  { apply rtc_once. exact (Reserve one_sharer (10 * second) (gpu_sample "s10" 10) sharer seen_once a s1 "p1" t s2 [] E Hr). }
  clear E. exists s2, [t]. split; [exact Hrun|]. split; [reflexivity|]. exact (one_probe_per_sample _ _ _ Hrun).
Defined.

(** ** Who is on the device *)

(** The claim a holder's [.gpu.json] keeps of its admission. *)
Definition claim_of (a : GpuAdmission) : GpuClaimed :=
  mkGpuClaimed (ga_exclusive a) (ga_measurement a) (ga_admitted a) (ga_budget a) (ga_shape a) (ga_device a).

(** What the sample says of the device's own memory, when it has one. *)
Definition has_memory (total : option Z) (sample : GpuSample) : Prop :=
  ∀ d t, d ∈ gs_devices sample → total = Some t → gd_domain d = Some "discrete" ∧ ∃ free used, gd_memory d = Some (t, free, used).

(** An admitted claim joins the holders with its own metadata; a holder
    leaves.  The others keep theirs. *)
Inductive use_step (total : option Z) : GpuHost → GpuHost → Prop :=
  | Joins H now sample dm s a s' H' :
      gpu_decision H now sample dm s = (Gpu_admitted a, s') → has_memory total sample →
      gpu_holders H' ≡ₚ ga_key a :: gpu_holders H → gpu_claim H' (ga_key a) = Some (claim_of a) →
      (∀ h, h ∈ gpu_holders H → gpu_claim H' h = gpu_claim H h) → use_step total H H'
  | Leaves H h H' :
      gpu_holders H ≡ₚ h :: gpu_holders H' → (∀ h, h ∈ gpu_holders H' → gpu_claim H' h = gpu_claim H h) → use_step total H H'.

Definition budget_of (H : GpuHost) (h : string) : Z := default 0 (gc_budget <$> gpu_claim H h).

Record use_inv (total : option Z) (H : GpuHost) : Prop := mkUseInv {
  ui_count : (length (gpu_holders H) ≤ MAX_ACTIONS)%nat;
  ui_alone : ∀ h, h ∈ gpu_holders H → keeps_device H h = true → gpu_holders H = [h];
  ui_budget : ∀ t, total = Some t → (∀ h, h ∈ gpu_holders H → 0 ≤ budget_of H h) ∧ (gpu_holders H = [] ∨ held_budget H ≤ t) }.

Lemma memory_gate_open H d budget t free used :
  memory_gate H d budget = None → gd_domain d = Some "discrete" → gd_memory d = Some (t, free, used) →
  0 < budget ∧ held_budget H + budget ≤ t.
Proof.
  unfold memory_gate. intros Hg Hd Hm. rewrite Hd, Hm in Hg. rewrite (bool_decide_true (Some "discrete" = Some "discrete")) in Hg by done.
  destruct (_ && _) in Hg; [|done]. destruct (_ || _) eqn:Ho in Hg; [done|].
  repeat match goal with Hx : _ || _ = false |- _ => apply orb_false_iff in Hx as [Hx ?] end.
  repeat match goal with Hx : bool_decide _ = false |- _ => apply bool_decide_eq_false in Hx end. lia.
Qed.

Lemma keeps_device_eq H H' h : gpu_claim H' h = gpu_claim H h → keeps_device H' h = keeps_device H h.
Proof. unfold keeps_device. by intros ->. Qed.

Lemma joins_inv total H now sample dm s a s' H' :
  gpu_decision H now sample dm s = (Gpu_admitted a, s') → has_memory total sample →
  gpu_holders H' ≡ₚ ga_key a :: gpu_holders H → gpu_claim H' (ga_key a) = Some (claim_of a) →
  (∀ h, h ∈ gpu_holders H → gpu_claim H' h = gpu_claim H h) → use_inv total H → use_inv total H'.
Proof.
  intros Hd Hmem Hh Hc Hk [Hn Ha Hb].
  apply gpu_decision_admitted in Hd as (e & found & pressure & He & _ & Hg & Hmax & Hx & ->). cbn [ga_key] in *.
  apply evidence_spec in He as (Hdev & _). apply gates_open in Hg as (_ & Hmg & _).
  assert (∀ h, h ∈ gpu_holders H' ↔ h = dg_key dm ∨ h ∈ gpu_holders H) as Hin by (intros h; by rewrite Hh, elem_of_cons).
  split.
  - rewrite Hh. cbn. lia.
  - intros h [->|Hin']%Hin Hkeep.
    + destruct Hx as [E|(Hex & Hme & _)]; [rewrite E in Hh; by apply Permutation_singleton_r in Hh|].
      unfold keeps_device in Hkeep. rewrite Hc in Hkeep. cbn in Hkeep. by rewrite Hex, Hme in Hkeep.
    + rewrite (keeps_device_eq _ _ _ (Hk h Hin')) in Hkeep.
      destruct Hx as [E|(_ & _ & Hx)]; [by rewrite E in Hin'; apply elem_of_nil in Hin'|].
      pose proof (existsb_all_false _ _ Hx h Hin'). congruence.
  - intros t ->. destruct (Hmem (ge_device e) t) as (Hdo & free & used & Hgm); [rewrite Hdev; by left|done|].
    destruct (memory_gate_open _ _ _ _ _ _ Hmg Hdo Hgm) as [Hpos Hle]. destruct (Hb t eq_refl) as [Hb0 _]. split.
    + intros h [->|Hin']%Hin; unfold budget_of; [rewrite Hc; cbn; lia|rewrite (Hk h Hin'); by apply Hb0].
    + right. unfold held_budget. rewrite (sumZ_perm _ _ _ Hh), sumZ_cons, Hc. cbn.
      rewrite (sumZ_ext _ (λ h, default 0 (gc_budget <$> gpu_claim H h))); [unfold held_budget in Hle; lia|].
      intros h Hin'. by rewrite Hk.
Qed.

Lemma leaves_inv total H h H' :
  gpu_holders H ≡ₚ h :: gpu_holders H' → (∀ h, h ∈ gpu_holders H' → gpu_claim H' h = gpu_claim H h) →
  use_inv total H → use_inv total H'.
Proof.
  intros Hh Hk [Hn Ha Hb].
  assert (∀ x, x ∈ gpu_holders H' → x ∈ gpu_holders H) as Hin by (intros x Hx; rewrite Hh; by right).
  split.
  - rewrite Hh in Hn. cbn in Hn. lia.
  - intros x Hx Hkeep. rewrite (keeps_device_eq _ _ _ (Hk x Hx)) in Hkeep. pose proof (Ha x (Hin x Hx) Hkeep) as E.
    rewrite E in Hh. apply Permutation_singleton_l in Hh. injection Hh as _ Hh. rewrite <- Hh in Hx. by apply elem_of_nil in Hx.
  - intros t Ht. destruct (Hb t Ht) as [Hb0 Hb1]. split.
    + intros x Hx. unfold budget_of. rewrite (Hk x Hx). by apply Hb0, Hin.
    + destruct Hb1 as [E|Hle]; [rewrite E in Hh; by apply Permutation_nil_l in Hh|]. right.
      unfold held_budget in Hle |- *. rewrite (sumZ_perm _ _ _ Hh), sumZ_cons in Hle.
      rewrite (sumZ_ext _ (λ h, default 0 (gc_budget <$> gpu_claim H h))); [|by intros x Hx; rewrite Hk].
      pose proof (Hb0 h ltac:(rewrite Hh; by left)). unfold budget_of in *. lia.
Qed.

(** C19: on a device that starts free, whatever is admitted and leaves: never
    more than [MAX_ACTIONS] hold it; a holder that is exclusive, measures or
    is not known to share is alone on it; and on a device with memory of its
    own the holders' budgets together fit in it. *)
Theorem device_use_bounded total H H' :
  gpu_holders H = [] → rtc (use_step total) H H' →
  (length (gpu_holders H') ≤ MAX_ACTIONS)%nat
  ∧ (∀ h, h ∈ gpu_holders H' → keeps_device H' h = true → gpu_holders H' = [h])
  ∧ (∀ t, total = Some t → gpu_holders H' = [] ∨ held_budget H' ≤ t).
Proof.
  intros E Hr. assert (use_inv total H') as [? ? Hb]; [|by split_and!; [..|intros t [_ ?]%Hb]].
  assert (use_inv total H) as HI.
  { split; rewrite E; [cbn; lia|by intros ? ?%elem_of_nil|intros t _; split; [by intros ? ?%elem_of_nil|by left]]. }
  clear E. induction Hr as [|H1 H2 H3 Hs _ IH]; [done|]. apply IH. destruct Hs; [by eapply joins_inv|by eapply leaves_inv].
Qed.

(** A device of 24 GiB takes an exclusive claim of 16. *)
Definition discrete : GpuDevice :=
  mkGpuDevice (Some "gpu") (Some "discrete GPU") (Some "discrete") (Some 20%Q) (Some (300 # 1)) None None (Some false) false
    (Some (24 * GIB, 23 * GIB, GIB)) None None None None.
Definition discrete_sample : GpuSample :=
  mkGpuSample true (Some (10 * second)) (Some "s10") [discrete] (Some []) (Some []) (Some quiet_host).
Definition whole_device : GpuDemand := mkGpuDemand "two" 1 4 (Some "shape") false true (16 * GIB).
Definition free_device : GpuHost := mkGpuHost (mkLedger ∅ ∅ ∅ ∅ None None) ∅ [] (λ _, None).
Definition taken_device : GpuHost :=
  mkGpuHost (mkLedger ∅ {[ "two" := mkHolder {[ "gpu-0000" ]} None (Some (mkGpuMeta (mkAdaptiveGpu false) 0)) ]} ∅ ∅ None None)
    {[ "two" := mkGpuClaimed true false (10 * second) (16 * GIB) (Some "shape") (Some "gpu") ]} ["two"] (λ _, None).

Lemma device_use_bounded_witness :
  rtc (use_step (Some (24 * GIB))) free_device taken_device ∧ held_budget taken_device ≤ 24 * GIB.
Proof.
  assert (rtc (use_step (Some (24 * GIB))) free_device taken_device) as Hr.
  { apply rtc_once.
    destruct (gpu_decision free_device (10 * second) discrete_sample whole_device no_state) as [r s'] eqn:E.
    assert (∃ a, r = Gpu_admitted a ∧ ga_key a = "two" ∧ gpu_claim taken_device "two" = Some (claim_of a)) as (a & -> & Ek & Ec).
    { apply (f_equal fst) in E. cbn [fst] in E. subst r. vm_compute. eexists. by split_and!. }
    refine (Joins _ _ _ _ _ _ _ _ _ E _ _ _ _); clear E.
    - intros d t Hd%list_elem_of_singleton [= <-]. subst d. split; [reflexivity|]. by eexists _, _.
    - rewrite Ek. by vm_compute.
    - by rewrite Ek.
    - by intros h ?%elem_of_nil. }
  split; [exact Hr|].
  destruct (device_use_bounded (Some (24 * GIB)) free_device taken_device eq_refl Hr) as (_ & _ & Hb).
  destruct (Hb _ eq_refl) as [E|Hle]; [|exact Hle]. vm_compute in E. discriminate E.
Defined.

(** ** The power reference *)

Lemma Qgt_bool_lt a b : Qgt_bool a b = true → (b < a)%Q.
Proof. intros Hg%negb_true_iff. apply Qnot_le_lt. intros Hle%Qle_bool_iff. congruence. Qed.
Lemma Qgt_bool_le a b : Qgt_bool a b = false → (a <= b)%Q.
Proof. intros Hg%negb_false_iff. by apply Qle_bool_iff. Qed.

Lemma nonneg_le q v : nonneg q = Some v → (0 <= v)%Q.
Proof. destruct q as [w|]; [|done]. cbn. destruct (Qle_bool 0 w) eqn:E; [|done]. intros [= <-]. by apply Qle_bool_iff. Qed.

(** The recorded peak of a device is at most its envelope [c]. *)
Definition peak_within (u : string) (c : Q) (s : GpuState) : Prop := ∀ p, gp_peaks s !! u = Some p → (0 <= p <= c)%Q.

(** A peak only rises. *)
Definition peak_rises (u : string) (s s' : GpuState) : Prop :=
  ∀ p, gp_peaks s !! u = Some p → ∃ p', gp_peaks s' !! u = Some p' ∧ (p <= p')%Q.

(** The device reports its envelope. *)
Definition reports (u : string) (c : Q) (d : GpuDevice) : Prop := gd_uuid d = Some u → gd_envelope d = Some c.

Lemma record_power_peak_spec u c d s :
  (0 < c)%Q → reports u c d → peak_within u c s →
  peak_within u c (record_power_peak d s) ∧ peak_rises u s (record_power_peak d s).
Proof.
  intros Hc Hd Hw. assert (peak_rises u s s) as Hrefl by (intros p Hp; exists p; split; [done|apply Qle_refl]).
  unfold record_power_peak. destruct (gd_uuid d) as [v|] eqn:Hv; [|done].
  destruct (nonneg (gd_power d)) as [power|] eqn:Hp; [|done]. destruct (bool_decide (v = "")); [done|].
  match goal with |- context [if ?b then s else _] => destruct b eqn:Hover end; [done|].
  destruct (decide (v = u)) as [->|Hne].
  2: { assert (∀ q, peak_within u c (set_peaks (<[v := q]> (gp_peaks s)) s) ∧ peak_rises u s (set_peaks (<[v := q]> (gp_peaks s)) s)) as Hins.
       { intros q. split; intros p; cbn; rewrite lookup_insert_ne by done; [by apply Hw|by apply Hrefl]. }
       destruct (nonneg (gp_peaks s !! v)); [destruct (Qgt_bool _ _)|]; auto. }
  assert (peak_within u c (set_peaks (<[u := power]> (gp_peaks s)) s)) as Hin.
  { intros p; cbn; rewrite lookup_insert_eq. intros [= <-]. split; [by eapply nonneg_le|].
    rewrite (Hd Hv) in Hover. cbn in Hover. rewrite (proj2 (Qle_bool_iff 0 c)) in Hover by by apply Qlt_le_weak.
    apply andb_false_iff in Hover as [E%negb_false_iff|E]; [|by apply Qgt_bool_le].
    apply Qeq_bool_iff in E. rewrite E in Hc. by apply Qlt_irrefl in Hc. }
  assert (∀ p, gp_peaks s !! u = Some p → nonneg (gp_peaks s !! u) = Some p) as Hnn.
  { intros p Ep. rewrite Ep. cbn. by rewrite (proj2 (Qle_bool_iff 0 p)) by by apply (Hw p). }
  destruct (nonneg (gp_peaks s !! u)) as [q|] eqn:En.
  - destruct (Qgt_bool power q) eqn:Eg; [|done]. split; [done|]. intros p Hpk. specialize (Hnn p Hpk). injection Hnn as ->.
    exists power. cbn. rewrite lookup_insert_eq. split; [done|]. by apply Qlt_le_weak, Qgt_bool_lt.
  - split; [done|]. intros p Hpk. by specialize (Hnn p Hpk).
Qed.

(** A run of decisions whose samples report the envelope [c] of device [u]. *)
Inductive reference_step (u : string) (c : Q) : GpuState → GpuState → Prop :=
  | Reference_step H now sample dm s r s' :
      gpu_decision H now sample dm s = (r, s') → Forall (reports u c) (gs_devices sample) → reference_step u c s s'.

Lemma peak_rises_refl u s : peak_rises u s s.
Proof. intros p Hp. exists p. split; [done|apply Qle_refl]. Qed.

Lemma reference_step_peaks u c s s' :
  (0 < c)%Q → reference_step u c s s' → peak_within u c s → peak_within u c s' ∧ peak_rises u s s'.
Proof.
  intros Hc [H now sample dm s1 r s2 Hd Hr] Hw. pose proof (peak_rises_refl u s1) as Hrefl. unfold gpu_decision in Hd.
  destruct (bool_decide _); [by injection Hd as _ <-|]. destruct (bool_decide _); [by injection Hd as _ <-|].
  destruct (negb _ && _); [by injection Hd as _ <-|]. destruct (evidence_of now sample s1) as [e|] eqn:He; [|by injection Hd as _ <-].
  destruct (look _ _ _ _ _) as [[found pressure] s3] eqn:Hl. apply look_keeps in Hl as [_ Hp].
  assert (s2 = s3) as -> by (by destruct (gpu_gates _ _ _ _ _ _ _); injection Hd as _ <-).
  apply evidence_spec in He as (Hdev & _). rewrite Hdev, Forall_singleton in Hr.
  destruct (record_power_peak_spec u c (ge_device e) s1 Hc Hr Hw) as [Hw' Hri].
  unfold peak_within, peak_rises in *. by destruct Hp as [->| ->].
Qed.

(** The reference of a device without a power limit of its own. *)
Lemma reference_of_peak d u s declared :
  nonneg (gd_limit d) = None → gd_scope d = Some "soc_tdp" → gd_uuid d = Some u → declared_reference (gd_name d) = Some declared →
  (∀ p, gp_peaks s !! u = Some p → (0 <= p)%Q) →
  ∃ r, admission_power_reference d s = Some r
     ∧ (r == Qmax declared (default declared (gp_peaks s !! u)))%Q.
Proof.
  intros Hl Hs Hu Hn Hp. unfold admission_power_reference. rewrite Hl, Hs, Hu, Hn. rewrite (bool_decide_true (Some _ = Some _)) by done.
  cbn [mbind option_bind]. destruct (gp_peaks s !! u) as [p|]; cbn.
  - rewrite (proj2 (Qle_bool_iff 0 p)) by by apply Hp. destruct (Qgt_bool p declared) eqn:E; cbn.
    + exists p. split; [done|]. symmetry. by apply Q.max_r, Qlt_le_weak, Qgt_bool_lt.
    + exists declared. split; [done|]. symmetry. by apply Q.max_l, Qgt_bool_le.
  - exists declared. split; [done|]. symmetry. apply Q.max_id.
Qed.

(** The power reference of a device that has only its published envelope
    is never below the declared floor, only rises from decision to decision,
    and never passes the envelope, whatever the samples say of its power. *)
Theorem power_reference_bounded d u c s s' declared :
  nonneg (gd_limit d) = None → gd_scope d = Some "soc_tdp" → gd_uuid d = Some u → declared_reference (gd_name d) = Some declared →
  (0 < declared <= c)%Q → peak_within u c s → rtc (reference_step u c) s s' →
  ∃ r r', admission_power_reference d s = Some r ∧ admission_power_reference d s' = Some r'
    ∧ (declared <= r)%Q ∧ (r <= r')%Q ∧ (r' <= c)%Q.
Proof.
  intros Hl Hs Hu Hn [Hd Hdc] Hw Hr. assert (0 < c)%Q as Hc by by eapply Qlt_le_trans.
  assert (peak_within u c s' ∧ peak_rises u s s') as [Hw' Hri].
  { clear Hl Hs Hu Hn. induction Hr as [s|s1 s2 s3 Hst _ IH]; [split; [done|apply peak_rises_refl]|].
    destruct (reference_step_peaks u c s1 s2 Hc Hst Hw) as [Hw2 H12]. destruct (IH Hw2) as [Hw3 H23]. split; [done|].
    intros p (p2 & Hp2 & Hle)%H12. apply H23 in Hp2 as (p3 & Hp3 & Hle'). exists p3. split; [done|]. by eapply Qle_trans. }
  assert (∀ t, peak_within u c t → ∀ p, gp_peaks t !! u = Some p → (0 <= p)%Q) as H0 by (intros t Ht p Hp; by apply (Ht p)).
  destruct (reference_of_peak d u s declared Hl Hs Hu Hn (H0 s Hw)) as (r & Er & Qr).
  destruct (reference_of_peak d u s' declared Hl Hs Hu Hn (H0 s' Hw')) as (r' & Er' & Qr').
  exists r, r'. split_and!; [done|done| | |].
  - rewrite Qr. apply Q.le_max_l.
  - rewrite Qr, Qr'. destruct (gp_peaks s !! u) as [p|] eqn:Hp; cbn.
    + destruct (Hri p Hp) as (p' & -> & Hle). cbn. by apply Q.max_le_compat_l.
    + rewrite Q.max_id. apply Q.le_max_l.
  - rewrite Qr'. destruct (gp_peaks s' !! u) as [p|] eqn:Hp; cbn; apply Q.max_lub; try done. by apply (Hw' p).
Qed.

(** A reading of 120 W raises the floor of 100 W; one of 500 W does not. *)
Definition drawing (w : Q) : GpuSample :=
  mkGpuSample true (Some (10 * second)) (Some "s10")
    [mkGpuDevice (Some "gpu") (Some SW_CAP_IDLE_DEVICE_NAME) (Some "shared_system") (Some w) None (Some "soc_tdp") (Some (140 # 1))
       (Some false) false None None None None None] (Some []) (Some []) (Some quiet_host).

Lemma power_reference_bounded_witness :
  ∃ s' r r', rtc (reference_step "gpu" (140 # 1)) no_state s' ∧ admission_power_reference resting no_state = Some r
    ∧ admission_power_reference resting s' = Some r' ∧ r' = (120 # 1)%Q ∧ (r <= r' <= 140 # 1)%Q.
Proof.
  set (s1 := (gpu_decision free_device (10 * second) (drawing (120 # 1)) sharer no_state).2).
  set (s2 := (gpu_decision free_device (10 * second) (drawing (500 # 1)) sharer s1).2).
  assert (∀ w s, reference_step "gpu" (140 # 1) s (gpu_decision free_device (10 * second) (drawing w) sharer s).2) as Hst.
  { intros w s. eapply Reference_step; [apply surjective_pairing|]. by apply Forall_singleton. }
  assert (rtc (reference_step "gpu" (140 # 1)) no_state s2) as Hr.
  { eapply rtc_l; [apply (Hst (120 # 1)%Q)|]. apply rtc_once. apply (Hst (500 # 1)%Q). }
  assert (admission_power_reference resting s2 = Some (120 # 1)%Q) as E2 by by vm_compute.
  destruct (power_reference_bounded resting "gpu" (140 # 1) no_state s2 (100 # 1)) as (r & r' & E & E' & _ & Hle & Hc);
    [reflexivity|reflexivity|reflexivity|reflexivity|done|intros p [=]|exact Hr|].
  exists s2, r, r'. split_and!; [exact Hr|exact E|exact E'|congruence|exact Hle|exact Hc].
Defined.
