(* ===== verification/Gang.v ===== *)
(** * Gang reservation ([_gang.py])

    The files of the gangs -- group records, host elections, ready marks,
    teardowns -- with the queue rows of their members, and the handlers that
    touch them: registration, the claim pass of a member, the start barrier
    and the teardown, as programs over the file operations they make.  Actors
    run them interleaved and die anywhere; the rest of the queue moves rows
    under the key's transition lock.  Backfill and loans are answers
    ([Gate], [Loan_pending]) and not part of the state. *)
From S2P Require Import Prelude.
From S2P Require Import Watch.
From S2P Require Import AdaptiveCpu.
From S2P Require Import Prog.
From stdpp Require Import options.

Open Scope Z_scope.

Definition READY_FRESH : Z := 30 * second.
Definition MAX_MEMBERS : Z := 16.

(** ** Records *)

(** [params.gang]. *)
Record Decl := mkDecl { dc_group : string; dc_size : Z; dc_index : Z }.
#[export] Instance Decl_eq_dec : EqDecision Decl.
Proof. solve_decision. Defined.

(** A member of a group record; its index is its place. *)
Record Member := mkMember { mb_key : string; mb_published : Z; mb_priority : Z }.
#[export] Instance Member_eq_dec : EqDecision Member.
Proof. solve_decision. Defined.

(** [<group>.json]. *)
Record Group := mkGroup {
  gp_name : string; gp_members : list Member; gp_priority : Z; gp_skew : Z; gp_wait : option Z }.
#[export] Instance Group_eq_dec : EqDecision Group.
Proof. solve_decision. Defined.

(** [elect-<i>.json]. *)
Record Election := mkElection { el_key : string; el_host : string; el_priority : Z; el_epoch : Z }.

(** [ready-<i>.json]. *)
Record Ready := mkReady { rd_key : string; rd_host : string; rd_at : Z }.

(** A queue row, as far as gangs read it; [qr_gpu] is the GPU count of its
    [resources], where those are a readable table. *)
Record QRow := mkQRow { qr_published : Z; qr_gang : option Decl; qr_host : option string; qr_gpu : option Z }.

(** The slots of a key, in the order [gang_member_slots] reads them. *)
Inductive Slot := CLAIMED | DONE | FAILED | WITHDRAWN | READY.
#[export] Instance Slot_eq_dec : EqDecision Slot.
Proof. solve_decision. Defined.
#[export] Instance Slot_countable : Countable Slot.
Proof.
  refine (inj_countable' (λ t, match t with CLAIMED => 0 | DONE => 1 | FAILED => 2 | WITHDRAWN => 3 | READY => 4 end)%nat
    (λ n, match n with 0 => CLAIMED | 1 => DONE | 2 => FAILED | 3 => WITHDRAWN | _ => READY end)%nat _). by intros [].
Defined.
Definition gang_member_slots : list Slot := [CLAIMED; DONE; FAILED; WITHDRAWN; READY].
Definition unsuccessful (t : option Slot) : bool := match t with Some FAILED | Some WITHDRAWN => true | _ => false end.

(** A read, or the error of one. *)
Inductive rd (A : Type) := Got (a : A) | Bad.
Arguments Got {A} a.
Arguments Bad {A}.
#[export] Instance rd_eq_dec {A} `{EqDecision A} : EqDecision (rd A).
Proof. solve_decision. Defined.

(** ** Pure parts *)

Definition _is_hex (text : string) (n : nat) : bool := bool_decide (String.length text = n) && all_chars is_lower_hex text.

(** [declaration]. *)
Definition declaration (value : option Decl) : rd (option Decl) :=
  match value with
  | None => Got None
  | Some d =>
      if _is_hex (dc_group d) 32 && bool_decide (2 ≤ dc_size d ≤ MAX_MEMBERS) && bool_decide (0 ≤ dc_index d < dc_size d)
      then Got (Some d) else Bad
  end.

(** [member]: the entry a row has in its group's record. *)
Inductive Found := Entry (m : Member) | Contract_error | Index_error.
Definition member (G : Group) (key : string) (published : Z) (d : Decl) : Found :=
  match gp_members G !! Z.to_nat (dc_index d) with
  | None => Index_error
  | Some m => if bool_decide (mb_key m = key) && bool_decide (mb_published m = published) then Entry m else Contract_error
  end.

(** [read_group]'s checks of a record it found, and its answer. *)
Definition valid_group (G : Group) : bool :=
  bool_decide (2 ≤ Z.of_nat (length (gp_members G)) ≤ MAX_MEMBERS)
  && forallb (λ m, _is_hex (mb_key m) 64) (gp_members G)
  && bool_decide (0 < gp_skew G ≤ 3600 * second)
  && match gp_wait G with Some w => bool_decide (0 < w) | None => true end.
Definition read_group (found : option Group) : rd (option Group) :=
  match found with
  | Some G => if valid_group G then Got (Some G) else Bad
  | None => Got None
  end.

(** [rank]: higher priority, then earlier publication, then the name. *)
Record Rank := mkRank { rk_neg : Z; rk_first : Z; rk_group : string }.
Definition rank (G : Group) : Rank :=
  mkRank (- gp_priority G)
    (match gp_members G with [] => 0 | m :: ms => foldr (λ m acc, Z.min (mb_published m) acc) (mb_published m) ms end) (gp_name G).
Definition rank_lt (a b : Rank) : bool :=
  bool_decide (rk_neg a < rk_neg b)
  || bool_decide (rk_neg a = rk_neg b)
     && (bool_decide (rk_first a < rk_first b)
         || bool_decide (rk_first a = rk_first b) && negb (bool_decide (rk_group b ≤ rk_group a)%string)).

(** A row of the census's [gang_elections]; [ce_gpu] is the GPU count of its
    [demand], when it has one. *)
Inductive Member_state := Ready_member | Claimed_member | Terminal_member.
#[export] Instance Member_state_eq_dec : EqDecision Member_state.
Proof. solve_decision. Defined.
Record CElection := mkCElection {
  ce_group : string; ce_index : nat; ce_key : string; ce_host : string; ce_rank : Rank;
  ce_gpu : option Z; ce_state : Member_state }.

(** [election_position]. *)
Inductive Position := Ranked_behind (e : CElection) | At_position (mine : option CElection) (sibling_here needs_election : bool).

(** [{election["index"]: election ...}]: the last of an index stands. *)
Definition standing (es : list CElection) (group : string) : list CElection :=
  filter (λ e, ce_group e = group) es.
Definition mine_of (es : list CElection) (i : nat) : option CElection := last (filter (λ e, ce_index e = i) es).

Fixpoint first_ranked (es : list CElection) : option CElection :=
  match es with
  | [] => None
  | e :: es => match first_ranked es with
               | Some f => if rank_lt (ce_rank f) (ce_rank e) then Some f else Some e
               | None => Some e
               end
  end.

Definition election_position (es : list CElection) (G : Group) (d : Decl) (host : string) : Position :=
  let here := standing es (dc_group d) in
  let i := Z.to_nat (dc_index d) in
  let sibling_here := existsb (λ e, bool_decide (ce_host e = host) && negb (bool_decide (ce_index e = i))) here in
  let ours := host :: (ce_host <$> here) in
  match first_ranked (filter (λ e, ce_group e ≠ dc_group d ∧ ce_host e ∈ ours ∧ rank_lt (ce_rank e) (rank G) = true) es) with
  | Some e => Ranked_behind e
  | None => let mine := mine_of here i in At_position mine sibling_here (bool_decide (mine = None) && negb sibling_here)
  end.

(** ** The files and their operations *)

(** [g_limbo] is the row a transition of the queue has in its hands while it
    holds the key.  The last six fields are history. *)
Record gst := mkGst {
  g_groups : gmap string Group; g_elect : gmap (string * nat) Election; g_ready : gmap (string * nat) Ready;
  g_torn : gset string; g_slots : gmap (Slot * string) QRow; g_keys : gmap string nat; g_hosts : gmap string nat;
  g_limbo : gmap string QRow;
  g_published : gmap (string * Z) (option Decl);
  g_claims : gset (string * Z * string);
  g_lost : gset (string * Z); g_strays : gset (string * Z); g_done : gset (string * Z);
  g_marks : gset (string * nat * string * Z);
  g_launched : gset (string * nat) }.

Definition empty : gst := mkGst ∅ ∅ ∅ ∅ ∅ ∅ ∅ ∅ ∅ ∅ ∅ ∅ ∅ ∅ ∅.

Definition set_groups v s := mkGst v (g_elect s) (g_ready s) (g_torn s) (g_slots s) (g_keys s) (g_hosts s) (g_limbo s) (g_published s) (g_claims s) (g_lost s) (g_strays s) (g_done s) (g_marks s) (g_launched s).
Definition set_elect v s := mkGst (g_groups s) v (g_ready s) (g_torn s) (g_slots s) (g_keys s) (g_hosts s) (g_limbo s) (g_published s) (g_claims s) (g_lost s) (g_strays s) (g_done s) (g_marks s) (g_launched s).
Definition set_ready v w s := mkGst (g_groups s) (g_elect s) v (g_torn s) (g_slots s) (g_keys s) (g_hosts s) (g_limbo s) (g_published s) (g_claims s) (g_lost s) (g_strays s) (g_done s) w (g_launched s).
Definition set_torn v s := mkGst (g_groups s) (g_elect s) (g_ready s) v (g_slots s) (g_keys s) (g_hosts s) (g_limbo s) (g_published s) (g_claims s) (g_lost s) (g_strays s) (g_done s) (g_marks s) (g_launched s).
Definition set_slots v s := mkGst (g_groups s) (g_elect s) (g_ready s) (g_torn s) v (g_keys s) (g_hosts s) (g_limbo s) (g_published s) (g_claims s) (g_lost s) (g_strays s) (g_done s) (g_marks s) (g_launched s).
Definition set_keys v s := mkGst (g_groups s) (g_elect s) (g_ready s) (g_torn s) (g_slots s) v (g_hosts s) (g_limbo s) (g_published s) (g_claims s) (g_lost s) (g_strays s) (g_done s) (g_marks s) (g_launched s).
Definition set_hosts v s := mkGst (g_groups s) (g_elect s) (g_ready s) (g_torn s) (g_slots s) (g_keys s) v (g_limbo s) (g_published s) (g_claims s) (g_lost s) (g_strays s) (g_done s) (g_marks s) (g_launched s).
Definition set_limbo v s := mkGst (g_groups s) (g_elect s) (g_ready s) (g_torn s) (g_slots s) (g_keys s) (g_hosts s) v (g_published s) (g_claims s) (g_lost s) (g_strays s) (g_done s) (g_marks s) (g_launched s).
Definition add_published k d s := mkGst (g_groups s) (g_elect s) (g_ready s) (g_torn s) (g_slots s) (g_keys s) (g_hosts s) (g_limbo s) (<[k := d]> (g_published s)) (g_claims s) (g_lost s) (g_strays s) (g_done s) (g_marks s) (g_launched s).
Definition add_claim c v s := mkGst (g_groups s) (g_elect s) (g_ready s) (g_torn s) (g_slots s) (g_keys s) (g_hosts s) (g_limbo s) (g_published s) (g_claims s ∪ {[c]}) (g_lost s) (g_strays s ∪ v) (g_done s) (g_marks s) (g_launched s).
Definition add_lost v s := mkGst (g_groups s) (g_elect s) (g_ready s) (g_torn s) (g_slots s) (g_keys s) (g_hosts s) (g_limbo s) (g_published s) (g_claims s) (g_lost s ∪ v) (g_strays s) (g_done s) (g_marks s) (g_launched s).
Definition add_done v s := mkGst (g_groups s) (g_elect s) (g_ready s) (g_torn s) (g_slots s) (g_keys s) (g_hosts s) (g_limbo s) (g_published s) (g_claims s) (g_lost s) (g_strays s) (g_done s ∪ {[v]}) (g_marks s) (g_launched s).
Definition add_launched v s := mkGst (g_groups s) (g_elect s) (g_ready s) (g_torn s) (g_slots s) (g_keys s) (g_hosts s) (g_limbo s) (g_published s) (g_claims s) (g_lost s) (g_strays s) (g_done s) (g_marks s) (g_launched s ∪ {[v]}).

Inductive gop : Type → Type :=
  | Gate : gop bool
  | Held_keys : gop (rd (list string))
  | Clock : gop Z
  | Loan_pending (g : string) (i : nat) : gop (rd bool)
  | Sealed (k : string) : gop (rd (option Decl))
  | Try_key (k : string) : gop bool
  | Drop_key (k : string) : gop unit
  | Enter_host (h : string) : gop unit
  | Leave_host (h : string) : gop unit
  | List_groups : gop (list string)
  | Read_group (g : string) : gop (rd (option Group))
  | Link_group (G : Group) : gop (rd bool)
  | Read_torn (g : string) : gop (rd bool)
  | Link_torn (g : string) : gop (rd bool)
  | Read_elect (g : string) (i : nat) : gop (rd (option Election))
  | Link_elect (g : string) (i : nat) (e : Election) : gop (rd bool)
  | Read_ready (g : string) (i : nat) : gop (rd (option Ready))
  | Write_ready (g : string) (i : nat) (r : Ready) : gop (rd unit)
  | Read_slot (t : Slot) (k : string) : gop (rd (option QRow))
  | Rename_ready (k h : string) (scanned : Z) : gop (option QRow)
  | Restore_ready (k : string) : gop unit
  | Persist_claim (k h : string) : gop unit
  | Launch (g : string) (i : nat) : gop unit.

(** The generation at a slot. *)
Definition gen_at (s : gst) (t : Slot) (k : string) : option Z := qr_published <$> g_slots s !! (t, k).

(** Bytes of a slot that go when something is put over them. *)
Definition covered (s : gst) (t : Slot) (k : string) : gset (string * Z) :=
  match gen_at s t k with Some p => {[(k, p)]} | None => ∅ end.

(** [os.rename] of the ready row over the claimed one. *)
Definition renamed (k h : string) (scanned : Z) (r : QRow) (s : gst) : gst :=
  add_claim (k, qr_published r, h) (if bool_decide (qr_published r = scanned) then ∅ else {[(k, qr_published r)]})
    (set_slots (<[(CLAIMED, k) := r]> (delete (READY, k) (g_slots s))) (add_lost (covered s CLAIMED k) s)).

(** A claim linked back: nothing where a row was published meanwhile. *)
Definition restored (k : string) (r : QRow) (s : gst) : gst :=
  match g_slots s !! (READY, k) with
  | None => set_slots (<[(READY, k) := r]> (delete (CLAIMED, k) (g_slots s))) s
  | Some _ => s
  end.

Definition reads {A} (broken : bool) (v : A) (x : rd A) : Prop := x = Got v ∨ (broken = true ∧ x = Bad).

(** A link: published once, or an error before it. *)
Definition links (broken : bool) (there : bool) (s new : gst) (x : rd bool) (s' : gst) : Prop :=
  (x = Got (negb there) ∧ s' = if there then s else new) ∨ (broken = true ∧ x = Bad ∧ s' = s).

(** What an operation of actor [a] answers and leaves; [broken] says whether
    reads and links may fail. *)
Definition gop_step (broken : bool) {X} (o : gop X) (a : nat) (s : gst) : X → gst → Prop :=
  match o in gop X return X → gst → Prop with
  | Gate => λ _ s', s' = s
  | Held_keys => λ _ s', s' = s
  | Clock => λ _ s', s' = s
  | Loan_pending _ _ => λ _ s', s' = s
  | Sealed _ => λ _ s', s' = s
  | Try_key k => λ x s',
      (x = true ∧ g_keys s !! k = None ∧ g_limbo s !! k = None ∧ s' = set_keys (<[k := a]> (g_keys s)) s) ∨ (x = false ∧ s' = s)
  | Drop_key k => λ _ s', s' = set_keys (delete k (g_keys s)) s
  | Enter_host h => λ _ s', g_hosts s !! h = None ∧ s' = set_hosts (<[h := a]> (g_hosts s)) s
  | Leave_host h => λ _ s', s' = set_hosts (delete h (g_hosts s)) s
  | List_groups => λ x s', (∀ g, g ∈ x ↔ is_Some (g_groups s !! g)) ∧ s' = s
  | Read_group g => λ x s', (x = read_group (g_groups s !! g) ∨ (broken = true ∧ x = Bad)) ∧ s' = s
  | Link_group G => λ x s',
      links broken (bool_decide (is_Some (g_groups s !! gp_name G))) s (set_groups (<[gp_name G := G]> (g_groups s)) s) x s'
  | Read_torn g => λ x s', reads broken (bool_decide (g ∈ g_torn s)) x ∧ s' = s
  | Link_torn g => λ x s', links broken (bool_decide (g ∈ g_torn s)) s (set_torn (g_torn s ∪ {[g]}) s) x s'
  | Read_elect g i => λ x s', reads broken (g_elect s !! (g, i)) x ∧ s' = s
  | Link_elect g i e => λ x s',
      links broken (bool_decide (is_Some (g_elect s !! (g, i)))) s (set_elect (<[(g, i) := e]> (g_elect s)) s) x s'
  | Read_ready g i => λ x s', reads broken (g_ready s !! (g, i)) x ∧ s' = s
  | Write_ready g i r => λ x s',
      (x = Got () ∧ s' = set_ready (<[(g, i) := r]> (g_ready s)) (g_marks s ∪ {[(g, i, rd_host r, rd_at r)]}) s)
      ∨ (broken = true ∧ x = Bad ∧ s' = s)
  | Read_slot t k => λ x s', reads broken (g_slots s !! (t, k)) x ∧ s' = s
  | Rename_ready k h scanned => λ x s',
      x = g_slots s !! (READY, k) ∧ s' = match g_slots s !! (READY, k) with Some r => renamed k h scanned r s | None => s end
  | Restore_ready k => λ _ s',
      s' = match g_slots s !! (CLAIMED, k) with Some r => restored k r s | None => s end ∨ (broken = true ∧ s' = s)
  | Persist_claim k h => λ _ s',
      s' = match g_slots s !! (CLAIMED, k) with
           | Some r => set_slots (<[(CLAIMED, k) := mkQRow (qr_published r) (qr_gang r) (Some h) (qr_gpu r)]> (g_slots s)) s
           | None => s
           end
  | Launch g i => λ _ s', s' = add_launched (g, i) s
  end.

(** ** The rest of the queue *)

Definition unlocked (s : gst) (k : string) : Prop := g_keys s !! k = None ∧ g_limbo s !! k = None.
Definition terminal (t : Slot) : Prop := t = DONE ∨ t = FAILED ∨ t = WITHDRAWN.

(** Transitions of other handlers, each under the key's lock: a row is
    published over an older one; a claimed row is taken in hand and ends, or
    is queued again without the fields of its claim; a queued row is withdrawn; an ended row is forgotten. *)
Inductive env_step (s : gst) : gst → Prop :=
  | Env_publish k r :
      unlocked s k → g_published s !! (k, qr_published r) = None → qr_host r = None →
      env_step s (set_slots (<[(READY, k) := r]> (g_slots s))
                   (add_lost (covered s READY k) (add_published (k, qr_published r) (qr_gang r) s)))
  | Env_take k r :
      unlocked s k → g_slots s !! (CLAIMED, k) = Some r →
      env_step s (set_limbo (<[k := r]> (g_limbo s)) (set_slots (delete (CLAIMED, k) (g_slots s)) s))
  | Env_requeue k r r' :
      g_limbo s !! k = Some r → qr_published r' = qr_published r → qr_gang r' = qr_gang r → qr_host r' = None →
      env_step s (set_limbo (delete k (g_limbo s))
                   (set_slots (<[(READY, k) := r']> (g_slots s)) (add_lost (covered s READY k) s)))
  | Env_done k r :
      g_limbo s !! k = Some r →
      env_step s (set_limbo (delete k (g_limbo s))
                   (set_slots (<[(DONE, k) := r]> (g_slots s)) (add_done (k, qr_published r) s)))
  | Env_end k r t :
      g_limbo s !! k = Some r → t = FAILED ∨ t = WITHDRAWN →
      env_step s (set_limbo (delete k (g_limbo s))
                   (set_slots (<[(t, k) := r]> (g_slots s)) (add_lost {[(k, qr_published r)]} s)))
  | Env_withdraw k r :
      unlocked s k → g_slots s !! (READY, k) = Some r →
      env_step s (set_slots (<[(WITHDRAWN, k) := r]> (delete (READY, k) (g_slots s))) (add_lost {[(k, qr_published r)]} s))
  | Env_forget k t : terminal t → env_step s (set_slots (delete (t, k) (g_slots s)) s).

(** ** The handlers *)

Definition proc := prog gop.

(** The rest of a handler when a read succeeded; an error ends it. *)
Definition with_got {A B} (x : rd A) (f : A → proc (rd B)) : proc (rd B) := match x with Got a => f a | Bad => mret Bad end.

(** [elections]. *)
Fixpoint elections (g : string) (js : list nat) : proc (rd (list (nat * Election))) :=
  match js with
  | [] => mret (Got [])
  | i :: js =>
      x ← call (Read_elect g i);
      with_got x (λ e,
        r ← elections g js;
        with_got r (λ l, mret (Got (match e with Some e => (i, e) :: l | None => l end))))
  end.
Definition indexes (G : Group) : list nat := seq 0 (length (gp_members G)).

(** The first slot that holds the member's generation. *)
Fixpoint member_state (m : Member) (slots : list Slot) : proc (rd (option Slot)) :=
  match slots with
  | [] => mret (Got None)
  | t :: slots =>
      x ← call (Read_slot t (mb_key m));
      with_got x (λ r,
        if bool_decide (qr_published <$> r = Some (mb_published m)) then mret (Got (Some t)) else member_state m slots)
  end.

(** [member_states]. *)
Fixpoint member_states (ms : list (nat * Member)) : proc (rd (list (nat * option Slot))) :=
  match ms with
  | [] => mret (Got [])
  | (i, m) :: ms =>
      x ← member_state m gang_member_slots;
      with_got x (λ t, r ← member_states ms; with_got r (λ l, mret (Got ((i, t) :: l))))
  end.
Definition numbered (G : Group) : list (nat * Member) := zip (indexes G) (gp_members G).

(** [sibling_states]. *)
Definition sibling_states (G : Group) (i : nat) : proc (rd (list (nat * option Slot))) :=
  x ← member_states (numbered G);
  with_got x (λ l, mret (Got (filter (λ it, it.1 ≠ i) l))).

(** [_gang_teardown_mark]. *)
Definition _gang_teardown_mark (g : string) : proc bool :=
  x ← call (Read_group g);
  match x with
  | Got (Some G) => y ← call (Link_torn g); mret (match y with Got b => b | Bad => false end)
  | _ => mret false
  end.

(** How a handler ends. *)
Inductive out := Refused | Claimed | Escaped | Launched | Ended_withdrawn | Ended_failed | Registered | Unregistered | Torn (b : bool).

(** [_prepare_claim_gang]. *)
Inductive Prepared := Ready_to_elect (G : Group) (m : Member) (d : Decl) | Not_prepared (o : out).
Definition _prepare_claim_gang (key : string) (item : QRow) : proc Prepared :=
  match declaration (qr_gang item) with
  | Got (Some d) =>
      x ← call (Sealed key);
      match x with
      | Got sealed =>
          if negb (bool_decide (sealed = Some d)) then mret (Not_prepared Refused)
          else
            x ← call (Read_group (dc_group d));
            match x with
            | Got (Some G) =>
                match member G key (qr_published item) d with
                | Contract_error => mret (Not_prepared Refused)
                | Index_error => mret (Not_prepared Escaped)
                | Entry m =>
                    x ← sibling_states G (Z.to_nat (dc_index d));
                    match x with
                    | Got states =>
                        _ ← (if existsb (λ it, unsuccessful it.2) states
                             then _gang_teardown_mark (dc_group d) else mret false);
                        x ← call (Read_torn (dc_group d));
                        match x with
                        | Got false =>
                            reclaimed ← call Gate;
                            mret (if reclaimed : bool then Ready_to_elect G m d else Not_prepared Refused)
                        | _ => mret (Not_prepared Refused)
                        end
                    | Bad => mret (Not_prepared Refused)
                    end
                end
            | _ => mret (Not_prepared Refused)
            end
      | Bad => mret (Not_prepared Refused)
      end
  | _ => mret (Not_prepared Refused)
  end.

(** [_scan_election_refresh], the groups: an unreadable gang is skipped. *)
Fixpoint census_groups (names : list string) : proc (list (Group * list (nat * Election))) :=
  match names with
  | [] => mret []
  | g :: names =>
      x ← call (Read_group g);
      found ← match x with
              | Got (Some G) =>
                  x ← call (Read_torn g);
                  match x with
                  | Got false =>
                      x ← elections g (indexes G);
                      mret (match x with Got es => Some (G, es) | Bad => None end)
                  | _ => mret None
                  end
              | _ => mret None
              end;
      rest ← census_groups names;
      mret (match found with Some f => f :: rest | None => rest end)
  end.

(** The rows of the members, [READY] and [CLAIMED], each key read once. *)
Definition Rows : Type := list (string * (option QRow * option QRow)).
Fixpoint census_members (ms : list Member) (rows : Rows) : proc (rd Rows) :=
  match ms with
  | [] => mret (Got rows)
  | m :: ms =>
      if bool_decide (mb_key m ∈ rows.*1) then census_members ms rows
      else
        x ← call (Read_slot READY (mb_key m));
        with_got x (λ r,
          y ← call (Read_slot CLAIMED (mb_key m));
          with_got y (λ c, census_members ms (rows ++ [(mb_key m, (r, c))])))
  end.

(** What was read of a key, in the order it was read. *)
Definition slots_of (rows : Rows) (key : string) : option QRow * option QRow :=
  default (None, None) (snd <$> head (filter (λ kr, kr.1 = key) rows)).
Definition rows_of (rows : Rows) (key : string) : list QRow :=
  let '(r, c) := slots_of rows key in option_list r ++ option_list c.

(** Whether one of the members has its generation in [READY] or [CLAIMED]. *)
Definition live (G : Group) (rows : Rows) : bool :=
  existsb (λ m, existsb (λ r, bool_decide (qr_published r = mb_published m)) (rows_of rows (mb_key m))) (gp_members G).

(** [_member_demand], its GPU count. *)
Definition _member_demand (rows : Rows) (G : Group) (key : string) : option Z :=
  head (omap (λ mr, if bool_decide (qr_published mr.2 = mb_published mr.1) then qr_gpu mr.2 else None)
          (m ← filter (λ m, mb_key m = key) (gp_members G); (m,.) <$> rows_of rows key)).

(** [_elected_member_state]. *)
Definition _elected_member_state (rows : Rows) (G : Group) (key : string) : Member_state :=
  match head (filter (λ m, mb_key m = key) (gp_members G)) with
  | None => Terminal_member
  | Some m =>
      let '(r, c) := slots_of rows key in
      if bool_decide (qr_published <$> c = Some (mb_published m)) then Claimed_member
      else if bool_decide (qr_published <$> r = Some (mb_published m)) then Ready_member
      else Terminal_member
  end.

(** [_gang_election_rows], added to those found. *)
Definition _gang_election_rows (rows : Rows) (Ges : Group * list (nat * Election)) (found : list (string * CElection))
  : list (string * CElection) :=
  let '(G, es) := Ges in
  if live G rows then
    foldl (λ acc ie, dset (el_key ie.2)
             (mkCElection (gp_name G) ie.1 (el_key ie.2) (el_host ie.2) (rank G)
                (_member_demand rows G (el_key ie.2)) (_elected_member_state rows G (el_key ie.2))) acc) found es
  else found.

(** The census's [gang_elections]. *)
Definition census : proc (rd (list CElection)) :=
  names ← call List_groups;
  groups ← census_groups names;
  x ← census_members (groups ≫= λ Ges, gp_members Ges.1) [];
  with_got x (λ rows, mret (Got (snd <$> foldl (λ found Ges, _gang_election_rows rows Ges found) [] groups))).

(** [runtime_reservation_census]: while the GPU runtime gate is latched, the
    elections of this host's queued GPU members are left out; all are kept when
    the ledger's holders cannot be read. *)
Definition runtime_reservation_census (latched : bool) (held : rd (list string)) (host : string) (es : list CElection)
  : list CElection :=
  match latched, held with
  | true, Got held =>
      filter (λ e, ¬ (ce_host e = host ∧ ce_key e ∉ held ∧ ce_state e = Ready_member
                      ∧ 0 < default 0 (ce_gpu e))) es
  | _, _ => es
  end.

(** [elect_gang_member]. *)
Definition elect_gang_member (G : Group) (m : Member) (i : nat) (host : string) : proc (rd string) :=
  now ← call Clock;
  x ← call (Link_elect (gp_name G) i (mkElection (mb_key m) host (gp_priority G) now));
  match x with
  | Bad => mret Bad
  | Got true => mret (Got host)
  | Got false =>
      y ← elections (gp_name G) (indexes G);
      with_got y (λ es, mret (match last (filter (λ ie, ie.1 = i) es) with Some ie => Got (el_host ie.2) | None => Bad end))
  end.

(** The gang's part of [_arbitrate_claim_census], and the gates after it:
    whether this host is the member's.  The first gate is the GPU runtime's. *)
Definition arbitrate (G : Group) (m : Member) (d : Decl) (host : string) : proc bool :=
  c ← census;
  match c with
  | Bad => mret false
  | Got es =>
      latched ← call Gate;
      held ← (if latched : bool then call Held_keys else mret (Got []));
      gate ← call Gate;
      if negb gate then mret false
      else
        match election_position (runtime_reservation_census latched held host es) G d host with
        | Ranked_behind _ => mret false
        | At_position mine _ needs =>
            x ← (if needs
                 then gate ← call Gate; if gate : bool then elect_gang_member G m (Z.to_nat (dc_index d)) host else mret Bad
                 else mret (match mine with Some e => Got (ce_host e) | None => Bad end));
            match x with
            | Got elected =>
                if bool_decide (elected = host) then gate ← call Gate; mret gate else mret false
            | Bad => mret false
            end
        end
  end.

(** [sibling_readiness]: whether every sibling is claimed or freshly ready on
    a host of its own. *)
Fixpoint sibling_readiness (g : string) (i : nat) (now : Z) (ms : list (nat * Member)) (hosts : list string) : proc (rd bool) :=
  match ms with
  | [] => mret (Got true)
  | (j, m) :: ms =>
      if bool_decide (j = i) then sibling_readiness g i now ms hosts
      else
        x ← call (Read_slot CLAIMED (mb_key m));
        with_got x (λ c,
          y ← (if bool_decide (qr_published <$> c = Some (mb_published m)) then mret (Got (c ≫= qr_host))
               else
                 x ← call (Loan_pending g j);
                 with_got x (λ pending : bool,
                   if pending then mret (Got None)
                   else
                     x ← call (Read_ready g j);
                     with_got x (λ r, mret (Got (r ≫= λ r,
                       if bool_decide (rd_key r = mb_key m) && bool_decide (0 ≤ now - rd_at r ≤ READY_FRESH)
                       then Some (rd_host r) else None)))));
          with_got y (λ other,
            match other with
            | Some h =>
                if bool_decide (h ∈ hosts) then z ← sibling_readiness g i now ms hosts; with_got z (λ _, mret (Got false))
                else sibling_readiness g i now ms (h :: hosts)
            | None => z ← sibling_readiness g i now ms hosts; with_got z (λ _, mret (Got false))
            end))
  end.

(** The gang's part of [_rename_and_commit_claim]. *)
Definition commit (G : Group) (m : Member) (i : nat) (host key : string) (item : QRow) : proc out :=
  gate ← call Gate;
  if negb gate then mret Refused
  else
    x ← call (Read_slot CLAIMED key);
    match x with
    | Got None =>
        now ← call Clock;
        w ← call (Write_ready (gp_name G) i (mkReady (mb_key m) host now));
        match w with
        | Bad => mret Refused
        | Got _ =>
            now ← call Clock;
            x ← sibling_readiness (gp_name G) i now (numbered G) [host];
            match x with
            | Got true =>
                loan ← call Gate;
                if negb loan then mret Refused
                else
                  x ← call (Rename_ready key host (qr_published item));
                  match x with
                  | None => mret Refused
                  | Some moved =>
                      same ← call Gate;
                      if same : bool then _ ← call (Persist_claim key host); mret Claimed
                      else _ ← call (Restore_ready key); mret Refused
                  end
            | _ => mret Refused
            end
        end
    | _ => mret Refused
    end.

(** A member's claim pass on [host], under its key's lock, the election under
    host admission. *)
Definition claim_pass (host key : string) (item : QRow) : proc out :=
  b ← call (Try_key key);
  if negb b then mret Refused
  else
    p ← _prepare_claim_gang key item;
    o ← match p with
        | Not_prepared o => mret o
        | Ready_to_elect G m d =>
            _ ← call (Enter_host host);
            here ← arbitrate G m d host;
            _ ← call (Leave_host host);
            if here : bool then commit G m (Z.to_nat (dc_index d)) host key item else mret Refused
        end;
    _ ← call (Drop_key key);
    mret o.

(** One turn of the start barrier's loop, [n] turns at most. *)
Fixpoint barrier_loop (n : nat) (G : Group) (i : nat) : proc out :=
  match n with
  | O => mret Refused
  | S n =>
      withdrawn ← call Gate;
      if withdrawn : bool then mret Ended_withdrawn
      else
        x ← call (Read_torn (gp_name G));
        match x with
        | Bad => mret Escaped
        | Got true => mret Ended_failed
        | Got false =>
            x ← sibling_states G i;
            match x with
            | Bad => mret Escaped
            | Got states =>
                if existsb (λ it, unsuccessful it.2) states then _ ← _gang_teardown_mark (gp_name G); barrier_loop n G i
                else if forallb (λ it, bool_decide (it.2 = Some CLAIMED) || bool_decide (it.2 = Some DONE)) states
                then _ ← call (Launch (gp_name G) i); mret Launched
                else
                  expired ← call Gate;
                  if expired : bool then _ ← _gang_teardown_mark (gp_name G); mret Ended_failed
                  else barrier_loop n G i
            end
        end
  end.

(** [_gang_start_barrier]. *)
Definition _gang_start_barrier (n : nat) (key : string) (item : QRow) : proc out :=
  match declaration (qr_gang item) with
  | Got (Some d) =>
      x ← call (Read_group (dc_group d));
      match x with
      | Got (Some G) =>
          match member G key (qr_published item) d with
          | Entry m => barrier_loop n G (Z.to_nat (dc_index d))
          | Contract_error => mret Ended_failed
          | Index_error => mret Escaped
          end
      | _ => mret Ended_failed
      end
  | _ => mret Ended_failed
  end.

(** ** Registration *)

(** A row as its publisher hands it in. *)
Definition PRow : Type := string * QRow * Z.

(** The member a row declares to be, with its index. *)
Definition entry_of (group : string) (size : nat) (row : PRow) : option (nat * Member) :=
  let '(key, r, priority) := row in
  match declaration (qr_gang r) with
  | Got (Some d) =>
      if bool_decide (dc_group d = group) && bool_decide (dc_size d = Z.of_nat size)
      then Some (Z.to_nat (dc_index d), mkMember key (qr_published r) priority) else None
  | _ => None
  end.

Definition by_index (x y : nat * Member) : Prop := (x.1 ≤ y.1)%nat.
#[export] Instance by_index_dec x y : Decision (by_index x y).
Proof. unfold by_index. apply _. Defined.

(** The record [publish_group] files: the members by index, each index once. *)
Definition group_record (group : string) (rows : list PRow) (skew : Z) (wait : option Z) : option Group :=
  entries ← mapM (entry_of group (length rows)) rows;
  let members := merge_sort by_index entries in
  if _is_hex group 32 && bool_decide (0 < skew ≤ 3600 * second)
     && match wait with Some w => bool_decide (0 < w) | None => true end
     && bool_decide (members.*1 = seq 0 (length rows))
  then
    match members.*2 with
    | [] => None
    | m :: ms => Some (mkGroup group (m :: ms) (foldr (λ m acc, Z.max (mb_priority m) acc) (mb_priority m) ms) skew wait)
    end
  else None.

(** Every key of the list locked, or the rest not run. *)
Fixpoint with_keys {A} (keys : list string) (body : proc (rd A)) : proc (rd A) :=
  match keys with
  | [] => body
  | k :: keys =>
      b ← call (Try_key k);
      if b : bool then x ← with_keys keys body; _ ← call (Drop_key k); mret x else mret Bad
  end.

(** Each member is still the queued row it was. *)
Fixpoint still_queued (group : string) (size : Z) (ms : list (nat * Member)) : proc (rd bool) :=
  match ms with
  | [] => mret (Got true)
  | (i, m) :: ms =>
      x ← call (Read_slot READY (mb_key m));
      with_got x (λ r,
        match r with
        | Some r =>
            if bool_decide (qr_published r = mb_published m)
               && match declaration (qr_gang r) with
                  | Got d => bool_decide (d = Some (mkDecl group size (Z.of_nat i)))
                  | Bad => false
                  end
            then still_queued group size ms else mret (Got false)
        | None => mret (Got false)
        end)
  end.

(** Filing under the members' locks. *)
Definition file_group (G : Group) : proc (rd bool) :=
  x ← call (Read_group (gp_name G));
  with_got x (λ there,
    match there with
    | Some G' => mret (Got (bool_decide (G' = G)))
    | None =>
        q ← still_queued (gp_name G) (Z.of_nat (length (gp_members G))) (numbered G);
        with_got q (λ ok : bool,
          if ok then
            l ← call (Link_group G);
            with_got l (λ linked : bool,
              if linked then mret (Got true)
              else
                y ← call (Read_group (gp_name G));
                with_got y (λ there, mret (Got (bool_decide (there = Some G)))))
          else mret (Got false))
    end).

(** [publish_group]. *)
Definition publish_group (group : string) (rows : list PRow) (skew : Z) (wait : option Z) : proc out :=
  match group_record group rows skew wait with
  | None => mret Unregistered
  | Some G =>
      x ← call (Read_group group);
      match x with
      | Bad => mret Unregistered
      | Got (Some G') => mret (if bool_decide (G' = G) then Registered else Unregistered)
      | Got None =>
          r ← with_keys (merge_sort (≤)%string (mb_key <$> gp_members G)) (file_group G);
          mret (match r with Got true => Registered | _ => Unregistered end)
      end
  end.

(** ** The machine *)

Inductive client :=
  | Registrar (group : string) (rows : list PRow) (skew : Z) (wait : option Z)
  | Claimant (host key : string) (item : QRow)
  | Starter (n : nat) (key : string) (item : QRow)
  | Tearer (g : string).

Definition handler (c : client) : proc out :=
  match c with
  | Registrar group rows skew wait => publish_group group rows skew wait
  | Claimant host key item => claim_pass host key item
  | Starter n key item => _gang_start_barrier n key item
  | Tearer g => b ← _gang_teardown_mark g; mret (Torn b)
  end.

Definition actors : Type := nat → option (proc out).
Definition put (a : nat) (p : option (proc out)) (P : actors) : actors := λ b, if decide (b = a) then p else P b.

(** A killed actor lets go of its locks. *)
Definition kill (a : nat) (s : gst) : gst :=
  set_hosts (filter (λ hb, hb.2 ≠ a) (g_hosts s)) (set_keys (filter (λ kb, kb.2 ≠ a) (g_keys s)) s).

(** A claimant works on a row it found in the queue. *)
Definition startable (c : client) (s : gst) : Prop :=
  match c with
  | Claimant _ key item => g_published s !! (key, qr_published item) = Some (qr_gang item)
  | _ => True
  end.

Inductive step (broken : bool) : gst * actors → gst * actors → Prop :=
  | step_call (a : nat) (s s' : gst) (P : actors) (X : Type) (o : gop X) (k : X → proc out) (x : X) :
      P a = Some (Do o k) → gop_step broken o a s x s' → step broken (s, P) (s', put a (Some (k x)) P)
  | step_start (a : nat) (s : gst) (P : actors) (c : client) :
      (P a = None ∨ ∃ x, P a = Some (Ret x)) → startable c s → step broken (s, P) (s, put a (Some (handler c)) P)
  | step_kill (a : nat) (s : gst) (P : actors) : step broken (s, P) (kill a s, put a None P)
  | step_env (s s' : gst) (P : actors) : env_step s s' → step broken (s, P) (s', P).

Definition reachable (broken : bool) (s : gst) : Prop := ∃ P, rtc (step broken) (empty, λ _, None) (s, P).
