(* ===== verification/GangLogic.v ===== *)
(** * A logic for the gang handlers

    What is permanent in the gang files ([le]), the invariant ([Inv]), what an
    actor may rely on by the locks it holds ([mode], [holds]), when each
    operation is safe and what it teaches ([pre], [post]), and that operations
    and the rest of the queue keep all of it ([gang_op_sound], [env_inv], [env_holds]). *)
From S2P Require Import Prelude.
From S2P Require Import Prog.
From S2P Require Import Gang.
From stdpp Require Import options.

Open Scope Z_scope.

(** ** What is permanent *)

Record le (s s' : gst) : Prop := mkLe {
  le_groups : g_groups s ⊆ g_groups s';
  le_elect : g_elect s ⊆ g_elect s';
  le_torn : g_torn s ⊆ g_torn s';
  le_published : dom (g_published s) ⊆ dom (g_published s');
  le_claims : g_claims s ⊆ g_claims s';
  le_lost : g_lost s ⊆ g_lost s';
  le_strays : g_strays s ⊆ g_strays s';
  le_done : g_done s ⊆ g_done s';
  le_marks : g_marks s ⊆ g_marks s' }.

#[export] Instance le_preorder : PreOrder le.
Proof. split; [by split|]. intros s1 s2 s3 [] []. split; by etrans. Qed.

Definition member_at (s : gst) (g : string) (i : nat) (m : Member) : Prop :=
  ∃ G, g_groups s !! g = Some G ∧ gp_members G !! i = Some m.

Definition elected (s : gst) (g : string) (i : nat) (h : string) : Prop :=
  ∃ e, g_elect s !! (g, i) = Some e ∧ el_host e = h.

(** The member's generation was claimed; a mark of the member was written. *)
Definition claimed (s : gst) (m : Member) : Prop := ∃ h, (mb_key m, mb_published m, h) ∈ g_claims s.
Definition marked (s : gst) (g : string) (i : nat) : Prop := ∃ h t, (g, i, h, t) ∈ g_marks s.

(** Every sibling of [i] was claimed or ready, by another host than [h]. *)
Definition stands (s : gst) (g : string) (j : nat) (m : Member) (h : string) : Prop :=
  (mb_key m, mb_published m, h) ∈ g_claims s ∨ ∃ t, (g, j, h, t) ∈ g_marks s.
Definition assembled (s : gst) (g : string) (i : nat) (h : string) : Prop :=
  ∀ j m, member_at s g j m → j ≠ i → ∃ h', h' ≠ h ∧ stands s g j m h'.

(** A gang that may still start as it was registered: not torn down, no
    generation lost or claimed in place of another, no key twice or in
    another group. *)
Record fine (s : gst) (g : string) : Prop := mkFine {
  fine_torn : g ∉ g_torn s;
  fine_lost : ∀ i m, member_at s g i m → ((mb_key m, mb_published m) ∉ g_lost s) ∧ ((mb_key m, mb_published m) ∉ g_strays s);
  fine_keys : ∀ i m g' j m', member_at s g i m → member_at s g' j m' → mb_key m' = mb_key m → g' = g ∧ j = i }.

Section permanent.
Context (s s' : gst) (Hle : le s s').

Lemma groups_mono g G : g_groups s !! g = Some G → g_groups s' !! g = Some G.
Proof using Hle. intros H. destruct Hle. by eapply lookup_weaken. Qed.

Lemma elect_mono x e : g_elect s !! x = Some e → g_elect s' !! x = Some e.
Proof using Hle. intros H. destruct Hle. by eapply lookup_weaken. Qed.

Lemma member_at_mono g i m : member_at s g i m → member_at s' g i m.
Proof using Hle. intros (G & H & Hm). exists G. split; [by apply groups_mono|done]. Qed.

Lemma elected_mono g i h : elected s g i h → elected s' g i h.
Proof using Hle. intros (e & H & He). exists e. split; [by apply elect_mono|done]. Qed.

Lemma claimed_mono m : claimed s m → claimed s' m.
Proof using Hle. intros [h H]. exists h. destruct Hle. auto. Qed.

Lemma marked_mono g i : marked s g i → marked s' g i.
Proof using Hle. intros (h & t & H). exists h, t. destruct Hle. auto. Qed.

(** A registered gang has the same members ever after. *)
Lemma member_at_back g i m G : g_groups s !! g = Some G → member_at s' g i m → member_at s g i m.
Proof using Hle.
  intros H (G' & H' & Hm). rewrite (groups_mono g G H) in H'. injection H' as <-. by exists G.
Qed.

Lemma stands_mono g j m h : stands s g j m h → stands s' g j m h.
Proof using Hle. destruct Hle. intros [H|[t H]]; [left; auto|right; exists t; auto]. Qed.

Lemma assembled_mono g i h G : g_groups s !! g = Some G → assembled s g i h → assembled s' g i h.
Proof using Hle.
  intros HG Ha j m Hm Hj. apply (member_at_back g j m G HG) in Hm.
  destruct (Ha j m Hm Hj) as (h' & Hne & Hs). exists h'. split; [done|by apply stands_mono].
Qed.

Lemma fine_back g : fine s' g → fine s g.
Proof using Hle.
  intros [Ht Hl Hk]. split.
  - intros H. apply Ht. by apply (le_torn _ _ Hle).
  - intros i m Hm. destruct (Hl i m (member_at_mono _ _ _ Hm)) as [H1 H2]. destruct Hle. split; auto.
  - intros i m g' j m' Hm Hm'. eapply Hk; by apply member_at_mono.
Qed.
End permanent.

(** ** The invariant *)

Section logic.
Context (broken : bool).

(** A claim was made by the member's elected host, beside a complete set. *)
Definition justified (s : gst) (k : string) (p : Z) (h : string) : Prop :=
  ∃ g i m, member_at s g i m ∧ mb_key m = k ∧ mb_published m = p ∧ elected s g i h ∧ assembled s g i h.

Definition ever (s : gst) (k : string) (p : Z) : Prop := ∃ h, (k, p, h) ∈ g_claims s.

Record GInv (s : gst) : Prop := mkGInv {
  i_name : ∀ g G, g_groups s !! g = Some G → gp_name G = g;
  i_elect : ∀ g i e, g_elect s !! (g, i) = Some e → ∃ m, member_at s g i m ∧ el_key e = mb_key m;
  i_claim : ∀ k p h, (k, p, h) ∈ g_claims s → (k, p) ∈ g_strays s ∨ justified s k p h;
  i_mark : ∀ g i h t, (g, i, h, t) ∈ g_marks s → elected s g i h;
  i_ready : ∀ g i r, g_ready s !! (g, i) = Some r → (g, i, rd_host r, rd_at r) ∈ g_marks s;
  i_launched : ∀ g i, (g, i) ∈ g_launched s →
    is_Some (g_groups s !! g) ∧ ∀ j m, member_at s g j m → j ≠ i → claimed s m }.

(** A generation that was taken out of [READY] was claimed. *)
Definition taken (s : gst) (k : string) (p : Z) : Prop :=
  gen_at s CLAIMED k = Some p ∨ qr_published <$> g_limbo s !! k = Some p ∨ gen_at s DONE k = Some p ∨ (k, p) ∈ g_done s.

(** A row that is queued, claimed or in hand. *)
Definition row_at (s : gst) (k : string) (r : QRow) : Prop :=
  g_slots s !! (READY, k) = Some r ∨ g_slots s !! (CLAIMED, k) = Some r ∨ g_limbo s !! k = Some r.

Record RInv (s : gst) : Prop := mkRInv {
  i_claimed : ∀ k p, taken s k p → ever s k p;
  i_row : ∀ k r h, row_at s k r → qr_host r = Some h → (k, qr_published r, h) ∈ g_claims s }.

Definition Inv (s : gst) : Prop := GInv s ∧ RInv s.

(** ** Modes *)

(** What an actor holds, and the keys whose claimed row it put there, with the
    host it claimed for. *)
Record mode := mkMode { m_keys : gset string; m_taken : gmap string string }.
Definition idle_mode : mode := mkMode ∅ ∅.

Record holds (a : nat) (m : mode) (s : gst) : Prop := mkHolds {
  h_keys : ∀ k, k ∈ m_keys m ↔ g_keys s !! k = Some a;
  h_taken : ∀ k h, m_taken m !! k = Some h →
    k ∈ m_keys m ∧ ∀ r, g_slots s !! (CLAIMED, k) = Some r → (k, qr_published r, h) ∈ g_claims s }.

Definition lock_key (k : string) (m : mode) : mode := mkMode (m_keys m ∪ {[k]}) (m_taken m).
Definition drop_key (k : string) (m : mode) : mode := mkMode (m_keys m ∖ {[k]}) (delete k (m_taken m)).
Definition takes (k h : string) (m : mode) : mode := mkMode (m_keys m) (<[k := h]> (m_taken m)).

(** ** When an operation is safe, and what it teaches *)

Definition pre {X} (m : mode) (s : gst) (o : gop X) : Prop :=
  match o with
  | Drop_key k | Restore_ready k => k ∈ m_keys m
  | Persist_claim k h => m_taken m !! k = Some h
  | Link_elect g i e => ∃ b, member_at s g i b ∧ el_key e = mb_key b
  | Write_ready g i r => elected s g i (rd_host r)
  | Rename_ready k h p => k ∈ m_keys m ∧ justified s k p h
  | Launch g i => (∃ G, g_groups s !! g = Some G) ∧ ∀ j b, member_at s g j b → j ≠ i → claimed s b
  | _ => True
  end.

Definition post {X} (m : mode) (s : gst) (o : gop X) : X → mode → gst → Prop :=
  match o in gop X return X → mode → gst → Prop with
  | Try_key k => λ x m' _, m' = (if x : bool then lock_key k m else m) ∧ (x = true → k ∉ m_keys m)
  | Drop_key k => λ _ m' _, m' = drop_key k m
  | Read_group g => λ x m' s', m' = m ∧ ∀ G, x = Got (Some G) → g_groups s' !! g = Some G ∧ gp_name G = g
  | Read_elect g i => λ x m' s', m' = m ∧ ∀ e, x = Got (Some e) → g_elect s' !! (g, i) = Some e
  | Link_elect g i e => λ x m' s', m' = m ∧ (x = Got true → elected s' g i (el_host e))
  | Read_ready g i => λ x m' s', m' = m ∧ ∀ r, x = Got (Some r) → (g, i, rd_host r, rd_at r) ∈ g_marks s'
  | Read_slot t k => λ x m' s', m' = m
      ∧ (t = CLAIMED ∨ t = DONE → ∀ r, x = Got (Some r) → ever s' k (qr_published r))
      ∧ (t = CLAIMED → ∀ r h, x = Got (Some r) → qr_host r = Some h → (k, qr_published r, h) ∈ g_claims s')
  | Rename_ready k h p => λ x m' s', m' = match x with Some _ => takes k h m | None => m end
  | _ => λ _ m' _, m' = m
  end.

(** An operation made when it is safe keeps the invariant, teaches the truth,
    and leaves everyone else what they know. *)
Definition sound {X} (o : gop X) : Prop := ∀ a m s x s',
  Inv s → holds a m s → pre m s o → gop_step broken o a s x s' →
  Inv s' ∧ le s s' ∧ (∃ m', post m s o x m' s' ∧ holds a m' s') ∧ ∀ b mb, b ≠ a → holds b mb s → holds b mb s'.

(** ** Frames *)

Definition beside_claimed (s : gst) (g : string) (i : nat) : Prop :=
  is_Some (g_groups s !! g) ∧ ∀ j m, member_at s g j m → j ≠ i → claimed s m.

(** Files only grow: what is new must be in order. *)
Lemma ginv_mono s s' :
  GInv s → le s s' →
  (∀ g G, g_groups s' !! g = Some G → g_groups s !! g = Some G ∨ gp_name G = g) →
  (∀ g i e, g_elect s' !! (g, i) = Some e → g_elect s !! (g, i) = Some e ∨ ∃ m, member_at s' g i m ∧ el_key e = mb_key m) →
  (∀ k p h, (k, p, h) ∈ g_claims s' → (k, p, h) ∈ g_claims s ∨ (k, p) ∈ g_strays s' ∨ justified s' k p h) →
  (∀ g i h t, (g, i, h, t) ∈ g_marks s' → (g, i, h, t) ∈ g_marks s ∨ elected s' g i h) →
  (∀ g i r, g_ready s' !! (g, i) = Some r → g_ready s !! (g, i) = Some r ∨ (g, i, rd_host r, rd_at r) ∈ g_marks s') →
  (∀ g i, (g, i) ∈ g_launched s' → (g, i) ∈ g_launched s ∨ beside_claimed s' g i) → GInv s'.
Proof.
  intros [Hn He Hc Hm Hr Hl] Hle Hn' He' Hc' Hm' Hr' Hl'. split.
  - intros g G [HG|?]%Hn'; [by apply Hn|done].
  - intros g i e [E|?]%He'; [|done]. apply He in E as (m & Hmem & Hk). exists m. split; [by eapply member_at_mono|done].
  - intros k p h [Hin|?]%Hc'; [|done]. apply Hc in Hin as [Hs|(g & i & m & Hmem & Hk & Hp & Hel & Has)]; [left; by apply (le_strays _ _ Hle)|].
    right. exists g, i, m. pose proof Hmem as (G & HG & _).
    split_and!; [by eapply member_at_mono|done|done|by eapply elected_mono|by eapply assembled_mono].
  - intros g i h t [Hin|?]%Hm'; [|done]. eapply elected_mono; [done|by eapply Hm].
  - intros g i r [E|?]%Hr'; [|done]. by apply (le_marks _ _ Hle), Hr.
  - intros g i [Hin|?]%Hl'; [|done]. apply Hl in Hin as [[G HG] Hs]. split; [exists G; by eapply groups_mono|].
    intros j m Hmem Hj. eapply claimed_mono, Hs, Hj; [done|]. by eapply member_at_back.
Qed.

(** What the rows do leaves the gang's part alone. *)
Lemma ginv_same s s' :
  GInv s → le s s' → g_groups s' = g_groups s → g_elect s' = g_elect s → g_claims s' = g_claims s → g_marks s' = g_marks s →
  g_ready s' = g_ready s → g_launched s' = g_launched s → GInv s'.
Proof.
  intros HI Hle Eg Ee Ec Em Er El.
  eapply ginv_mono; [exact HI|exact Hle|rewrite Eg|rewrite Ee|rewrite Ec|rewrite Em|rewrite Er|rewrite El]; auto.
Qed.

(** What an actor knows stays true when nothing it relies on changes. *)
Lemma holds_frame b mb s s' :
  (∀ k, g_keys s' !! k = Some b ↔ g_keys s !! k = Some b) → g_claims s ⊆ g_claims s' →
  (∀ k, k ∈ m_keys mb → g_slots s' !! (CLAIMED, k) = g_slots s !! (CLAIMED, k)) → holds b mb s → holds b mb s'.
Proof.
  intros Ek Ec Es [Hk Ht]. split; [intros k; by rewrite Hk, Ek|].
  intros k h Hh. destruct (Ht k h Hh) as [Hin Hr]. split; [done|]. intros r. rewrite Es by done. auto.
Qed.

(** A row of a key is changed only by who holds the key. *)
Lemma other_key a b mb s k k' : holds b mb s → b ≠ a → g_keys s !! k = Some a → k' ∈ m_keys mb → k' ≠ k.
Proof. intros [Hk _] Hb Ha Hin ->. apply Hk in Hin. congruence. Qed.

Lemma gen_at_slots s v t k : gen_at (set_slots v s) t k = qr_published <$> v !! (t, k).
Proof. done. Qed.

(** An answer that changes nothing only has to teach the truth. *)
Lemma gang_quiet {X} (o : gop X) a m s x :
  Inv s → (∃ m', post m s o x m' s ∧ holds a m' s) →
  Inv s ∧ le s s ∧ (∃ m', post m s o x m' s ∧ holds a m' s) ∧ ∀ b mb, b ≠ a → holds b mb s → holds b mb s.
Proof. intros. split_and!; [done|reflexivity|done|done]. Qed.
End logic.
