(* ===== verification/GangSound.v ===== *)
(** * The gang operations are sound

    Every operation of [Gang], made when [GangLogic.pre] allows it, and every
    transition of the rest of the queue keep the invariant and everyone's
    knowledge. *)
From S2P Require Import Prelude.
From S2P Require Import Prog.
From S2P Require Import Gang.
From S2P Require Import GangLogic.
From stdpp Require Import options.

Open Scope Z_scope.

Section sound.
Context (broken : bool).

Abbreviation sound := (GangLogic.sound broken).

(** ** Reading *)

Lemma reads_got {A} (v : A) x : reads broken v x → x = Got v ∨ (x = Bad ∧ broken = true).
Proof. unfold reads. intuition. Qed.

Lemma sound_plain {X} (o : gop X) :
  (∀ a s x s', gop_step broken o a s x s' → s' = s) → (∀ m s x s', post m s o x m s') → sound o.
Proof. intros Hq Hp a m s x s' HI Hh _ ->%Hq. apply gang_quiet; [done|]. by exists m. Qed.

Lemma sound_read_group g : sound (Read_group g).
Proof.
  intros a m s x s' HI Hh _ [Hx ->]. apply gang_quiet; [done|]. exists m. split; [|done]. split; [done|].
  destruct HI as [[Hn _ _ _ _ _] _]. intros G ->. destruct Hx as [Hx|[_ [=]]]. unfold read_group in Hx.
  destruct (g_groups s !! g) as [G'|] eqn:E; [|done]. destruct (valid_group G'); [|done]. injection Hx as ->. split; [done|by apply Hn].
Qed.

Lemma sound_read_elect g i : sound (Read_elect g i).
Proof.
  intros a m s x s' HI Hh _ [Hx ->]. apply gang_quiet; [done|]. exists m. split; [|done]. split; [done|].
  apply reads_got in Hx as [-> |[-> _]]; [|done]. by intros e [= E].
Qed.

Lemma sound_read_ready g i : sound (Read_ready g i).
Proof.
  intros a m s x s' HI Hh _ [Hx ->]. apply gang_quiet; [done|]. exists m. split; [|done]. split; [done|].
  apply reads_got in Hx as [-> |[-> Hb]]; [|done]. intros r [= E]. destruct HI as [HG _]. by apply (i_ready _ HG).
Qed.

Lemma sound_read_slot t k : sound (Read_slot t k).
Proof.
  intros a m s x s' HI Hh _ [Hx ->]. apply gang_quiet; [done|]. exists m. split; [|done]. split; [done|].
  destruct HI as [_ [Hc Hr]]. apply reads_got in Hx as [-> |[-> _]]; [|done]. split.
  - intros Ht r [= E]. apply Hc. unfold taken, gen_at. destruct Ht as [-> | ->]; rewrite E; [by left|by right; right; left].
  - intros -> r h [= E] Hh'. eapply Hr; [|done]. right. by left.
Qed.

(** ** Locks *)

Ltac fields := cbn [m_keys m_taken lock_key drop_key takes
  g_groups g_elect g_ready g_torn g_slots g_keys g_hosts g_limbo g_published g_claims g_lost g_strays g_done g_marks g_launched
  set_groups set_elect set_ready set_torn set_slots set_keys set_hosts set_limbo add_published add_claim add_lost add_done add_launched] in *.

Lemma inv_locks s v w : Inv s → Inv (set_hosts w (set_keys v s)).
Proof. intros [HG [Hc Hr]]. split; [by eapply ginv_same; [exact HG|by split|..]|]. by split. Qed.

Lemma sound_try_key k : sound (Try_key k).
Proof.
  intros a m s x s' HI Hh _ Hst. destruct Hst as [(-> & Hk & Hl & ->)|[-> ->]]; [|apply gang_quiet; [done|]; by exists m].
  split_and!.
  - exact (inv_locks s (<[k := a]> (g_keys s)) (g_hosts s) HI).
  - by split.
  - eexists. split; [split; [done|]|].
    { intros _ Hin%(h_keys _ _ _ Hh). congruence. }
    destruct Hh as [Hk1 Ht]. split; fields.
    + intros k'. rewrite elem_of_union, elem_of_singleton, Hk1, lookup_insert. case_decide; [subst; naive_solver|].
      split; [intros [?| ->]; done|by left].
    + intros k' h Hv. destruct (Ht k' h Hv). split; [set_solver|done].
  - intros b mb Hb. apply holds_frame; try done. intros k'. fields. rewrite lookup_insert. case_decide; [subst|done].
    split; [by intros [=]|by rewrite Hk].
Qed.

Lemma sound_drop_key k : sound (Drop_key k).
Proof.
  intros a m s x s' HI Hh Hpre Hst. change (s' = set_keys (delete k (g_keys s)) s) in Hst. subst s'. cbn in Hpre.
  pose proof Hh as [Hk1 Ht]. pose proof (proj1 (Hk1 k) Hpre) as Hka.
  split_and!.
  - exact (inv_locks s (delete k (g_keys s)) (g_hosts s) HI).
  - by split.
  - eexists. split; [done|]. split; fields.
    + intros k'. rewrite elem_of_difference, elem_of_singleton, Hk1, lookup_delete. case_decide; [subst; naive_solver|naive_solver].
    + intros k' h. rewrite lookup_delete. case_decide; [done|]. intros Hv. destruct (Ht k' h Hv). split; [set_solver|done].
  - intros b mb Hb. apply holds_frame; try done. intros k'. fields. rewrite lookup_delete. case_decide; [subst|done].
    split; [done|by rewrite Hka; intros [=]].
Qed.

(** Host admission is no part of what an actor relies on. *)
Lemma sound_host {X} (o : gop X) :
  (∀ a s x s', gop_step broken o a s x s' → ∃ w, s' = set_hosts w s) → (∀ m s x s', post m s o x m s') → sound o.
Proof.
  intros Hq Hp a m s x s' HI Hh _ [w ->]%Hq. split_and!.
  - exact (inv_locks s (g_keys s) w HI).
  - by split.
  - exists m. split; [done|]. by apply (holds_frame a m s).
  - intros b mb _. by apply holds_frame.
Qed.

(** ** Publishing *)

(** Files that only grow, and are none of the rows, leave the rows alone. *)
Lemma rinv_files s s' :
  RInv s → g_slots s' = g_slots s → g_limbo s' = g_limbo s → g_claims s' = g_claims s → g_done s' = g_done s → RInv s'.
Proof.
  intros [Hc Hr] Es El Ec Ed. split.
  - intros k p. unfold taken, ever, gen_at. rewrite Es, El, Ec, Ed. apply Hc.
  - intros k r h. unfold row_at. rewrite Es, El, Ec. apply Hr.
Qed.

Lemma links_inv there s new x s' :
  links broken there s new x s' → (x = Got true ∧ there = false ∧ s' = new) ∨ (x = Got false ∧ there = true ∧ s' = s) ∨ (x = Bad ∧ s' = s).
Proof. intros [[-> ->]|(_ & -> & ->)]; [destruct there|]; auto. Qed.

Lemma sound_link_group G : sound (Link_group G).
Proof.
  intros a m s x s' HI Hh _ Hst. assert (∃ m', post m s (Link_group G) x m' s ∧ holds a m' s) as Hpost by by exists m.
  apply links_inv in Hst as [(-> & Hno & ->)|[(-> & _ & ->)|(-> & ->)]]; [|by apply gang_quiet..].
  apply bool_decide_eq_false in Hno. assert (g_groups s !! gp_name G = None) as Hno' by by apply eq_None_not_Some.
  set (s' := set_groups _ s). assert (le s s') as Hle by (split; try done; by apply insert_subseteq).
  split_and!; [|done| |].
  - destruct HI as [HG HR]. split; [|by apply (rinv_files s)].
    eapply ginv_mono; [exact HG|exact Hle|..]; auto.
    + intros g G'. subst s'. fields. rewrite lookup_insert. case_decide; [|by left]. intros [= <-]. by right.
  - exists m. split; [done|]. by apply (holds_frame a m s).
  - intros b mb Hb. by apply holds_frame.
Qed.

Lemma sound_link_torn g : sound (Link_torn g).
Proof.
  intros a m s x s' HI Hh _ Hst. assert (∃ m', post m s (Link_torn g) x m' s ∧ holds a m' s) as Hpost by by exists m.
  apply links_inv in Hst as [(-> & Hno & ->)|[(-> & _ & ->)|(-> & ->)]]; [|by apply gang_quiet..].
  set (s' := set_torn _ s). assert (le s s') as Hle by (split; try done; set_solver).
  split_and!; [|done| |].
  - destruct HI as [HG HR]. split; [|by apply (rinv_files s)]. by apply (ginv_same s).
  - exists m. split; [done|]. by apply (holds_frame a m s).
  - intros b mb Hb. by apply holds_frame.
Qed.

Lemma sound_link_elect g i e : sound (Link_elect g i e).
Proof.
  intros a m s x s' HI Hh Hmem Hst.
  apply links_inv in Hst as [(-> & Hno & ->)|[(-> & _ & ->)|(-> & ->)]]; [|apply gang_quiet; [done|]; by exists m..].
  apply bool_decide_eq_false in Hno. assert (g_elect s !! (g, i) = None) as Hno' by by apply eq_None_not_Some.
  set (s' := set_elect _ s). assert (le s s') as Hle by (split; try done; by apply insert_subseteq).
  split_and!; [|done| |].
  - destruct HI as [HG HR]. split; [|by apply (rinv_files s)].
    eapply ginv_mono; [exact HG|exact Hle|..]; auto.
    intros g' j e'. subst s'. fields. rewrite lookup_insert. case_decide as Ed; [|by left]. injection Ed as <- <-.
    intros [= <-]. right. destruct Hmem as (b & Hb & Hk). by exists b.
  - exists m. split; [|by apply (holds_frame a m s)]. split; [done|]. intros _. exists e. subst s'. fields. by rewrite lookup_insert_eq.
  - intros b mb Hb. by apply holds_frame.
Qed.

Lemma sound_write_ready g i r : sound (Write_ready g i r).
Proof.
  intros a m s x s' HI Hh Hpre Hst. destruct Hst as [(-> & ->)|(_ & -> & ->)].
  2: { apply gang_quiet; [done|]. by exists m. }
  set (s' := set_ready _ _ s). assert (le s s') as Hle by (split; try done; subst s'; fields; set_solver).
  split_and!; [|done| |].
  - destruct HI as [HG HR]. split; [|by apply (rinv_files s)].
    eapply ginv_mono; [exact HG|exact Hle|..]; auto.
    + intros g' j h t. subst s'. fields. intros [Hin|Hin]%elem_of_union; [by left|right]. apply elem_of_singleton in Hin.
      by injection Hin as -> -> -> ->.
    + intros g' j r'. subst s'. fields. rewrite lookup_insert. case_decide as Ed; [|by left]. injection Ed as <- <-.
      intros [= <-]. right. set_solver.
  - exists m. split; [done|]. by apply (holds_frame a m s).
  - intros b mb Hb. by apply holds_frame.
Qed.

Lemma sound_launch g i : sound (Launch g i).
Proof.
  intros a m s x s' HI Hh [Hg Hpre] Hst. change (s' = add_launched (g, i) s) in Hst. subst s'.
  set (s' := add_launched _ s). assert (le s s') as Hle by by split.
  split_and!; [|done| |].
  - destruct HI as [HG HR]. split; [|by apply (rinv_files s)].
    eapply ginv_mono; [exact HG|exact Hle|..]; auto.
    + intros g' j. subst s'. fields. intros [Hin|Hin]%elem_of_union; [by left|right]. apply elem_of_singleton in Hin.
      by injection Hin as -> ->.
  - exists m. split; [done|]. by apply (holds_frame a m s).
  - intros b mb Hb. by apply holds_frame.
Qed.

(** ** Moving rows *)

Lemma slot_put (v : gmap (Slot * string) QRow) t0 k r t :
  qr_published <$> <[(t0, k) := r]> v !! (t, k) = if decide (t = t0) then Some (qr_published r) else qr_published <$> v !! (t, k).
Proof. rewrite lookup_insert. repeat case_decide; naive_solver. Qed.

Lemma slot_cut (v : gmap (Slot * string) QRow) t0 k t :
  qr_published <$> delete (t0, k) v !! (t, k) = if decide (t = t0) then None else qr_published <$> v !! (t, k).
Proof. rewrite lookup_delete. repeat case_decide; naive_solver. Qed.

Lemma put_other_key v (t t' : Slot) (k k' : string) (r : QRow) : k' ≠ k → (<[(t, k) := r]> v : gmap _ _) !! (t', k') = v !! (t', k').
Proof. intros Hne. apply lookup_insert_ne. by intros [= _ ?]. Qed.

Lemma cut_other_key (v : gmap (Slot * string) QRow) (t t' : Slot) (k k' : string) : k' ≠ k → delete (t, k) v !! (t', k') = v !! (t', k').
Proof. intros Hne. apply lookup_delete_ne. by intros [= _ ?]. Qed.

(** One key's rows change. *)
Lemma rinv_change k s s' :
  RInv s → le s s' →
  (∀ k' t, k' ≠ k → g_slots s' !! (t, k') = g_slots s !! (t, k')) → (∀ k', k' ≠ k → g_limbo s' !! k' = g_limbo s !! k') →
  (∀ k' p, k' ≠ k → (k', p) ∈ g_done s' → (k', p) ∈ g_done s) →
  (∀ p, taken s' k p → ever s' k p) → (∀ r, row_at s' k r → row_at s k r ∨ qr_host r = None) → RInv s'.
Proof.
  intros [Hc Hr] Hle Es El Ed Hc' Hr'. split.
  - intros k' p Ht. destruct (decide (k' = k)) as [->|Hne]; [by apply Hc'|].
    assert (taken s k' p) as (h & Hh)%Hc; [|exists h; by apply (le_claims _ _ Hle)].
    revert Ht. unfold taken, gen_at. rewrite !Es, El by done. intuition.
  - intros k' r h Hrow Hh. apply (le_claims _ _ Hle). destruct (decide (k' = k)) as [->|Hne].
    + destruct (Hr' r Hrow) as [Hrow'|]; [by eapply Hr|congruence].
    + eapply Hr; [|done]. revert Hrow. unfold row_at. by rewrite !Es, El by done.
Qed.

(** Others do not rely on the rows of a key they do not hold. *)
Lemma holds_rows k b mb s s' :
  k ∉ m_keys mb → g_keys s' = g_keys s → le s s' →
  (∀ k' t, k' ≠ k → g_slots s' !! (t, k') = g_slots s !! (t, k')) → holds b mb s → holds b mb s'.
Proof.
  intros Hk Ek Hle Es. apply holds_frame; [by rewrite Ek|apply (le_claims _ _ Hle)|].
  intros k' Hk'. by rewrite Es by (intros ->; done).
Qed.

Lemma not_theirs a b m mb k s : holds a m s → holds b mb s → b ≠ a → k ∈ m_keys m → k ∉ m_keys mb.
Proof. intros [Ha _] [Hb _] Hne Hk%Ha Hk'%Hb. congruence. Qed.

Lemma renamed_le k h p r s : le s (renamed k h p r s).
Proof. split; unfold renamed; fields; set_solver. Qed.

Lemma renamed_rows k h p r s : RInv s → g_slots s !! (READY, k) = Some r → RInv (renamed k h p r s).
Proof.
  intros HR Er. pose proof HR as [Hc Hr].
  eapply (rinv_change k s); [done|apply renamed_le|..|done|done| |].
  - intros k' t Hne. unfold renamed. fields. by rewrite put_other_key, cut_other_key.
  - intros q. unfold taken, gen_at, renamed. fields. rewrite !slot_put, !slot_cut. cbn.
    intros [[= <-]|Ht]; [exists h; set_solver|]. destruct (Hc k q) as [h' Hh']; [by right|]. exists h'. fields. set_solver.
  - intros r'. unfold row_at, renamed. fields. rewrite lookup_insert_ne, lookup_delete_eq, lookup_insert_eq by done.
    intros [|[[= <-]|]]; [done|left; by left|left; by right; right].
Qed.

Lemma sound_rename_ready k h p : sound (Rename_ready k h p).
Proof.
  intros a m s x s' HI Hh [Hin Hj] Hst.
  change (x = g_slots s !! (READY, k) ∧ s' = match g_slots s !! (READY, k) with Some r => renamed k h p r s | None => s end) in Hst.
  destruct Hst as [-> ->]. destruct (g_slots s !! (READY, k)) as [r|] eqn:Er; [|apply gang_quiet; [done|]; by exists m].
  assert (∀ k' t, k' ≠ k → g_slots (renamed k h p r s) !! (t, k') = g_slots s !! (t, k')) as Hoth.
  { intros k' t Hne. unfold renamed. fields. by rewrite put_other_key, cut_other_key. }
  split_and!; [|apply renamed_le| |].
  - destruct HI as [HG HR]. split; [|by eapply renamed_rows]. eapply ginv_mono; [exact HG|apply renamed_le|..]; auto.
    assert (justified (renamed k h p r s) k p h) as Hj'.
    { destruct Hj as (g & i & b & Hb & Hk & Hp & Hel & Has). exists g, i, b. pose proof Hb as (G & HG' & _).
      split_and!; [done|done|done|done|]. eapply (assembled_mono s); [apply renamed_le|done|done]. }
    intros k' p' h' [Hc|Hc]%elem_of_union; [by left|right]. apply elem_of_singleton in Hc.
    injection Hc as -> -> ->. destruct (decide (qr_published r = p)) as [E|E]; [right; by rewrite E|left].
    unfold renamed. fields. rewrite bool_decide_false by done. set_solver.
  - exists (takes k h m). split; [done|]. destruct Hh as [Hk Ht]. split; fields; [done|].
    intros k' h'. rewrite lookup_insert. case_decide as E; [subst k'; intros [= <-]|].
    + split; [done|]. intros r'. unfold renamed. fields. rewrite lookup_insert_eq. intros [= <-]. set_solver.
    + intros Hh'. destruct (Ht k' h' Hh') as [Hin' Hr]. split; [done|]. intros r'. rewrite Hoth by done.
      intros Hr'%Hr. by apply (le_claims _ _ (renamed_le k h p r s)).
  - intros b mb Hb Hmb. apply (holds_rows k b mb s); [|done|apply renamed_le|done|done]. exact (not_theirs a b m mb k s Hh Hmb Hb Hin).
Qed.

Lemma restored_le k r s : le s (restored k r s).
Proof. unfold restored. destruct (g_slots s !! (READY, k)); [done|by split]. Qed.

Lemma restored_rows k r s : RInv s → g_slots s !! (CLAIMED, k) = Some r → RInv (restored k r s).
Proof.
  intros HR Er. pose proof HR as [Hc Hr]. unfold restored. destruct (g_slots s !! (READY, k)) as [r0|] eqn:E; [done|].
  eapply (rinv_change k s); [done|by split| |done|done| |].
  - intros k' t Hne. fields. by rewrite put_other_key, cut_other_key.
  - intros q. unfold taken, gen_at. fields. rewrite !slot_put, !slot_cut. cbn. intros [|Ht]; [done|]. apply (Hc k q). by right.
  - intros r'. unfold row_at. fields. rewrite lookup_insert_eq, lookup_insert_ne, lookup_delete_eq by done.
    intros [[= <-]|[|]]; [left; by right; left|done|left; by right; right].
Qed.

Lemma sound_restore_ready k : sound (Restore_ready k).
Proof.
  intros a m s x s' HI Hh Hin Hst. change (k ∈ m_keys m) in Hin.
  assert (Inv s ∧ le s s ∧ (∃ m', post m s (Restore_ready k) x m' s ∧ holds a m' s) ∧ ∀ b mb, b ≠ a → holds b mb s → holds b mb s) as Hno
    by (apply gang_quiet; [done|]; by exists m).
  destruct Hst as [Hst|[_ ->]]; [|exact Hno].
  destruct (g_slots s !! (CLAIMED, k)) as [r|] eqn:Er; [|by rewrite Hst]. subst s'.
  assert (g_groups (restored k r s) = g_groups s ∧ g_elect (restored k r s) = g_elect s ∧ g_claims (restored k r s) = g_claims s
    ∧ g_marks (restored k r s) = g_marks s ∧ g_ready (restored k r s) = g_ready s ∧ g_launched (restored k r s) = g_launched s
    ∧ g_keys (restored k r s) = g_keys s) as (? & ? & Ec & ? & ? & ? & Ek)
    by (unfold restored; by destruct (g_slots s !! (READY, k))).
  assert (∀ k' t, k' ≠ k → g_slots (restored k r s) !! (t, k') = g_slots s !! (t, k')) as Hoth.
  { intros k' t Hne. unfold restored. destruct (g_slots s !! (READY, k)); fields; by rewrite ?put_other_key, ?cut_other_key. }
  split_and!; [|apply restored_le| |].
  - destruct HI as [HG HR]. split; [|by eapply restored_rows]. by apply (ginv_same s); [|apply restored_le|..].
  - exists m. split; [done|]. destruct Hh as [Hk Ht]. split; [by rewrite Ek|]. intros k' h Hh. destruct (Ht k' h Hh) as [Hin' Hr].
    split; [done|]. intros r'. rewrite Ec. destruct (decide (k' = k)) as [->|Hne]; [|rewrite Hoth by done; auto].
    unfold restored. destruct (g_slots s !! (READY, k)); [auto|]. fields. by rewrite lookup_insert_ne, lookup_delete_eq by done.
  - intros b mb Hb Hmb. apply (holds_rows k b mb s); [|done|apply restored_le|done|done]. exact (not_theirs a b m mb k s Hh Hmb Hb Hin).
Qed.

(** Writing the claim's host moves no generation. *)
Lemma sound_persist_claim k h : sound (Persist_claim k h).
Proof.
  intros a m s x s' HI Hh Hpre Hst. change (m_taken m !! k = Some h) in Hpre.
  change (s' = match g_slots s !! (CLAIMED, k) with
    | Some r => set_slots (<[(CLAIMED, k) := mkQRow (qr_published r) (qr_gang r) (Some h) (qr_gpu r)]> (g_slots s)) s | None => s end) in Hst. subst s'.
  destruct (g_slots s !! (CLAIMED, k)) as [r|] eqn:Er; [|apply gang_quiet; [done|]; by exists m].
  destruct (h_taken _ _ _ Hh k h Hpre) as [Hin Hclaim]. specialize (Hclaim r Er).
  set (s' := set_slots _ s). assert (∀ t k', gen_at s' t k' = gen_at s t k') as Hgen.
  { intros t k'. unfold gen_at, s'. fields. rewrite lookup_insert. case_decide as E; [injection E as <- <-|done]. by rewrite Er. }
  split_and!; [|by split| |].
  - destruct HI as [HG [Hc Hr]]. split; [by apply (ginv_same s); [|by split|..]|]. split.
    + intros k' p. unfold taken. rewrite !Hgen. apply Hc.
    + intros k' r' h'. unfold row_at, s'. fields. rewrite !lookup_insert. case_decide as E1; [done|]. case_decide as E2.
      * injection E2 as <-. intros [|[[= <-]|]]; cbn; [apply Hr; by left|by intros [= <-]|apply Hr; by right; right].
      * intros Hrow. by apply Hr.
  - exists m. split; [done|]. destruct Hh as [Hk Ht]. split; [done|]. intros k' h' Hh'. destruct (Ht k' h' Hh') as [Hin' Hr].
    split; [done|]. intros r'. unfold s'. fields. rewrite lookup_insert. case_decide as E; [|apply Hr].
    injection E as <-. intros [= <-]. cbn. by apply Hr.
  - intros b mb Hb Hmb. apply (holds_rows k b mb s); [|done|by split| |done]; [exact (not_theirs a b m mb k s Hh Hmb Hb Hin)|].
    intros k' t Hne. unfold s'. fields. by rewrite put_other_key.
Qed.

(** *** Every operation *)

Lemma gang_op_sound {X} (o : gop X) : sound o.
Proof.
  destruct o; try (apply sound_plain; [first [by intros ? ? ? ? ?|by intros ? ? ? ? [_ ?]]|done]).
  - apply sound_try_key.
  - apply sound_drop_key.
  - apply sound_host; [|done]. intros a s x s' [_ ->]. by eexists.
  - apply sound_host; [|done]. intros a s x s' Hst. by exists (delete h (g_hosts s)).
  - apply sound_read_group.
  - apply sound_link_group.
  - apply sound_link_torn.
  - apply sound_read_elect.
  - apply sound_link_elect.
  - apply sound_read_ready.
  - apply sound_write_ready.
  - apply sound_read_slot.
  - apply sound_rename_ready.
  - apply sound_restore_ready.
  - apply sound_persist_claim.
  - apply sound_launch.
Qed.

(** ** The rest of the queue *)

Lemma env_le s s' : env_step s s' → le s s'.
Proof. destruct 1; split; fields; try done; set_solver. Qed.

Lemma env_ginv s s' : env_step s s' → GInv s → GInv s'.
Proof. intros He HG. pose proof (env_le s s' He) as Hle. destruct He; by apply (ginv_same s). Qed.

Ltac slots := fields; rewrite ?put_other_key, ?cut_other_key, ?lookup_insert_ne, ?lookup_delete_ne by congruence; try done.

Lemma unlocked_free s k b mb : g_keys s !! k = None → holds b mb s → k ∉ m_keys mb.
Proof. intros Hk [Hb _] Hin%Hb. congruence. Qed.

Lemma env_holds s s' b mb : env_step s s' → holds b mb s → holds b mb s'.
Proof.
  intros He Hb. pose proof (env_le s s' He) as Hle. apply (holds_frame b mb s); [by destruct He|apply (le_claims _ _ Hle)| |done].
  intros k' Hk'. destruct He as [k r [Hk _]|k r [Hk _]|k r r' Hk|k r Hk|k r t Hk Ht|k r [Hk _]|k t Ht]; fields.
  - by rewrite lookup_insert_ne.
  - rewrite lookup_delete_ne; [done|]. intros [= ->]. by eapply unlocked_free.
  - by rewrite lookup_insert_ne.
  - by rewrite lookup_insert_ne.
  - rewrite lookup_insert_ne; [done|]. by destruct Ht as [-> | ->].
  - by rewrite lookup_insert_ne, lookup_delete_ne.
  - rewrite lookup_delete_ne; [done|]. by destruct Ht as [-> |[-> | ->]].
Qed.

(** Where a generation of the key goes. *)
Ltac rows := unfold taken, row_at, gen_at; fields;
  rewrite ?slot_put, ?slot_cut, ?lookup_insert_eq, ?lookup_delete_eq;
  repeat first [rewrite lookup_insert_eq|rewrite lookup_delete_eq|rewrite decide_True by done|rewrite decide_False by done|rewrite lookup_insert_ne by done|rewrite lookup_delete_ne by done].

Lemma env_rinv s s' : env_step s s' → RInv s → RInv s'.
Proof.
  intros He HR. pose proof (env_le s s' He) as Hle. pose proof HR as [Hc Hr].
  destruct He as [k r [Hk Hl] Hp Hn|k r [Hk Hl] Hs|k r r' Hl Hp Hg Hn|k r Hl|k r t Hl Ht|k r [Hk Hl] Hs|k t Ht];
    (eapply (rinv_change k s); [done|exact Hle|intros; slots|try done; intros; slots|try done| |]).
  - intros p. rows. apply (Hc k p).
  - intros r'. rows. intros [[= <-]|Hrow]; [by right|left; by right].
  - intros p. rows. intros [|Ht]; [done|]. apply (Hc k p). unfold taken, gen_at. rewrite Hs. cbn in *. tauto.
  - intros r'. rows. intros [?|[?|[= <-]]]; left; [by left|done|by right; left].
  - intros p. rows. intros Ht. apply (Hc k p). unfold taken, gen_at. cbn in *. naive_solver.
  - intros r0. rows. intros [[= <-]|[?|?]]; [by right|left; by right; left|done].
  - intros k' p Hne. fields. intros [|[=]%elem_of_singleton]%elem_of_union; congruence.
  - intros p. rows. assert (ever s k (qr_published r)) as He by (apply Hc; unfold taken; rewrite Hl; by right; left).
    intros [Ht|[Ht|[Ht|[Ht|[= ->]%elem_of_singleton]%elem_of_union]]]; [|done| | |done].
    + apply (Hc k p). by left.
    + by injection Ht as <-.
    + apply (Hc k p). by do 3 right.
  - intros r0. rows. intros [?|[?|?]]; left; [by left|by right; left|done].
  - intros p. destruct Ht as [-> | ->]; rows; intros Hx; apply (Hc k p); unfold taken, gen_at; cbn in *; naive_solver.
  - intros r0. destruct Ht as [-> | ->]; rows; (intros [?|[?|?]]; left; [by left|by right; left|done]).
  - intros p. rows. apply (Hc k p).
  - intros r0. rows. intros [?|[?|?]]; left; [done|by right; left|by right; right].
  - intros p. destruct Ht as [-> |[-> | ->]]; rows; intros Hx; apply (Hc k p); unfold taken, gen_at; naive_solver.
  - intros r0. destruct Ht as [-> |[-> | ->]]; rows; intros Hrow; left; exact Hrow.
Qed.

Lemma env_inv s s' : env_step s s' → Inv s → Inv s'.
Proof. intros He [HG HR]. split; [by eapply env_ginv|by eapply env_rinv]. Qed.

(** ** Death *)

Lemma kill_le a s : le s (kill a s).
Proof. by split. Qed.

Lemma kill_inv a s : Inv s → Inv (kill a s).
Proof.
  intros HI. exact (inv_locks s _ _ HI).
Qed.

Lemma kill_holds a b mb s : b ≠ a → holds b mb s → holds b mb (kill a s).
Proof.
  intros Hne. apply holds_frame; try done; intros k; unfold kill; fields; rewrite map_lookup_filter_Some; naive_solver.
Qed.

Lemma kill_idle a s : holds a idle_mode (kill a s).
Proof.
  split; unfold kill, idle_mode; fields; try done.
  intros k. rewrite map_lookup_filter_Some. set_solver.
Qed.

Lemma empty_inv : Inv empty.
Proof.
  split; split; unfold taken, row_at, gen_at; fields; try done; try (intros; set_solver).
Qed.

Lemma empty_idle a : holds a idle_mode empty.
Proof. split; unfold idle_mode; fields; done. Qed.

(** ** The machine *)

Definition ok {A} (p : proc A) (m : mode) (s : gst) (Q : A → mode → gst → Prop) : Prop :=
  safe le (λ X, @pre X) (λ X, @post X) p m s Q.

(** A handler ends without a lock. *)
Definition released (m : mode) : Prop := m_keys m = ∅.

(** Every actor's program is safe in its mode. *)
Definition sane (s : gst) (P : actors) : Prop :=
  Inv s ∧ ∃ Ms : nat → mode,
    (∀ a, holds a (Ms a) s) ∧ ∀ a, match P a with
                                   | Some p => ok p (Ms a) s (λ _ m _, released m)
                                   | None => released (Ms a)
                                   end.

Definition put_mode (a : nat) (m : mode) (Ms : nat → mode) : nat → mode := λ b, if decide (b = a) then m else Ms b.

Lemma released_idle a m s : released m → holds a m s → holds a idle_mode s.
Proof.
  intros Hk [H1 H2]. split; unfold idle_mode; fields; [|done]. intros k. by rewrite <-H1, Hk.
Qed.

Lemma gang_sane_call a s s' P X (o : gop X) k x :
  P a = Some (Do o k) → gop_step broken o a s x s' → sane s P → sane s' (put a (Some (k x)) P).
Proof.
  intros HP Hs (HI & Ms & Hm & Hok). pose proof (Hok a) as Ha. rewrite HP in Ha.
  destruct (Ha s) as [Hpre Hk]; [reflexivity|].
  destruct (gang_op_sound o a (Ms a) s x s' HI (Hm a) Hpre Hs) as (HI' & Hle & (m' & Hpost & Hm') & Hothers).
  split; [done|]. exists (put_mode a m' Ms). unfold put, put_mode. split; intros b; destruct (decide (b = a)) as [->|Hb].
  - done.
  - by apply Hothers.
  - by apply Hk.
  - specialize (Hok b). destruct (P b) as [p|]; [|done]. by eapply prog_safe_mono; [apply _|..].
Qed.

Lemma gang_sane_kill a s P : sane s P → sane (kill a s) (put a None P).
Proof.
  intros (HI & Ms & Hm & Hok). split; [by apply kill_inv|]. exists (put_mode a idle_mode Ms). unfold put, put_mode.
  split; intros b; destruct (decide (b = a)) as [->|Hb]; [apply kill_idle|by apply kill_holds|done|].
  specialize (Hok b). destruct (P b) as [p|]; [|done]. eapply prog_safe_mono; [apply _|apply kill_le|done].
Qed.

Lemma gang_sane_env s s' P : env_step s s' → sane s P → sane s' P.
Proof.
  intros He (HI & Ms & Hm & Hok). split; [by eapply env_inv|]. exists Ms. split.
  - intros a. by eapply env_holds.
  - intros a. specialize (Hok a). destruct (P a) as [p|]; [|done]. eapply prog_safe_mono; [apply _|by apply env_le|done].
Qed.

Lemma gang_sane_start a s P c :
  (P a = None ∨ ∃ x, P a = Some (Ret x)) → ok (handler c) idle_mode s (λ _ m _, released m) →
  sane s P → sane s (put a (Some (handler c)) P).
Proof.
  intros HP Hc (HI & Ms & Hm & Hok). split; [done|]. exists (put_mode a idle_mode Ms). unfold put, put_mode.
  split; intros b; destruct (decide (b = a)) as [->|Hb]; [|done|done|apply Hok].
  specialize (Hok a). assert (released (Ms a)) as Hr; [|by eapply released_idle].
  destruct HP as [HP|[x HP]]; rewrite HP in Hok; [done|]. by apply (Hok s).
Qed.

Lemma gang_sane_empty : sane empty (λ _, None).
Proof. split; [apply empty_inv|]. exists (λ _, idle_mode). split; [intros; apply empty_idle|done]. Qed.
End sound.
