(* ===== verification/GangHandlers.v ===== *)
(** * The gang handlers are safe

    Each handler of [Gang] in the logic of [GangLogic]: what a census, an
    election, a complete set and a look at the siblings establish, up to [gang_handler_ok] and the invariant of every
    reachable state, [gang_reachable_inv]. *)
From S2P Require Import Prelude.
From S2P Require Import AdaptiveCpu.
From S2P Require Import Prog.
From S2P Require Import Gang.
From S2P Require Import GangLogic.
From S2P Require Import GangSound.
From stdpp Require Import options.

Open Scope Z_scope.

#[local] Arguments GangSound.ok : simpl never.

Section handlers.
Context (broken : bool).

(** ** Stepping through a program *)

Lemma gang_ok_bind {A B} (p : proc A) (f : A → proc B) m s (Q : A → mode → gst → Prop) R :
  ok p m s Q → (∀ a m' s', le s s' → Q a m' s' → ok (f a) m' s' R) → ok (p ≫= f) m s R.
Proof. apply prog_safe_bind; apply _. Qed.

Lemma gang_ok_weaken {A} (p : proc A) m s (Q R : A → mode → gst → Prop) :
  (∀ a m' s', le s s' → Q a m' s' → R a m' s') → ok p m s Q → ok p m s R.
Proof. apply prog_safe_weaken; apply _. Qed.

Lemma gang_ok_ret {A} (a : A) m s (Q : A → mode → gst → Prop) : (∀ s', le s s' → Q a m s') → ok (mret a) m s Q.
Proof. done. Qed.

Lemma gang_ok_call {X B} (o : gop X) (f : X → proc B) m s (R : B → mode → gst → Prop) :
  (∀ s1, le s s1 → pre m s1 o ∧ ∀ x m' s2, le s1 s2 → post m s1 o x m' s2 → ok (f x) m' s2 R) → ok (call o ≫= f) m s R.
Proof. done. Qed.

(** The states of a program are a chain. *)
Ltac chain :=
  match goal with
  | H : le ?s ?t |- le ?s ?t => exact H
  | |- le ?s ?s => reflexivity
  | H : le ?s ?s1 |- le ?s _ => apply (transitivity H); chain
  end.

(** What only looks keeps the mode. *)
Definition same {A} (m : mode) : A → mode → gst → Prop := λ _ m' _, m' = m.

(** ** The census *)

(** Elections of [g] as they stand. *)
Definition read_of (s : gst) (g : string) (es : list (nat * Election)) : Prop :=
  ∀ j e, (j, e) ∈ es → g_elect s !! (g, j) = Some e.

Lemma read_of_mono s s' g es : le s s' → read_of s g es → read_of s' g es.
Proof. intros Hle He j e Hin. eapply elect_mono; [done|auto]. Qed.

Lemma elections_ok g js m s :
  ok (elections g js) m s (λ x m' s', m' = m ∧ ∀ es, x = Got es → read_of s' g es).
Proof.
  revert s. induction js as [|i js IH]; intros s; cbn [elections].
  { apply gang_ok_ret. intros s' Hle. split; [done|]. intros es [= <-] j e Hin. by apply elem_of_nil in Hin. }
  apply gang_ok_call. intros s1 H1. split; [done|]. intros x m1 s2 H2 [-> Hx]. destruct x as [e|]; cbn [with_got]; [|by apply gang_ok_ret].
  eapply gang_ok_bind; [apply IH|]. intros r m2 s3 H3 [-> Hr]. destruct r as [l|]; cbn [with_got]; [|by apply gang_ok_ret].
  apply gang_ok_ret. intros s4 H4. split; [done|]. intros es [= <-]. pose proof (read_of_mono s3 s4 g l H4 (Hr l eq_refl)) as Hl.
  destruct e as [e|]; [|done]. intros j e' [[= -> ->]|Hin]%elem_of_cons; [|by apply Hl].
  eapply elect_mono; [|by apply Hx]. chain.
Qed.

(** A gang of the census, with its elections as read. *)
Definition listed (s : gst) (Ges : Group * list (nat * Election)) : Prop := read_of s (gp_name Ges.1) Ges.2.

Lemma census_groups_ok names m s :
  ok (census_groups names) m s (λ x m' s', m' = m ∧ ∀ Ges, Ges ∈ x → listed s' Ges).
Proof.
  revert s. induction names as [|g names IH]; intros s; cbn [census_groups].
  { apply gang_ok_ret. intros s' Hle. split; [done|]. intros Ges Hin. by apply elem_of_nil in Hin. }
  apply gang_ok_call. intros s1 H1. split; [done|]. intros x m1 s2 H2 [-> HG].
  eapply (gang_ok_bind (A := option (Group * list (nat * Election))) _ _ _ _ (λ x m' s', m' = m ∧ ∀ Ges, x = Some Ges → listed s' Ges)).
  - destruct x as [[G|]|]; [|by apply gang_ok_ret..]. destruct (HG G eq_refl) as [_ Hn].
    apply gang_ok_call. intros s3 H3. split; [done|]. intros x m1 s4 H4 ->. destruct x as [[]|]; [by apply gang_ok_ret| |by apply gang_ok_ret].
    eapply gang_ok_bind; [apply elections_ok|]. intros x m1 s5 H5 [-> Hes]. apply gang_ok_ret. intros s6 H6. split; [done|].
    destruct x as [es|]; [|done]. intros Ges [= <-]. unfold listed. cbn. rewrite Hn. eapply read_of_mono; [done|auto].
  - intros found m1 s3 H3 [-> Hf]. eapply gang_ok_bind; [apply IH|]. intros rest m1 s4 H4 [-> Hr]. apply gang_ok_ret. intros s5 H5.
    split; [done|]. intros Ges Hin. assert (Ges ∈ rest ∨ found = Some Ges) as [Hin'|Hin'].
    { destruct found; [|by left]. apply elem_of_cons in Hin as [<-|]; [by right|by left]. }
    + eapply read_of_mono; [done|by apply Hr].
    + eapply read_of_mono; [|by apply Hf]. chain.
Qed.

Lemma census_members_ok ms rows m s : ok (census_members ms rows) m s (same m).
Proof.
  revert rows s. induction ms as [|b ms IH]; intros rows s; cbn [census_members]; [by apply gang_ok_ret|].
  case_bool_decide; [apply IH|].
  apply gang_ok_call. intros s1 H1. split; [done|]. intros x m1 s2 H2 [-> _]. destruct x as [r|]; cbn [with_got]; [|by apply gang_ok_ret].
  apply gang_ok_call. intros s3 H3. split; [done|]. intros y m1 s4 H4 [-> _]. destruct y as [c|]; cbn [with_got]; [apply IH|by apply gang_ok_ret].
Qed.

(** Every row of the census is an election as it stands. *)
Definition rows_ok (s : gst) (es : list CElection) : Prop :=
  ∀ ce, ce ∈ es → elected s (ce_group ce) (ce_index ce) (ce_host ce).

Lemma dset_elem {A} k v (d : list (string * A)) k' v' : (k', v') ∈ dset k v d → (k' = k ∧ v' = v) ∨ (k', v') ∈ d.
Proof.
  induction d as [|[k0 v0] d IH]; cbn [dset].
  - intros [= -> ->]%list_elem_of_singleton. by left.
  - case_bool_decide.
    + intros [[= -> ->]|Hin]%elem_of_cons; [by left|right; by right].
    + intros [[= -> ->]|Hin]%elem_of_cons; [right; by left|]. destruct (IH Hin); [by left|right; by right].
Qed.

Lemma election_rows_ok s rows Ges found :
  listed s Ges → (∀ k ce, (k, ce) ∈ found → elected s (ce_group ce) (ce_index ce) (ce_host ce)) →
  ∀ k ce, (k, ce) ∈ _gang_election_rows rows Ges found → elected s (ce_group ce) (ce_index ce) (ce_host ce).
Proof.
  destruct Ges as [G es]. unfold listed, _gang_election_rows. cbn. intros He Hf. destruct (live G rows); [|done].
  revert found Hf. induction es as [|[i e] es IH]; intros found Hf; cbn [foldl]; [done|].
  apply IH; [intros j e' Hin; apply He; by right|]. intros k ce [[-> ->]|Hin]%dset_elem; [|by eapply Hf].
  exists e. split; [apply He; by left|done].
Qed.

Lemma census_ok m s : ok census m s (λ x m' s', m' = m ∧ ∀ es, x = Got es → rows_ok s' es).
Proof.
  unfold census. apply gang_ok_call. intros s1 H1. split; [done|]. intros names m1 s2 H2 ->.
  eapply gang_ok_bind; [apply census_groups_ok|]. intros groups m1 s3 H3 [-> Hl].
  eapply gang_ok_bind; [apply census_members_ok|]. intros x m1 s4 H4 ->. destruct x as [rows|]; cbn [with_got]; [|by apply gang_ok_ret].
  apply gang_ok_ret. intros s5 H5. split; [done|]. intros es [= <-] ce ([k ce'] & -> & Hin)%list_elem_of_fmap. cbn.
  assert (∀ Ges, Ges ∈ groups → listed s5 Ges) as Hl5 by (intros Ges HGes; eapply read_of_mono; [|by apply Hl]; chain).
  revert Hin. assert (∀ (k : string) (ce : CElection), (k, ce) ∈ [] → elected s5 (ce_group ce) (ce_index ce) (ce_host ce)) as Hnil by (intros ? ? H; by apply elem_of_nil in H).
  revert Hnil. generalize (@nil (string * CElection)). clear -Hl5.
  induction groups as [|Ges groups IH]; intros found Hf; cbn [foldl]; [by apply Hf|].
  apply IH; [intros; apply Hl5; by right|]. apply election_rows_ok; [apply Hl5; by left|done].
Qed.

Lemma runtime_census_rows s latched held host es : rows_ok s es → rows_ok s (runtime_reservation_census latched held host es).
Proof.
  intros H. unfold runtime_reservation_census. destruct latched, held; try done. intros ce [_ Hin]%list_elem_of_filter. by apply H.
Qed.

(** ** Elections made *)

Lemma member_inv G key p d b : member G key p d = Entry b → gp_members G !! Z.to_nat (dc_index d) = Some b ∧ mb_key b = key ∧ mb_published b = p.
Proof.
  unfold member. destruct (gp_members G !! _) as [b'|] eqn:E; [|done]. case_bool_decide as H1; cbn; [|done].
  case_bool_decide as H2; [|done]. by intros [= <-].
Qed.

Lemma mine_elected s es g i ce : rows_ok s es → mine_of (standing es g) i = Some ce → elected s g i (ce_host ce).
Proof.
  intros Hrows Hm. assert (ce ∈ filter (λ e, ce_index e = i) (standing es g)) as Hin by by apply last_Some_elem_of.
  apply list_elem_of_filter in Hin as [<- Hin]. apply list_elem_of_filter in Hin as [<- Hin]. by apply Hrows.
Qed.

Lemma elect_gang_member_ok G b i host m s :
  g_groups s !! gp_name G = Some G → gp_members G !! i = Some b →
  ok (elect_gang_member G b i host) m s (λ x m' s', m' = m ∧ ∀ h, x = Got h → elected s' (gp_name G) i h).
Proof.
  intros HG Hb. unfold elect_gang_member. apply gang_ok_call. intros s1 H1. split; [done|]. intros now m1 s2 H2 ->.
  apply gang_ok_call. intros s3 H3. split.
  { exists b. split; [|done]. exists G. split; [|done]. eapply groups_mono; [|exact HG]. chain. }
  intros x m1 s4 H4 [-> Hnew]. destruct x as [[]|]; [| |by apply gang_ok_ret].
  - apply gang_ok_ret. intros s5 H5. split; [done|]. intros h [= <-]. eapply elected_mono; [done|]. by apply Hnew.
  - eapply gang_ok_bind; [apply elections_ok|]. intros y m2 s5 H5 [-> Hy].
    destruct y as [es|]; cbn [with_got]; apply gang_ok_ret; intros s6 H6; (split; [done|]); [|done].
    destruct (last _) as [[j e]|] eqn:E; [|done]. intros h [= <-]. apply last_Some_elem_of in E.
    apply list_elem_of_filter in E as [Hj Hin]. cbn in Hj. subst j.
    exists e. split; [|done]. eapply elect_mono; [done|]. by apply (Hy es eq_refl).
Qed.

(** A member whose group is known and whose key is held. *)
Record known (s : gst) (m : mode) (G : Group) (b : Member) (i : nat) : Prop := mkKnown {
  kn_group : g_groups s !! gp_name G = Some G; kn_member : gp_members G !! i = Some b; kn_key : mb_key b ∈ m_keys m }.

Lemma known_mono s s' m G b i : le s s' → known s m G b i → known s' m G b i.
Proof. intros Hle [HG Hb Hk]. split; [by eapply groups_mono|done|done]. Qed.

Lemma known_at s m G b i : known s m G b i → member_at s (gp_name G) i b.
Proof. intros []. by exists G. Qed.

Lemma arbitrate_ok G b d host m s :
  known s m G b (Z.to_nat (dc_index d)) → dc_group d = gp_name G →
  ok (arbitrate G b d host) m s (λ x m' s', m' = m ∧ (x = true → elected s' (gp_name G) (Z.to_nat (dc_index d)) host)).
Proof.
  intros Hkn Ed. unfold arbitrate. eapply gang_ok_bind; [apply census_ok|]. intros c m1 s1 H1 [-> Hc].
  destruct c as [es|]; [|by apply gang_ok_ret]. specialize (Hc es eq_refl).
  apply gang_ok_call. intros s2 H2. split; [done|]. intros latched m1 s3 H3 ->.
  eapply (gang_ok_bind (A := rd (list string)) _ _ _ _ (same m)).
  { destruct latched; [|by apply gang_ok_ret]. exact (gang_ok_call Held_keys mret m s3 _ (λ s4 _, conj I (λ x m' s5 _ E, λ s6 _, E))). }
  intros held m1 s4 H4 ->. pose proof (runtime_census_rows s1 latched held host es Hc) as Hrows. set (es' := runtime_reservation_census _ _ _ _) in *.
  apply gang_ok_call. intros s5 H5. split; [done|]. intros gate m1 s6 H6 ->. destruct gate; cbn [negb]; [|by apply gang_ok_ret].
  destruct (election_position es' G d host) as [e|mine sib needs] eqn:Hpos; [by apply gang_ok_ret|].
  assert (mine = mine_of (standing es' (dc_group d)) (Z.to_nat (dc_index d))) as Hmine.
  { revert Hpos. unfold election_position. destruct (first_ranked _); [done|]. by intros [= <- <- <-]. }
  eapply (gang_ok_bind (A := rd string) _ _ _ _ (λ x m' s', m' = m ∧ ∀ h, x = Got h → elected s' (gp_name G) (Z.to_nat (dc_index d)) h)).
  - destruct needs.
    + apply gang_ok_call. intros s7 H7. split; [done|]. intros gate m1 s8 H8 ->. destruct gate; [|by apply gang_ok_ret].
      assert (known s8 m G b (Z.to_nat (dc_index d))) as Hkn8 by (eapply known_mono; [|exact Hkn]; chain).
      apply elect_gang_member_ok; [by eapply kn_group|by eapply kn_member].
    + apply gang_ok_ret. intros s7 H7. split; [done|]. destruct mine as [ce|]; [|done]. intros h [= <-]. symmetry in Hmine.
      rewrite Ed in Hmine. eapply elected_mono; [|by eapply mine_elected]. chain.
  - clear Hpos Hmine. intros x m1 s7 H7 [-> Hx]. destruct x as [h|]; [|by apply gang_ok_ret].
    case_bool_decide as E; [|by apply gang_ok_ret].
    apply gang_ok_call. intros s8 H8. split; [done|]. intros gate m1 s9 H9 ->. apply gang_ok_ret. intros s10 H10. split; [done|].
    intros _. subst h. eapply elected_mono; [|by apply Hx]. chain.
Qed.

(** ** A complete set *)

Lemma numbered_elem G j b : (j, b) ∈ numbered G ↔ gp_members G !! j = Some b.
Proof.
  unfold numbered, indexes. rewrite list_elem_of_lookup. setoid_rewrite lookup_zip_with_Some.
  split.
  - intros (i & j' & b' & [= -> ->] & Hj & Hb). apply lookup_seq in Hj as [-> _]. done.
  - intros Hb. exists j, j, b. split_and!; [done| |done]. apply lookup_seq. split; [done|]. by eapply lookup_lt_Some.
Qed.

(** The siblings among [ms] stand on hosts that are none of [hosts]. *)
Definition in_place (s : gst) (g : string) (i : nat) (ms : list (nat * Member)) (hosts : list string) : Prop :=
  ∀ j b, (j, b) ∈ ms → j ≠ i → ∃ h, h ∉ hosts ∧ stands s g j b h.

Lemma in_place_mono s s' g i ms hosts : le s s' → in_place s g i ms hosts → in_place s' g i ms hosts.
Proof. intros Hle H j b Hin Hj. destruct (H j b Hin Hj) as (h & Hh & Hs). exists h. split; [done|by eapply stands_mono]. Qed.

(** One sibling: where it stands, if it does. *)
Lemma sibling_host_ok g j b now c m s :
  (∀ r h, c = Some r → qr_host r = Some h → (mb_key b, qr_published r, h) ∈ g_claims s) →
  ok (if bool_decide (qr_published <$> c = Some (mb_published b)) then mret (Got (c ≫= qr_host))
      else
        x ← call (Loan_pending g j);
        with_got x (λ pending : bool,
          if pending then mret (Got None)
          else
            x ← call (Read_ready g j);
            with_got x (λ r, mret (Got (r ≫= λ r,
              if bool_decide (rd_key r = mb_key b) && bool_decide (0 ≤ now - rd_at r ≤ READY_FRESH)
              then Some (rd_host r) else None))))) m s
    (λ (x : rd (option string)) m' s', m' = m ∧ ∀ h, x = Got (Some h) → stands s' g j b h).
Proof.
  intros Hc. case_bool_decide as E.
  - apply gang_ok_ret. intros s1 H1. split; [done|]. intros h Hh. apply fmap_Some in E as (r & -> & Hr). cbn in Hh. injection Hh as Hh.
    eapply stands_mono; [done|]. left. rewrite Hr. by apply Hc.
  - apply gang_ok_call. intros s1 H1. split; [done|]. intros p m1 s2 H2 ->. destruct p as [[]|]; [by apply gang_ok_ret| |by apply gang_ok_ret].
    apply gang_ok_call. intros s3 H3. split; [done|]. intros x m1 s4 H4 [-> Hx]. destruct x as [[r|]|]; [|by apply gang_ok_ret..].
    apply gang_ok_ret. intros s5 H5. split; [done|]. intros h. cbn. destruct (_ && _); [|done]. intros [= <-].
    eapply stands_mono; [done|]. right. exists (rd_at r). auto.
Qed.

Lemma sibling_readiness_ok g i now ms hosts m s :
  ok (sibling_readiness g i now ms hosts) m s (λ x m' s', m' = m ∧ (x = Got true → in_place s' g i ms hosts)).
Proof.
  revert hosts s. induction ms as [|[j b] ms IH]; intros hosts s; cbn [sibling_readiness].
  { apply gang_ok_ret. intros s' Hle. split; [done|]. intros _ j b Hin. by apply elem_of_nil in Hin. }
  case_bool_decide as Ej.
  { eapply gang_ok_weaken; [|apply IH]. intros x m' s' Hle [-> Hx]. split; [done|]. intros Ex j' b' [[= -> ->]|Hin]%elem_of_cons Hne; [done|].
    by apply Hx. }
  apply gang_ok_call. intros s1 H1. split; [done|]. intros x m1 s2 H2 (-> & _ & Hc). specialize (Hc eq_refl).
  destruct x as [c|]; cbn [with_got]; [|by apply gang_ok_ret].
  eapply gang_ok_bind; [apply (sibling_host_ok g j b now c m s2)|].
  { intros r h -> Hh. by apply Hc. }
  intros y m1 s3 H3 [-> Hy]. destruct y as [other|]; cbn [with_got]; [|by apply gang_ok_ret].
  assert (∀ hosts0 s, ok (z ← sibling_readiness g i now ms hosts0; with_got z (λ _, mret (Got false))) m s
    (λ x m' s', m' = m ∧ (x = Got true → in_place s' g i ((j, b) :: ms) hosts))) as Hfalse.
  { intros hosts' s'. eapply gang_ok_bind; [apply IH|]. intros z m1 s4 H4 [-> _]. destruct z; by apply gang_ok_ret. }
  destruct other as [h|]; [|apply Hfalse]. case_bool_decide as Hh; [apply Hfalse|].
  eapply gang_ok_weaken; [|apply IH]. intros x m' s' Hle [-> Hx]. split; [done|]. intros Ex j' b' [[= -> ->]|Hin]%elem_of_cons Hne.
  - exists h. split; [done|]. eapply stands_mono; [done|]. by apply Hy.
  - destruct (Hx Ex j' b' Hin Hne) as (h' & Hh' & Hs). exists h'. split; [|done]. intros H. apply Hh'. by right.
Qed.

(** ** The commit *)

Lemma commit_ok G b i host key item m s :
  known s m G b i → mb_key b = key → mb_published b = qr_published item → elected s (gp_name G) i host →
  ok (commit G b i host key item) m s (λ _ m' _, m_keys m' = m_keys m).
Proof.
  intros Hkn Hk Hp He. unfold commit. apply gang_ok_call. intros s1 H1. split; [done|]. intros gate m1 s2 H2 ->.
  destruct gate; cbn [negb]; [|by apply gang_ok_ret].
  apply gang_ok_call. intros s3 H3. split; [done|]. intros x m1 s4 H4 (-> & _). destruct x as [[c|]|]; [by apply gang_ok_ret| |by apply gang_ok_ret].
  apply gang_ok_call. intros s5 H5. split; [done|]. intros now m1 s6 H6 ->.
  apply gang_ok_call. intros s7 H7. split; [eapply elected_mono; [|exact He]; chain|]. intros w m1 s8 H8 ->. destruct w; [|by apply gang_ok_ret].
  apply gang_ok_call. intros s9 H9. split; [done|]. intros now' m1 s10 H10 ->.
  eapply gang_ok_bind; [apply sibling_readiness_ok|]. intros y m1 s11 H11 [-> Hy]. destruct y as [[]|]; [|by apply gang_ok_ret..].
  specialize (Hy eq_refl). apply gang_ok_call. intros s12 H12. split; [done|]. intros loan m1 s13 H13 ->.
  destruct loan; cbn [negb]; [|by apply gang_ok_ret].
  assert (key ∈ m_keys m) as Hkey by (rewrite <-Hk; by apply (kn_key _ _ _ _ _ Hkn)).
  apply gang_ok_call. intros s14 H14. assert (le s s14) as Hle by chain. split.
  { assert (known s14 m G b i) as Hkn' by by eapply known_mono. split; [done|].
    exists (gp_name G), i, b. split_and!; [by eapply known_at|done|done|by eapply elected_mono|].
    intros j b' (G' & HG' & Hb') Hj. rewrite (kn_group _ _ _ _ _ Hkn') in HG'. injection HG' as <-.
    destruct (in_place_mono s11 s14 _ _ _ _ ltac:(chain) Hy j b') as (h & Hh & Hs); [by apply numbered_elem|done|].
    exists h. split; [|done]. intros ->. apply Hh. by left. }
  intros moved m1 s15 H15 ->. destruct moved as [moved|]; [|by apply gang_ok_ret].
  apply gang_ok_call. intros s16 H16. split; [done|]. intros same m1 s17 H17 ->. destruct same.
  - apply gang_ok_call. intros s18 H18. split; [apply lookup_insert_eq|]. intros [] m1 s19 H19 ->. by apply gang_ok_ret.
  - apply gang_ok_call. intros s18 H18. split; [done|]. intros [] m1 s19 H19 ->. by apply gang_ok_ret.
Qed.

(** ** Looking at siblings *)

Lemma member_state_ok b slots m s :
  ok (member_state b slots) m s (λ x m' s', m' = m ∧ ∀ t, x = Got (Some t) → t = CLAIMED ∨ t = DONE → claimed s' b).
Proof.
  revert s. induction slots as [|t slots IH]; intros s; cbn [member_state]; [by apply gang_ok_ret|].
  apply gang_ok_call. intros s1 H1. split; [done|]. intros x m1 s2 H2 (-> & He & _).
  destruct x as [r|]; cbn [with_got]; [|by apply gang_ok_ret]. case_bool_decide as E; [|apply IH].
  apply gang_ok_ret. intros s3 H3. split; [done|]. intros t' [= <-] Ht. apply fmap_Some in E as (r' & -> & Hr).
  destruct (He Ht r' eq_refl) as [h Hh]. rewrite <-Hr in Hh. eapply claimed_mono; [done|]. by exists h.
Qed.

Definition told (s : gst) (l : list (nat * option Slot)) (j : nat) (b : Member) : Prop :=
  ∃ t, (j, t) ∈ l ∧ (t = Some CLAIMED ∨ t = Some DONE → claimed s b).

Lemma member_states_ok ms m s :
  ok (member_states ms) m s (λ x m' s', m' = m ∧ ∀ l, x = Got l → ∀ j b, (j, b) ∈ ms → told s' l j b).
Proof.
  revert s. induction ms as [|[i b] ms IH]; intros s; cbn [member_states].
  { apply gang_ok_ret. intros s' _. split; [done|]. intros l _ j b Hin. by apply elem_of_nil in Hin. }
  eapply gang_ok_bind; [apply member_state_ok|]. intros x m1 s1 H1 [-> Hx]. destruct x as [t|]; cbn [with_got]; [|by apply gang_ok_ret].
  eapply gang_ok_bind; [apply IH|]. intros r m2 s2 H2 [-> Hr]. destruct r as [l|]; cbn [with_got]; [|by apply gang_ok_ret].
  apply gang_ok_ret. intros s3 H3. split; [done|]. intros l' [= <-] j b' [[= -> ->]|Hin]%elem_of_cons.
  - exists t. split; [by left|]. intros Ht. eapply (claimed_mono s1); [chain|]. destruct t as [t|]; [|by destruct Ht].
    apply (Hx t eq_refl). naive_solver.
  - destruct (Hr l eq_refl j b' Hin) as (t' & Ht' & Hc). exists t'. split; [by right|]. intros Ht. eapply claimed_mono; [done|auto].
Qed.

Lemma sibling_states_ok G i m s :
  ok (sibling_states G i) m s (λ x m' s', m' = m ∧ ∀ l, x = Got l → ∀ j b, gp_members G !! j = Some b → j ≠ i → told s' l j b).
Proof.
  unfold sibling_states. eapply gang_ok_bind; [apply member_states_ok|]. intros x m1 s1 H1 [-> Hx]. destruct x as [l|]; cbn [with_got]; [|by apply gang_ok_ret].
  apply gang_ok_ret. intros s2 H2. split; [done|]. intros l' [= <-] j b Hb%numbered_elem Hj.
  destruct (Hx l eq_refl j b Hb) as (t & Ht & Hc). exists t. split; [by apply list_elem_of_filter|]. intros Hd. eapply claimed_mono; [done|auto].
Qed.

Lemma teardown_mark_ok g m s : ok (_gang_teardown_mark g) m s (λ _ m' _, m' = m).
Proof.
  unfold _gang_teardown_mark. apply gang_ok_call. intros s1 H1. split; [done|]. intros x m1 s2 H2 [-> _].
  destruct x as [[G|]|]; [|by apply gang_ok_ret..]. apply gang_ok_call. intros s3 H3. split; [done|]. intros y m1 s4 H4 ->. by apply gang_ok_ret.
Qed.
Definition prepared (s : gst) (key : string) (item : QRow) (p : Prepared) : Prop :=
  ∀ G b d, p = Ready_to_elect G b d →
    g_groups s !! gp_name G = Some G ∧ dc_group d = gp_name G ∧ gp_members G !! Z.to_nat (dc_index d) = Some b
    ∧ mb_key b = key ∧ mb_published b = qr_published item.

Lemma prepare_ok key item m s :
  ok (_prepare_claim_gang key item) m s (λ x m' s', m' = m ∧ prepared s' key item x).
Proof.
  assert (∀ o s, ok (mret (Not_prepared o)) m s (λ x m' s', m' = m ∧ prepared s' key item x)) as Hno by by intros; apply gang_ok_ret.
  unfold _prepare_claim_gang. destruct (declaration _) as [[d|]|]; [|by apply Hno..].
  apply gang_ok_call. intros s1 H1. split; [done|]. intros x m1 s2 H2 ->. destruct x as [sealed|]; [|by apply Hno].
  destruct (negb _); [by apply Hno|].
  apply gang_ok_call. intros s3 H3. split; [done|]. intros x m1 s4 H4 [-> HG]. destruct x as [[G|]|]; [|by apply Hno..].
  destruct (HG G eq_refl) as [HG' Hn]. destruct (member G key (qr_published item) d) as [b| |] eqn:Em; [|by apply Hno..].
  apply member_inv in Em as (Hb & Hk & Hp).
  eapply gang_ok_bind; [apply sibling_states_ok|]. intros x m1 s5 H5 [-> _]. destruct x as [states|]; [|by apply Hno].
  eapply (gang_ok_bind (A := bool) _ _ _ _ (same m)).
  { destruct (existsb _ _); [apply teardown_mark_ok|by apply gang_ok_ret]. }
  intros _ m1 s6 H6 ->. apply gang_ok_call. intros s7 H7. split; [done|]. intros x m1 s8 H8 ->. destruct x as [[]|]; [by apply Hno| |by apply Hno].
  apply gang_ok_call. intros s9 H9. split; [done|]. intros [] m1 s10 H10 ->; [|by apply Hno]. apply gang_ok_ret. intros s11 H11. split; [done|].
  intros G' b' d' [= <- <- <-]. split_and!; [|done..]. rewrite Hn. eapply groups_mono; [|exact HG']. chain.
Qed.

Lemma claim_pass_ok host key item s : ok (claim_pass host key item) idle_mode s (λ _ m' _, released m').
Proof.
  unfold claim_pass. apply gang_ok_call. intros s1 H1. split; [done|]. intros b m1 s2 H2 [-> _].
  destruct b; cbn [negb]; [|by apply gang_ok_ret].
  eapply gang_ok_bind; [apply prepare_ok|]. intros p m1 s3 H3 [-> Hp]. set (m := lock_key key idle_mode).
  assert (key ∈ m_keys m) as Hkey by (cbn; set_solver).
  eapply (gang_ok_bind _ _ _ _ (λ _ m' _, m_keys m' = m_keys m)).
  - destruct p as [G b d|o]; [|by apply gang_ok_ret]. destruct (Hp G b d eq_refl) as (HG & Hd & Hb & Hk & Hq).
    apply gang_ok_call. intros s4 H4. split; [done|]. intros [] m2 s5 H5 ->.
    assert (known s5 m G b (Z.to_nat (dc_index d))) as Hkn by (split; [eapply groups_mono; [|exact HG]; chain|done|by rewrite Hk]).
    eapply gang_ok_bind; [by apply arbitrate_ok|]. intros here m2 s6 H6 [-> Hhere].
    apply gang_ok_call. intros s7 H7. split; [done|]. intros [] m3 s8 H8 ->.
    destruct here; [|by apply gang_ok_ret]. apply commit_ok; [|done|done|].
    + eapply known_mono; [|exact Hkn]. chain.
    + eapply elected_mono; [|by apply Hhere]. chain.
  - intros o m2 s4 H4 Hk. apply gang_ok_call. intros s5 H5. split; [by cbn; rewrite Hk|]. intros [] m3 s6 H6 ->. apply gang_ok_ret. intros s7 H7.
    unfold released. cbn in *. rewrite Hk. set_solver.
Qed.

(** ** The start barrier *)

Lemma barrier_loop_ok n G i m s :
  g_groups s !! gp_name G = Some G → released m → ok (barrier_loop n G i) m s (λ _ m' _, released m').
Proof.
  revert m s. induction n as [|n IH]; intros m s HG Hm; cbn [barrier_loop]; [by apply gang_ok_ret|].
  apply gang_ok_call. intros s1 H1. split; [done|]. intros w m1 s2 H2 ->. destruct w; [by apply gang_ok_ret|].
  apply gang_ok_call. intros s3 H3. split; [done|]. intros x m1 s4 H4 ->. destruct x as [[]|]; [by apply gang_ok_ret| |by apply gang_ok_ret].
  eapply gang_ok_bind; [apply sibling_states_ok|]. intros x m1 s5 H5 [-> Hx].
  destruct x as [states|]; [|by apply gang_ok_ret].
  destruct (existsb _ _).
  { eapply gang_ok_bind; [apply teardown_mark_ok|]. intros _ m2 s6 H6 ->. apply IH; [|done]. eapply groups_mono; [|exact HG]. chain. }
  destruct (forallb _ _) eqn:E.
  - apply gang_ok_call. intros s6 H6. assert (g_groups s6 !! gp_name G = Some G) as HG6 by (eapply groups_mono; [|exact HG]; chain).
    split; [|intros [] m2 s7 H7 ->; by apply gang_ok_ret]. split; [by exists G|]. intros j b (G' & HG' & Hb) Hj. rewrite HG6 in HG'. injection HG' as <-.
    destruct (Hx states eq_refl j b Hb Hj) as (t & Ht & Hc). eapply claimed_mono; [done|]. apply Hc.
    rewrite forallb_forall in E. specialize (E (j, t)). rewrite <-list_elem_of_In, orb_true_iff, !bool_decide_eq_true in E. by apply E.
  - apply gang_ok_call. intros s6 H6. split; [done|]. intros expired m2 s7 H7 ->. destruct expired.
    + eapply gang_ok_bind; [apply teardown_mark_ok|]. intros _ m2 s8 H8 ->. by apply gang_ok_ret.
    + apply IH; [|done]. eapply groups_mono; [|exact HG]. chain.
Qed.

Lemma gang_start_barrier_ok n key item m s :
  released m → ok (_gang_start_barrier n key item) m s (λ _ m' _, released m').
Proof.
  intros Hm. unfold _gang_start_barrier. destruct (declaration _) as [[d|]|]; [|by apply gang_ok_ret..].
  apply gang_ok_call. intros s1 H1. split; [done|]. intros x m1 s2 H2 [-> HG]. destruct x as [[G|]|]; [|by apply gang_ok_ret..].
  destruct (HG G eq_refl) as [HG' Hn]. destruct (member _ _ _ _); [|by apply gang_ok_ret..]. apply barrier_loop_ok; [by rewrite Hn|done].
Qed.

(** ** Registration *)

Lemma still_queued_ok g size ms m s : ok (still_queued g size ms) m s (same m).
Proof.
  revert s. induction ms as [|[i b] ms IH]; intros s; cbn [still_queued]; [by apply gang_ok_ret|].
  apply gang_ok_call. intros s1 H1. split; [done|]. intros x m1 s2 H2 [-> _].
  destruct x as [[r|]|]; cbn [with_got]; [|by apply gang_ok_ret..]. destruct (_ && _); [apply IH|by apply gang_ok_ret].
Qed.

Lemma file_group_ok G m s : ok (file_group G) m s (same m).
Proof.
  unfold file_group. apply gang_ok_call. intros s1 H1. split; [done|]. intros x m1 s2 H2 [-> _].
  destruct x as [[G'|]|]; cbn [with_got]; [by apply gang_ok_ret| |by apply gang_ok_ret].
  eapply gang_ok_bind; [apply still_queued_ok|]. intros q m1 s3 H3 ->. destruct q as [[]|]; cbn [with_got]; [|by apply gang_ok_ret..].
  apply gang_ok_call. intros s4 H4. split; [done|]. intros l m2 s5 H5 ->. destruct l as [[]|]; cbn [with_got]; [by apply gang_ok_ret| |by apply gang_ok_ret].
  apply gang_ok_call. intros s6 H6. split; [done|]. intros y m2 s7 H7 [-> _]. destruct y; by apply gang_ok_ret.
Qed.

Lemma with_keys_ok {A} keys (body : proc (rd A)) m s :
  (∀ m s, ok body m s (same m)) → ok (with_keys keys body) m s (λ _ m' _, m_keys m' = m_keys m).
Proof.
  intros Hb. revert m s. induction keys as [|k keys IH]; intros m s; cbn [with_keys].
  { eapply gang_ok_weaken; [|apply Hb]. by intros x m' s' _ ->. }
  apply gang_ok_call. intros s1 H1. split; [done|]. intros b m1 s2 H2 [-> Hk]. destruct b; [|by apply gang_ok_ret].
  eapply gang_ok_bind; [apply IH|]. intros x m1 s3 H3 Ek. apply gang_ok_call. intros s4 H4.
  split; [cbn; rewrite Ek; cbn; set_solver|]. intros [] m2 s5 H5 ->. apply gang_ok_ret. intros s6 H6. specialize (Hk eq_refl).
  cbn. rewrite Ek. cbn. set_solver.
Qed.

Lemma publish_group_ok group rows skew wait s : ok (publish_group group rows skew wait) idle_mode s (λ _ m' _, released m').
Proof.
  unfold publish_group. destruct (group_record group rows skew wait) as [G|]; [|by apply gang_ok_ret].
  apply gang_ok_call. intros s1 H1. split; [done|]. intros x m1 s2 H2 [-> _]. destruct x as [[G'|]|]; [by apply gang_ok_ret| |by apply gang_ok_ret].
  eapply gang_ok_bind; [apply with_keys_ok, file_group_ok|]. intros r m1 s3 H3 Hlk. apply gang_ok_ret. by intros.
Qed.

(** ** Every handler, every state *)

Lemma gang_handler_ok c s : startable c s → ok (handler c) idle_mode s (λ _ m' _, released m').
Proof.
  destruct c; cbn [handler startable]; intros Hc.
  - apply publish_group_ok.
  - apply claim_pass_ok.
  - by apply gang_start_barrier_ok.
  - eapply gang_ok_bind; [apply teardown_mark_ok|]. intros b m1 s1 H1 ->. by apply gang_ok_ret.
Qed.

Lemma gang_step_sane x y : step broken x y → sane x.1 x.2 → sane y.1 y.2.
Proof.
  destruct 1; cbn; intros Hx; [by eapply gang_sane_call| |by apply gang_sane_kill|by eapply gang_sane_env].
  apply gang_sane_start; [done|by apply gang_handler_ok|done].
Qed.

Lemma gang_reachable_inv s : reachable broken s → Inv s.
Proof.
  intros [P H]. enough (∀ x y, rtc (step broken) x y → sane x.1 x.2 → sane y.1 y.2) as HI
    by (destruct (HI _ _ H); [apply gang_sane_empty|done]).
  clear. induction 1 as [|x y z Hs _ IH]; [done|]. intros Hx. by apply IH, (gang_step_sane x).
Qed.
End handlers.
