(* ===== verification/GangRuns.v ===== *)
(** * Scripted runs of gangs

    An interpreter for the handlers of [Gang] run one at a time: each handler
    to its end, with given answers where the model leaves them open, between
    publications of rows.  What it computes is reachable, [play_reachable]. *)
From S2P Require Import Prelude.
From S2P Require Import Watch.
From S2P Require Import Prog.
From S2P Require Import Gang.
From stdpp Require Import options.

Open Scope Z_scope.

(** The open answers of one handler: gates, the clock, the sealed
    declaration, and the elections whose read fails. *)
Record Answers := mkAnswers { an_gate : bool; an_now : Z; an_sealed : option Decl; an_bad : list (string * nat) }.

Definition answer (A : Answers) {X} (o : gop X) (a : nat) (s : gst) : option (X * gst) :=
  match o in gop X return option (X * gst) with
  | Gate => Some (an_gate A, s)
  | Held_keys => Some (Got [], s)
  | Clock => Some (an_now A, s)
  | Loan_pending _ _ => Some (Got false, s)
  | Sealed _ => Some (Got (an_sealed A), s)
  | Try_key k =>
      if bool_decide (g_keys s !! k = None) && bool_decide (qr_published <$> g_limbo s !! k = None)
      then Some (true, set_keys (<[k := a]> (g_keys s)) s) else Some (false, s)
  | Drop_key k => Some ((), set_keys (delete k (g_keys s)) s)
  | Enter_host h => if bool_decide (g_hosts s !! h = None) then Some ((), set_hosts (<[h := a]> (g_hosts s)) s) else None
  | Leave_host h => Some ((), set_hosts (delete h (g_hosts s)) s)
  | List_groups => Some ((map_to_list (g_groups s)).*1, s)
  | Read_group g => Some (read_group (g_groups s !! g), s)
  | Link_group G =>
      match g_groups s !! gp_name G with
      | Some _ => Some (Got false, s)
      | None => Some (Got true, set_groups (<[gp_name G := G]> (g_groups s)) s)
      end
  | Read_torn g => Some (Got (bool_decide (g ∈ g_torn s)), s)
  | Link_torn g => if bool_decide (g ∈ g_torn s) then Some (Got false, s) else Some (Got true, set_torn (g_torn s ∪ {[g]}) s)
  | Read_elect g i => if bool_decide ((g, i) ∈ an_bad A) then Some (Bad, s) else Some (Got (g_elect s !! (g, i)), s)
  | Link_elect g i e =>
      match g_elect s !! (g, i) with
      | Some _ => Some (Got false, s)
      | None => Some (Got true, set_elect (<[(g, i) := e]> (g_elect s)) s)
      end
  | Read_ready g i => Some (Got (g_ready s !! (g, i)), s)
  | Write_ready g i r => Some (Got (), set_ready (<[(g, i) := r]> (g_ready s)) (g_marks s ∪ {[(g, i, rd_host r, rd_at r)]}) s)
  | Read_slot t k => Some (Got (g_slots s !! (t, k)), s)
  | Rename_ready k h scanned =>
      Some (g_slots s !! (READY, k), match g_slots s !! (READY, k) with Some r => renamed k h scanned r s | None => s end)
  | Restore_ready k => Some ((), match g_slots s !! (CLAIMED, k) with Some r => restored k r s | None => s end)
  | Persist_claim k h =>
      Some ((), match g_slots s !! (CLAIMED, k) with
                | Some r => set_slots (<[(CLAIMED, k) := mkQRow (qr_published r) (qr_gang r) (Some h) (qr_gpu r)]> (g_slots s)) s
                | None => s
                end)
  | Launch g i => Some ((), add_launched (g, i) s)
  end.

Fixpoint exec (n : nat) (A : Answers) (a : nat) (p : proc out) (s : gst) : option gst :=
  match p, n with
  | Ret _, _ => Some s
  | Do o k, O => None
  | Do o k, S n => match answer A o a s with Some (x, s') => exec n A a (k x) s' | None => None end
  end.

(** A script: rows published, handlers run. *)
Inductive event := Publish (k : string) (r : QRow) | Handle (A : Answers) (c : client).

Definition event_step (e : event) (s : gst) : option gst :=
  match e with
  | Publish k r =>
      if bool_decide (g_keys s !! k = None) && bool_decide (qr_published <$> g_limbo s !! k = None)
         && bool_decide (g_published s !! (k, qr_published r) = None) && bool_decide (qr_host r = None)
      then Some (set_slots (<[(READY, k) := r]> (g_slots s)) (add_lost (covered s READY k) (add_published (k, qr_published r) (qr_gang r) s)))
      else None
  | Handle A c =>
      if match c with Claimant _ key item => bool_decide (g_published s !! (key, qr_published item) = Some (qr_gang item)) | _ => true end
      then exec 1000 A 0%nat (handler c) s else None
  end.

Fixpoint script (es : list event) (s : gst) : option gst :=
  match es with
  | [] => Some s
  | e :: es => event_step e s ≫= script es
  end.

Definition readable (es : list event) : bool :=
  forallb (λ e, match e with Publish _ _ => true | Handle A _ => bool_decide (an_bad A = []) end) es.

Section runs.
Context (broken : bool).

Lemma fmap_none {A B} (f : A → B) (x : option A) : f <$> x = None → x = None.
Proof. by destruct x. Qed.

Lemma answer_step A X (o : gop X) a s x s' :
  (an_bad A = [] ∨ broken = true) → answer A o a s = Some (x, s') → gop_step broken o a s x s'.
Proof.
  intros Hb. destruct o; cbn -[links reads]; intros H; repeat case_match; try case_bool_decide; simplify_eq; try done;
    try (split; [|done]; by left); try (by left); try (by right).
  - left. cbn in *. repeat match goal with H : bool_decide _ = true |- _ => apply bool_decide_eq_true in H end.
    split_and!; [done|done| |done]. by eapply fmap_none.
  - split; [|done]. intros g. rewrite list_elem_of_fmap. split.
    + intros ([g' G] & -> & Hin%elem_of_map_to_list). by exists G.
    + intros [G HG]. exists (g, G). split; [done|]. by apply elem_of_map_to_list.
  - exfalso. match goal with H : ¬ is_Some _ |- _ => apply H end. by eexists.
  - split; [|done]. right. split; [|done]. destruct Hb as [Hb|]; [|done]. match goal with H : _ ∈ an_bad A |- _ => rewrite Hb in H; by apply elem_of_nil in H end.
  - exfalso. match goal with H : ¬ is_Some _ |- _ => apply H end. by eexists.
Qed.

Lemma gang_put_same a p (P : actors) : put a p P a = p.
Proof. unfold put. by rewrite decide_True. Qed.

Lemma gang_put_other a b p (P : actors) : b ≠ a → put a p P b = P b.
Proof. intros. unfold put. by rewrite decide_False. Qed.

(** Nobody is in the middle of a handler. *)
Definition idle (P : actors) : Prop := ∀ a, P a = None ∨ ∃ x, P a = Some (Ret x).
Definition calm (s : gst) : Prop := ∃ P, rtc (step broken) (empty, λ _, None) (s, P) ∧ idle P.

Lemma exec_steps A n a p s s' P :
  (an_bad A = [] ∨ broken = true) → exec n A a p s = Some s' → P a = Some p → (∀ b, b ≠ a → P b = None ∨ ∃ x, P b = Some (Ret x)) →
  ∃ P', rtc (step broken) (s, P) (s', P') ∧ idle P'.
Proof.
  intros Hb. revert p s P. induction n as [|n IH]; intros [x|X o k] s P He HP Ho; cbn in He; try done.
  1, 2: injection He as <-; exists P; split; [apply rtc_refl|]; intros b; destruct (decide (b = a)) as [->|]; [right; by exists x|auto].
  destruct (answer A o a s) as [[x s1]|] eqn:E; [|done]. cbn in He.
  destruct (IH (k x) s1 (put a (Some (k x)) P) He (gang_put_same _ _ _)) as (P' & H1 & H2).
  { intros b Hne. rewrite gang_put_other by done. auto. }
  exists P'. split; [|done]. eapply rtc_l; [|exact H1]. eapply step_call; [exact HP|]. by eapply answer_step.
Qed.

Lemma event_calm e s s' : (readable [e] = true ∨ broken = true) → event_step e s = Some s' → calm s → calm s'.
Proof.
  intros Hb He (P & HP & Hi). destruct e as [k r|A c]; cbn in He.
  - case_match eqn:E; [|done]. injection He as <-. rewrite !andb_true_iff, !bool_decide_eq_true in E. destruct E as [[[E1 E2] E3] E4].
    exists P. split; [|done]. eapply steps_app; [exact HP|]. eapply rtc_l; [|apply rtc_refl]. apply step_env, Env_publish; [|done|done]. split; [done|by eapply fmap_none].
  - case_match eqn:E; [|done]. assert (an_bad A = [] ∨ broken = true) as Hb'.
    { destruct Hb as [Hb|]; [left|by right]. cbn in Hb. rewrite andb_true_r in Hb. by apply bool_decide_eq_true in Hb. }
    destruct (exec_steps A 1000 0%nat (handler c) s s' (put 0%nat (Some (handler c)) P) Hb' He (gang_put_same _ _ _)) as (P' & H1 & H2).
    { intros b Hne. rewrite gang_put_other by done. apply Hi. }
    exists P'. split; [|done]. eapply steps_app; [exact HP|]. eapply rtc_l; [|exact H1]. apply step_start; [apply Hi|].
    destruct c; cbn; try done. by apply bool_decide_eq_true in E.
Qed.

Lemma script_calm es s s' : (readable es = true ∨ broken = true) → script es s = Some s' → calm s → calm s'.
Proof.
  revert s. induction es as [|e es IH]; intros s Hb He Hs; cbn in He; [by injection He as <-|].
  destruct (event_step e s) as [s1|] eqn:E; [|done]. cbn in He. unfold readable in Hb. cbn in Hb. rewrite andb_true_iff in Hb.
  eapply IH; [|exact He|]; [naive_solver|]. eapply event_calm; [|exact E|done]. cbn. rewrite andb_true_r. naive_solver.
Qed.

(** What a script computes is reachable. *)
Lemma script_reachable es s : (readable es = true ∨ broken = true) → script es empty = Some s → reachable broken s.
Proof.
  intros Hb Hs. destruct (script_calm es empty s Hb Hs) as (P & HP & _); [|by exists P].
  exists (λ _, None). split; [apply rtc_refl|]. intros a. by left.
Qed.
End runs.

(** ** Two members *)

Definition gang32 : string := "0123456789abcdef0123456789abcdef".
Definition decl_of (i : Z) : Decl := mkDecl gang32 2 i.
Definition row_of (i : Z) : QRow := mkQRow (100 + i) (Some (decl_of i)) None (Some 0).
(** The first member needs a GPU. *)
Definition gpu_row_of (i : Z) : QRow := mkQRow (100 + i) (Some (decl_of i)) None (Some (1 - i)).
Definition first_key : string := "00112233445566778899aabbccddeeff00112233445566778899aabbccddeeff".
Definition second_key : string := "ffeeddccbbaa99887766554433221100ffeeddccbbaa99887766554433221100".
Definition key_of (i : Z) : string := if bool_decide (i = 0) then first_key else second_key.
Definition answers (g : bool) (i : Z) (bad : list (string * nat)) : Answers := mkAnswers g 7 (Some (decl_of i)) bad.

Definition registration (row : Z → QRow) : list event :=
  [Publish (key_of 0) (row 0); Publish (key_of 1) (row 1);
   Handle (answers true 0 []) (Registrar gang32 [(key_of 0, row 0, 5); (key_of 1, row 1, 6)] second None)].
Definition pass (row : Z → QRow) (host : string) (i : Z) (bad : list (string * nat)) : event :=
  Handle (answers true i bad) (Claimant host (key_of i) (row i)).
Definition start (i : Z) : event := Handle (answers false i []) (Starter 3 (key_of i) (row_of i)).

(** Both members elect, and claim; the first starts. *)
Definition two_hosts : list event :=
  registration row_of ++ [pass row_of "left" 0 []; pass row_of "right" 1 []; pass row_of "left" 0 []; start 0].
(** The census of the second pass does not see the first election. *)
Definition one_host : list event := registration row_of ++ [pass row_of "left" 0 []; pass row_of "left" 1 [(gang32, 0%nat)]].
(** The runtime gate is latched while both members pass, twice. *)
Definition latched_host : list event :=
  registration gpu_row_of ++ [pass gpu_row_of "left" 0 []; pass gpu_row_of "left" 1 []; pass gpu_row_of "left" 0 []; pass gpu_row_of "left" 1 []].
