(* ===== verification/GangSpec.v ===== *)
(** * What gang reservation guarantees

    Theorems about every state that registrars, claimants, starters and
    tearers reach, interleaved operation by operation and killed anywhere, with
    the rest of the queue moving rows; registration; and the runs in which an
    unreadable election, or a latched GPU runtime gate, gives one host to two
    members, which then never start. *)
From S2P Require Import Prelude.
From S2P Require Import Watch.
From S2P Require Import Prog.
From S2P Require Import Gang.
From S2P Require Import GangLogic.
From S2P Require Import GangHandlers.
From S2P Require Import GangRuns.
From stdpp Require Import options.

Open Scope Z_scope.

(** ** Members and hosts *)

(** The claim of a member of a fine gang is by its elected host; so is what
    makes a sibling stand. *)
Lemma claim_elected s g i b h :
  GInv s → fine s g → member_at s g i b → (mb_key b, mb_published b, h) ∈ g_claims s → elected s g i h.
Proof.
  intros HG Hf Hb Hc. destruct (fine_lost _ _ Hf i b Hb) as [_ Hs].
  apply (i_claim _ HG) in Hc as [|(g' & i' & b' & Hb' & Hk & _ & He & _)]; [done|].
  by destruct (fine_keys _ _ Hf i b g' i' b' Hb Hb' Hk) as [-> ->].
Qed.

Lemma stands_elected s g j c h : GInv s → fine s g → member_at s g j c → stands s g j c h → elected s g j h.
Proof. intros HG Hf Hc [H|[t H]]; [by eapply claim_elected|by eapply (i_mark _ HG)]. Qed.

Lemma elected_once s g i h h' : elected s g i h → elected s g i h' → h = h'.
Proof. intros (e & He & <-) (e' & He' & <-). congruence. Qed.

(** C12: no two members of a gang run on one host.  Whatever reads fail and
    whatever the census of a pass leaves out, a claim of a member of a gang
    that has not been torn down, lost no generation and shares no key is by the
    host its election names, and claims of two members are by different hosts:
    also where two of its elections name one host, which the census of an
    unreadable file and that of a latched GPU runtime gate allow. *)
Theorem gang_members_apart broken s g i j b c h h' :
  reachable broken s → fine s g → member_at s g i b → member_at s g j c → i ≠ j →
  (mb_key b, mb_published b, h) ∈ g_claims s → (mb_key c, mb_published c, h') ∈ g_claims s →
  elected s g i h ∧ elected s g j h' ∧ h ≠ h'.
Proof.
  intros [HG _]%gang_reachable_inv Hf Hb Hc Hij Hh Hh'.
  pose proof (claim_elected _ _ _ _ _ HG Hf Hb Hh) as He. pose proof (claim_elected _ _ _ _ _ HG Hf Hc Hh') as He'.
  split_and!; [done|done|]. destruct (fine_lost _ _ Hf i b Hb) as [_ Hs].
  apply (i_claim _ HG) in Hh as [|(g' & i' & b' & Hb' & Hk & _ & _ & Ha)]; [done|].
  destruct (fine_keys _ _ Hf i b g' i' b' Hb Hb' Hk) as [-> ->].
  destruct (Ha j c Hc ltac:(done)) as (h1 & Hne & Hst). pose proof (stands_elected _ _ _ _ _ HG Hf Hc Hst) as He1.
  rewrite (elected_once _ _ _ _ _ He' He1). done.
Qed.

(** A gang alone on its keys. *)
Lemma alone_fine s g G :
  g_groups s = {[g := G]} → NoDup (mb_key <$> gp_members G) → g_torn s = ∅ → g_lost s = ∅ → g_strays s = ∅ → fine s g.
Proof.
  intros Hg Hk Ht Hl Hs. split.
  - rewrite Ht. set_solver.
  - intros i m _. rewrite Hl, Hs. set_solver.
  - intros i m g' j m' (G1 & H1 & Hm) (G2 & H2 & Hm') E. rewrite Hg in H1, H2.
    apply lookup_singleton_Some in H1 as [_ <-], H2 as [<- <-]. split; [done|].
    eapply NoDup_lookup; [exact Hk| |]; rewrite list_lookup_fmap; [rewrite Hm'|rewrite Hm]; cbn; by rewrite ?E.
Qed.

(** The state after a script. *)
Definition after (es : list event) : gst := default empty (script es empty).

Definition plays (es : list event) : bool := match script es empty with Some _ => true | None => false end.

Lemma after_reachable broken es : (readable es = true ∨ broken = true) → plays es = true → reachable broken (after es).
Proof.
  unfold plays, after. intros Hb. destruct (script es empty) as [s|] eqn:E; [|done]. intros _. by eapply script_reachable.
Qed.

Definition pair_members : list Member := [mkMember first_key 100 5; mkMember second_key 101 6].
Definition pair_group : Group := mkGroup gang32 pair_members 6 second None.

Lemma gang_members_apart_witness :
  elected (after two_hosts) gang32 0 "left" ∧ elected (after two_hosts) gang32 1 "right" ∧ "left"%string ≠ "right"%string.
Proof.
  apply (gang_members_apart false (after two_hosts) gang32 0 1 (mkMember first_key 100 5) (mkMember second_key 101 6)).
  - apply after_reachable; [left; vm_compute; reflexivity|]. vm_compute. reflexivity.
  - apply (alone_fine _ _ pair_group); [vm_compute; reflexivity| |vm_compute; reflexivity..].
    apply (bool_decide_unpack _). vm_compute. exact I.
  - exists pair_group. split; [vm_compute; reflexivity|reflexivity].
  - exists pair_group. split; [vm_compute; reflexivity|reflexivity].
  - discriminate.
  - apply (bool_decide_unpack _). vm_compute. exact I.
  - apply (bool_decide_unpack _). vm_compute. exact I.
Defined.

(** C13: a gang starts whole or not at all.  Whatever reads fail, when the
    start barrier of a member lets it launch, the generation of every sibling
    was claimed; and a claim of the generation a claimant found is by the host
    elected for that member, beside siblings that each were claimed or had
    written a ready mark from the host elected for them. *)
Theorem gang_starts_whole broken s :
  reachable broken s →
  (∀ g i, (g, i) ∈ g_launched s → ∀ j b, member_at s g j b → j ≠ i → claimed s b)
  ∧ ∀ k p h, (k, p, h) ∈ g_claims s → (k, p) ∉ g_strays s →
      ∃ g i b, member_at s g i b ∧ mb_key b = k ∧ mb_published b = p ∧ elected s g i h
      ∧ ∀ j c, member_at s g j c → j ≠ i → claimed s c ∨ ∃ h' t, (g, j, h', t) ∈ g_marks s ∧ elected s g j h'.
Proof.
  intros [HG _]%gang_reachable_inv. split.
  - intros g i Hin. by apply (i_launched _ HG).
  - intros k p h Hc Hs. apply (i_claim _ HG) in Hc as [|(g & i & b & Hb & Hk & Hp & He & Ha)]; [done|].
    exists g, i, b. split_and!; [done..|]. intros j c Hm Hj. destruct (Ha j c Hm Hj) as (h' & _ & [Hc|[t Hin]]); [left; by exists h'|right].
    exists h', t. split; [done|]. by eapply (i_mark _ HG).
Qed.

Lemma gang_starts_whole_witness : claimed (after two_hosts) (mkMember second_key 101 6).
Proof.
  refine (proj1 (gang_starts_whole false (after two_hosts) _) gang32 0%nat _ 1%nat _ _ _).
  - apply after_reachable; [left; vm_compute; reflexivity|]. vm_compute. reflexivity.
  - apply (bool_decide_unpack _). vm_compute. exact I.
  - exists pair_group. split; [vm_compute; reflexivity|reflexivity].
  - discriminate.
Defined.

(** What the census does with an election it cannot read.  The groups of a
    census are read one by one and a group whose election cannot be read is
    left out, so a claim pass may find no election of its host and file a
    second one: two members of a gang that nothing is wrong with are elected on
    one host. *)
Theorem unreadable_election_doubles_host :
  ∃ s, reachable true s ∧ fine s gang32 ∧ elected s gang32 0 "left" ∧ elected s gang32 1 "left".
Proof.
  exists (after one_host). split_and!.
  - apply after_reachable; [by right|]. vm_compute. reflexivity.
  - apply (alone_fine _ _ pair_group); [vm_compute; reflexivity| |vm_compute; reflexivity..].
    apply (bool_decide_unpack _). vm_compute. exact I.
  - eexists. split; [vm_compute; reflexivity|reflexivity].
  - eexists. split; [vm_compute; reflexivity|reflexivity].
Qed.

(** What the census does while the GPU runtime gate is latched.  The
    elections of this host's queued GPU members are left out of it, so with
    every file readable a sibling that needs no GPU is elected on the host of
    one that does; then neither passes the test for a complete set, and a
    second pass of both claims nothing. *)
Theorem latched_gate_doubles_host :
  ∃ s, reachable false s ∧ fine s gang32 ∧ elected s gang32 0 "left" ∧ elected s gang32 1 "left" ∧ g_claims s = ∅.
Proof.
  exists (after latched_host). split_and!.
  - apply after_reachable; [left; vm_compute; reflexivity|]. vm_compute. reflexivity.
  - apply (alone_fine _ _ pair_group); [vm_compute; reflexivity| |vm_compute; reflexivity..].
    apply (bool_decide_unpack _). vm_compute. exact I.
  - eexists. split; [vm_compute; reflexivity|reflexivity].
  - eexists. split; [vm_compute; reflexivity|reflexivity].
  - vm_compute. reflexivity.
Qed.

(** ** Registration *)

Lemma group_record_inv group rows skew wait G :
  group_record group rows skew wait = Some G →
  ∃ entries, mapM (entry_of group (length rows)) rows = Some entries ∧ gp_name G = group
    ∧ gp_members G = (merge_sort by_index entries).*2 ∧ (merge_sort by_index entries).*1 = seq 0 (length rows).
Proof.
  unfold group_record. intros H. apply bind_Some in H as (entries & He & H). exists entries.
  destruct (_ && _) eqn:E; [|done]. rewrite !andb_true_iff, !bool_decide_eq_true in E. destruct E as [_ Es].
  destruct ((merge_sort by_index entries).*2) as [|m ms]; [done|]. by injection H as <-.
Qed.

Lemma seq_fst_lookup {A} (l : list (nat * A)) n j i x : l.*1 = seq 0 n → l !! j = Some (i, x) → i = j.
Proof.
  intros Hs Hj. assert (l.*1 !! j = Some i) as H by (rewrite list_lookup_fmap, Hj; done).
  rewrite Hs in H. apply lookup_seq in H as [-> _]. done.
Qed.

(** A registered gang is the rows it was registered with.  Its record has
    one member per row, and each row -- with a declaration of this group, its
    size and an index -- is found again as the member of its index, under its
    key and generation. *)
Theorem group_record_members group rows skew wait G :
  group_record group rows skew wait = Some G →
  gp_name G = group ∧ length (gp_members G) = length rows
  ∧ ∀ key r priority, (key, r, priority) ∈ rows →
      ∃ d, declaration (qr_gang r) = Got (Some d) ∧ dc_group d = group ∧ dc_size d = Z.of_nat (length rows)
      ∧ member G key (qr_published r) d = Entry (mkMember key (qr_published r) priority).
Proof.
  intros (entries & He & Hn & Hm & Hs)%group_record_inv. split_and!; [done| |].
  - rewrite Hm, length_fmap, <-(length_fmap fst), Hs. apply length_seq.
  - intros key r priority Hin. apply mapM_Some in He. apply list_elem_of_lookup in Hin as [n Hrow].
    destruct (Forall2_lookup_l _ _ _ _ _ He Hrow) as ([i m] & Hent & E). unfold entry_of in E.
    destruct (declaration (qr_gang r)) as [[d|]|] eqn:Ed; [|done..]. case_bool_decide as Eg; [|done].
    case_bool_decide as Ez; [|done]. injection E as <- <-. exists d. split_and!; [done..|].
    assert ((Z.to_nat (dc_index d), mkMember key (qr_published r) priority) ∈ merge_sort by_index entries) as Hmem.
    { rewrite merge_sort_Permutation. by eapply list_elem_of_lookup_2. }
    apply list_elem_of_lookup in Hmem as [j Hj]. pose proof (seq_fst_lookup _ _ _ _ _ Hs Hj) as E.
    unfold member. rewrite Hm, list_lookup_fmap, E, Hj. cbn. by rewrite !bool_decide_true.
Qed.

Lemma group_record_members_witness : length (gp_members pair_group) = 2%nat.
Proof.
  apply (group_record_members gang32 [(key_of 0, row_of 0, 5); (key_of 1, row_of 1, 6)] second None). vm_compute. reflexivity.
Defined.
