(* ===== verification/Partition.v ===== *)
(** * The partitioner ([decomposition.py])

    A request's roster and batch policy, their checks, and the batcher that
    cuts the roster into the batches of a plan.  Durations are rationals; a
    sum, a difference, a product or a quotient of the code is rounded by [rnd],
    which stands for the rounding of its floats. *)
From S2P Require Import Prelude.
From S2P Require Import CpuLearning.
From Stdlib Require Import QArith.QArith.
From Stdlib Require Import Strings.Ascii.
From stdpp Require Import options.

(** ** Requests *)

Record Task := mkTask { tk_id : string; tk_payload : string; tk_residency : string; tk_seconds : Q; tk_evidence : string; tk_output : string }.
Record Residency := mkResidency { rs_key : string; rs_setup : Q; rs_evidence : string }.
Record Policy := mkPolicy { po_residencies : list Residency; po_fraction : Q; po_wall : Q }.

(** Why a request or a partition is refused. *)
Inductive refusal :=
  | Malformed | Repeated | Unpriced
  | Setup_past_wall | Band_empty | Task_past_wall | No_cover | Defect | No_setup.
#[export] Instance refusal_eq_dec : EqDecision refusal.
Proof. solve_decision. Defined.

Definition answer (A : Type) : Type := refusal + A.

(** [_text] of the action contract: not empty, no control character. *)
Definition _text (s : string) : bool := negb (bool_decide (s = EmptyString)) && all_chars (λ a, bool_decide (32 ≤ N_of_ascii a)%N) s.

(** [validate_roster]. *)
Fixpoint validate_tasks (ts : list Task) (ids outputs : list string) : answer unit :=
  match ts with
  | [] => inr ()
  | t :: ts =>
      if negb (is_identifier (tk_id t) && is_identifier (tk_output t)) then inl Malformed
      else if bool_decide (tk_id t ∈ ids) then inl Repeated
      else if bool_decide (tk_output t ∈ outputs) then inl Repeated
      else if negb (is_identifier (tk_residency t)) then inl Malformed
      else if negb (negb (Qle_bool (tk_seconds t) 0)) then inl Malformed
      else if negb (_text (tk_evidence t)) then inl Malformed
      else validate_tasks ts (tk_id t :: ids) (tk_output t :: outputs)
  end.
Definition validate_roster (ts : list Task) : answer unit :=
  match ts with [] => inl Malformed | _ => validate_tasks ts [] [] end.

(** [validate_batch_policy]. *)
Fixpoint validate_residencies (rs : list Residency) (seen : list string) : answer unit :=
  match rs with
  | [] => inr ()
  | r :: rs =>
      if negb (is_identifier (rs_key r)) then inl Malformed
      else if bool_decide (rs_key r ∈ seen) then inl Repeated
      else if negb (Qle_bool 0 (rs_setup r)) then inl Malformed
      else if negb (_text (rs_evidence r)) then inl Malformed
      else validate_residencies rs (rs_key r :: seen)
  end.
Definition validate_batch_policy (p : Policy) : answer unit :=
  match po_residencies p with
  | [] => inl Malformed
  | rs =>
      match validate_residencies rs [] with
      | inl e => inl e
      | inr _ =>
          if negb (negb (Qle_bool (po_fraction p) 0) && Qle_bool (po_fraction p) 1) then inl Malformed
          else if Qle_bool (po_wall p) 0 then inl Malformed else inr ()
      end
  end.

(** [validate_logical_request], the roster and the policy together. *)
Definition priced (p : Policy) : list string := rs_key <$> po_residencies p.
Definition validate_logical_request (ts : list Task) (p : Policy) : answer unit :=
  match validate_roster ts, validate_batch_policy p with
  | inl e, _ => inl e
  | inr _, inl e => inl e
  | inr _, inr _ => if forallb (λ t, bool_decide (tk_residency t ∈ priced p)) ts then inr () else inl Unpriced
  end.

(** ** Runs *)

(** [_runs]: maximal contiguous runs of one residency, as half-open ranges. *)
Fixpoint runs_from (ts : list Task) (start index : nat) (key : string) : list (nat * nat * string) :=
  match ts with
  | [] => [(start, index, key)]
  | t :: ts =>
      if bool_decide (tk_residency t = key) then runs_from ts start (S index) key
      else (start, index, key) :: runs_from ts index (S index) (tk_residency t)
  end.
Definition _runs (ts : list Task) : list (nat * nat * string) :=
  match ts with [] => [] | t :: ts => runs_from ts 0 1 (tk_residency t) end.

(** ** One run *)

Section partitioner.
Context (rnd : Q → Q).

(** The prefix sums of the estimates. *)
Fixpoint prefix_from (acc : Q) (ts : list Task) : list Q :=
  acc :: match ts with [] => [] | t :: ts => prefix_from (rnd (acc + tk_seconds t)) ts end.
Definition prefix (ts : list Task) : list Q := prefix_from 0 ts.
Definition work (P : list Q) (s f : nat) : Q := rnd (default 0%Q (P !! f) - default 0%Q (P !! s)).

(** The limits of a batch's work. *)
Definition max_work (wall setup : Q) : Q := rnd (wall - setup).
Definition min_work (fraction setup : Q) : Q := rnd (rnd (setup * rnd (1 - fraction)) / fraction).

(** [window]'s two bisections. *)
Fixpoint bisect_first (n : nat) (ok : nat → bool) (low high first : nat) : nat :=
  match n with
  | O => first
  | S n =>
      if (low <? high)%nat then
        let middle := ((low + high) / 2)%nat in
        if ok middle then bisect_first n ok low middle middle else bisect_first n ok (S middle) high first
      else first
  end.
Fixpoint bisect_last (n : nat) (ok : nat → bool) (low high last : nat) : nat :=
  match n with
  | O => last
  | S n =>
      if (low <? high)%nat then
        let middle := ((low + high) / 2)%nat in
        if ok middle then bisect_last n ok (S middle) high middle else bisect_last n ok low middle last
      else last
  end.
Definition window (P : list Q) (lo hi : Q) (count start : nat) : nat * nat :=
  let fuel := S count in
  (bisect_first fuel (λ f, Qle_bool lo (work P start f)) (S start) (S count) (S count),
   S (bisect_last fuel (λ f, Qle_bool (work P start f) hi) (S start) (S count) start)).

(** [range(first, min(stop, count + 1))]. *)
Definition ends (P : list Q) (lo hi : Q) (count start : nat) : list nat :=
  let '(first, stop) := window P lo hi count start in seq first (min stop (S count) - first).

(** A table over the starts, filled from the last one; the entry of [f] seen
    from [start] is the [f - start - 1]st. *)
Fixpoint table {A} (base : A) (entry : nat → list A → A) (count n : nat) : list A :=
  match n with
  | O => [base]
  | S n => let t := table base entry count n in entry (count - S n)%nat t :: t
  end.
Definition later {A} (d : A) (t : list A) (start f : nat) : A := default d (t !! (f - S start)%nat).

(** Pass one: the largest number of batches from each start; -1, none. *)
Definition most (E : nat → list nat) (start : nat) (t : list Z) : Z :=
  foldl (λ best f, let b := later (-1) t start f in
           if negb (bool_decide (b = -1)) && (best <? b + 1) then b + 1 else best)%Z (-1)%Z (E start).
Definition batches (E : nat → list nat) (count : nat) : list Z := table 0%Z (most E) count count.
Definition at_start {A} (d : A) (t : list A) (s : nat) : A := default d (t !! s).

(** [max(a, b)]. *)
Definition py_max (a b : Q) : Q := if Qle_bool b a then a else b.
(** A wall, or infinity. *)
Definition below (a b : option Q) : bool :=
  match a, b with
  | Some x, Some y => negb (Qle_bool y x)
  | Some _, None => true
  | None, _ => false
  end.

(** Pass two: the smallest largest wall with that number of batches. *)
Definition least_wall (E : nat → list nat) (wall_of : nat → nat → Q) (B : list Z) (start : nat) (t : list (option Q)) : option Q :=
  if bool_decide (at_start (-1)%Z B start = (-1)%Z) then None
  else
    foldl (λ best f,
      if bool_decide (at_start (-1)%Z B f = at_start (-1)%Z B start - 1)%Z then
        let candidate := py_max (wall_of start f) <$> later None t start f in
        if below candidate best then candidate else best
      else best) None (E start).
Definition walls (E : nat → list nat) (wall_of : nat → nat → Q) (B : list Z) (count : nat) : list (option Q) :=
  table (Some 0%Q) (least_wall E wall_of B) count count.

(** Pass three: the earliest cut that still reaches both. *)
Definition reaches (wall_of : nat → nat → Q) (B : list Z) (W : list (option Q)) (ceiling : option Q) (start f : nat) : bool :=
  bool_decide (at_start (-1)%Z B f = at_start (-1)%Z B start - 1)%Z
  && match ceiling with
     | Some c => Qle_bool (wall_of start f) c && match at_start None W f with Some w => Qle_bool w c | None => false end
     | None => true
     end.
Fixpoint cut (n : nat) (E : nat → list nat) (good : nat → nat → bool) (count start : nat) : option (list nat) :=
  if (start <? count)%nat then
    match n with
    | O => None
    | S n =>
        match filter (λ f, good start f = true) (E start) with
        | [] => None
        | f :: _ => cuts ← cut n E good count f; Some (f :: cuts)
        end
    end
  else Some [].

(** [_partition_run]: the ends of the batches of a run. *)
Definition run_cuts (ts : list Task) (setup fraction wall : Q) : answer (list nat) :=
  let count := length ts in
  let P := prefix ts in
  let hi := max_work wall setup in
  let lo := min_work fraction setup in
  let wall_of s f := rnd (setup + work P s f) in
  let E := ends P lo hi count in
  let B := batches E count in
  let W := walls E wall_of B count in
  if Qle_bool hi 0 then inl Setup_past_wall
  else if negb (Qle_bool lo hi) then inl Band_empty
  else if existsb (λ t, negb (Qle_bool (tk_seconds t) hi)) ts then inl Task_past_wall
  else if bool_decide (at_start (-1)%Z B 0 = (-1)%Z) then inl No_cover
  else match cut count E (reaches wall_of B W (at_start None W 0)) count 0 with Some cuts => inr cuts | None => inl Defect end.

(** The ranges between the cuts. *)
Fixpoint ranges (start : nat) (cuts : list nat) : list (nat * nat) :=
  match cuts with [] => [] | f :: cuts => (start, f) :: ranges f cuts end.
Definition slice {A} (l : list A) (s f : nat) : list A := take (f - s) (drop s l).
Definition _partition_run (ts : list Task) (begin end_ : nat) (setup fraction wall : Q) : answer (list (list Task)) :=
  let run := slice ts begin end_ in
  match run_cuts run setup fraction wall with
  | inl e => inl e
  | inr cuts => inr ((λ sf, slice run sf.1 sf.2) <$> ranges 0 cuts)
  end.

(** [partition_roster]. *)
Definition setup_by_key (p : Policy) (key : string) : option Q := rs_setup <$> last (filter (λ r, rs_key r = key) (po_residencies p)).
Fixpoint partition_runs (ts : list Task) (p : Policy) (runs : list (nat * nat * string)) : answer (list (list Task)) :=
  match runs with
  | [] => inr []
  | (begin, end_, key) :: runs =>
      match setup_by_key p key with
      | None => inl No_setup
      | Some setup =>
          match _partition_run ts begin end_ setup (po_fraction p) (po_wall p) with
          | inl e => inl e
          | inr batches =>
              match partition_runs ts p runs with
              | inl e => inl e
              | inr rest => inr (batches ++ rest)
              end
          end
      end
  end.
Definition partition_tasks (ts : list Task) (p : Policy) : answer (list (list Task)) := partition_runs ts p (_runs ts).
Definition partition_roster (ts : list Task) (p : Policy) : answer (list (list string)) :=
  match partition_tasks ts p with
  | inl e => inl e
  | inr batches => inr (map tk_id <$> batches)
  end.
End partitioner.
