(* ===== verification/PartitionFacts.v ===== *)
(** * The three passes of the partitioner

    The bisections find the feasible ends, the first table the largest number
    of batches, the second the least largest wall with it, and the walk the
    earliest cuts that reach both. *)
From S2P Require Import Prelude.
From S2P Require Import Partition.
From Stdlib Require Import QArith.QArith Lqa.
From stdpp Require Import options.

(** ** Bisection *)

Lemma middle_between low high : (low < high)%nat → (low ≤ (low + high) / 2 < high)%nat.
Proof. intros H. split; [apply Nat.div_le_lower_bound; lia|apply Nat.Div0.div_lt_upper_bound; lia]. Qed.

Lemma bisect_first_spec n ok low high :
  (high - low ≤ n)%nat → (low ≤ high)%nat → (∀ i j, (low ≤ i)%nat → (i ≤ j)%nat → (j < high)%nat → ok i = true → ok j = true) →
  let r := bisect_first n ok low high high in
  (low ≤ r ≤ high)%nat ∧ ∀ i, (low ≤ i < high)%nat → ok i = true ↔ (r ≤ i)%nat.
Proof.
  revert low high. induction n as [|n IH]; intros low high Hn Hle Hok; cbn [bisect_first].
  { split; [lia|]. intros i. lia. }
  destruct (Nat.ltb_spec low high) as [Hlt|]; [|split; [lia|intros i; lia]].
  pose proof (middle_between low high Hlt) as Hm. set (mid := ((low + high) / 2)%nat) in *. clearbody mid.
  destruct (ok mid) eqn:E.
  - destruct (IH low mid) as [H1 H2]; [lia|lia|intros; eapply (Hok i); eauto; lia|]. split; [lia|].
    intros i Hi. destruct (decide (i < mid)%nat); [apply H2; lia|]. split; [lia|]. intros _. apply (Hok mid i); [lia|lia|lia|done].
  - destruct (IH (S mid) high) as [H1 H2]; [lia|lia|intros; eapply (Hok i); eauto; lia|]. split; [lia|].
    intros i Hi. destruct (decide (S mid ≤ i)%nat); [apply H2; lia|]. split; [|lia]. intros Hi'. exfalso.
    rewrite (Hok i mid) in E; [done|lia|lia|lia|done].
Qed.

Lemma bisect_first_done n ok low high first : (high ≤ low)%nat → bisect_first n ok low high first = first.
Proof. intros H. destruct n; cbn [bisect_first]; [done|]. destruct (Nat.ltb_spec low high); [lia|done]. Qed.

Lemma bisect_last_spec n ok l high :
  (high - S l ≤ n)%nat → (l < high)%nat → (∀ i j, (l < i)%nat → (i ≤ j)%nat → (j < high)%nat → ok j = true → ok i = true) →
  let r := bisect_last n ok (S l) high l in
  (l ≤ r < high)%nat ∧ ∀ i, (l < i < high)%nat → ok i = true ↔ (i ≤ r)%nat.
Proof.
  revert l high. induction n as [|n IH]; intros l high Hn Hle Hok; cbn [bisect_last].
  { split; [lia|]. intros i. lia. }
  destruct (Nat.ltb_spec (S l) high) as [Hlt|]; [|split; [lia|intros i; lia]].
  pose proof (middle_between (S l) high Hlt) as Hm. set (mid := ((S l + high) / 2)%nat) in *. clearbody mid.
  destruct (ok mid) eqn:E.
  - destruct (IH mid high) as [H1 H2]; [lia|lia|intros; eapply (Hok i); eauto; lia|]. split; [lia|].
    intros i Hi. destruct (decide (mid < i)%nat); [apply H2; lia|]. split; [lia|]. intros _. apply (Hok i mid); [lia|lia|lia|done].
  - destruct (IH l mid) as [H1 H2]; [lia|lia|intros; eapply (Hok i); eauto; lia|]. split; [lia|].
    intros i Hi. destruct (decide (i < mid)%nat); [apply H2; lia|]. split; [|lia]. intros Hi'. exfalso.
    rewrite (Hok mid i) in E; [done|lia|lia|lia|done].
Qed.

(** ** Tables *)

Section table.
Context {A : Type} (base : A) (entry : nat → list A → A) (count : nat).

Lemma table_length n : length (table base entry count n) = S n.
Proof. induction n as [|n IH]; cbn [table]; [done|]. cbn. by rewrite IH. Qed.

(** The table of [n] starts is a tail of the table of all. *)
Lemma table_lookup n k : (k ≤ n)%nat → table base entry count n !! (n - k)%nat = table base entry count k !! 0%nat.
Proof.
  induction n as [|n IH]; intros Hk; [by replace k with 0%nat by lia|].
  destruct (decide (k = S n)) as [->|]; [by rewrite Nat.sub_diag|].
  replace (S n - k)%nat with (S (n - k)) by lia. cbn [table]. cbn [lookup list_lookup]. apply IH. lia.
Qed.

Definition full : list A := table base entry count count.

Lemma full_lookup s : (s ≤ count)%nat → full !! s = table base entry count (count - s) !! 0%nat.
Proof. intros Hs. unfold full. rewrite <-(table_lookup count (count - s)) by lia. f_equal. lia. Qed.

Lemma full_end d : at_start d full count = base.
Proof. unfold at_start. by rewrite full_lookup, Nat.sub_diag by done. Qed.

(** What an entry sees of a later start is the table's. *)
Lemma later_full d s f : (s < f)%nat → (f ≤ count)%nat → later d (table base entry count (count - S s)) s f = at_start d full f.
Proof.
  intros Hs Hf. unfold later, at_start. rewrite full_lookup by done. f_equal.
  rewrite <-(table_lookup (count - S s) (count - f)) by lia. f_equal. lia.
Qed.

Lemma full_entry d s : (s < count)%nat → at_start d full s = entry s (table base entry count (count - S s)).
Proof.
  intros Hs. unfold at_start. rewrite full_lookup by lia. replace (count - s)%nat with (S (count - S s)) by lia. cbn [table].
  cbn. f_equal. lia.
Qed.
End table.

(** ** Paths of cuts *)

Section passes.
Context (E : nat → list nat) (count : nat).
Context (HE : ∀ s f, f ∈ E s → (s < f ≤ count)%nat).

(** The cuts from [s]: each a feasible end, the last the end of the run. *)
Fixpoint path (s : nat) (cuts : list nat) : Prop :=
  match cuts with [] => s = count | f :: cuts => f ∈ E s ∧ path f cuts end.

Lemma path_nil cuts : path count cuts → cuts = [].
Proof using HE. destruct cuts as [|f cuts]; [done|]. intros [Hf _]. apply HE in Hf. lia. Qed.

(** *** The largest number *)

Abbreviation B := (batches E count).
Abbreviation b := (at_start (-1)%Z B).

Lemma most_entry s : (s < count)%nat →
  b s = foldl (λ best f, if negb (bool_decide (b f = -1)) && (best <? b f + 1) then b f + 1 else best)%Z (-1)%Z (E s).
Proof using HE.
  intros Hs. change B with (full 0%Z (most E) count). rewrite (full_entry 0%Z (most E) count (-1)%Z s) by done. unfold most at 1.
  assert (∀ l a, (∀ f, f ∈ l → (s < f ≤ count)%nat) →
    foldl (λ best f, let x := later (-1)%Z (table 0%Z (most E) count (count - S s)) s f in
      if negb (bool_decide (x = -1)) && (best <? x + 1) then x + 1 else best)%Z a l
    = foldl (λ best f, if negb (bool_decide (b f = -1)) && (best <? b f + 1) then b f + 1 else best)%Z a l) as H; [|by apply H, HE].
  induction l as [|f l IH]; intros a Hl; [done|]. cbn [foldl]. rewrite IH by (intros; apply Hl; by right).
  by rewrite (later_full 0%Z (most E) count (-1)%Z s f) by (apply Hl; by left).
Qed.

Lemma most_fold (g : nat → Z) l a :
  (∀ f, f ∈ l → -1 ≤ g f)%Z → (-1 ≤ a)%Z →
  let r := foldl (λ best f, if negb (bool_decide (g f = -1)) && (best <? g f + 1) then g f + 1 else best)%Z a l in
  (a ≤ r)%Z ∧ (∀ f, f ∈ l → g f ≠ -1 → g f + 1 ≤ r)%Z ∧ (r = a ∨ ∃ f, f ∈ l ∧ g f ≠ -1 ∧ r = g f + 1)%Z.
Proof.
  revert a. induction l as [|f l IH]; intros a Hg Ha; cbn [foldl].
  { split_and!; [lia|by intros f ?%elem_of_nil|by left]. }
  match goal with |- context [foldl _ ?x l] => set (a' := x) end.
  assert ((a ≤ a')%Z ∧ (g f ≠ -1 → g f + 1 ≤ a')%Z ∧ (a' = a ∨ g f ≠ -1 ∧ a' = g f + 1)%Z) as (H1 & H2 & H3).
  { subst a'. case_bool_decide; cbn [negb andb]; [split_and!; [lia|done|by left]|].
    destruct (Z.ltb_spec a (g f + 1)); split_and!; lia. }
  clearbody a'. destruct (IH a') as (H4 & H5 & H6); [intros; apply Hg; by right|lia|].
  split_and!; [lia| |].
  - intros f' [->|Hin]%elem_of_cons Hne; [specialize (H2 Hne); lia|by apply H5].
  - destruct H6 as [-> |(f' & Hin & Hne & ->)]; [|right; exists f'; split_and!; [by right|done|done]].
    destruct H3 as [|[Hne ->]]; [by left|right]. exists f. split_and!; [by left|done|done].
Qed.

(** The entry of a start is the length of a longest path, or -1. *)
Definition longest (s : nat) (n : Z) : Prop :=
  (n = -1 ∧ ∀ cuts, ¬ path s cuts)%Z
  ∨ (∃ cuts, path s cuts ∧ Z.of_nat (length cuts) = n) ∧ ∀ cuts, path s cuts → (Z.of_nat (length cuts) ≤ n)%Z.

Lemma longest_ge s n : longest s n → (-1 ≤ n)%Z.
Proof. intros [[-> _]|[(cuts & _ & <-) _]]; lia. Qed.

Lemma longest_reach s n cuts : longest s n → path s cuts → (n ≠ -1 ∧ Z.of_nat (length cuts) ≤ n)%Z.
Proof. intros [[_ Hno]|[(c & _ & <-) Hmax]] Hp; [by destruct (Hno cuts)|]. split; [lia|by apply Hmax]. Qed.

Lemma longest_path s n : longest s n → (n ≠ -1)%Z → ∃ cuts, path s cuts ∧ Z.of_nat (length cuts) = n.
Proof. intros [[]|[]]; done. Qed.

Lemma batches_longest s : (s ≤ count)%nat → longest s (b s).
Proof using HE.
  intros Hs. remember (count - s)%nat as k eqn:Hk. revert s Hs Hk. induction k as [k IH] using (well_founded_induction lt_wf).
  intros s Hs ->. destruct (decide (s = count)) as [->|Hne].
  { right. change B with (full 0%Z (most E) count). rewrite (full_end 0%Z (most E) count (-1)%Z). split; [by exists []|]. intros cuts ->%path_nil. done. }
  assert (∀ f, f ∈ E s → longest f (b f)) as Hl.
  { intros f Hf%HE. apply (IH (count - f)%nat); lia. }
  rewrite most_entry by lia.
  destruct (most_fold b (E s) (-1)%Z) as (H1 & H2 & H3); [intros f Hf; eapply longest_ge; by apply Hl|done|].
  set (r := foldl _ _ _) in *. clearbody r. destruct H3 as [-> |(f & Hf & Hne' & ->)].
  - left. split; [done|]. intros [|f cuts] Hp; [done|]. destruct Hp as [Hf Hp].
    destruct (longest_reach _ _ _ (Hl f Hf) Hp) as [Hne' Hlen]. specialize (H2 f Hf Hne'). pose proof (longest_ge _ _ (Hl f Hf)). lia.
  - right. split.
    + destruct (longest_path _ _ (Hl f Hf) Hne') as (cuts & Hp & Hlen). exists (f :: cuts). split; [done|]. cbn [length]. lia.
    + intros [|f' cuts] Hp; [done|]. destruct Hp as [Hf' Hp]. destruct (longest_reach _ _ _ (Hl f' Hf') Hp) as [Hn Hlen].
      specialize (H2 f' Hf' Hn). cbn [length]. lia.
Qed.

(** *** The least largest wall *)

Context (wall_of : nat → nat → Q).

Fixpoint largest (s : nat) (cuts : list nat) : Q :=
  match cuts with [] => 0%Q | f :: cuts => py_max (wall_of s f) (largest f cuts) end.

Lemma py_max_le a c x : (py_max a c <= x)%Q ↔ (a <= x)%Q ∧ (c <= x)%Q.
Proof.
  unfold py_max. destruct (Qle_bool c a) eqn:Ec; [apply Qle_bool_iff in Ec|apply not_true_iff_false in Ec; rewrite Qle_bool_iff in Ec].
  - split; [intros; split; lra|lra].
  - split; [intros; split; lra|lra].
Qed.

Abbreviation W := (walls E wall_of B count).
Abbreviation w := (at_start None W).

Lemma least_fold (P : nat → bool) (cand : nat → option Q) l a :
  let r := foldl (λ best f, if P f then if below (cand f) best then cand f else best else best) a l in
  (r = a ∨ ∃ f, f ∈ l ∧ P f = true ∧ r = cand f)
  ∧ (∀ q, a = Some q → ∃ x, r = Some x ∧ (x <= q)%Q)
  ∧ ∀ f q, f ∈ l → P f = true → cand f = Some q → ∃ x, r = Some x ∧ (x <= q)%Q.
Proof.
  revert a. induction l as [|f l IH]; intros a; cbn [foldl].
  { split_and!; [by left|intros q ->; exists q; split; [done|lra]|by intros f q ?%elem_of_nil]. }
  match goal with |- context [foldl _ ?x l] => set (a' := x) end.
  assert ((a' = a ∨ P f = true ∧ a' = cand f) ∧ (∀ q, a = Some q → ∃ x, a' = Some x ∧ (x <= q)%Q)
    ∧ ∀ q, P f = true → cand f = Some q → ∃ x, a' = Some x ∧ (x <= q)%Q) as (H1 & H2 & H3).
  { subst a'. destruct (P f); [|split_and!; [by left|intros q ->; exists q; split; [done|lra]|done]].
    destruct (cand f) as [x|] eqn:Ec, a as [y|]; cbn [below]; try (split_and!; [by left|by intros q [= ->]; exists q; split; [done|lra]|done]).
    - destruct (Qle_bool y x) eqn:El; cbn [negb]; [apply Qle_bool_iff in El|apply not_true_iff_false in El; rewrite Qle_bool_iff in El].
      + split_and!; [by left|intros q [= ->]; exists q; split; [done|lra]|intros q _ [= ->]; exists y; split; [done|lra]].
      + split_and!; [by right|intros q [= ->]; exists x; split; [done|lra]|intros q _ [= ->]; exists q; split; [done|lra]].
    - split_and!; [by right|done|intros q _ [= ->]; exists q; split; [done|lra]].
    - split_and!; [by left|done|done]. }
  clearbody a'. destruct (IH a') as (H4 & H5 & H6). split_and!.
  - destruct H4 as [-> |(f' & ? & ? & ?)]; [|right; exists f'; split_and!; [by right|done|done]].
    destruct H1 as [|[]]; [by left|right; exists f; split_and!; [by left|done|done]].
  - intros q Hq. destruct (H2 q Hq) as (x & Hx & ?). destruct (H5 x Hx) as (y & Hy & ?). exists y. split; [done|lra].
  - intros f' q [-> |Hin]%elem_of_cons HP Hq; [|by eapply H6].
    destruct (H3 q HP Hq) as (x & Hx & ?). destruct (H5 x Hx) as (y & Hy & ?). exists y. split; [done|lra].
Qed.

Lemma least_entry s : (s < count)%nat → b s ≠ (-1)%Z →
  w s = foldl (λ best f, if bool_decide (b f = b s - 1)%Z then
                 if below (py_max (wall_of s f) <$> w f) best then py_max (wall_of s f) <$> w f else best else best) None (E s).
Proof using HE.
  intros Hs Hb. change W with (full (Some 0%Q) (least_wall E wall_of B) count).
  rewrite (full_entry (Some 0%Q) (least_wall E wall_of B) count None s) by done. unfold least_wall at 1. rewrite bool_decide_false by done.
  assert (∀ l a, (∀ f, f ∈ l → (s < f ≤ count)%nat) →
    foldl (λ best f, if bool_decide (b f = b s - 1)%Z then
        let candidate := py_max (wall_of s f) <$> later None (table (Some 0%Q) (least_wall E wall_of B) count (count - S s)) s f in
        if below candidate best then candidate else best else best) a l
    = foldl (λ best f, if bool_decide (b f = b s - 1)%Z then
        if below (py_max (wall_of s f) <$> w f) best then py_max (wall_of s f) <$> w f else best else best) a l) as H; [|by apply H, HE].
  induction l as [|f l IH]; intros a Hl; [done|]. cbn [foldl]. rewrite IH by (intros; apply Hl; by right).
  rewrite (later_full (Some 0%Q) (least_wall E wall_of B) count None s f) by (apply Hl; by left). done.
Qed.

(** The entry is the least largest wall of the longest paths. *)
Definition least (s : nat) (x : Q) : Prop :=
  (∃ cuts, path s cuts ∧ Z.of_nat (length cuts) = b s ∧ largest s cuts = x)
  ∧ ∀ cuts, path s cuts → Z.of_nat (length cuts) = b s → (x <= largest s cuts)%Q.

(** The rest of a longest path is a longest path. *)
Lemma longest_tail s f cuts : (s ≤ count)%nat → path s (f :: cuts) → Z.of_nat (length (f :: cuts)) = b s →
  Z.of_nat (length cuts) = b f ∧ b f = (b s - 1)%Z.
Proof using HE.
  intros Hs [Hf Hp] Hlen. pose proof (HE _ _ Hf) as Hr. pose proof (batches_longest f ltac:(lia)) as Hl.
  destruct (longest_reach _ _ _ Hl Hp) as [Hne Hle]. destruct (longest_path _ _ Hl Hne) as (c & Hc & Hclen).
  destruct (longest_reach s (b s) (f :: c)) as [_ Hmax]; [by apply batches_longest|done|]. cbn [length] in *. lia.
Qed.

Lemma path_entry_positive s : (s < count)%nat → b s ≠ (-1)%Z → (1 ≤ b s)%Z.
Proof using HE.
  intros Hs Hne. destruct (longest_path s (b s)) as ([|f cuts] & Hp & Hlen); [apply batches_longest; lia|done|cbn in Hp; lia|].
  cbn [length] in Hlen. lia.
Qed.

Lemma walls_least s : (s ≤ count)%nat → b s ≠ (-1)%Z → ∃ x, w s = Some x ∧ least s x.
Proof using HE.
  intros Hs. remember (count - s)%nat as k eqn:Hk. revert s Hs Hk. induction k as [k IH] using (well_founded_induction lt_wf).
  intros s Hs -> Hne. destruct (decide (s = count)) as [->|Hsc].
  { exists 0%Q. split; [apply (full_end (Some 0%Q) (least_wall E wall_of B) count)|]. split.
    - exists []. split_and!; [done| |done]. change B with (full 0%Z (most E) count). by rewrite (full_end 0%Z (most E) count).
    - intros cuts ->%path_nil _. cbn. lra. }
  assert (∀ f, f ∈ E s → b f = (b s - 1)%Z → ∃ x, w f = Some x ∧ least f x) as Hl.
  { intros f Hf%HE Hb. apply (IH (count - f)%nat); [lia|lia|done|]. pose proof (path_entry_positive s ltac:(lia) Hne). lia. }
  destruct (least_fold (λ f, bool_decide (b f = b s - 1)%Z) (λ f, py_max (wall_of s f) <$> w f) (E s) None) as (H1 & _ & H3).
  rewrite <-least_entry in H1, H3 by (done || lia).
  assert (∀ cuts, path s cuts → Z.of_nat (length cuts) = b s → ∃ x, w s = Some x ∧ (x <= largest s cuts)%Q) as Hle.
  { intros [|f cuts] Hp Hlen; [cbn in Hp; lia|]. destruct (longest_tail s f cuts Hs Hp Hlen) as [Hlf Hbf]. destruct Hp as [Hf Hp].
    destruct (Hl f Hf Hbf) as (y & Hy & _ & Hmin). destruct (H3 f (py_max (wall_of s f) y)) as (x & Hx & Hxle);
      [done|by apply bool_decide_eq_true|by rewrite Hy|]. exists x. split; [done|]. specialize (Hmin cuts Hp Hlf).
    eapply Qle_trans; [exact Hxle|]. cbn [largest]. apply py_max_le.
    destruct (proj1 (py_max_le (wall_of s f) (largest f cuts) _) (Qle_refl _)). split; [done|lra]. }
  destruct (longest_path s (b s)) as (c & Hc & Hclen); [by apply batches_longest|done|].
  destruct (Hle c Hc Hclen) as (x & Hx & _). exists x. split; [done|]. split.
  - destruct H1 as [H1|(f & Hf & Hb%bool_decide_eq_true & Hcand)]; [congruence|].
    destruct (Hl f Hf Hb) as (y & Hy & (cuts & Hp & Hlen & Hlarge) & _). rewrite Hy in Hcand. cbn in Hcand.
    exists (f :: cuts). split_and!; [done|cbn [length]; lia|]. cbn [largest]. rewrite Hlarge. congruence.
  - intros cuts Hp Hlen. destruct (Hle cuts Hp Hlen) as (x' & Hx' & ?). congruence.
Qed.

(** *** The earliest cuts *)

(** The order of cut sequences. *)
Fixpoint lex_le (a c : list nat) : Prop :=
  match a, c with
  | [], _ => True
  | _ :: _, [] => False
  | x :: a, y :: c => (x < y)%nat ∨ x = y ∧ lex_le a c
  end.

Definition winner (s : nat) (ceiling : Q) (cuts : list nat) : Prop :=
  path s cuts ∧ Z.of_nat (length cuts) = b s ∧ (largest s cuts <= ceiling)%Q.

Context (Hsorted : ∀ s, StronglySorted lt (E s)).

Lemma first_least (P : nat → bool) l f rest : StronglySorted lt l → filter (λ f, P f = true) l = f :: rest →
  f ∈ l ∧ P f = true ∧ ∀ f', f' ∈ l → P f' = true → (f ≤ f')%nat.
Proof using Type.
  intros Hs Hf. assert (f ∈ filter (λ f, P f = true) l) as Hin by (rewrite Hf; by left).
  apply list_elem_of_filter in Hin as [HP Hin]. split_and!; [done|done|]. intros f' Hin' HP'.
  revert Hf. induction Hs as [|x l Hs IH Hx]; [done|]. rewrite filter_cons. destruct (decide (P x = true)) as [Hx'|Hx'].
  - intros [= -> _]. apply elem_of_cons in Hin' as [-> |Hin']; [done|]. rewrite Forall_forall in Hx. specialize (Hx f' Hin'). lia.
  - apply elem_of_cons in Hin' as [-> |Hin']; [done|]. apply elem_of_cons in Hin as [-> |Hin]; [done|]. by apply IH.
Qed.

Lemma cut_earliest n s ceiling x :
  (count - s ≤ n)%nat → (s ≤ count)%nat → b s ≠ (-1)%Z → w s = Some x → (x <= ceiling)%Q →
  ∃ cuts, cut n E (reaches wall_of B W (Some ceiling)) count s = Some cuts ∧ winner s ceiling cuts
  ∧ ∀ cuts', winner s ceiling cuts' → lex_le cuts cuts'.
Proof using HE Hsorted.
  revert s x. induction n as [|n IH]; intros s x Hn Hs Hne Hx Hle.
  { assert (s = count) as -> by lia. cbn [cut]. rewrite Nat.ltb_irrefl. exists []. split; [done|]. split; [|done].
    destruct (walls_least count) as (x' & Hx' & (c & Hc & Hlen & Hlarge) & _); [done|done|]. rewrite Hx in Hx'. injection Hx' as <-.
    apply path_nil in Hc as ->. split_and!; [done|done|cbn in *; by subst]. }
  cbn [cut]. destruct (Nat.ltb_spec s count) as [Hlt|Hge].
  2: { assert (s = count) as -> by lia. exists []. split; [done|]. split; [|done].
       destruct (walls_least count) as (x' & Hx' & (c & Hc & Hlen & Hlarge) & _); [done|done|]. rewrite Hx in Hx'. injection Hx' as <-.
       apply path_nil in Hc as ->. split_and!; [done|done|cbn in *; by subst]. }
  set (good := reaches wall_of B W (Some ceiling)).
  assert (∀ f cuts, winner s ceiling (f :: cuts) → f ∈ E s ∧ good s f = true ∧ winner f ceiling cuts) as Hw.
  { intros f cuts (Hp & Hlen & Hlarge). destruct (longest_tail s f cuts Hs Hp Hlen) as [Hlf Hbf]. destruct Hp as [Hf Hp].
    cbn [largest] in Hlarge. apply py_max_le in Hlarge as [H1 H2]. split_and!; [done| |by split_and!].
    unfold good, reaches. rewrite bool_decide_true by done. cbn [andb].
    pose proof (path_entry_positive s Hlt Hne). pose proof (HE _ _ Hf).
    destruct (walls_least f) as (y & Hy & _ & Hmin); [lia|lia|]. rewrite Hy. apply andb_true_iff.
    split; apply Qle_bool_iff; [done|]. specialize (Hmin cuts Hp Hlf). lra. }
  destruct (walls_least s Hs Hne) as (x' & Hx' & (c0 & Hc0 & Hlen0 & Hlarge0) & _). rewrite Hx in Hx'. injection Hx' as <-.
  assert (winner s ceiling c0) as Hw0 by (split_and!; [done|done|by rewrite Hlarge0]).
  destruct c0 as [|f0 c0]; [cbn in Hc0; lia|]. destruct (Hw f0 c0 Hw0) as (Hf0 & Hg0 & _).
  destruct (filter (λ f, good s f = true) (E s)) as [|f rest] eqn:Efil.
  { exfalso. assert (f0 ∈ filter (λ f, good s f = true) (E s)) as Hin by by apply list_elem_of_filter. rewrite Efil in Hin. by apply elem_of_nil in Hin. }
  destruct (first_least (good s) (E s) f rest (Hsorted s) Efil) as (Hf & Hg & Hfirst).
  unfold good, reaches in Hg. apply andb_true_iff in Hg as [Hb%bool_decide_eq_true Hg].
  destruct (w f) as [y|] eqn:Hy; [|by rewrite andb_false_r in Hg]. apply andb_true_iff in Hg as [H1%Qle_bool_iff H2%Qle_bool_iff].
  pose proof (HE _ _ Hf). pose proof (path_entry_positive s Hlt Hne).
  destruct (IH f y) as (cuts & Hcut & (Hp & Hlen & Hlarge) & Hlex); [lia|lia|lia|done|done|].
  exists (f :: cuts). fold good in Hcut. rewrite Hcut. split; [done|]. split.
  - split_and!; [done|cbn [length]; lia|]. cbn [largest]. by apply py_max_le.
  - intros [|f' cuts'] Hw'; [destruct Hw' as [Hp' _]; cbn in Hp'; lia|]. destruct (Hw f' cuts' Hw') as (Hf' & Hg' & Hrest).
    cbn [lex_le]. specialize (Hfirst f' Hf' Hg'). destruct (decide (f = f')) as [<-|]; [right; split; [done|by apply Hlex]|left; lia].
Qed.
End passes.

(** ** The feasible ends *)

(** What the proofs use of rounding; true of the code's floats. *)
Record rounding (rnd : Q → Q) : Prop := mkRounding {
  rnd_mono : ∀ x y, (x <= y)%Q → (rnd x <= rnd y)%Q;
  rnd_twice : ∀ x, (rnd (rnd x) == rnd x)%Q;
  rnd_zero : (rnd 0 == 0)%Q }.

Section ends.
Context (rnd : Q → Q) (Hr : rounding rnd).

Definition sum_ok (ts : list Task) : Prop := ∀ t, t ∈ ts → (0 <= tk_seconds t)%Q.

Lemma prefix_from_length acc ts : length (prefix_from rnd acc ts) = S (length ts).
Proof using Type. revert acc. induction ts as [|t ts IH]; intros acc; [done|]. cbn [prefix_from length]. by rewrite IH. Qed.

Lemma prefix_from_head acc ts : prefix_from rnd acc ts !! 0%nat = Some acc.
Proof using Type. by destruct ts. Qed.

Lemma prefix_step acc ts i : sum_ok ts → (rnd acc == acc)%Q → (i < length ts)%nat →
  ∃ x y, prefix_from rnd acc ts !! i = Some x ∧ prefix_from rnd acc ts !! S i = Some y ∧ (x <= y)%Q.
Proof using Hr.
  revert acc i. induction ts as [|t ts IH]; intros acc i Hs Ha Hi; [cbn in Hi; lia|]. cbn [prefix_from]. destruct i as [|i].
  - exists acc, (rnd (acc + tk_seconds t)). cbn [lookup list_lookup]. rewrite prefix_from_head. split_and!; [done|done|].
    rewrite <-Ha at 1. apply (rnd_mono _ Hr). assert (0 <= tk_seconds t)%Q by (apply Hs; by left). lra.
  - destruct (IH (rnd (acc + tk_seconds t))%Q i) as (x & y & ? & ? & ?); [intros ? ?; apply Hs; by right|apply (rnd_twice _ Hr)|cbn in Hi; lia|].
    by exists x, y.
Qed.

Lemma prefix_mono ts i j : sum_ok ts → (i ≤ j ≤ length ts)%nat →
  (default 0 (prefix rnd ts !! i) <= default 0 (prefix rnd ts !! j))%Q.
Proof using Hr.
  intros Hs [Hij Hj]. induction Hij as [|j Hij IH]; [apply Qle_refl|].
  eapply Qle_trans; [apply IH; lia|]. destruct (prefix_step 0 ts j) as (x & y & Hx & Hy & Hle); [done|apply (rnd_zero _ Hr)|lia|].
  unfold prefix. by rewrite Hx, Hy.
Qed.

Lemma work_mono ts s i j : sum_ok ts → (i ≤ j ≤ length ts)%nat → (work rnd (prefix rnd ts) s i <= work rnd (prefix rnd ts) s j)%Q.
Proof using Hr. intros Hs Hij. apply (rnd_mono _ Hr). pose proof (prefix_mono ts i j Hs Hij). lra. Qed.

Lemma Qle_bool_trans_l lo x y : (x <= y)%Q → Qle_bool lo x = true → Qle_bool lo y = true.
Proof using Type. rewrite !Qle_bool_iff. intros. lra. Qed.
Lemma Qle_bool_trans_r hi x y : (x <= y)%Q → Qle_bool y hi = true → Qle_bool x hi = true.
Proof using Type. rewrite !Qle_bool_iff. intros. lra. Qed.

(** The window is the feasible ends, in order. *)
Lemma ends_elem ts lo hi s f : sum_ok ts →
  f ∈ ends rnd (prefix rnd ts) lo hi (length ts) s
  ↔ (s < f ≤ length ts)%nat ∧ (lo <= work rnd (prefix rnd ts) s f)%Q ∧ (work rnd (prefix rnd ts) s f <= hi)%Q.
Proof using Hr.
  intros Hs. set (count := length ts). unfold ends, window. rewrite elem_of_seq.
  destruct (decide (s < count)%nat) as [Hlt|].
  2: { rewrite bisect_first_done by lia. lia. }
  destruct (bisect_first_spec (S count) (λ f, Qle_bool lo (work rnd (prefix rnd ts) s f)) (S s) (S count)) as [H1 H2]; [lia|lia| |].
  { intros i j Hi Hij Hj. apply Qle_bool_trans_l, work_mono; [done|unfold count in *; lia]. }
  destruct (bisect_last_spec (S count) (λ f, Qle_bool (work rnd (prefix rnd ts) s f) hi) s (S count)) as [H3 H4]; [lia|lia| |].
  { intros i j Hi Hij Hj. apply Qle_bool_trans_r, work_mono; [done|unfold count in *; lia]. }
  set (a := bisect_first _ _ _ _ _) in *. set (z := bisect_last _ _ _ _ _) in *. clearbody a z.
  rewrite <-!Qle_bool_iff. split.
  - intros Hf. assert (s < f < S count)%nat by lia. split; [lia|]. split; [apply H2; lia|apply H4; lia].
  - intros (Hf & Hlo & Hhi). apply H2 in Hlo; [|lia]. apply H4 in Hhi; [|lia]. lia.
Qed.

Lemma ends_sorted P lo hi count s : StronglySorted lt (ends rnd P lo hi count s).
Proof using Type.
  unfold ends. destruct (window rnd P lo hi count s) as [a z]. generalize (min z (S count) - a)%nat. intros n. revert a.
  induction n as [|n IH]; intros a; cbn [seq]; constructor; [apply IH|]. apply Forall_forall. intros x Hx%elem_of_seq. lia.
Qed.
End ends.
