(* ===== verification/PartitionSpec.v ===== *)
(** * What the partitioner guarantees

    Whatever the rounding, the cuts of a run are feasible, as many as can be,
    with the least largest wall and the earliest among those, and the batches
    of a roster are the roster cut in order; in exact arithmetic a roster is
    refused only when nothing meets the declared limits. *)
From S2P Require Import Prelude.
From S2P Require Import CpuLearning.
From S2P Require Import Partition.
From S2P Require Import PartitionFacts.
From Stdlib Require Import QArith.QArith Lqa.
From Stdlib Require Import QArith.Qround.
From stdpp Require Import options.

(** ** One run *)

Section run.
Context (rnd : Q → Q) (ts : list Task) (setup fraction wall : Q).

(** A batch from [s] to [f] meets both limits, as the code computes them. *)
Definition fits (s f : nat) : Prop :=
  (s < f ≤ length ts)%nat ∧ (min_work rnd fraction setup <= work rnd (prefix rnd ts) s f)%Q
  ∧ (work rnd (prefix rnd ts) s f <= max_work rnd wall setup)%Q.
Fixpoint feasible (s : nat) (cuts : list nat) : Prop :=
  match cuts with [] => s = length ts | f :: cuts => fits s f ∧ feasible f cuts end.
Definition wall_of (s f : nat) : Q := rnd (setup + work rnd (prefix rnd ts) s f).

(** [a] is at least as good as [c]: more batches; or as many and a smaller
    largest wall; or as small a one and earlier cuts. *)
Definition better (a c : list nat) : Prop :=
  (length c ≤ length a)%nat
  ∧ (length c = length a → (largest wall_of 0 a <= largest wall_of 0 c)%Q
     ∧ ((largest wall_of 0 c <= largest wall_of 0 a)%Q → lex_le a c)).

Abbreviation E := (ends rnd (prefix rnd ts) (min_work rnd fraction setup) (max_work rnd wall setup) (length ts)).

Lemma ends_range : rounding rnd → sum_ok ts → ∀ s f, f ∈ E s → (s < f ≤ length ts)%nat.
Proof. intros Hr Hs s f Hf. by apply (ends_elem rnd Hr ts _ _ s f Hs) in Hf as [? _]. Qed.

Lemma path_feasible s cuts : rounding rnd → sum_ok ts → path E (length ts) s cuts ↔ feasible s cuts.
Proof.
  intros Hr Hs. revert s. induction cuts as [|f cuts IH]; intros s; [done|]. cbn [path feasible].
  rewrite IH, (ends_elem rnd Hr ts _ _ s f Hs). done.
Qed.

(** The cuts of a run are the best there are. *)
Lemma run_cuts_best :
  rounding rnd → sum_ok ts →
  match run_cuts rnd ts setup fraction wall with
  | inr cuts => feasible 0 cuts ∧ ∀ cuts', feasible 0 cuts' → better cuts cuts'
  | inl No_cover => ∀ cuts, ¬ feasible 0 cuts
  | inl Defect => False
  | inl _ => True
  end.
Proof.
  intros Hr Hs. unfold run_cuts. set (hi := max_work rnd wall setup). set (lo := min_work rnd fraction setup).
  destruct (Qle_bool hi 0); [done|]. destruct (negb (Qle_bool lo hi)); [done|]. destruct (existsb _ ts); [done|].
  pose proof (ends_range Hr Hs) as HE. pose proof (batches_longest E (length ts) HE 0 ltac:(lia)) as Hb.
  fold lo hi in Hb, HE |- *. set (B := batches _ _) in *.
  case_bool_decide as Hne.
  { intros cuts Hf%path_feasible; [|done..]. destruct Hb as [[_ Hno]|[(c & _ & Hc) _]]; [by apply (Hno cuts)|lia]. }
  destruct (walls_least E (length ts) HE wall_of 0 ltac:(lia) Hne) as (x & Hx & Hleast). fold lo hi in Hx. fold B in Hx.
  change (λ s f, rnd (setup + work rnd (prefix rnd ts) s f)) with wall_of.
  assert (∀ s, StronglySorted lt (E s)) as Hsorted by (intros s; apply ends_sorted).
  destruct (cut_earliest E (length ts) HE wall_of Hsorted (length ts) 0 x x) as (cuts & Hcut & (Hp & Hlen & Hlarge) & Hlex);
    [lia|lia|done|done|apply Qle_refl|].
  fold lo hi B in Hcut. rewrite Hx, Hcut. split; [by apply path_feasible|].
  intros cuts' Hf%path_feasible; [|done..]. destruct (longest_reach _ _ _ _ _ Hb Hf) as [_ Hle]. split; [fold lo hi B in Hlen; lia|].
  intros E'. assert (Z.of_nat (length cuts') = at_start (-1)%Z B 0) as Hlen' by (rewrite E'; exact Hlen).
  destruct Hleast as [_ Hmin]. specialize (Hmin cuts' Hf Hlen'). split; [lra|]. intros Hw. apply Hlex. split_and!; [done|done|lra].
Qed.
End run.

(** C25: the batcher is optimal.  For every rounding of its arithmetic that is
    monotone, idempotent and keeps zero, the cuts of a run of tasks meet both limits, and are as many as
    possible, with the smallest largest wall among those, and the earliest
    cuts among these; there is no cover at all when it finds none; and the
    reconstruction never fails. *)
Theorem run_cuts_optimal rnd ts setup fraction wall :
  rounding rnd → sum_ok ts →
  match run_cuts rnd ts setup fraction wall with
  | inr cuts => feasible rnd ts setup fraction wall 0 cuts
      ∧ ∀ cuts', feasible rnd ts setup fraction wall 0 cuts' → better rnd ts setup cuts cuts'
  | inl No_cover => ∀ cuts, ¬ feasible rnd ts setup fraction wall 0 cuts
  | inl Defect => False
  | inl _ => True
  end.
Proof. apply run_cuts_best. Qed.


(** ** Runs and batches *)

(** A roster as its maximal runs of one residency. *)
Inductive runs_of : list Task → list (list Task * string) → Prop :=
  | runs_none : runs_of [] []
  | runs_more run key rest R :
      run ≠ [] → (∀ t, t ∈ run → tk_residency t = key) → (∀ t, head rest = Some t → tk_residency t ≠ key) →
      runs_of rest R → runs_of (run ++ rest) ((run, key) :: R).

Definition chunk (ts : list Task) (r : nat * nat * string) : list Task * string := (slice ts r.1.1 r.1.2, r.2).

Lemma slice_to_end {A} (l : list A) s : slice l s (length l) = drop s l.
Proof. unfold slice. apply take_ge. rewrite length_drop. lia. Qed.

Lemma slice_drop {A} (l : list A) s f : (s ≤ f)%nat → slice l s f ++ drop f l = drop s l.
Proof.
  intros H. unfold slice. rewrite <-(take_drop (f - s) (drop s l)) at 2. f_equal. rewrite drop_drop. f_equal. lia.
Qed.

Lemma slice_elem {A} (l : list A) s f x : x ∈ slice l s f → x ∈ l.
Proof.
  intros (i & Hi & _)%elem_of_take. rewrite <-(take_drop s l). apply elem_of_app. right. by eapply list_elem_of_lookup_2.
Qed.

Lemma slice_snoc {A} (l : list A) s f x rest : (s ≤ f)%nat → drop f l = x :: rest → slice l s (S f) = slice l s f ++ [x].
Proof.
  intros H Hd. unfold slice. replace (S f - s)%nat with (S (f - s)) by lia.
  assert (drop s l !! (f - s)%nat = Some x) as Hx.
  { rewrite lookup_drop. replace (s + (f - s))%nat with f by lia. rewrite <-(Nat.add_0_r f), <-lookup_drop, Hd. done. }
  by rewrite (take_S_r _ _ _ Hx).
Qed.

Lemma runs_from_of l ts start index key :
  drop index l = ts → (start < index ≤ length l)%nat → (∀ t, t ∈ slice l start index → tk_residency t = key) →
  runs_of (drop start l) (chunk l <$> runs_from ts start index key).
Proof.
  revert start index key. induction ts as [|t ts IH]; intros start index key Hd Hi Hk; cbn [runs_from].
  - assert (index = length l) as ->. { pose proof (length_drop l index) as H. rewrite Hd in H. cbn in H. lia. }
    cbn [fmap list_fmap]. unfold chunk. cbn [fst snd]. rewrite slice_to_end in *. rewrite <-(app_nil_r (drop start l)) at 1. constructor; [|done|done|constructor].
    intros H. pose proof (length_drop l start) as Hl. rewrite H in Hl. cbn in Hl. lia.
  - assert (index < length l)%nat. { pose proof (length_drop l index) as H. rewrite Hd in H. cbn in H. lia. }
    assert (drop (S index) l = ts) as Hd' by (rewrite <-Nat.add_1_r, <-drop_drop, Hd; done).
    case_bool_decide as E.
    + apply IH; [done|lia|]. intros t'. rewrite (slice_snoc l start index t ts) by (done || lia). rewrite elem_of_app, list_elem_of_singleton.
      intros [Ht| ->]; auto.
    + cbn [fmap list_fmap]. rewrite <-(slice_drop l start index) by lia. unfold chunk at 1. cbn [fst snd].
      constructor; [| done | |].
      * intros H'. pose proof (length_take_le (drop start l) (index - start)) as Hl. unfold slice in H'. rewrite H' in Hl.
        rewrite length_drop in Hl. cbn in Hl. lia.
      * intros t'. rewrite Hd. intros [= <-]. done.
      * apply IH; [done|lia|]. intros t'. rewrite (slice_snoc l index index t ts) by (done || lia). unfold slice. rewrite Nat.sub_diag. cbn.
        by intros ->%list_elem_of_singleton.
Qed.

Lemma runs_of_roster ts : runs_of ts (chunk ts <$> _runs ts).
Proof.
  destruct ts as [|t ts]; [constructor|]. unfold _runs. apply (runs_from_of (t :: ts) ts 0 1); [done|cbn; lia|].
  intros t'. unfold slice. cbn. by intros ->%list_elem_of_singleton.
Qed.

(** What the cuts of a run leave. *)
Lemma ranges_concat (ts : list Task) rnd setup fraction wall s cuts :
  (s ≤ length ts)%nat → feasible rnd ts setup fraction wall s cuts →
  concat ((λ sf, slice ts sf.1 sf.2) <$> ranges s cuts) = drop s ts
  ∧ ∀ g, g ∈ (λ sf, slice ts sf.1 sf.2) <$> ranges s cuts → g ≠ [] ∧ ∀ t, t ∈ g → t ∈ ts.
Proof.
  revert s. induction cuts as [|f cuts IH]; intros s Hs; cbn [feasible ranges].
  { intros ->. cbn. rewrite drop_all. split; [done|]. by intros g ?%elem_of_nil. }
  intros [[Hf _] Hc]. destruct (IH f ltac:(lia) Hc) as [Hcat Hne]. split.
  - cbn [fmap list_fmap concat fst snd]. rewrite Hcat. apply slice_drop. lia.
  - intros g [-> |Hg]%elem_of_cons; [|by apply Hne]. cbn. split.
    + intros H. pose proof (length_take_le (drop s ts) (f - s)) as Hl. unfold slice in H. rewrite H, length_drop in Hl. cbn in Hl. lia.
    + intros t. apply slice_elem.
Qed.

(** ** Exact arithmetic *)

Definition exact (x : Q) : Q := x.
Lemma exact_rounding : rounding exact.
Proof. split; [done|intros; apply Qeq_refl|apply Qeq_refl]. Qed.

Definition total (g : list Task) : Q := foldr (λ t q, (tk_seconds t + q)%Q) 0%Q g.

Lemma total_app a c : (total (a ++ c) == total a + total c)%Q.
Proof. unfold total. rewrite foldr_app. induction a as [|t a IH]; cbn [foldr]; [ring|rewrite IH; ring]. Qed.

Lemma total_pos g : g ≠ [] → (∀ t, t ∈ g → (0 < tk_seconds t)%Q) → (0 < total g)%Q.
Proof.
  induction g as [|t g IH]; [done|]. intros _ Hp. cbn [total foldr]. assert (0 < tk_seconds t)%Q by (apply Hp; by left).
  destruct g as [|t' g]; [cbn; lra|]. assert (0 < total (t' :: g))%Q by (apply IH; [done|]; intros; apply Hp; by right).
  unfold total in *. lra.
Qed.

(** The declared limits, on a batch. *)
Definition within (setup fraction wall : Q) (g : list Task) : Prop :=
  (setup <= fraction * (setup + total g))%Q ∧ (setup + total g <= wall)%Q.

Lemma within_iff setup fraction wall W g : (0 < fraction)%Q → (W == total g)%Q →
  (min_work exact fraction setup <= W)%Q ∧ (W <= max_work exact wall setup)%Q ↔ within setup fraction wall g.
Proof.
  intros Hf E. unfold min_work, max_work, within, exact. rewrite E. set (T := total g). clearbody T.
  assert (setup * (1 - fraction) / fraction <= T ↔ setup <= fraction * (setup + T))%Q as ->.
  { assert (setup <= fraction * (setup + T) ↔ setup * (1 - fraction) <= T * fraction)%Q as -> by (split; intros; lra).
    split; [|by apply Qle_shift_div_r]. intros H. apply (Qmult_le_compat_r _ _ fraction) in H; [|lra].
    rewrite (Qmult_comm (_ / _)), Qmult_div_r in H; [done|lra]. }
  split; intros [? ?]; (split; [done|lra]).
Qed.

Lemma prefix_exact acc ts i : (i ≤ length ts)%nat → (default 0 (prefix_from exact acc ts !! i) == acc + total (take i ts))%Q.
Proof.
  revert acc i. induction ts as [|t ts IH]; intros acc [|i] Hi; cbn [prefix_from take total foldr lookup list_lookup] in *; try (cbn; ring).
  - cbn in Hi. lia.
  - cbn in Hi. rewrite IH by lia. unfold exact, total. ring.
Qed.

Lemma work_exact ts s f : (s ≤ f ≤ length ts)%nat → (work exact (prefix exact ts) s f == total (slice ts s f))%Q.
Proof.
  intros Hf. unfold work, prefix, exact at 1. rewrite !prefix_exact by lia.
  assert (take f ts = take s ts ++ slice ts s f) as ->.
  { unfold slice. rewrite take_drop_commute. replace (s + (f - s))%nat with f by lia.
    rewrite <-(take_drop s (take f ts)) at 1. f_equal. rewrite take_take. f_equal. lia. }
  rewrite total_app. ring.
Qed.

Lemma fits_within ts setup fraction wall s f : (0 < fraction)%Q →
  fits exact ts setup fraction wall s f ↔ (s < f ≤ length ts)%nat ∧ within setup fraction wall (slice ts s f).
Proof.
  intros Hf. unfold fits. split.
  - intros (Hr & H). split; [done|]. apply (within_iff setup fraction wall _ (slice ts s f)) in H; [done|done|apply work_exact; lia].
  - intros (Hr & H). split; [done|]. apply (within_iff _ _ _ _ (slice ts s f)); [done|apply work_exact; lia|done].
Qed.

Fixpoint cuts_of (s : nat) (gs : list (list Task)) : list nat :=
  match gs with [] => [] | g :: gs => (s + length g)%nat :: cuts_of (s + length g) gs end.

Lemma slice_prefix {A} (l g rest : list A) s : drop s l = g ++ rest → slice l s (s + length g) = g ∧ drop (s + length g) l = rest.
Proof.
  intros H. unfold slice. replace (s + length g - s)%nat with (length g) by lia. rewrite <-drop_drop, H. split; [apply take_app_length|apply drop_app_length].
Qed.

Lemma cuts_of_feasible ts setup fraction wall s gs : (0 < fraction)%Q → (s ≤ length ts)%nat →
  concat gs = drop s ts → (∀ g, g ∈ gs → g ≠ [] ∧ within setup fraction wall g) →
  feasible exact ts setup fraction wall s (cuts_of s gs).
Proof.
  intros Hf. revert s. induction gs as [|g gs IH]; intros s Hs Hc Hg; cbn [cuts_of feasible].
  - pose proof (length_drop ts s) as H. rewrite <-Hc in H. cbn in H. lia.
  - cbn [concat] in Hc. symmetry in Hc. destruct (slice_prefix ts g (concat gs) s Hc) as [Hsl Hdr].
    destruct (Hg g ltac:(by left)) as [Hne Hw].
    assert (0 < length g)%nat by (destruct g; [done|cbn; lia]).
    assert (s + length g ≤ length ts)%nat. { pose proof (length_drop ts s) as H'. rewrite Hc, length_app in H'. lia. }
    split; [apply fits_within; [done|]; rewrite Hsl; split; [lia|done]|].
    apply IH; [done|done|]. intros g' Hin. apply Hg. by right.
Qed.

(** A run refused has no cover within the limits. *)
Lemma run_refused ts setup fraction wall e : (0 < fraction)%Q → ts ≠ [] → (∀ t, t ∈ ts → (0 < tk_seconds t)%Q) →
  run_cuts exact ts setup fraction wall = inl e → ¬ ∃ gs, concat gs = ts ∧ ∀ g, g ∈ gs → g ≠ [] ∧ within setup fraction wall g.
Proof.
  intros Hf Hne Hp Hr (gs & Hc & Hg).
  assert (sum_ok ts) as Hs by (intros t Ht; apply Qlt_le_weak; auto).
  pose proof (cuts_of_feasible ts setup fraction wall 0 gs Hf ltac:(lia) Hc Hg) as Hfeas.
  pose proof (run_cuts_best exact ts setup fraction wall exact_rounding Hs) as Hopt. rewrite Hr in Hopt.
  assert (∀ t, t ∈ ts → (tk_seconds t <= max_work exact wall setup)%Q) as Htask.
  { intros t Ht. rewrite <-Hc in Ht. apply list_elem_of_In, in_concat in Ht as (g & Hgin%list_elem_of_In & Htg%list_elem_of_In).
    destruct (Hg g Hgin) as [_ [_ Hw]]. unfold max_work, exact.
    apply list_elem_of_split in Htg as (l1 & l2 & ->). rewrite total_app in Hw. cbn [total foldr] in Hw.
    assert (∀ l, (∀ t, t ∈ l → t ∈ ts) → (0 <= total l)%Q) as Hnn.
    { clear -Hp. induction l as [|t l IH]; intros Hin; [cbn; lra|]. cbn [total foldr]. assert (0 < tk_seconds t)%Q by (apply Hp, Hin; by left).
      assert (0 <= total l)%Q by (apply IH; intros; apply Hin; by right). unfold total in *. lra. }
    assert (∀ x, x ∈ l1 ++ t :: l2 → x ∈ ts) as Hall.
    { intros x Hx. rewrite <-Hc. apply list_elem_of_In, in_concat. exists (l1 ++ t :: l2). split; by apply list_elem_of_In. }
    assert (0 <= total l1)%Q by (apply Hnn; intros; apply Hall; set_solver).
    assert (0 <= total l2)%Q by (apply Hnn; intros; apply Hall; set_solver). unfold total in *. lra. }
  destruct gs as [|g gs]; [by rewrite <-Hc in Hne|]. destruct (Hg g ltac:(by left)) as [Hgne Hw].
  assert (0 < total g)%Q.
  { apply total_pos; [done|]. intros t Ht. apply Hp. rewrite <-Hc. cbn. apply elem_of_app. by left. }
  pose proof (proj2 (within_iff setup fraction wall (total g) g Hf ltac:(apply Qeq_refl)) Hw) as [Hlo Hhi].
  unfold run_cuts in Hr. set (hi := max_work exact wall setup) in *. set (lo := min_work exact fraction setup) in *.
  destruct (Qle_bool hi 0) eqn:E1; [apply Qle_bool_iff in E1; lra|].
  destruct (Qle_bool lo hi) eqn:E2; cbn [negb] in Hr; [|apply not_true_iff_false in E2; apply E2, Qle_bool_iff; lra].
  destruct (existsb _ ts) eqn:E3.
  { apply existsb_exists in E3 as (t & Ht%list_elem_of_In & E). apply negb_true_iff, not_true_iff_false in E. apply E, Qle_bool_iff. auto. }
  case_bool_decide; [injection Hr as <-; by apply (Hopt _ Hfeas)|]. destruct (cut _ _ _ _ _); [done|]. by injection Hr as <-.
Qed.

(** A rounding that is not exact: to the 1024th of a second below. *)
Definition grid (x : Q) : Q := (inject_Z (Qfloor (x * 1024)) / 1024)%Q.
Lemma grid_rounding : rounding grid.
Proof.
  split; unfold grid.
  - intros x y H. apply Qmult_le_compat_r; [|discriminate]. rewrite <-Zle_Qle. apply Qfloor_resp_le. lra.
  - intros x. set (n := Qfloor (x * 1024)). rewrite (Qfloor_comp _ (inject_Z n)) by field. by rewrite Qfloor_Z.
  - reflexivity.
Qed.

(** Four tasks of one residency and one of another. *)
Definition sample_run : list Task :=
  [mkTask "a" "1" "m" (32 # 3) "run 7" "oa"; mkTask "b" "2" "m" 10 "run 7" "ob"; mkTask "c" "3" "m" 10 "run 7" "oc"; mkTask "d" "4" "m" 3 "run 7" "od"].
Definition sample_roster : list Task := sample_run ++ [mkTask "e" "5" "n" 7 "run 7" "oe"].
Definition sample_policy : Policy := mkPolicy [mkResidency "m" 5 "run 7"; mkResidency "n" 1 "run 7"] (1 # 2) 40.

(** A greedy packer would leave [d] alone, below the setup floor. *)
Lemma run_cuts_optimal_witness :
  run_cuts grid sample_run 5 (1 # 2) 40 = inr [1; 2; 4]%nat
  ∧ feasible grid sample_run 5 (1 # 2) 40 0 [1; 2; 4]%nat
  ∧ ∀ cuts', feasible grid sample_run 5 (1 # 2) 40 0 cuts' → better grid sample_run 5 [1; 2; 4]%nat cuts'.
Proof.
  assert (sum_ok sample_run) as Hs.
  { intros t Ht. repeat (apply elem_of_cons in Ht as [-> |Ht]; [discriminate|]). by apply elem_of_nil in Ht. }
  assert (run_cuts grid sample_run 5 (1 # 2) 40 = inr [1; 2; 4]%nat) as E by (vm_compute; reflexivity).
  pose proof (run_cuts_optimal grid sample_run 5 (1 # 2) 40 grid_rounding Hs) as H. rewrite E in H. exact (conj E H).
Defined.

(** ** Requests *)

Record valid (ts : list Task) (p : Policy) : Prop := mkValid {
  va_positive : ∀ t, t ∈ ts → (0 < tk_seconds t)%Q;
  va_ids : NoDup (tk_id <$> ts);
  va_outputs : NoDup (tk_output <$> ts);
  va_priced : ∀ t, t ∈ ts → is_Some (setup_by_key p (tk_residency t));
  va_fraction : (0 < po_fraction p)%Q }.

Lemma Qle_bool_false x y : Qle_bool x y = false → (y < x)%Q.
Proof. intros H. apply Qnot_le_lt. intros Hle%Qle_bool_iff. congruence. Qed.

Lemma validate_tasks_inv ts ids outputs : validate_tasks ts ids outputs = inr () →
  (∀ t, t ∈ ts → (0 < tk_seconds t)%Q) ∧ NoDup (tk_id <$> ts) ∧ NoDup (tk_output <$> ts)
  ∧ ∀ t, t ∈ ts → (tk_id t ∉ ids) ∧ (tk_output t ∉ outputs).
Proof.
  revert ids outputs. induction ts as [|t ts IH]; intros ids outputs; cbn [validate_tasks].
  { intros _. split_and!; [by intros t ?%elem_of_nil|apply NoDup_nil_2|apply NoDup_nil_2|by intros t ?%elem_of_nil]. }
  destruct (negb (is_identifier (tk_id t) && _)); [done|]. case_bool_decide as H1; [done|]. case_bool_decide as H2; [done|].
  destruct (negb (is_identifier (tk_residency t))); [done|]. destruct (Qle_bool (tk_seconds t) 0) eqn:H3; cbn [negb]; [done|].
  destruct (negb (_text (tk_evidence t))); [done|].
  intros (Hp & Hi & Ho & Hn)%IH. cbn [fmap list_fmap]. split_and!.
  - intros t' [-> |]%elem_of_cons; [by apply Qle_bool_false|auto].
  - apply NoDup_cons_2; [|done]. intros (t' & E & Ht')%list_elem_of_fmap. destruct (Hn t' Ht') as [Hn' _]. apply Hn'. rewrite <-E. by left.
  - apply NoDup_cons_2; [|done]. intros (t' & E & Ht')%list_elem_of_fmap. destruct (Hn t' Ht') as [_ Hn']. apply Hn'. rewrite <-E. by left.
  - intros t' [-> |Ht']%elem_of_cons; [done|]. destruct (Hn t' Ht') as [Ha Hb]. split; intros Hx; [apply Ha|apply Hb]; by right.
Qed.

Lemma setup_priced p key : key ∈ priced p → is_Some (setup_by_key p key).
Proof.
  intros (r & -> & Hr)%list_elem_of_fmap. unfold setup_by_key. assert (r ∈ filter (λ r', rs_key r' = rs_key r) (po_residencies p)) as Hin by by apply list_elem_of_filter.
  destruct (last (filter _ _)) as [r'|] eqn:E; [by eexists|]. apply last_None in E. rewrite E in Hin. by apply elem_of_nil in Hin.
Qed.

Lemma validate_request_valid ts p : validate_logical_request ts p = inr () → valid ts p.
Proof.
  unfold validate_logical_request, validate_roster. destruct ts as [|t ts]; [done|].
  destruct (validate_tasks (t :: ts) [] []) as [|[]] eqn:Et; [done|]. apply validate_tasks_inv in Et as (Hp & Hi & Ho & _).
  destruct (validate_batch_policy p) as [|[]] eqn:Ep; [done|]. destruct (forallb _ (t :: ts)) eqn:Ef; [|done]. intros _.
  split; [done..| |].
  - intros t' Ht'. apply setup_priced. rewrite forallb_forall in Ef. apply (bool_decide_eq_true (tk_residency t' ∈ priced p)), Ef. by apply list_elem_of_In.
  - unfold validate_batch_policy in Ep. destruct (po_residencies p); [done|]. destruct (validate_residencies _ _); [done|].
    destruct (Qle_bool (po_fraction p) 0) eqn:E; cbn in Ep; [done|]. by apply Qle_bool_false.
Qed.

(** A batch of a roster: of one priced residency. *)
Definition one_residency (p : Policy) (g : list Task) : Prop :=
  g ≠ [] ∧ ∃ key, is_Some (setup_by_key p key) ∧ ∀ t, t ∈ g → tk_residency t = key.

(** A batch that also meets its declared limits. *)
Definition admissible (p : Policy) (g : list Task) : Prop :=
  g ≠ [] ∧ ∃ key setup, setup_by_key p key = Some setup ∧ (∀ t, t ∈ g → tk_residency t = key) ∧ within setup (po_fraction p) (po_wall p) g.

Lemma slices_feasible_within run setup fraction wall cuts : (0 < fraction)%Q → feasible exact run setup fraction wall 0 cuts →
  ∀ g, g ∈ (λ sf, slice run sf.1 sf.2) <$> ranges 0 cuts → within setup fraction wall g.
Proof.
  intros Hf. generalize 0%nat as s. induction cuts as [|f cuts IH]; intros s; cbn [feasible ranges]; [by intros _ g ?%elem_of_nil|].
  intros [Hfit Hc] g [-> |Hg]%elem_of_cons; [|by eapply IH]. by apply fits_within in Hfit as [_ ?].
Qed.

Lemma partition_runs_cover rnd ts p R l batches :
  rounding rnd → sum_ok l → runs_of l (chunk ts <$> R) → partition_runs rnd ts p R = inr batches →
  concat batches = l ∧ (∀ g, g ∈ batches → one_residency p g).
Proof.
  intros Hr. revert l batches. induction R as [|[[b e] key] R IH]; intros l batches Hs; cbn [fmap list_fmap partition_runs].
  { inversion 1; subst. intros [= <-]. split; [done|]. by intros g ?%elem_of_nil. }
  unfold chunk at 1. cbn [fst snd]. inversion 1 as [|run key' rest R' Hne Hk Hnext Hrest]; subst.
  destruct (setup_by_key p key) as [setup|] eqn:Esetup; [|done]. unfold _partition_run.
  pose proof (run_cuts_best rnd (slice ts b e) setup (po_fraction p) (po_wall p) Hr) as Hopt.
  destruct (run_cuts rnd (slice ts b e) setup (po_fraction p) (po_wall p)) as [|cuts]; [done|].
  destruct Hopt as [Hfeas _]; [intros t Ht; apply Hs, elem_of_app; by left|].
  destruct (partition_runs rnd ts p R) as [|tail] eqn:Et; [done|]. intros [= <-].
  destruct (IH rest tail) as [Hc Hg]; [intros t Ht; apply Hs, elem_of_app; by right|done|done|].
  destruct (ranges_concat _ _ _ _ _ 0 cuts ltac:(lia) Hfeas) as [Hcat Hin]. split.
  - rewrite concat_app, Hcat, Hc. done.
  - intros g [Hg'|Hg']%elem_of_app; [|by apply Hg]. destruct (Hin g Hg') as [Hgne Helem]. split; [done|]. exists key.
    split; [by eexists|]. intros t Ht. by apply Hk, Helem.
Qed.

(** A cover of a roster covers its runs. *)
Lemma cover_splits p gs run key rest :
  concat gs = run ++ rest → (∀ t, t ∈ run → tk_residency t = key) → (∀ t, head rest = Some t → tk_residency t ≠ key) →
  (∀ g, g ∈ gs → admissible p g) → ∃ gs1 gs2, gs = gs1 ++ gs2 ∧ concat gs1 = run ∧ concat gs2 = rest.
Proof.
  revert run. induction gs as [|g gs IH]; intros run Hc Hk Hnext Hg.
  { cbn in Hc. symmetry in Hc. apply app_nil in Hc as [-> ->]. by exists [], []. }
  destruct run as [|t0 run]; [by exists [], (g :: gs)|]. cbn [concat] in Hc.
  destruct (Hg g ltac:(by left)) as (Hne & key' & setup & _ & Huni & _).
  destruct (List.app_eq_app _ _ _ _ Hc) as (l & [[Eg Erest]|[Erun Egs]]).
  - destruct l as [|x l].
    + rewrite app_nil_r in Eg. subst g. exists [t0 :: run], gs. cbn. rewrite app_nil_r. by cbn in Erest.
    + exfalso. apply (Hnext x); [by rewrite Erest|]. rewrite <-(Hk t0) by by left. rewrite (Huni t0), (Huni x); [done|subst g; set_solver|subst g; by left].
  - destruct (IH l Egs) as (gs1 & gs2 & -> & H1 & H2); [|done|intros; apply Hg; by right|].
    + intros t Ht. apply Hk. rewrite Erun. apply elem_of_app. by right.
    + exists (g :: gs1), gs2. cbn [concat]. rewrite H1. by split_and!; [..|done|].
Qed.

Lemma partition_runs_complete ts p R l :
  (0 < po_fraction p)%Q → (∀ t, t ∈ l → (0 < tk_seconds t)%Q) → (∀ t, t ∈ l → is_Some (setup_by_key p (tk_residency t))) →
  runs_of l (chunk ts <$> R) →
  match partition_runs exact ts p R with
  | inr batches => ∀ g, g ∈ batches → admissible p g
  | inl _ => ¬ ∃ gs, concat gs = l ∧ ∀ g, g ∈ gs → admissible p g
  end.
Proof.
  intros Hf. revert l. induction R as [|[[b e] key] R IH]; intros l Hp Hs; cbn [fmap list_fmap partition_runs].
  { intros _ g Hg. by apply elem_of_nil in Hg. }
  unfold chunk at 1. cbn [fst snd]. inversion 1 as [|run key' rest R' Hne Hk Hnext Hrest]; subst.
  set (run := slice ts b e) in *. destruct run as [|t0 run0] eqn:Erun; [done|]. rewrite <-Erun in *. clear Hne.
  assert (tk_residency t0 = key) as Ht0 by (apply Hk; rewrite Erun; by left).
  destruct (Hs t0) as [setup Esetup]; [rewrite Erun; by left|]. rewrite Ht0 in Esetup. rewrite Esetup. unfold _partition_run. fold run.
  assert (∀ gs, concat gs = run ++ rest → (∀ g, g ∈ gs → admissible p g) →
    (∃ gs1, concat gs1 = run ∧ ∀ g, g ∈ gs1 → g ≠ [] ∧ within setup (po_fraction p) (po_wall p) g)
    ∧ ∃ gs2, concat gs2 = rest ∧ ∀ g, g ∈ gs2 → admissible p g) as Hsplit.
  { intros gs Hc Hg. destruct (cover_splits p gs run key rest Hc Hk Hnext Hg) as (gs1 & gs2 & -> & H1 & H2). split.
    - exists gs1. split; [done|]. intros g Hgin. destruct (Hg g) as (Hgne & key' & setup' & Hset & Huni & Hw); [apply elem_of_app; by left|].
      split; [done|]. destruct g as [|t g]; [done|]. assert (tk_residency t = key) as Et.
      { apply Hk. rewrite <-H1. apply list_elem_of_In, in_concat. exists (t :: g). split; [by apply list_elem_of_In|by left]. }
      rewrite (Huni t) in Et by by left. subst key'. rewrite Esetup in Hset. by injection Hset as <-.
    - exists gs2. split; [done|]. intros g Hgin. apply Hg, elem_of_app. by right. }
  destruct (run_cuts exact run setup (po_fraction p) (po_wall p)) as [err|cuts] eqn:Ecuts.
  { intros (gs & Hc & Hg). destruct (Hsplit gs Hc Hg) as [Hrun _]. eapply run_refused; [exact Hf| | |exact Ecuts|exact Hrun].
    - by rewrite Erun.
    - intros t Ht. apply Hp, elem_of_app. by left. }
  specialize (IH rest). destruct (partition_runs exact ts p R) as [err|tail].
  { intros (gs & Hc & Hg). destruct (Hsplit gs Hc Hg) as [_ Hr]. apply IH; [..|exact Hr]; [| |done]; intros t Ht; [apply Hp|apply Hs]; apply elem_of_app; by right. }
  intros g [Hg|Hg]%elem_of_app.
  - assert (feasible exact run setup (po_fraction p) (po_wall p) 0 cuts) as Hfeas.
    { pose proof (run_cuts_best exact run setup (po_fraction p) (po_wall p) exact_rounding) as Ho. rewrite Ecuts in Ho. apply Ho.
      intros t Ht. apply Qlt_le_weak, Hp, elem_of_app. by left. }
    destruct (ranges_concat _ _ _ _ _ 0 cuts ltac:(lia) Hfeas) as [_ Hin]. destruct (Hin g Hg) as [Hgne Helem].
    split; [done|]. exists key, setup. split_and!; [done|by intros t Ht; apply Hk, Helem|]. by eapply slices_feasible_within.
  - apply IH; [..|done]; [| |done]; intros t Ht; [apply Hp|apply Hs]; apply elem_of_app; by right.
Qed.

(** C26: a plan is an exact cover of its roster or there is none.  Whatever the
    rounding, the batches of a valid request are the roster's ids cut in
    order, each batch of tasks of one priced residency; in exact arithmetic
    each meets the declared setup fraction and wall, and a request is refused
    only when no cut of its roster into such batches exists. *)
Theorem roster_exact_cover ts p :
  validate_logical_request ts p = inr () →
  (∀ rnd batches, rounding rnd → partition_roster rnd ts p = inr batches →
     ∃ gs, batches = map tk_id <$> gs ∧ concat gs = ts ∧ ∀ g, g ∈ gs → one_residency p g)
  ∧ match partition_tasks exact ts p with
    | inr gs => concat gs = ts ∧ ∀ g, g ∈ gs → admissible p g
    | inl _ => ¬ ∃ gs, concat gs = ts ∧ ∀ g, g ∈ gs → admissible p g
    end.
Proof.
  intros [Hp _ _ Hs Hf]%validate_request_valid. pose proof (runs_of_roster ts) as Hruns.
  assert (sum_ok ts) as Hsum by (intros t Ht; apply Qlt_le_weak; auto).
  assert (∀ rnd gs, rounding rnd → partition_tasks rnd ts p = inr gs → concat gs = ts ∧ ∀ g, g ∈ gs → one_residency p g) as Hcover
    by (intros rnd gs Hr; by apply partition_runs_cover). split.
  - intros rnd batches Hr. unfold partition_roster. destruct (partition_tasks rnd ts p) as [|gs] eqn:E; [done|]. intros [= <-].
    exists gs. split; [done|]. by eapply Hcover.
  - pose proof (partition_runs_complete ts p (_runs ts) ts Hf Hp Hs Hruns) as Hcomp. unfold partition_tasks in *.
    destruct (partition_runs exact ts p (_runs ts)) as [|gs] eqn:E; [done|]. split; [|done]. by destruct (Hcover exact gs exact_rounding E).
Qed.

Lemma roster_exact_cover_witness :
  partition_roster exact sample_roster sample_policy = inr [["a"]; ["b"]; ["c"; "d"]; ["e"]]%string
  ∧ ∀ rnd batches, rounding rnd → partition_roster rnd sample_roster sample_policy = inr batches →
      ∃ gs, batches = map tk_id <$> gs ∧ concat gs = sample_roster ∧ ∀ g, g ∈ gs → one_residency sample_policy g.
Proof.
  assert (validate_logical_request sample_roster sample_policy = inr ()) as Hv by (vm_compute; reflexivity).
  destruct (roster_exact_cover sample_roster sample_policy Hv) as [H _]. split; [vm_compute; reflexivity|exact H].
Defined.
