(* ===== verification/Decompose.v ===== *)
(** * Plans and groups ([decomposition.py])

    The plan of a request, the publication of its children and the completion
    of its group: pure checks, and the three first-writer-wins records of a
    parent with the handlers that read and publish them.  Digests of documents
    are parameters. *)
From S2P Require Import Prelude.
From S2P Require Import CpuLearning.
From S2P Require Import Prog.
From S2P Require Import Partition.
From Stdlib Require Import QArith.QArith.
From Stdlib Require Import Strings.Ascii.
From stdpp Require Import options.

Open Scope Z_scope.

Definition PARTITION_ALGORITHM_VERSION : string := "contiguous-residency-exact-cover.v1".

Definition TASK_BATCH_PLACEHOLDER : string := "{pb.task_batch}".

(** ** Documents *)

(** A request: its command and data projection, its roster and its policy; and
    the frozen half its children share. *)
Record Request := mkRequest { rq_argv : list string; rq_data : option string; rq_tasks : list Task; rq_policy : Policy }.
Record Frozen := mkFrozen { fz_argv : list string; fz_data : option string; fz_common : string }.

Record Plan := mkPlan { pl_parent : string; pl_algorithm : string; pl_partitions : list (list string); pl_key : string }.
Record Result := mkResult { re_task : string; re_output : string; re_value : string }.
Record Manifest := mkManifest { mf_parent : string; mf_plan : string; mf_ordinal : Z; mf_results : list Result }.
Record Index := mkIndex { ix_parent : string; ix_plan : string; ix_batches : list string; ix_children : list string }.
Record Membership := mkMembership { me_parent : string; me_plan : string; me_roster : string; me_policy : string; me_ordinal : Z; me_tasks : list string }.
#[export] Instance Membership_eq_dec : EqDecision Membership.
Proof. solve_decision. Defined.
#[export] Instance Index_eq_dec : EqDecision Index.
Proof. solve_decision. Defined.

(** [verify_exact_cover]'s part of the group receipt, and the whole. *)
Record Cover := mkCover { co_parent : string; co_plan : string; co_tasks : Z; co_children : Z; co_merged : string }.
Record Receipt := mkReceipt { rc_cover : Cover; rc_children : list (string * string) }.
#[export] Instance Cover_eq_dec : EqDecision Cover.
Proof. solve_decision. Defined.
#[export] Instance Receipt_eq_dec : EqDecision Receipt.
Proof. solve_decision. Defined.

(** A sealed child: its key, the membership it seals, and the digest of its
    receipt with the manifest it reports. *)
Record Child := mkChild { ch_key : string; ch_membership : option Membership; ch_document : option (string * option Manifest) }.

Inductive fault :=
  | Refuses (r : refusal) | Bad_argv | Other_command | Other_data | Wrong_count | Bad_document | Outside | Other_parent | Other_plan
  | Claimed_twice | No_manifest | Not_in_batch | Key_error | Other_output | Answered_twice | Unanswered | No_result
  | Record_error | Missing_child.

(** ** Commands *)

(** [_text] of a payload, which only a NUL may not be part of. *)
Definition payload_text (s : string) : bool :=
  negb (bool_decide (s = EmptyString)) && all_chars (λ a, negb (bool_decide (N_of_ascii a = 0)%N)) s.

(** [sub in s]. *)
Fixpoint contains (sub s : string) : bool :=
  String.prefix sub s || match s with EmptyString => false | String _ rest => contains sub rest end.

(** [argv.count(TASK_BATCH_PLACEHOLDER)]. *)
Definition slots (argv : list string) : nat := length (filter (λ part, part = TASK_BATCH_PLACEHOLDER) argv).

(** [_validate_batch_argv]. *)
Definition _validate_batch_argv (argv : list string) : bool :=
  match argv with [] => false | _ => true end && forallb payload_text argv
  && forallb (λ part, negb (contains TASK_BATCH_PLACEHOLDER part && negb (bool_decide (part = TASK_BATCH_PLACEHOLDER)))) argv
  && bool_decide (slots argv = 1%nat).

(** [resolve_task_batch]. *)
Definition resolve_task_batch (argv : list string) (batch_path : string) : option (list string) :=
  let resolved := (λ part, if bool_decide (part = TASK_BATCH_PLACEHOLDER) then batch_path else part) <$> argv in
  if bool_decide (slots argv = 1%nat) then Some resolved else None.

(** ** Cover *)

(** [_validate_child_result_manifest]. *)
Definition _validate_child_result_manifest (m : Manifest) : bool :=
  match mf_results m with [] => false | _ => true end
  && forallb (λ r, is_identifier (re_task r) && is_identifier (re_output r) && _is_key (re_value r)) (mf_results m)
  && _is_key (mf_parent m) && _is_key (mf_plan m) && bool_decide (0 ≤ mf_ordinal m).

(** [output_by_task[task_id]]. *)
Definition output_by_task (ts : list Task) (id : string) : option string := tk_output <$> last (filter (λ t, tk_id t = id) ts).

Section decompose.
Context (rnd : Q → Q).
Context (parent_digest : Frozen → list Task → Policy → string) (blueprint_key : string → string → list (list string) → string).
Context (roster_key : list Task → string) (policy_key : Policy → string) (results_key : list Result → string).

(** [parent_key]. *)
Definition parent_key (fz : Frozen) (ts : list Task) (p : Policy) : fault + string :=
  if negb (_validate_batch_argv (fz_argv fz)) then inl Bad_argv
  else
    match validate_roster ts, validate_batch_policy p with
    | inl r, _ => inl (Refuses r)
    | inr _, inl r => inl (Refuses r)
    | inr _, inr _ => inr (parent_digest fz ts p)
    end.

(** [build_plan]. *)
Definition build_plan (rq : Request) (fz : Frozen) : fault + Plan :=
  match validate_logical_request (rq_tasks rq) (rq_policy rq) with
  | inl r => inl (Refuses r)
  | inr _ =>
      if negb (_validate_batch_argv (fz_argv fz)) then inl Bad_argv
      else if negb (bool_decide (fz_argv fz = rq_argv rq)) then inl Other_command
      else if negb (bool_decide (fz_data fz = rq_data rq)) then inl Other_data
      else
        match partition_roster rnd (rq_tasks rq) (rq_policy rq) with
        | inl r => inl (Refuses r)
        | inr partitions =>
            match parent_key fz (rq_tasks rq) (rq_policy rq) with
            | inl e => inl e
            | inr parent =>
                inr (mkPlan parent PARTITION_ALGORITHM_VERSION partitions
                       (blueprint_key parent PARTITION_ALGORITHM_VERSION partitions))
            end
        end
  end.

(** [_validate_plan]. *)
Definition _validate_plan (plan : Plan) : bool :=
  match pl_partitions plan with [] => false | _ => true end
  && forallb (λ batch, match batch with [] => false | _ => forallb is_identifier batch end) (pl_partitions plan)
  && _is_key (pl_parent plan) && _text (pl_algorithm plan) && _is_key (pl_key plan)
  && bool_decide (blueprint_key (pl_parent plan) (pl_algorithm plan) (pl_partitions plan) = pl_key plan).

(** The first pass over the manifests. *)
Fixpoint check_manifests (plan : Plan) (ms : list Manifest) : option fault :=
  match ms with
  | [] => None
  | m :: ms =>
      if negb (_validate_child_result_manifest m) then Some Bad_document
      else if negb (bool_decide (mf_ordinal m < Z.of_nat (length (pl_partitions plan)))) then Some Outside
      else if negb (bool_decide (mf_parent m = pl_parent plan)) then Some Other_parent
      else if negb (bool_decide (mf_plan m = pl_key plan)) then Some Other_plan
      else check_manifests plan ms
  end.

Fixpoint index_manifests (ms : list Manifest) (found : gmap Z Manifest) : fault + gmap Z Manifest :=
  match ms with
  | [] => inr found
  | m :: ms =>
      if bool_decide (is_Some (found !! mf_ordinal m)) then inl Claimed_twice
      else index_manifests ms (<[mf_ordinal m := m]> found)
  end.

(** The results of one child. *)
Fixpoint check_results (ts : list Task) (batch : list string) (rs : list Result) (answered : gset string) : fault + gset string :=
  match rs with
  | [] => inr answered
  | r :: rs =>
      if negb (bool_decide (re_task r ∈ batch)) then inl Not_in_batch
      else
        match output_by_task ts (re_task r) with
        | None => inl Key_error
        | Some output =>
            if negb (bool_decide (output = re_output r)) then inl Other_output
            else if bool_decide (re_task r ∈ answered) then inl Answered_twice
            else check_results ts batch rs ({[re_task r]} ∪ answered)
        end
  end.

Fixpoint check_batches (ts : list Task) (found : gmap Z Manifest) (ordinal : Z) (bs : list (list string)) (answered : gset string)
  : fault + gset string :=
  match bs with
  | [] => inr answered
  | batch :: bs =>
      match found !! ordinal with
      | None => inl No_manifest
      | Some m =>
          match check_results ts batch (mf_results m) answered with
          | inl e => inl e
          | inr answered =>
              if negb (forallb (λ id, bool_decide (id ∈ answered)) batch) then inl Unanswered
              else check_batches ts found (ordinal + 1) bs answered
          end
      end
  end.

(** The results in the order of the plan. *)
Fixpoint merged (found : gmap Z Manifest) (ordinal : Z) (n : nat) : list Result :=
  match n with
  | O => []
  | S n => match found !! ordinal with Some m => mf_results m | None => [] end ++ merged found (ordinal + 1) n
  end.

(** [verify_exact_cover]. *)
Definition verify_exact_cover (ts : list Task) (plan : Plan) (ms : list Manifest) : fault + Cover :=
  let partitions := pl_partitions plan in
  if negb (bool_decide (length ms = length partitions)) then inl Wrong_count
  else
    match check_manifests plan ms with
    | Some e => inl e
    | None =>
        match index_manifests ms ∅ with
        | inl e => inl e
        | inr found =>
            match check_batches ts found 0 partitions ∅ with
            | inl e => inl e
            | inr answered =>
                if negb (forallb (λ t, bool_decide (tk_id t ∈ answered)) ts) then inl No_result
                else inr (mkCover (pl_parent plan) (pl_key plan) (Z.of_nat (length ts)) (Z.of_nat (length partitions))
                            (results_key (merged found 0 (length partitions))))
            end
        end
    end.

(** ** Publication *)

(** [PreparedBatches.membership]. *)
Definition membership (ts : list Task) (p : Policy) (plan : Plan) (ordinal : Z) : option Membership :=
  if bool_decide (0 ≤ ordinal) then
    batch ← pl_partitions plan !! Z.to_nat ordinal;
    Some (mkMembership (pl_parent plan) (pl_key plan) (roster_key ts) (policy_key p) ordinal batch)
  else None.

(** [PreparedBatches.envelope]: the membership with the tasks themselves. *)
Definition by_id (ts : list Task) (id : string) : option Task := last (filter (λ t, tk_id t = id) ts).
Definition envelope (ts : list Task) (p : Policy) (plan : Plan) (ordinal : Z) : option (Membership * list Task) :=
  me ← membership ts p plan ordinal;
  tasks ← mapM (by_id ts) (me_tasks me);
  Some (me, tasks).

(** [_publication_index]. *)
Definition _publication_index (plan : Plan) (digests keys : list string) : fault + Index :=
  let count := length (pl_partitions plan) in
  if bool_decide (length digests = count) && bool_decide (length keys = count) then
    if forallb _is_key digests && forallb _is_key keys then inr (mkIndex (pl_parent plan) (pl_key plan) digests keys) else inl Bad_document
  else inl Wrong_count.

(** [_validate_publication_index], against a plan. *)
Definition _validate_publication_index (ix : Index) (plan : Plan) : bool :=
  _is_key (ix_parent ix) && _is_key (ix_plan ix) && forallb _is_key (ix_batches ix) && forallb _is_key (ix_children ix)
  && bool_decide (length (ix_batches ix) = length (ix_children ix))
  && bool_decide (ix_parent ix = pl_parent plan) && bool_decide (ix_plan ix = pl_key plan)
  && bool_decide (length (ix_children ix) = length (pl_partitions plan)).

(** ** The records of one parent *)

Record store := mkStore { st_plan : option Plan; st_index : option Index; st_group : option Receipt }.

Inductive slot : Type → Type :=
  | Plan_json : slot Plan
  | Publication_json : slot Index
  | Group_json : slot Receipt.

Definition look {D} (r : slot D) (s : store) : option D :=
  match r in slot D return option D with Plan_json => st_plan s | Publication_json => st_index s | Group_json => st_group s end.
Definition put {D} (r : slot D) (d : D) (s : store) : store :=
  match r in slot D return D → store with
  | Plan_json => λ d, mkStore (Some d) (st_index s) (st_group s)
  | Publication_json => λ d, mkStore (st_plan s) (Some d) (st_group s)
  | Group_json => λ d, mkStore (st_plan s) (st_index s) (Some d)
  end d.

(** [_stored_record] and [publish_immutable]. *)
Inductive dop : Type → Type :=
  | Stored {D} (r : slot D) : dop (option (option D))
  | Publish_immutable {D} (r : slot D) (d : D) : dop (option bool).

(** A read answers the record or raises; a publication links the record where
    there is none, and may raise before or after. *)
Inductive dop_step : ∀ X, dop X → store → X → store → Prop :=
  | Step_stored {D} (r : slot D) s : dop_step _ (Stored r) s (Some (look r s)) s
  | Step_unread {D} (r : slot D) s : dop_step _ (Stored r) s None s
  | Step_won {D} (r : slot D) d s : look r s = None → dop_step _ (Publish_immutable r d) s (Some true) (put r d s)
  | Step_lost {D} (r : slot D) d s : is_Some (look r s) → dop_step _ (Publish_immutable r d) s (Some false) s
  | Step_raised {D} (r : slot D) d s : dop_step _ (Publish_immutable r d) s None s
  | Step_late {D} (r : slot D) d s : look r s = None → dop_step _ (Publish_immutable r d) s None (put r d s).

(** ** Handlers *)

Definition fail {A} (e : fault) : prog dop (fault + A) := mret (inl e).

(** [freeze_plan]. *)
Definition adopt (key : string) (stored : option Plan) : fault + Plan :=
  match stored with
  | Some plan => if _validate_plan plan then if bool_decide (pl_parent plan = key) then inr plan else inl Record_error else inl Bad_document
  | None => inl Bad_document
  end.
Definition freeze_plan (rq : Request) (fz : Frozen) : prog dop (fault + Plan) :=
  match parent_key fz (rq_tasks rq) (rq_policy rq) with
  | inl e => fail e
  | inr key =>
      x ← call (Stored Plan_json);
      match x with
      | None => fail Record_error
      | Some (Some plan) => mret (adopt key (Some plan))
      | Some None =>
          match build_plan rq fz with
          | inl e => fail e
          | inr plan =>
              w ← call (Publish_immutable Plan_json plan);
              match w with
              | None => fail Record_error
              | Some true => mret (inr plan)
              | Some false =>
                  y ← call (Stored Plan_json);
                  match y with None => fail Record_error | Some stored => mret (adopt key stored) end
              end
          end
      end
  end.

(** Publish a record, or find it there. *)
Definition settle {D} `{EqDecision D} (r : slot D) (d : D) : prog dop (fault + ()) :=
  x ← call (Stored r);
  match x with
  | None => fail Record_error
  | Some (Some d') => mret (if bool_decide (d' = d) then inr () else inl Record_error)
  | Some None =>
      w ← call (Publish_immutable r d);
      match w with
      | None => fail Record_error
      | Some true => mret (inr ())
      | Some false =>
          y ← call (Stored r);
          match y with
          | None => fail Record_error
          | Some d' => mret (if bool_decide (d' = Some d) then inr () else inl Record_error)
          end
      end
  end.

(** [publish_children]. *)
Definition publish_children (plan : Plan) (digests keys : list string) : prog dop (fault + ()) :=
  match _publication_index plan digests keys with
  | inl e => fail e
  | inr ix => settle Publication_json ix
  end.

(** The children against the plan, with what they report. *)
Fixpoint gather (ts : list Task) (p : Policy) (plan : Plan) (ordinal : Z) (cs : list Child) : fault + list (Manifest * (string * string)) :=
  match cs with
  | [] => inr []
  | c :: cs =>
      match membership ts p plan ordinal with
      | None => inl Outside
      | Some expected =>
          if negb (bool_decide (ch_membership c = Some expected)) then inl Record_error
          else
            match ch_document c with
            | Some (digest, Some m) =>
                if negb (_validate_child_result_manifest m) then inl Bad_document
                else if negb (bool_decide (mf_ordinal m = ordinal)) then inl Record_error
                else
                  match gather ts p plan (ordinal + 1) cs with
                  | inl e => inl e
                  | inr rest => inr ((m, (ch_key c, digest)) :: rest)
                  end
            | _ => inl Missing_child
            end
      end
  end.

(** [complete_group]. *)
Definition complete_group (ts : list Task) (p : Policy) (plan : Plan) (cs : list Child) : prog dop (fault + Receipt) :=
  if negb (bool_decide (length cs = length (pl_partitions plan))) then fail Record_error
  else
    x ← call (Stored Publication_json);
    match x with
    | Some (Some ix) =>
        if negb (bool_decide (ix_parent ix = pl_parent plan) && bool_decide (ix_plan ix = pl_key plan)
                 && bool_decide (ix_children ix = ch_key <$> cs)) then fail Record_error
        else if negb (_validate_publication_index ix plan) then fail Bad_document
        else
          match gather ts p plan 0 cs with
          | inl e => fail e
          | inr found =>
              match verify_exact_cover ts plan (fst <$> found) with
              | inl e => fail e
              | inr cover =>
                  let receipt := mkReceipt cover (snd <$> found) in
                  r ← settle Group_json receipt;
                  mret (match r with inl e => inl e | inr _ => inr receipt end)
              end
          end
    | _ => fail Record_error
    end.
End decompose.

(** ** Runs beside others *)

Record onward (s s' : store) : Prop := mkLater {
  la_plan : ∀ d, st_plan s = Some d → st_plan s' = Some d;
  la_index : ∀ d, st_index s = Some d → st_index s' = Some d;
  la_group : ∀ d, st_group s = Some d → st_group s' = Some d }.

(** A handler run to its end, others publishing between its calls. *)
Inductive runs {A} : prog dop A → store → A → store → Prop :=
  | Runs_ret a s s' : onward s s' → runs (Ret a) s a s'
  | Runs_do {X} (o : dop X) k s s1 x s2 a s' :
      onward s s1 → dop_step _ o s1 x s2 → runs (k x) s2 a s' → runs (Do o k) s a s'.
