(* ===== verification/DecomposeSpec.v ===== *)
(** * What plans and groups guarantee

    A parent has one plan, whoever freezes it; a cover is exact if and only if
    the children answer every task of their batches once; a receipt that a
    completion returns is on file with the children of the frozen index. *)
From S2P Require Import Prelude.
From S2P Require Import CpuLearning.
From S2P Require Import Prog.
From S2P Require Import Partition.
From S2P Require Import PartitionFacts.
From S2P Require Import PartitionSpec.
From S2P Require Import Decompose.
From Stdlib Require Import QArith.QArith.
From stdpp Require Import options.

Open Scope Z_scope.

(** ** Cover *)

(** A child's results answer its batch. *)
Definition answers (ts : list Task) (batch : list string) (rs : list Result) : Prop :=
  re_task <$> rs ≡ₚ batch ∧ ∀ r, r ∈ rs → ∃ t, t ∈ ts ∧ tk_id t = re_task r ∧ tk_output t = re_output r.

(** The manifests, in the order of the plan, answer it. *)
Record whole (ts : list Task) (plan : Plan) (ms : list Manifest) : Prop := mkWhole {
  wh_length : length ms = length (pl_partitions plan);
  wh_each : ∀ o m, ms !! o = Some m →
    mf_ordinal m = Z.of_nat o ∧ _validate_child_result_manifest m = true ∧ mf_parent m = pl_parent plan ∧ mf_plan m = pl_key plan;
  wh_answers : Forall2 (answers ts) (pl_partitions plan) (mf_results <$> ms) }.

Lemma output_by_task_iff ts id output : NoDup (tk_id <$> ts) →
  output_by_task ts id = Some output ↔ ∃ t, t ∈ ts ∧ tk_id t = id ∧ tk_output t = output.
Proof.
  intros Hnd. unfold output_by_task. rewrite fmap_Some. split.
  - intros (t & Ht & ->). apply last_Some_elem_of, list_elem_of_filter in Ht as [Hid Ht]. by exists t.
  - intros (t & Ht & Hid & Hout). assert (t ∈ filter (λ t, tk_id t = id) ts) as Hin by by apply list_elem_of_filter.
    destruct (last (filter _ ts)) as [t'|] eqn:El.
    + exists t'. split; [done|]. apply last_Some_elem_of, list_elem_of_filter in El as [Hid' Ht'].
      apply list_elem_of_lookup in Ht as [i Hi], Ht' as [j Hj]. assert (i = j) as ->.
      { eapply (NoDup_lookup (tk_id <$> ts) i j id); [exact Hnd| |]; rewrite list_lookup_fmap; [rewrite Hi|rewrite Hj]; cbn; congruence. }
      congruence.
    + apply last_None in El. rewrite El in Hin. by apply elem_of_nil in Hin.
Qed.

Lemma check_manifests_iff plan ms : check_manifests plan ms = None ↔
  ∀ m, m ∈ ms → _validate_child_result_manifest m = true ∧ mf_ordinal m < Z.of_nat (length (pl_partitions plan))
    ∧ mf_parent m = pl_parent plan ∧ mf_plan m = pl_key plan.
Proof.
  induction ms as [|m ms IH]; cbn [check_manifests]; [split; [by intros _ m ?%elem_of_nil|done]|].
  destruct (_validate_child_result_manifest m) eqn:Ev; cbn [negb].
  2: { split; [done|]. intros H. destruct (H m ltac:(by left)); congruence. }
  repeat (case_bool_decide; cbn [negb]; [|by split; [done|]; intros Hall; destruct (Hall m ltac:(by left)) as (? & ? & ? & ?)]).
  rewrite IH. split; [intros Hall m' [-> |Hin]%elem_of_cons; auto|intros Hall m' Hin; apply Hall; by right].
Qed.

Lemma index_manifests_iff ms found0 found : index_manifests ms found0 = inr found ↔
  NoDup (mf_ordinal <$> ms) ∧ (∀ m, m ∈ ms → found0 !! mf_ordinal m = None) ∧ found = foldl (λ f m, <[mf_ordinal m := m]> f) found0 ms.
Proof.
  revert found0. induction ms as [|m ms IH]; intros found0; cbn [index_manifests foldl fmap list_fmap].
  { split; [intros [= <-]; split_and!; [constructor|by intros m ?%elem_of_nil|done]|by intros (_ & _ & ->)]. }
  case_bool_decide as E.
  { split; [done|]. intros (_ & H & _). rewrite (H m) in E by by left. by destruct E. }
  apply eq_None_not_Some in E. rewrite IH, NoDup_cons. split.
  - intros (Hnd & Hno & ->). split_and!; [|done| |done].
    + intros (m' & Hm' & Hin)%list_elem_of_fmap. specialize (Hno m' Hin). rewrite <-Hm', lookup_insert_eq in Hno. done.
    + intros m' [-> |Hin]%elem_of_cons; [done|]. specialize (Hno m' Hin). by apply lookup_insert_None in Hno as [? _].
  - intros ([Hn Hnd] & Hno & ->). split_and!; [done| |done]. intros m' Hin. apply lookup_insert_None. split; [apply Hno; by right|].
    intros Ho. apply Hn, list_elem_of_fmap. by exists m'.
Qed.

Lemma indexed_lookup ms (found0 : gmap Z Manifest) o m : NoDup (mf_ordinal <$> ms) →
  foldl (λ f m, <[mf_ordinal m := m]> f) found0 ms !! o = Some m
  ↔ (m ∈ ms ∧ mf_ordinal m = o) ∨ (o ∉ mf_ordinal <$> ms) ∧ found0 !! o = Some m.
Proof.
  revert found0. induction ms as [|m0 ms IH]; intros found0; cbn [foldl fmap list_fmap].
  { intros _. set_solver. }
  rewrite NoDup_cons. intros [Hn Hnd]. rewrite IH by done. rewrite lookup_insert, !elem_of_cons. split.
  - intros [[Hin Ho]|[Hno Hl]]; [left; split; [by right|done]|]. case_decide as E; [injection Hl as ->; left; split; [by left|done]|right; split; [|done]].
    intros [?|?]; congruence.
  - intros [[[-> |Hin] Ho]|[Hno Hl]].
    + right. subst o. split; [done|]. by rewrite decide_True.
    + by left.
    + right. split; [tauto|]. rewrite decide_False; [done|]. intros ?. apply Hno. by left.
Qed.

Lemma check_results_iff ts batch rs A A' : NoDup (tk_id <$> ts) → check_results ts batch rs A = inr A' ↔
  (∀ r, r ∈ rs → re_task r ∈ batch ∧ ∃ t, t ∈ ts ∧ tk_id t = re_task r ∧ tk_output t = re_output r)
  ∧ NoDup (re_task <$> rs) ∧ (∀ r, r ∈ rs → re_task r ∉ A) ∧ A' = foldl (λ A r, {[re_task r]} ∪ A) A rs.
Proof.
  intros Hts. revert A. induction rs as [|r rs IH]; intros A; cbn [check_results foldl fmap list_fmap].
  { split; [intros [= <-]; split_and!; [by intros r ?%elem_of_nil|constructor|by intros r ?%elem_of_nil|done]|by intros (_ & _ & _ & ->)]. }
  case_bool_decide as Hb; cbn [negb].
  2: { split; [done|]. intros (H & _). by destruct (H r ltac:(by left)). }
  destruct (output_by_task ts (re_task r)) as [output|] eqn:Eo.
  2: { split; [done|]. intros (H & _). destruct (H r ltac:(by left)) as (_ & Hr%output_by_task_iff); [congruence|done]. }
  case_bool_decide as Ho; cbn [negb].
  2: { split; [done|]. intros (H & _). destruct (H r ltac:(by left)) as (_ & Hr%output_by_task_iff); [congruence|done]. }
  subst output. apply output_by_task_iff in Eo; [|done].
  case_bool_decide as Ha.
  { split; [done|]. intros (_ & _ & H & _). by destruct (H r ltac:(by left)). }
  rewrite IH, NoDup_cons. split.
  - intros (H1 & H2 & H3 & ->). split_and!; [|intros (r' & E & Hin)%list_elem_of_fmap; destruct (H3 r' Hin); set_solver|done| |done].
    + intros r' [-> |Hin]%elem_of_cons; auto.
    + intros r' [-> |Hin]%elem_of_cons; [done|]. specialize (H3 r' Hin). set_solver.
  - intros (H1 & [H2 H2'] & H3 & ->). split_and!; [intros r' Hin; apply H1; by right|done| |done].
    intros r' Hin [E%elem_of_singleton|Hin']%elem_of_union; [apply H2, list_elem_of_fmap; by exists r'|]. eapply H3; [by right|done].
Qed.

Lemma answered_elem rs (A : gset string) id : id ∈ foldl (λ A r, {[re_task r]} ∪ A) A rs ↔ id ∈ re_task <$> rs ∨ id ∈ A.
Proof.
  revert A. induction rs as [|r rs IH]; intros A; cbn [foldl fmap list_fmap]; [set_solver|]. rewrite IH. set_solver.
Qed.

(** One batch: its results are accepted and leave nothing out exactly when
    they answer it. *)
Lemma batch_answered ts batch rs A : NoDup (tk_id <$> ts) → NoDup batch → (∀ id, id ∈ batch → id ∉ A) →
  (∃ A', check_results ts batch rs A = inr A' ∧ forallb (λ id, bool_decide (id ∈ A')) batch = true) ↔ answers ts batch rs.
Proof.
  intros Hts Hb HA. split.
  - intros (A' & Hr & Hall). apply check_results_iff in Hr as (H1 & H2 & H3 & ->); [|done]. split; [|intros r Hin; by destruct (H1 r Hin)].
    apply NoDup_Permutation; [done|done|]. intros id. split.
    + intros (r & -> & Hin)%list_elem_of_fmap. by destruct (H1 r Hin).
    + intros Hid. rewrite forallb_forall in Hall. specialize (Hall id (proj1 (list_elem_of_In _ _) Hid)).
      apply bool_decide_eq_true, answered_elem in Hall as [|Hin]; [done|]. by destruct (HA id Hid).
  - intros [Hp Ht]. eexists. split.
    + apply check_results_iff; [done|]. split_and!; [| | |reflexivity].
      * intros r Hin. split; [|auto]. rewrite <-Hp. apply list_elem_of_fmap. by exists r.
      * by rewrite Hp.
      * intros r Hin. apply HA. rewrite <-Hp. apply list_elem_of_fmap. by exists r.
    + apply forallb_forall. intros id Hid%list_elem_of_In. apply bool_decide_eq_true, answered_elem. left. by rewrite Hp.
Qed.

Lemma check_batches_iff ts found ordinal bs A : NoDup (tk_id <$> ts) → NoDup (concat bs) → (∀ id, id ∈ concat bs → id ∉ A) →
  (is_Some (match check_batches ts found ordinal bs A with inr A' => Some A' | inl _ => None end)
   ↔ ∃ ms, (∀ o m, ms !! o = Some m → found !! (ordinal + Z.of_nat o) = Some m) ∧ Forall2 (answers ts) bs (mf_results <$> ms))
  ∧ ∀ A', check_batches ts found ordinal bs A = inr A' → ∀ id, id ∈ concat bs ∨ id ∈ A → id ∈ A'.
Proof.
  intros Hts. revert ordinal A. induction bs as [|batch bs IH]; intros ordinal A Hnd HA; cbn [check_batches concat].
  { split; [|intros A' [= <-] id [?%elem_of_nil|]; done]. split; [|by eexists]. intros _. exists []. split; [done|constructor]. }
  cbn [concat] in Hnd, HA. apply NoDup_app in Hnd as (Hb & Hdis & Hnd).
  destruct (found !! ordinal) as [m|] eqn:Em.
  2: { split; [|done]. split; [by intros []|]. intros (ms & Hf & Ha). destruct ms as [|m ms]; [by inversion Ha|].
       specialize (Hf 0%nat m eq_refl). replace (ordinal + Z.of_nat 0) with ordinal in Hf by lia. congruence. }
  pose proof (batch_answered ts batch (mf_results m) A Hts Hb ltac:(intros; apply HA, elem_of_app; by left)) as Hbatch.
  assert (∀ ms, (∀ o m, ms !! o = Some m → found !! (ordinal + Z.of_nat o) = Some m) → Forall2 (answers ts) (batch :: bs) (mf_results <$> ms) →
    ∃ ms', ms = m :: ms' ∧ answers ts batch (mf_results m) ∧ (∀ o m, ms' !! o = Some m → found !! (ordinal + 1 + Z.of_nat o) = Some m)
      ∧ Forall2 (answers ts) bs (mf_results <$> ms')) as Hinv.
  { intros [|m' ms'] Hf Ha; [by inversion Ha|]. cbn [fmap list_fmap] in Ha. apply Forall2_cons in Ha as [Ha Hrest].
    assert (m' = m) as -> by (specialize (Hf 0%nat m' eq_refl); replace (ordinal + Z.of_nat 0) with ordinal in Hf by lia; congruence).
    exists ms'. split_and!; [done|done| |done]. intros o m' Ho. specialize (Hf (S o) m' Ho). rewrite <-Hf. f_equal. lia. }
  destruct (check_results ts batch (mf_results m) A) as [e|A1] eqn:Er.
  { split; [|done]. split; [by intros []|]. intros (ms & Hf & Ha). destruct (Hinv ms Hf Ha) as (ms' & -> & Hans & _).
    apply Hbatch in Hans as (? & ? & _). congruence. }
  destruct (forallb (λ id, bool_decide (id ∈ A1)) batch) eqn:Eall; cbn [negb].
  2: { split; [|done]. split; [by intros []|]. intros (ms & Hf & Ha). destruct (Hinv ms Hf Ha) as (ms' & -> & Hans & _).
       apply Hbatch in Hans as (A' & [= <-] & Hall). rewrite Eall in Hall. done. }
  assert (answers ts batch (mf_results m)) as Hans by (apply Hbatch; by exists A1).
  pose proof Er as Er'. apply check_results_iff in Er' as (_ & _ & _ & EA1); [|done].
  destruct (IH (ordinal + 1) A1 Hnd) as [IH1 IH2].
  { intros id Hid. rewrite EA1, answered_elem. destruct Hans as [-> _]. intros [Hin|Hin]; [by eapply Hdis|]. eapply HA; [|exact Hin]. apply elem_of_app. by right. }
  split.
  - rewrite IH1. split.
    + intros (ms & Hf & Ha). exists (m :: ms). split; [|by constructor]. intros [|o] m' Ho.
      * injection Ho as <-. by rewrite Z.add_0_r.
      * rewrite <-(Hf o m' Ho). f_equal. lia.
    + intros (ms & Hf & Ha). destruct (Hinv ms Hf Ha) as (ms' & -> & _ & Hf' & Ha'). by exists ms'.
  - intros A' HA' id [[Hin|Hin]%elem_of_app|Hin]; apply (IH2 A' HA'); [right|by left|right]; rewrite EA1, answered_elem; [left|by right].
    destruct Hans as [-> _]. done.
Qed.

Lemma found_iff (ms : list Manifest) o m : NoDup (mf_ordinal <$> ms) →
  foldl (λ f m, <[mf_ordinal m := m]> f) (∅ : gmap Z Manifest) ms !! o = Some m ↔ m ∈ ms ∧ mf_ordinal m = o.
Proof.
  intros Hnd. rewrite indexed_lookup by done. split; [intros [?|[_ H]]; [done|by rewrite lookup_empty in H]|tauto].
Qed.

Lemma merged_concat found ordinal ms : (∀ o m, ms !! o = Some m → found !! (ordinal + Z.of_nat o) = Some m) →
  merged found ordinal (length ms) = concat (mf_results <$> ms).
Proof.
  revert ordinal. induction ms as [|m ms IH]; intros ordinal Hf; [done|]. cbn [length merged fmap list_fmap concat].
  pose proof (Hf 0%nat m eq_refl) as H0. replace (ordinal + Z.of_nat 0) with ordinal in H0 by lia. rewrite H0, IH; [done|].
  intros o m' Ho. rewrite <-(Hf (S o) m' Ho). f_equal. lia.
Qed.

Lemma answers_length ts bs (ms : list Manifest) : Forall2 (answers ts) bs (mf_results <$> ms) → length ms = length bs.
Proof. intros H%Forall2_length. by rewrite length_fmap in H. Qed.

(** The manifests of a whole group in the plan's order. *)
Lemma whole_order ts plan ms ms' : ms' ≡ₚ ms → whole ts plan ms' →
  NoDup (mf_ordinal <$> ms) ∧ ∀ o m, ms' !! o = Some m → m ∈ ms ∧ mf_ordinal m = Z.of_nat o.
Proof.
  intros Hp [_ Heach _]. split.
  - rewrite <-Hp. apply NoDup_alt. intros i j x. rewrite !list_lookup_fmap. intros (m1 & H1 & ->)%fmap_Some (m2 & H2 & E)%fmap_Some.
    destruct (Heach _ _ H1) as [E1 _], (Heach _ _ H2) as [E2 _]. lia.
  - intros o m Ho. split; [rewrite <-Hp; by eapply list_elem_of_lookup_2|]. by destruct (Heach o m Ho).
Qed.

Lemma cover_accepts rk ts plan ms ms' :
  NoDup (tk_id <$> ts) → concat (pl_partitions plan) = tk_id <$> ts → ms' ≡ₚ ms → whole ts plan ms' →
  verify_exact_cover rk ts plan ms = inr (mkCover (pl_parent plan) (pl_key plan) (Z.of_nat (length ts)) (Z.of_nat (length (pl_partitions plan)))
                                            (rk (concat (mf_results <$> ms')))).
Proof.
  intros Hts Hcat Hp Hw. destruct (whole_order ts plan ms ms' Hp Hw) as [Hnd Hord]. destruct Hw as [Hlen Heach Hans].
  unfold verify_exact_cover. rewrite bool_decide_eq_true_2 by (by rewrite <-Hlen, Hp). cbn [negb].
  assert (check_manifests plan ms = None) as ->.
  { apply check_manifests_iff. intros m Hm. rewrite <-Hp in Hm. apply list_elem_of_lookup in Hm as [o Ho].
    destruct (Heach o m Ho) as (-> & ? & ? & ?). split_and!; [done| |done|done]. apply lookup_lt_Some in Ho. lia. }
  rewrite (proj2 (index_manifests_iff ms ∅ _)) by (split_and!; [done|intros; apply lookup_empty|reflexivity]).
  set (found := foldl _ _ _).
  assert (∀ o m, ms' !! o = Some m → found !! (0 + Z.of_nat o) = Some m) as Hf.
  { intros o m Ho. unfold found. rewrite (found_iff ms (0 + Z.of_nat o) m Hnd). destruct (Hord o m Ho) as [? ->]. split; [done|lia]. }
  destruct (check_batches_iff ts found 0 (pl_partitions plan) ∅ Hts) as [Hb Hin]; [by rewrite Hcat|set_solver|].
  destruct (check_batches ts found 0 (pl_partitions plan) ∅) as [e|A'].
  { destruct (proj2 Hb) as [? ?]; [by exists ms'|done]. }
  assert (forallb (λ t, bool_decide (tk_id t ∈ A')) ts = true) as ->.
  { apply forallb_forall. intros t Ht%list_elem_of_In. apply bool_decide_eq_true, (Hin A' eq_refl). left. rewrite Hcat.
    apply list_elem_of_fmap. by exists t. }
  cbn [negb]. rewrite <-Hlen, (merged_concat found 0 ms' Hf). done.
Qed.

Lemma cover_accepted rk ts plan ms c :
  NoDup (tk_id <$> ts) → concat (pl_partitions plan) = tk_id <$> ts → verify_exact_cover rk ts plan ms = inr c →
  ∃ ms', ms' ≡ₚ ms ∧ whole ts plan ms'.
Proof.
  intros Hts Hcat. unfold verify_exact_cover. case_bool_decide as Hlen; cbn [negb]; [|done].
  destruct (check_manifests plan ms) eqn:Ec; [done|]. destruct (index_manifests ms ∅) as [|found] eqn:Ei; [done|].
  apply index_manifests_iff in Ei as (Hnd & _ & Efound). rewrite check_manifests_iff in Ec.
  destruct (check_batches_iff ts found 0 (pl_partitions plan) ∅ Hts) as [Hb _]; [by rewrite Hcat|set_solver|].
  destruct (check_batches ts found 0 (pl_partitions plan) ∅) as [|A']; [done|]. intros _.
  destruct (proj1 Hb ltac:(by eexists)) as (ms' & Hf & Hans). pose proof (answers_length _ _ _ Hans) as Hlen'.
  assert (∀ o m, ms' !! o = Some m → m ∈ ms ∧ mf_ordinal m = Z.of_nat o) as Hord.
  { intros o m Ho. specialize (Hf o m Ho). rewrite Efound, (found_iff ms _ m Hnd) in Hf. destruct Hf as [? ->]. split; [done|lia]. }
  exists ms'. split.
  - apply submseteq_length_Permutation; [|by rewrite Hlen', Hlen]. apply NoDup_submseteq.
    + apply NoDup_alt. intros i j m Hi Hj. destruct (Hord _ _ Hi), (Hord _ _ Hj). lia.
    + intros m (o & Ho)%list_elem_of_lookup. by destruct (Hord o m Ho).
  - split; [done| |done]. intros o m Ho. destruct (Hord o m Ho) as [Hm E]. destruct (Ec m Hm) as (? & _ & ? & ?). done.
Qed.

Lemma whole_once ts plan ms : concat (pl_partitions plan) = tk_id <$> ts → whole ts plan ms →
  re_task <$> concat (mf_results <$> ms) ≡ₚ tk_id <$> ts.
Proof.
  intros <- [_ _ Hans]. induction Hans as [|batch rs bs rss [Hp _] _ IH]; cbn [concat]; [done|]. by rewrite fmap_app, Hp, IH.
Qed.

(** C27: a cover is exact.  For a plan that cuts its roster, the children's
    manifests are accepted, in whatever order they come, if and only if there
    is one for each batch of the plan, valid and under the plan's own parent
    and key, whose results answer the tasks of the batch once each and with
    the declared outputs; the receipt merges them in the plan's order, and the
    merged results answer every task of the roster exactly once. *)
Theorem cover_exact_iff results_key ts plan ms c :
  NoDup (tk_id <$> ts) → concat (pl_partitions plan) = tk_id <$> ts →
  (verify_exact_cover results_key ts plan ms = inr c ↔
   ∃ ms', ms' ≡ₚ ms ∧ whole ts plan ms'
     ∧ c = mkCover (pl_parent plan) (pl_key plan) (Z.of_nat (length ts)) (Z.of_nat (length (pl_partitions plan)))
             (results_key (concat (mf_results <$> ms'))))
  ∧ ∀ ms', whole ts plan ms' → re_task <$> concat (mf_results <$> ms') ≡ₚ tk_id <$> ts.
Proof.
  intros Hts Hcat. split; [split|intros ms'; by apply whole_once].
  - intros Hc. destruct (cover_accepted _ _ _ _ _ Hts Hcat Hc) as (ms' & Hp & Hw). exists ms'. split_and!; [done..|].
    rewrite (cover_accepts _ _ _ _ _ Hts Hcat Hp Hw) in Hc. by injection Hc as <-.
  - intros (ms' & Hp & Hw & ->). by apply cover_accepts.
Qed.

(** ** Records *)

#[export] Instance onward_refl : Reflexive onward.
Proof. by split. Qed.
#[export] Instance onward_trans : Transitive onward.
Proof. intros s1 s2 s3 [] []. split; auto. Qed.

Lemma put_later {D} (r : slot D) d s : look r s = None → onward s (put r d s).
Proof. destruct r; cbn; intros E; split; cbn; congruence. Qed.

Lemma look_put {D} (r : slot D) d s : look r (put r d s) = Some d.
Proof. by destruct r. Qed.

Lemma look_later {D} (r : slot D) s s' d : onward s s' → look r s = Some d → look r s' = Some d.
Proof. intros []. destruct r; cbn; auto. Qed.

Lemma step_later {X} (o : dop X) s x s' : dop_step X o s x s' → onward s s'.
Proof. inversion 1; subst; done || by apply put_later. Qed.

Lemma runs_later {A} (m : prog dop A) s a s' : runs m s a s' → onward s s'.
Proof. induction 1 as [|X o k s s1 x s2 a s' Hl Hst _ IH]; [done|]. etrans; [exact Hl|]. etrans; [by eapply step_later|done]. Qed.

(** What a run did at its first call, and what a call did. *)
Definition runs_first {A} (m : prog dop A) (s : store) (a : A) (s' : store) : Prop :=
  match m with
  | Ret a0 => a0 = a ∧ onward s s'
  | Do o k => ∃ s1 x s2, onward s s1 ∧ dop_step _ o s1 x s2 ∧ runs (k x) s2 a s'
  end.
Lemma runs_inv {A} (m : prog dop A) s a s' : runs m s a s' → runs_first m s a s'.
Proof. destruct 1 as [a s s' Hl|X o k s s1 x s2 a s' Hl Hst Hr]; cbn; [done|]. by exists s1, x, s2. Qed.

Definition call_answers {X} (o : dop X) : store → X → store → Prop :=
  match o in dop X return store → X → store → Prop with
  | Stored r => λ s x s', s' = s ∧ (x = Some (look r s) ∨ x = None)
  | Publish_immutable r d => λ s x s',
      look r s = None ∧ s' = put r d s ∧ (x = Some true ∨ x = None)
      ∨ s' = s ∧ (x = Some false ∧ is_Some (look r s) ∨ x = None)
  end.
Lemma dop_step_inv {X} (o : dop X) s x s' : dop_step X o s x s' → call_answers o s x s'.
Proof. destruct 1; cbn; eauto 8. Qed.

(** A record read stays on file. *)
Lemma runs_stored {D A} (r : slot D) (k : option (option D) → prog dop A) s a s' : runs (call (Stored r) ≫= k) s a s' →
  ∃ s1 x, onward s s1 ∧ runs (k x) s1 a s' ∧ (x = Some (look r s1) ∨ x = None).
Proof.
  intros (s1 & x & s2 & Hl & Hst%dop_step_inv & Hr)%runs_inv. destruct Hst as [-> Hx]. by exists s1, x.
Qed.

(** A publication that answers finds a record on file. *)
Lemma runs_published {D A} (r : slot D) d (k : option bool → prog dop A) s a s' : runs (call (Publish_immutable r d) ≫= k) s a s' →
  ∃ s1 x, onward s s1 ∧ runs (k x) s1 a s' ∧ (x = Some true → look r s1 = Some d).
Proof.
  intros (s1 & x & s2 & Hl & Hst%dop_step_inv & Hr)%runs_inv. destruct Hst as [(Hn & -> & Hx)|[-> Hx]].
  - exists (put r d s1), x. split_and!; [etrans; [done|by apply put_later]|done|intros _; apply look_put].
  - exists s1, x. split_and!; [done|done|]. intros ->. by destruct Hx as [[? _]|?].
Qed.

Lemma runs_mret {A} (a0 a : A) s s' : runs (mret a0) s a s' → a0 = a ∧ onward s s'.
Proof. intros H%runs_inv. exact H. Qed.

Lemma runs_bind {A B} (m : prog dop A) (k : A → prog dop B) s b s' : runs (m ≫= k) s b s' → ∃ a s1, runs m s a s1 ∧ runs (k a) s1 b s'.
Proof.
  revert s. induction m as [a|X o f IH]; intros s Hr.
  - exists a, s. split; [by constructor|exact Hr].
  - change (Do o f ≫= k) with (Do o (λ x, f x ≫= k)) in Hr. apply runs_inv in Hr as (s1 & x & s2 & Hl & Hst & Hr).
    destruct (IH x s2 Hr) as (a & s3 & Hm & Hk). exists a, s3. split; [by eapply Runs_do|done].
Qed.

(** A record settled is on file. *)
Lemma settled {D} `{EqDecision D} (r : slot D) d s u s' : runs (settle r d) s (inr u) s' → look r s' = Some d.
Proof.
  unfold settle. intros (s1 & x & _ & Hr & Hx)%runs_stored. destruct Hx as [-> | ->]; [|by apply runs_mret in Hr as [? _]].
  destruct (look r s1) as [d'|] eqn:E.
  { apply runs_mret in Hr as [Hd Hl]. case_bool_decide; [subst d'|done]. by eapply look_later. }
  apply runs_published in Hr as (s2 & [[]|] & _ & Hr & Hx); [| |by apply runs_mret in Hr as [? _]].
  - apply runs_mret in Hr as [_ Hl]. eapply look_later; [done|by apply Hx].
  - apply runs_stored in Hr as (s3 & y & _ & Hr & [-> | ->]); [|by apply runs_mret in Hr as [? _]].
    apply runs_mret in Hr as [Hd Hl]. case_bool_decide as E3; [|done]. by eapply look_later.
Qed.

Lemma adopted blueprint_key key stored plan : adopt blueprint_key key stored = inr plan → stored = Some plan ∧ pl_parent plan = key.
Proof.
  unfold adopt. destruct stored as [p|]; [|done]. destruct (_validate_plan blueprint_key p); [|done]. case_bool_decide; [|done]. by intros [= <-].
Qed.

Lemma built rnd pd bk rq fz plan : build_plan rnd pd bk rq fz = inr plan →
  validate_logical_request (rq_tasks rq) (rq_policy rq) = inr () ∧ partition_roster rnd (rq_tasks rq) (rq_policy rq) = inr (pl_partitions plan)
  ∧ parent_key pd fz (rq_tasks rq) (rq_policy rq) = inr (pl_parent plan).
Proof.
  unfold build_plan. destruct (validate_logical_request _ _) as [|[]]; [done|]. do 3 (destruct (negb _); [done|]).
  destruct (partition_roster rnd _ _); [done|]. destruct (parent_key pd fz _ _); [done|]. intros [= <-]. done.
Qed.

(** A plan built cuts its roster, whose ids are distinct. *)
Lemma built_cuts_roster rnd pd bk rq fz plan : rounding rnd → build_plan rnd pd bk rq fz = inr plan →
  NoDup (tk_id <$> rq_tasks rq) ∧ concat (pl_partitions plan) = tk_id <$> rq_tasks rq.
Proof.
  intros Hr (Hv%validate_request_valid & Hp & _)%built. destruct Hv as [Hpos Hids _ _ _]. split; [done|].
  unfold partition_roster in Hp. destruct (partition_tasks rnd _ _) as [|gs] eqn:E; [done|]. injection Hp as <-.
  destruct (partition_runs_cover _ _ _ _ _ _ Hr (λ t Ht, Qlt_le_weak _ _ (Hpos t Ht)) (runs_of_roster (rq_tasks rq)) E) as [<- _].
  clear. induction gs as [|g gs IH]; [done|]. cbn [concat fmap list_fmap]. by rewrite fmap_app, IH.
Qed.

(** A plan frozen is on file, under the parent's key. *)
Lemma frozen_filed rnd pd bk rq fz s plan s' : runs (freeze_plan rnd pd bk rq fz) s (inr plan) s' →
  st_plan s' = Some plan ∧ parent_key pd fz (rq_tasks rq) (rq_policy rq) = inr (pl_parent plan).
Proof.
  unfold freeze_plan. destruct (parent_key pd fz _ _) as [e|key] eqn:Ek; [by intros [? _]%runs_mret|].
  assert (∀ s1 stored s2, st_plan s1 = stored → runs (mret (adopt bk key stored)) s1 (inr plan) s2 →
    st_plan s2 = Some plan ∧ inr (A := fault) key = inr (pl_parent plan)) as Hadopt.
  { intros s1 stored s2 E [Ha Hl]%runs_mret. apply adopted in Ha as [-> <-]. split; [|done]. by apply (look_later Plan_json s1 s2). }
  intros (s1 & x & _ & Hr & Hx)%runs_stored. destruct Hx as [-> | ->]; [|by apply runs_mret in Hr as [? _]].
  cbn [look] in Hr. destruct (st_plan s1) as [d'|] eqn:E; [by eapply Hadopt|].
  destruct (build_plan rnd pd bk rq fz) as [e|built_plan] eqn:Eb; [by apply runs_mret in Hr as [? _]|].
  apply built in Eb as (_ & _ & Eb). rewrite Ek in Eb.
  apply runs_published in Hr as (s2 & [[]|] & _ & Hr & Hx); [| |by apply runs_mret in Hr as [? _]].
  - apply runs_mret in Hr as [[= <-] Hl]. split; [|done]. apply (look_later Plan_json s2 s' built_plan Hl), Hx, eq_refl.
  - apply runs_stored in Hr as (s3 & y & _ & Hr & [-> | ->]); [|by apply runs_mret in Hr as [? _]].
    exact (Hadopt s3 (look Plan_json s3) s' eq_refl Hr).
Qed.


(** The children gathered: each seals its batch and reports under its own
    ordinal. *)
Lemma gathered rk pk ts p plan ordinal cs found : gather rk pk ts p plan ordinal cs = inr found →
  length found = length cs ∧ ∀ i c, cs !! i = Some c →
    ∃ m digest, found !! i = Some (m, (ch_key c, digest)) ∧ ch_document c = Some (digest, Some m)
      ∧ membership rk pk ts p plan (ordinal + Z.of_nat i) = ch_membership c ∧ mf_ordinal m = ordinal + Z.of_nat i
      ∧ _validate_child_result_manifest m = true.
Proof.
  revert ordinal found. induction cs as [|c cs IH]; intros ordinal found; cbn [gather]; [by intros [= <-]|].
  destruct (membership rk pk ts p plan ordinal) as [expected|] eqn:Em; [|done]. case_bool_decide as Ec; cbn [negb]; [|done].
  destruct (ch_document c) as [[digest [m|]]|] eqn:Ed; [|done..]. destruct (_validate_child_result_manifest m) eqn:Ev; cbn [negb]; [|done].
  case_bool_decide as Eo; cbn [negb]; [|done]. destruct (gather rk pk ts p plan (ordinal + 1) cs) as [|rest] eqn:Eg; [done|]. intros [= <-].
  apply IH in Eg as [Hlen Hall]. split; [cbn; by rewrite Hlen|]. intros [|i] c' Hi.
  - injection Hi as <-. exists m, digest. rewrite Z.add_0_r. split_and!; [done|done|congruence|done|done].
  - destruct (Hall i c' Hi) as (m' & digest' & H1 & H2 & H3 & H4 & H5). exists m', digest'.
    replace (ordinal + Z.of_nat (S i)) with (ordinal + 1 + Z.of_nat i) by lia. done.
Qed.

(** What the completion of a group has checked when it returns a receipt. *)
Lemma completed rk pk resk ts p plan cs s rc s' : runs (complete_group rk pk resk ts p plan cs) s (inr rc) s' →
  st_group s' = Some rc ∧ ∃ ix found, st_index s' = Some ix ∧ ix_parent ix = pl_parent plan ∧ ix_plan ix = pl_key plan ∧ ix_children ix = ch_key <$> cs
    ∧ gather rk pk ts p plan 0 cs = inr found ∧ verify_exact_cover resk ts plan (fst <$> found) = inr (rc_cover rc) ∧ rc_children rc = snd <$> found.
Proof.
  unfold complete_group. destruct (negb _); [by intros [? _]%runs_mret|].
  intros (s1 & x & Hl & Hr & Hx)%runs_stored. destruct Hx as [-> | ->]; [|by apply runs_mret in Hr as [? _]].
  cbn [look] in Hr. destruct (st_index s1) as [ix|] eqn:Eix; [|by apply runs_mret in Hr as [? _]].
  destruct (bool_decide (ix_parent ix = _) && _ && _) eqn:Eb; cbn [negb] in Hr; [|by apply runs_mret in Hr as [? _]].
  apply andb_prop in Eb as [[E1 E2]%andb_prop E3]. apply bool_decide_eq_true in E1, E2, E3.
  destruct (_validate_publication_index ix plan); cbn [negb] in Hr; [|by apply runs_mret in Hr as [? _]].
  destruct (gather rk pk ts p plan 0 cs) as [|found] eqn:Eg; [by apply runs_mret in Hr as [? _]|].
  destruct (verify_exact_cover resk ts plan (fst <$> found)) as [|cover] eqn:Ec; [by apply runs_mret in Hr as [? _]|].
  pose proof (runs_later _ _ _ _ Hr) as Hl'. assert (st_index s' = Some ix) as Eix' by by apply (look_later Publication_json s1 s').
  assert (∃ r s2, runs (settle Group_json (mkReceipt cover (snd <$> found))) s1 r s2 ∧
    runs (mret (match r with inl e => inl e | inr _ => inr (mkReceipt cover (snd <$> found)) end)) s2 (inr (A := fault) rc) s') as (r & s2 & Hset & Hret)
    by by apply runs_bind.
  apply runs_mret in Hret as [Hrc Hl2]. destruct r as [e|[]]; [done|]. injection Hrc as <-. apply settled in Hset.
  split; [by apply (look_later Group_json s2 s')|]. by exists ix, found.
Qed.

(** Manifests in the order of their ordinals come in one way. *)
Lemma ordinals_order (ms ms' : list Manifest) : ms' ≡ₚ ms →
  (∀ o m, ms !! o = Some m → mf_ordinal m = Z.of_nat o) → (∀ o m, ms' !! o = Some m → mf_ordinal m = Z.of_nat o) → ms' = ms.
Proof.
  intros Hp H H'. apply list_eq_same_length with (length ms); [done|by rewrite Hp|]. intros o m' m _ Ho' Ho.
  assert (m' ∈ ms) as (j & Hj)%list_elem_of_lookup by (rewrite <-Hp; by eapply list_elem_of_lookup_2).
  pose proof (H _ _ Hj). pose proof (H' _ _ Ho'). assert (j = o) as -> by lia. congruence.
Qed.

(** A group receipt's cover. *)
Definition cover_of (results_key : list Result → string) (ts : list Task) (plan : Plan) (ms : list Manifest) : Cover :=
  mkCover (pl_parent plan) (pl_key plan) (Z.of_nat (length ts)) (Z.of_nat (length (pl_partitions plan))) (results_key (concat (mf_results <$> ms))).

(** C29: a group closes on its frozen children only.  For a plan that cuts its
    roster, a completion that returns a receipt leaves that receipt on file
    beside the publication index of its plan, which names exactly the children
    given, in order; each child seals the batch of its place in the plan and
    reports a manifest, and the manifests in that order answer every batch;
    the receipt is theirs, and any other completion over the same records
    returns the same one. *)
Theorem group_receipt_exact roster_key policy_key results_key ts p plan cs s rc s' :
  NoDup (tk_id <$> ts) → concat (pl_partitions plan) = tk_id <$> ts →
  runs (complete_group roster_key policy_key results_key ts p plan cs) s (inr rc) s' →
  st_group s' = Some rc
  ∧ (∃ ix, st_index s' = Some ix ∧ ix_parent ix = pl_parent plan ∧ ix_plan ix = pl_key plan
      ∧ ix_children ix = ch_key <$> cs ∧ fst <$> rc_children rc = ix_children ix)
  ∧ (∀ o c, cs !! o = Some c → ch_membership c = membership roster_key policy_key ts p plan (Z.of_nat o))
  ∧ (∃ ms, (∀ o c, cs !! o = Some c → ∃ digest m, ch_document c = Some (digest, Some m) ∧ ms !! o = Some m)
      ∧ whole ts plan ms ∧ rc_cover rc = cover_of results_key ts plan ms)
  ∧ ∀ cs2 s2 rc2 s2' u, runs (complete_group roster_key policy_key results_key ts p plan cs2) s2 (inr rc2) s2' →
      onward s' u → onward s2' u → rc2 = rc.
Proof.
  intros Hts Hcat (Hrc & ix & found & Hix & E1 & E2 & E3 & Hg & Hv & Hch)%completed. apply gathered in Hg as [Hlen Hall].
  assert (∀ o f, found !! o = Some f → ∃ c m digest, cs !! o = Some c ∧ f = (m, (ch_key c, digest)) ∧ mf_ordinal m = Z.of_nat o) as Hfound.
  { intros o f Ho. destruct (lookup_lt_is_Some_2 cs o) as [c Hc]; [rewrite <-Hlen; by eapply lookup_lt_Some|].
    destruct (Hall o c Hc) as (m & digest & Hf & _ & _ & Hord & _). exists c, m, digest. split_and!; [done|congruence|done]. }
  split_and!; [done| | | |].
  - exists ix. split_and!; [done..|]. rewrite Hch, E3, <-list_fmap_compose. apply list_eq_same_length with (length cs); [by rewrite length_fmap..|].
    intros o x y _. rewrite !list_lookup_fmap. intros (f & Hf & ->)%fmap_Some (c & Hc & ->)%fmap_Some.
    destruct (Hfound o f Hf) as (c' & m & digest & Hc' & -> & _). cbn. congruence.
  - intros o c Hc. by destruct (Hall o c Hc) as (m & digest & _ & _ & <- & _).
  - destruct (cover_accepted _ _ _ _ _ Hts Hcat Hv) as (ms & Hp & Hw).
    assert (ms = fst <$> found) as ->.
    { apply (ordinals_order _ _ Hp); [|intros o m Ho; by destruct (wh_each _ _ _ Hw o m Ho)].
      intros o m. rewrite list_lookup_fmap. intros (f & Hf & ->)%fmap_Some. by destruct (Hfound o f Hf) as (c & m & digest & _ & -> & ?). }
    exists (fst <$> found). split_and!; [|done|].
    + intros o c Hc. destruct (Hall o c Hc) as (m & digest & Hf & Hd & _). exists digest, m. split; [done|]. by rewrite list_lookup_fmap, Hf.
    + rewrite (cover_accepts _ _ _ _ _ Hts Hcat (Permutation_refl _) Hw) in Hv. by injection Hv as <-.
  - intros cs2 s2 rc2 s2' u [Hrc2 _]%completed Hl Hl2. pose proof (look_later Group_json _ _ _ Hl Hrc) as F1.
    pose proof (look_later Group_json _ _ _ Hl2 Hrc2) as F2. congruence.
Qed.

(** ** An instance *)

Definition pkey : string := "aaaaaaaaaaaaaaaaaaaaaaaaaaaaaaaaaaaaaaaaaaaaaaaaaaaaaaaaaaaaaaaa".
Definition bkey : string := "bbbbbbbbbbbbbbbbbbbbbbbbbbbbbbbbbbbbbbbbbbbbbbbbbbbbbbbbbbbbbbbb".
Definition sample_frozen : Frozen := mkFrozen ["run"; TASK_BATCH_PLACEHOLDER] None "common".
Definition sample_request : Request := mkRequest ["run"; TASK_BATCH_PLACEHOLDER] None sample_roster sample_policy.
Definition sample_plan : Plan := mkPlan pkey PARTITION_ALGORITHM_VERSION [["a"]; ["b"]; ["c"; "d"]; ["e"]] bkey.
Definition sample_parent : Frozen → list Task → Policy → string := λ _ _ _, pkey.
Definition sample_blueprint : string → string → list (list string) → string := λ _ _ _, bkey.
Definition sample_results : list Result → string := foldr (λ r s, String.append (re_task r) s) EmptyString.
Definition sample_manifest (ordinal : Z) (rs : list (string * string)) : Manifest :=
  mkManifest pkey bkey ordinal ((λ r, mkResult r.1 r.2 pkey) <$> rs).
Definition sample_manifests : list Manifest :=
  [sample_manifest 0 [("a", "oa")]; sample_manifest 1 [("b", "ob")]; sample_manifest 2 [("d", "od"); ("c", "oc")]; sample_manifest 3 [("e", "oe")]].
Definition sample_children : list Child :=
  imap (λ i m, mkChild (if decide (i = 0)%nat then pkey else bkey)
                 (membership (λ _, pkey) (λ _, pkey) sample_roster sample_policy sample_plan (Z.of_nat i)) (Some (bkey, Some m))) sample_manifests.
Definition sample_index : Index := mkIndex pkey bkey [pkey; pkey; pkey; pkey] [pkey; bkey; bkey; bkey].
Definition sample_receipt : Receipt :=
  mkReceipt (mkCover pkey bkey 5 4 "abdce") [(pkey, bkey); (bkey, bkey); (bkey, bkey); (bkey, bkey)].

Lemma sample_ids : NoDup (tk_id <$> sample_roster).
Proof. apply (bool_decide_eq_true_1 (NoDup (tk_id <$> sample_roster))). vm_compute. reflexivity. Qed.

Lemma runs_call {X A} (o : dop X) (k : X → prog dop A) s s1 x s2 a s' :
  onward s s1 → dop_step _ o s1 x s2 → runs (k x) s2 a s' → runs (call o ≫= k) s a s'.
Proof. intros Hl Hst Hr. exact (Runs_do o k s s1 x s2 a s' Hl Hst Hr). Qed.

(** Manifests that come in another order. *)
Lemma cover_exact_iff_witness :
  verify_exact_cover sample_results sample_roster sample_plan (reverse sample_manifests) = inr (mkCover pkey bkey 5 4 "abdce")
  ∧ ∃ ms', ms' ≡ₚ reverse sample_manifests ∧ whole sample_roster sample_plan ms'.
Proof.
  assert (verify_exact_cover sample_results sample_roster sample_plan (reverse sample_manifests) = inr (mkCover pkey bkey 5 4 "abdce")) as E
    by (vm_compute; reflexivity).
  split; [exact E|].
  destruct (cover_exact_iff sample_results sample_roster sample_plan (reverse sample_manifests) (mkCover pkey bkey 5 4 "abdce") sample_ids
    ltac:(reflexivity)) as [H _].
  apply H in E as (ms' & Hp & Hw & _). exists ms'. exact (conj Hp Hw).
Defined.


Lemma group_receipt_exact_witness :
  let s := mkStore (Some sample_plan) (Some sample_index) None in
  let s' := mkStore (Some sample_plan) (Some sample_index) (Some sample_receipt) in
  runs (complete_group (λ _, pkey) (λ _, pkey) sample_results sample_roster sample_policy sample_plan sample_children) s (inr sample_receipt) s'
  ∧ ∃ ms, whole sample_roster sample_plan ms ∧ rc_cover sample_receipt = cover_of sample_results sample_roster sample_plan ms.
Proof.
  intros s s'. set (found := zip sample_manifests (rc_children sample_receipt)).
  assert (gather (λ _, pkey) (λ _, pkey) sample_roster sample_policy sample_plan 0 sample_children = inr found) as Eg by (vm_compute; reflexivity).
  assert (verify_exact_cover sample_results sample_roster sample_plan (fst <$> found) = inr (rc_cover sample_receipt)) as Ec by (vm_compute; reflexivity).
  assert (_validate_publication_index sample_index sample_plan = true) as Ev by (vm_compute; reflexivity).
  assert (bool_decide (ix_parent sample_index = pl_parent sample_plan) && bool_decide (ix_plan sample_index = pl_key sample_plan)
    && bool_decide (ix_children sample_index = ch_key <$> sample_children) = true) as Ei by (vm_compute; reflexivity).
  assert (bool_decide (length sample_children = length (pl_partitions sample_plan)) = true) as El by (vm_compute; reflexivity).
  assert (mkReceipt (rc_cover sample_receipt) (snd <$> found) = sample_receipt) as Er by (vm_compute; reflexivity).
  assert (runs (complete_group (λ _, pkey) (λ _, pkey) sample_results sample_roster sample_policy sample_plan sample_children) s (inr sample_receipt) s') as R.
  { unfold complete_group. rewrite El. cbv beta iota delta [negb]. eapply runs_call; [reflexivity|apply (Step_stored Publication_json)|].
    cbv beta iota delta [look st_index s]. rewrite Ei, Ev, Eg. cbv beta iota delta [negb]. rewrite Ec, Er. cbv beta iota zeta.
    eapply (runs_call (Stored Group_json)); [reflexivity|apply (Step_stored Group_json)|]. cbv beta iota delta [look st_group s].
    eapply (runs_call (Publish_immutable Group_json sample_receipt)); [reflexivity|by apply (Step_won Group_json)|]. by constructor. }
  destruct (built_cuts_roster grid sample_parent sample_blueprint sample_request sample_frozen sample_plan grid_rounding
    ltac:(vm_compute; reflexivity)) as [Hts Hcat].
  split; [exact R|].
  destruct (group_receipt_exact (λ _, pkey) (λ _, pkey) sample_results sample_roster sample_policy sample_plan sample_children s sample_receipt s'
    Hts Hcat R) as (_ & _ & _ & (ms & _ & Hw & Hc) & _). exists ms. exact (conj Hw Hc).
Defined.

(** ** Commands *)

Lemma no_slot l path : slots l = 0%nat → (λ part, if bool_decide (part = TASK_BATCH_PLACEHOLDER) then path else part) <$> l = l ∧ TASK_BATCH_PLACEHOLDER ∉ l.
Proof.
  induction l as [|part l IH]; [intros _; split; [done|by intros ?%elem_of_nil]|]. unfold slots. rewrite filter_cons. destruct (decide (part = TASK_BATCH_PLACEHOLDER)) as [E|E]; [done|].
  intros Hs. destruct (IH Hs) as [IH1 IH2]. rewrite fmap_cons, IH1, bool_decide_eq_false_2 by done.
  split; [done|]. intros [?|?]%elem_of_cons; [congruence|done].
Qed.

(** A batch has one place in its command.  A command that passes the
    request's check carries the placeholder as one whole argument and embeds
    it in no other; resolving a batch puts its path, whatever characters it
    has, in that one place and changes no other argument. *)
Theorem batch_resolved_in_place argv batch_path :
  _validate_batch_argv argv = true →
  ∃ before after, argv = before ++ TASK_BATCH_PLACEHOLDER :: after
    ∧ resolve_task_batch argv batch_path = Some (before ++ batch_path :: after)
    ∧ ∀ part, part ∈ before ++ after → contains TASK_BATCH_PLACEHOLDER part = false.
Proof.
  intros [[[_ _]%andb_prop Hno]%andb_prop Hone]%andb_prop. apply bool_decide_eq_true in Hone.
  unfold resolve_task_batch. rewrite bool_decide_eq_true_2 by done. pose proof Hone as Hone'. unfold slots in Hone'.
  assert (TASK_BATCH_PLACEHOLDER ∈ argv) as (l1 & l2 & ->)%list_elem_of_split.
  { destruct (filter _ argv) as [|x l] eqn:E; [done|]. assert (x ∈ x :: l) as Hx by by left. rewrite <-E in Hx. by apply list_elem_of_filter in Hx as [-> ?]. }
  unfold slots in Hone. rewrite filter_app, length_app, filter_cons, decide_True in Hone by done. cbn [length] in Hone.
  destruct (no_slot l1 batch_path) as [E1 N1]; [unfold slots; lia|]. destruct (no_slot l2 batch_path) as [E2 N2]; [unfold slots; lia|].
  exists l1, l2. split_and!; [done| |].
  - rewrite fmap_app, fmap_cons, E1, E2. by rewrite bool_decide_eq_true_2.
  - intros part Hpart. rewrite forallb_forall in Hno. specialize (Hno part). destruct (contains TASK_BATCH_PLACEHOLDER part); [|done].
    rewrite bool_decide_eq_false_2 in Hno; [|intros ->; by apply elem_of_app in Hpart as [?|?]]. exfalso.
    assert (false = true) as E; [|discriminate E]. apply Hno, list_elem_of_In. apply elem_of_app in Hpart as [?|?]; apply elem_of_app; [by left|right; by right].
Qed.

Lemma batch_resolved_in_place_witness :
  _validate_batch_argv ["python"; "run it.py"; TASK_BATCH_PLACEHOLDER; "--all"]%string = true
  ∧ ∃ before after, ["python"; "run it.py"; TASK_BATCH_PLACEHOLDER; "--all"]%string = before ++ TASK_BATCH_PLACEHOLDER :: after
    ∧ resolve_task_batch ["python"; "run it.py"; TASK_BATCH_PLACEHOLDER; "--all"]%string "$HOME/a b" = Some (before ++ "$HOME/a b"%string :: after).
Proof.
  assert (_validate_batch_argv ["python"; "run it.py"; TASK_BATCH_PLACEHOLDER; "--all"]%string = true) as E by (vm_compute; reflexivity).
  destruct (batch_resolved_in_place _ "$HOME/a b" E) as (before & after & H1 & H2 & _). exact (conj E (ex_intro _ before (ex_intro _ after (conj H1 H2)))).
Defined.
