(* ===== verification/FileStore.v ===== *)
(** * Files written once and files replaced whole ([immutable_files.py])

    The directory walk without symbolic links, first-writer publication by hard
    link, replacement by rename, and the stable reads, as programs over system
    calls.  The state has inodes and directory entries; callers run
    interleaved call by call and die anywhere.  A sealed name is only ever
    linked, a current name is replaced by renaming a whole file over it; and
    the pool's retention and its registries remove names of both kinds, after
    which a sealed name can be linked again. *)
From S2P Require Import Prelude.
From S2P Require Import Prog.
From Stdlib Require Import Strings.Ascii.
From stdpp Require Import options.

(** ** Files *)

Definition bytes : Type := list ascii.

Inductive node := File (content : bytes) (readonly : bool) | Folder | Other.

(** A name in a directory: a subdirectory, a sealed or a current record, or
    the [k]th temporary file, of the record [n]. *)
Inductive entry := Sub (c : string) | Sealed (n : string) | Current (n : string) | Temp (n : string) (k : nat).
#[export] Instance entry_eq_dec : EqDecision entry.
Proof. solve_decision. Defined.
#[export] Instance entry_countable : Countable entry.
Proof.
  refine (inj_countable'
    (λ e, match e with Sub c => inl (inl c) | Sealed n => inl (inr n) | Current n => inr (inl n) | Temp n k => inr (inr (n, k)) end)
    (λ x, match x with inl (inl c) => Sub c | inl (inr n) => Sealed n | inr (inl n) => Current n | inr (inr (n, k)) => Temp n k end) _).
  by intros [].
Defined.

(** Inodes and entries; and what happened: the inodes whose bytes are final,
    who made an inode, the inode of a temporary name, the inodes a current name
    was given in order, those a sealed name was given, and what callers asked to
    write. *)
Record fs := mkFs {
  f_nodes : gmap nat node;
  f_dirs : gmap (nat * entry) nat;
  f_final : gmap nat bytes;
  f_maker : gmap nat nat;
  f_temps : gmap nat nat;
  f_log : gmap (nat * string) (list nat);
  f_seals : gmap (nat * string) (list nat);
  f_asked : gset (string * bytes) }.

Definition ROOT : nat := 0.
Definition empty : fs := mkFs {[ROOT := Folder]} ∅ ∅ ∅ ∅ ∅ ∅ ∅.

Definition log (s : fs) (d : nat) (n : string) : list nat := default [] (f_log s !! (d, n)).

(** The files a sealed name was given, and how often the name was removed: the
    name leads to the last of them, or to nothing. *)
Definition seals (s : fs) (d : nat) (n : string) : list nat := default [] (f_seals s !! (d, n)).
Definition removals (s : fs) (d : nat) (n : string) : nat :=
  length (seals s d n) - match f_dirs s !! (d, Sealed n) with Some _ => 1 | None => 0 end.

(** The directory of a path whose components are all real. *)
Fixpoint resolve_from (s : fs) (d : nat) (ps : list string) : option nat :=
  match ps with
  | [] => Some d
  | c :: ps =>
      match f_dirs s !! (d, Sub c) with
      | Some i => match f_nodes s !! i with Some Folder => resolve_from s i ps | _ => None end
      | None => None
      end
  end.
Definition resolve (s : fs) (ps : list string) : option nat := resolve_from s ROOT ps.

(** [os.stat_result], as far as it is compared. *)
Record Stat := mkStat { st_ino : nat; st_reg : bool; st_ro : bool; st_size : nat; st_mtime : Z; st_nlink : Z; st_ctime : Z }.

(** What a stat of an inode says; times and link counts say anything. *)
Definition shows (s : fs) (i : nat) (st : Stat) : Prop :=
  st_ino st = i ∧
  match f_nodes s !! i with
  | Some (File b ro) => st_reg st = true ∧ st_ro st = ro ∧ st_size st = length b
  | Some _ => st_reg st = false
  | None => False
  end.

(** ** System calls *)

(** An open or a stat: what it found, [ENOENT], a symbolic link or not a
    directory, [EAGAIN], another error. *)
Inductive got (A : Type) := Got (a : A) | Absent | Loop | Block | Fault.
Arguments Got {A} a.
Arguments Absent {A}.
Arguments Loop {A}.
Arguments Block {A}.
Arguments Fault {A}.
Inductive made := Made | There | Raised.

Inductive fop : Type → Type :=
  | Open_root : fop (got nat)
  | Open_at (d : nat) (c : string) : fop (got nat)
  | Mkdir (d : nat) (c : string) : fop made
  | Make_parents (ps : list string) : fop bool
  | Sync (i : nat) : fop bool
  | Mkstemp (d : nat) (n : string) : fop (option (nat * nat))
  | Create (ps : list string) (n : string) : fop (option (nat * nat))
  | Write (i : nat) (rest : bytes) : fop (option nat)
  | Chmod (i : nat) : fop bool
  | Fstat (i : nat) : fop (option Stat)
  | Verify : fop bool
  | Link (d : nat) (n : string) (k : nat) : fop made
  | Link_path (ps : list string) (n : string) (k : nat) : fop made
  | Replace (ps : list string) (n : string) (k : nat) : fop bool
  | Stat_at (d : nat) (e : entry) : fop (got Stat)
  | Open_leaf (d : nat) (e : entry) : fop (got nat)
  | Read (i offset : nat) : fop (option bytes)
  | Unlink (d : nat) (n : string) (k : nat) : fop (got ())
  | Unlink_path (ps : list string) (n : string) (k : nat) : fop (got ()).

(** ** What they do *)

Definition set_nodes v s := mkFs v (f_dirs s) (f_final s) (f_maker s) (f_temps s) (f_log s) (f_seals s) (f_asked s).
Definition set_dirs v s := mkFs (f_nodes s) v (f_final s) (f_maker s) (f_temps s) (f_log s) (f_seals s) (f_asked s).
Definition ask v s := mkFs (f_nodes s) (f_dirs s) (f_final s) (f_maker s) (f_temps s) (f_log s) (f_seals s) (v ∪ f_asked s).

(** A new directory, a new empty temporary file. *)
Definition add_folder (d : nat) (c : string) (i : nat) (x : node) (s : fs) : fs := set_dirs (<[(d, Sub c) := i]> (f_dirs s)) (set_nodes (<[i := x]> (f_nodes s)) s).
Definition add_temp (a d : nat) (n : string) (k i : nat) (s : fs) : fs :=
  mkFs (<[i := File [] false]> (f_nodes s)) (<[(d, Temp n k) := i]> (f_dirs s)) (f_final s) (<[i := a]> (f_maker s)) (<[k := i]> (f_temps s)) (f_log s) (f_seals s) (f_asked s).

(** A file's bytes grow; its mode becomes read-only. *)
Definition grow (i : nat) (b : bytes) (s : fs) : fs :=
  match f_nodes s !! i with Some (File b0 ro) => set_nodes (<[i := File (b0 ++ b) ro]> (f_nodes s)) s | _ => s end.
Definition protect (i : nat) (s : fs) : fs :=
  match f_nodes s !! i with Some (File b0 _) => set_nodes (<[i := File b0 true]> (f_nodes s)) s | _ => s end.

(** A file reached by a record's name: its bytes are final. *)
Definition content_of (s : fs) (i : nat) : bytes := match f_nodes s !! i with Some (File b _) => b | _ => [] end.
Definition seal (d : nat) (n : string) (i : nat) (s : fs) : fs :=
  mkFs (f_nodes s) (<[(d, Sealed n) := i]> (f_dirs s)) (<[i := content_of s i]> (f_final s)) (f_maker s) (f_temps s) (f_log s)
    (<[(d, n) := seals s d n ++ [i]]> (f_seals s)) (f_asked s).
Definition enter (d : nat) (n : string) (i : nat) (s : fs) : fs :=
  mkFs (f_nodes s) (<[(d, Current n) := i]> (f_dirs s)) (<[i := content_of s i]> (f_final s)) (f_maker s) (f_temps s)
    (<[(d, n) := log s d n ++ [i]]> (f_log s)) (f_seals s) (f_asked s).
Definition forget (d : nat) (e : entry) (s : fs) : fs := set_dirs (delete (d, e) (f_dirs s)) s.

(** A call may answer an error whatever it did; a link that was made may say
    that the name is there.  The directories that [mkdir(parents=True)] makes
    are made by the rest of the world. *)
Definition fop_step {X} (o : fop X) (a : nat) (s : fs) : X → fs → Prop :=
  match o in fop X return X → fs → Prop with
  | Open_root => λ x s', (∀ i, x = Got i → i = ROOT) ∧ s' = s
  | Open_at d c => λ x s', (∀ i, x = Got i → f_dirs s !! (d, Sub c) = Some i ∧ f_nodes s !! i = Some Folder) ∧ s' = s
  | Mkdir d c => λ x s',
      match x with
      | Made => ∃ i, f_dirs s !! (d, Sub c) = None ∧ f_nodes s !! i = None ∧ s' = add_folder d c i Folder s
      | _ => s' = s
      end
  | Make_parents ps => λ x s', (x = true → is_Some (resolve s ps)) ∧ s' = s
  | Sync _ => λ _ s', s' = s
  | Mkstemp d n => λ x s',
      match x with
      | Some (k, i) => f_temps s !! k = None ∧ f_nodes s !! i = None ∧ s' = add_temp a d n k i s
      | None => s' = s
      end
  | Create ps n => λ x s',
      match x with
      | Some (k, i) => ∃ d, resolve s ps = Some d ∧ f_temps s !! k = None ∧ f_nodes s !! i = None ∧ s' = add_temp a d n k i s
      | None => s' = s
      end
  | Write i rest => λ x s',
      match x with
      | Some j => (0 < j ≤ length rest) ∧ s' = grow i (take j rest) s
      | None => ∃ j, s' = grow i (take j rest) s
      end
  | Chmod i => λ x s', s' = protect i s ∨ (x = false ∧ s' = s)
  | Fstat i => λ x s', (∀ st, x = Some st → shows s i st) ∧ s' = s
  | Verify => λ _ s', s' = s
  | Link d n k => λ x s',
      (∃ i, f_dirs s !! (d, Temp n k) = Some i ∧ f_dirs s !! (d, Sealed n) = None ∧ s' = seal d n i s)
      ∨ (x ≠ Made ∧ (x = There → is_Some (f_dirs s !! (d, Sealed n))) ∧ s' = s)
  | Link_path ps n k => λ x s',
      (∃ d i, resolve s ps = Some d ∧ f_dirs s !! (d, Temp n k) = Some i ∧ f_dirs s !! (d, Current n) = None ∧ s' = enter d n i s)
      ∨ (x ≠ Made ∧ s' = s)
  | Replace ps n k => λ x s',
      (∃ d i, resolve s ps = Some d ∧ f_dirs s !! (d, Temp n k) = Some i ∧ s' = enter d n i (forget d (Temp n k) s))
      ∨ (x = false ∧ s' = s)
  | Stat_at d e => λ x s', (∀ st, x = Got st → ∃ i, f_dirs s !! (d, e) = Some i ∧ shows s i st) ∧ s' = s
  | Open_leaf d e => λ x s', (∀ i, x = Got i → f_dirs s !! (d, e) = Some i ∧ ∃ b ro, f_nodes s !! i = Some (File b ro)) ∧ s' = s
  | Read i o => λ x s', (∀ c, x = Some c → ∃ b ro j, f_nodes s !! i = Some (File b ro) ∧ (o < length b → 0 < j) ∧ c = take j (drop o b)) ∧ s' = s
  | Unlink d n k => λ x s', s' = forget d (Temp n k) s ∨ (x ≠ Got () ∧ s' = s)
  | Unlink_path ps n k => λ x s', (∃ d, resolve s ps = Some d ∧ s' = forget d (Temp n k) s) ∨ (x ≠ Got () ∧ s' = s)
  end.

(** The rest of the world makes directories and puts other things in their
    place, and, when [moved], moves and removes them; it may remove a current
    record, and a sealed one, as the retention of attempt logs and the renames
    of residency registrations to a retired name do. *)
Inductive env_step (moved : bool) (s : fs) : fs → Prop :=
  | Env_mkdir d c i x : f_dirs s !! (d, Sub c) = None → f_nodes s !! i = None → x = Folder ∨ x = Other → env_step moved s (add_folder d c i x s)
  | Env_move d c v : moved = true → env_step moved s (set_dirs (partial_alter (λ _, v) (d, Sub c) (f_dirs s)) s)
  | Env_remove d n : env_step moved s (forget d (Current n) s)
  | Env_retire d n : env_step moved s (forget d (Sealed n) s).

(** ** Programs that raise *)

Inductive err :=
  | Contract | Tamper | Unavailable | Not_found | Os_error | Exists_error | Replaced | Conflict | Endless.
#[export] Instance err_eq_dec : EqDecision err.
Proof. solve_decision. Defined.

Abbreviation proc A := (prog fop (err + A)%type).
Definition raise {A} (e : err) : proc A := mret (inl e).
Definition ret {A} (a : A) : proc A := mret (inr a).
Definition try {A B} (p : proc A) (f : A → proc B) : proc B := p ≫= λ r, match r with inl e => raise e | inr a => f a end.
Definition finally {A} (p : proc A) (q : proc ()) : proc A := p ≫= λ r, q ≫= λ c, mret (match c with inl e => inl e | inr _ => r end).
Notation "x ↢ p ; q" := (try p (λ x, q)) (at level 100, p at level 200, q at level 200, right associativity, format "x  ↢  p ;  '/' q").
Definition require (b : bool) (e : err) : proc () := if b then ret () else raise e.
(** A call that raises [OSError] as it is. *)
Definition os {A} (o : fop (option A)) : proc A := call o ≫= λ x, match x with Some a => ret a | None => raise Os_error end.
Definition osb (o : fop bool) (e : err) : proc () := call o ≫= λ b, require b e.

(** ** The directory walk *)

(** [absolute_nofollow_path]. *)
Definition absolute_nofollow_path (ps : list string) : bool := bool_decide (".."%string ∉ ps).

(** [open_directory_nofollow]. *)
Fixpoint walk (create : bool) (d : nat) (ps : list string) : proc nat :=
  match ps with
  | [] => ret d
  | c :: ps =>
      created ↢ (if create then call (Mkdir d c) ≫= λ m, match m with Made => ret true | There => ret false | Raised => raise Unavailable end
                 else ret false);
      call (Open_at d c) ≫= λ x,
      match x with
      | Absent => raise Not_found
      | Loop => raise Tamper
      | Block | Fault => raise Unavailable
      | Got child =>
          _ ↢ (if created : bool then _ ↢ osb (Sync child) Unavailable; osb (Sync d) Unavailable else ret ());
          walk create child ps
      end
  end.
Definition open_directory_nofollow (create : bool) (ps : list string) : proc nat :=
  if absolute_nofollow_path ps then
    call Open_root ≫= λ x, match x with Got root => walk create root ps | _ => raise Unavailable end
  else raise Contract.

(** [assert_directory_identity]. *)
Definition assert_directory_identity (d : nat) (ps : list string) : proc () :=
  open_directory_nofollow false ps ≫= λ r,
  match r with
  | inl Not_found => raise Tamper
  | inl e => raise e
  | inr current =>
      held ↢ os (Fstat d);
      observed ↢ os (Fstat current);
      require (bool_decide (st_ino held = st_ino observed)) Tamper
  end.

(** ** Publication *)

(** [handle.write] and [flush]: until every byte is written. *)
Fixpoint write_all (n i : nat) (rest : bytes) : proc () :=
  match rest with
  | [] => ret ()
  | _ =>
      match n with
      | O => raise Endless
      | S n => j ↢ os (Write i rest); write_all n i (drop j rest)
      end
  end.

(** The unlink of a temporary name, which may be gone. *)
Definition discard (o : fop (got ())) : proc () :=
  call o ≫= λ x, match x with Got _ | Absent => ret () | _ => raise Os_error end.

(** [publish_immutable]. *)
Definition publish_immutable (ps : list string) (n : string) (raw : bytes) (prelink : bool) : proc bool :=
  if absolute_nofollow_path (ps ++ [n]) then
    d ↢ open_directory_nofollow true ps;
    t ↢ os (Mkstemp d n);
    let '(k, i) := t in
    finally
      (_ ↢ write_all (length raw) i raw;
       _ ↢ osb (Chmod i) Os_error;
       _ ↢ osb (Sync i) Os_error;
       temporary ↢ os (Fstat i);
       _ ↢ (if prelink then osb Verify Contract else ret ());
       won ↢ (call (Link d n k) ≫= λ m, match m with Made => ret true | There => ret false | Raised => raise Os_error end);
       _ ↢ osb (Sync d) Os_error;
       _ ↢ (if won : bool then
              call (Stat_at d (Sealed n)) ≫= λ x,
              match x with
              | Got published => require (st_reg published && bool_decide (st_ino temporary = st_ino published)) Tamper
              | _ => raise Tamper
              end
            else ret ());
       _ ↢ assert_directory_identity d ps;
       ret won)
      (discard (Unlink d n k))
  else raise Contract.

(** ** Stable reads *)

Definition _STABLE_FILE_READ_ATTEMPTS : nat := 3.
Definition _REPLACED_RECORD_READ_ATTEMPTS : nat := 8.
Definition _WOULD_BLOCK_OPEN_ATTEMPTS : nat := 6.

(** [substantive_identity] and [_stable_identity], compared. *)
Definition substantive (a b : Stat) : bool :=
  bool_decide (st_ino a = st_ino b) && bool_decide (st_size a = st_size b) && Bool.eqb (st_reg a) (st_reg b) && Bool.eqb (st_ro a) (st_ro b)
  && bool_decide (st_mtime a = st_mtime b).
Definition stable (a b : Stat) : bool :=
  substantive a b && bool_decide (st_nlink a = st_nlink b) && bool_decide (st_ctime a = st_ctime b).

(** [open_retrying_would_block]. *)
Fixpoint open_retrying (n d : nat) (e : entry) : prog fop (got nat) :=
  call (Open_leaf d e) ≫= λ x,
  match x, n with
  | Block, S n => open_retrying n d e
  | _, _ => mret x
  end.
Definition open_retrying_would_block (d : nat) (e : entry) : prog fop (got nat) := open_retrying (_WOULD_BLOCK_OPEN_ATTEMPTS - 1) d e.

(** [open_regular_nofollow]: the descriptor of the leaf and its parent's. *)
Definition leaf_path (ps : list string) (e : entry) : list string :=
  match e with Sub c | Sealed c | Current c | Temp c _ => ps ++ [c] end.
Definition open_regular_nofollow (ps : list string) (e : entry) : proc (nat * nat) :=
  if absolute_nofollow_path (leaf_path ps e) then
    d ↢ open_directory_nofollow false ps;
    call (Stat_at d e) ≫= λ x,
    match x with
    | Absent => raise Not_found
    | Loop | Block | Fault => raise Unavailable
    | Got candidate =>
        _ ↢ require (st_reg candidate) Tamper;
        open_retrying_would_block d e ≫= λ y,
        match y with
        | Got i => ret (i, d)
        | Absent => raise Not_found
        | Loop => raise Tamper
        | Block | Fault => raise Unavailable
        end
    end
  else raise Contract.

(** [assert_regular_identity]. *)
Definition assert_regular_identity (i d : nat) (e : entry) (replaced : bool) : proc () :=
  call (Stat_at d e) ≫= λ x,
  match x with
  | Absent => raise Tamper
  | Loop | Block | Fault => raise Unavailable
  | Got observed =>
      held ↢ os (Fstat i);
      _ ↢ require (st_reg observed) Tamper;
      require (bool_decide (st_ino held = st_ino observed)) (if replaced then Replaced else Tamper)
  end.

(** A byte bound. *)
Definition exceeds (size : nat) (max : option nat) : bool := match max with Some m => (m <? size)%nat | None => false end.

(** The chunks of a file, to its end. *)
Fixpoint read_all (n i : nat) (max : option nat) (acc : bytes) : proc bytes :=
  match n with
  | O => raise Endless
  | S n =>
      chunk ↢ os (Read i (length acc));
      match chunk with
      | [] => ret acc
      | _ =>
          _ ↢ require (negb (exceeds (length acc + length chunk) max)) Tamper;
          read_all n i max (acc ++ chunk)
      end
  end.

(** [_read_stable_file]; [fuel] bounds the chunks of one attempt. *)
Fixpoint read_attempts (n fuel : nat) (ps : list string) (e : entry) (readonly : bool) (max : option nat) (replaced : bool) : proc bytes :=
  opened ↢ open_regular_nofollow ps e;
  let '(i, d) := opened in
  before ↢ os (Fstat i);
  _ ↢ require (st_reg before) Tamper;
  _ ↢ require (negb (readonly && negb (st_ro before))) Tamper;
  _ ↢ require (negb (exceeds (st_size before) max)) Tamper;
  chunks ↢ read_all fuel i max [];
  after ↢ os (Fstat i);
  if negb (stable before after) then
    _ ↢ require (substantive before after) Tamper;
    _ ↢ assert_regular_identity i d e replaced;
    _ ↢ assert_directory_identity d ps;
    if replaced && bool_decide (st_nlink after = 0%Z) then ret chunks
    else match n with
         | O => raise (if replaced then Replaced else Tamper)
         | S n => read_attempts n fuel ps e readonly max replaced
         end
  else
    _ ↢ assert_regular_identity i d e replaced;
    _ ↢ assert_directory_identity d ps;
    ret chunks.
Definition _read_stable_file (fuel : nat) (ps : list string) (e : entry) (readonly : bool) (max : option nat) (replaced : bool) : proc bytes :=
  read_attempts (_STABLE_FILE_READ_ATTEMPTS - 1) fuel ps e readonly max replaced.

(** [_read_file]. *)
Fixpoint reread (n fuel : nat) (ps : list string) (e : entry) (readonly : bool) (max : option nat) : proc bytes :=
  _read_stable_file fuel ps e readonly max true ≫= λ r,
  match r, n with
  | inl Replaced, S n => reread n fuel ps e readonly max
  | _, _ => mret r
  end.
Definition _read_file (fuel : nat) (ps : list string) (e : entry) (readonly : bool) (max : option nat) (replaced_leaf : bool) : proc bytes :=
  if replaced_leaf then reread (_REPLACED_RECORD_READ_ATTEMPTS - 1) fuel ps e readonly max
  else _read_stable_file fuel ps e readonly max false.
Definition read_stable_file (fuel : nat) (ps : list string) (n : string) (max : option nat) : proc bytes := _read_file fuel ps (Sealed n) false max false.
Definition read_replaced_record (fuel : nat) (ps : list string) (n : string) (max : option nat) : proc bytes := _read_file fuel ps (Current n) false max true.
Definition read_immutable_file (fuel : nat) (ps : list string) (n : string) (max : option nat) : proc bytes := _read_file fuel ps (Sealed n) true max false.

(** [publish_exact]. *)
Definition publish_exact (fuel : nat) (ps : list string) (n : string) (raw : bytes) : proc () :=
  won ↢ publish_immutable ps n raw false;
  if won : bool then ret ()
  else
    observed ↢ read_immutable_file fuel ps n None;
    require (bool_decide (observed = raw)) Conflict.

(** ** Replacement *)

(** [AtomicReplacement.write], of a temporary name of its own. *)
Definition write_replacement (ps : list string) (n : string) (data : bytes) (fsync cleanup_rename : bool) : proc () :=
  t ↢ os (Create ps n);
  let '(k, i) := t in
  (_ ↢ write_all (length data) i data;
   _ ↢ (if fsync then osb (Sync i) Os_error else ret ());
   if cleanup_rename then osb (Replace ps n k) Os_error else ret ()) ≫= λ r,
  match r with
  | inl e => _ ↢ discard (Unlink_path ps n k); raise e
  | inr _ => if cleanup_rename then ret () else osb (Replace ps n k) Os_error
  end.

(** [prepare_atomic_replacement] and [write]: the writers of encoded records
    and of bytes. *)
Definition write_atomic (ps : list string) (n : string) (data : bytes) (make_parent fsync cleanup_rename : bool) : proc () :=
  _ ↢ (if make_parent then osb (Make_parents ps) Os_error else ret ());
  write_replacement ps n data fsync cleanup_rename.

(** [publish_mutable]. *)
Definition publish_mutable (ps : list string) (n : string) (raw : bytes) : proc bool :=
  _ ↢ osb (Make_parents ps) Os_error;
  t ↢ os (Create ps n);
  let '(k, i) := t in
  finally
    (_ ↢ write_all (length raw) i raw;
     _ ↢ osb (Sync i) Os_error;
     _ ↢ osb (Sync i) Os_error;
     call (Link_path ps n k) ≫= λ m, match m with Made => ret true | There => ret false | Raised => raise Os_error end)
    (discard (Unlink_path ps n k)).

(** ** The machine *)

Inductive client :=
  | Publisher (ps : list string) (n : string) (raw : bytes) (prelink : bool)
  | Exact (fuel : nat) (ps : list string) (n : string) (raw : bytes)
  | Writer (ps : list string) (n : string) (raw : bytes) (make_parent fsync cleanup : bool)
  | Linker (ps : list string) (n : string) (raw : bytes)
  | Stable_reader (fuel : nat) (ps : list string) (n : string) (readonly : bool) (max : option nat)
  | Record_reader (fuel : nat) (ps : list string) (n : string) (max : option nat).

Inductive out := Won (b : bool) | Done | Bytes (b : bytes) | Raises (e : err).
Definition answer {A} (f : A → out) (p : proc A) : prog fop out := p ≫= λ r, mret (match r with inl e => Raises e | inr a => f a end).

Definition handler (c : client) : prog fop out :=
  match c with
  | Publisher ps n raw prelink => answer Won (publish_immutable ps n raw prelink)
  | Exact fuel ps n raw => answer (λ _, Done) (publish_exact fuel ps n raw)
  | Writer ps n raw make_parent fsync cleanup => answer (λ _, Done) (write_atomic ps n raw make_parent fsync cleanup)
  | Linker ps n raw => answer Won (publish_mutable ps n raw)
  | Stable_reader fuel ps n true max => answer Bytes (read_immutable_file fuel ps n max)
  | Stable_reader fuel ps n false max => answer Bytes (read_stable_file fuel ps n max)
  | Record_reader fuel ps n max => answer Bytes (read_replaced_record fuel ps n max)
  end.

(** What a caller asks to write. *)
Definition asks (c : client) : gset (string * bytes) :=
  match c with
  | Publisher _ n raw _ | Exact _ _ n raw | Writer _ n raw _ _ _ | Linker _ n raw => {[(n, raw)]}
  | _ => ∅
  end.

(** A call that runs or has ended, with the state it started in. *)
Record thread := mkThread { th_client : client; th_since : fs; th_prog : prog fop out }.
Definition threads : Type := nat → option thread.
Definition put (a : nat) (t : option thread) (T : threads) : threads := λ b, if decide (b = a) then t else T b.

(** Callers are numbered by their calls: a number is used once. *)
Inductive step (moved : bool) : fs * threads → fs * threads → Prop :=
  | step_call (a : nat) (s s' : fs) (T : threads) (c : client) (s0 : fs) (X : Type) (o : fop X) (k : X → prog fop out) (x : X) :
      T a = Some (mkThread c s0 (Do o k)) → fop_step o a s x s' → step moved (s, T) (s', put a (Some (mkThread c s0 (k x))) T)
  | step_start (a : nat) (s : fs) (T : threads) (c : client) :
      T a = None → step moved (s, T) (ask (asks c) s, put a (Some (mkThread c s (handler c))) T)
  | step_env (s s' : fs) (T : threads) : env_step moved s s' → step moved (s, T) (s', T).

Definition reachable (moved : bool) (s : fs) (T : threads) : Prop := rtc (step moved) (empty, λ _, None) (s, T).
