(* ===== verification/FileStoreLogic.v ===== *)
(** * A logic for the file store

    What is permanent in the files ([le]), their invariant ([Inv]), what a
    caller owns ([mode], [holds]), when each call is safe and what it teaches
    ([pre], [post]), and that calls and the rest of the world keep all of it
    ([file_op_sound], [env_sound]). *)
From S2P Require Import Prelude.
From S2P Require Import Prog.
From S2P Require Import FileStore.
From stdpp Require Import options.

(** Projections of an updated state. *)
Ltac files := cbn [f_nodes f_dirs f_final f_maker f_temps f_log f_seals f_asked set_nodes set_dirs ask add_folder add_temp seal enter forget] in *.

Section logic.
Context (moved : bool).

(** ** What is permanent *)

(** A sealed name keeps its file until it is removed. *)
Definition name_kept (s s' : fs) (d : nat) (n : string) : Prop :=
  seals s d n `prefix_of` seals s' d n ∧ removals s d n ≤ removals s' d n
  ∧ ∀ i, f_dirs s !! (d, Sealed n) = Some i → f_dirs s' !! (d, Sealed n) = Some i ∨ removals s d n < removals s' d n.

Lemma name_kept_same s s' d n :
  f_seals s' = f_seals s → f_dirs s' !! (d, Sealed n) = f_dirs s !! (d, Sealed n) → name_kept s s' d n.
Proof. intros E1 E2. unfold name_kept, removals, seals. rewrite E1, E2. split_and!; [done|done|by left]. Qed.

Lemma name_kept_trans s1 s2 s3 d n : name_kept s1 s2 d n → name_kept s2 s3 d n → name_kept s1 s3 d n.
Proof.
  intros (A1 & B1 & C1) (A2 & B2 & C2). split_and!; [by etrans|lia|]. intros i Hi.
  destruct (C1 i Hi) as [H|H]; [destruct (C2 i H); [by left|right; lia]|right; lia].
Qed.

Record le (s s' : fs) : Prop := mkLe {
  le_nodes : ∀ i, is_Some (f_nodes s !! i) → is_Some (f_nodes s' !! i);
  le_folder : ∀ i, f_nodes s !! i = Some Folder → f_nodes s' !! i = Some Folder;
  le_bytes : ∀ i, is_Some (f_final s !! i) → f_nodes s' !! i = f_nodes s !! i;
  le_final : f_final s ⊆ f_final s';
  le_maker : f_maker s ⊆ f_maker s';
  le_temps : f_temps s ⊆ f_temps s';
  le_log : ∀ d n, log s d n `prefix_of` log s' d n;
  le_asked : f_asked s ⊆ f_asked s';
  le_sealed : ∀ d n, name_kept s s' d n;
  le_subs : moved = false → ∀ d c i, f_dirs s !! (d, Sub c) = Some i → f_dirs s' !! (d, Sub c) = Some i }.

#[export] Instance le_preorder : PreOrder le.
Proof.
  split; [split; try done; intros; by apply name_kept_same|]. intros s1 s2 s3 [A1 B1 C1 D1 E1 F1 G1 H1 I1 J1] [A2 B2 C2 D2 E2 F2 G2 H2 I2 J2]. split; auto; try (by etrans).
  - intros i Hi. rewrite C2, C1; [done|done|]. destruct Hi as [b Hb]. exists b. by eapply lookup_weaken.
  - intros d n. transitivity (log s2 d n); [apply G1|apply G2].
  - intros d n. by apply (name_kept_trans s1 s2 s3).
Qed.

(** ** The invariant *)

Record Inv (s : fs) : Prop := mkInv {
  i_root : f_nodes s !! ROOT = Some Folder;
  i_final : ∀ i b, f_final s !! i = Some b → ∃ ro, f_nodes s !! i = Some (File b ro);
  i_seals : ∀ d n i, i ∈ seals s d n →
    ∃ b, f_final s !! i = Some b ∧ f_nodes s !! i = Some (File b true) ∧ (n, b) ∈ f_asked s;
  i_current : ∀ d n i, f_dirs s !! (d, Current n) = Some i → last (log s d n) = Some i;
  i_log : ∀ d n i, i ∈ log s d n → ∃ b, f_final s !! i = Some b ∧ (n, b) ∈ f_asked s;
  i_temp : ∀ d n k i, f_dirs s !! (d, Temp n k) = Some i → f_temps s !! k = Some i;
  i_made : ∀ i a, f_maker s !! i = Some a → is_Some (f_nodes s !! i);
  i_given : ∀ d n i, f_dirs s !! (d, Sealed n) = Some i → last (seals s d n) = Some i }.

Lemma i_sealed s d n i :
  Inv s → f_dirs s !! (d, Sealed n) = Some i →
  ∃ b, f_final s !! i = Some b ∧ f_nodes s !! i = Some (File b true) ∧ (n, b) ∈ f_asked s.
Proof. intros HI Hi. by apply (i_seals _ HI d n), last_Some_elem_of, (i_given _ HI). Qed.

(** The file a sealed name leads to now. *)
Definition in_force (s : fs) (d : nat) (n : string) (i : nat) : Prop :=
  f_dirs s !! (d, Sealed n) = Some i ∧ last (seals s d n) = Some i.

Lemma in_force_removals s d n i : in_force s d n i → seals s d n !! removals s d n = Some i.
Proof. intros [Hd Hl]. unfold removals. rewrite Hd. rewrite last_lookup in Hl. by rewrite Nat.sub_1_r. Qed.

(** ** What a caller owns *)

(** The files it writes, with their bytes so far and whether they are
    read-only; its temporary names; the files it linked. *)
Record mode := mkMode { m_open : gmap nat (bytes * bool); m_temps : gmap nat nat; m_won : gset nat }.
Definition idle : mode := mkMode ∅ ∅ ∅.

Record holds (a : nat) (m : mode) (s : fs) : Prop := mkHolds {
  h_open : ∀ i b ro, m_open m !! i = Some (b, ro) →
    f_nodes s !! i = Some (File b ro) ∧ f_final s !! i = None ∧ f_maker s !! i = Some a;
  h_temps : ∀ k i, m_temps m !! k = Some i → f_temps s !! k = Some i ∧ f_maker s !! i = Some a;
  h_won : ∀ i, i ∈ m_won m → f_maker s !! i = Some a }.

Definition opens (k i : nat) (m : mode) : mode := mkMode (<[i := ([], false)]> (m_open m)) (<[k := i]> (m_temps m)) (m_won m).
Definition wrote (i : nat) (v : option (bytes * bool)) (m : mode) : mode := mkMode (partial_alter (λ _, v) i (m_open m)) (m_temps m) (m_won m).
Definition wins (i : nat) (m : mode) : mode := mkMode (delete i (m_open m)) (m_temps m) ({[i]} ∪ m_won m).

(** ** When a call is safe, and what it teaches *)

(** A whole file of a caller, under its own temporary name. *)
Definition ready (m : mode) (s : fs) (n : string) (k : nat) (ro : option bool) (i : nat) : Prop :=
  m_temps m !! k = Some i ∧ ∃ b r, m_open m !! i = Some (b, r) ∧ (n, b) ∈ f_asked s ∧ (∀ r', ro = Some r' → r = r').

(** The directory of a path, where none is moved. *)
Definition place (ps : list string) (d : nat) (s : fs) : Prop := moved = false → resolve s ps = Some d.

(** A file got a current name after [s]. *)
Definition entered (m : mode) (s s' : fs) (ps : list string) (n : string) (i : nat) : Prop :=
  ∃ d pos, place ps d s' ∧ log s' d n !! pos = Some i ∧ length (log s d n) ≤ pos ∧ ∀ b r, m_open m !! i = Some (b, r) → f_final s' !! i = Some b.

Definition pre {X} (m : mode) (s : fs) (o : fop X) : Prop :=
  match o with
  | Write i _ | Chmod i => is_Some (m_open m !! i)
  | Link _ n k => ∃ i, ready m s n k (Some true) i
  | Link_path _ n k | Replace _ n k => ∃ i, ready m s n k None i
  | _ => True
  end.

Definition post {X} (m : mode) (s : fs) (o : fop X) : X → mode → fs → Prop :=
  match o in fop X return X → mode → fs → Prop with
  | Open_root => λ x m' s', m' = m ∧ ∀ i, x = Got i → i = ROOT
  | Open_at d c => λ x m' s', m' = m ∧ ∀ i, x = Got i → f_nodes s' !! i = Some Folder ∧ (moved = false → f_dirs s' !! (d, Sub c) = Some i)
  | Mkstemp _ n | Create _ n => λ x m' s', m' = match x with Some (k, i) => opens k i m | None => m end
  | Write i rest => λ x m' s',
      match x with
      | Some j => (0 < j ≤ length rest) ∧ ∀ b ro, m_open m !! i = Some (b, ro) → m' = wrote i (Some (b ++ take j rest, ro)) m
      | None => m' = wrote i None m
      end
  | Chmod i => λ x m' s', if x : bool then ∀ b ro, m_open m !! i = Some (b, ro) → m' = wrote i (Some (b, true)) m else m' = wrote i None m
  | Fstat i => λ x m' s', m' = m ∧ ∀ st, x = Some st → st_ino st = i
  | Link d n k => λ x m' s', ∃ i, m_temps m !! k = Some i ∧
      match x with
      | Made => m' = wins i m ∧ in_force s' d n i ∧ ∀ b r, m_open m !! i = Some (b, r) → f_final s' !! i = Some b
      | There => m' = wrote i None m ∧ ∃ j, in_force s' d n j
      | Raised => m' = wrote i None m
      end
  | Link_path ps n k => λ x m' s', ∃ i, m_temps m !! k = Some i ∧ m' = wrote i None m ∧ (x = Made → entered m s s' ps n i)
  | Replace ps n k => λ x m' s', ∃ i, m_temps m !! k = Some i ∧ m' = wrote i None m ∧ (x = true → entered m s s' ps n i)
  | Stat_at d (Sealed n) => λ x m' s', m' = m ∧ ∀ st, x = Got st → in_force s' d n (st_ino st)
  | Stat_at d (Current n) => λ x m' s', m' = m ∧ ∀ st, x = Got st → last (log s d n) = Some (st_ino st)
  | Stat_at _ _ => λ x m' s', m' = m
  | Open_leaf d (Sealed n) => λ x m' s', m' = m ∧ ∀ i, x = Got i → in_force s' d n i ∧ is_Some (f_final s' !! i)
  | Open_leaf d (Current n) => λ x m' s', m' = m ∧ ∀ i, x = Got i → is_Some (f_final s' !! i)
  | Open_leaf _ _ => λ x m' s', m' = m
  | Read i o => λ x m' s', m' = m ∧ ∀ c b, x = Some c → f_final s !! i = Some b → ∃ j, c = take j (drop o b) ∧ (o < length b → 0 < j)
  | _ => λ x m' s', m' = m
  end.

Definition sound {X} (o : fop X) : Prop := ∀ a m s x s',
  Inv s → holds a m s → pre m s o → fop_step o a s x s' →
  Inv s' ∧ le s s' ∧ (∃ m', post m s o x m' s' ∧ holds a m' s') ∧ ∀ b mb, b ≠ a → holds b mb s → holds b mb s'.

(** ** Frames *)

Lemma files_holds_frame a m s s' :
  (∀ i, is_Some (m_open m !! i) → f_nodes s' !! i = f_nodes s !! i ∧ f_final s' !! i = f_final s !! i) →
  f_maker s ⊆ f_maker s' → f_temps s ⊆ f_temps s' → holds a m s → holds a m s'.
Proof.
  intros Hn Hm Ht [Ho Hk Hw]. split.
  - intros i b ro Hi. destruct (Hn i) as [-> ->]; [by eexists|]. destruct (Ho i b ro Hi) as (? & ? & ?). split_and!; [done..|]. by eapply lookup_weaken.
  - intros k i Hi. destruct (Hk k i Hi). split; by eapply lookup_weaken.
  - intros i Hi. eapply lookup_weaken; [by apply Hw|done].
Qed.

(** A call that changes nothing. *)
Lemma file_quiet {X} (o : fop X) a m s x :
  Inv s → holds a m s → post m s o x m s →
  Inv s ∧ le s s ∧ (∃ m', post m s o x m' s ∧ holds a m' s) ∧ ∀ b mb, b ≠ a → holds b mb s → holds b mb s.
Proof. intros. split_and!; [done|reflexivity|by exists m|done]. Qed.

Lemma holds_wrote a i m s : holds a m s → holds a (wrote i None m) s.
Proof.
  intros [Ho Hk Hw]. split; [|done|done]. intros j b ro Hj. apply Ho. unfold wrote in Hj. cbn in Hj.
  destruct (decide (j = i)) as [->|Hne]; [by rewrite lookup_partial_alter_eq in Hj|by rewrite lookup_partial_alter_ne in Hj].
Qed.

(** What is open of one caller is not open of another. *)
Lemma open_apart a b m mb s i : a ≠ b → holds a m s → holds b mb s → is_Some (m_open m !! i) → m_open mb !! i = None.
Proof.
  intros Hab Ha Hb [[c ro] Hi]. apply (h_open _ _ _ Ha) in Hi as (_ & _ & Hi). apply eq_None_not_Some. intros [[c' ro'] Hj].
  apply (h_open _ _ _ Hb) in Hj as (_ & _ & Hj). congruence.
Qed.

(** ** Directories and temporary files *)

Lemma add_folder_le d c i x s : f_dirs s !! (d, Sub c) = None → f_nodes s !! i = None → Inv s → le s (add_folder d c i x s).
Proof.
  intros Hd Hi HI. split; files; try done.
  - intros j Hj. rewrite lookup_insert_is_Some'. by right.
  - intros j Hj. rewrite lookup_insert_ne; [done|]. intros ->. congruence.
  - intros j [b Hj]. rewrite lookup_insert_ne; [done|]. intros ->. destruct (i_final _ HI _ _ Hj) as [ro Hr]. congruence.
  - intros d' n. apply name_kept_same; [done|]. files. by rewrite lookup_insert_ne.
  - intros _ d' c' j Hj. rewrite lookup_insert_ne; [done|]. congruence.
Qed.

Lemma add_folder_inv d c i x s : f_nodes s !! i = None → Inv s → Inv (add_folder d c i x s).
Proof.
  intros Hi HI. split; files.
  - rewrite lookup_insert_ne; [apply HI|]. intros ->. pose proof (i_root _ HI). congruence.
  - intros j b Hj. destruct (i_final _ HI _ _ Hj) as [ro Hr]. exists ro. rewrite lookup_insert_ne; [done|]. congruence.
  - intros d' n j Hj. destruct (i_seals _ HI _ _ _ Hj) as (b & ? & ? & ?). exists b.
    split_and!; [done| |done]. rewrite lookup_insert_ne; [done|]. congruence.
  - intros d' n j Hj. rewrite lookup_insert_ne in Hj by done. by apply (i_current _ HI) in Hj.
  - intros d' n j Hj. by apply (i_log _ HI) in Hj.
  - intros d' n k j Hj. rewrite lookup_insert_ne in Hj by done. by eapply (i_temp _ HI).
  - intros j a Hj. rewrite lookup_insert_is_Some'. right. by eapply (i_made _ HI).
  - intros d' n j Hj. rewrite lookup_insert_ne in Hj by done. by apply (i_given _ HI) in Hj.
Qed.

Lemma add_folder_holds d c i x s a m : f_nodes s !! i = None → holds a m s → holds a m (add_folder d c i x s).
Proof.
  intros Hi Hh. apply (files_holds_frame _ _ s); [|done..|exact Hh]. intros j [[b ro] Hj]. files. split; [|done]. rewrite lookup_insert_ne; [done|].
  destruct (h_open _ _ _ Hh _ _ _ Hj) as [? _]. congruence.
Qed.

Lemma sound_add_folder {X} (o : fop X) a m s x d c i y :
  f_dirs s !! (d, Sub c) = None → f_nodes s !! i = None → Inv s → holds a m s → post m s o x m (add_folder d c i y s) →
  Inv (add_folder d c i y s) ∧ le s (add_folder d c i y s)
  ∧ (∃ m', post m s o x m' (add_folder d c i y s) ∧ holds a m' (add_folder d c i y s))
  ∧ ∀ b mb, b ≠ a → holds b mb s → holds b mb (add_folder d c i y s).
Proof.
  intros Hd Hi HI Hh Hp. split_and!; [by apply add_folder_inv|by apply add_folder_le| |intros; by apply add_folder_holds].
  exists m. split; [done|by apply add_folder_holds].
Qed.

Lemma temp_sound a m s d n k i :
  f_temps s !! k = None → f_nodes s !! i = None → Inv s → holds a m s →
  Inv (add_temp a d n k i s) ∧ le s (add_temp a d n k i s) ∧ holds a (opens k i m) (add_temp a d n k i s)
  ∧ ∀ b mb, b ≠ a → holds b mb s → holds b mb (add_temp a d n k i s).
Proof.
  intros Hk Hi HI Hh.
  assert (f_maker s !! i = None) as Hmk by (apply eq_None_not_Some; intros [b Hb]; apply (i_made _ HI) in Hb as [? ?]; congruence).
  assert (f_final s !! i = None) as Hfin by (apply eq_None_not_Some; intros [b Hb]; apply (i_final _ HI) in Hb as [? ?]; congruence).
  assert (∀ b mb, holds b mb s → holds b mb (add_temp a d n k i s)) as Hothers.
  { intros b mb Hb. apply (files_holds_frame _ _ s); [| | |exact Hb]; files; [|by apply insert_subseteq..].
    intros j [[c ro] Hj]. split; [|done]. rewrite lookup_insert_ne; [done|]. destruct (h_open _ _ _ Hb _ _ _ Hj) as [? _]. congruence. }
  split_and!; [| | |by intros; apply Hothers].
  - split; files.
    + rewrite lookup_insert_ne; [apply HI|]. intros ->. pose proof (i_root _ HI). congruence.
    + intros j b Hj. destruct (i_final _ HI _ _ Hj) as [ro Hr]. exists ro. rewrite lookup_insert_ne; [done|]. congruence.
    + intros d' n' j Hj. destruct (i_seals _ HI _ _ _ Hj) as (b & ? & ? & ?). exists b.
      split_and!; [done| |done]. rewrite lookup_insert_ne; [done|]. congruence.
    + intros d' n' j Hj. rewrite lookup_insert_ne in Hj by done. by apply (i_current _ HI) in Hj.
    + intros d' n' j Hj. by apply (i_log _ HI) in Hj.
    + intros d' n' k' j. rewrite lookup_insert. case_decide as E; [injection E as -> -> ->; intros [= ->]; by rewrite lookup_insert_eq|].
      intros Hj. apply (i_temp _ HI) in Hj. rewrite lookup_insert_ne; [done|]. congruence.
    + intros j b. rewrite lookup_insert. case_decide; [intros _; subst; rewrite lookup_insert_eq; by eexists|].
      intros Hj. rewrite lookup_insert_is_Some'. right. by eapply (i_made _ HI).
    + intros d' n' j Hj. rewrite lookup_insert_ne in Hj by done. by apply (i_given _ HI) in Hj.
  - split; files; try done; try by apply insert_subseteq.
    + intros j Hj. rewrite lookup_insert_is_Some'. by right.
    + intros j Hj. rewrite lookup_insert_ne; [done|]. congruence.
    + intros j [b Hj]. rewrite lookup_insert_ne; [done|]. congruence.
    + intros d' n'. apply name_kept_same; [done|]. files. by rewrite lookup_insert_ne.
    + intros _ d' c' j Hj. by rewrite lookup_insert_ne.
  - destruct (Hothers a m Hh) as [Ho Ht Hw]. split; unfold opens; cbn [m_open m_temps m_won]; [| |done].
    + intros j b ro. rewrite lookup_insert. case_decide; [|by apply Ho]. intros [= <- <-]. subst j. files. rewrite !lookup_insert_eq. done.
    + intros k' j. rewrite lookup_insert. case_decide; [|by apply Ht]. intros [= <-]. subst k'. files. by rewrite !lookup_insert_eq.
Qed.

(** ** Bytes *)

(** The bytes or the mode of an open file change. *)
Lemma bytes_sound a m s i b ro b' ro' :
  m_open m !! i = Some (b, ro) → Inv s → holds a m s →
  let s' := set_nodes (<[i := File b' ro']> (f_nodes s)) s in
  Inv s' ∧ le s s' ∧ holds a (wrote i (Some (b', ro')) m) s' ∧ holds a (wrote i None m) s'
  ∧ ∀ c mb, c ≠ a → holds c mb s → holds c mb s'.
Proof.
  intros Hi HI Hh s'. destruct (h_open _ _ _ Hh _ _ _ Hi) as (Hn & Hf & Hm).
  assert (∀ j x, f_final s !! j = Some x → j ≠ i) as Hne by (intros j x Hj ->; congruence).
  assert (∀ c mb, holds c mb s → m_open mb !! i = None → holds c mb s') as Hframe.
  { intros c mb Hc Hno. apply (files_holds_frame _ _ s); [|done..]. intros j [v Hj]. unfold s'. files. split; [|done].
    rewrite lookup_insert_ne; [done|]. congruence. }
  assert (holds a (wrote i None m) s') as Hnone by (apply Hframe; [by apply holds_wrote|apply lookup_partial_alter_eq]).
  split_and!; [| | |done|].
  - unfold s'. split; files.
    + rewrite lookup_insert_ne; [apply HI|]. intros ->. pose proof (i_root _ HI). congruence.
    + intros j x Hj. rewrite lookup_insert_ne by (symmetry; by eapply Hne). by apply (i_final _ HI).
    + intros d n j Hj. destruct (i_seals _ HI _ _ _ Hj) as (x & Hx & ? & ?). exists x. rewrite lookup_insert_ne by (symmetry; by eapply Hne). done.
    + intros d n j Hj. by apply (i_current _ HI).
    + intros d n j Hj. by apply (i_log _ HI) in Hj.
    + intros d n k j Hj. by eapply (i_temp _ HI).
    + intros j c Hj. rewrite lookup_insert_is_Some'. right. by eapply (i_made _ HI).
    + apply HI.
  - unfold s'. split; files; try done; try (intros; by apply name_kept_same).
    + intros j Hj. rewrite lookup_insert_is_Some'. by right.
    + intros j Hj. rewrite lookup_insert_ne; [done|]. congruence.
    + intros j [x Hj]. rewrite lookup_insert_ne; [done|]. symmetry. by eapply Hne.
  - destruct Hnone as [Ho Ht Hw]. split; [|done|done]. intros j c ro0. unfold wrote in *. cbn [m_open] in *.
    destruct (decide (j = i)) as [->|Hji].
    + rewrite lookup_partial_alter_eq. intros [= <- <-]. unfold s'. files. by rewrite lookup_insert_eq.
    + intros Hj. rewrite lookup_partial_alter_ne in Hj by done. apply Ho. by rewrite lookup_partial_alter_ne.
  - intros c mb Hc Hcb. apply Hframe; [done|]. apply (open_apart a c m mb s i); [congruence|done|done|by eexists].
Qed.

(** ** Names *)

Lemma final_grows (s : fs) i b j x : f_final s !! i = None → f_final s !! j = Some x → <[i := b]> (f_final s) !! j = Some x.
Proof. intros Hi Hj. rewrite lookup_insert_ne; [done|]. congruence. Qed.

Lemma freed_holds a m s s' i :
  f_nodes s' = f_nodes s → f_maker s' = f_maker s → f_temps s' = f_temps s → (∀ j, j ≠ i → f_final s' !! j = f_final s !! j) →
  m_open m !! i = None → holds a m s → holds a m s'.
Proof.
  intros En Em Et Ef Hi Hh. apply (files_holds_frame _ _ s); [|by rewrite Em|by rewrite Et|done]. intros j [v Hj]. rewrite En. split; [done|]. apply Ef. congruence.
Qed.

Lemma ready_content m s n k ro i a :
  ready m s n k ro i → holds a m s → Inv s → ∃ b r, f_nodes s !! i = Some (File b r) ∧ content_of s i = b ∧ (n, b) ∈ f_asked s
    ∧ f_final s !! i = None ∧ f_maker s !! i = Some a ∧ f_temps s !! k = Some i ∧ ∀ r', ro = Some r' → r = r'.
Proof.
  intros (Hk & b & r & Ho & Ha & Hr) Hh _. destruct (h_open _ _ _ Hh _ _ _ Ho) as (Hn & ? & ?). destruct (h_temps _ _ _ Hh _ _ Hk) as [? _].
  exists b, r. unfold content_of. rewrite Hn. done.
Qed.

Lemma wrote_none_open i m : m_open (wrote i None m) !! i = None.
Proof. apply lookup_partial_alter_eq. Qed.

Lemma seal_seals d n i s d' n' : seals (seal d n i s) d' n' = if decide ((d', n') = (d, n)) then seals s d n ++ [i] else seals s d' n'.
Proof. unfold seals at 1. files. rewrite lookup_insert. do 2 case_decide; congruence || done. Qed.

Lemma seal_kept d n i s d' n' : f_dirs s !! (d, Sealed n) = None → name_kept s (seal d n i s) d' n'.
Proof.
  intros Hd. unfold name_kept, removals. rewrite seal_seals. files. rewrite lookup_insert.
  case_decide as E; [injection E as -> ->|]; case_decide as E'; try congruence.
  - rewrite Hd, length_app. cbn. split_and!; [by apply prefix_app_r|lia|done].
  - split_and!; [done|done|by left].
Qed.

(** A whole file gets a sealed name. *)
Lemma seal_sound a m s d n k i :
  ready m s n k (Some true) i → f_dirs s !! (d, Sealed n) = None → Inv s → holds a m s →
  Inv (seal d n i s) ∧ le s (seal d n i s) ∧ holds a (wrote i None m) (seal d n i s) ∧ holds a (wins i m) (seal d n i s)
  ∧ ∀ b mb, b ≠ a → holds b mb s → holds b mb (seal d n i s).
Proof.
  intros Hr Hd HI Hh. destruct (ready_content _ _ _ _ _ _ _ Hr Hh HI) as (b & r & Hn & Hc & Hask & Hf & Hm & Ht & Hro).
  specialize (Hro true eq_refl). subst r.
  assert (holds a (wrote i None m) (seal d n i s)) as Hnone.
  { apply (freed_holds _ _ s _ i); [done..| |apply wrote_none_open|by apply holds_wrote]. intros j Hj. files. by rewrite lookup_insert_ne. }
  assert (is_Some (m_open m !! i)) as Hopen by (destruct Hr as (_ & ? & ? & ? & _); by eexists).
  split_and!; [| |done| |].
  - split; files.
    + apply HI.
    + intros j x. rewrite lookup_insert. case_decide; [intros [= <-]; subst j; rewrite Hc; by exists true|apply (i_final _ HI)].
    + intros d' n' j. rewrite seal_seals. case_decide as E; [injection E as -> ->; intros [Hj|Hj%list_elem_of_singleton]%elem_of_app|intros Hj].
      * destruct (i_seals _ HI _ _ _ Hj) as (x & Hx & ? & ?). exists x. split_and!; [by apply final_grows|done|done].
      * subst j. exists b. rewrite lookup_insert_eq, Hc. done.
      * destruct (i_seals _ HI _ _ _ Hj) as (x & Hx & ? & ?). exists x. split_and!; [by apply final_grows|done|done].
    + intros d' n' j Hj. rewrite lookup_insert_ne in Hj by done. by apply (i_current _ HI) in Hj.
    + intros d' n' j Hj. destruct (i_log _ HI _ _ _ Hj) as (x & Hx & ?). exists x. split; [by apply final_grows|done].
    + intros d' n' k' j Hj. rewrite lookup_insert_ne in Hj by done. by eapply (i_temp _ HI).
    + apply HI.
    + intros d' n' j. rewrite seal_seals, lookup_insert. case_decide as E; [injection E as -> ->; intros [= <-]; rewrite decide_True by done; by rewrite last_snoc|].
      rewrite decide_False by congruence. apply (i_given _ HI).
  - split; files; try done.
    + by apply insert_subseteq.
    + intros d' n'. by apply seal_kept.
    + intros _ d' c j Hj. by rewrite lookup_insert_ne.
  - destruct Hnone as [Ho Hte Hw]. split; [apply Ho|apply Hte|]. intros j [->%elem_of_singleton|Hj]%elem_of_union; [done|by apply Hw].
  - intros c mb Hca Hcb. apply (freed_holds _ _ s _ i); [done..| | |done]; [intros j Hj; files; by rewrite lookup_insert_ne|].
    apply (open_apart a c m mb s i); [congruence|done..].
Qed.

Lemma enter_log d n i s d' n' : log (enter d n i s) d' n' = if decide ((d', n') = (d, n)) then log s d n ++ [i] else log s d' n'.
Proof. unfold log at 1. files. rewrite lookup_insert. do 2 case_decide; congruence || done. Qed.

Lemma forget_kept d e s d' n : Inv s → name_kept s (forget d e s) d' n.
Proof.
  intros HI. destruct (decide ((d', Sealed n) = (d, e))) as [[= -> <-]|Hne].
  - unfold name_kept, removals. change (seals (forget _ _ _)) with (seals s). files. rewrite lookup_delete_eq.
    destruct (f_dirs s !! (d, Sealed n)) as [i|] eqn:Ed; [|by split_and!].
    pose proof (i_given _ HI _ _ _ Ed) as Hl. destruct (seals s d n) as [|j l]; [done|]. cbn. split_and!; [done|lia|]. intros ? _. right. lia.
  - apply name_kept_same; [done|]. files. by rewrite lookup_delete_ne.
Qed.

(** A name is forgotten. *)
Lemma forget_sound s d e :
  (match e with Sub _ => False | _ => True end) → Inv s →
  Inv (forget d e s) ∧ le s (forget d e s) ∧ ∀ b mb, holds b mb s → holds b mb (forget d e s).
Proof.
  intros He HI. split_and!.
  - split; files; [apply HI|apply HI|apply HI| |apply HI| |apply HI|].
    + intros d' n i [_ Hi]%lookup_delete_Some. by apply (i_current _ HI) in Hi.
    + intros d' n k i [_ Hi]%lookup_delete_Some. by eapply (i_temp _ HI).
    + intros d' n i [_ Hi]%lookup_delete_Some. by apply (i_given _ HI) in Hi.
  - split; files; try done.
    + intros d' n. by apply forget_kept.
    + intros _ d' c i Hi. rewrite lookup_delete_ne; [done|]. intros [= -> ->]. done.
  - intros b mb Hb. by apply (files_holds_frame _ _ s).
Qed.

(** A whole file gets a current name. *)
Lemma enter_sound a m s d n k i :
  ready m s n k None i → Inv s → holds a m s →
  Inv (enter d n i s) ∧ le s (enter d n i s) ∧ holds a (wrote i None m) (enter d n i s)
  ∧ ∀ b mb, b ≠ a → holds b mb s → holds b mb (enter d n i s).
Proof.
  intros Hr HI Hh. destruct (ready_content _ _ _ _ _ _ _ Hr Hh HI) as (b & r & Hn & Hc & Hask & Hf & Hm & Ht & _).
  assert (is_Some (m_open m !! i)) as Hopen by (destruct Hr as (_ & ? & ? & ? & _); by eexists).
  split_and!.
  - split; files.
    + apply HI.
    + intros j x. rewrite lookup_insert. case_decide; [intros [= <-]; subst j; rewrite Hc; by exists r|apply (i_final _ HI)].
    + intros d' n' j Hj. destruct (i_seals _ HI _ _ _ Hj) as (x & Hx & ? & ?).
      exists x. split_and!; [by apply final_grows|done|done].
    + intros d' n' j. change (last (log (enter d n i s) d' n') = Some j) with (last (log (enter d n i s) d' n') = Some j).
      rewrite lookup_insert. case_decide as E; [injection E as -> ->; intros [= <-]|intros Hj].
      * rewrite enter_log, decide_True by done. by rewrite last_snoc.
      * rewrite enter_log, decide_False by congruence. by apply (i_current _ HI).
    + intros d' n' j. rewrite enter_log. case_decide as E; [injection E as -> ->; intros [Hj|Hj%list_elem_of_singleton]%elem_of_app|intros Hj].
      * destruct (i_log _ HI _ _ _ Hj) as (x & Hx & ?). exists x. split; [by apply final_grows|done].
      * subst j. exists b. by rewrite lookup_insert_eq, Hc.
      * destruct (i_log _ HI _ _ _ Hj) as (x & Hx & ?). exists x. split; [by apply final_grows|done].
    + intros d' n' k' j Hj. rewrite lookup_insert_ne in Hj by done. by eapply (i_temp _ HI).
    + apply HI.
    + intros d' n' j Hj. rewrite lookup_insert_ne in Hj by done. by apply (i_given _ HI) in Hj.
  - split; files; try done.
    + by apply insert_subseteq.
    + intros d' n'. rewrite enter_log. case_decide as E; [injection E as -> ->; by apply prefix_app_r|done].
    + intros d' n'. apply name_kept_same; [done|]. files. by rewrite lookup_insert_ne.
    + intros _ d' c j Hj. by rewrite lookup_insert_ne.
  - apply (freed_holds _ _ s _ i); [done..| |apply wrote_none_open|by apply holds_wrote]. intros j Hj. files. by rewrite lookup_insert_ne.
  - intros c mb Hca Hcb. apply (freed_holds _ _ s _ i); [done..| | |done]; [intros j Hj; files; by rewrite lookup_insert_ne|].
    apply (open_apart a c m mb s i); [congruence|done..].
Qed.

(** ** Every call *)

Lemma file_sound_plain {X} (o : fop X) :
  (∀ a s x s', fop_step o a s x s' → s' = s) → (∀ a s x m s', Inv s → fop_step o a s x s' → post m s o x m s) → sound o.
Proof. intros Hq Hp a m s x s' HI Hh _ Hs. pose proof (Hq _ _ _ _ Hs) as ->. apply file_quiet; [done|done|by eapply Hp]. Qed.

Lemma sound_forget {X} (o : fop X) :
  (∀ a s x s', fop_step o a s x s' → s' = s ∨ ∃ d n k, s' = forget d (Temp n k) s) → (∀ s x m s', post m s o x m s') → sound o.
Proof.
  intros Hq Hp a m s x s' HI Hh _ [->|(d & n & k & ->)]%Hq; [by apply file_quiet|].
  destruct (forget_sound s d (Temp n k) I HI) as (? & ? & Hothers). split_and!; [done|done| |by intros; apply Hothers].
  exists m. split; [done|by apply Hothers].
Qed.

Lemma sound_write i rest : sound (Write i rest).
Proof.
  intros a m s x s' HI Hh [[b ro] Hi] Hs. destruct (h_open _ _ _ Hh _ _ _ Hi) as (Hn & _).
  assert (∃ j, s' = grow i (take j rest) s ∧ ∀ j', x = Some j' → j' = j ∧ (0 < j ≤ length rest)) as (j & -> & Hj).
  { destruct x as [j|]; [exists j; destruct Hs as [? ->]; split; [done|by intros ? [= ->]]|destruct Hs as [j ->]; by exists j]. }
  unfold grow. rewrite Hn. destruct (bytes_sound a m s i b ro (b ++ take j rest) ro Hi HI Hh) as (? & ? & Hsome & Hnone & ?).
  split_and!; [done|done| |done]. destruct x as [j'|]; cbn.
  - destruct (Hj j' eq_refl) as [-> ?]. eexists. split; [split; [done|]|exact Hsome]. intros b0 ro0 E. by injection (eq_trans (eq_sym Hi) E) as <- <-.
  - by eexists.
Qed.

Lemma sound_chmod i : sound (Chmod i).
Proof.
  intros a m s x s' HI Hh [[b ro] Hi] Hs. destruct (h_open _ _ _ Hh _ _ _ Hi) as (Hn & _). destruct Hs as [->|[-> ->]].
  - unfold protect. rewrite Hn. destruct (bytes_sound a m s i b ro b true Hi HI Hh) as (? & ? & Hsome & Hnone & ?).
    split_and!; [done|done| |done]. destruct x; cbn; [|by eexists]. eexists. split; [|exact Hsome].
    intros b0 ro0 E. by injection (eq_trans (eq_sym Hi) E) as <- <-.
  - split_and!; [done|done| |done]. eexists. split; [reflexivity|by apply holds_wrote].
Qed.

Lemma own_temp a m s n k ro i d j :
  ready m s n k ro i → Inv s → holds a m s → f_dirs s !! (d, Temp n k) = Some j → j = i.
Proof. intros (Hk & _) HI Hh Hj%(i_temp _ HI). destruct (h_temps _ _ _ Hh _ _ Hk) as [? _]. congruence. Qed.

Lemma sound_link d n k : sound (Link d n k).
Proof.
  intros a m s x s' HI Hh [i Hr] Hs. destruct Hs as [(j & Hj & Hd & ->)|(Hx & Hthere & ->)].
  - pose proof (own_temp _ _ _ _ _ _ _ _ _ Hr HI Hh Hj) as ->.
    destruct (seal_sound a m s d n k i Hr Hd HI Hh) as (? & ? & Hnone & Hwins & ?). split_and!; [done|done| |done].
    destruct Hr as [Hk _]. assert (in_force (seal d n i s) d n i) as E.
    { split; [files; by rewrite lookup_insert_eq|]. rewrite seal_seals, decide_True by done. by rewrite last_snoc. }
    assert (∀ b r, m_open m !! i = Some (b, r) → f_final (seal d n i s) !! i = Some b) as Hb.
    { intros b r Hb. destruct (h_open _ _ _ Hh _ _ _ Hb) as (Hn & _). files. unfold content_of. by rewrite lookup_insert_eq, Hn. }
    destruct x; eexists; (split; [exists i; split; [exact Hk|]|]); [by split|done|split; [done|by eexists]|done|done|done].
  - split_and!; [done|done| |done]. destruct Hr as [Hk _]. destruct x; [done|..]; eexists; (split; [exists i; split; [exact Hk|]|by apply holds_wrote]); [|done].
    split; [done|]. destruct (Hthere eq_refl) as [j Hj]. exists j. split; [done|by apply (i_given _ HI)].
Qed.

Lemma resolve_enter d n i s ps : resolve (enter d n i s) ps = resolve s ps.
Proof.
  unfold resolve. generalize ROOT as r. induction ps as [|c ps IH]; intros r; cbn [resolve_from]; [done|]. files. rewrite lookup_insert_ne by done.
  destruct (f_dirs s !! (r, Sub c)) as [j|]; [|done]. destruct (f_nodes s !! j) as [[]|]; [done|apply IH|done..].
Qed.

Lemma entered_now a m s d n i ps : resolve s ps = Some d → holds a m s → entered m s (enter d n i s) ps n i.
Proof.
  intros Hres Hh. exists d, (length (log s d n)). split_and!.
  - intros _. by rewrite resolve_enter.
  - rewrite enter_log, decide_True by done. by apply list_lookup_middle.
  - done.
  - intros b r Hb. destruct (h_open _ _ _ Hh _ _ _ Hb) as (Hn & _). files. unfold content_of. by rewrite lookup_insert_eq, Hn.
Qed.

Lemma sound_link_path ps n k : sound (Link_path ps n k).
Proof.
  intros a m s x s' HI Hh [i Hr] Hs. destruct Hs as [(d & j & Hres & Hj & Hd & ->)|(Hx & ->)].
  - pose proof (own_temp _ _ _ _ _ _ _ _ _ Hr HI Hh Hj) as ->.
    destruct (enter_sound a m s d n k i Hr HI Hh) as (? & ? & Hnone & ?). split_and!; [done|done| |done].
    destruct Hr as [Hk _]. eexists. split; [exists i; split_and!; [done..|]; intros _; by apply (entered_now a)|done].
  - split_and!; [done|done| |done]. destruct Hr as [Hk _]. eexists. split; [exists i; split_and!; [done..|intros; congruence]|by apply holds_wrote].
Qed.

Lemma sound_replace ps n k : sound (Replace ps n k).
Proof.
  intros a m s x s' HI Hh [i Hr] Hs. destruct Hs as [(d & j & Hres & Hj & ->)|(Hx & ->)].
  - pose proof (own_temp _ _ _ _ _ _ _ _ _ Hr HI Hh Hj) as ->.
    destruct (forget_sound s d (Temp n k) I HI) as (HI1 & Hle1 & Hothers1).
    assert (ready m (forget d (Temp n k) s) n k None i) as Hr1 by exact Hr.
    destruct (enter_sound a m (forget d (Temp n k) s) d n k i Hr1 HI1 (Hothers1 _ _ Hh)) as (? & ? & Hnone & Hothers). split_and!; [done|by etrans| |auto].
    destruct Hr as [Hk _]. eexists. split; [exists i; split_and!; [done..|]; intros _|done].
    apply (entered_now a m (forget d (Temp n k) s)); [|by apply Hothers1]. clear -Hres. unfold resolve in *. revert Hres. generalize ROOT as r.
    induction ps as [|c ps IH]; intros r; cbn [resolve_from]; [done|]. files. rewrite lookup_delete_ne by done.
    destruct (f_dirs s !! (r, Sub c)) as [j|]; [|done]. destruct (f_nodes s !! j) as [[]|]; [done| |done..]. apply IH.
  - split_and!; [done|done| |done]. destruct Hr as [Hk _]. eexists. split; [exists i; split_and!; [done..|intros; congruence]|by apply holds_wrote].
Qed.

Lemma sound_mkdir d c : sound (Mkdir d c).
Proof.
  intros a m s x s' HI Hh _ Hs. destruct x; [|cbn in Hs; subst s'; by apply file_quiet..].
  destruct Hs as (i & Hd & Hi & ->). by apply sound_add_folder.
Qed.

Lemma file_op_sound {X} (o : fop X) : sound o.
Proof.
  destruct o.
  - apply file_sound_plain; [by intros a s x s' [_ ->]|]. intros a s x m s' HI [H _]. by split.
  - apply file_sound_plain; [by intros a s x s' [_ ->]|]. intros a s x m s' HI [H _]. split; [done|]. intros i Hi. by destruct (H i Hi).
  - apply sound_mkdir.
  - apply file_sound_plain; [by intros a s x s' [_ ->]|done].
  - apply file_sound_plain; [done|done].
  - intros a m s x s' HI Hh _ Hs. destruct x as [[k i]|]; [|cbn in Hs; subst s'; by apply file_quiet].
    destruct Hs as (Hk & Hi & ->). destruct (temp_sound a m s d n k i Hk Hi HI Hh) as (? & ? & ? & ?). split_and!; [done|done| |done]. by eexists.
  - intros a m s x s' HI Hh _ Hs. destruct x as [[k i]|]; [|cbn in Hs; subst s'; by apply file_quiet].
    destruct Hs as (d & _ & Hk & Hi & ->). destruct (temp_sound a m s d n k i Hk Hi HI Hh) as (? & ? & ? & ?). split_and!; [done|done| |done]. by eexists.
  - apply sound_write.
  - apply sound_chmod.
  - apply file_sound_plain; [by intros a s x s' [_ ->]|]. intros a s x m s' HI [H _]. split; [done|]. intros st Hst. by destruct (H st Hst).
  - apply file_sound_plain; [done|done].
  - apply sound_link.
  - apply sound_link_path.
  - apply sound_replace.
  - apply file_sound_plain; [by intros a s x s' [_ ->]|]. intros a s x m s' HI [H _]. destruct e; [done| | |done]; (split; [done|]); intros st Hst;
      destruct (H st Hst) as (i & Hi & -> & _); [split; [done|by apply (i_given _ HI)]|]. by apply (i_current _ HI).
  - apply file_sound_plain; [by intros a s x s' [_ ->]|]. intros a s x m s' HI [H _]. destruct e as [|n|n|]; [done| | |done]; (split; [done|]); intros i Hi;
      destruct (H i Hi) as (Hd & _).
    + split; [split; [done|by apply (i_given _ HI)]|]. apply (i_sealed _ _ _ _ HI) in Hd as (b & Hb & _). by eexists.
    + apply (i_current _ HI), last_Some_elem_of, (i_log _ HI) in Hd as (b & Hb & _). by eexists.
  - apply file_sound_plain; [by intros a s x s' [_ ->]|]. intros a s x m s' HI [H _]. split; [done|]. intros c b Hx Hb.
    destruct (H c Hx) as (b' & ro & j & Hn & Hj & ->). destruct (i_final _ HI _ _ Hb) as [ro' Hn']. rewrite Hn in Hn'. injection Hn' as -> _. by exists j.
  - apply sound_forget; [|done]. intros a s x s' [->|[_ ->]]; [right; by do 3 eexists|by left].
  - apply sound_forget; [|done]. intros a s x s' [(d & _ & ->)|[_ ->]]; [right; by do 3 eexists|by left].
Qed.

(** ** The rest of the world *)

Lemma env_sound s s' : Inv s → env_step moved s s' → Inv s' ∧ le s s' ∧ ∀ b mb, holds b mb s → holds b mb s'.
Proof.
  intros HI [d c i x Hd Hi _|d c v Hm|d n|d n].
  - split_and!; [by apply add_folder_inv|by apply add_folder_le|intros; by apply add_folder_holds].
  - split_and!; [|split; files; try done|intros b mb Hb; by apply (files_holds_frame _ _ s)].
    + split; files; [apply HI|apply HI|apply HI| |apply HI| |apply HI|]; intros; match goal with H : partial_alter _ _ _ !! _ = _ |- _ => rewrite lookup_partial_alter_ne in H by done end;
        [by eapply (i_current _ HI)|by eapply (i_temp _ HI)|by eapply (i_given _ HI)].
    + intros d' n. apply name_kept_same; [done|]. files. by rewrite lookup_partial_alter_ne.
    + congruence.
  - by apply forget_sound.
  - by apply forget_sound.
Qed.

(** A caller asks. *)
Lemma ask_sound v s : Inv s → Inv (ask v s) ∧ le s (ask v s) ∧ ∀ b mb, holds b mb s → holds b mb (ask v s).
Proof.
  intros HI. split_and!.
  - split; files; [apply HI|apply HI| |apply HI| |apply HI|apply HI|apply HI].
    + intros d n i Hi. destruct (i_seals _ HI _ _ _ Hi) as (b & ? & ? & ?). exists b. set_solver.
    + intros d n i Hi. destruct (i_log _ HI _ _ _ Hi) as (b & ? & ?). exists b. set_solver.
  - split; files; try done; [set_solver|]. intros. by apply name_kept_same.
  - intros b mb Hb. by apply (files_holds_frame _ _ s).
Qed.

Lemma files_empty_inv : Inv empty.
Proof. split; cbn; try done; intros d n i Hi; by apply elem_of_nil in Hi. Qed.

Lemma files_empty_idle a : holds a idle empty.
Proof. by split. Qed.
End logic.
