(* ===== verification/FileStoreHandlers.v ===== *)
(** * The file handlers are safe

    Each handler of [FileStore] in the logic of [FileStoreLogic], what its
    answer says of the files ([outcome]), and that it holds of every call that
    has ended in a reachable state ([reachable_sane]). *)
From S2P Require Import Prelude.
From S2P Require Import Prog.
From S2P Require Import FileStore.
From S2P Require Import FileStoreLogic.
From stdpp Require Import options.

Section handlers.
Context (moved : bool).

Abbreviation le := (FileStoreLogic.le moved).
Abbreviation pre := (@FileStoreLogic.pre _).
Abbreviation post := (@FileStoreLogic.post moved _).
Abbreviation place := (FileStoreLogic.place moved).

Definition ok {A} (p : prog fop A) (m : mode) (s : fs) (Q : A → mode → fs → Prop) : Prop :=
  safe le (λ X, @FileStoreLogic.pre X) (λ X, @FileStoreLogic.post moved X) p m s Q.

(** When it does not raise. *)
Definition okp {A} (p : proc A) (m : mode) (s : fs) (Q : A → mode → fs → Prop) : Prop :=
  ok p m s (λ r m' s', match r with inr a => Q a m' s' | inl _ => True end).

(** ** Stepping through a program *)

(** The states of a program are a chain. *)
Ltac chain :=
  match goal with
  | H : FileStoreLogic.le _ ?s ?t |- FileStoreLogic.le _ ?s ?t => exact H
  | |- FileStoreLogic.le _ ?s ?s => reflexivity
  | H : FileStoreLogic.le _ ?s ?s1 |- FileStoreLogic.le _ ?s _ => apply (transitivity H); chain
  end.


Lemma file_ok_bind {A B} (p : prog fop A) (f : A → prog fop B) m s (Q : A → mode → fs → Prop) R :
  ok p m s Q → (∀ a m' s', le s s' → Q a m' s' → ok (f a) m' s' R) → ok (p ≫= f) m s R.
Proof. apply prog_safe_bind; apply _. Qed.

Lemma file_ok_weaken {A} (p : prog fop A) m s (Q R : A → mode → fs → Prop) :
  ok p m s Q → (∀ a m' s', le s s' → Q a m' s' → R a m' s') → ok p m s R.
Proof. intros H HQ. by apply (prog_safe_weaken le _ _ p m s Q R HQ). Qed.

Lemma ok_later {A} (p : prog fop A) m s s' Q : le s s' → ok p m s Q → ok p m s' Q.
Proof. apply prog_safe_mono; apply _. Qed.

Lemma file_ok_ret {A} (a : A) m s (Q : A → mode → fs → Prop) : (∀ s', le s s' → Q a m s') → ok (mret a) m s Q.
Proof. done. Qed.

Lemma file_ok_call {X B} (o : fop X) (f : X → prog fop B) m s (R : B → mode → fs → Prop) :
  (∀ s1, le s s1 → pre m s1 o ∧ ∀ x m' s2, le s1 s2 → post m s1 o x m' s2 → ok (f x) m' s2 R) → ok (call o ≫= f) m s R.
Proof. done. Qed.

Lemma try_ok {A B} (p : proc A) (f : A → proc B) m s (Q : A → mode → fs → Prop) R :
  okp p m s Q → (∀ a m' s', le s s' → Q a m' s' → okp (f a) m' s' R) → okp (try p f) m s R.
Proof. intros Hp Hf. eapply file_ok_bind; [exact Hp|]. intros [e|a] m' s' Hle HQ; [by apply file_ok_ret|by apply Hf]. Qed.

Lemma ret_ok {A} (a : A) m s (Q : A → mode → fs → Prop) : (∀ s', le s s' → Q a m s') → okp (ret a) m s Q.
Proof. done. Qed.

Lemma raise_ok {A} e m s (Q : A → mode → fs → Prop) : okp (raise e) m s Q.
Proof. done. Qed.

Lemma require_ok b e m s (Q : () → mode → fs → Prop) : (b = true → ∀ s', le s s' → Q () m s') → okp (require b e) m s Q.
Proof. intros H. destruct b; [by apply ret_ok, H|apply raise_ok]. Qed.

(** A call made as it is. *)
Lemma os_ok {A} (o : fop (option A)) m s (Q : A → mode → fs → Prop) :
  (∀ s1, le s s1 → pre m s1 o ∧ ∀ a m' s2, le s1 s2 → post m s1 o (Some a) m' s2 → ∀ s3, le s2 s3 → Q a m' s3) → okp (os o) m s Q.
Proof.
  intros H. apply file_ok_call. intros s1 H1. destruct (H s1 H1) as [Hp Hk]. split; [done|]. intros [a|] m' s2 H2 Hx; [|apply raise_ok].
  apply ret_ok. intros s3 H3. by eapply Hk.
Qed.

Lemma osb_ok (o : fop bool) e m s (Q : () → mode → fs → Prop) :
  (∀ s1, le s s1 → pre m s1 o ∧ ∀ m' s2, le s1 s2 → post m s1 o true m' s2 → ∀ s3, le s2 s3 → Q () m' s3) → okp (osb o e) m s Q.
Proof.
  intros H. apply file_ok_call. intros s1 H1. destruct (H s1 H1) as [Hp Hk]. split; [done|]. intros b m' s2 H2 Hx.
  apply require_ok. intros -> s3 H3. by eapply Hk.
Qed.

(** A call that changes nothing the caller owns. *)
Definition kept {A} (m : mode) : A → mode → fs → Prop := λ _ m' _, m' = m.

Lemma osb_kept (o : fop bool) e m s : (∀ s1, pre m s1 o ∧ ∀ m' s2, post m s1 o true m' s2 → m' = m) → okp (osb o e) m s (kept m).
Proof. intros H. apply osb_ok. intros s1 _. destruct (H s1) as [Hp Hk]. split; [done|]. intros m' s2 _ Hx s3 _. by eapply Hk. Qed.

Lemma finally_ok {A} (p : proc A) (q : proc ()) m s (Q : A → mode → fs → Prop) :
  okp p m s Q → (∀ a m1 s1 s2, le s1 s2 → Q a m1 s1 → Q a m1 s2) → (∀ m1 s1, okp q m1 s1 (kept m1)) → okp (finally p q) m s Q.
Proof.
  intros Hp HQ Hq. eapply file_ok_bind; [exact Hp|]. intros r m1 s1 _ Hr. eapply file_ok_bind; [apply Hq|].
  intros [e|[]] m2 s2 H2 Hk; [done|]. unfold kept in Hk. subst m2. apply file_ok_ret. intros s3 H3. destruct r as [|a]; [done|].
  eapply (HQ a m1 s1); [by etrans|done].
Qed.

Lemma discard_ok (o : fop (got ())) m s : (∀ s1, pre m s1 o ∧ ∀ x m' s2, post m s1 o x m' s2 → m' = m) → okp (discard o) m s (kept m).
Proof.
  intros H. apply file_ok_call. intros s1 _. destruct (H s1) as [Hp Hk]. split; [done|]. intros x m' s2 _ Hx%Hk. subst m'.
  destruct x; (apply ret_ok; done) || apply raise_ok.
Qed.

(** ** The directory walk *)

Lemma resolve_from_later s s' d ps d' : moved = false → le s s' → resolve_from s d ps = Some d' → resolve_from s' d ps = Some d'.
Proof.
  intros Hm Hle. revert d. induction ps as [|c ps IH]; intros d; cbn [resolve_from]; [done|].
  destruct (f_dirs s !! (d, Sub c)) as [i|] eqn:Ed; [|done]. rewrite (le_subs _ _ _ Hle Hm _ _ _ Ed).
  destruct (f_nodes s !! i) as [[| |]|] eqn:En; [done| |done..]. rewrite (le_folder _ _ _ Hle _ En). apply IH.
Qed.

Lemma place_later s s' ps d : le s s' → place ps d s → place ps d s'.
Proof. intros Hle Hp Hm. eapply resolve_from_later; [done|done|by apply Hp]. Qed.

Lemma walk_ok create d ps m s :
  okp (walk create d ps) m s (λ d' m' s', m' = m ∧ (moved = false → resolve_from s' d ps = Some d')).
Proof.
  revert d s. induction ps as [|c ps IH]; intros d s; cbn [walk].
  { apply ret_ok. intros s' _. by split. }
  apply (try_ok _ _ _ _ (kept m)).
  { destruct create; [|by apply ret_ok]. apply file_ok_call. intros s1 _. split; [done|]. intros x m' s2 _ Hx. cbn in Hx. subst m'.
    destruct x; (by apply ret_ok) || apply raise_ok. }
  intros created m1 s1 _ ->. apply file_ok_call. intros s2 H2. split; [done|]. intros x m' s3 H3 [-> Hx].
  destruct x as [i| | | |]; [|apply raise_ok..]. destruct (Hx i eq_refl) as [Hf Hd].
  apply (try_ok _ _ _ _ (kept m)).
  { destruct created; [|by apply ret_ok]. apply (try_ok _ _ _ _ (kept m)); [by apply osb_kept|]. intros [] m4 s4 _ ->. by apply osb_kept. }
  intros [] m4 s4 H4 ->. eapply file_ok_weaken; [apply IH|]. intros [e|d'] m5 s5 H5; [done|]. intros [-> Hr]. split; [done|]. intros Hm. cbn [resolve_from].
  assert (le s3 s5) as H35 by by etrans.
  rewrite (le_subs _ _ _ H35 Hm _ _ _ (Hd Hm)), (le_folder _ _ _ H35 _ Hf). by apply Hr.
Qed.

Lemma open_directory_ok create ps m s : okp (open_directory_nofollow create ps) m s (λ d m' s', m' = m ∧ place ps d s').
Proof.
  unfold open_directory_nofollow. destruct (absolute_nofollow_path ps); [|apply raise_ok]. apply file_ok_call. intros s1 _. split; [done|].
  intros x m' s2 _ [-> Hx]. destruct x as [r| | | |]; [|apply raise_ok..]. specialize (Hx r eq_refl). subst r. apply walk_ok.
Qed.

Lemma fstat_ok i m s : okp (os (Fstat i)) m s (λ st m' _, m' = m ∧ st_ino st = i).
Proof. apply os_ok. intros s1 _. split; [done|]. intros st m' s2 _ [-> Hx] s3 _. split; [done|by apply Hx]. Qed.

Lemma assert_directory_ok d ps m s : okp (assert_directory_identity d ps) m s (kept m).
Proof.
  unfold assert_directory_identity. eapply file_ok_bind; [apply open_directory_ok|]. intros [e|current] m1 s1 _; [destruct e; intros _; apply raise_ok|].
  intros [-> _]. eapply try_ok; [apply fstat_ok|]. intros st m2 s2 _ [-> _]. eapply try_ok; [apply fstat_ok|]. intros st' m3 s3 _ [-> _].
  by apply require_ok.
Qed.

(** ** Writing *)

(** An open file of these bytes. *)
Definition open_with (m : mode) (i : nat) (b : bytes) (ro : bool) (m' : mode) : Prop :=
  m_open m' !! i = Some (b, ro) ∧ m_temps m' = m_temps m ∧ m_won m' = m_won m.

Lemma wrote_open i v m : m_open (wrote i v m) !! i = v.
Proof. apply lookup_partial_alter_eq. Qed.

Lemma write_all_ok n i rest b ro m s : m_open m !! i = Some (b, ro) → okp (write_all n i rest) m s (λ _ m' _, open_with m i (b ++ rest) ro m').
Proof.
  revert rest b m s. induction n as [|n IH]; intros rest b m s Hi; destruct rest as [|c rest]; cbn [write_all].
  - apply ret_ok. intros s' _. rewrite app_nil_r. by split_and!.
  - apply raise_ok.
  - apply ret_ok. intros s' _. rewrite app_nil_r. by split_and!.
  - eapply try_ok.
    { apply os_ok. intros s1 _. split; [by eexists|]. intros j m' s2 _ [Hj Hx] s3 _. specialize (Hx b ro Hi).
      exact (conj Hj Hx : (λ (j : nat) m' (_ : fs), 0 < j ≤ length (c :: rest) ∧ m' = wrote i (Some (b ++ take j (c :: rest), ro)) m) j m' s3). }
    cbn beta. intros j m' s' _ [Hj ->]. eapply file_ok_weaken; [apply IH; apply wrote_open|]. intros [|[]] m2 s2 _; [done|].
    intros (H1 & H2 & H3). split_and!; [|done|done]. by rewrite <-app_assoc, take_drop in H1.
Qed.

Lemma chmod_ok i b ro m s : m_open m !! i = Some (b, ro) → okp (osb (Chmod i) Os_error) m s (λ _ m' _, open_with m i b true m').
Proof.
  intros Hi. apply osb_ok. intros s1 _. split; [by eexists|]. intros m' s2 _ Hx s3 _. rewrite (Hx b ro Hi). split_and!; [apply wrote_open|done|done].
Qed.

(** A temporary file of its own. *)
Definition own (n : string) (k i : nat) (m' : mode) : Prop := m_temps m' !! k = Some i ∧ m_open m' !! i = Some ([], false).

Lemma opens_own n k i m : own n k i (opens k i m).
Proof. split; apply lookup_insert_eq. Qed.

(** ** What a name led to *)

(** [i] was given the current name not before the last name it had in [s]. *)
Definition not_stale (s s' : fs) (d : nat) (n : string) (i : nat) : Prop := ∃ pos, log s' d n !! pos = Some i ∧ length (log s d n) ≤ S pos.

Lemma log_later s s' d n pos i : le s s' → log s d n !! pos = Some i → log s' d n !! pos = Some i.
Proof. intros Hle. destruct (le_log _ _ _ Hle d n) as [l ->]. by apply lookup_app_l_Some. Qed.

Lemma log_length s s' d n : le s s' → length (log s d n) ≤ length (log s' d n).
Proof. intros Hle. by apply prefix_length, le_log with moved. Qed.

Lemma final_later s s' i b : le s s' → f_final s !! i = Some b → f_final s' !! i = Some b.
Proof. intros Hle Hi. eapply lookup_weaken; [done|apply Hle]. Qed.

(** A sealed name led to [i] at some time between [s] and [s']: [i] is the file
    it was given after so many removals. *)
Definition sealed_since (s s' : fs) (d : nat) (n : string) (i : nat) : Prop :=
  ∃ pos, seals s' d n !! pos = Some i ∧ removals s d n ≤ pos ≤ removals s' d n.

Lemma sealed_since_later s0 s s' s'' d n i : le s0 s → le s' s'' → sealed_since s s' d n i → sealed_since s0 s'' d n i.
Proof.
  intros H0 H1 (pos & Hpos & Hl). exists pos. destruct (le_sealed _ _ _ H0 d n) as (_ & ? & _), (le_sealed _ _ _ H1 d n) as ([l El] & ? & _).
  split; [|lia]. rewrite El. by apply lookup_app_l_Some.
Qed.

Lemma in_force_since s s' d n i : le s s' → in_force s' d n i → sealed_since s s' d n i.
Proof. intros H1 Hf. exists (removals s' d n). split; [by apply in_force_removals|]. destruct (le_sealed _ _ _ H1 d n) as (_ & ? & _). lia. Qed.

(** What a name led to, since [s]. *)
Definition led (s : fs) (d : nat) (e : entry) (i : nat) (s' : fs) : Prop :=
  match e with
  | Sealed n => sealed_since s s' d n i
  | Current n => not_stale s s' d n i
  | _ => True
  end.

Lemma led_later s0 s s' s'' d e i : le s0 s → le s' s'' → led s d e i s' → led s0 d e i s''.
Proof.
  intros H0 H1. destruct e; cbn; [done|by apply sealed_since_later| |done]. intros (pos & Hpos & Hl). exists pos.
  split; [by eapply log_later|]. pose proof (log_length _ _ d n H0). lia.
Qed.

(** ** Publication *)

(** A publication found the name in force, its own file when it won. *)
Definition published (s0 : fs) (ps : list string) (n : string) (raw : bytes) (won : bool) (m : mode) (s : fs) : Prop :=
  ∃ d i, place ps d s ∧ led s0 d (Sealed n) i s ∧ (won = true → i ∈ m_won m ∧ f_final s !! i = Some raw).

Lemma published_later s0 s1 ps n raw won m s s' : le s0 s1 → le s s' → published s1 ps n raw won m s → published s0 ps n raw won m s'.
Proof.
  intros H0 Hle (d & i & Hp & Hd & Hw). exists d, i. split_and!; [by eapply place_later|by apply (led_later s0 s1 s)|]. intros Hwon. destruct (Hw Hwon).
  split; [done|]. eapply lookup_weaken; [done|apply Hle].
Qed.

Lemma le_asks s s' x : le s s' → x ∈ f_asked s → x ∈ f_asked s'.
Proof. intros Hle. apply (le_asked _ _ _ Hle). Qed.

Lemma link_ok ps d n k i raw m s :
  (n, raw) ∈ f_asked s → place ps d s → m_temps m !! k = Some i → m_open m !! i = Some (raw, true) →
  okp (call (Link d n k) ≫= λ x, match x with Made => ret true | There => ret false | Raised => raise Os_error end) m s
    (λ won m' s', published s ps n raw won m' s').
Proof.
  intros Hask Hp Hk Hi. apply file_ok_call. intros s1 H1. split.
  { exists i. split; [done|]. exists raw, true. split_and!; [done|by eapply le_asks|by intros ? [= <-]]. }
  intros x m' s2 H2 (i' & Hk' & Hx). assert (i' = i) as -> by congruence. assert (le s s2) as Hle by by etrans.
  destruct x; [| |apply raise_ok].
  - destruct Hx as (-> & Hd & Hf). apply ret_ok. intros s3 H3. apply (published_later s s _ _ _ _ _ s2); [done|done|]. exists d, i.
    split_and!; [by eapply place_later|by apply in_force_since|]. intros _. split; [cbn; set_solver|by eapply Hf].
  - destruct Hx as [-> [j Hj]]. apply ret_ok. intros s3 H3. apply (published_later s s _ _ _ _ _ s2); [done|done|]. exists d, j.
    split_and!; [by eapply place_later|by apply in_force_since|done].
Qed.

Lemma publish_immutable_ok ps n raw prelink m s :
  (n, raw) ∈ f_asked s → okp (publish_immutable ps n raw prelink) m s (λ won m' s', published s ps n raw won m' s').
Proof.
  intros Hask. unfold publish_immutable. destruct (absolute_nofollow_path (ps ++ [n])); [|apply raise_ok].
  eapply try_ok; [apply open_directory_ok|]. intros d m1 s1 H1 [-> Hp]. eapply try_ok.
  { apply os_ok. intros s2 _. split; [done|]. intros [k i] m' s3 _ -> s4 _.
    exact (eq_refl : (λ (ki : nat * nat) m' (_ : fs), m' = opens ki.1 ki.2 m) (k, i) (opens k i m) s4). }
  cbn beta. intros [k i] m2 s2 H2 ->. cbn [fst snd]. pose proof (opens_own n k i m) as [Hk Hi].
  assert (le s s2) as Hle2 by by etrans.
  apply finally_ok; [|intros a m3 s3 s4 Hle; by apply (published_later s s)|intros m3 s3; apply discard_ok; intros; by split].
  eapply try_ok; [by apply write_all_ok|]. intros [] m3 s3 H3 (Hi3 & Hk3 & _).
  eapply try_ok; [by apply (chmod_ok i raw false)|]. intros [] m4 s4 H4 (Hi4 & Hk4 & _).
  apply (try_ok _ _ _ _ (kept m4)); [by apply osb_kept|]. intros [] m5 s5 H5 ->.
  eapply try_ok; [apply fstat_ok|]. intros temporary m6 s6 H6 [-> _].
  apply (try_ok _ _ _ _ (kept m4)); [destruct prelink; [by apply osb_kept|by apply ret_ok]|]. intros [] m7 s7 H7 ->.
  assert (le s1 s7) as Hle17 by chain.
  eapply try_ok.
  { apply (link_ok ps d n k i raw); [|by eapply place_later|by rewrite Hk4, Hk3|done].
    eapply le_asks; [|exact Hask]. etrans; [exact H1|exact Hle17]. }
  cbn beta. intros won m8 s8 H8 Hpub.
  apply (try_ok _ _ _ _ (kept m8)); [by apply osb_kept|]. intros [] m9 s9 H9 ->.
  apply (try_ok _ _ _ _ (kept m8)).
  { destruct won; [|by apply ret_ok]. apply file_ok_call. intros s10 _. split; [done|]. intros x m' s11 _ [-> _].
    destruct x; [by apply require_ok|apply raise_ok..]. }
  intros [] m10 s10 H10 ->. eapply try_ok; [apply assert_directory_ok|]. intros [] m11 s11 H11 ->.
  apply ret_ok. intros s12 H12. apply (published_later s s7 _ _ _ _ _ s8); [chain|chain|done].
Qed.

(** ** Reading *)

(** Names of records. *)
Definition record (e : entry) : Prop := match e with Sealed _ | Current _ => True | _ => False end.

Lemma open_retrying_ok n d e m s :
  record e → ok (open_retrying n d e) m s (λ x m' s', m' = m ∧ ∀ i, x = Got i → is_Some (f_final s' !! i)).
Proof.
  intros He. revert s. induction n as [|n IH]; intros s; cbn [open_retrying]; apply file_ok_call; intros s1 _; (split; [done|]); intros x m' s2 _ Hx.
  all: assert (m' = m ∧ ∀ i, x = Got i → is_Some (f_final s2 !! i)) as [-> Hf] by (destruct e; try done; cbn in Hx; naive_solver).
  all: assert (∀ y, y = x → ok (mret y) m s2 (λ y m' s', m' = m ∧ ∀ i, y = Got i → is_Some (f_final s' !! i))) as Hret
    by (intros y ->; apply file_ok_ret; intros s3 H3; split; [done|]; intros i Hi; destruct (Hf i Hi) as [b Hb]; exists b; by eapply final_later).
  - by destruct x; apply Hret.
  - destruct x; try (by apply Hret). apply IH.
Qed.

Lemma open_regular_ok ps e m s :
  record e → okp (open_regular_nofollow ps e) m s (λ id m' s', m' = m ∧ place ps id.2 s' ∧ is_Some (f_final s' !! id.1)).
Proof.
  intros He. unfold open_regular_nofollow. destruct (absolute_nofollow_path _); [|apply raise_ok].
  eapply try_ok; [apply open_directory_ok|]. intros d m1 s1 _ [-> Hp]. apply file_ok_call. intros s2 H2. split; [done|]. intros x m' s3 H3 Hx.
  assert (m' = m) as -> by (destruct e; try done; by destruct Hx). destruct x as [candidate| | | |]; try apply raise_ok.
  apply (try_ok _ _ _ _ (kept m)); [by apply require_ok|]. intros [] m4 s4 H4 ->. eapply file_ok_bind; [by apply open_retrying_ok|].
  intros y m5 s5 H5 [-> Hf]. destruct y as [i| | | |]; try apply raise_ok. apply ret_ok. intros s6 H6. cbn [fst snd]. split_and!; [done| |].
  - apply (place_later s1); [|done]. chain.
  - destruct (Hf i eq_refl) as [b Hb]. exists b. by eapply final_later.
Qed.

Lemma assert_regular_ok i d e replaced m s :
  okp (assert_regular_identity i d e replaced) m s (λ _ m' s', m' = m ∧ led s d e i s').
Proof.
  apply file_ok_call. intros s1 H1. split; [done|]. intros x m' s2 H2 Hx. assert (m' = m) as -> by (destruct e; try done; by destruct Hx).
  destruct x as [observed| | | |]; try apply raise_ok. eapply try_ok; [apply fstat_ok|]. intros held m3 s3 H3 [-> Hheld].
  apply (try_ok _ _ _ _ (kept m)); [by apply require_ok|]. intros [] m4 s4 H4 ->. apply require_ok. intros E%bool_decide_eq_true s5 H5. split; [done|].
  assert (le s2 s5) as H25 by chain. assert (le s1 s5) as H15 by by etrans. assert (st_ino observed = i) as Eo by congruence.
  destruct e as [|n|n|]; cbn; [done| | |done].
  - destruct Hx as [_ Hx]. rewrite <-Eo. apply (sealed_since_later s s2 s2); [by etrans|done|]. apply in_force_since; [done|by apply Hx].
  - destruct Hx as [_ Hx]. specialize (Hx observed eq_refl). rewrite Eo, last_lookup in Hx. exists (pred (length (log s1 d n))).
    split; [by eapply log_later|]. pose proof (log_length _ _ d n H1). lia.
Qed.

Lemma read_all_ok n i max acc b m s :
  f_final s !! i = Some b → acc `prefix_of` b → okp (read_all n i max acc) m s (λ r m' _, m' = m ∧ r = b).
Proof.
  revert acc s. induction n as [|n IH]; intros acc s Hb Hacc; cbn [read_all]; [apply raise_ok|].
  eapply try_ok.
  { apply os_ok. intros s1 H1. split; [done|]. intros chunk m' s2 _ [-> Hx] s3 _. specialize (Hx chunk b eq_refl ltac:(by eapply final_later)).
    exact (conj eq_refl Hx : (λ chunk m' (_ : fs), m' = m ∧ ∃ j, chunk = take j (drop (length acc) b) ∧ (length acc < length b → 0 < j)) chunk m s3). }
  cbn beta. intros chunk m1 s1 H1 [-> (j & Hchunk & Hj)]. destruct Hacc as [t ->]. rewrite drop_app_length in Hchunk.
  destruct chunk as [|c chunk].
  - apply ret_ok. intros s2 _. split; [done|]. destruct t as [|c t]; [by rewrite app_nil_r|]. exfalso.
    rewrite length_app in Hj. cbn in Hj. destruct j; [lia|done].
  - apply (try_ok _ _ _ _ (kept m)); [by apply require_ok|]. intros [] m2 s2 H2 ->. apply IH; [eapply final_later, Hb; by etrans|].
    rewrite Hchunk. apply prefix_app. exists (drop j t). by rewrite take_drop.
Qed.

(** A whole record. *)
Definition whole (s : fs) (ps : list string) (e : entry) (b : bytes) (s' : fs) : Prop :=
  ∃ d i, place ps d s' ∧ f_final s' !! i = Some b ∧ led s d e i s'.

Lemma whole_later s0 s ps e b s' s'' : le s0 s → le s' s'' → whole s ps e b s' → whole s0 ps e b s''.
Proof. intros H0 H1 (d & i & ? & ? & ?). exists d, i. split_and!; [by eapply place_later|by eapply final_later|by eapply led_later]. Qed.

Lemma read_attempts_ok n fuel ps e readonly max replaced m s :
  record e → okp (read_attempts n fuel ps e readonly max replaced) m s (λ b m' s', m' = m ∧ whole s ps e b s').
Proof.
  intros He. revert s. induction n as [|n IH]; intros s; cbn [read_attempts].
  all: eapply try_ok; [by apply open_regular_ok|]; intros [i d] m1 s1 Hs1 (-> & Hp & [b Hb]); cbn [fst snd] in Hp, Hb.
  all: eapply try_ok; [apply fstat_ok|]; intros before m2 s2 Hs2 [-> _].
  all: do 3 (apply (try_ok _ _ _ _ (kept m)); [by apply require_ok|]; intros [] ? ? ? ->).
  all: eapply try_ok; [apply (read_all_ok _ _ _ [] b); [|apply prefix_nil]; eapply final_later, Hb; chain|].
  all: intros chunks m3 s3 Hs3 [-> ->]; eapply try_ok; [apply fstat_ok|]; intros after m4 s4 Hs4 [-> _].
  all: assert (le s1 s4) as H14 by chain.
  all: assert (∀ s5 s6, le s4 s5 → le s5 s6 → led s5 d e i s6 → ∀ s7, le s6 s7 → m = m ∧ whole s ps e b s7) as Hend
    by (intros s5 s6 Hs5 Hs6 Hl s7 Hs7; split; [done|]; exists d, i; split_and!;
        [apply (place_later s1); [|done]|apply (final_later s1); [|done]|apply (led_later _ s5 s6); [|done|done]];
        chain).
  all: destruct (negb (stable before after)).
  all: try (apply (try_ok _ _ _ _ (kept m)); [by apply require_ok|]; intros [] ? ? ? ->).
  all: eapply try_ok; [apply assert_regular_ok|]; intros [] m5 s5 Hs5 [-> Hled]; cbn beta.
  all: eapply try_ok; [apply assert_directory_ok|]; intros [] m6 s6 Hs6 ->.
  all: try (destruct (replaced && _); [|first [apply raise_ok|eapply file_ok_weaken; [apply IH|]; intros [|r] m7 s7 Hs7; [done|]; intros [-> Hw]; split; [done|];
    apply (whole_later _ s6 _ _ _ s7); [|reflexivity|done]; chain]]).
  all: apply ret_ok; intros s7 Hs7; eapply Hend; [| |exact Hled|by etrans]; done.
Qed.

Lemma reread_ok n fuel ps e readonly max m s :
  record e → okp (reread n fuel ps e readonly max) m s (λ b m' s', whole s ps e b s').
Proof.
  intros He. revert m s. induction n as [|n IH]; intros m s; cbn [reread]; (eapply file_ok_bind; [by apply read_attempts_ok|]); intros [er|b] m1 s1 H1 Hr.
  - destruct er; apply raise_ok.
  - destruct Hr as [-> Hw]. apply ret_ok. intros s2 H2. by apply (whole_later _ s _ _ _ s1).
  - destruct er; try apply raise_ok. eapply file_ok_weaken; [apply IH|]. intros [|b] m2 s2 H2; [done|]. intros Hw. by apply (whole_later _ s1 _ _ _ s2).
  - destruct Hr as [-> Hw]. apply ret_ok. intros s2 H2. by apply (whole_later _ s _ _ _ s1).
Qed.

Lemma read_file_ok fuel ps e readonly max replaced m s :
  record e → okp (_read_file fuel ps e readonly max replaced) m s (λ b m' s', whole s ps e b s').
Proof.
  intros He. unfold _read_file. destruct replaced; [by apply reread_ok|]. eapply file_ok_weaken; [by apply read_attempts_ok|].
  intros [|b] m' s' _; [done|]. by intros [_ ?].
Qed.

Lemma publish_exact_ok fuel ps n raw m s :
  (n, raw) ∈ f_asked s → okp (publish_exact fuel ps n raw) m s (λ _ m' s', whole s ps (Sealed n) raw s').
Proof.
  intros Hask. unfold publish_exact. eapply try_ok; [by apply publish_immutable_ok|]. intros [] m1 s1 H1 Hpub.
  - destruct Hpub as (d & i & Hp & Hd & Hw). destruct (Hw eq_refl) as [_ Hf]. apply ret_ok. intros s2 H2.
    apply (whole_later _ s _ _ _ s1); [done|done|]. by exists d, i.
  - eapply try_ok; [by apply read_file_ok|]. intros observed m2 s2 H2 Hw. apply require_ok. intros ->%bool_decide_eq_true s3 H3.
    by apply (whole_later _ s1 _ _ _ s2).
Qed.

(** ** Replacing *)

(** A record got its current name after [s]. *)
Definition replaced_since (s : fs) (ps : list string) (n : string) (raw : bytes) (s' : fs) : Prop :=
  ∃ d i pos, place ps d s' ∧ f_final s' !! i = Some raw ∧ log s' d n !! pos = Some i ∧ length (log s d n) ≤ pos.

Lemma replaced_later s0 s ps n raw s' s'' : le s0 s → le s' s'' → replaced_since s ps n raw s' → replaced_since s0 ps n raw s''.
Proof.
  intros H0 H1 (d & i & pos & ? & ? & ? & ?). exists d, i, pos.
  split_and!; [by eapply place_later|by eapply final_later|by eapply log_later|]. pose proof (log_length _ _ d n H0). lia.
Qed.

Lemma entered_replaced m s s' ps n i raw ro : m_open m !! i = Some (raw, ro) → entered moved m s s' ps n i → replaced_since s ps n raw s'.
Proof. intros Hi (d & pos & Hp & Hl & Hpos & Hf). exists d, i, pos. split_and!; [done|by eapply Hf|done|done]. Qed.

Lemma create_ok ps n m s : okp (os (Create ps n)) m s (λ ki m' _, m' = opens ki.1 ki.2 m).
Proof. apply os_ok. intros s1 _. split; [done|]. intros [k i] m' s2 _ -> s3 _. done. Qed.

Lemma replace_ok ps n k i raw ro m s :
  (n, raw) ∈ f_asked s → m_temps m !! k = Some i → m_open m !! i = Some (raw, ro) →
  okp (osb (Replace ps n k) Os_error) m s (λ _ m' s', replaced_since s ps n raw s').
Proof.
  intros Hask Hk Hi. apply osb_ok. intros s1 H1. split.
  { exists i. split; [done|]. exists raw, ro. split_and!; [done|by eapply le_asks|done]. }
  intros m' s2 H2 (i' & Hk' & _ & He) s3 H3. assert (i' = i) as -> by congruence.
  eapply (replaced_later s s1); [done|exact H3|]. eapply entered_replaced; [done|by apply He].
Qed.

Lemma write_atomic_ok ps n raw make_parent fsync cleanup m s :
  (n, raw) ∈ f_asked s → okp (write_atomic ps n raw make_parent fsync cleanup) m s (λ _ _ s', replaced_since s ps n raw s').
Proof.
  intros Hask. unfold write_atomic, write_replacement. apply (try_ok _ _ _ _ (kept m)); [destruct make_parent; [by apply osb_kept|by apply ret_ok]|].
  intros [] m1 s1 H1 ->. eapply try_ok; [apply create_ok|]. intros [k i] m2 s2 H2 ->. cbn [fst snd]. pose proof (opens_own n k i m) as [Hk Hi].
  eapply file_ok_bind.
  { refine (_ : okp _ _ _ (λ (_ : ()) m' s', if cleanup then replaced_since s ps n raw s' else open_with (opens k i m) i raw false m')).
    eapply try_ok; [by apply write_all_ok|]. intros [] m3 s3 H3 (Hi3 & Hk3 & Hw3).
    apply (try_ok _ _ _ _ (kept m3)); [destruct fsync; [by apply osb_kept|by apply ret_ok]|]. intros [] m4 s4 H4 ->. destruct cleanup.
    - eapply file_ok_weaken; [eapply replace_ok; [|by rewrite Hk3|done]|].
      + eapply le_asks, Hask. chain.
      + intros [|[]] m5 s5 H5; [done|]. intros Hr. eapply (replaced_later s s4); [|reflexivity|done]. chain.
    - apply ret_ok. intros s5 H5. by split_and!. }
  cbn beta. intros [e|[]] m3 s3 H3 HQ.
  - apply (try_ok _ _ _ _ (kept m3)); [apply discard_ok; intros; by split|]. intros. apply raise_ok.
  - destruct cleanup.
    + apply ret_ok. intros s4 H4. by eapply (replaced_later s s).
    + destruct HQ as (Hi3 & Hk3 & _). eapply file_ok_weaken; [eapply replace_ok; [|by rewrite Hk3|done]|].
      * eapply le_asks, Hask. chain.
      * intros [|[]] m5 s5 H5; [done|]. intros Hr. eapply (replaced_later s s3); [|reflexivity|done]. chain.
Qed.

Lemma publish_mutable_ok ps n raw m s :
  (n, raw) ∈ f_asked s → okp (publish_mutable ps n raw) m s (λ won _ s', won = true → replaced_since s ps n raw s').
Proof.
  intros Hask. unfold publish_mutable. apply (try_ok _ _ _ _ (kept m)); [by apply osb_kept|]. intros [] m1 s1 Hs1 ->.
  eapply try_ok; [apply create_ok|]. intros [k i] m2 s2 Hs2 ->. cbn [fst snd]. pose proof (opens_own n k i m) as [Hk Hi].
  apply finally_ok; [|intros a m3 s3 s4 Hle Hw Ha; eapply (replaced_later s s); [reflexivity|exact Hle|by apply Hw]|intros m3 s3; apply discard_ok; intros; by split].
  eapply try_ok; [by apply write_all_ok|]. intros [] m3 s3 Hs3 (Hi3 & Hk3 & Hw3).
  do 2 (apply (try_ok _ _ _ _ (kept m3)); [by apply osb_kept|]; intros [] ? ? ? ->).
  apply file_ok_call. intros s4 Hs4. assert (le s s4) as Hle by chain. split.
  { exists i. split; [by rewrite Hk3|]. exists raw, false. split_and!; [done|by eapply le_asks|done]. }
  intros x m' s5 Hs5 (i' & Hk' & _ & He). assert (i' = i) as -> by congruence. destruct x; [|by apply ret_ok|apply raise_ok].
  apply ret_ok. intros s6 Hs6 _. eapply (replaced_later s s4); [done|exact Hs6|]. eapply entered_replaced; [done|by apply He].
Qed.
End handlers.
