(* ===== verification/FileStoreSpec.v ===== *)
(** * What the file store guarantees

    Theorems about every state that writers and readers reach, interleaved call
    by call and stopped anywhere: sealed records are written once and whole,
    answers about them agree, reads of current records are whole and not stale;
    and, when nobody interferes, what is published is read. *)
From S2P Require Import Prelude.
From S2P Require Import Prog.
From S2P Require Import FileStore.
From S2P Require Import FileStoreLogic.
From S2P Require Import FileStoreHandlers.
From Stdlib Require Import Strings.Ascii.
From stdpp Require Import options.

(** ** The machine *)

Section machine.
Context (moved : bool).

Abbreviation le := (FileStoreLogic.le moved).

(** What an answer says of the files, since the call began. *)
Definition outcome (c : client) (s0 : fs) (r : out) (m : mode) (s : fs) : Prop :=
  match c, r with
  | _, Raises _ => True
  | Publisher ps n raw _, Won w => published moved s0 ps n raw w m s
  | Exact _ ps n raw, Done => whole moved s0 ps (Sealed n) raw s
  | Writer ps n raw _ _ _, Done => replaced_since moved s0 ps n raw s
  | Linker ps n raw, Won w => w = true → replaced_since moved s0 ps n raw s
  | Stable_reader _ ps n _ _, Bytes b => whole moved s0 ps (Sealed n) b s
  | Record_reader _ ps n _, Bytes b => whole moved s0 ps (Current n) b s
  | _, _ => False
  end.

Lemma answer_ok {A} (f : A → out) (p : proc A) m s (Q : A → mode → fs → Prop) (R : out → mode → fs → Prop) :
  okp moved p m s Q → (∀ e m' s', R (Raises e) m' s') → (∀ a m' s' s'', le s s' → Q a m' s' → le s' s'' → R (f a) m' s'') →
  ok moved (answer f p) m s R.
Proof.
  intros Hp He HQ. eapply file_ok_bind; [exact Hp|]. intros [e|a] m' s' Hle Hr; apply file_ok_ret; [by intros; apply He|]. intros s'' H. by eapply HQ.
Qed.

Lemma file_handler_ok c m s0 s : le s0 s → asks c ⊆ f_asked s → ok moved (handler c) m s (outcome c s0).
Proof.
  intros H0 Hask. destruct c as [ps n raw prelink|fuel ps n raw|ps n raw mp fsync cleanup|ps n raw|fuel ps n [] max|fuel ps n max]; cbn [handler asks] in *.
  1: eapply answer_ok; [apply publish_immutable_ok; set_solver|done|]; intros w m' s' s'' _ Hw H; by apply (published_later moved s0 s _ _ _ _ _ s').
  1: eapply answer_ok; [apply publish_exact_ok; set_solver|done|].
  2: eapply answer_ok; [apply write_atomic_ok; set_solver|done|]; intros a m' s' s'' _ Hw H; by apply (replaced_later moved s0 s _ _ _ s').
  2: eapply answer_ok; [apply publish_mutable_ok; set_solver|done|]; intros w m' s' s'' _ Hw H; cbn; intros E; apply (replaced_later moved s0 s _ _ _ s'); [done|done|by apply Hw].
  2-4: eapply answer_ok; [by apply read_file_ok|done|].
  all: intros b m' s' s'' _ Hw H; by apply (whole_later moved s0 s _ _ _ s').
Qed.

(** Every call is safe, and its answer true, whatever comes. *)
Definition sane (s : fs) (T : threads) : Prop :=
  Inv s ∧ (∀ x, x ∈ f_asked s → ∃ a t, T a = Some t ∧ x ∈ asks (th_client t))
  ∧ ∃ Ms : nat → mode, (∀ a, holds a (Ms a) s)
     ∧ ∀ a t, T a = Some t → le (th_since t) s ∧ ok moved (th_prog t) (Ms a) s (outcome (th_client t) (th_since t)).

Definition put_mode (a : nat) (m : mode) (Ms : nat → mode) : nat → mode := λ b, if decide (b = a) then m else Ms b.

Lemma put_eq a t T : put a t T a = t.
Proof. unfold put. by rewrite decide_True. Qed.

Lemma fop_asked {X} (o : fop X) a s x s' : fop_step o a s x s' → f_asked s' = f_asked s.
Proof.
  destruct o; cbn; unfold grow, protect; intros H;
    repeat match goal with
           | H : context [match ?y with _ => _ end] |- _ => destruct y
           | H : _ ∧ _ |- _ => destruct H
           | H : ∃ _, _ |- _ => destruct H
           | H : _ ∨ _ |- _ => destruct H
           end; subst; done.
Qed.

Lemma sane_step s T s' T' : step moved (s, T) (s', T') → sane s T → sane s' T' ∧ le s s'.
Proof.
  intros Hstep. inversion Hstep as [a s1 s2 T1 c s0 X o k x Ha Hop|a s1 T1 c Ha|s1 s2 T1 Henv]; subst; clear Hstep; intros (HI & Hasks & Ms & Hm & Hok).
  - destruct (Hok a _ Ha) as [H0 Hp]. cbn [th_client th_since th_prog] in *. destruct (Hp s) as [Hpre Hk]; [reflexivity|].
    destruct (file_op_sound moved o a (Ms a) s x s' HI (Hm a) Hpre Hop) as (HI' & Hle & (m' & Hpost & Hm') & Hothers).
    split; [|done]. split; [done|]. split.
    { intros y Hy. assert (y ∈ f_asked s) as Hy0; [|destruct (Hasks y Hy0) as (b & t & Hb & Hin)].
      { by rewrite <-(fop_asked _ _ _ _ _ Hop). }
      destruct (decide (b = a)) as [->|Hne]; [|exists b, t; unfold put; by rewrite decide_False].
      rewrite Ha in Hb. injection Hb as <-. exists a. eexists. rewrite put_eq. by split. }
    exists (put_mode a m' Ms). split; intros b; unfold put_mode, put; destruct (decide (b = a)) as [->|Hb].
    + done.
    + by apply Hothers.
    + intros t [= <-]. cbn. split; [by etrans|]. by apply Hk.
    + intros t Ht. destruct (Hok b t Ht) as [H1 H2]. split; [by etrans|by eapply ok_later].
  - destruct (ask_sound moved (asks c) s HI) as (HI' & Hle & Hothers). split; [|done]. split; [done|]. split.
    { intros y [Hy|Hy]%elem_of_union; [exists a; eexists; by rewrite put_eq|]. destruct (Hasks y Hy) as (b & t & Hb & Hin).
      exists b, t. unfold put. rewrite decide_False; [done|]. congruence. }
    exists (put_mode a idle Ms). split; intros b; unfold put_mode, put; destruct (decide (b = a)) as [->|Hb].
    + by split.
    + by apply Hothers.
    + intros t [= <-]. cbn [th_since th_prog th_client]. split; [done|]. apply file_handler_ok; [done|]. cbn. set_solver.
    + intros t Ht. destruct (Hok b t Ht) as [H1 H2]. split; [by etrans|by eapply ok_later].
  - destruct (env_sound moved s s' HI Henv) as (HI' & Hle & Hothers). split; [|done]. split; [done|]. split.
    { intros y Hy. apply Hasks. destruct Henv; exact Hy. }
    exists Ms. split; [intros; by apply Hothers|]. intros b t Ht. destruct (Hok b t Ht) as [H1 H2]. split; [by etrans|by eapply ok_later].
Qed.

Lemma sane_steps s T s' T' : rtc (step moved) (s, T) (s', T') → sane s T → sane s' T' ∧ le s s'.
Proof.
  intros H. remember (s, T) as x eqn:Ex. remember (s', T') as y eqn:Ey. revert s T Ex.
  induction H as [x|x [s1 T1] y Hstep _ IH]; intros s T ->; [injection Ey as -> ->; by split|]. intros Hs.
  destruct (sane_step _ _ _ _ Hstep Hs) as [Hs1 Hle]. destruct (IH Ey s1 T1 eq_refl Hs1). split; [done|by etrans].
Qed.

Lemma empty_sane : sane empty (λ _, None).
Proof. split; [apply files_empty_inv|]. split; [intros x Hx; by apply elem_of_empty in Hx|]. exists (λ _, idle). split; [apply files_empty_idle|done]. Qed.

Lemma reachable_sane s T : reachable moved s T → sane s T.
Proof. intros H. by apply (sane_steps _ _ _ _ H), empty_sane. Qed.

(** A call begun later began in a later state. *)
Lemma since_later s T s' T' a t : sane s T → rtc (step moved) (s, T) (s', T') → T a = None → T' a = Some t → le s (th_since t).
Proof.
  intros Hs H. remember (s', T') as y eqn:Ey. remember (s, T) as x eqn:Ex.
  assert (∀ s1 T1, x = (s1, T1) → sane s1 T1 ∧ le s s1 ∧ (T1 a = None ∨ ∃ t1, T1 a = Some t1 ∧ le s (th_since t1)) → T' a = Some t → le s (th_since t)) as Hgen; cycle 1.
  { intros Ha. subst x. apply (Hgen s T eq_refl). split_and!; [done|done|by left]. }
  clear Hs Ex. induction H as [x|x [s2 T2] y Hstep _ IH]; intros s1 T1 ->.
  - injection Ey as -> ->. intros (_ & _ & [?|(t1 & E & Hle)]); congruence.
  - intros (Hs1 & Hle & Ha). apply (IH Ey s2 T2 eq_refl). destruct (sane_step _ _ _ _ Hstep Hs1) as [Hs2 Hle2].
    split_and!; [done|by etrans|]. clear IH Hs1 Hs2 Hle2.
    inversion Hstep as [b s3 s4 T3 c s0 X o k x Hb Hop|b s3 T3 c Hb|s3 s4 T3 Henv]; subst; unfold put; [| |done].
    + case_decide as E; [|done]. subst b. right. destruct Ha as [?|(t1 & E & Ht)]; [congruence|]. rewrite Hb in E. injection E as <-. by eexists.
    + case_decide as E; [|done]. subst b. right. by eexists.
Qed.

(** The answer of a call that has ended. *)
Lemma ended s T a c s0 r : sane s T → T a = Some (mkThread c s0 (Ret r)) → ∃ m, holds a m s ∧ outcome c s0 r m s.
Proof. intros (_ & _ & Ms & Hm & Hok) Ha. destruct (Hok a _ Ha) as [_ Hr]. exists (Ms a). split; [done|]. by apply Hr. Qed.

Lemma final_file s i b : Inv s → f_final s !! i = Some b → ∃ ro, f_nodes s !! i = Some (File b ro).
Proof. intros HI. apply (i_final _ HI). Qed.

End machine.

(** ** Records written once *)


(** What an answer says that a sealed record holds. *)
Definition says (c : client) (r : out) : option (list string * string * bytes) :=
  match c, r with
  | Publisher ps n raw _, Won true => Some (ps, n, raw)
  | Exact _ ps n raw, Done => Some (ps, n, raw)
  | Stable_reader _ ps n _ _, Bytes b => Some (ps, n, b)
  | _, _ => None
  end.

Lemma says_holds s c s0 r m ps n b :
  Inv s → outcome false c s0 r m s → says c r = Some (ps, n, b) →
  ∃ d i, resolve s ps = Some d ∧ sealed_since s0 s d n i ∧ f_final s !! i = Some b ∧ (r = Won true → i ∈ m_won m).
Proof.
  intros HI. destruct c as [ps' n' raw prelink|fuel ps' n' raw|ps' n' raw mp fsync cleanup|ps' n' raw|fuel ps' n' ro max|fuel ps' n' max], r as [[]| |b'|e];
    try done; cbn [outcome says]; intros Ho [= <- <- <-].
  - destruct Ho as (d & i & Hp & Hd & Hw). destruct (Hw eq_refl). exists d, i. split_and!; [by apply Hp|done..].
  - destruct Ho as (d & i & Hp & Hf & Hd). exists d, i. by split_and!; [apply Hp|..].
  - destruct Ho as (d & i & Hp & Hf & Hd). exists d, i. by split_and!; [apply Hp|..].
Qed.


(** ** Records replaced *)

(** C7: reads of a replaced record are whole and not stale.  Where directories
    stay where they are, a read of a current record that began after a write
    of it had ended returns exactly the bytes of one writer, and of a record
    that became current no earlier than the one that was written. *)
Theorem current_reads_fresh s1 T1 s T w a ps n raw make_parent fsync cleanup s0 fuel max s2 b :
  reachable false s1 T1 → T1 w = Some (mkThread (Writer ps n raw make_parent fsync cleanup) s0 (Ret Done)) → T1 a = None →
  rtc (step false) (s1, T1) (s, T) → T a = Some (mkThread (Record_reader fuel ps n max) s2 (Ret (Bytes b))) →
  ∃ d written read j i ro ro', resolve s ps = Some d ∧ log s d n !! written = Some j ∧ f_nodes s !! j = Some (File raw ro)
    ∧ log s d n !! read = Some i ∧ f_nodes s !! i = Some (File b ro') ∧ written ≤ read
    ∧ ∃ v t, T v = Some t ∧ (n, b) ∈ asks (th_client t).
Proof.
  intros Hs1%reachable_sane Hw Ha Hsteps Hr. destruct (sane_steps _ _ _ _ _ Hsteps Hs1) as [Hs Hle].
  pose proof (since_later _ _ _ _ _ _ _ Hs1 Hsteps Ha Hr) as Hsince. cbn in Hsince. pose proof Hs as (HI & Hasks & _).
  destruct (ended _ _ _ _ _ _ _ Hs1 Hw) as (m1 & _ & (d1 & j & written & Hp1 & Hf1 & Hl1 & _)).
  destruct (ended _ _ _ _ _ _ _ Hs Hr) as (m2 & _ & (d & i & Hp & Hf & (read & Hl & Hread))).
  pose proof (place_later _ _ _ _ _ Hle Hp1 eq_refl) as Hp1'. specialize (Hp eq_refl). assert (d1 = d) as -> by congruence.
  pose proof (final_later _ _ _ _ _ Hle Hf1) as Hf1'. destruct (i_final _ HI _ _ Hf1') as [ro Hn1], (i_final _ HI _ _ Hf) as [ro' Hn].
  exists d, written, read, j, i, ro, ro'. split_and!; [done|by eapply log_later|done|done|done| |].
  - pose proof (log_length _ _ _ d n Hsince). apply lookup_lt_Some in Hl1. lia.
  - apply Hasks. destruct (i_log _ HI d n i) as (b' & Hb' & Hin); [by eapply list_elem_of_lookup_2|]. congruence.
Qed.

(** ** Alone *)

(** A machine where every call succeeds that can. *)
Definition stat_of (s : fs) (i : nat) : option Stat :=
  match f_nodes s !! i with
  | Some (File b ro) => Some (mkStat i true ro (length b) 0 1 0)
  | Some _ => Some (mkStat i false false 0 0 1 0)
  | None => None
  end.

Definition calm {X} (o : fop X) (a : nat) (s : fs) : X * fs :=
  let i := fresh (dom (f_nodes s)) in
  let k := fresh (dom (f_temps s)) in
  match o in fop X return X * fs with
  | Open_root => (Got ROOT, s)
  | Open_at d c => (match f_dirs s !! (d, Sub c) with Some i => match f_nodes s !! i with Some Folder => Got i | _ => Loop end | None => Absent end, s)
  | Mkdir d c => match f_dirs s !! (d, Sub c) with Some _ => (There, s) | None => (Made, add_folder d c i Folder s) end
  | Make_parents ps => (match resolve s ps with Some _ => true | None => false end, s)
  | Sync _ => (true, s)
  | Mkstemp d n => (Some (k, i), add_temp a d n k i s)
  | Create ps n => match resolve s ps with Some d => (Some (k, i), add_temp a d n k i s) | None => (None, s) end
  | Write j rest => match rest with [] => (None, grow j [] s) | _ => (Some (length rest), grow j rest s) end
  | Chmod j => (true, protect j s)
  | Fstat j => (stat_of s j, s)
  | Verify => (true, s)
  | Link d n k =>
      match f_dirs s !! (d, Sealed n), f_dirs s !! (d, Temp n k) with
      | Some _, _ => (There, s)
      | None, Some j => (Made, seal d n j s)
      | None, None => (Raised, s)
      end
  | Link_path ps n k =>
      match resolve s ps with
      | Some d =>
          match f_dirs s !! (d, Current n), f_dirs s !! (d, Temp n k) with
          | None, Some j => (Made, enter d n j s)
          | Some _, _ => (There, s)
          | _, _ => (Raised, s)
          end
      | None => (Raised, s)
      end
  | Replace ps n k =>
      match resolve s ps with
      | Some d => match f_dirs s !! (d, Temp n k) with Some j => (true, enter d n j (forget d (Temp n k) s)) | None => (false, s) end
      | None => (false, s)
      end
  | Stat_at d e => (match f_dirs s !! (d, e) with Some j => match stat_of s j with Some st => Got st | None => Fault end | None => Absent end, s)
  | Open_leaf d e => (match f_dirs s !! (d, e) with Some j => match f_nodes s !! j with Some (File _ _) => Got j | _ => Loop end | None => Absent end, s)
  | Read j o => (match f_nodes s !! j with Some (File b _) => Some (drop o b) | _ => None end, s)
  | Unlink d n k => (Got (), forget d (Temp n k) s)
  | Unlink_path ps n k => match resolve s ps with Some d => (Got (), forget d (Temp n k) s) | None => (Absent, s) end
  end.

Fixpoint drive {A} (p : prog fop A) (a : nat) (s : fs) : A * fs :=
  match p with
  | Ret x => (x, s)
  | Do o k => let '(x, s') := calm o a s in drive (k x) a s'
  end.

Lemma stat_of_shows s i st : stat_of s i = Some st → shows s i st.
Proof. unfold stat_of, shows. destruct (f_nodes s !! i) as [[]|]; by intros [= <-]. Qed.

Lemma calm_step {X} (o : fop X) a s : fop_step o a s (calm o a s).1 (calm o a s).2.
Proof.
  assert (f_nodes s !! fresh (dom (f_nodes s)) = None) as Hi by (apply not_elem_of_dom, is_fresh).
  assert (f_temps s !! fresh (dom (f_temps s)) = None) as Hk by (apply not_elem_of_dom, is_fresh).
  destruct o; cbn.
  - split; [by intros i [= <-]|done].
  - split; [|done]. intros i. destruct (f_dirs s !! (d, Sub c)) as [j|]; [|done]. destruct (f_nodes s !! j) as [[]|] eqn:E; try done. by intros [= <-].
  - destruct (f_dirs s !! (d, Sub c)) eqn:E; cbn; [done|]. by eexists.
  - split; [|done]. by destruct (resolve s ps); [eexists|].
  - done.
  - done.
  - destruct (resolve s ps) as [d|] eqn:E; cbn; [|done]. by exists d.
  - destruct rest as [|c rest]; [by exists 0|]. cbn [fst snd]. split; [cbn; lia|]. by rewrite (take_ge (c :: rest)) by (cbn; lia).
  - by left.
  - split; [|done]. intros st. apply stat_of_shows.
  - done.
  - destruct (f_dirs s !! (d, Sealed n)) as [j|] eqn:Es; [right; split_and!; [done|by eexists|done]|].
    destruct (f_dirs s !! (d, Temp n k)) as [j|] eqn:Et; [left; by exists j|by right].
  - destruct (resolve s ps) as [d|] eqn:Er; [|by right]. destruct (f_dirs s !! (d, Current n)) as [j|] eqn:Es; [by right|].
    destruct (f_dirs s !! (d, Temp n k)) as [j|] eqn:Et; [left; by exists d, j|by right].
  - destruct (resolve s ps) as [d|] eqn:Er; [|by right]. destruct (f_dirs s !! (d, Temp n k)) as [j|] eqn:Et; [left; by exists d, j|by right].
  - split; [|done]. intros st. destruct (f_dirs s !! (d, e)) as [j|]; [|done]. destruct (stat_of s j) as [st'|] eqn:E; [|done].
    intros [= <-]. exists j. split; [done|by apply stat_of_shows].
  - split; [|done]. intros i. destruct (f_dirs s !! (d, e)) as [j|]; [|done]. destruct (f_nodes s !! j) as [[b ro| |]|] eqn:E; try done.
    intros [= <-]. split; [done|by exists b, ro].
  - split; [|done]. intros c. destruct (f_nodes s !! i) as [[b ro| |]|]; try done. intros [= <-]. exists b, ro, (length b).
    split_and!; [done|lia|]. rewrite take_ge; [done|]. rewrite length_drop. lia.
  - by left.
  - destruct (resolve s ps) as [d|]; [left; by exists d|by right].
Qed.

Lemma drive_bind {A B} (p : prog fop A) (f : A → prog fop B) a s : drive (p ≫= f) a s = let '(x, s') := drive p a s in drive (f x) a s'.
Proof.
  revert s. induction p as [x|X o k IH]; intros s; [done|]. change (Do o k ≫= f) with (Do o (λ x, k x ≫= f)). cbn.
  destruct (calm o a s) as [x s']. apply IH.
Qed.

Lemma drive_try {A B} (p : proc A) (f : A → proc B) a s x s' : drive p a s = (inr x, s') → drive (try p f) a s = drive (f x) a s'.
Proof. intros H. unfold try. by rewrite drive_bind, H. Qed.

Lemma drive_finally {A} (p : proc A) (q : proc ()) a s r s' s'' :
  drive p a s = (r, s') → drive q a s' = (inr (), s'') → drive (finally p q) a s = (r, s'').
Proof. intros H Hq. unfold finally. by rewrite drive_bind, H, drive_bind, Hq. Qed.

Lemma drive_osb o e a s : (calm o a s).1 = true → drive (osb o e) a s = (inr (), (calm o a s).2).
Proof. intros H. unfold osb, call. cbn. destruct (calm o a s) as [b s']. cbn in H. by subst b. Qed.

Lemma drive_os {A} (o : fop (option A)) a s x : (calm o a s).1 = Some x → drive (os o) a s = (inr x, (calm o a s).2).
Proof. intros H. unfold os, call. cbn. destruct (calm o a s) as [b s']. cbn in H. by subst b. Qed.

Lemma drive_require (b : bool) e a s : b = true → drive (require b e) a s = (inr (), s).
Proof. by intros ->. Qed.

Lemma drive_walk create a s d ps d' : resolve_from s d ps = Some d' → drive (walk create d ps) a s = (inr d', s).
Proof.
  revert d. induction ps as [|c ps IH]; intros d; cbn [resolve_from walk]; [by intros [= ->]|].
  destruct (f_dirs s !! (d, Sub c)) as [i|] eqn:Ed; [|done]. destruct (f_nodes s !! i) as [[]|] eqn:En; try done. intros Hr.
  rewrite (drive_try _ _ _ _ false s); [|destruct create; [|done]; unfold call; cbn; by rewrite Ed].
  unfold call. cbn. rewrite Ed, En. by apply IH.
Qed.

Lemma drive_open_directory create a s ps d :
  absolute_nofollow_path ps = true → resolve s ps = Some d → drive (open_directory_nofollow create ps) a s = (inr d, s).
Proof. intros Ha Hr. unfold open_directory_nofollow. rewrite Ha. by apply drive_walk. Qed.

Lemma drive_assert_directory a s ps d st :
  absolute_nofollow_path ps = true → resolve s ps = Some d → stat_of s d = Some st → drive (assert_directory_identity d ps) a s = (inr (), s).
Proof.
  intros Ha Hr Hst. unfold assert_directory_identity. rewrite drive_bind, (drive_open_directory _ _ _ _ _ Ha Hr). do 2 (rewrite (drive_try _ _ _ _ st s) by by apply drive_os).
  apply drive_require. by apply bool_decide_eq_true.
Qed.

(** Directories that stay. *)
Definition stays (s s' : fs) : Prop :=
  (∀ d c, f_dirs s' !! (d, Sub c) = f_dirs s !! (d, Sub c)) ∧ ∀ i, f_nodes s !! i = Some Folder → f_nodes s' !! i = Some Folder.

Lemma resolve_stays s s' ps d : stays s s' → resolve s ps = Some d → resolve s' ps = Some d.
Proof.
  intros [Hd Hn]. unfold resolve. generalize ROOT as r. induction ps as [|c ps IH]; intros r; cbn [resolve_from]; [done|]. rewrite Hd.
  destruct (f_dirs s !! (r, Sub c)) as [i|]; [|done]. destruct (f_nodes s !! i) as [[]|] eqn:En; try done. rewrite (Hn i En). apply IH.
Qed.

Lemma resolve_folder s ps d : Inv s → resolve s ps = Some d → f_nodes s !! d = Some Folder.
Proof.
  intros HI. unfold resolve. pose proof (i_root _ HI) as Hroot. revert Hroot. generalize ROOT as r.
  induction ps as [|c ps IH]; intros r Hr; cbn [resolve_from]; [congruence|].
  destruct (f_dirs s !! (r, Sub c)) as [i|]; [|done]. destruct (f_nodes s !! i) as [[]|] eqn:En; try done. by apply IH.
Qed.

(** A file of these bytes. *)
Definition with_file (i : nat) (b : bytes) (ro : bool) (s : fs) : fs := set_nodes (<[i := File b ro]> (f_nodes s)) s.

Lemma with_file_twice i b ro b' ro' s : with_file i b ro (with_file i b' ro' s) = with_file i b ro s.
Proof. unfold with_file. cbn. by rewrite insert_insert_eq. Qed.

Lemma drive_write_all a s i raw b ro :
  f_nodes s !! i = Some (File b ro) → drive (write_all (length raw) i raw) a s = (inr (), with_file i (b ++ raw) ro s).
Proof.
  intros Hi. destruct raw as [|c raw].
  - cbn. unfold with_file. rewrite app_nil_r, insert_id by done. by destruct s.
  - cbn [length write_all]. rewrite (drive_try _ _ _ _ (S (length raw)) (grow i (c :: raw) s)) by by apply drive_os.
    rewrite (drop_ge (c :: raw)) by (cbn; lia). unfold grow, with_file. rewrite Hi. by destruct (length raw).
Qed.

(** What a publication alone leaves. *)
Definition after_publish (a d : nat) (n : string) (raw : bytes) (s : fs) : fs :=
  let i := stdpp.base.fresh (dom (f_nodes s)) in
  let k := stdpp.base.fresh (dom (f_temps s)) in
  let s1 := with_file i raw true (add_temp a d n k i s) in
  forget d (Temp n k) (match f_dirs s !! (d, Sealed n) with Some _ => s1 | None => seal d n i s1 end).

Lemma drive_publish a s ps n raw prelink d :
  Inv s → resolve s ps = Some d → absolute_nofollow_path (ps ++ [n]) = true →
  drive (publish_immutable ps n raw prelink) a s
  = (inr (match f_dirs s !! (d, Sealed n) with Some _ => false | None => true end), after_publish a d n raw s).
Proof.
  intros HI Hr Ha. assert (absolute_nofollow_path ps = true) as Ha'.
  { unfold absolute_nofollow_path in *. apply bool_decide_eq_true. apply bool_decide_eq_true in Ha. set_solver. }
  unfold publish_immutable. rewrite Ha, (drive_try _ _ _ _ d s) by by apply drive_open_directory.
  unfold after_publish. set (i := stdpp.base.fresh (dom (f_nodes s))). set (k := stdpp.base.fresh (dom (f_temps s))).
  assert (f_nodes s !! i = None) as Hi by (apply not_elem_of_dom, is_fresh).
  rewrite (drive_try _ _ _ _ (k, i) (add_temp a d n k i s)) by by apply drive_os.
  set (s0 := add_temp a d n k i s). set (s1 := with_file i raw true s0).
  assert (f_nodes s0 !! i = Some (File [] false)) as H0 by (unfold s0; files; apply lookup_insert_eq).
  assert (f_dirs s1 !! (d, Sealed n) = f_dirs s !! (d, Sealed n)) as Hsealed by (unfold s1, s0, with_file; files; by rewrite lookup_insert_ne).
  assert (f_dirs s1 !! (d, Temp n k) = Some i) as Htemp by (unfold s1, s0, with_file; files; by rewrite lookup_insert_eq).
  set (s2 := match f_dirs s !! (d, Sealed n) with Some _ => s1 | None => seal d n i s1 end).
  assert (f_nodes s2 = <[i := File raw true]> (<[i := File [] false]> (f_nodes s))) as Hn2 by (unfold s2; destruct (f_dirs s !! _); done).
  assert (stays s s2) as Hstays.
  { split; [intros d' c|intros j Hj; rewrite Hn2, !lookup_insert_ne; [done|congruence|congruence]].
    unfold s2. destruct (f_dirs s !! (d, Sealed n)); unfold s1, s0, with_file; files; by rewrite !lookup_insert_ne. }
  assert (f_nodes s2 !! d = Some Folder) as Hd by (apply Hstays; by eapply resolve_folder).
  eapply drive_finally; [|reflexivity].
  rewrite (drive_try _ _ _ _ () (with_file i raw false s0)) by exact (drive_write_all a s0 i raw [] false H0).
  rewrite (drive_try _ _ _ _ () s1).
  2: { rewrite drive_osb by done. f_equal. cbn [calm snd]. unfold protect.
       assert (f_nodes (with_file i raw false s0) !! i = Some (File raw false)) as -> by apply lookup_insert_eq.
       apply (with_file_twice i raw true raw false). }
  rewrite (drive_try _ _ _ _ () s1) by by apply drive_osb.
  rewrite (drive_try _ _ _ _ (mkStat i true true (length raw) 0 1 0) s1).
  2: { apply drive_os. cbn. unfold stat_of, s1, with_file. cbn [f_nodes set_nodes]. by rewrite lookup_insert_eq. }
  rewrite (drive_try _ _ _ _ () s1) by (destruct prelink; [by apply drive_osb|done]).
  rewrite (drive_try _ _ _ _ (match f_dirs s !! (d, Sealed n) with Some _ => false | None => true end) s2).
  2: { unfold call, s2. cbn [drive mbind prog_mbind prog_bind calm]. rewrite Hsealed, Htemp. by destruct (f_dirs s !! (d, Sealed n)). }
  rewrite (drive_try _ _ _ _ () s2) by by apply drive_osb.
  rewrite (drive_try _ _ _ _ () s2).
  2: { unfold s2. destruct (f_dirs s !! (d, Sealed n)) as [j|] eqn:Ej; [done|]. unfold call. cbn [drive mbind prog_mbind prog_bind calm].
       assert (f_dirs (seal d n i s1) !! (d, Sealed n) = Some i) as -> by (files; apply lookup_insert_eq).
       assert (stat_of (seal d n i s1) i = Some (mkStat i true true (length raw) 0 1 0)) as ->.
       { unfold stat_of. assert (f_nodes (seal d n i s1) !! i = Some (File raw true)) as -> by (unfold s1, with_file; files; apply lookup_insert_eq). done. }
       apply drive_require. cbn. by rewrite bool_decide_eq_true_2. }
  rewrite (drive_try _ _ _ _ () s2); [done|]. eapply drive_assert_directory; [done|by eapply resolve_stays|]. unfold stat_of. by rewrite Hd.
Qed.

Lemma drive_read_all n b s i max raw acc :
  f_nodes s !! i = Some (File (acc ++ raw) true) → exceeds (length (acc ++ raw)) max = false → 2 ≤ n →
  drive (read_all n i max acc) b s = (inr (acc ++ raw), s).
Proof.
  intros Hi Hmax Hn. destruct n as [|[|n]]; [lia..|]. cbn [read_all].
  rewrite (drive_try _ _ _ _ raw s) by (rewrite (drive_os _ _ _ raw); [done|]; cbn; rewrite Hi; by rewrite drop_app_length).
  destruct raw as [|c raw]; [by rewrite app_nil_r|]. rewrite (drive_try _ _ _ _ () s) by (apply drive_require; by rewrite <-length_app, Hmax).
  cbn [read_all]. rewrite (drive_try _ _ _ _ ([] : bytes) s); [done|]. rewrite (drive_os _ _ _ ([] : bytes)); [done|]. cbn. rewrite Hi. by rewrite drop_ge.
Qed.

Lemma drive_read fuel b s ps n d i raw max :
  Inv s → resolve s ps = Some d → absolute_nofollow_path (ps ++ [n]) = true → f_dirs s !! (d, Sealed n) = Some i →
  f_nodes s !! i = Some (File raw true) → exceeds (length raw) max = false → 2 ≤ fuel →
  drive (read_immutable_file fuel ps n max) b s = (inr raw, s).
Proof.
  intros HI Hr Ha Hd Hi Hmax Hfuel. assert (absolute_nofollow_path ps = true) as Ha'.
  { unfold absolute_nofollow_path in *. apply bool_decide_eq_true. apply bool_decide_eq_true in Ha. set_solver. }
  pose proof (resolve_folder _ _ _ HI Hr) as Hfolder. set (st := mkStat i true true (length raw) 0 1 0).
  assert (stat_of s i = Some st) as Hst by (unfold stat_of; by rewrite Hi).
  assert (drive (assert_regular_identity i d (Sealed n) false) b s = (inr (), s)) as Hreg.
  { unfold assert_regular_identity, call. cbn [drive mbind prog_mbind prog_bind calm]. rewrite Hd, Hst. rewrite (drive_try _ _ _ _ st s) by by apply drive_os.
    rewrite (drive_try _ _ _ _ () s) by done. apply drive_require. by apply bool_decide_eq_true. }
  unfold read_immutable_file, _read_file, _read_stable_file. change (_STABLE_FILE_READ_ATTEMPTS - 1) with 2. cbn [read_attempts].
  rewrite (drive_try _ _ _ _ (i, d) s).
  2: { unfold open_regular_nofollow. cbn [leaf_path]. rewrite Ha, (drive_try _ _ _ _ d s) by by apply drive_open_directory.
       unfold call. cbn [drive mbind prog_mbind prog_bind calm]. rewrite Hd, Hst. rewrite (drive_try _ _ _ _ () s) by done.
       unfold open_retrying_would_block. change (_WOULD_BLOCK_OPEN_ATTEMPTS - 1) with 5. unfold call. cbn [open_retrying]. unfold call.
       cbn [drive mbind prog_mbind prog_bind calm]. by rewrite Hd, Hi. }
  rewrite (drive_try _ _ _ _ st s) by by apply drive_os.
  do 3 (rewrite (drive_try _ _ _ _ () s) by (apply drive_require; cbn [st_reg st_ro st_size st]; by rewrite ?Hmax)).
  rewrite (drive_try _ _ _ _ raw s) by by apply (drive_read_all _ _ _ _ _ _ []).
  rewrite (drive_try _ _ _ _ st s) by by apply drive_os.
  assert (stable st st = true) as -> by (unfold stable, substantive; by rewrite !bool_decide_eq_true_2, !Bool.eqb_reflx).
  cbn [negb]. rewrite (drive_try _ _ _ _ () s) by done. rewrite (drive_try _ _ _ _ () s); [done|].
  eapply drive_assert_directory; [done|done|]. unfold stat_of. by rewrite Hfolder.
Qed.

Lemma after_publish_file a s ps n raw d :
  Inv s → resolve s ps = Some d → f_dirs s !! (d, Sealed n) = None →
  let s1 := after_publish a d n raw s in
  resolve s1 ps = Some d ∧ ∃ i, f_dirs s1 !! (d, Sealed n) = Some i ∧ f_nodes s1 !! i = Some (File raw true).
Proof.
  intros HI Hr Hd. unfold after_publish. rewrite Hd. set (i := stdpp.base.fresh (dom (f_nodes s))). set (k := stdpp.base.fresh (dom (f_temps s))).
  assert (f_nodes s !! i = None) as Hi by (apply not_elem_of_dom, is_fresh). split.
  - apply (resolve_stays s); [|done]. unfold with_file. split; files; [intros d' c|intros j Hj]; [by rewrite lookup_delete_ne, !lookup_insert_ne|].
    rewrite !lookup_insert_ne; [done|congruence..].
  - exists i. unfold with_file. files. rewrite lookup_delete_ne, !lookup_insert_eq by done. done.
Qed.

(** A call made alone, from its start to its answer. *)
Lemma drive_reach moved (p : prog fop out) a s T c s0 :
  T a = Some (mkThread c s0 p) →
  ∃ T', rtc (step moved) (s, T) ((drive p a s).2, T') ∧ T' a = Some (mkThread c s0 (Ret (drive p a s).1)) ∧ ∀ b, b ≠ a → T' b = T b.
Proof.
  revert s T. induction p as [x|X o k IH]; intros s T Ha; [exists T; split_and!; [apply rtc_refl|done..]|]. cbn [drive].
  pose proof (calm_step o a s) as Hs. destruct (calm o a s) as [x s1]. cbn in Hs.
  destruct (IH x s1 (put a (Some (mkThread c s0 (k x))) T)) as (T' & H1 & H2 & H3); [apply put_eq|].
  exists T'. split_and!; [|done|].
  - eapply rtc_l; [|exact H1]. by apply (step_call moved a s s1 T c s0 X o k x).
  - intros b Hb. rewrite H3 by done. unfold put. by rewrite decide_False.
Qed.

Definition made_call (a : nat) (c : client) (s : fs) : out * fs := drive (handler c) a (ask (asks c) s).

Lemma call_steps moved s T a c :
  T a = None → ∃ T', rtc (step moved) (s, T) ((made_call a c s).2, T') ∧ T' a = Some (mkThread c s (Ret (made_call a c s).1)) ∧ ∀ b, b ≠ a → T' b = T b.
Proof.
  intros Ha. destruct (drive_reach moved (handler c) a (ask (asks c) s) (put a (Some (mkThread c s (handler c))) T) c s) as (T' & H1 & H2 & H3); [apply put_eq|].
  exists T'. split_and!; [|done|intros b Hb; rewrite H3 by done; unfold put; by rewrite decide_False]. eapply rtc_l; [by apply step_start|done].
Qed.

Lemma after_publish_inv a d n raw s :
  Inv s → (f_dirs s !! (d, Sealed n) = None → (n, raw) ∈ f_asked s) → Inv (after_publish a d n raw s).
Proof.
  intros HI Hask. unfold after_publish. set (i := stdpp.base.fresh (dom (f_nodes s))). set (k := stdpp.base.fresh (dom (f_temps s))).
  assert (f_nodes s !! i = None) as Hi by (apply not_elem_of_dom, is_fresh). assert (f_temps s !! k = None) as Hk by (apply not_elem_of_dom, is_fresh).
  destruct (temp_sound false a idle s d n k i Hk Hi HI) as (HI0 & _ & Hh0 & _); [by split|].
  destruct (bytes_sound false a _ _ i [] false raw true (lookup_insert_eq _ _ _) HI0 Hh0) as (HI1 & _ & Hh1 & _). fold (with_file i raw true (add_temp a d n k i s)) in HI1, Hh1.
  set (s1 := with_file i raw true (add_temp a d n k i s)) in *. apply (forget_sound false); [done|].
  destruct (f_dirs s !! (d, Sealed n)) as [j|] eqn:Ed; [done|].
  apply (seal_sound false a (wrote i (Some (raw, true)) (opens k i idle)) s1 d n k i); [|unfold s1, with_file; files; by rewrite lookup_insert_ne|done..].
  split; [apply lookup_insert_eq|]. exists raw, true. split_and!; [apply wrote_open|by apply Hask|by intros ? [= <-]].
Qed.

Lemma after_publish_kept a s ps n raw d i b :
  Inv s → resolve s ps = Some d → f_dirs s !! (d, Sealed n) = Some i → f_nodes s !! i = Some (File b true) →
  let s1 := after_publish a d n raw s in
  resolve s1 ps = Some d ∧ f_dirs s1 !! (d, Sealed n) = Some i ∧ f_nodes s1 !! i = Some (File b true).
Proof.
  intros HI Hr Hd Hn. unfold after_publish. rewrite Hd. set (j := stdpp.base.fresh (dom (f_nodes s))). set (k := stdpp.base.fresh (dom (f_temps s))).
  assert (f_nodes s !! j = None) as Hj by (apply not_elem_of_dom, is_fresh). split_and!.
  - apply (resolve_stays s); [|done]. unfold with_file. split; files; [intros d' c|intros x Hx]; [by rewrite lookup_delete_ne, !lookup_insert_ne|].
    rewrite !lookup_insert_ne; [done|congruence..].
  - unfold with_file. files. by rewrite lookup_delete_ne, lookup_insert_ne.
  - unfold with_file. files. rewrite !lookup_insert_ne; [done|congruence..].
Qed.

(** C8: what is published is read.  In a reachable state, when nobody
    interferes and no call fails, the publication of bytes under a name that
    is free in an existing directory wins; a read of at least two chunks whose
    bound admits the bytes returns exactly them; and an exact publication of
    any bytes then succeeds if they are the same and is refused as a conflict
    if not. *)
Theorem publish_read_roundtrip moved s T a b ps n raw d prelink max fuel :
  reachable moved s T → (n, raw) ∈ f_asked s → resolve s ps = Some d → absolute_nofollow_path (ps ++ [n]) = true →
  f_dirs s !! (d, Sealed n) = None → exceeds (length raw) max = false → 2 ≤ fuel →
  ∃ s1, drive (publish_immutable ps n raw prelink) a s = (inr true, s1)
    ∧ drive (read_immutable_file fuel ps n max) b s1 = (inr raw, s1)
    ∧ ∀ raw', (drive (publish_exact fuel ps n raw') b s1).1 = if decide (raw = raw') then inr () else inl Conflict.
Proof.
  intros [HI _]%reachable_sane Hask Hr Ha Hd Hmax Hfuel. exists (after_publish a d n raw s).
  destruct (after_publish_file a s ps n raw d HI Hr Hd) as (Hr1 & i & Hd1 & Hi1). pose proof (after_publish_inv a d n raw s HI (λ _, Hask)) as HI1.
  split_and!.
  - rewrite (drive_publish _ _ _ _ _ _ _ HI Hr Ha). by rewrite Hd.
  - by eapply drive_read.
  - intros raw'. set (s1 := after_publish a d n raw s) in *. destruct (after_publish_kept b s1 ps n raw' d i raw HI1 Hr1 Hd1 Hi1) as (Hr2 & Hd2 & Hi2).
    assert (Inv (after_publish b d n raw' s1)) as HI2 by (apply after_publish_inv; [done|congruence]).
    unfold publish_exact. rewrite (drive_try _ _ _ _ false (after_publish b d n raw' s1)).
    2: { rewrite (drive_publish _ _ _ _ _ _ _ HI1 Hr1 Ha). by rewrite Hd1. }
    rewrite (drive_try _ _ _ _ raw (after_publish b d n raw' s1)) by by eapply drive_read.
    destruct (decide (raw = raw')) as [<-|Hne]; [by rewrite bool_decide_eq_true_2|by rewrite bool_decide_eq_false_2].
Qed.

(** ** Instances *)

Definition one : bytes := ["1"%char].
Definition two : bytes := ["2"%char].
Definition publisher : client := Publisher [] "r" one false.
Definition stable_reader : client := Stable_reader 2 [] "r" true None.
Definition writer : client := Writer [] "r" two true true true.
Definition record_reader : client := Record_reader 2 [] "r" None.

(** An exact publication of other bytes. *)
Definition republisher : client := Exact 2 [] "r" two.



Lemma current_reads_fresh_witness :
  ∃ s T d written read j i ro ro', reachable false s T ∧ log s d "r" !! written = Some j ∧ f_nodes s !! j = Some (File two ro)
    ∧ log s d "r" !! read = Some i ∧ f_nodes s !! i = Some (File two ro') ∧ written ≤ read.
Proof.
  destruct (call_steps false empty (λ _, None) 0 writer eq_refl) as (T1 & H1 & E1 & F1). set (s1 := (made_call 0 writer empty).2) in *.
  assert (T1 1 = None) as N1 by (rewrite F1; [reflexivity|discriminate]).
  destruct (call_steps false s1 T1 1 record_reader N1) as (T2 & H2 & E2 & F2).
  assert ((made_call 0 writer empty).1 = Done) as A1 by (vm_compute; reflexivity). rewrite A1 in E1.
  assert ((made_call 1 record_reader s1).1 = Bytes two) as A2 by (vm_compute; reflexivity). rewrite A2 in E2.
  destruct (current_reads_fresh s1 T1 _ T2 0 1 [] "r" two true true true _ 2 None _ two H1 E1 N1 H2 E2)
    as (d & written & read & j & i & ro & ro' & _ & L1 & B1 & L2 & B2 & Hle & _).
  exists (made_call 1 record_reader s1).2, T2, d, written, read, j, i, ro, ro'.
  exact (conj (steps_app _ _ _ _ H1 H2) (conj L1 (conj B1 (conj L2 (conj B2 Hle))))).
Defined.

Lemma publish_read_roundtrip_witness :
  ∃ s s1, drive (publish_immutable [] "r" one true) 0 s = (inr true, s1)
    ∧ drive (read_immutable_file 2 [] "r" (Some 1)) 1 s1 = (inr one, s1) ∧ (drive (publish_exact 2 [] "r" two) 1 s1).1 = inl Conflict.
Proof.
  assert (reachable false (ask {[("r"%string, one)]} empty) (put 0 (Some (mkThread publisher empty (handler publisher))) (λ _, None))) as H
    by (eapply rtc_l; [apply (step_start false 0 empty (λ _, None) publisher); reflexivity|apply rtc_refl]).
  destruct (publish_read_roundtrip false _ _ 0 1 [] "r" one ROOT true (Some 1) 2 H) as (s1 & H1 & H2 & H3);
    [cbn; apply elem_of_union; left; by apply elem_of_singleton|vm_compute; reflexivity..|lia|].
  exists (ask {[("r"%string, one)]} empty), s1. exact (conj H1 (conj H2 (H3 two))).
Defined.
